(* ===== verification/_CoqProject ===== *)
-Q . S2P
Prelude.v
Store.v
ByteView.v
Hashes.v
Lru.v
LruFacts.v
LruSpec.v
Sharded.v
ShardedFacts.v
Cache.v
CacheFacts.v
ConsistentHash.v
RingFacts.v
Errors.v
Registry.v
RegistryFacts.v
Peers.v
PeersFacts.v
Singleflight.v
Prog.v
Group.v
Rpc.v
GroupFacts.v
Node.v
NodeFacts.v
ReadThrough.v
Cluster.v
ClusterFacts.v
ClusterDelete.v
ClusterReads.v
Interleave.v
Groups.v
GroupsFacts.v
Concurrent.v
Discipline.v
SyncFacts.v
ConcurrentFacts.v
OwnerCache.v
Sweep.v
Live.v
Watch.v
LiveFacts.v
Reads.v
NearCopies.v
Distributed.v
DistributedFacts.v
Staleness.v
Progress.v
Server.v
ServerDiscipline.v
ServerFacts.v
Lifecycle.v
Demo.v
DemoFacts.v
