(* ===== verification/Prelude.v ===== *)
(** * locache: a verified model of the distributed cache

    locache is a distributed in-memory cache in Go.  A consistent-hash ring
    names one owner per key; the owner's cache is canonical, other nodes may keep
    short-lived near copies; mutations go to the owner and then invalidate the
    copies of the others; membership comes from etcd.  This library translates
    the program into executable definitions and proves what makes it correct.

    ** The parts and where they are

    From the bottom up; [XFacts.v] holds the theorems on the definitions of
    [X.v].

    - [Prelude.v]: 64-bit integers, time, strings, shared list lemmas, the hint
      database [locache] and the tactics of the development.
    - [Store.v] (store/store.go): the [Store] interface as a class of operations,
      with the laws ([StoreLaws]) a client relies on.
    - [ByteView.v] (byteview.go), [Hashes.v] (FNV-1a and CRC-32 of the Go standard
      library, with test vectors).
    - [Lru.v], [LruFacts.v], [LruSpec.v] (store/lru.go): the cache with its linked
      list, index, deadlines and byte count; [LruSpec] has the abstract LRU and
      the refinement.  [Sharded.v], [ShardedFacts.v] (store/sharded_lru.go).
      Both implementations are instances of [StoreLaws].
    - [Cache.v], [CacheFacts.v] (cache.go, [NewStore]): the closable cache, proved
      for any store with the laws.
    - [ConsistentHash.v], [RingFacts.v] (consistenthash/): the hash ring.
    - [Errors.v] (errors of group.go, mapGroupError of server.go, classifyRPCError
      of client.go): errors as trees, [errors.Is], and their way through gRPC.
      gRPC's status transport is a class ([Grpc], [GrpcLaws]) with an instance: statuses
      keep their code, context errors get theirs, other errors become Unknown.
    - [Registry.v], [RegistryFacts.v] (registry/register.go): directory keys,
      address normalisation, registration and its closing.
    - [Peers.v], [PeersFacts.v] (peers.go, NewClient): membership, routing and
      invalidation; etcd snapshots, watch events and dialling are inputs.
    - [Singleflight.v] (singleflight/): [Do] as a machine with one step per
      critical section and any number of goroutines.
    - [Prog.v]: programs as trees of atomic events, their traces ([runs]), their
      execution by a handler ([interp]) and the rules [ends_*] to reason about it.
    - [Group.v], [GroupFacts.v] (group.go): [Get], [Set], [Delete] and their
      helpers as programs; every access to shared state, lock, clock reading and
      call of another component is an event.
    - [Rpc.v] (client.go, server.go): the client's methods and the handlers, the size of
      their messages on the wire and the limits it has to pass.
    - [Node.v], [NodeFacts.v], [ReadThrough.v] (group.go): the mutable fields of a
      group, its key states, and the effect of every event on them; the outcome
      of the owner's operations, with a value and without.
    - [Cluster.v], [ClusterFacts.v], [ClusterDelete.v], [ClusterReads.v]: nodes whose
      peer calls run the handlers of the addressed node, if the messages pass the
      limits; [Set] and [Get], [Delete], and reads of keys that no node holds.
    - [Interleave.v]: any number of goroutines, each a program, on one shared
      state, and the method to verify them: each program keeps a discipline
      ([obeys]), and a step that keeps it preserves the invariant.
    - [Groups.v], [GroupsFacts.v] (group.go): NewGroup with its options, the
      table of groups, closing and destroying groups, as programs whose events are
      the sections of [groupsMu] and the accesses to a group.
    - [Concurrent.v], [Discipline.v], [SyncFacts.v], [ConcurrentFacts.v],
      [OwnerCache.v], [Progress.v] (group.go, singleflight/): [Get], [Set], [Delete] and the
      handlers of one node interleaved event by event.
    - [Sweep.v] (store/): the cleanup goroutines of the stores, as their clients
      see them.
    - [Live.v], [Watch.v], [LiveFacts.v], [Reads.v], [NearCopies.v] (group.go, cache.go,
      store/): the same interleavings on a node with its real caches, counters, clock and
      picker, while time passes, stores are cleaned up, membership changes and the
      group is cleared or closed.
    - [Distributed.v], [DistributedFacts.v], [Staleness.v] (group.go, client.go, server.go):
      several such nodes; a peer call that succeeds was served by a handler of the called node
      while the caller waited.
    - [Server.v], [ServerDiscipline.v], [ServerFacts.v], [Lifecycle.v] (server.go,
      registry/register.go): options (any functions) and construction of a server,
      [Start] and [Stop] interleaved event by event with the handlers of the gRPC
      server and the failures of listeners; [Serve] and [GracefulStop] block.
    - [Demo.v], [DemoFacts.v] (example/multi_node_demo.go): a process of the demo, put
      together by its [main], and its HTTP handler.

    ** What the theorems show

    - Stores: every run of the LRU is a run of the abstract LRU; the byte count
      is exact and within the budget; a value that is not pushed out lives from
      its write to its deadline; eviction takes the least recently used first and does not depend
      on the iteration order of a Go map; the shards split the budget exactly
      and together respect it; entries added with an expiration time live as long.
    - Ring: the lookup finds the clockwise successor; the ring depends on its
      members only, not on its history; changes of membership move only the keys
      they must.
    - Membership: the picker's members are those of the directory it follows;
      equal directories give equal owners; an unchanged epoch means an unchanged
      ring; connections are closed exactly once.
    - Errors: topology errors and misses of the remote group are recognised across
      an RPC, and nothing else is taken for them except errors of a source that
      are gRPC statuses with their codes.
    - Singleflight: one execution per key at a time, shared outcomes, no deadlock.
    - Group: in every trace, whatever the components answer, a value comes from
      the owner's path or from a confirmed owner, an acknowledged mutation was
      carried out by a confirmed owner (except that a [Set] whose four attempts
      this node refuses itself returns nil and stores nothing,
      [group_set_lost]), only the owner loads and stores, handlers do
      not call peers and operations make at most four peer calls.
    - Cluster: in a connected cluster a [Set] of a value that fits the owner's cache
      and the message limits succeeds, and the [Get]s of the key that follow it, at
      any nodes, return the value until it expires ([cluster_reads_see_write]); after
      a [Delete] they miss everywhere, or load once through the owner and return what
      was loaded until it expires, also when the source has changed since
      ([cluster_reads_after_delete]).
    - Table: when all calls have returned, exactly the open groups are
      registered, under their names, and all others have closed caches; before that the
      exceptions are the groups that some goroutine is about to close or is
      closing ([groups_settle]).
    - Interleavings on a node: a loaded value never overwrites a mutation that
      came after the load ([concurrent_loads_fresh]), so the owner cache holds what
      the last mutation wrote or something loaded after it
      ([concurrent_last_mutation_wins]); the reference count of a key state is the
      number of its users, and key states, mutexes and calls in flight do not leak; no deadlock, and every schedule ends.
      With real caches the owner cache answers what it was last told
      ([live_owner_cache_refines]: a write that comes after its own deadline is
      dropped, but then the entry it would have replaced has expired too), and
      reads are regular: nothing older than a mutation that had returned before
      the read began ([concurrent_reads_regular]).  What is found in the near
      cache was written by this node or answered by another one, for less than the
      time to live, and not invalidated since ([near_copies_bounded]).
      [owner_epoch_overtaken] exhibits a store that a change of epoch overtook,
      [deleted_value_joined] a read that is given a value deleted before it began.
    - Interleavings on several nodes: while a key has one owner, a mutation
      acknowledged at any node was carried out by the owner, and later reads at any
      node return near copies or nothing older ([distributed_reads_regular]).  Near
      copies are nothing older either, unless an operation that had begun before
      the mutation returned made them, and then less than the time to live ago
      ([near_copies_staleness]).
    - Lifecycle: [NewServer] returns a well-formed server or leaves nothing open;
      [Stop] takes effect once and in order, and whichever call of it returns, all
      is done; etcd is asked exactly once to revoke every lease, which is revoked
      if that call succeeds; when [Stop] closes the client before [Start] has published
      the registration it does not ([server_stop_race]); no deadlock; the
      entry a server puts is the one pickers read, under the same name.
    - Demo: processes set up by [main] whose pickers have followed the directory
      are a connected cluster and remain one whatever requests they handle, so a PUT
      of up to 128 KiB at any of them is what the GETs of the key that follow show
      for 30 seconds ([demo_gets_see_put]) and a DELETE brings back the source's value
      ([demo_gets_reload_after_delete]); the statuses of the handler
      ([demo_api_status]).

    ** Modelling choices and bounds

    Integers are [Z], reduced to their width where the code can overflow
    ([int64], [uint32], [uint64]).  A method that holds one mutex throughout is
    one function on the state; where the code takes locks in between, the
    events or steps are those between the locks.  Clock readings are arguments
    of functions and answers of events; [Node.v] draws them from a clock that
    never goes back ([tick]).  The doubling loop of [nextPowerOfTwo] has fuel 64:
    it ends within 63 iterations or never ([nextPowerOfTwo_least],
    [nextPowerOfTwo_overflow_diverges]).  The halving loop has fuel 64, the
    bisection and the eviction loop have the length of what they search or shrink
    as fuel; the proofs show that they end by their conditions.  The retry loops
    run four times in the source.  The waiting loop of [waitForTopologyRetry]
    takes the number of ticks before its timer fires as an argument, so
    statements hold for every number.  Panics are results ([Boom]).

    An interleaving has fewer than 2^62 goroutines, so that reference counts do
    not overflow; the theorems on the values in the owner cache and on reads
    assume fewer than 2^64 events, so that a generation does not come back.  In
    [Distributed.v] a failed call has any error, whatever its handler did, and the
    answer of an invalidation is free; in [Live.v] the source answers freely, in
    [Node.v] and [Cluster.v] it is any function of time and key.

    Not modelled: contexts, except as answers of calls that end early; the
    generated protobuf code; logging; serving HTTP; floating-point statistics (the
    hit rate is an exact fraction, the average load time is left out).
    [Cluster.v] runs operations one at a time, with every call delivered whose
    messages pass the limits; its theorems are the stronger ones on what reads return, those of
    [Distributed.v] hold under concurrency and failures.  The keep-alive goroutine of a
    registration only logs: that it has ended is an answer of the select in
    [Close].

    ** Plan

    Next: ownership that changes while operations of several nodes run. *)

From stdpp Require Export base gmap strings list fin_maps sorting pretty.
From Stdlib Require Export ZArith Lia.
#[global] Open Scope Z_scope.

(** ** Machine integers

    Go's [int] and [int64] are modelled as [Z] reduced to 64-bit two's
    complement after every operation that can overflow; [uint32] and [uint64]
    as [Z] modulo [2^32] and [2^64]. *)

Definition int64 (z : Z) : Z := (z + 2 ^ 63) mod 2 ^ 64 - 2 ^ 63.
Definition uint32 (z : Z) : Z := z mod 2 ^ 32.
Definition uint64 (z : Z) : Z := z mod 2 ^ 64.

Definition min_int64 : Z := - 2 ^ 63.
Definition max_int64 : Z := 2 ^ 63 - 1.

(** ** Time

    [time.Time] is an integer number of nanoseconds; [time.Duration] is an
    [int64] number of nanoseconds.  [Time.Sub] saturates, as documented. *)

Definition Millisecond : Z := 1000000.
Definition Second : Z := 1000 * Millisecond.
Definition Minute : Z := 60 * Second.

Definition time_Add (t d : Z) : Z := t + d.
Definition time_Before (t u : Z) : bool := t <? u.
Definition time_Sub (t u : Z) : Z := Z.max min_int64 (Z.min max_int64 (t - u)).

(** ** Strings and bytes *)

(** [len] of a Go string: its number of bytes. *)
Definition go_len (s : string) : Z := Z.of_nat (String.length s).

(** A byte slice holds bytes; a Go [string] converted with [\[\]byte(s)]. *)
Definition byte_of (a : Ascii.ascii) : Z := Z.of_N (Ascii.N_of_ascii a).
Definition bytes_of (s : string) : list Z := byte_of <$> String.list_ascii_of_string s.

(** Go's [<] on strings: lexicographic on bytes. *)
Definition string_lt (s t : string) : bool := String.ltb s t.

(** ** Sums of [Z] over lists *)

Definition sumZ {A} (f : A → Z) (l : list A) : Z := foldr (λ x a, f x + a) 0 l.

(** ** Tactics and hint databases *)

Create HintDb locache.
Create Rewrite HintDb locache.
Create HintDb locache_wf.

(** Case analysis on the innermost [match] scrutinee of the goal. *)
Ltac case_goal :=
  match goal with
  | |- context [match ?x with _ => _ end] =>
      lazymatch x with context [match _ with _ => _ end] => fail | _ => destruct x eqn:? end
  end.

(** Turn boolean comparisons on [Z] into propositions. *)
Ltac zbool :=
  repeat match goal with
  | H : (_ && _)%bool = true |- _ => apply andb_true_iff in H as [? ?]
  | H : (_ && _)%bool = false |- _ => apply andb_false_iff in H
  | H : (_ || _)%bool = true |- _ => apply orb_true_iff in H
  | H : (_ || _)%bool = false |- _ => apply orb_false_iff in H as [? ?]
  | H : negb _ = true |- _ => apply negb_true_iff in H
  | H : negb _ = false |- _ => apply negb_false_iff in H
  | H : (_ <? _) = true |- _ => apply Z.ltb_lt in H
  | H : (_ <? _) = false |- _ => apply Z.ltb_ge in H
  | H : (_ <=? _) = true |- _ => apply Z.leb_le in H
  | H : (_ <=? _) = false |- _ => apply Z.leb_gt in H
  | H : (_ =? _) = true |- _ => apply Z.eqb_eq in H
  | H : (_ =? _) = false |- _ => apply Z.eqb_neq in H
  end.

(** ** Lemmas on machine integers *)

Lemma int64_range z : - 2 ^ 63 ≤ int64 z < 2 ^ 63.
Proof. unfold int64. pose proof (Z.mod_pos_bound (z + 2 ^ 63) (2 ^ 64)). lia. Qed.

Lemma int64_small z : - 2 ^ 63 ≤ z < 2 ^ 63 → int64 z = z.
Proof. intros. unfold int64. rewrite Z.mod_small; lia. Qed.

Lemma int64_congr z : ∃ q, int64 z = z + q * 2 ^ 64.
Proof.
  exists (- ((z + 2 ^ 63) / 2 ^ 64)). unfold int64.
  pose proof (Z.div_mod (z + 2 ^ 63) (2 ^ 64)). lia.
Qed.

(** Two integers congruent modulo [2^64] wrap to the same [int64]. *)
Lemma int64_eq x y q : x = y + q * 2 ^ 64 → int64 x = int64 y.
Proof.
  intros ->. unfold int64.
  replace (y + q * 2 ^ 64 + 2 ^ 63) with (y + 2 ^ 63 + q * 2 ^ 64) by lia.
  by rewrite Z.mod_add by lia.
Qed.

Lemma int64_add_l x y : int64 (int64 x + y) = int64 (x + y).
Proof. destruct (int64_congr x) as [q ->]. apply (int64_eq _ _ q). lia. Qed.

Lemma int64_sub_l x y : int64 (int64 x - y) = int64 (x - y).
Proof. destruct (int64_congr x) as [q ->]. apply (int64_eq _ _ q). lia. Qed.

Lemma int64_add_r x y : int64 (x + int64 y) = int64 (x + y).
Proof. by rewrite Z.add_comm, int64_add_l, Z.add_comm. Qed.

Lemma int64_sub_r x y : int64 (x - int64 y) = int64 (x - y).
Proof. destruct (int64_congr y) as [q ->]. apply (int64_eq _ _ (- q)). lia. Qed.

#[export] Hint Rewrite int64_add_l int64_sub_l int64_add_r int64_sub_r : locache.

Lemma uint32_range z : 0 ≤ uint32 z < 2 ^ 32.
Proof. apply Z.mod_pos_bound. lia. Qed.

Lemma uint64_range z : 0 ≤ uint64 z < 2 ^ 64.
Proof. apply Z.mod_pos_bound. lia. Qed.

Lemma uint64_small z : 0 ≤ z < 2 ^ 64 → uint64 z = z.
Proof. apply Z.mod_small. Qed.

Lemma time_Before_false t u : time_Before t u = false ↔ u ≤ t.
Proof. unfold time_Before. by rewrite Z.ltb_ge. Qed.

Lemma time_Before_true t u : time_Before t u = true ↔ t < u.
Proof. unfold time_Before. by rewrite Z.ltb_lt. Qed.

Lemma time_Sub_small t u : min_int64 ≤ t - u ≤ max_int64 → time_Sub t u = t - u.
Proof. unfold time_Sub. lia. Qed.

Lemma go_len_nonneg s : 0 ≤ go_len s.
Proof. unfold go_len. lia. Qed.
#[export] Hint Resolve go_len_nonneg : locache.

Lemma byte_of_range a : 0 ≤ byte_of a < 256.
Proof.
  unfold byte_of. pose proof (Ascii.N_ascii_bounded a). lia.
Qed.

(** ** Lemmas on sums *)

Section sumZ.
Context {A : Type}.
Implicit Types (f : A → Z) (l : list A).

Lemma sumZ_app f l1 l2 : sumZ f (l1 ++ l2) = sumZ f l1 + sumZ f l2.
Proof. induction l1; simpl; lia. Qed.

Lemma sumZ_nonneg f l : (∀ x, x ∈ l → 0 ≤ f x) → 0 ≤ sumZ f l.
Proof.
  induction l as [|x l IH]; simpl; [lia|]. intros Hf.
  pose proof (Hf x (list_elem_of_here _ _)).
  assert (0 ≤ sumZ f l) by (apply IH; intros; apply Hf; by right). lia.
Qed.

#[global] Instance sumZ_Permutation f : Proper ((≡ₚ) ==> (=)) (sumZ f).
Proof. induction 1; simpl; lia. Qed.

Lemma sumZ_ext f g l : (∀ x, x ∈ l → f x = g x) → sumZ f l = sumZ g l.
Proof.
  induction l as [|x l IH]; simpl; [done|]. intros Hf.
  rewrite (Hf x) by (by left). f_equal. apply IH. intros; apply Hf; by right.
Qed.
End sumZ.

(** ** Lemmas on removing one element from a duplicate-free list *)

Lemma filter_all {A} (P : A → Prop) `{!∀ x, Decision (P x)} (l : list A) :
  (∀ x, x ∈ l → P x) → filter P l = l.
Proof.
  induction l as [|x l IH]; [done|]. intros HP.
  rewrite filter_cons_True by (apply HP; by left). f_equal. apply IH. intros; apply HP; by right.
Qed.

Section list_remove_one.
Context `{EqDecision A}.
Implicit Types (x : A) (l : list A).

Lemma filter_ne_not_in x l : x ∉ l → filter (λ y, y ≠ x) l = l.
Proof. intros Hx. apply filter_all. by intros y Hy ->. Qed.

Lemma filter_ne_split x l1 l2 :
  NoDup (l1 ++ x :: l2) → filter (λ y, y ≠ x) (l1 ++ x :: l2) = l1 ++ l2.
Proof.
  intros (_ & Hx & [? ?]%NoDup_cons)%NoDup_app.
  rewrite filter_app, filter_cons_False by auto.
  rewrite !filter_ne_not_in; [done|done|].
  intros Hin. destruct (Hx x Hin). by left.
Qed.

Lemma filter_ne_length x l : x ∈ l → (length (filter (λ y, y ≠ x) l) < length l)%nat.
Proof. intros. by apply (length_filter_lt _ _ x); [|intros []]. Qed.
End list_remove_one.

(** ** Lemmas on [omap] *)

Section omap.
Context {A B : Type}.
Implicit Types (f : A → option B) (l : list A).

Lemma omap_filter f (P : A → Prop) (Q : B → Prop)
    `{!∀ x, Decision (P x), !∀ y, Decision (Q y)} l :
  (∀ x, x ∈ l → ∃ y, f x = Some y ∧ (P x ↔ Q y)) →
  omap f (filter P l) = filter Q (omap f l).
Proof.
  induction l as [|x l IH]; [done|]. intros Hf.
  destruct (Hf x) as (y & Hy & HPQ); [by left|].
  assert (∀ x, x ∈ l → ∃ y, f x = Some y ∧ (P x ↔ Q y)) as Hl by (intros; apply Hf; by right).
  rewrite filter_cons. csimpl. rewrite Hy, filter_cons, <-IH by done.
  repeat case_decide; try tauto; csimpl; by rewrite ?Hy.
Qed.

Lemma omap_ext_elem f g l : (∀ x, x ∈ l → f x = g x) → omap f l = omap g l.
Proof.
  induction l as [|x l IH]; [done|]. intros Hf. csimpl.
  rewrite (Hf x) by (by left). rewrite IH; [done|]. intros; apply Hf; by right.
Qed.

Lemma length_omap_all f l : (∀ x, x ∈ l → is_Some (f x)) → length (omap f l) = length l.
Proof.
  induction l as [|x l IH]; [done|]. intros Hf. csimpl.
  destruct (Hf x) as [y ->]; [by left|]. simpl. f_equal. apply IH. intros; apply Hf; by right.
Qed.
End omap.

(** ** Decimal numerals *)

Fixpoint string_all (P : Ascii.ascii → bool) (s : string) : bool :=
  match s with EmptyString => true | String a s => P a && string_all P s end.

(** The characters of a decimal numeral. *)
Definition numeral_char (a : Ascii.ascii) : bool :=
  let n := Ascii.nat_of_ascii a in (48 <=? n)%nat && (n <=? 57)%nat || (n =? 45)%nat.

Lemma string_all_app P s t : string_all P (s +:+ t) = string_all P s && string_all P t.
Proof. induction s as [|a s IH]; [done|]. simpl. by rewrite IH, andb_assoc. Qed.

Lemma pretty_N_go_numeral x s : string_all numeral_char s = true → string_all numeral_char (pretty_N_go x s) = true.
Proof.
  revert s. induction (N.lt_wf_0 x) as [x _ IH]. intros s Hs.
  assert (x = 0 ∨ 0 < x)%N as [->|Hx] by lia; [by rewrite pretty_N_go_0|].
  rewrite pretty_N_go_step by done. apply IH; [by apply N.div_lt|]. simpl. rewrite Hs, andb_true_r.
  unfold pretty_N_char. by repeat case_match.
Qed.

Lemma pretty_numeral (z : Z) : string_all numeral_char (pretty z) = true.
Proof.
  assert (∀ n : N, string_all numeral_char (pretty n) = true) as HN.
  { intros n. unfold pretty, pretty_N. case_decide; [done|]. by apply pretty_N_go_numeral. }
  destruct z as [|p|p]; [done|apply (HN (Npos p))|apply (HN (Npos p))].
Qed.

(** Two strings split at the first occurrence of a separator. *)
Lemma string_split_inj P (c : Ascii.ascii) s1 s2 t1 t2 :
  P c = false → string_all P s1 = true → string_all P t1 = true →
  s1 +:+ String c s2 = t1 +:+ String c t2 → s1 = t1 ∧ s2 = t2.
Proof.
  intros Hc. revert t1. induction s1 as [|a s1 IH]; intros [|a' t1]; simpl.
  - intros _ _ Heq. by injection Heq.
  - intros _ [Ha _]%andb_prop Heq. injection Heq as -> _. by rewrite Ha in Hc.
  - intros [Ha _]%andb_prop _ Heq. injection Heq as -> _. by rewrite Ha in Hc.
  - intros [_ Ha]%andb_prop [_ Ha']%andb_prop Heq. injection Heq as -> Heq.
    destruct (IH t1 Ha Ha' Heq) as [-> ->]. done.
Qed.
