(* ===== verification/Store.v ===== *)
(** * The store contract (store/store.go)

    The [Value] interface, the [Options] record, and the [Store] interface as a
    type class: the operations, and the laws a client of a store may rely on,
    stated over the value a key has at a given instant ([st_lookup]).  The
    laws are what [Cache] and [Group] are verified against; [Lru], [Sharded]
    and [NewStore] discharge them. *)

From S2P Require Import Prelude.

(** [type Value interface \{ Len() int \}] *)
Class Value (V : Type) := Len : V → Z.

(** Every implementation in the repository reports a byte count. *)
Class ValueLen (V : Type) `{Value V} := Len_nonneg : ∀ v : V, 0 ≤ Len v.

(** [type CacheType string] and its two constants. *)
Definition LRU : string := "lru".
Definition ShardedLRU : string := "sharded-lru".

(** [type Options struct].  [OnEvicted] records whether a callback is
    installed; the calls made to it are logged by the caches. *)
Record Options := mkOptions {
  MaxBytes : Z;
  ShardCount : Z;
  CleanupInterval : Z;
  OnEvicted : bool
}.

Definition NewOptions : Options :=
  {| MaxBytes := Z.shiftl 8 20; ShardCount := 16; CleanupInterval := Minute; OnEvicted := false |}.

(** [type Store interface].  Clock readings are arguments: [SetWithExpiration]
    reads the clock once for the deadline and once for the eviction sweep. *)
Class Store (S V : Type) := {
  st_Get : Z → string → S → S * option V;
  st_Set : Z → string → option V → S → S;
  st_SetWithExpiration : Z → Z → string → option V → Z → S → S;
  st_Delete : string → S → S * bool;
  st_Clear : S → S;
  st_Len : S → Z;
  st_Close : S → S
}.

(** The vocabulary of the contract.  [st_lookup t k s] is the value key [k] has
    at instant [t]; [st_room s k v] says that the entry fits the budget of the
    place where the store would keep it. *)
Class StoreModel (S V : Type) := {
  st_wf : S → Prop;
  st_lookup : Z → string → S → option V;
  st_room : S → string → V → Prop
}.

(** The contract. *)
Class StoreLaws (S V : Type) `{Store S V, StoreModel S V} : Prop := {
  st_Get_wf now k s : st_wf s → st_wf (st_Get now k s).1;
  st_Set_wf now k v s : st_wf s → st_wf (st_Set now k v s);
  st_SetExp_wf now now' k v d s : st_wf s → st_wf (st_SetWithExpiration now now' k v d s);
  st_Delete_wf k s : st_wf s → st_wf (st_Delete k s).1;
  st_Clear_wf s : st_wf s → st_wf (st_Clear s);
  st_Close_wf s : st_wf s → st_wf (st_Close s);

  (** A value that is visible at [t] was visible before [t]. *)
  st_lookup_mono t t' k v s : st_wf s → t ≤ t' → st_lookup t' k s = Some v → st_lookup t k s = Some v;

  st_Get_result now k s : st_wf s → (st_Get now k s).2 = st_lookup now k s;
  st_Get_frame now t k k' s : st_wf s → now ≤ t → st_lookup t k' (st_Get now k s).1 = st_lookup t k' s;

  st_Set_same now t k v s :
    st_wf s → st_room s k v → now ≤ t → st_lookup t k (st_Set now k (Some v) s) = Some v;
  st_Set_only now t k v w s : st_wf s → st_lookup t k (st_Set now k (Some v) s) = Some w → w = v;
  st_Set_other now t k k' v s :
    st_wf s → k ≠ k' → now ≤ t →
    st_lookup t k' (st_Set now k (Some v) s) = st_lookup t k' s ∨
    st_lookup t k' (st_Set now k (Some v) s) = None;

  st_SetExp_same now now' t k v d s :
    st_wf s → st_room s k v → 0 < d → now' ≤ t → t < now + d →
    st_lookup t k (st_SetWithExpiration now now' k (Some v) d s) = Some v;
  st_SetExp_expired now now' t k v d s :
    st_wf s → 0 < d → now + d ≤ t →
    st_lookup t k (st_SetWithExpiration now now' k (Some v) d s) = None;
  st_SetExp_only now now' t k v w d s :
    st_wf s → st_lookup t k (st_SetWithExpiration now now' k (Some v) d s) = Some w → w = v;
  st_SetExp_other now now' t k k' v d s :
    st_wf s → k ≠ k' → now' ≤ t →
    st_lookup t k' (st_SetWithExpiration now now' k (Some v) d s) = st_lookup t k' s ∨
    st_lookup t k' (st_SetWithExpiration now now' k (Some v) d s) = None;

  st_Delete_same t k s : st_wf s → st_lookup t k (st_Delete k s).1 = None;
  st_Delete_other t k k' s : st_wf s → k ≠ k' → st_lookup t k' (st_Delete k s).1 = st_lookup t k' s;
  st_Delete_result t k s : st_wf s → is_Some (st_lookup t k s) → (st_Delete k s).2 = true;

  st_Clear_lookup t k s : st_wf s → st_lookup t k (st_Clear s) = None;
  st_Close_lookup t k s : st_wf s → st_lookup t k (st_Close s) = st_lookup t k s;
  st_Get_room now k k' v s : st_wf s → st_room (st_Get now k s).1 k' v ↔ st_room s k' v;
  st_Set_room now k w k' v s : st_wf s → st_room (st_Set now k w s) k' v ↔ st_room s k' v;
  st_SetExp_room now now' k w d k' v s :
    st_wf s → st_room (st_SetWithExpiration now now' k w d s) k' v ↔ st_room s k' v;
  st_Delete_room k k' v s : st_wf s → st_room (st_Delete k s).1 k' v ↔ st_room s k' v;
  st_Clear_room k' v s : st_wf s → st_room (st_Clear s) k' v ↔ st_room s k' v
}.

#[export] Hint Resolve st_Get_wf st_Set_wf st_SetExp_wf st_Delete_wf st_Clear_wf st_Close_wf
  : locache_wf.
