(* ===== verification/ByteView.v ===== *)
(** * ByteView (byteview.go)

    The cached value: a view of bytes.  A byte is an integer; the view is the
    list of its bytes. *)

From S2P Require Import Prelude Store.

(** [type ByteView struct\{ b \[\]byte \}] *)
Record ByteView := mkByteView { b : list Z }.

(** [cloneBytes]: a fresh slice of the same length filled by [copy]. *)
Definition cloneBytes (bs : list Z) : list Z :=
  let c := replicate (length bs) 0 in
  take (length c) bs ++ drop (length bs) c.

Definition ByteView_Len (v : ByteView) : Z := Z.of_nat (length (b v)).
Definition ByteView_String (v : ByteView) : list Z := b v.
Definition ByteSlice (v : ByteView) : list Z := cloneBytes (b v).
Definition ByteSLice (v : ByteView) : list Z := ByteSlice v.

#[export] Instance ByteView_Value : Value ByteView := ByteView_Len.

#[export] Instance ByteView_ValueLen : ValueLen ByteView.
Proof. intros v. unfold Len, ByteView_Value, ByteView_Len. lia. Qed.

#[export] Instance ByteView_eq_dec : EqDecision ByteView.
Proof. solve_decision. Defined.

(** The zero value [ByteView\{\}] returned with every error. *)
Definition ByteView_zero : ByteView := mkByteView [].

Lemma cloneBytes_id bs : cloneBytes bs = bs.
Proof.
  unfold cloneBytes. rewrite length_replicate, take_ge, drop_ge by (rewrite ?length_replicate; lia).
  apply app_nil_r.
Qed.
#[export] Hint Rewrite cloneBytes_id : locache.
