(* ===== verification/Hashes.v ===== *)
(** * Hash functions of the Go standard library

    The two hash functions the repository uses: [hash/fnv]'s 32-bit FNV-1a,
    which selects a shard, and [hash/crc32]'s IEEE checksum, the default hash
    of the ring. *)

From S2P Require Import Prelude.

(** [fnv.New32a] followed by [Write] and [Sum32]. *)
Definition fnv_offset32 : Z := 2166136261.
Definition fnv_prime32 : Z := 16777619.
Definition fnv32a_step (h c : Z) : Z := uint32 (Z.lxor h c * fnv_prime32).
Definition fnv32a (data : list Z) : Z := foldl fnv32a_step fnv_offset32 data.

(** [crc32.ChecksumIEEE]: the reflected polynomial [0xedb88320], one bit at a
    time. *)
Definition crc_poly : Z := 3988292384.
Definition crc_bit (c : Z) : Z :=
  if Z.odd c then Z.lxor (Z.shiftr c 1) crc_poly else Z.shiftr c 1.
Definition crc_byte (crc x : Z) : Z := Nat.iter 8 crc_bit (Z.lxor crc x).
Definition ChecksumIEEE (data : list Z) : Z :=
  Z.lxor (foldl crc_byte 4294967295 data) 4294967295.

(** Published test vectors. *)
Example fnv32a_vectors :
  fnv32a (bytes_of "") = 2166136261 ∧ fnv32a (bytes_of "a") = 3826002220 ∧
  fnv32a (bytes_of "foobar") = 3214735720.
Proof. by vm_compute. Qed.

Example crc32_vectors :
  ChecksumIEEE (bytes_of "") = 0 ∧ ChecksumIEEE (bytes_of "123456789") = 3421780262.
Proof. by vm_compute. Qed.

Lemma fnv32a_range data : 0 ≤ fnv32a data < 2 ^ 32.
Proof.
  unfold fnv32a.
  assert (∀ h, 0 ≤ h < 2 ^ 32 → 0 ≤ foldl fnv32a_step h data < 2 ^ 32) as Hstep.
  { induction data as [|x data IH]; intros h Hh; simpl; [done|]. apply IH, uint32_range. }
  apply Hstep. unfold fnv_offset32. lia.
Qed.

(** Numbers below [2^n] are closed under the bit operations the hashes use. *)
Lemma bits_small a n : 0 ≤ n → 0 ≤ a → (0 ≤ a < 2 ^ n ↔ ∀ i, n ≤ i → Z.testbit a i = false).
Proof.
  intros Hn Ha. split.
  - intros [_ Hlt] i Hi. destruct (decide (a = 0)) as [->|]; [apply Z.testbit_0_l|].
    apply Z.bits_above_log2; [done|]. apply Z.log2_lt_pow2; [lia|].
    eapply Z.lt_le_trans; [done|]. apply Z.pow_le_mono_r; lia.
  - intros Hbits. split; [done|]. destruct (decide (a = 0)) as [->|]; [apply Z.pow_pos_nonneg; lia|].
    apply Z.log2_lt_pow2; [lia|]. destruct (Z.lt_ge_cases (Z.log2 a) n) as [|Hge]; [done|].
    specialize (Hbits _ Hge). rewrite Z.bit_log2 in Hbits by lia. done.
Qed.

Lemma lxor_small a b n : 0 ≤ n → 0 ≤ a < 2 ^ n → 0 ≤ b < 2 ^ n → 0 ≤ Z.lxor a b < 2 ^ n.
Proof.
  intros Hn Ha Hb.
  assert (0 ≤ Z.lxor a b) by (apply Z.lxor_nonneg; lia).
  apply bits_small; [done..|]. intros i Hi. rewrite Z.lxor_spec.
  by rewrite (proj1 (bits_small a n Hn ltac:(lia)) Ha), (proj1 (bits_small b n Hn ltac:(lia)) Hb).
Qed.

Lemma shiftr_small a n : 0 ≤ n → 0 ≤ a < 2 ^ n → 0 ≤ Z.shiftr a 1 < 2 ^ n.
Proof. intros Hn Ha. rewrite Z.shiftr_div_pow2 by lia. change (2 ^ 1) with 2. Z.div_mod_to_equations. lia. Qed.

Lemma crc_bit_range c : 0 ≤ c < 2 ^ 32 → 0 ≤ crc_bit c < 2 ^ 32.
Proof.
  intros Hc. unfold crc_bit. pose proof (shiftr_small c 32 ltac:(lia) Hc).
  case_match; [|done]. apply lxor_small; [lia|done|unfold crc_poly; lia].
Qed.

Lemma crc_byte_range crc x : 0 ≤ crc < 2 ^ 32 → 0 ≤ x < 2 ^ 32 → 0 ≤ crc_byte crc x < 2 ^ 32.
Proof.
  intros Hc Hx. unfold crc_byte. pose proof (lxor_small crc x 32 ltac:(lia) Hc Hx) as Hl.
  revert Hl. generalize (Z.lxor crc x) as h. generalize 8%nat as n.
  induction n as [|n IH]; intros h Hh; simpl; [done|]. by apply crc_bit_range, IH.
Qed.

(** The checksum of a string is a [uint32]. *)
Lemma ChecksumIEEE_range s : 0 ≤ ChecksumIEEE (bytes_of s) < 2 ^ 32.
Proof.
  unfold ChecksumIEEE, bytes_of. apply lxor_small; [lia| |lia].
  assert (∀ c, 0 ≤ c < 2 ^ 32 →
    0 ≤ foldl crc_byte c (byte_of <$> String.list_ascii_of_string s) < 2 ^ 32) as Hf; [|apply Hf; lia].
  induction (String.list_ascii_of_string s) as [|a l IH]; intros c Hc; simpl; [done|].
  apply IH, crc_byte_range; [done|]. pose proof (byte_of_range a). lia.
Qed.
