(* ===== verification/Lru.v ===== *)
(** * The LRU cache (store/lru.go)

    [lruCache] with its [container/list] list, its map of list elements and its
    map of deadlines.  List elements are pointers in the source; here an
    element is an identifier into [elems], the memory of allocated elements,
    so that the aliasing between [list] and [items] is explicit.  Each method
    runs under [c.mu], so a method is one state transformer; the clock
    readings it takes are arguments. *)

From S2P Require Import Prelude Store.

Section lru.
Context {V : Type} `{Value V}.

(** ** Data *)

Record lruEntry := mkEntry { key : string; value : V }.

(** [evicted] logs the calls of [onEvicted].  [cleanupTicker] is [None] for a
    nil ticker and [Some running] otherwise; [closed] is the state of
    [closeOnce]/[closeCh]. *)
Record lruCache := mkLru {
  llist : list nat;
  elems : gmap nat lruEntry;
  next : nat;
  items : gmap string nat;
  expires : gmap string Z;
  maxBytes : Z;
  usedBytes : Z;
  onEvicted : bool;
  evicted : list (string * V);
  cleanupInterval : Z;
  cleanupTicker : option bool;
  closed : bool
}.

(** The fields a locked operation changes. *)
Definition upd (c : lruCache) (l : list nat) (el : gmap nat lruEntry) (n : nat)
    (it : gmap string nat) (ex : gmap string Z) (u : Z) (ev : list (string * V)) : lruCache :=
  {| llist := l; elems := el; next := n; items := it; expires := ex;
     maxBytes := maxBytes c; usedBytes := u; onEvicted := onEvicted c; evicted := ev;
     cleanupInterval := cleanupInterval c; cleanupTicker := cleanupTicker c;
     closed := closed c |}.

(** ** container/list *)

(** [list.List.Remove] and [list.List.MoveToBack] on an element of the list. *)
Definition list_Remove (e : nat) (l : list nat) : list nat := filter (λ x, x ≠ e) l.
Definition list_MoveToBack (e : nat) (l : list nat) : list nat :=
  if decide (e ∈ l) then list_Remove e l ++ [e] else l.

(** ** Construction *)

Definition newLRUCacheInternal (opts : Options) (startCleanup : bool) : lruCache :=
  let cleanupInterval :=
    if CleanupInterval opts <=? 0 then Minute else CleanupInterval opts in
  {| llist := []; elems := ∅; next := 0; items := ∅; expires := ∅;
     maxBytes := MaxBytes opts; usedBytes := 0; onEvicted := OnEvicted opts; evicted := [];
     cleanupInterval := cleanupInterval;
     cleanupTicker := if startCleanup then Some true else None;
     closed := false |}.

Definition newLRUCache (opts : Options) : lruCache := newLRUCacheInternal opts true.

(** ** Operations *)

(** [len(entry.key) + entry.value.Len()], an [int] converted to [int64]. *)
Definition entry_cost (en : lruEntry) : Z := int64 (go_len (key en) + Len (value en)).

Definition removeElement (e : nat) (c : lruCache) : lruCache :=
  match elems c !! e with
  | None => c
  | Some entry =>
      upd c (list_Remove e (llist c)) (elems c) (next c)
        (delete (key entry) (items c)) (delete (key entry) (expires c))
        (int64 (usedBytes c - entry_cost entry))
        (if onEvicted c then evicted c ++ [(key entry, value entry)] else evicted c)
  end.

Definition moveToBack (e : nat) (c : lruCache) : lruCache :=
  upd c (list_MoveToBack e (llist c)) (elems c) (next c) (items c) (expires c)
    (usedBytes c) (evicted c).

(** The value of an element, [elem.Value.(\*lruEntry).value]. *)
Definition elem_value (c : lruCache) (e : nat) : option V := value <$> elems c !! e.

(** The deadline test of [Get]: [hasExp && !time.Now().Before(exp)]. *)
Definition expiredAt (now : Z) (k : string) (c : lruCache) : bool :=
  match expires c !! k with Some exp => negb (time_Before now exp) | None => false end.

Definition Get (now : Z) (k : string) (c : lruCache) : lruCache * option V :=
  match items c !! k with
  | None => (c, None)
  | Some elem =>
      if expiredAt now k c then (removeElement elem c, None)
      else (moveToBack elem c, elem_value c elem)
  end.

(** One iteration of the sweep over [c.expires] in [evictLocked].  A key whose
    entry an earlier iteration deleted is not produced by [range]. *)
Definition expireKey (now : Z) (c : lruCache) (k : string) : lruCache :=
  match expires c !! k with
  | None => c
  | Some exp =>
      if negb (time_Before now exp) then
        match items c !! k with Some elem => removeElement elem c | None => c end
      else c
  end.

(** The sweep, for the order in which [range] visits the keys. *)
Definition expireLoop (now : Z) (order : list string) (c : lruCache) : lruCache :=
  foldl (expireKey now) c order.

(** [for c.maxBytes > 0 && c.usedBytes > c.maxBytes && c.list.Len() > 0] *)
Definition overBudget (c : lruCache) : bool :=
  (0 <? maxBytes c) && (maxBytes c <? usedBytes c) && (0 <? Z.of_nat (length (llist c))).

Fixpoint capacityLoop (fuel : nat) (c : lruCache) : lruCache :=
  match fuel with
  | O => c
  | S fuel =>
      if overBudget c then
        match head (llist c) with
        | Some front => capacityLoop fuel (removeElement front c)
        | None => c
        end
      else c
  end.

(** Go leaves the order of [range] unspecified; [evictLockedIn] takes it as an
    argument, [evictLocked] fixes one.  The fuel of the second loop is the
    length of the list, which every iteration shortens. *)
Definition evictLockedIn (now : Z) (order : list string) (c : lruCache) : lruCache :=
  let c1 := expireLoop now order c in
  capacityLoop (length (llist c1)) c1.

Definition evictLocked (now : Z) (c : lruCache) : lruCache :=
  evictLockedIn now (elements (dom (expires c))) c.

Definition Delete (k : string) (c : lruCache) : lruCache * bool :=
  match items c !! k with
  | Some elem => (removeElement elem c, true)
  | None => (c, false)
  end.

Definition setDeadline (now : Z) (k : string) (expiration : Z) (c : lruCache) : lruCache :=
  upd c (llist c) (elems c) (next c) (items c)
    (if 0 <? expiration then <[k := time_Add now expiration]> (expires c)
     else delete k (expires c))
    (usedBytes c) (evicted c).

(** The branch for a key that is present: replace the value in place. *)
Definition overwrite (elem : nat) (v : V) (c : lruCache) : lruCache :=
  match elems c !! elem with
  | None => c
  | Some entry =>
      upd c (list_MoveToBack elem (llist c))
        (<[elem := mkEntry (key entry) v]> (elems c)) (next c) (items c) (expires c)
        (int64 (usedBytes c + int64 (Len v - Len (value entry)))) (evicted c)
  end.

(** The branch for a new key: [PushBack] a freshly allocated element. *)
Definition pushBack (k : string) (v : V) (c : lruCache) : lruCache :=
  upd c (llist c ++ [next c]) (<[next c := mkEntry k v]> (elems c)) (S (next c))
    (<[k := next c]> (items c)) (expires c)
    (int64 (usedBytes c + entry_cost (mkEntry k v))) (evicted c).

Definition SetWithExpiration (now now' : Z) (k : string) (v : option V) (expiration : Z)
    (c : lruCache) : lruCache :=
  match v with
  | None => (Delete k c).1
  | Some v =>
      let c1 := setDeadline now k expiration c in
      match items c1 !! k with
      | Some elem => evictLocked now' (overwrite elem v c1)
      | None => evictLocked now' (pushBack k v c1)
      end
  end.

(** [Set] passes a zero duration, so the deadline clock is not read. *)
Definition Set_ (now' : Z) (k : string) (v : option V) (c : lruCache) : lruCache :=
  SetWithExpiration now' now' k v 0 c.

(** The entries [Clear] reports, in the order in which [range] visits [items]. *)
Definition itemEntries (c : lruCache) (order : list string) : list (string * V) :=
  omap (λ k, e ← items c !! k; en ← elems c !! e; Some (key en, value en)) order.

Definition Clear (c : lruCache) : lruCache :=
  upd c [] (elems c) (next c) ∅ ∅ 0
    (if onEvicted c then evicted c ++ itemEntries c (elements (dom (items c))) else evicted c).

Definition Len_ (c : lruCache) : Z := Z.of_nat (length (llist c)).

Definition cleanupExpired (now : Z) (c : lruCache) : lruCache := evictLocked now c.

(** One iteration of the background goroutine's [select]: a tick sweeps and
    continues, a closed [closeCh] ends the loop. *)
Inductive cleanupSignal := TickC (now : Z) | CloseC.
Definition cleanupLoop (sig : cleanupSignal) (c : lruCache) : lruCache * bool :=
  match sig with
  | TickC now => (cleanupExpired now c, true)
  | CloseC => (c, false)
  end.

Definition Close (c : lruCache) : lruCache :=
  if closed c then c
  else {| llist := llist c; elems := elems c; next := next c; items := items c;
          expires := expires c; maxBytes := maxBytes c; usedBytes := usedBytes c;
          onEvicted := onEvicted c; evicted := evicted c;
          cleanupInterval := cleanupInterval c;
          cleanupTicker := match cleanupTicker c with Some _ => Some false | None => None end;
          closed := true |}.

Definition GetWithExpiration (now : Z) (k : string) (c : lruCache) : lruCache * option (V * Z) :=
  match items c !! k with
  | None => (c, None)
  | Some elem =>
      match expires c !! k with
      | Some exp =>
          if negb (time_Before now exp) then (removeElement elem c, None)
          else (moveToBack elem c, (λ v, (v, time_Sub exp now)) <$> elem_value c elem)
      | None => (moveToBack elem c, (λ v, (v, 0)) <$> elem_value c elem)
      end
  end.

(** The public operations and the background sweep as one transition function. *)
Inductive lruOp :=
| OpGet (now : Z) (k : string)
| OpGetWithExpiration (now : Z) (k : string)
| OpSetWithExpiration (now now' : Z) (k : string) (v : option V) (expiration : Z)
| OpDelete (k : string)
| OpClear
| OpCleanup (sig : cleanupSignal)
| OpClose.

(** What an operation returns to its caller. *)
Inductive lruResult :=
| RValue (v : option V)
| RValueTTL (v : option (V * Z))
| RBool (b : bool)
| RUnit.

Definition lruExec (op : lruOp) (c : lruCache) : lruCache * lruResult :=
  match op with
  | OpGet now k => let '(c', v) := Get now k c in (c', RValue v)
  | OpGetWithExpiration now k => let '(c', v) := GetWithExpiration now k c in (c', RValueTTL v)
  | OpSetWithExpiration now now' k v d => (SetWithExpiration now now' k v d c, RUnit)
  | OpDelete k => let '(c', b) := Delete k c in (c', RBool b)
  | OpClear => (Clear c, RUnit)
  | OpCleanup sig => let '(c', b) := cleanupLoop sig c in (c', RBool b)
  | OpClose => (Close c, RUnit)
  end.

Definition lruStep (op : lruOp) (c : lruCache) : lruCache := (lruExec op c).1.

(** A sequence of operations and the results they return. *)
Fixpoint lruRun (ops : list lruOp) (c : lruCache) : lruCache * list lruResult :=
  match ops with
  | [] => (c, [])
  | op :: ops =>
      let '(c1, r) := lruExec op c in
      let '(c2, rs) := lruRun ops c1 in (c2, r :: rs)
  end.

Inductive lruReachable (opts : Options) (startCleanup : bool) : lruCache → Prop :=
| lruReachable_new : lruReachable opts startCleanup (newLRUCacheInternal opts startCleanup)
| lruReachable_step op c :
    lruReachable opts startCleanup c → lruReachable opts startCleanup (lruStep op c).

End lru.

Arguments lruEntry V : clear implicits.
Arguments lruCache V : clear implicits.
Arguments lruOp V : clear implicits.
Arguments lruResult V : clear implicits.
