(* ===== verification/LruFacts.v ===== *)
(** * Invariant and abstract view of the LRU cache

    [lru_wf] relates the list, the element memory, the index and the byte
    counter; every operation preserves it.  [view] is the list of entries from
    the least to the most recently used: the abstract content in which the
    effect of each operation is stated. *)

From S2P Require Import Prelude Store Lru.

Section facts.
Context {V : Type} `{Value V}.
Implicit Types (c : lruCache V) (k : string) (e : nat) (v : V) (en : lruEntry V).

(** ** The abstract view *)

Definition view (c : lruCache V) : list (lruEntry V) := omap (λ e, elems c !! e) (llist c).

(** Sum of the costs of a list of entries, in unbounded integers. *)
Definition total (l : list (lruEntry V)) : Z := sumZ entry_cost l.

Definition drop_key (k : string) (l : list (lruEntry V)) : list (lruEntry V) :=
  filter (λ en, key en ≠ k) l.

(** The value of a key in a list of entries. *)
Fixpoint assoc (k : string) (l : list (lruEntry V)) : option V :=
  match l with
  | [] => None
  | en :: l => if decide (key en = k) then Some (value en) else assoc k l
  end.

(** ** The invariant *)

Record lru_wf (c : lruCache V) : Prop := {
  wf_nodup : NoDup (llist c);
  wf_list e : e ∈ llist c → ∃ en, elems c !! e = Some en ∧ items c !! key en = Some e;
  wf_items k e : items c !! k = Some e → e ∈ llist c ∧ ∃ v, elems c !! e = Some (mkEntry k v);
  wf_expires k : is_Some (expires c !! k) → is_Some (items c !! k);
  wf_fresh e : is_Some (elems c !! e) → (e < next c)%nat;
  wf_used : usedBytes c = int64 (total (view c))
}.

(** ** Lists of entries *)

Lemma assoc_app k l1 l2 :
  assoc k (l1 ++ l2) = match assoc k l1 with Some v => Some v | None => assoc k l2 end.
Proof. induction l1; simpl; [done|]. by case_decide. Qed.

Lemma assoc_drop_key k k' l : assoc k (drop_key k' l) = if decide (k = k') then None else assoc k l.
Proof.
  unfold drop_key. induction l as [|en l IH]; simpl; [by case_decide|].
  rewrite filter_cons. repeat case_decide; simplify_eq; simpl; repeat case_decide; simplify_eq; auto.
Qed.

Lemma assoc_None k l : assoc k l = None ↔ ∀ en, en ∈ l → key en ≠ k.
Proof.
  induction l as [|en l IH]; simpl; [set_solver|].
  split; [|intros Hl; rewrite decide_False by (apply Hl; by left); apply IH; intros; apply Hl; by right].
  case_decide; [done|]. rewrite IH. intros Hl en' [->|?]%elem_of_cons; auto.
Qed.

Lemma assoc_Some_elem k v l : assoc k l = Some v → mkEntry k v ∈ l.
Proof.
  induction l as [|[k' v'] l IH]; simpl; [done|].
  case_decide; simplify_eq/=; intros ?; simplify_eq; [by left|right; auto].
Qed.

Lemma assoc_elem en l :
  NoDup (key <$> l) → en ∈ l → assoc (key en) l = Some (value en).
Proof.
  induction l as [|en' l IH]; simpl; [by inversion 2|].
  intros [Hk Hl]%NoDup_cons [->|Hin]%elem_of_cons; case_decide as Hd; auto; try done.
  destruct Hk. rewrite Hd. by apply list_elem_of_fmap_2.
Qed.

Lemma drop_key_absent k l : assoc k l = None → drop_key k l = l.
Proof. rewrite assoc_None. intros Hl. apply filter_all. naive_solver. Qed.

Lemma total_app l1 l2 : total (l1 ++ l2) = total l1 + total l2.
Proof. apply sumZ_app. Qed.

Lemma total_singleton en : total [en] = entry_cost en.
Proof. unfold total. simpl. lia. Qed.

Lemma total_drop_key k v l :
  NoDup (key <$> l) → assoc k l = Some v →
  total (drop_key k l) = total l - entry_cost (mkEntry k v).
Proof.
  unfold drop_key, total.
  induction l as [|[k' v'] l IH]; simpl; [done|].
  intros [Hk' Hl]%NoDup_cons. rewrite filter_cons. simpl.
  repeat case_decide; simplify_eq/=; intros ?; simplify_eq.
  - rewrite filter_all; [lia|]. intros en Hen Heq. rewrite <-Heq in Hk'. by apply Hk', list_elem_of_fmap_2.
  - rewrite IH by done. lia.
Qed.

Lemma NoDup_keys_filter (P : lruEntry V → Prop) `{!∀ x, Decision (P x)} l :
  NoDup (key <$> l) → NoDup (key <$> filter P l).
Proof.
  intros Hl. eapply sublist_NoDup; [done|]. apply fmap_sublist, sublist_filter.
Qed.

(** ** The view of a well-formed cache *)

Section view.
Context (c : lruCache V) (Hwf : lru_wf c).

Lemma view_lookup k e : items c !! k = Some e → ∃ v, elems c !! e = Some (mkEntry k v) ∧ elem_value c e = Some v.
Proof.
  intros [Hin [v Hv]]%(wf_items c Hwf). exists v. unfold elem_value. by rewrite Hv.
Qed.

Lemma elem_of_view en : en ∈ view c ↔ ∃ e, e ∈ llist c ∧ elems c !! e = Some en.
Proof. unfold view. rewrite list_elem_of_omap. done. Qed.

Lemma NoDup_view_keys : NoDup (key <$> view c).
Proof.
  pose proof (wf_nodup c Hwf) as Hnd. pose proof (wf_list c Hwf) as Hl.
  unfold view. revert Hnd Hl. generalize (llist c) as l.
  induction l as [|e l IH]; simpl; [constructor|].
  intros [He Hnd]%NoDup_cons Hl.
  destruct (Hl e) as (en & Hen & Hit); [by left|]. rewrite Hen. simpl.
  apply NoDup_cons. split; [|apply IH; [done|intros; apply Hl; by right]].
  intros (en' & Heq & Hin)%list_elem_of_fmap.
  apply list_elem_of_omap in Hin as (e' & He' & Hen').
  destruct (Hl e') as (en'' & ? & Hit'); [by right|]. simplify_eq. congruence.
Qed.

Lemma view_assoc k : assoc k (view c) = items c !! k ≫= elem_value c.
Proof.
  destruct (items c !! k) as [e|] eqn:Hk; simpl.
  - destruct (view_lookup _ _ Hk) as (v & Hv & ->).
    destruct (wf_items c Hwf _ _ Hk) as [Hin _].
    change v with (value (mkEntry k v)) at 1. change k with (key (mkEntry k v)) at 1.
    apply assoc_elem; [apply NoDup_view_keys|]. apply elem_of_view. eauto.
  - apply assoc_None. intros en (e & He & Hen)%elem_of_view <-.
    destruct (wf_list c Hwf e He) as (? & ? & ?). simplify_eq.
Qed.

Lemma view_assoc_None k : items c !! k = None → assoc k (view c) = None.
Proof. intros Hk. by rewrite view_assoc, Hk. Qed.

Lemma view_length : length (view c) = length (llist c).
Proof.
  apply length_omap_all. intros e He. destruct (wf_list c Hwf e He) as (? & -> & _). eauto.
Qed.

(** Filtering the element list is filtering the view. *)
Lemma omap_filter_elem k e :
  items c !! k = Some e →
  omap (λ e, elems c !! e) (list_Remove e (llist c)) = drop_key k (view c).
Proof.
  intros Hk. unfold list_Remove, drop_key, view. apply omap_filter.
  intros e' He'. destruct (wf_list c Hwf e' He') as (en & Hen & Hit). exists en. split; [done|].
  destruct (wf_items c Hwf _ _ Hk) as (_ & v & Hv).
  split; intros Hne Heq; apply Hne; [congruence|]. subst. by simplify_eq/=.
Qed.
End view.

(** ** Effect of the primitive mutations on the view *)

Lemma removeElement_fields c k e v :
  elems c !! e = Some (mkEntry k v) →
  removeElement e c =
    upd c (list_Remove e (llist c)) (elems c) (next c) (delete k (items c))
      (delete k (expires c)) (int64 (usedBytes c - entry_cost (mkEntry k v)))
      (if onEvicted c then evicted c ++ [(k, v)] else evicted c).
Proof. intros He. unfold removeElement. by rewrite He. Qed.

Lemma removeElement_view c k e :
  lru_wf c → items c !! k = Some e → view (removeElement e c) = drop_key k (view c).
Proof.
  intros Hwf Hk. destruct (view_lookup c Hwf _ _ Hk) as (v & Hv & _).
  rewrite (removeElement_fields _ _ _ _ Hv). by apply (omap_filter_elem c).
Qed.

Lemma removeElement_wf c k e :
  lru_wf c → items c !! k = Some e → lru_wf (removeElement e c).
Proof.
  intros Hwf Hk. pose proof (removeElement_view _ _ _ Hwf Hk) as Hview.
  pose proof (view_assoc c Hwf k) as Ha. rewrite Hk in Ha. simpl in Ha.
  destruct (view_lookup c Hwf _ _ Hk) as (v & Hv & Hev). rewrite Hev in Ha.
  pose proof (removeElement_fields _ _ _ _ Hv) as Hf. split.
  - rewrite Hf. simpl. by apply NoDup_filter, wf_nodup.
  - rewrite Hf. simpl. intros e' [Hne He']%list_elem_of_filter.
    destruct (wf_list c Hwf e' He') as (en & Hen & Hit). exists en. split; [done|].
    rewrite lookup_delete_ne; [done|]. intros ->. congruence.
  - rewrite Hf. simpl. intros k' e' [Hne Hk']%lookup_delete_Some.
    destruct (wf_items c Hwf _ _ Hk') as (Hin & v' & Hv').
    split; [|eauto]. apply list_elem_of_filter. split; [|done]. intros ->. simplify_eq.
  - rewrite Hf. simpl. intros k' [d [Hne Hd]%lookup_delete_Some].
    rewrite lookup_delete_ne by done. apply (wf_expires c Hwf). eauto.
  - rewrite Hf. simpl. apply (wf_fresh c Hwf).
  - rewrite Hview. rewrite (total_drop_key k v); [|by apply NoDup_view_keys|done].
    rewrite Hf. simpl. rewrite (wf_used c Hwf). by rewrite int64_sub_l.
Qed.

Lemma list_MoveToBack_perm e l : NoDup l → list_MoveToBack e l ≡ₚ l.
Proof.
  intros Hnd. unfold list_MoveToBack. case_decide as Hin; [|done].
  apply list_elem_of_split in Hin as (l1 & l2 & ->).
  unfold list_Remove. rewrite filter_ne_split by done.
  etrans; [apply Permutation_app_comm|]. simpl. apply Permutation_middle.
Qed.

Lemma list_MoveToBack_elem e l : e ∈ l → list_MoveToBack e l = list_Remove e l ++ [e].
Proof. intros. unfold list_MoveToBack. by rewrite decide_True. Qed.

(** Permuting the list keeps the invariant: the index holds pointers. *)
Lemma lru_wf_perm c l u ev :
  lru_wf c → l ≡ₚ llist c → u = usedBytes c →
  lru_wf (upd c l (elems c) (next c) (items c) (expires c) u ev).
Proof.
  intros [] Hl ->. split; simpl.
  - by rewrite Hl.
  - intros e. rewrite Hl. auto.
  - intros k e. rewrite Hl. auto.
  - done.
  - done.
  - rewrite wf_used0. unfold total, view. simpl. by rewrite Hl.
Qed.

Lemma moveToBack_wf c e : lru_wf c → lru_wf (moveToBack e c).
Proof. intros Hwf. apply lru_wf_perm; auto. by apply list_MoveToBack_perm, wf_nodup. Qed.

Lemma moveToBack_view c k e v :
  lru_wf c → items c !! k = Some e → elem_value c e = Some v →
  view (moveToBack e c) = drop_key k (view c) ++ [mkEntry k v].
Proof.
  intros Hwf Hk Hv. destruct (wf_items c Hwf _ _ Hk) as (Hin & v' & Hv').
  unfold elem_value in Hv. rewrite Hv' in Hv. simplify_eq/=.
  unfold view at 1, moveToBack. simpl.
  rewrite list_MoveToBack_elem, omap_app, (omap_filter_elem c Hwf k) by done.
  simpl. by rewrite Hv'.
Qed.

(** Changing deadlines of present keys keeps the invariant. *)
Lemma lru_wf_expires c ex :
  lru_wf c → (∀ k, is_Some (ex !! k) → is_Some (items c !! k)) →
  lru_wf (upd c (llist c) (elems c) (next c) (items c) ex (usedBytes c) (evicted c)).
Proof. intros [] Hex. by split. Qed.

Lemma overwrite_view c k e v :
  lru_wf c → items c !! k = Some e → view (overwrite e v c) = drop_key k (view c) ++ [mkEntry k v].
Proof.
  intros Hwf Hk. destruct (wf_items c Hwf _ _ Hk) as (Hin & v' & Hv').
  unfold overwrite. rewrite Hv'. unfold view at 1. simpl.
  rewrite list_MoveToBack_elem, omap_app by done. simpl. rewrite lookup_insert_eq.
  f_equal. rewrite <-(omap_filter_elem c Hwf k e) by done.
  apply omap_ext_elem. intros e' [Hne _]%list_elem_of_filter. by rewrite lookup_insert_ne.
Qed.

Lemma overwrite_wf c k e v : lru_wf c → items c !! k = Some e → lru_wf (overwrite e v c).
Proof.
  intros Hwf Hk. pose proof (overwrite_view c k e v Hwf Hk) as Hview.
  destruct (wf_items c Hwf _ _ Hk) as (Hin & v' & Hv').
  unfold overwrite in *. rewrite Hv' in *. split; [| | | | |rewrite Hview]; simpl.
  - by rewrite list_MoveToBack_perm; apply wf_nodup.
  - intros e'. rewrite list_MoveToBack_perm by (by apply wf_nodup). intros He'.
    destruct (wf_list c Hwf e' He') as (en & Hen & Hit).
    destruct (decide (e' = e)) as [->|]; [rewrite lookup_insert_eq; simplify_eq|rewrite lookup_insert_ne by done]; eauto.
  - intros k' e' Hk'. rewrite list_MoveToBack_perm by (by apply wf_nodup).
    destruct (wf_items c Hwf _ _ Hk') as (Hin' & w & Hw). split; [done|].
    destruct (decide (e' = e)) as [->|]; [rewrite lookup_insert_eq; simplify_eq|rewrite lookup_insert_ne by done]; eauto.
  - apply (wf_expires c Hwf).
  - intros e' [<-|[_ He']]%lookup_insert_is_Some; apply (wf_fresh c Hwf); eauto.
  - rewrite total_app, (total_drop_key k v'); [|by apply NoDup_view_keys|].
    + rewrite (wf_used c Hwf), int64_add_l, int64_add_r, total_singleton. unfold entry_cost. simpl.
      destruct (int64_congr (go_len k + Len v')) as [q ->].
      destruct (int64_congr (go_len k + Len v)) as [q' ->].
      apply (int64_eq _ _ (q - q')). lia.
    + rewrite (view_assoc c Hwf), Hk. simpl. unfold elem_value. by rewrite Hv'.
Qed.

Lemma pushBack_view c k v :
  lru_wf c → items c !! k = None → view (pushBack k v c) = drop_key k (view c) ++ [mkEntry k v].
Proof.
  intros Hwf Hk. rewrite drop_key_absent by (by apply view_assoc_None).
  unfold view at 1. simpl. rewrite omap_app. simpl. rewrite lookup_insert_eq. f_equal.
  apply omap_ext_elem. intros e He. rewrite lookup_insert_ne; [done|].
  destruct (wf_list c Hwf e He) as (en & Hen & _). pose proof (wf_fresh c Hwf e). intros <-.
  apply (Nat.lt_irrefl (next c)). eauto.
Qed.

Lemma pushBack_wf c k v : lru_wf c → items c !! k = None → lru_wf (pushBack k v c).
Proof.
  intros Hwf Hk. pose proof (pushBack_view c k v Hwf Hk) as Hview.
  assert (∀ e, e ∈ llist c → e ≠ next c) as Hfresh.
  { intros e He ->. destruct (wf_list c Hwf _ He) as (en & Hen & _).
    apply (Nat.lt_irrefl (next c)), (wf_fresh c Hwf). eauto. }
  split; [| | | | |rewrite Hview]; simpl.
  - apply NoDup_app. split_and!; [by apply wf_nodup| |apply NoDup_singleton].
    intros e He ->%list_elem_of_singleton. by apply (Hfresh (next c)).
  - intros e [He| ->%list_elem_of_singleton]%elem_of_app.
    + destruct (wf_list c Hwf e He) as (en & Hen & Hit).
      rewrite lookup_insert_ne by (apply not_eq_sym; auto). exists en. split; [done|].
      rewrite lookup_insert_ne; [done|]. congruence.
    + rewrite lookup_insert_eq. eexists. split; [done|]. simpl. by rewrite lookup_insert_eq.
  - intros k' e' [(<- & <-)|(Hne & Hk')]%lookup_insert_Some.
    + split; [set_solver|]. rewrite lookup_insert_eq. eauto.
    + destruct (wf_items c Hwf _ _ Hk') as (Hin & w & Hw). split; [set_solver|].
      rewrite lookup_insert_ne by (apply not_eq_sym; auto). eauto.
  - intros k' Hk'. apply lookup_insert_is_Some. destruct (decide (k = k')); [by left|right].
    split; [done|]. by apply (wf_expires c Hwf).
  - intros e [->|[_ He]]%lookup_insert_is_Some; [lia|]. apply (wf_fresh c Hwf) in He. lia.
  - rewrite total_app, drop_key_absent by (by apply view_assoc_None).
    by rewrite (wf_used c Hwf), int64_add_l, total_singleton.
Qed.

(** ** Fields an operation leaves alone *)

(** The configuration of a cache: what only [Close] and construction touch. *)
Definition same_config c c' : Prop :=
  maxBytes c' = maxBytes c ∧ onEvicted c' = onEvicted c ∧
  cleanupInterval c' = cleanupInterval c.

#[global] Instance same_config_preorder : PreOrder same_config.
Proof. split; unfold same_config; [done|]. intros ???; naive_solver congruence. Qed.

Lemma same_config_upd c l el n it ex u ev : same_config c (upd c l el n it ex u ev).
Proof. done. Qed.

Lemma removeElement_config c e : same_config c (removeElement e c).
Proof. unfold removeElement. by case_match. Qed.

(** ** The expiry sweep *)

(** Whether an entry's deadline has passed, from the deadline map. *)
Definition dead (now : Z) (ex : gmap string Z) (k : string) : Prop :=
  ∃ d, ex !! k = Some d ∧ d ≤ now.

#[global] Instance dead_dec now ex k : Decision (dead now ex k).
Proof.
  refine (match ex !! k as o return ex !! k = o → Decision (dead now ex k) with
          | Some d => λ E, cast_if (decide (d ≤ now))
          | None => λ E, right _
          end eq_refl); abstract (unfold dead; naive_solver).
Defined.

Lemma expiredAt_dead now k c : expiredAt now k c = true ↔ dead now (expires c) k.
Proof.
  unfold expiredAt, dead. destruct (expires c !! k) as [d|]; [|naive_solver].
  rewrite negb_true_iff, time_Before_false. naive_solver.
Qed.

Lemma expireKey_cases now c k :
  lru_wf c →
  (¬ dead now (expires c) k ∧ expireKey now c k = c) ∨
  (dead now (expires c) k ∧ ∃ e, items c !! k = Some e ∧ expireKey now c k = removeElement e c).
Proof.
  intros Hwf. unfold expireKey, dead. destruct (expires c !! k) as [d|] eqn:Hd; [|naive_solver].
  destruct (time_Before now d) eqn:Hb; simpl.
  - left. apply time_Before_true in Hb. split; [|done]. intros (? & ? & ?). simplify_eq. lia.
  - right. apply time_Before_false in Hb. split; [eauto|].
    destruct (wf_expires c Hwf k) as [e He]; [rewrite Hd; eauto|]. exists e. by rewrite He.
Qed.

Lemma removeElement_expires c k e :
  lru_wf c → items c !! k = Some e → expires (removeElement e c) = delete k (expires c).
Proof.
  intros Hwf Hk. destruct (view_lookup c Hwf _ _ Hk) as (v & Hv & _).
  by rewrite (removeElement_fields _ _ _ _ Hv).
Qed.

Lemma expireKey_wf now c k : lru_wf c → lru_wf (expireKey now c k).
Proof.
  intros Hwf. destruct (expireKey_cases now c k Hwf) as [[_ ->]|(_ & e & He & ->)]; [done|].
  by eapply removeElement_wf.
Qed.

Lemma expireLoop_wf now order c : lru_wf c → lru_wf (expireLoop now order c).
Proof.
  unfold expireLoop. revert c. induction order as [|k order IH]; simpl; [done|].
  intros c Hwf. by apply IH, expireKey_wf.
Qed.

Lemma expireLoop_config now order c : lru_wf c → same_config c (expireLoop now order c).
Proof.
  unfold expireLoop. revert c. induction order as [|k order IH]; simpl; [done|].
  intros c Hwf. etrans; [|by apply IH, expireKey_wf].
  destruct (expireKey_cases now c k Hwf) as [[_ ->]|(_ & e & He & ->)]; [done|].
  apply removeElement_config.
Qed.

(** After the sweep over [order], exactly the entries of [order] whose deadline
    has passed are gone. *)
Lemma expireLoop_effect now order c :
  lru_wf c → NoDup order →
  view (expireLoop now order c) =
    filter (λ en, ¬ (key en ∈ order ∧ dead now (expires c) (key en))) (view c) ∧
  expires (expireLoop now order c) =
    filter (λ p, ¬ (p.1 ∈ order ∧ dead now (expires c) p.1)) (expires c).
Proof.
  unfold expireLoop. revert c. induction order as [|k order IH]; simpl; intros c Hwf Hnd.
  { split; [symmetry; apply filter_all; set_solver|].
    symmetry. apply map_filter_id. set_solver. }
  apply NoDup_cons in Hnd as [Hk Hnd].
  destruct (IH (expireKey now c k)) as [-> ->]; [by apply expireKey_wf|done|]. clear IH.
  destruct (expireKey_cases now c k Hwf) as [[Hd ->]|(Hd & e & He & ->)].
  - split; [apply list_filter_iff|apply map_filter_ext]; set_solver.
  - rewrite (removeElement_view c k), (removeElement_expires c k) by done.
    assert (∀ k', dead now (delete k (expires c)) k' ↔ dead now (expires c) k' ∧ k' ≠ k) as Hdead.
    { intros k'. unfold dead. setoid_rewrite lookup_delete_Some. naive_solver. }
    split.
    + unfold drop_key. rewrite list_filter_filter. apply list_filter_iff. intros en. rewrite Hdead.
      rewrite elem_of_cons. destruct (decide (key en = k)) as [<-|]; naive_solver.
    + apply map_eq. intros k'. apply option_eq. intros d.
      rewrite !map_lookup_filter_Some, lookup_delete_Some, Hdead, elem_of_cons. simpl.
      destruct (decide (k' = k)) as [->|]; naive_solver.
Qed.

(** ** The capacity loop *)

(** Drop entries from the least recently used end while the byte count exceeds
    the limit: the reference for the loop of [evictLocked]. *)
Fixpoint shrink (max : Z) (l : list (lruEntry V)) : list (lruEntry V) :=
  match l with
  | [] => []
  | en :: l' => if (0 <? max) && (max <? int64 (total l)) then shrink max l' else l
  end.

(** The deadlines of the keys that occur in a list of entries. *)
Definition restrict (l : list (lruEntry V)) (ex : gmap string Z) : gmap string Z :=
  filter (λ p, p.1 ∈ key <$> l) ex.

Lemma shrink_suffix max l : ∃ l0, l = l0 ++ shrink max l.
Proof.
  induction l as [|en l [l0 IH]]; simpl; [by exists []|].
  case_match; [|by exists []]. exists (en :: l0). simpl. by f_equal.
Qed.

Lemma elem_of_shrink max l en : en ∈ shrink max l → en ∈ l.
Proof. destruct (shrink_suffix max l) as [l0 Hl0]. rewrite Hl0 at 2. set_solver. Qed.

Lemma shrink_bound max l : 0 < max → int64 (total (shrink max l)) ≤ max.
Proof.
  intros Hmax. induction l as [|en l IH]; cbn [shrink]; [unfold total; simpl; rewrite int64_small; lia|].
  destruct ((0 <? max) && _) eqn:Hb; [done|]. zbool. destruct Hb as [Hb|Hb]; zbool; lia.
Qed.

Lemma overBudget_view c :
  lru_wf c →
  overBudget c = match view c with
                 | [] => false
                 | _ => (0 <? maxBytes c) && (maxBytes c <? int64 (total (view c)))
                 end.
Proof.
  intros Hwf. unfold overBudget. rewrite <-(view_length c Hwf), (wf_used c Hwf).
  destruct (view c); simpl; by rewrite ?andb_false_r, ?andb_true_r.
Qed.

Lemma view_front c en l :
  lru_wf c → view c = en :: l →
  ∃ e, head (llist c) = Some e ∧ items c !! key en = Some e ∧ drop_key (key en) (view c) = l.
Proof.
  intros Hwf Hv. pose proof (NoDup_view_keys c Hwf) as Hnd. rewrite Hv in Hnd |- *.
  unfold view in Hv. destruct (llist c) as [|e le] eqn:Hl; [done|]. csimpl in Hv.
  destruct (wf_list c Hwf e) as (en' & Hen & Hit); [rewrite Hl; by left|].
  rewrite Hen in Hv. simplify_eq. exists e. split_and!; [done|done|].
  csimpl in Hnd. apply NoDup_cons in Hnd as [Hk _].
  unfold drop_key. rewrite filter_cons_False by auto. apply filter_all.
  intros en' Hen' Heq. apply Hk. rewrite <-Heq. by apply list_elem_of_fmap_2.
Qed.

Lemma restrict_all l ex : (∀ k, is_Some (ex !! k) → k ∈ key <$> l) → restrict l ex = ex.
Proof. intros Hk. apply map_filter_id. simpl. eauto. Qed.

Lemma restrict_restrict l l' ex : (∀ k, k ∈ key <$> l' → k ∈ key <$> l) → restrict l' (restrict l ex) = restrict l' ex.
Proof. intros Hk. unfold restrict. rewrite map_filter_filter. apply map_filter_ext. naive_solver. Qed.

(** Every deadline belongs to an entry. *)
Lemma expires_view c k : lru_wf c → is_Some (expires c !! k) → k ∈ key <$> view c.
Proof.
  intros Hwf [e He]%(wf_expires c Hwf). destruct (view_lookup c Hwf _ _ He) as (v & Hv & _).
  apply list_elem_of_fmap. exists (mkEntry k v). split; [done|]. apply elem_of_view.
  exists e. split; [|done]. by apply (wf_items c Hwf _ _ He).
Qed.

Lemma removeElement_restrict c k e :
  lru_wf c → items c !! k = Some e →
  expires (removeElement e c) = restrict (drop_key k (view c)) (expires c).
Proof.
  intros Hwf Hk. rewrite (removeElement_expires c k) by done.
  apply map_eq. intros k'. apply option_eq. intros d. unfold restrict.
  rewrite lookup_delete_Some, map_lookup_filter_Some. simpl. unfold drop_key.
  rewrite list_elem_of_fmap. setoid_rewrite list_elem_of_filter. split.
  - intros [Hne Hd]. split; [done|].
    assert (k' ∈ key <$> view c) as (en & -> & Hin)%list_elem_of_fmap by (apply expires_view; eauto).
    eauto.
  - intros [Hd (en & -> & Hne & _)]. auto.
Qed.

(** The loop with enough fuel computes [shrink] and exits by its own test. *)
Lemma capacityLoop_effect fuel c :
  lru_wf c → (length (llist c) ≤ fuel)%nat →
  let c' := capacityLoop fuel c in
  lru_wf c' ∧ view c' = shrink (maxBytes c) (view c) ∧
  expires c' = restrict (view c') (expires c) ∧ same_config c c' ∧ overBudget c' = false.
Proof.
  revert c. induction fuel as [|fuel IH]; intros c Hwf Hlen; simpl.
  { destruct (llist c) eqn:Hl; simpl in Hlen; [|lia].
    assert (view c = []) as Hv by (unfold view; by rewrite Hl).
    rewrite Hv. split_and!; try done; [|unfold overBudget; rewrite Hl; by rewrite andb_false_r].
    symmetry. apply restrict_all. intros k. rewrite <-Hv. by apply expires_view. }
  pose proof (overBudget_view c Hwf) as Hb.
  destruct (view c) as [|en l] eqn:Hv.
  { rewrite Hb, Hv. split_and!; try done. symmetry. apply restrict_all. intros k.
    rewrite <-Hv. by apply expires_view. }
  destruct (view_front c en l Hwf Hv) as (e & Hhd & Hit & Hdrop).
  cbn [shrink]. rewrite <-Hb. destruct (overBudget c) eqn:Hob.
  - rewrite Hhd.
    assert (e ∈ llist c) as Hin by (by apply (wf_items c Hwf _ _ Hit)).
    destruct (IH (removeElement e c)) as (Hwf' & Hview' & Hexp' & Hcfg' & Hob').
    { by eapply removeElement_wf. }
    { destruct (wf_list c Hwf e Hin) as (en' & Hen' & _). unfold removeElement. rewrite Hen'. simpl.
      pose proof (filter_ne_length e _ Hin). unfold list_Remove. lia. }
    pose proof (removeElement_config c e) as Hcfg.
    rewrite (removeElement_view c (key en)), Hdrop, (proj1 Hcfg) in Hview' by done.
    split_and!; try done; [|by etrans].
    rewrite Hexp', (removeElement_restrict c (key en)), Hdrop by done. apply restrict_restrict.
    rewrite Hview'. destruct (shrink_suffix (maxBytes c) l) as [l0 Hl0]. intros k Hk.
    rewrite Hl0, fmap_app. set_solver.
  - rewrite Hv. split_and!; try done. symmetry. apply restrict_all.
    intros k. rewrite <-Hv. by apply expires_view.
Qed.

(** ** The whole of [evictLocked] *)

(** The entries whose deadline has not passed. *)
Definition alive (now : Z) (ex : gmap string Z) (l : list (lruEntry V)) : list (lruEntry V) :=
  filter (λ en, ¬ dead now ex (key en)) l.

Lemma evictLockedIn_effect now order c :
  lru_wf c → order ≡ₚ elements (dom (expires c)) →
  let c' := evictLockedIn now order c in
  lru_wf c' ∧ view c' = shrink (maxBytes c) (alive now (expires c) (view c)) ∧
  expires c' = restrict (view c') (expires c) ∧ same_config c c' ∧ overBudget c' = false.
Proof.
  intros Hwf Horder c'.
  assert (NoDup order) as Hnd by (rewrite Horder; apply NoDup_elements).
  assert (∀ k, dead now (expires c) k → k ∈ order) as Hdom.
  { intros k (d & Hd & _). rewrite Horder. apply elem_of_elements, elem_of_dom. eauto. }
  destruct (expireLoop_effect now order c Hwf Hnd) as [Hv He].
  pose proof (expireLoop_wf now order c Hwf) as Hwf1.
  pose proof (expireLoop_config now order c Hwf) as Hcfg1.
  destruct (capacityLoop_effect (length (llist (expireLoop now order c))) (expireLoop now order c))
    as (Hwf' & Hv' & He' & Hcfg' & Hob'); [done|done|].
  fold (evictLockedIn now order c) in *. subst c'.
  assert (view (expireLoop now order c) = alive now (expires c) (view c)) as Hal.
  { rewrite Hv. apply list_filter_iff. naive_solver. }
  rewrite Hal, (proj1 Hcfg1) in Hv'. split_and!; try done; [|by etrans].
  rewrite He', He. unfold restrict. rewrite map_filter_filter. apply map_filter_ext.
  intros k d Hd. simpl. split; [naive_solver|]. intros Hk. pose proof Hk as Hk'.
  rewrite Hv' in Hk. apply list_elem_of_fmap in Hk as (en & -> & Hin).
  destruct (shrink_suffix (maxBytes c) (alive now (expires c) (view c))) as [l0 Hl0].
  assert (en ∈ alive now (expires c) (view c)) as [Halive _]%list_elem_of_filter
    by (rewrite Hl0; set_solver).
  naive_solver.
Qed.

Lemma evictLocked_effect now c :
  lru_wf c →
  let c' := evictLocked now c in
  lru_wf c' ∧ view c' = shrink (maxBytes c) (alive now (expires c) (view c)) ∧
  expires c' = restrict (view c') (expires c) ∧ same_config c c' ∧ overBudget c' = false.
Proof. intros Hwf. exact (evictLockedIn_effect now _ c Hwf (reflexivity _)). Qed.

(** ** Insertion before eviction *)

(** The state [SetWithExpiration] hands to [evictLocked]. *)
Definition inserted (now : Z) (k : string) (v : V) (expiration : Z) (c : lruCache V) : lruCache V :=
  let c1 := setDeadline now k expiration c in
  match items c1 !! k with
  | Some elem => overwrite elem v c1
  | None => pushBack k v c1
  end.

(** The deadline map after [SetWithExpiration] stores its deadline. *)
Definition deadlines (now : Z) (k : string) (expiration : Z) (ex : gmap string Z) : gmap string Z :=
  if 0 <? expiration then <[k := now + expiration]> ex else delete k ex.

Lemma SetWithExpiration_inserted now now' k v d c :
  SetWithExpiration now now' k (Some v) d c = evictLocked now' (inserted now k v d c).
Proof. unfold SetWithExpiration, inserted. by case_match. Qed.

Lemma deadlines_lookup now k d ex k' :
  is_Some (deadlines now k d ex !! k') → k' = k ∨ is_Some (ex !! k').
Proof.
  unfold deadlines. case_match.
  - intros [->|[_ ?]]%lookup_insert_is_Some; auto.
  - intros [? [_ ?]%lookup_delete_Some]. eauto.
Qed.

Lemma inserted_effect now k v d c :
  lru_wf c →
  let c' := inserted now k v d c in
  lru_wf c' ∧ view c' = drop_key k (view c) ++ [mkEntry k v] ∧
  expires c' = deadlines now k d (expires c) ∧ same_config c c'.
Proof.
  intros Hwf. unfold inserted. simpl.
  destruct (items c !! k) as [e|] eqn:Hk.
  - destruct (wf_items c Hwf _ _ Hk) as (Hin & v' & Hv').
    pose proof (overwrite_wf c k e v Hwf Hk) as Hwf'.
    pose proof (overwrite_view c k e v Hwf Hk) as Hview.
    unfold overwrite in *. simpl. rewrite Hv' in *. split_and!; try done.
    apply (lru_wf_expires _ _ Hwf'). simpl. intros k'.
    intros [->|?]%deadlines_lookup; [eauto|by apply (wf_expires c Hwf)].
  - pose proof (pushBack_wf c k v Hwf Hk) as Hwf'.
    pose proof (pushBack_view c k v Hwf Hk) as Hview. split_and!; try done.
    apply (lru_wf_expires _ _ Hwf'). simpl. intros k' Hk'. apply lookup_insert_is_Some.
    apply deadlines_lookup in Hk' as [->|?]; [by left|].
    destruct (decide (k = k')); [by left|right]. split; [done|by apply (wf_expires c Hwf)].
Qed.

(** ** Every operation preserves the invariant *)

Lemma newLRUCache_wf opts b : lru_wf (newLRUCacheInternal opts b : lruCache V).
Proof. split; simpl; [constructor|set_solver|set_solver|by intros k []|by intros e []|done]. Qed.

Lemma lru_Get_wf now k c : lru_wf c → lru_wf (Get now k c).1.
Proof.
  intros Hwf. unfold Get. destruct (items c !! k) eqn:Hk; [|done].
  case_match; simpl; [by eapply removeElement_wf|by apply moveToBack_wf].
Qed.

Lemma lru_Delete_wf k c : lru_wf c → lru_wf (Delete k c).1.
Proof. intros Hwf. unfold Delete. destruct (items c !! k) eqn:Hk; [|done]. by eapply removeElement_wf. Qed.

Lemma lru_Clear_wf c : lru_wf c → lru_wf (Clear c).
Proof.
  intros []. split; simpl; [constructor|set_solver|set_solver|by intros k []|done|done].
Qed.

Lemma lru_Close_wf c : lru_wf c → lru_wf (Close c).
Proof. intros []. unfold Close. by case_match. Qed.

Lemma lru_SetExp_wf now now' k (v : option V) d c : lru_wf c → lru_wf (SetWithExpiration now now' k v d c).
Proof.
  intros Hwf. destruct v as [v|]; [|by apply lru_Delete_wf].
  rewrite SetWithExpiration_inserted. apply evictLocked_effect.
  by apply (inserted_effect now k v d c Hwf).
Qed.

Lemma lru_GetExp_fst now k c : (GetWithExpiration now k c).1 = (Get now k c).1.
Proof. unfold GetWithExpiration, Get, expiredAt. by repeat case_match. Qed.

Lemma lruStep_wf op c : lru_wf c → lru_wf (lruStep op c).
Proof.
  unfold lruStep. destruct op as [now k|now k| |k| |[now|]|]; simpl; intros Hwf;
    auto using lru_Clear_wf, lru_Close_wf, lru_SetExp_wf.
  - pose proof (lru_Get_wf now k c Hwf). by destruct (Get now k c).
  - pose proof (lru_Get_wf now k c Hwf) as Hg. rewrite <-lru_GetExp_fst in Hg.
    by destruct (GetWithExpiration now k c).
  - pose proof (lru_Delete_wf k c Hwf). by destruct (Delete k c).
  - by apply evictLocked_effect.
Qed.

Lemma lruReachable_wf opts b c : lruReachable opts b c → lru_wf c.
Proof. induction 1; auto using newLRUCache_wf, lruStep_wf. Qed.

(** ** Lookup at an instant *)

(** The value [Get] would return at instant [t]. *)
Definition lru_lookup (t : Z) (k : string) (c : lruCache V) : option V :=
  if expiredAt t k c then None else items c !! k ≫= elem_value c.

(** The same on the abstract content. *)
Definition live (t : Z) (ex : gmap string Z) (l : list (lruEntry V)) (k : string) : option V :=
  if decide (dead t ex k) then None else assoc k l.

Lemma lru_lookup_live t k c : lru_wf c → lru_lookup t k c = live t (expires c) (view c) k.
Proof.
  intros Hwf. unfold lru_lookup, live. rewrite view_assoc by done.
  pose proof (expiredAt_dead t k c). case_decide; destruct (expiredAt t k c); naive_solver.
Qed.

Lemma assoc_snoc k k' v l :
  assoc k (drop_key k' l ++ [mkEntry k' v]) = if decide (k = k') then Some v else assoc k l.
Proof. rewrite assoc_app, assoc_drop_key. simpl. by repeat (case_decide || case_match). Qed.

Lemma live_alive now t ex l k : now ≤ t → live t ex (alive now ex l) k = live t ex l k.
Proof.
  intros Hle. unfold live. case_decide as Hd; [done|].
  assert (¬ dead now ex k) as Hd' by (intros (d & ? & ?); apply Hd; exists d; split; [done|lia]).
  unfold alive. induction l as [|en l IH]; [done|]. rewrite filter_cons. simpl.
  repeat case_decide; simpl; repeat case_decide; naive_solver.
Qed.

Lemma live_restrict t ex l k : live t (restrict l ex) l k = live t ex l k.
Proof.
  unfold live. destruct (assoc k l) as [v|] eqn:Hv; [|by repeat case_decide].
  assert (k ∈ key <$> l) by (change k with (key (mkEntry k v)); by apply list_elem_of_fmap_2, assoc_Some_elem).
  assert (dead t (restrict l ex) k ↔ dead t ex k) as Hd.
  { unfold dead, restrict. setoid_rewrite map_lookup_filter_Some. naive_solver. }
  repeat case_decide; tauto.
Qed.

Lemma live_suffix t ex l0 l k :
  NoDup (key <$> l0 ++ l) → live t ex l k = live t ex (l0 ++ l) k ∨ live t ex l k = None.
Proof.
  intros Hnd. unfold live. case_decide; [by left|]. rewrite assoc_app.
  destruct (assoc k l) as [v|] eqn:Hv; [left|by right].
  destruct (assoc k l0) as [w|] eqn:Hw; [|done]. exfalso.
  rewrite fmap_app in Hnd. apply NoDup_app in Hnd as (_ & Hdisj & _).
  apply assoc_Some_elem, (list_elem_of_fmap_2 key) in Hv, Hw. by apply (Hdisj k).
Qed.

Lemma shrink_snoc max l en :
  max ≤ 0 ∨ entry_cost en ≤ max → ∃ l', shrink max (l ++ [en]) = l' ++ [en].
Proof.
  intros Hroom. induction l as [|en' l IH]; cbn [shrink app].
  - exists []. rewrite total_singleton. unfold entry_cost in *.
    rewrite int64_small by apply int64_range. destruct ((0 <? max) && _) eqn:Hb; [zbool; lia|done].
  - case_match; [done|]. by exists (en' :: l).
Qed.

End facts.

#[export] Hint Resolve lru_Get_wf lru_Delete_wf lru_Clear_wf lru_Close_wf lru_SetExp_wf
  newLRUCache_wf : locache_wf.
