(* ===== verification/LruSpec.v ===== *)
(** * Specification of the LRU cache and its refinement

    The abstract LRU is a list of entries from the least to the most recently
    used, with the deadlines of its keys.  Any sequence of operations on a
    fresh [lruCache] returns what the abstract LRU returns
    ([lru_run_refines]).  The other theorems are the promises a user of the
    cache relies on: the byte budget, the lifetime of an entry, the
    independence from Go's map iteration order, and the [Store] contract. *)

From S2P Require Import Prelude Store ByteView Lru LruFacts.

Section spec.
Context {V : Type} `{Value V}.
Implicit Types (c : lruCache V) (k : string) (v : V).

(** ** The abstract LRU *)

Record aLRU := mkALRU { a_entries : list (lruEntry V); a_deadlines : gmap string Z }.

Definition a_remove (k : string) (a : aLRU) : aLRU :=
  mkALRU (drop_key k (a_entries a)) (delete k (a_deadlines a)).

(** Move [k] to the most recently used end with value [v]. *)
Definition a_touch (k : string) (v : V) (a : aLRU) : aLRU :=
  mkALRU (drop_key k (a_entries a) ++ [mkEntry k v]) (a_deadlines a).

(** Drop the entries past their deadline, then the least recently used ones
    until the byte budget holds. *)
Definition a_evict (max now : Z) (a : aLRU) : aLRU :=
  let l := shrink max (alive now (a_deadlines a) (a_entries a)) in
  mkALRU l (restrict l (a_deadlines a)).

Definition a_get (now : Z) (k : string) (a : aLRU) : aLRU * option V :=
  match assoc k (a_entries a) with
  | None => (a, None)
  | Some v => if decide (dead now (a_deadlines a) k) then (a_remove k a, None) else (a_touch k v a, Some v)
  end.

Definition a_ttl (now : Z) (k : string) (a : aLRU) : Z :=
  match a_deadlines a !! k with Some d => time_Sub d now | None => 0 end.

Definition a_delete (k : string) (a : aLRU) : aLRU * bool :=
  match assoc k (a_entries a) with None => (a, false) | Some _ => (a_remove k a, true) end.

Definition a_set (max now now' : Z) (k : string) (v : option V) (d : Z) (a : aLRU) : aLRU :=
  match v with
  | None => (a_delete k a).1
  | Some v =>
      a_evict max now' (mkALRU (drop_key k (a_entries a) ++ [mkEntry k v])
                               (deadlines now k d (a_deadlines a)))
  end.

Definition a_exec (max : Z) (op : lruOp V) (a : aLRU) : aLRU * lruResult V :=
  match op with
  | OpGet now k => let '(a', v) := a_get now k a in (a', RValue v)
  | OpGetWithExpiration now k =>
      let '(a', v) := a_get now k a in (a', RValueTTL ((λ v, (v, a_ttl now k a)) <$> v))
  | OpSetWithExpiration now now' k v d => (a_set max now now' k v d a, RUnit)
  | OpDelete k => let '(a', b) := a_delete k a in (a', RBool b)
  | OpClear => (mkALRU [] ∅, RUnit)
  | OpCleanup (TickC now) => (a_evict max now a, RBool true)
  | OpCleanup CloseC => (a, RBool false)
  | OpClose => (a, RUnit)
  end.

Fixpoint a_run (max : Z) (ops : list (lruOp V)) (a : aLRU) : aLRU * list (lruResult V) :=
  match ops with
  | [] => (a, [])
  | op :: ops =>
      let '(a1, r) := a_exec max op a in
      let '(a2, rs) := a_run max ops a1 in (a2, r :: rs)
  end.

Definition abs (c : lruCache V) : aLRU := mkALRU (view c) (expires c).

(** ** Simulation of each operation *)

Lemma abs_remove c k e : lru_wf c → items c !! k = Some e → abs (removeElement e c) = a_remove k (abs c).
Proof.
  intros. unfold abs, a_remove. simpl.
  by rewrite (removeElement_view c k), (removeElement_expires c k).
Qed.

Lemma abs_touch c k e v :
  lru_wf c → items c !! k = Some e → elem_value c e = Some v →
  abs (moveToBack e c) = a_touch k v (abs c).
Proof. intros. unfold abs, a_touch. simpl. by rewrite (moveToBack_view c k e v). Qed.

Lemma lru_Get_sim now k c :
  lru_wf c → a_get now k (abs c) = (abs (Get now k c).1, (Get now k c).2).
Proof.
  intros Hwf. unfold a_get, Get. simpl. rewrite (view_assoc c Hwf).
  destruct (items c !! k) as [e|] eqn:Hk; simpl; [|done].
  destruct (view_lookup c Hwf _ _ Hk) as (v & _ & Hv). rewrite Hv.
  pose proof (expiredAt_dead now k c) as Hd.
  destruct (expiredAt now k c); case_decide as Hdec; simpl;
    [|by destruct Hdec; apply Hd|by apply Hd in Hdec|].
  - by rewrite (abs_remove c k).
  - by rewrite (abs_touch c k e v).
Qed.

Lemma lru_GetExp_sim now k c :
  lru_wf c →
  (GetWithExpiration now k c).2 = (λ v, (v, a_ttl now k (abs c))) <$> (Get now k c).2.
Proof.
  intros Hwf. unfold GetWithExpiration, Get, a_ttl, expiredAt. simpl.
  destruct (items c !! k) as [e|] eqn:Hk; [|done].
  destruct (expires c !! k); [|done]. by destruct (time_Before _ _).
Qed.

Lemma lru_Delete_sim k c :
  lru_wf c → a_delete k (abs c) = (abs (Delete k c).1, (Delete k c).2).
Proof.
  intros Hwf. unfold a_delete, Delete. simpl. rewrite (view_assoc c Hwf).
  destruct (items c !! k) as [e|] eqn:Hk; simpl; [|done].
  destruct (view_lookup c Hwf _ _ Hk) as (v & _ & Hv). rewrite Hv. simpl.
  by rewrite (abs_remove c k).
Qed.

Lemma evictLocked_sim now c : lru_wf c → abs (evictLocked now c) = a_evict (maxBytes c) now (abs c).
Proof.
  intros Hwf. destruct (evictLocked_effect now c Hwf) as (_ & Hv & He & _).
  unfold abs, a_evict. simpl. by rewrite He, Hv.
Qed.

Lemma lru_Set_sim now now' k (v : option V) d c :
  lru_wf c → abs (SetWithExpiration now now' k v d c) = a_set (maxBytes c) now now' k v d (abs c).
Proof.
  intros Hwf. destruct v as [v|]; cbn [a_set].
  - rewrite SetWithExpiration_inserted.
    destruct (inserted_effect now k v d c Hwf) as (Hwf' & Hv & He & Hcfg).
    rewrite evictLocked_sim, (proj1 Hcfg) by done. unfold abs at 1. by rewrite Hv, He.
  - by rewrite lru_Delete_sim.
Qed.

Lemma lruStep_config op c : lru_wf c → same_config c (lruStep op c).
Proof.
  intros Hwf. unfold lruStep. destruct op as [now k|now k|now now' k v d|k| |[now|]|]; simpl; try done;
    [unfold Get|unfold GetWithExpiration|destruct v as [v|]|unfold Delete|by apply evictLocked_effect|unfold Close].
  3: { rewrite SetWithExpiration_inserted.
       destruct (inserted_effect now k v d c Hwf) as (Hwf' & _ & _ & Hcfg).
       etrans; [done|]. by apply evictLocked_effect. }
  all: unfold SetWithExpiration, Delete; repeat case_match; simplify_eq/=; done || apply removeElement_config.
Qed.

Lemma lruExec_sim op c :
  lru_wf c → a_exec (maxBytes c) op (abs c) = (abs (lruExec op c).1, (lruExec op c).2).
Proof.
  intros Hwf. destruct op as [now k|now k|now now' k v d|k| |[now|]|]; simpl; try done.
  - rewrite lru_Get_sim by done. by destruct (Get now k c).
  - rewrite lru_Get_sim by done. rewrite <-lru_GetExp_sim, <-lru_GetExp_fst by done.
    by destruct (GetWithExpiration now k c).
  - by rewrite lru_Set_sim.
  - rewrite lru_Delete_sim by done. by destruct (Delete k c).
  - unfold cleanupExpired. by rewrite evictLocked_sim.
  - unfold Close. by case_match.
Qed.

Lemma lruRun_sim ops c :
  lru_wf c → a_run (maxBytes c) ops (abs c) = (abs (lruRun ops c).1, (lruRun ops c).2).
Proof.
  revert c. induction ops as [|op ops IH]; intros c Hwf; simpl; [done|].
  rewrite lruExec_sim by done.
  pose proof (lruStep_wf op c Hwf) as Hwf'. pose proof (lruStep_config op c Hwf) as [Hmax _].
  unfold lruStep in *. destruct (lruExec op c) as [c1 r]. simpl in *.
  rewrite <-Hmax, IH by done. by destruct (lruRun ops c1).
Qed.

(** [C17] Refinement: for every sequence of operations, a fresh [lruCache]
    returns exactly the results of the abstract LRU (recency list with
    deadlines and byte budget), and its content is the abstract content. *)
Theorem lru_run_refines opts b ops :
  let c := newLRUCacheInternal opts b in
  a_run (MaxBytes opts) ops (mkALRU [] ∅) = (abs (lruRun ops c).1, (lruRun ops c).2).
Proof. apply (lruRun_sim ops (newLRUCacheInternal opts b)), newLRUCache_wf. Qed.

(** Invariant: in every reachable state the list has no duplicates, the
    index and the list point at each other, deadlines belong to present keys
    and [usedBytes] is the (64-bit) sum of the costs of the entries. *)
Theorem lru_reachable_invariant opts b c : lruReachable opts b c → lru_wf c.
Proof. apply lruReachable_wf. Qed.

(** ** The byte budget *)

Lemma shrink_total_bound max l :
  0 < max → (∀ en, en ∈ l → 0 ≤ entry_cost en) → total l < 2 ^ 63 →
  total (shrink max l) ≤ max.
Proof.
  intros Hmax Hpos Hlt. pose proof (shrink_bound max l Hmax) as Hb.
  destruct (shrink_suffix max l) as [l0 Hl0].
  assert (0 ≤ total l0) by (apply sumZ_nonneg; intros; apply Hpos; rewrite Hl0; set_solver).
  assert (0 ≤ total (shrink max l)) by (apply sumZ_nonneg; intros; apply Hpos; rewrite Hl0; set_solver).
  assert (total l = total l0 + total (shrink max l)) by (rewrite Hl0 at 1; apply total_app).
  rewrite int64_small in Hb; lia.
Qed.

(** [usedBytes] respects the limit whenever no write is in progress. *)
Definition within_budget c : Prop := 0 < maxBytes c → usedBytes c ≤ maxBytes c.

Lemma overBudget_false c : lru_wf c → overBudget c = false → within_budget c.
Proof.
  intros Hwf Hb Hpos. rewrite overBudget_view in Hb by done. rewrite (wf_used c Hwf).
  destruct (view c); [unfold total; simpl; rewrite int64_small; lia|].
  zbool. destruct Hb; zbool; lia.
Qed.

Lemma total_sublist l1 l2 :
  (∀ en, en ∈ l2 → 0 ≤ entry_cost (en : lruEntry V)) → sublist l1 l2 → total l1 ≤ total l2.
Proof.
  unfold total. intros Hpos Hsub. induction Hsub as [|x l1 l2 _ IH|x l1 l2 _ IH]; simpl; [done| |].
  - assert (sumZ entry_cost l1 ≤ sumZ entry_cost l2) by (apply IH; intros; apply Hpos; by right). lia.
  - assert (sumZ entry_cost l1 ≤ sumZ entry_cost l2) by (apply IH; intros; apply Hpos; by right).
    pose proof (Hpos x (list_elem_of_here _ _)). lia.
Qed.

(** Entries of fewer than [2^62] bytes. *)
Definition small_entry (en : lruEntry V) : Prop :=
  0 ≤ Len (value en) ∧ go_len (key en) + Len (value en) < 2 ^ 62.

Definition small_op (op : lruOp V) : Prop :=
  match op with
  | OpSetWithExpiration _ _ k (Some v) _ => small_entry (mkEntry k v)
  | _ => True
  end.

Lemma small_entry_cost en : small_entry en → 0 ≤ entry_cost en < 2 ^ 62.
Proof.
  intros [? ?]. unfold entry_cost. pose proof (go_len_nonneg (key en)). rewrite int64_small; lia.
Qed.

Lemma NoDup_keys_snoc k v l :
  NoDup (key <$> l) → NoDup (key <$> drop_key k l ++ [mkEntry k v]).
Proof.
  intros Hnd. rewrite fmap_app. apply NoDup_app.
  split_and!; [by apply NoDup_keys_filter| |apply NoDup_singleton].
  intros k' (en & Hk' & [Hne _]%list_elem_of_filter)%list_elem_of_fmap Hk%list_elem_of_singleton.
  by subst.
Qed.

(** What the budget argument maintains about the abstract content. *)
Definition budgeted (max : Z) (l : list (lruEntry V)) : Prop :=
  NoDup (key <$> l) ∧ (∀ en, en ∈ l → small_entry en) ∧ total l ≤ max.

Lemma budgeted_sublist max l1 l2 : sublist l1 l2 → budgeted max l2 → budgeted max l1.
Proof.
  intros Hs (Hnd & Hsm & Ht).
  assert (∀ en, en ∈ l1 → en ∈ l2) as Hin by (intros en Hen; by eapply elem_of_sublist).
  split_and!; [|auto|].
  - eapply sublist_NoDup; [done|]. by apply fmap_sublist.
  - etrans; [|done]. apply total_sublist; [|done]. intros. by apply small_entry_cost, Hsm.
Qed.

Lemma budgeted_touch max k v l : assoc k l = Some v → budgeted max l → budgeted max (drop_key k l ++ [mkEntry k v]).
Proof.
  intros Ha (Hnd & Hsm & Ht). split_and!.
  - by apply NoDup_keys_snoc.
  - intros en [[_ ?]%list_elem_of_filter| ->%list_elem_of_singleton]%elem_of_app; [auto|].
    by apply Hsm, assoc_Some_elem.
  - rewrite total_app, (total_drop_key k v), total_singleton by done. lia.
Qed.

Lemma budgeted_insert max now k v ex l :
  0 < max < 2 ^ 62 → small_entry (mkEntry k v) → budgeted max l →
  budgeted max (shrink max (alive now ex (drop_key k l ++ [mkEntry k v]))).
Proof.
  intros Hmax Hen (Hnd & Hsm & Ht).
  set (l' := drop_key k l ++ [mkEntry k v]).
  assert (∀ en, en ∈ l' → small_entry en) as Hsm'.
  { intros en [[_ ?]%list_elem_of_filter| ->%list_elem_of_singleton]%elem_of_app; auto. }
  assert (NoDup (key <$> l')) as Hnd' by (by apply NoDup_keys_snoc).
  assert (total l' < 2 ^ 63) as Ht'.
  { unfold l'. rewrite total_app, total_singleton. pose proof (small_entry_cost _ Hen).
    assert (total (drop_key k l) ≤ total l); [|lia].
    apply total_sublist, sublist_filter. intros. by apply small_entry_cost, Hsm. }
  assert (sublist (alive now ex l') l') as Hal by apply sublist_filter.
  assert (total (alive now ex l') ≤ total l') by (apply total_sublist; [intros; by apply small_entry_cost, Hsm'|done]).
  destruct (shrink_suffix max (alive now ex l')) as [l0 Hl0].
  assert (sublist (shrink max (alive now ex l')) l') as Hsub.
  { etrans; [|done]. rewrite Hl0 at 2. by apply sublist_inserts_l. }
  split_and!.
  - eapply sublist_NoDup; [done|]. by apply fmap_sublist.
  - intros en Hin. apply Hsm'. by eapply elem_of_sublist.
  - apply shrink_total_bound; [lia| |lia]. intros en Hin.
    apply small_entry_cost, Hsm'. by eapply elem_of_sublist.
Qed.

Lemma a_exec_budgeted max op a :
  0 < max < 2 ^ 62 → small_op op → budgeted max (a_entries a) →
  budgeted max (a_entries (a_exec max op a).1).
Proof.
  intros Hmax Hop Ha.
  assert (∀ k, budgeted max (drop_key k (a_entries a))) as Hrm.
  { intros k. by eapply budgeted_sublist; [apply sublist_filter|]. }
  destruct op as [now k|now k|now now' k [v|] d|k| |[now|]|]; simpl in *; try done.
  - unfold a_get. repeat case_match; simplify_eq/=; auto using budgeted_touch.
  - unfold a_get. repeat case_match; simplify_eq/=; auto using budgeted_touch.
  - by apply budgeted_insert.
  - unfold a_delete. case_match; simpl; auto.
  - unfold a_delete. repeat case_match; simplify_eq/=; auto.
  - split_and!; [constructor|set_solver|unfold total; simpl; lia].
  - eapply budgeted_sublist; [|done].
    destruct (shrink_suffix max (alive now (a_deadlines a) (a_entries a))) as [l0 Hl0].
    etrans; [|apply (sublist_filter (λ en, ¬ dead now (a_deadlines a) (key en)))].
    fold (alive now (a_deadlines a) (a_entries a)). rewrite Hl0 at 2. by apply sublist_inserts_l.
Qed.

Lemma lruStep_budgeted op c :
  lru_wf c → 0 < maxBytes c < 2 ^ 62 → small_op op → budgeted (maxBytes c) (view c) →
  budgeted (maxBytes (lruStep op c)) (view (lruStep op c)).
Proof.
  intros Hwf Hmax Hop Hb. rewrite (proj1 (lruStep_config op c Hwf)).
  pose proof (a_exec_budgeted (maxBytes c) op (abs c) Hmax Hop Hb) as Hb'.
  by rewrite lruExec_sim in Hb'.
Qed.

Lemma budgeted_used c :
  lru_wf c → 0 < maxBytes c < 2 ^ 62 → budgeted (maxBytes c) (view c) →
  usedBytes c = total (view c) ∧ 0 ≤ usedBytes c ≤ maxBytes c.
Proof.
  intros Hwf Hmax (_ & Hsm & Ht).
  assert (0 ≤ total (view c)) by (apply sumZ_nonneg; intros; by apply small_entry_cost, Hsm).
  rewrite (wf_used c Hwf), int64_small; lia.
Qed.

Lemma a_run_budgeted max ops a :
  0 < max < 2 ^ 62 → Forall small_op ops → budgeted max (a_entries a) →
  budgeted max (a_entries (a_run max ops a).1).
Proof.
  intros Hmax Hops. revert a. induction Hops as [|op ops Hop _ IH]; intros a Ha; simpl; [done|].
  pose proof (a_exec_budgeted max op a Hmax Hop Ha) as Ha'.
  destruct (a_exec max op a) as [a1 r]. specialize (IH _ Ha'). simpl in *. by destruct (a_run max ops a1).
Qed.

Lemma lruRun_reachable opts b ops c : lruReachable opts b c → lruReachable opts b (lruRun ops c).1.
Proof.
  revert c. induction ops as [|op ops IH]; simpl; [done|].
  intros c Hc. pose proof (lruReachable_step opts b op c Hc) as Hc'. unfold lruStep in Hc'.
  destruct (lruExec op c) as [c1 r]. specialize (IH c1 Hc'). by destruct (lruRun ops c1).
Qed.

(** [C18] Byte budget: after any sequence of operations that write entries of
    fewer than [2^62] bytes into a cache with a limit, [usedBytes] is the exact
    number of bytes stored and does not exceed the limit. *)
Theorem lru_byte_budget opts b ops :
  0 < MaxBytes opts < 2 ^ 62 → Forall small_op ops →
  let c := (lruRun ops (newLRUCacheInternal opts b)).1 in
  usedBytes c = total (view c) ∧ 0 ≤ total (view c) ≤ MaxBytes opts.
Proof.
  intros Hmax Hops c.
  pose proof (lruRun_sim ops (newLRUCacheInternal opts b : lruCache V) (newLRUCache_wf opts b)) as Hsim.
  assert (budgeted (MaxBytes opts) (view c)) as (_ & Hsm & Ht).
  { pose proof (a_run_budgeted (MaxBytes opts) ops (mkALRU [] ∅) Hmax Hops) as Hb.
    change (mkALRU [] ∅) with (abs (newLRUCacheInternal opts b : lruCache V)) in Hb. simpl in Hsim.
    rewrite Hsim in Hb. apply Hb. split_and!; [constructor|set_solver|unfold total; simpl; lia]. }
  assert (0 ≤ total (view c)) by (apply sumZ_nonneg; intros; by apply small_entry_cost, Hsm).
  split; [|lia]. rewrite (wf_used c); [apply int64_small; lia|].
  apply (lruReachable_wf opts b). apply lruRun_reachable, lruReachable_new.
Qed.

(** ** Lookups after each operation *)

Lemma lru_Get_result now k c : (Get now k c).2 = lru_lookup now k c.
Proof. unfold Get, lru_lookup. destruct (items c !! k); [|by case_match]. by case_match. Qed.

Lemma lru_lookup_remove t k k' e c :
  lru_wf c → items c !! k = Some e →
  lru_lookup t k' (removeElement e c) = if decide (k' = k) then None else lru_lookup t k' c.
Proof.
  intros Hwf Hk. rewrite !lru_lookup_live by eauto using removeElement_wf.
  rewrite (removeElement_view c k), (removeElement_expires c k) by done.
  unfold live. rewrite assoc_drop_key. unfold dead. repeat case_decide; simplify_eq; try done.
  - exfalso. setoid_rewrite lookup_delete_Some in H0. naive_solver.
  - exfalso. setoid_rewrite lookup_delete_Some in H0. naive_solver.
Qed.

Lemma lru_lookup_touch t k k' e c :
  lru_wf c → items c !! k = Some e → lru_lookup t k' (moveToBack e c) = lru_lookup t k' c.
Proof.
  intros Hwf Hk. destruct (view_lookup c Hwf _ _ Hk) as (v & _ & Hv).
  rewrite !lru_lookup_live by auto using moveToBack_wf.
  rewrite (moveToBack_view c k e v) by done. unfold live. simpl. rewrite assoc_snoc.
  repeat case_decide; simplify_eq; try done. by rewrite view_assoc, Hk by done.
Qed.

Lemma lru_lookup_mono t t' k v c : t ≤ t' → lru_lookup t' k c = Some v → lru_lookup t k c = Some v.
Proof.
  intros Hle. unfold lru_lookup, expiredAt. destruct (expires c !! k) as [d|]; [|done].
  unfold time_Before. destruct (Z.ltb_spec t' d); simpl; [|done].
  destruct (Z.ltb_spec t d); simpl; [done|lia].
Qed.

Lemma lru_Get_frame now t k k' c :
  lru_wf c → now ≤ t → lru_lookup t k' (Get now k c).1 = lru_lookup t k' c.
Proof.
  intros Hwf Hle. unfold Get. destruct (items c !! k) as [e|] eqn:Hk; [|done].
  destruct (expiredAt now k c) eqn:Hexp; simpl; [|by eapply lru_lookup_touch].
  rewrite (lru_lookup_remove t k) by done. case_decide; [subst|done].
  destruct (lru_lookup t k c) as [v|] eqn:Hl; [|done].
  apply (lru_lookup_mono now) in Hl; [|done]. unfold lru_lookup in Hl. by rewrite Hexp in Hl.
Qed.

Lemma lru_Delete_lookup t k k' c :
  lru_wf c → lru_lookup t k' (Delete k c).1 = if decide (k' = k) then None else lru_lookup t k' c.
Proof.
  intros Hwf. unfold Delete. destruct (items c !! k) as [e|] eqn:Hk; simpl.
  - by apply lru_lookup_remove.
  - case_decide; [|done]. subst. unfold lru_lookup. rewrite Hk. by case_match.
Qed.

(** The content after a write, before and after the eviction. *)
Lemma lru_Set_content now now' k v d c :
  lru_wf c →
  let c' := SetWithExpiration now now' k (Some v) d c in
  let ex := deadlines now k d (expires c) in
  let l := alive now' ex (drop_key k (view c) ++ [mkEntry k v]) in
  view c' = shrink (maxBytes c) l ∧ expires c' = restrict (view c') ex.
Proof.
  intros Hwf. cbn zeta. rewrite SetWithExpiration_inserted.
  destruct (inserted_effect now k v d c Hwf) as (Hwf' & Hv & He & Hcfg).
  destruct (evictLocked_effect now' _ Hwf') as (_ & Hv' & He' & _).
  by rewrite Hv', He', Hv', Hv, He, (proj1 Hcfg).
Qed.

Lemma lru_Set_live now now' t k k' v d c :
  lru_wf c →
  let ex := deadlines now k d (expires c) in
  lru_lookup t k' (SetWithExpiration now now' k (Some v) d c) =
    live t ex (shrink (maxBytes c) (alive now' ex (drop_key k (view c) ++ [mkEntry k v]))) k'.
Proof.
  intros Hwf. cbn zeta. rewrite lru_lookup_live by (by apply lru_SetExp_wf).
  destruct (lru_Set_content now now' k v d c Hwf) as [Hv He].
  by rewrite He, live_restrict, Hv.
Qed.

Lemma dead_deadlines t now k k' d ex :
  dead t (deadlines now k d ex) k' ↔
    if decide (k' = k) then 0 < d ∧ now + d ≤ t else dead t ex k'.
Proof.
  unfold dead, deadlines. destruct (Z.ltb_spec 0 d); case_decide; subst.
  - setoid_rewrite lookup_insert_eq. naive_solver.
  - by setoid_rewrite lookup_insert_ne.
  - setoid_rewrite lookup_delete_eq. split; [naive_solver|lia].
  - by setoid_rewrite lookup_delete_ne.
Qed.

(** An entry fits when it fits the budget on its own. *)
Definition lru_room c k v : Prop := maxBytes c ≤ 0 ∨ entry_cost (mkEntry k v) ≤ maxBytes c.

Lemma lru_Set_lookup_same now now' t k v d c :
  lru_wf c → lru_room c k v → now' ≤ t → (0 < d → t < now + d) →
  lru_lookup t k (SetWithExpiration now now' k (Some v) d c) = Some v.
Proof.
  intros Hwf Hroom Hle Hd. rewrite lru_Set_live by done. unfold live.
  assert (∀ u, u ≤ t → ¬ dead u (deadlines now k d (expires c)) k) as Hnd.
  { intros u Hu. rewrite dead_deadlines, decide_True by done. lia. }
  rewrite decide_False by (by apply Hnd).
  unfold alive. rewrite filter_app, filter_cons_True, filter_nil by (by apply Hnd).
  edestruct (shrink_snoc (maxBytes c)) as [l' Hl']; [exact Hroom|]. rewrite Hl'.
  rewrite assoc_app.
  destruct (assoc k l') as [w|] eqn:Hw; [|simpl; by rewrite decide_True].
  exfalso. apply assoc_Some_elem in Hw.
  edestruct (shrink_suffix (maxBytes c)) as [l0 Hl0]. rewrite Hl' in Hl0.
  rewrite (assoc_L (++)) in Hl0. apply (inj (.++ [mkEntry k v])) in Hl0.
  assert (mkEntry k w ∈ l0 ++ l') as Hin by set_solver.
  rewrite <-Hl0 in Hin. by apply list_elem_of_filter in Hin as [_ [Hne _]%list_elem_of_filter].
Qed.

Lemma lru_Set_lookup_only now now' t k v w d c :
  lru_wf c → lru_lookup t k (SetWithExpiration now now' k (Some v) d c) = Some w →
  w = v ∧ (0 < d → t < now + d).
Proof.
  intros Hwf. rewrite lru_Set_live by done. unfold live. case_decide as Hd; [done|].
  rewrite dead_deadlines, decide_True in Hd by done.
  intros Hin%assoc_Some_elem%elem_of_shrink. split; [|lia].
  apply list_elem_of_filter in Hin as [_ [[Hne _]%list_elem_of_filter|Hin]%elem_of_app]; [done|].
  apply list_elem_of_singleton in Hin. by simplify_eq.
Qed.

Lemma lru_Set_lookup_other now now' t k k' v d c :
  lru_wf c → k ≠ k' → now' ≤ t →
  lru_lookup t k' (SetWithExpiration now now' k (Some v) d c) = lru_lookup t k' c ∨
  lru_lookup t k' (SetWithExpiration now now' k (Some v) d c) = None.
Proof.
  intros Hwf Hne Hle. rewrite lru_Set_live, lru_lookup_live by done.
  set (ex := deadlines now k d (expires c)). set (l := drop_key k (view c) ++ [mkEntry k v]).
  assert (live t ex (alive now' ex l) k' = live t (expires c) (view c) k') as <-.
  { rewrite live_alive by done. unfold live, ex, l. rewrite assoc_snoc, (decide_False (P := k' = k)) by done.
    pose proof (dead_deadlines t now k k' d (expires c)) as Hd. rewrite decide_False in Hd by done.
    repeat case_decide; tauto. }
  destruct (shrink_suffix (maxBytes c) (alive now' ex l)) as [l0 Hl0].
  pose proof (live_suffix t ex l0 (shrink (maxBytes c) (alive now' ex l)) k') as Hs.
  rewrite <-Hl0 in Hs. apply Hs.
  by apply NoDup_keys_filter, NoDup_keys_snoc, NoDup_view_keys.
Qed.

(** ** Properties of the operations *)

(** ** How long a value stays *)

(** The operation neither writes nor removes [k]. *)
Definition spares k (op : lruOp V) : Prop :=
  match op with OpSetWithExpiration _ _ k' _ _ | OpDelete k' => k' ≠ k | OpClear => False | _ => True end.

(** The readings of the clock that an operation makes. *)
Definition readings (op : lruOp V) : list Z :=
  match op with
  | OpGet now _ | OpGetWithExpiration now _ | OpCleanup (TickC now) => [now]
  | OpSetWithExpiration now now' _ _ _ => [now; now']
  | _ => []
  end.

(** The bytes of the entry, other than that of [k], which an operation makes the
    most recently used one: the entry it writes or finds. *)
Definition used k (op : lruOp V) (r : lruResult V) : Z :=
  match op, r with
  | OpSetWithExpiration _ _ k' (Some v) _, _ => entry_cost (mkEntry k' v)
  | OpGet _ k', RValue (Some v) | OpGetWithExpiration _ k', RValueTTL (Some (v, _)) =>
      if decide (k' = k) then 0 else entry_cost (mkEntry k' v)
  | _, _ => 0
  end.
Definition pressure k (ops : list (lruOp V)) (rs : list (lruResult V)) : Z := sumZ (λ x, used k x.1 x.2) (zip ops rs).

Lemma pressure_cons k op ops r rs : pressure k (op :: ops) (r :: rs) = used k op r + pressure k ops rs.
Proof. done. Qed.

(** [k] has the value [v], and what was used after it has at most [p] bytes. *)
Definition placed max k v p (l : list (lruEntry V)) : Prop :=
  ∃ l0 l1, l = l0 ++ mkEntry k v :: l1 ∧ assoc k l0 = None ∧ assoc k l1 = None ∧ (0 < max → total l1 ≤ p).

Lemma placed_assoc max k v p l : placed max k v p l → assoc k l = Some v.
Proof. intros (l0 & l1 & -> & Ha0 & _). rewrite assoc_app, Ha0. simpl. by rewrite decide_True. Qed.

Lemma assoc_filter_None (P : lruEntry V → Prop) `{!∀ x, Decision (P x)} k l : assoc k l = None → assoc k (filter P l) = None.
Proof. rewrite !assoc_None. intros Hl en [_ Hin]%list_elem_of_filter. by apply Hl. Qed.

Lemma placed_filter (P : lruEntry V → Prop) `{!∀ x, Decision (P x)} max k v p l :
  (0 < max → budgeted max l) → P (mkEntry k v) → placed max k v p l → placed max k v p (filter P l).
Proof.
  intros Hb HP (l0 & l1 & -> & Ha0 & Ha1 & Ht). exists (filter P l0), (filter P l1). rewrite filter_app, filter_cons_True by done.
  split_and!; [done|by apply assoc_filter_None..|]. intros Hmax. etrans; [|by apply Ht]. apply total_sublist; [|apply sublist_filter].
  intros en Hin. apply small_entry_cost, (Hb Hmax). set_solver.
Qed.

Lemma placed_snoc max k v p l en : key en ≠ k → placed max k v p l → placed max k v (p + entry_cost en) (l ++ [en]).
Proof.
  intros Hne (l0 & l1 & -> & Ha0 & Ha1 & Ht). exists l0, (l1 ++ [en]). rewrite <-app_assoc. split_and!; [done|done| |].
  - rewrite assoc_app, Ha1. simpl. by rewrite decide_False.
  - intros Hmax. rewrite total_app, total_singleton. specialize (Ht Hmax). lia.
Qed.

Lemma placed_touch max k v p l : 0 ≤ p → placed max k v p l → placed max k v p (drop_key k l ++ [mkEntry k v]).
Proof.
  intros Hp _. exists (drop_key k l), []. split_and!; [done| |done|done]. by rewrite assoc_drop_key, decide_True.
Qed.

Lemma shrink_keeps max l0 l1 : (0 < max → int64 (total l1) ≤ max) → ∃ l0', shrink max (l0 ++ l1) = l0' ++ l1 ∧ ∃ x, l0 = x ++ l0'.
Proof.
  intros Hfit. induction l0 as [|en l0 (l0' & IH & x & Hx)]; cbn [shrink app].
  - exists []. split; [|by exists []]. destruct l1 as [|en l1]; [done|]. cbn [shrink]. destruct ((0 <? max) && _) eqn:Hb; [|done]. zbool. lia.
  - case_match; [|by exists (en :: l0); split; [|by exists []]]. exists l0'. split; [done|]. exists (en :: x). by rewrite Hx at 1.
Qed.

Lemma placed_shrink max k v p l :
  (0 < max → max < 2 ^ 62 ∧ entry_cost (mkEntry k v) + p ≤ max ∧ ∀ en, en ∈ l → small_entry en) →
  placed max k v p l → placed max k v p (shrink max l).
Proof.
  intros Hfit (l0 & l1 & -> & Ha0 & Ha1 & Ht). destruct (shrink_keeps max l0 (mkEntry k v :: l1)) as (l0' & -> & x & ->).
  - intros Hmax. destruct (Hfit Hmax) as (Hm & Hc & Hsm). specialize (Ht Hmax).
    assert (total (mkEntry k v :: l1) = entry_cost (mkEntry k v) + total l1) as Hsum by done. rewrite Hsum.
    assert (small_entry (mkEntry k v)) as Hkv by (apply Hsm; set_solver). apply small_entry_cost in Hkv.
    assert (0 ≤ total l1) by (apply sumZ_nonneg; intros en Hin; apply small_entry_cost, Hsm; set_solver). rewrite int64_small; lia.
  - exists l0', l1. split_and!; [done| |done|done]. rewrite assoc_app in Ha0. by destruct (assoc k x).
Qed.

(** The deadline of [k], as long as [k] is there. *)
Definition due k (x : option Z) (a : aLRU) : Prop := assoc k (a_entries a) ≠ None → a_deadlines a !! k = x.

Lemma assoc_present k (l : list (lruEntry V)) en : en ∈ l → key en = k → assoc k l ≠ None.
Proof. rewrite assoc_None. intros Hin Hk Hn. by eapply Hn. Qed.
Lemma assoc_present_inv k (l : list (lruEntry V)) : assoc k l ≠ None → ∃ en, en ∈ l ∧ key en = k.
Proof. destruct (assoc k l) as [v|] eqn:Hv; [|done]. intros _. exists (mkEntry k v). split; [by apply assoc_Some_elem|done]. Qed.

Lemma due_evict max now k x a : due k x a → due k x (a_evict max now a).
Proof.
  intros Hd Hin. cbn in *. apply assoc_present_inv in Hin as (en & Hin & <-). unfold restrict.
  rewrite map_lookup_filter, Hd.
  - destruct x as [d|]; [|done]. cbn. rewrite option_guard_True; [done|]. by apply list_elem_of_fmap_2.
  - apply elem_of_shrink, list_elem_of_filter in Hin as [_ Hin]. by eapply assoc_present.
Qed.
Lemma due_remove k k' x a : k' ≠ k → due k x a → due k x (a_remove k' a).
Proof. intros Hne Hd. unfold due. cbn. rewrite assoc_drop_key, decide_False, lookup_delete_ne by done. exact Hd. Qed.
Lemma due_touch k k' v x a : assoc k' (a_entries a) = Some v → due k x a → due k x (a_touch k' v a).
Proof.
  intros Ha Hd. unfold due. cbn. rewrite assoc_snoc. intros Hin. apply Hd. case_decide; [subst; congruence|done].
Qed.

Lemma due_get now k' k x a : due k x a → due k x (a_get now k' a).1.
Proof.
  intros Hd. unfold a_get. destruct (assoc k' (a_entries a)) as [v|] eqn:Ha; [|done]. case_decide; cbn; [|by apply due_touch].
  destruct (decide (k' = k)) as [->|Hne]; [|by apply due_remove]. unfold due. cbn. by rewrite assoc_drop_key, decide_True.
Qed.
Lemma due_exec max op k x a : spares k op → due k x a → due k x (a_exec max op a).1.
Proof.
  intros Hsp Hd. destruct op as [now k'|now k'|now now' k' [v|] d|k'| |[now|]|]; cbn [a_exec spares fst] in *; try done.
  - pose proof (due_get now k' k x a Hd). by destruct (a_get now k' a).
  - pose proof (due_get now k' k x a Hd). by destruct (a_get now k' a).
  - apply due_evict. unfold due. cbn. rewrite assoc_snoc, decide_False by done. unfold deadlines.
    case_match; rewrite ?lookup_insert_ne, ?lookup_delete_ne by done; exact Hd.
  - cbn [a_set]. unfold a_delete. destruct (assoc k' (a_entries a)); cbn; [by apply due_remove|done].
  - unfold a_delete. destruct (assoc k' (a_entries a)); cbn; [by apply due_remove|done].
  - by apply due_evict.
Qed.

Lemma placed_weaken max k v p p' l : p ≤ p' → placed max k v p l → placed max k v p' l.
Proof. intros Hle (l0 & l1 & -> & Ha0 & Ha1 & Ht). exists l0, l1. split_and!; [done..|]. intros Hmax. specialize (Ht Hmax). lia. Qed.

Section stays.
Context (max : Z) (k : string) (v : V).

(** With a limit: it is below [2^62], every entry is small, and the entry of [k]
    fits together with [p] bytes. *)
Definition roomFor p (a : aLRU) : Prop :=
  0 < max → max < 2 ^ 62 ∧ budgeted max (a_entries a) ∧ entry_cost (mkEntry k v) + p ≤ max.

Lemma used_nonneg op a : (0 < max → small_op op ∧ budgeted max (a_entries a)) → 0 < max → 0 ≤ used k op (a_exec max op a).2.
Proof.
  intros Hs Hmax. destruct (Hs Hmax) as [Hop (_ & Hsm & _)].
  assert (∀ k' w, assoc k' (a_entries a) = Some w → 0 ≤ entry_cost (mkEntry k' w)) as Hget.
  { intros k' w Hw. by apply small_entry_cost, Hsm, assoc_Some_elem. }
  destruct op as [now k'|now k'|now now' k' [w|] d|k'| |[now|]|]; cbn [a_exec used small_op] in *; try done.
  - unfold a_get. destruct (assoc k' (a_entries a)) as [w|] eqn:Hw; [|done]. repeat case_decide; cbn; try done. by apply Hget.
  - unfold a_get. destruct (assoc k' (a_entries a)) as [w|] eqn:Hw; [|done]. repeat case_decide; cbn; try done. by apply Hget.
  - by apply small_entry_cost.
Qed.

(** Eviction at an instant at which [k] is alive. *)
Lemma placed_evict p now a :
  (0 < max → max < 2 ^ 62 ∧ entry_cost (mkEntry k v) + p ≤ max ∧ ∀ en, en ∈ a_entries a → small_entry en) →
  ¬ dead now (a_deadlines a) k → placed max k v p (a_entries a) → placed max k v p (a_entries (a_evict max now a)).
Proof.
  intros Hfit Hnd Hp. cbn. apply placed_shrink.
  - intros Hmax. destruct (Hfit Hmax) as (? & ? & Hsm). split_and!; [done..|]. intros en [_ Hin]%list_elem_of_filter. by apply Hsm.
  - destruct Hp as (l0 & l1 & Heq & Ha0 & Ha1 & Ht). exists (alive now (a_deadlines a) l0), (alive now (a_deadlines a) l1).
    unfold alive. rewrite Heq, filter_app, filter_cons_True by done. split_and!; [done|by apply assoc_filter_None..|].
    intros Hmax. destruct (Hfit Hmax) as (_ & _ & Hsm). etrans; [|by apply Ht]. apply total_sublist; [|apply sublist_filter].
    intros en Hin. apply small_entry_cost, Hsm. rewrite Heq. set_solver.
Qed.

Lemma placed_drop p k' a :
  k' ≠ k → (0 < max → budgeted max (a_entries a)) → placed max k v p (a_entries a) → placed max k v p (drop_key k' (a_entries a)).
Proof. intros Hne Hb. apply placed_filter; [done|]. cbn. congruence. Qed.

Lemma placed_get p now k' a :
  0 ≤ p → (0 < max → budgeted max (a_entries a)) → ¬ dead now (a_deadlines a) k → placed max k v p (a_entries a) →
  placed max k v (p + match (a_get now k' a).2 with Some w => if decide (k' = k) then 0 else entry_cost (mkEntry k' w) | None => 0 end)
    (a_entries (a_get now k' a).1).
Proof.
  intros Hp Hb Hnd Hpl. unfold a_get. destruct (assoc k' (a_entries a)) as [w|] eqn:Hw; cbn; [|by rewrite Z.add_0_r].
  destruct (decide (dead now (a_deadlines a) k')) as [Hd|_]; cbn.
  - rewrite Z.add_0_r. apply placed_drop; [by intros ->|done..].
  - case_decide as Hk'.
    + subst k'. rewrite (placed_assoc _ _ _ _ _ Hpl) in Hw. injection Hw as <-. rewrite Z.add_0_r. by apply placed_touch.
    + apply (placed_snoc max k v p (drop_key k' (a_entries a)) (mkEntry k' w)); [done|]. by apply placed_drop.
Qed.

Lemma placed_exec p x op a :
  0 ≤ p → spares k op → (0 < max → small_op op) → roomFor (p + used k op (a_exec max op a).2) a →
  due k x a → Forall (λ u, ∀ d, x = Some d → u < d) (readings op) →
  placed max k v p (a_entries a) → placed max k v (p + used k op (a_exec max op a).2) (a_entries (a_exec max op a).1).
Proof.
  intros Hp Hsp Hop Hroom Hdue Hrd Hpl.
  assert (0 < max → budgeted max (a_entries a)) as Hb by (intros Hmax; by destruct (Hroom Hmax) as (_ & ? & _)).
  assert (a_deadlines a !! k = x) as Hx by (apply Hdue; by rewrite (placed_assoc _ _ _ _ _ Hpl)).
  assert (∀ u, u ∈ readings op → ¬ dead u (a_deadlines a) k) as Hlive.
  { intros u Hu (d & Hd & Hle). rewrite Hx in Hd. rewrite Forall_forall in Hrd. specialize (Hrd u Hu d Hd). lia. }
  destruct op as [now k'|now k'|now now' k' [w|] d|k'| |[now|]|]; cbn [a_exec used spares readings small_op] in *; try done.
  - pose proof (placed_get p now k' a Hp Hb (Hlive now ltac:(set_solver)) Hpl) as H0'. by destruct (a_get now k' a) as [a' [w|]].
  - pose proof (placed_get p now k' a Hp Hb (Hlive now ltac:(set_solver)) Hpl) as H0'. by destruct (a_get now k' a) as [a' [w|]].
  - cbn [fst snd a_set] in *. apply placed_evict; cbn [a_entries a_deadlines].
    + intros Hmax. destruct (Hroom Hmax) as (? & (_ & Hsm & _) & ?). split_and!; [done|done|].
      intros en [[_ Hin]%list_elem_of_filter| ->%list_elem_of_singleton]%elem_of_app; [by apply Hsm|by apply Hop].
    + rewrite dead_deadlines, decide_False by done. apply Hlive. set_solver.
    + apply (placed_snoc max k v p (drop_key k' (a_entries a)) (mkEntry k' w)); [done|]. by apply placed_drop.
  - cbn [fst snd a_set]. rewrite Z.add_0_r. unfold a_delete. destruct (assoc k' (a_entries a)); cbn; [by apply placed_drop|done].
  - unfold a_delete. destruct (assoc k' (a_entries a)); cbn; rewrite Z.add_0_r; [by apply placed_drop|done].
  - cbn [fst snd] in *. rewrite Z.add_0_r in *. apply placed_evict; [|apply Hlive; set_solver|done].
    intros Hmax. destruct (Hroom Hmax) as (? & (_ & Hsm & _) & ?). by split_and!.
  - by rewrite Z.add_0_r.
  - by rewrite Z.add_0_r.
Qed.

Lemma a_run_due x ops a : Forall (spares k) ops → due k x a → due k x (a_run max ops a).1.
Proof.
  intros Hsp. revert a. induction Hsp as [|op ops Hop _ IH]; intros a Hd; [done|]. cbn [a_run].
  pose proof (due_exec max op k x a Hop Hd) as Hd'. destruct (a_exec max op a) as [a1 r]. specialize (IH a1 Hd').
  by destruct (a_run max ops a1).
Qed.

Lemma a_run_pressure ops a :
  0 < max < 2 ^ 62 → Forall small_op ops → budgeted max (a_entries a) → 0 ≤ pressure k ops (a_run max ops a).2.
Proof.
  intros Hmax Hops. revert a. induction Hops as [|op ops Hop _ IH]; intros a Ha; [done|]. cbn [a_run].
  pose proof (used_nonneg op a (λ _, conj Hop Ha) (proj1 Hmax)) as Hu. pose proof (a_exec_budgeted max op a Hmax Hop Ha) as Ha'.
  destruct (a_exec max op a) as [a1 r]. specialize (IH a1 Ha'). destruct (a_run max ops a1) as [a2 rs].
  cbn [snd] in *. rewrite pressure_cons. lia.
Qed.

Lemma a_run_placed p x ops a :
  0 ≤ p → Forall (spares k) ops → (0 < max → Forall small_op ops) → roomFor (p + pressure k ops (a_run max ops a).2) a →
  due k x a → Forall (λ op, Forall (λ u, ∀ d, x = Some d → u < d) (readings op)) ops →
  placed max k v p (a_entries a) → assoc k (a_entries (a_run max ops a).1) = Some v.
Proof.
  revert p a. induction ops as [|op ops IH]; intros p a Hp Hsp Hop Hroom Hdue Hrd Hpl; [by eapply placed_assoc|].
  apply Forall_cons in Hsp as [Hsp1 Hsp], Hrd as [Hrd1 Hrd].
  assert (0 < max → small_op op ∧ Forall small_op ops) as Hop' by (intros Hm; specialize (Hop Hm); by apply Forall_cons in Hop).
  cbn [a_run] in *. pose proof (placed_exec p x op a Hp Hsp1 (λ Hm, proj1 (Hop' Hm))) as Hpl'.
  pose proof (due_exec max op k x a Hsp1 Hdue) as Hdue'. pose proof (used_nonneg op a) as Hu. pose proof (a_exec_budgeted max op a) as Hb'.
  destruct (a_exec max op a) as [a1 r]. specialize (IH (Z.max p (p + used k op r)) a1).
  pose proof (a_run_pressure ops a1) as Hpr. destruct (a_run max ops a1) as [a2 rs]. cbn [fst snd] in *.
  assert (0 < max → max < 2 ^ 62 ∧ budgeted max (a_entries a1) ∧ 0 ≤ used k op r ∧ 0 ≤ pressure k ops rs ∧
    entry_cost (mkEntry k v) + p + used k op r + pressure k ops rs ≤ max) as Hall.
  { intros Hm. destruct (Hroom Hm) as (Hlt & Hb & Hfit). destruct (Hop' Hm) as [Hs1 Hs2].
    assert (budgeted max (a_entries a1)) as Hb1 by (apply Hb'; [lia|done..]).
    split_and!; [done|done|by apply Hu|apply Hpr; [lia|done..]|]. rewrite pressure_cons in Hfit. lia. }
  apply IH; [lia|done|by intros Hm; apply Hop'| |done|done|].
  - intros Hm. destruct (Hall Hm) as (? & ? & ? & ? & ?). split_and!; [done|done|]. lia.
  - apply (placed_weaken _ _ _ (p + used k op r)); [lia|]. apply Hpl'; [|done..]. intros Hm. destruct (Hall Hm) as (? & ? & ? & ? & ?).
    destruct (Hroom Hm) as (_ & ? & _). split_and!; [done|done|lia].
Qed.
End stays.

Lemma lruRun_wf ops c : lru_wf c → lru_wf (lruRun ops c).1 ∧ maxBytes (lruRun ops c).1 = maxBytes c.
Proof.
  revert c. induction ops as [|op ops IH]; intros c Hwf; [done|]. cbn [lruRun].
  pose proof (lruStep_wf op c Hwf) as Hwf'. pose proof (lruStep_config op c Hwf) as [Hmax _]. unfold lruStep in *.
  destruct (lruExec op c) as [c1 r]. cbn [fst] in *. destruct (IH c1 Hwf') as [H1' H2']. destruct (lruRun ops c1). by rewrite <-Hmax.
Qed.

(** The deadline that a write at [now] with the lifetime [d] sets. *)
Definition dueAt (now d : Z) : option Z := if 0 <? d then Some (now + d) else None.

(** The content between the insertion and the eviction of a write. *)
Definition written now k v d c : aLRU := mkALRU (drop_key k (view c) ++ [mkEntry k v]) (deadlines now k d (expires c)).

Lemma written_evict now now' k v d c :
  lru_wf c → abs (SetWithExpiration now now' k (Some v) d c) = a_evict (maxBytes c) now' (written now k v d c).
Proof. intros Hwf. destruct (lru_Set_content now now' k v d c Hwf) as [Hv He]. unfold abs, a_evict, written. cbn [a_entries a_deadlines]. by rewrite He, Hv. Qed.
Lemma written_due now k v d c : due k (dueAt now d) (written now k v d c).
Proof. intros _. cbn. unfold deadlines, dueAt. by case_match; rewrite ?lookup_insert_eq, ?lookup_delete_eq. Qed.
Lemma written_placed max now k v d c : placed max k v 0 (a_entries (written now k v d c)).
Proof. exists (drop_key k (view c)), []. split_and!; [done| |done|done]. by rewrite assoc_drop_key, decide_True. Qed.

(** A write into a cache within its limit, and the operations that follow. *)
Lemma write_stays now now' k v d ops c t :
  lru_wf c → (0 < d → t < now + d) → now' ≤ t → Forall (spares k) ops → Forall (λ op, Forall (λ u, u ≤ t) (readings op)) ops →
  let c' := SetWithExpiration now now' k (Some v) d c in
  (0 < maxBytes c → maxBytes c < 2 ^ 62 ∧ budgeted (maxBytes c) (view c) ∧ small_entry (mkEntry k v) ∧ Forall small_op ops ∧
     entry_cost (mkEntry k v) + pressure k ops (lruRun ops c').2 ≤ maxBytes c) →
  assoc k (view (lruRun ops c').1) = Some v.
Proof.
  intros Hwf Hd Hnow Hsp Hrd c' Hroom. pose proof (written_evict now now' k v d c Hwf) as Habs. fold c' in Habs.
  assert (lru_wf c') as Hwf' by (by apply lru_SetExp_wf).
  assert (maxBytes c' = maxBytes c) as Hmax by apply (lruStep_config (OpSetWithExpiration now now' k (Some v) d) c Hwf).
  pose proof (lruRun_sim ops c' Hwf') as Hsim. rewrite Hmax in Hsim.
  assert (0 < maxBytes c → budgeted (maxBytes c) (view c')) as Hb.
  { intros Hm. destruct (Hroom Hm) as (? & ? & ? & _). change (view c') with (a_entries (abs c')). rewrite Habs. apply budgeted_insert; [lia|done..]. }
  assert (0 < maxBytes c → 0 ≤ pressure k ops (lruRun ops c').2) as Hpr.
  { intros Hm. destruct (Hroom Hm) as (? & _ & _ & ? & _). pose proof (a_run_pressure (maxBytes c) k ops (abs c')) as Hp.
    rewrite Hsim in Hp. apply Hp; [lia|done|by apply Hb]. }
  assert (∀ u, u ≤ t → ∀ y, dueAt now d = Some y → u < y) as Hin.
  { intros u Hu y. unfold dueAt. destruct (Z.ltb_spec 0 d); [|done]. intros [= <-]. lia. }
  pose proof (a_run_placed (maxBytes c) k v 0 (dueAt now d) ops (abs c')) as Hrun. rewrite Hsim in Hrun. apply Hrun; clear Hrun.
  - done.
  - done.
  - intros Hm. by destruct (Hroom Hm) as (_ & _ & _ & ? & _).
  - intros Hm. destruct (Hroom Hm) as (? & _ & _ & _ & ?). split_and!; [done|by apply Hb|done].
  - rewrite Habs. apply due_evict, written_due.
  - eapply Forall_impl; [exact Hrd|]. intros op Hop. eapply Forall_impl; [exact Hop|]. exact Hin.
  - rewrite Habs. apply placed_evict; [..|apply written_placed].
    + intros Hm. destruct (Hroom Hm) as (? & (_ & Hsm & _) & Hkv & _ & ?). specialize (Hpr Hm). split_and!; [done|lia|].
      intros en [[_ Hen]%list_elem_of_filter| ->%list_elem_of_singleton]%elem_of_app; [by apply Hsm|done].
    + intros (y & Hy & Hle). specialize (Hin now' Hnow y). rewrite (written_due now k v d c) in Hy; [specialize (Hin Hy); lia|].
      by rewrite (placed_assoc 0 k v 0 _ (written_placed 0 now k v d c)).
Qed.

(** [C22] Lifetime of a write.  After any operations on a fresh cache, write the
    value [v] for [k] with the lifetime [d], and then run any operations that
    neither write nor remove [k].  A [Get] of [k] at an instant not before their
    readings of the clock returns [v] as long as the deadline has not come, and
    nothing from the deadline on, provided nothing pushes the entry out: the cache
    has no limit, or the entry fits the limit together with all the entries that
    the later operations write or find under other keys. *)
Theorem lru_write_lifetime opts b ops0 now now' k v d ops t :
  let c := SetWithExpiration now now' k (Some v) d (lruRun ops0 (newLRUCacheInternal opts b)).1 in
  Forall (spares k) ops → now' ≤ t → Forall (λ op, Forall (λ u, u ≤ t) (readings op)) ops →
  (MaxBytes opts ≤ 0 ∨
   MaxBytes opts < 2 ^ 62 ∧ Forall small_op ops0 ∧ small_entry (mkEntry k v) ∧ Forall small_op ops ∧
   entry_cost (mkEntry k v) + pressure k ops (lruRun ops c).2 ≤ MaxBytes opts) →
  (Get t k (lruRun ops c).1).2 = if decide (0 < d ∧ now + d ≤ t) then None else Some v.
Proof.
  intros c Hsp Hnow Hrd Hroom. rewrite lru_Get_result.
  pose proof (newLRUCache_wf opts b : lru_wf (newLRUCacheInternal opts b : lruCache V)) as Hnew.
  set (c0 := (lruRun ops0 (newLRUCacheInternal opts b)).1) in c.
  destruct (lruRun_wf ops0 _ Hnew) as [Hwf0 Hmax0]. change (maxBytes _) with (MaxBytes opts) in Hmax0 at 2. fold c0 in Hwf0, Hmax0.
  assert (lru_wf c) as Hwf by (by apply lru_SetExp_wf).
  rewrite lru_lookup_live by (by apply lruRun_wf). unfold live.
  assert (due k (dueAt now d) (abs (lruRun ops c).1)) as Hdue.
  { pose proof (a_run_due (maxBytes c) k (dueAt now d) ops (abs c) Hsp) as Hd. rewrite lruRun_sim in Hd by done. apply Hd.
    unfold c. rewrite written_evict by done. apply due_evict, written_due. }
  unfold due, dueAt in Hdue. cbn [abs a_entries a_deadlines] in Hdue. destruct (decide (0 < d ∧ now + d ≤ t)) as [Hlate|Hlate].
  - destruct (assoc k (view (lruRun ops c).1)) as [w|] eqn:Hw; [|by case_decide]. rewrite decide_True; [done|]. exists (now + d).
    rewrite Hdue by done. rewrite (proj2 (Z.ltb_lt 0 d)) by lia. split; [done|lia].
  - assert (assoc k (view (lruRun ops c).1) = Some v) as Hv.
    { apply (write_stays now now' k v d ops c0 t); [done|lia|done..|]. rewrite Hmax0. intros Hm.
      destruct Hroom as [?|(? & Hs0 & ? & ? & ?)]; [lia|]. split_and!; try done.
      pose proof (a_run_budgeted (MaxBytes opts) ops0 (abs (newLRUCacheInternal opts b : lruCache V))) as Hb.
      pose proof (lruRun_sim ops0 _ Hnew) as Hsim. change (maxBytes _) with (MaxBytes opts) in Hsim. rewrite Hsim in Hb. apply Hb; [lia|done|]. split_and!; [constructor|set_solver|unfold total; simpl; lia]. }
    rewrite decide_False; [done|]. intros (y & Hy & Hle). rewrite Hdue in Hy by (by rewrite Hv). destruct (Z.ltb_spec 0 d); [|done].
    injection Hy as <-. lia.
Qed.

(** [C23] Eviction order: a write keeps a suffix of the recency list (expired
    entries removed, the written entry last); it drops only the least recently
    used entries, and only as many as the budget requires. *)
Theorem lru_evicts_least_recent opts b c now now' k v d :
  lruReachable opts b c → 0 < maxBytes c →
  let l := alive now' (deadlines now k d (expires c)) (drop_key k (view c) ++ [mkEntry k v]) in
  let kept := view (SetWithExpiration now now' k (Some v) d c) in
  ∃ dropped, l = dropped ++ kept ∧ int64 (total kept) ≤ maxBytes c ∧
    ∀ dropped' en, dropped = dropped' ++ [en] → maxBytes c < int64 (total (en :: kept)).
Proof.
  intros Hwf%lruReachable_wf Hmax l kept.
  destruct (lru_Set_content now now' k v d c Hwf) as [Hv _]. fold l kept in Hv. rewrite Hv.
  clear -Hmax. clearbody l. induction l as [|en l (dr & Hl & Hb & Hmin)]; cbn [shrink].
  - exists []. split_and!; [done|unfold total; simpl; rewrite int64_small; lia|].
    intros dr' en Heq. by destruct dr'.
  - destruct ((0 <? maxBytes c) && _) eqn:Hover.
    + exists (en :: dr). split_and!; [by rewrite Hl at 1|done|]. intros dr' en' Heq.
      destruct dr' as [|en'' dr']; simplify_eq/=; [|by eapply Hmin].
      zbool. by rewrite <-Hl.
    + exists []. split_and!; [done|zbool; destruct Hover; zbool; lia|].
      intros dr' en' Heq. by destruct dr'.
Qed.

(** [GetWithExpiration] returns the value [Get] returns and leaves the
    same state; the duration it adds is zero exactly for a key without
    deadline, and otherwise the time left, which is positive. *)
Theorem lru_GetWithExpiration_agrees opts b c now k :
  lruReachable opts b c →
  (GetWithExpiration now k c).1 = (Get now k c).1 ∧
  fst <$> (GetWithExpiration now k c).2 = (Get now k c).2 ∧
  ∀ v ttl, (GetWithExpiration now k c).2 = Some (v, ttl) →
    match expires c !! k with
    | Some exp => now < exp ∧ 0 < ttl ∧ ttl = Z.min max_int64 (exp - now)
    | None => ttl = 0
    end.
Proof.
  intros Hwf%lruReachable_wf. split; [apply lru_GetExp_fst|]. split.
  - rewrite lru_GetExp_sim by done. destruct (Get now k c).2; done.
  - unfold GetWithExpiration. intros v ttl. destruct (items c !! k) as [e|]; [|done].
    destruct (expires c !! k) as [exp|].
    + unfold time_Before. destruct (Z.ltb_spec now exp); [|done]. simpl.
      destruct (elem_value c e); [|done]. intros ?; simplify_eq/=. unfold time_Sub, min_int64, max_int64. lia.
    + simpl. destruct (elem_value c e); [|done]. by intros ?; simplify_eq/=.
Qed.

(** ** Independence from map iteration order *)

(** Equality up to the order of the logged [onEvicted] calls. *)
Definition forget c : lruCache V :=
  upd c (llist c) (elems c) (next c) (items c) (expires c) (usedBytes c) [].

#[global] Instance lru_equiv : Equiv (lruCache V) :=
  λ c1 c2, forget c1 = forget c2 ∧ evicted c1 ≡ₚ evicted c2.

#[global] Instance lru_equivalence : Equivalence (≡@{lruCache V}).
Proof.
  split.
  - done.
  - by intros c1 c2 [? ?].
  - intros c1 c2 c3 [H1 H2] [H3 H4]. split; [congruence|by rewrite H2].
Qed.

Lemma lru_equiv_fields c1 c2 :
  c1 ≡ c2 → llist c1 = llist c2 ∧ elems c1 = elems c2 ∧ items c1 = items c2 ∧
            expires c1 = expires c2 ∧ usedBytes c1 = usedBytes c2 ∧ maxBytes c1 = maxBytes c2.
Proof. intros [Hf _]. destruct c1, c2. unfold forget, upd in Hf. simpl in *. by injection Hf. Qed.

#[global] Instance removeElement_proper e : Proper ((≡) ==> (≡)) (removeElement (V := V) e).
Proof.
  intros c1 c2 [Hf Hev]. destruct c1, c2. unfold forget, upd in Hf. simpl in *.
  injection Hf as -> -> -> -> -> -> -> -> -> -> ->.
  unfold removeElement. simpl. case_match; [|done]. split; [done|]. simpl.
  case_match; [by rewrite Hev|done].
Qed.

Lemma removeElement_comm e1 e2 c :
  removeElement e1 (removeElement e2 c) ≡ removeElement e2 (removeElement e1 c).
Proof.
  unfold removeElement. destruct (elems c !! e1) as [en1|] eqn:H1, (elems c !! e2) as [en2|] eqn:H2;
    simpl; rewrite ?H1, ?H2; try done.
  split; unfold forget, upd; simpl.
  - f_equal; [|apply delete_delete|apply delete_delete|rewrite !int64_sub_l; f_equal; lia].
    unfold list_Remove. rewrite !list_filter_filter. apply list_filter_iff. naive_solver.
  - destruct (onEvicted c); simpl; [|done]. rewrite <-!(assoc_L (++)). simpl.
    f_equiv. constructor.
Qed.

#[global] Instance expireKey_proper now : Proper ((≡) ==> (=) ==> (≡)) (expireKey (V := V) now).
Proof.
  intros c1 c2 Heq k ? <-. destruct (lru_equiv_fields _ _ Heq) as (_ & _ & Hi & He & _).
  unfold expireKey. rewrite Hi, He. repeat case_match; try done. by rewrite Heq.
Qed.

Lemma expireKey_after_remove now c k k' e :
  lru_wf c → items c !! k = Some e → k ≠ k' →
  expireKey now (removeElement e c) k' =
    match items c !! k' with
    | Some e' => if decide (dead now (expires c) k') then removeElement e' (removeElement e c)
                 else removeElement e c
    | None => removeElement e c
    end.
Proof.
  intros Hwf He Hne. destruct (view_lookup c Hwf _ _ He) as (v & Hv & _).
  pose proof (removeElement_fields _ _ _ _ Hv) as Hf.
  assert (expires (removeElement e c) !! k' = expires c !! k') as Hx by (rewrite Hf; by apply lookup_delete_ne).
  assert (items (removeElement e c) !! k' = items c !! k') as Hi by (rewrite Hf; by apply lookup_delete_ne).
  unfold expireKey. rewrite Hx, Hi. unfold time_Before.
  destruct (items c !! k') as [e'|]; [|by repeat case_match].
  destruct (expires c !! k') as [d|] eqn:Hd; case_decide as Hdead; try done.
  - destruct Hdead as (d' & ? & ?). simplify_eq. by rewrite (proj2 (Z.ltb_ge _ _)).
  - destruct (Z.ltb_spec now d); [done|]. destruct Hdead. by exists d.
  - destruct Hdead as (? & ? & _). congruence.
Qed.

Lemma expireKey_comm now c k1 k2 :
  lru_wf c → expireKey now (expireKey now c k1) k2 ≡ expireKey now (expireKey now c k2) k1.
Proof.
  intros Hwf. destruct (decide (k1 = k2)) as [->|Hne]; [done|].
  destruct (expireKey_cases now c k1 Hwf) as [[Hd1 E1]|(Hd1 & e1 & He1 & E1)],
           (expireKey_cases now c k2 Hwf) as [[Hd2 E2]|(Hd2 & e2 & He2 & E2)];
    rewrite E1, E2, ?E1, ?E2; [done|..].
  - rewrite (expireKey_after_remove now c k2 k1) by done. by case_match; rewrite ?decide_False.
  - rewrite (expireKey_after_remove now c k1 k2) by done. by case_match; rewrite ?decide_False.
  - rewrite (expireKey_after_remove now c k1 k2), (expireKey_after_remove now c k2 k1) by done.
    rewrite He1, He2, !decide_True by done. apply removeElement_comm.
Qed.

Lemma expireLoop_perm now order1 order2 c1 c2 :
  lru_wf c1 → lru_wf c2 → c1 ≡ c2 → order1 ≡ₚ order2 →
  expireLoop now order1 c1 ≡ expireLoop now order2 c2.
Proof.
  intros Hwf1 Hwf2 Heq Hp. unfold expireLoop. revert c1 c2 Hwf1 Hwf2 Heq.
  induction Hp as [|k l1 l2 _ IH|k1 k2 l|l1 l2 l3 _ IH1 _ IH2]; intros c1 c2 Hwf1 Hwf2 Heq; simpl.
  - done.
  - apply IH; [by apply expireKey_wf..|by rewrite Heq].
  - assert (expireKey now (expireKey now c1 k2) k1 ≡ expireKey now (expireKey now c2 k1) k2) as Hc
      by (by rewrite expireKey_comm, Heq).
    assert (lru_wf (expireKey now (expireKey now c1 k2) k1)) as H1 by (by do 2 apply expireKey_wf).
    assert (lru_wf (expireKey now (expireKey now c2 k1) k2)) as H2 by (by do 2 apply expireKey_wf).
    revert H1 H2 Hc. generalize (expireKey now (expireKey now c1 k2) k1) as x.
    generalize (expireKey now (expireKey now c2 k1) k2) as y. clear.
    induction l as [|k l IH]; intros y x Hx Hy Heq; simpl; [done|].
    apply IH; [by apply expireKey_wf..|by rewrite Heq].
  - etrans; [by apply IH1|by apply IH2].
Qed.

#[global] Instance capacityLoop_proper fuel : Proper ((≡) ==> (≡)) (capacityLoop (V := V) fuel).
Proof.
  induction fuel as [|fuel IH]; intros c1 c2 Heq; [done|].
  destruct (lru_equiv_fields _ _ Heq) as (Hl & _ & _ & _ & Hu & Hm). simpl.
  unfold overBudget. rewrite Hl, Hu, Hm. repeat case_match; try done. apply IH. by rewrite Heq.
Qed.

(** Go does not specify the order in which [range c.expires] visits the
    keys: every order leads [evictLocked] to the same cache, up to the order
    of the [onEvicted] calls. *)
Theorem lru_evict_order_irrelevant opts b c now order :
  lruReachable opts b c → order ≡ₚ elements (dom (expires c)) →
  evictLockedIn now order c ≡ evictLocked now c.
Proof.
  intros Hwf%lruReachable_wf Horder. unfold evictLocked, evictLockedIn.
  pose proof (expireLoop_perm now _ _ c c Hwf Hwf (reflexivity c) Horder) as Heq.
  destruct (lru_equiv_fields _ _ Heq) as (Hl & _). by rewrite Hl, Heq.
Qed.

(** ** [lruCache] implements the [Store] contract *)

#[global] Instance lru_store : Store (lruCache V) V := {|
  st_Get := Get; st_Set := Set_; st_SetWithExpiration := SetWithExpiration;
  st_Delete := Delete; st_Clear := Clear; st_Len := Len_; st_Close := Close
|}.

Lemma lru_Delete_result t k c : lru_wf c → is_Some (lru_lookup t k c) → (Delete k c).2 = true.
Proof.
  intros Hwf [v Hv]. unfold lru_lookup, Delete in *.
  destruct (items c !! k); [done|]. by case_match.
Qed.

Lemma lru_Close_lookup t k c : lru_lookup t k (Close c) = lru_lookup t k c.
Proof. unfold Close. by case_match. Qed.

Lemma lruStep_room op c k v : lru_wf c → lru_room (lruStep op c) k v ↔ lru_room c k v.
Proof. intros Hwf. unfold lru_room. by rewrite (proj1 (lruStep_config op c Hwf)). Qed.

#[global] Instance lru_store_model : StoreModel (lruCache V) V :=
  {| st_wf := lru_wf; st_lookup := lru_lookup; st_room := lru_room |}.

#[global] Instance lru_store_laws : StoreLaws (lruCache V) V.
Proof.
  split; unfold st_Get, st_Set, st_SetWithExpiration, st_Delete, st_Clear, st_Close, lru_store,
      st_wf, st_lookup, st_room, lru_store_model, Set_;
    eauto with locache_wf.
  - intros. by eapply lru_lookup_mono.
  - intros. apply lru_Get_result.
  - intros. by apply lru_Get_frame.
  - intros. apply lru_Set_lookup_same; auto; lia.
  - intros now t k v w c Hwf Hl. by apply lru_Set_lookup_only in Hl as [-> _].
  - intros. by apply lru_Set_lookup_other.
  - intros. by apply lru_Set_lookup_same.
  - intros now now' t k v d c Hwf Hd Hle.
    destruct (lru_lookup t k _) eqn:Hl; [|done]. apply lru_Set_lookup_only in Hl; [lia|done].
  - intros now now' t k v w d c Hwf Hl. by apply lru_Set_lookup_only in Hl as [-> _].
  - intros. by apply lru_Set_lookup_other.
  - intros. rewrite lru_Delete_lookup by done. by rewrite decide_True.
  - intros. rewrite lru_Delete_lookup by done. by rewrite decide_False by auto.
  - intros. by eapply lru_Delete_result.
  - intros. apply lru_Close_lookup.
  - intros now k k' v c Hwf. pose proof (lruStep_room (OpGet now k) c k' v Hwf) as Hr.
    unfold lruStep in Hr. simpl in Hr. by destruct (Get now k c).
  - intros now k w k' v c Hwf. by apply (lruStep_room (OpSetWithExpiration now now k w 0)).
  - intros now now' k w d k' v c Hwf. by apply (lruStep_room (OpSetWithExpiration now now' k w d)).
  - intros k k' v c Hwf. pose proof (lruStep_room (OpDelete k) c k' v Hwf) as Hr.
    unfold lruStep in Hr. simpl in Hr. by destruct (Delete k c).
Qed.
End spec.
Arguments aLRU V : clear implicits.

(** ** Witnesses: a small cache over byte views *)

Definition w_opts : Options := {| MaxBytes := 16; ShardCount := 1; CleanupInterval := 0; OnEvicted := true |}.
Definition w_val (n : nat) : ByteView := mkByteView (replicate n 7).

(** Three writes, the last of which evicts the least recently used entry. *)
Definition w_ops : list (lruOp ByteView) :=
  [OpSetWithExpiration 0 0 "a" (Some (w_val 5)) 0;
   OpSetWithExpiration 1 1 "b" (Some (w_val 5)) 10;
   OpGet 2 "a";
   OpSetWithExpiration 3 3 "c" (Some (w_val 6)) 0].

Definition w_cache : lruCache ByteView := (lruRun w_ops (newLRUCache w_opts)).1.

Lemma w_reachable : lruReachable w_opts true w_cache.
Proof. apply lruRun_reachable, lruReachable_new. Qed.

Example w_cache_keys : key <$> view w_cache = ["a"; "c"] ∧ (evicted w_cache).*1 = ["b"].
Proof. by vm_compute. Qed.

Lemma lru_reachable_invariant_witness : lru_wf w_cache.
Proof. apply (lru_reachable_invariant w_opts true), w_reachable. Defined.

Lemma lru_byte_budget_witness : usedBytes w_cache = total (view w_cache) ∧ 0 ≤ total (view w_cache) ≤ 16.
Proof.
  apply (lru_byte_budget w_opts true w_ops); [vm_compute; by split|].
  repeat constructor; vm_compute; try done.
Defined.

(** After the write, a hit of an older key, a write and a sweep: eleven bytes of
    the sixteen are in use when "d" is read. *)
Definition w_later : list (lruOp ByteView) :=
  [OpGet 6 "a"; OpSetWithExpiration 7 7 "e" (Some (w_val 2)) 0; OpGet 8 "d"; OpDelete "e"; OpCleanup (TickC 9)].

Lemma lru_write_lifetime_witness :
  (Get 12 "d" (lruRun w_later (SetWithExpiration 4 5 "d" (Some (w_val 3)) 9 w_cache)).1).2 = Some (w_val 3) ∧
  (Get 13 "d" (lruRun w_later (SetWithExpiration 4 5 "d" (Some (w_val 3)) 9 w_cache)).1).2 = None.
Proof.
  assert (Forall (spares "d") w_later) as Hsp by (repeat constructor; try discriminate).
  assert (Forall small_op w_ops ∧ Forall small_op w_later) as [Hs0 Hs1].
  { split; repeat constructor; vm_compute; try done. }
  assert (MaxBytes w_opts ≤ 0 ∨ MaxBytes w_opts < 2 ^ 62 ∧ Forall small_op w_ops ∧ small_entry (mkEntry "d" (w_val 3)) ∧ Forall small_op w_later ∧
    entry_cost (mkEntry "d" (w_val 3)) + pressure "d" w_later (lruRun w_later (SetWithExpiration 4 5 "d" (Some (w_val 3)) 9 w_cache)).2 ≤ MaxBytes w_opts) as Hroom.
  { right. split_and!; [by vm_compute|exact Hs0|by vm_compute|exact Hs1|by vm_compute]. }
  split.
  - apply (lru_write_lifetime w_opts true w_ops 4 5 "d" (w_val 3) 9 w_later 12); [exact Hsp|lia| |exact Hroom].
    repeat constructor; lia.
  - apply (lru_write_lifetime w_opts true w_ops 4 5 "d" (w_val 3) 9 w_later 13); [exact Hsp|lia| |exact Hroom].
    repeat constructor; lia.
Defined.

Lemma lru_evicts_least_recent_witness :
  ∃ dropped, [mkEntry "a" (w_val 5); mkEntry "c" (w_val 6); mkEntry "d" (w_val 3)] =
    dropped ++ view (SetWithExpiration 4 5 "d" (Some (w_val 3)) 0 w_cache).
Proof.
  destruct (lru_evicts_least_recent w_opts true w_cache 4 5 "d" (w_val 3) 0) as (dr & Hl & _);
    [apply w_reachable|by vm_compute|].
  exists dr. etrans; [|exact Hl]. by vm_compute.
Defined.

Lemma lru_GetWithExpiration_agrees_witness :
  (GetWithExpiration 5 "a" w_cache).1 = (Get 5 "a" w_cache).1.
Proof.
  pose proof (lru_GetWithExpiration_agrees w_opts true w_cache 5 "a" w_reachable) as [Hw _]. exact Hw.
Defined.

(** Two entries that expire together. *)
Definition w_cache2 : lruCache ByteView :=
  lruStep (OpSetWithExpiration 5 5 "x" (Some (w_val 1)) 1)
    (lruStep (OpSetWithExpiration 5 5 "y" (Some (w_val 1)) 1) w_cache).

Lemma w_reachable2 : lruReachable w_opts true w_cache2.
Proof. do 2 apply lruReachable_step. apply w_reachable. Qed.

Lemma w_order2 : ["x"; "y"] ≡ₚ elements (dom (expires w_cache2)).
Proof. replace (elements (dom (expires w_cache2))) with ["y"; "x"] by (by vm_compute). constructor. Qed.

Lemma lru_evict_order_irrelevant_witness : evictLockedIn 9 ["x"; "y"] w_cache2 ≡ evictLocked 9 w_cache2.
Proof. exact (lru_evict_order_irrelevant w_opts true w_cache2 9 ["x"; "y"] w_reachable2 w_order2). Defined.
