(* ===== verification/Sharded.v ===== *)
(** * The sharded LRU (store/sharded_lru.go)

    [shardedLRU]: a power-of-two number of [lruCache] shards selected by the
    FNV-1a hash of the key, one budget split over the shards, one cleanup
    ticker.  Loops of the source run on fuel; [None] stands for a loop that
    does not end within it. *)

From S2P Require Import Prelude Store ByteView Hashes Lru LruFacts LruSpec.

Section sharded.
Context {V : Type} `{Value V}.

Record shardedLRU := mkSharded {
  shards : list (lruCache V);
  cleanupTick : bool;
  s_closed : bool
}.

(** [for p < n \{ p <<= 1 \}] on a 64-bit [int]. *)
Fixpoint doubleLoop (fuel : nat) (n p : Z) : option Z :=
  match fuel with
  | O => None
  | S fuel => if p <? n then doubleLoop fuel n (int64 (Z.shiftl p 1)) else Some p
  end.

(** 64 iterations: the loop ends within 63 or never does. *)
Definition nextPowerOfTwo (n : Z) : option Z :=
  if n <=? 1 then Some 1 else doubleLoop 64 n 1.

(** [for count > 1 && opts.MaxBytes/int64(count) < 1024 \{ count >>= 1 \}] *)
Fixpoint halveLoop (fuel : nat) (maxBytes count : Z) : Z :=
  match fuel with
  | O => count
  | S fuel =>
      if (1 <? count) && (Z.quot maxBytes count <? 1024)
      then halveLoop fuel maxBytes (Z.shiftr count 1) else count
  end.

Definition shardBudget (maxBytes count i : Z) : Z :=
  let base := Z.quot maxBytes count in
  let remainder := Z.rem maxBytes count in
  if i <? remainder then base + 1 else base.

Definition newShardedLRU (opts : Options) : option shardedLRU :=
  let count := if ShardCount opts <=? 0 then 16 else ShardCount opts in
  match nextPowerOfTwo count with
  | None => None
  | Some count =>
      let count := if 0 <? MaxBytes opts then halveLoop 64 (MaxBytes opts) count else count in
      let shardOpts (i : Z) : Options :=
        {| MaxBytes := if 0 <? MaxBytes opts then shardBudget (MaxBytes opts) count i else MaxBytes opts;
           ShardCount := ShardCount opts; CleanupInterval := CleanupInterval opts;
           OnEvicted := OnEvicted opts |} in
      Some {| shards := (λ i, newLRUCacheInternal (shardOpts i) false) <$> seqZ 0 count;
              cleanupTick := true; s_closed := false |}
  end.

(** [int(h.Sum32()) & (len(s.shards)-1)] *)
Definition shardIndex (n : nat) (k : string) : nat :=
  Z.to_nat (Z.land (fnv32a (bytes_of k)) (Z.of_nat n - 1)).

Definition shard (s : shardedLRU) (k : string) : option (lruCache V) :=
  shards s !! shardIndex (length (shards s)) k.

(** Run an operation on the shard of a key.  An index out of range panics in
    Go; it does not occur ([shard_in_range]) and leaves the state here. *)
Definition onShard {A} (k : string) (dflt : A) (f : lruCache V → lruCache V * A)
    (s : shardedLRU) : shardedLRU * A :=
  match shard s k with
  | Some c =>
      let '(c', r) := f c in
      ({| shards := <[shardIndex (length (shards s)) k := c']> (shards s);
          cleanupTick := cleanupTick s; s_closed := s_closed s |}, r)
  | None => (s, dflt)
  end.

Definition Get (now : Z) (k : string) (s : shardedLRU) : shardedLRU * option V :=
  onShard k None (Lru.Get now k) s.

Definition SetWithExpiration (now now' : Z) (k : string) (v : option V) (expiration : Z)
    (s : shardedLRU) : shardedLRU :=
  (onShard k tt (λ c, (Lru.SetWithExpiration now now' k v expiration c, tt)) s).1.

Definition Set_ (now : Z) (k : string) (v : option V) (s : shardedLRU) : shardedLRU :=
  (onShard k tt (λ c, (Lru.Set_ now k v c, tt)) s).1.

Definition Delete (k : string) (s : shardedLRU) : shardedLRU * bool :=
  onShard k false (Lru.Delete k) s.

Definition mapShards (f : lruCache V → lruCache V) (s : shardedLRU) : shardedLRU :=
  {| shards := f <$> shards s; cleanupTick := cleanupTick s; s_closed := s_closed s |}.

Definition Clear (s : shardedLRU) : shardedLRU := mapShards Lru.Clear s.

Definition Len_ (s : shardedLRU) : Z := foldl (λ total sh, int64 (total + Lru.Len_ sh)) 0 (shards s).

(** One iteration of the background goroutine; each shard's sweep takes its own
    clock reading, [now] of its index. *)
Inductive shardSignal := STickC (now : nat → Z) | SCloseC.
Definition cleanupLoop (sig : shardSignal) (s : shardedLRU) : shardedLRU * bool :=
  match sig with
  | STickC now =>
      ({| shards := imap (λ i sh, cleanupExpired (now i) sh) (shards s);
          cleanupTick := cleanupTick s; s_closed := s_closed s |}, true)
  | SCloseC => (s, false)
  end.

Definition Close (s : shardedLRU) : shardedLRU :=
  if s_closed s then s
  else {| shards := Lru.Close <$> shards s; cleanupTick := false; s_closed := true |}.

Inductive shardOp :=
| SGet (now : Z) (k : string)
| SSetWithExpiration (now now' : Z) (k : string) (v : option V) (expiration : Z)
| SSet (now : Z) (k : string) (v : option V)
| SDelete (k : string)
| SClear
| SCleanup (sig : shardSignal)
| SClose.

Definition shardStep (op : shardOp) (s : shardedLRU) : shardedLRU :=
  match op with
  | SGet now k => (Get now k s).1
  | SSetWithExpiration now now' k v d => SetWithExpiration now now' k v d s
  | SSet now k v => Set_ now k v s
  | SDelete k => (Delete k s).1
  | SClear => Clear s
  | SCleanup sig => (cleanupLoop sig s).1
  | SClose => Close s
  end.

Inductive shardReachable (opts : Options) : shardedLRU → Prop :=
| shardReachable_new s : newShardedLRU opts = Some s → shardReachable opts s
| shardReachable_step op s : shardReachable opts s → shardReachable opts (shardStep op s).

End sharded.
Arguments shardedLRU V : clear implicits.
Arguments shardOp V : clear implicits.
