(* ===== verification/ShardedFacts.v ===== *)
(** * Correctness of the sharded LRU

    The number of shards is a power of two, so the mask selects a shard for
    every key; the budgets of the shards add up to the budget of the store;
    keys of different shards do not interact; and the sharded store fulfils
    the same [Store] contract as a single LRU. *)

From S2P Require Import Prelude Store ByteView Hashes Lru LruFacts LruSpec Sharded.

(** ** nextPowerOfTwo *)

Lemma pow2_step i : 0 ≤ i → Z.shiftl (2 ^ i) 1 = 2 ^ (i + 1).
Proof. intros. rewrite Z.shiftl_mul_pow2, <-Z.pow_add_r by lia. done. Qed.

Lemma doubleLoop_pow2 fuel n i :
  0 ≤ i ≤ 62 → n ≤ 2 ^ 62 → 62 - i < Z.of_nat fuel →
  ∃ j, doubleLoop fuel n (2 ^ i) = Some (2 ^ j) ∧ i ≤ j ≤ 62 ∧ n ≤ 2 ^ j ∧ (i < j → 2 ^ (j - 1) < n).
Proof.
  revert i. induction fuel as [|fuel IH]; intros i Hi Hn Hf; [lia|]. cbn [doubleLoop].
  destruct (Z.ltb_spec (2 ^ i) n) as [Hlt|Hge]; [|exists i; split_and!; done || lia].
  assert (i ≠ 62) by (intros ->; lia).
  assert (2 ^ (i + 1) ≤ 2 ^ 62) by (apply Z.pow_le_mono_r; lia).
  assert (0 < 2 ^ (i + 1)) by (apply Z.pow_pos_nonneg; lia).
  rewrite pow2_step, int64_small by lia.
  destruct (IH (i + 1)) as (j & Hj & ? & ? & Hmin); [lia..|].
  exists j. split_and!; [done|lia|lia|done|]. intros _.
  destruct (decide (i + 1 = j)) as [<-|]; [by replace (i + 1 - 1) with i by lia|apply Hmin; lia].
Qed.

Lemma doubleLoop_zero fuel n : 0 < n → doubleLoop fuel n 0 = None.
Proof.
  intros Hn. induction fuel as [|fuel IH]; [done|]. cbn [doubleLoop].
  destruct (Z.ltb_spec 0 n); [|lia]. exact IH.
Qed.

Lemma doubleLoop_overflow fuel n i : 0 ≤ i ≤ 62 → 2 ^ 62 < n → doubleLoop fuel n (2 ^ i) = None.
Proof.
  revert i. induction fuel as [|fuel IH]; intros i Hi Hn; [done|]. cbn [doubleLoop].
  assert (2 ^ i ≤ 2 ^ 62) by (apply Z.pow_le_mono_r; lia).
  destruct (Z.ltb_spec (2 ^ i) n); [|lia].
  destruct (decide (i = 62)) as [->|Hne].
  - change (int64 (Z.shiftl (2 ^ 62) 1)) with (- 2 ^ 63).
    destruct fuel as [|fuel]; [done|]. cbn [doubleLoop].
    destruct (Z.ltb_spec (- 2 ^ 63) n); [|lia].
    change (int64 (Z.shiftl (- 2 ^ 63) 1)) with 0. apply doubleLoop_zero. lia.
  - assert (2 ^ (i + 1) ≤ 2 ^ 62) by (apply Z.pow_le_mono_r; lia).
    assert (0 < 2 ^ (i + 1)) by (apply Z.pow_pos_nonneg; lia).
    rewrite pow2_step, int64_small by lia. apply IH; lia.
Qed.

(** [nextPowerOfTwo] returns the least power of two that is at least its
    argument, for every argument up to [2^62]. *)
Theorem nextPowerOfTwo_least n :
  n ≤ 2 ^ 62 →
  ∃ j, nextPowerOfTwo n = Some (2 ^ j) ∧ 0 ≤ j ≤ 62 ∧ n ≤ 2 ^ j ∧
       ∀ i, 0 ≤ i → n ≤ 2 ^ i → 2 ^ j ≤ 2 ^ i.
Proof.
  intros Hn. unfold nextPowerOfTwo. destruct (Z.leb_spec n 1).
  - exists 0. split_and!; [done|lia|lia|simpl; lia|]. intros i Hi _. apply Z.pow_le_mono_r; lia.
  - destruct (doubleLoop_pow2 64 n 0) as (j & Hj & ? & ? & Hmin); [lia..|].
    exists j. split_and!; [exact Hj|lia|lia|done|]. intros i Hi Hni.
    apply Z.pow_le_mono_r; [lia|]. destruct (Z.le_gt_cases j i) as [|Hgt]; [done|].
    assert (2 ^ i ≤ 2 ^ (j - 1)) by (apply Z.pow_le_mono_r; lia).
    pose proof (Hmin ltac:(lia)). lia.
Qed.

Lemma nextPowerOfTwo_least_witness : ∃ j, nextPowerOfTwo 9 = Some (2 ^ j) ∧ 9 ≤ 2 ^ j.
Proof. destruct (nextPowerOfTwo_least 9) as (j & ? & _ & ? & _); [lia|]. by exists j. Defined.

(** [C25] Above [2^62] the doubled counter overflows to the minimum [int] and
    then to zero: the loop of [nextPowerOfTwo] never ends, whatever the number
    of iterations allowed. *)
Theorem nextPowerOfTwo_overflow_diverges n fuel : 2 ^ 62 < n → doubleLoop fuel n 1 = None.
Proof. intros Hn. apply (doubleLoop_overflow fuel n 0); lia. Qed.

Lemma nextPowerOfTwo_overflow_diverges_witness : doubleLoop 1000 (2 ^ 62 + 1) 1 = None.
Proof. apply (nextPowerOfTwo_overflow_diverges (2 ^ 62 + 1) 1000). lia. Defined.

(** ** The shard count and the split of the budget *)

Lemma halveLoop_pow2 fuel max i :
  0 ≤ i → i < Z.of_nat fuel → 0 < max →
  ∃ j, halveLoop fuel max (2 ^ i) = 2 ^ j ∧ 0 ≤ j ≤ i ∧ (j = 0 ∨ 1024 ≤ Z.quot max (2 ^ j)).
Proof.
  revert i. induction fuel as [|fuel IH]; intros i Hi Hf Hmax; [lia|]. cbn [halveLoop].
  destruct ((1 <? 2 ^ i) && (Z.quot max (2 ^ i) <? 1024)) eqn:Hb; zbool.
  - assert (i ≠ 0) by (intros ->; simpl in *; lia).
    assert (Z.shiftr (2 ^ i) 1 = 2 ^ (i - 1)) as ->.
    { rewrite Z.shiftr_div_pow2, <-Z.pow_sub_r by lia. done. }
    destruct (IH (i - 1)) as (j & -> & ? & ?); [lia..|]. exists j. split_and!; done || lia.
  - exists i. split_and!; [done|lia|lia|]. destruct Hb as [Hb|Hb]; zbool; [left|by right].
    destruct (decide (i = 0)); [done|].
    assert (2 ^ 1 ≤ 2 ^ i) by (apply Z.pow_le_mono_r; lia). lia.
Qed.

Lemma sumZ_split base r n :
  0 ≤ r → sumZ (λ i, if i <? r then base + 1 else base) (seqZ 0 (Z.of_nat n)) =
  Z.of_nat n * base + Z.min r (Z.of_nat n).
Proof.
  intros Hr. induction n as [|n IH]; [simpl; lia|].
  rewrite seqZ_S, sumZ_app, IH. cbn [sumZ foldr]. destruct (Z.ltb_spec (0 + Z.of_nat n) r); lia.
Qed.

Section facts.
Context {V : Type} `{Value V}.
Implicit Types (s : shardedLRU V) (k : string) (v : V) (c : lruCache V).

(** The invariant: a power-of-two number of well-formed shards. *)
Record sharded_wf s : Prop := {
  swf_pow2 : ∃ j, 0 ≤ j ∧ Z.of_nat (length (shards s)) = 2 ^ j;
  swf_shards : Forall lru_wf (shards s)
}.

Lemma shardIndex_lt n j k : 0 ≤ j → Z.of_nat n = 2 ^ j → (shardIndex n k < n)%nat.
Proof.
  intros Hj Hn. unfold shardIndex. rewrite Hn.
  change (2 ^ j - 1) with (Z.pred (2 ^ j)). rewrite <-Z.ones_equiv, Z.land_ones by done.
  pose proof (Z.mod_pos_bound (fnv32a (bytes_of k)) (2 ^ j) ltac:(lia)). lia.
Qed.

Lemma shard_some s k : sharded_wf s → ∃ c, shard s k = Some c ∧ lru_wf c.
Proof.
  intros [(j & Hj & Hlen) Hall]. unfold shard.
  destruct (lookup_lt_is_Some_2 (shards s) (shardIndex (length (shards s)) k)) as [c Hc];
    [by eapply shardIndex_lt|].
  exists c. split; [done|]. by eapply Forall_lookup_1.
Qed.

Lemma onShard_wf {A} k (dflt : A) f s :
  (∀ c, lru_wf c → lru_wf (f c).1) → sharded_wf s → sharded_wf (onShard k dflt f s).1.
Proof.
  intros Hf Hwf. destruct (shard_some s k Hwf) as (c & Hc & Hcwf). destruct Hwf as [Hp Hall].
  unfold onShard. rewrite Hc. specialize (Hf c Hcwf). destruct (f c) as [c' r]. split; simpl.
  - by rewrite length_insert.
  - by apply Forall_insert.
Qed.

Lemma new_sharded opts s :
  newShardedLRU opts = Some s →
  ∃ j, 0 ≤ j ∧ Z.of_nat (length (shards s)) = 2 ^ j ∧ Forall (λ c, lru_wf c ∧ view c = []) (shards s) ∧
    (0 < MaxBytes opts → maxBytes <$> shards s = shardBudget (MaxBytes opts) (2 ^ j) <$> seqZ 0 (2 ^ j) ∧
                         (j = 0 ∨ 1024 ≤ Z.quot (MaxBytes opts) (2 ^ j))) ∧
    (MaxBytes opts ≤ 0 → Forall (λ c, maxBytes c = MaxBytes opts) (shards s)).
Proof.
  unfold newShardedLRU. intros Hnew.
  destruct (nextPowerOfTwo _) as [count|] eqn:Hcount; [|done]. simplify_eq.
  assert (∃ i, 0 ≤ i ≤ 62 ∧ count = 2 ^ i) as (i & Hi & ->).
  { unfold nextPowerOfTwo in Hcount. case_match eqn:Hle; simplify_eq; [by exists 0|].
    match goal with Hc : doubleLoop 64 ?n 1 = _ |- _ => destruct (Z.le_gt_cases n (2 ^ 62)) as [Hn|Hn] end.
    - destruct (doubleLoop_pow2 64 _ 0 ltac:(lia) Hn ltac:(lia)) as (j & Hj & ? & _).
      change (2 ^ 0) with 1 in Hj. rewrite Hj in Hcount. simplify_eq. by exists j.
    - pose proof (doubleLoop_overflow 64 _ 0 ltac:(lia) Hn) as Hov.
      change (2 ^ 0) with 1 in Hov. congruence. }
  destruct (Z.ltb_spec 0 (MaxBytes opts)) as [Hpos|Hneg].
  - destruct (halveLoop_pow2 64 (MaxBytes opts) i) as (j & -> & ? & Hb); [lia..|].
    exists j. simpl. rewrite length_fmap, length_seqZ. split_and!; [lia| | | |lia].
    + assert (0 < 2 ^ j) by (apply Z.pow_pos_nonneg; lia). lia.
    + apply Forall_fmap, Forall_true. intros. split; [apply newLRUCache_wf|done].
    + intros _. split; [|done]. by rewrite <-list_fmap_compose.
  - exists i. simpl. rewrite length_fmap, length_seqZ. split_and!; [lia| | |lia|].
    + assert (0 < 2 ^ i) by (apply Z.pow_pos_nonneg; lia). lia.
    + apply Forall_fmap, Forall_true. intros. split; [apply newLRUCache_wf|done].
    + intros _. apply Forall_fmap, Forall_true. done.
Qed.

Lemma shardStep_wf op s : sharded_wf s → sharded_wf (shardStep op s).
Proof.
  intros Hwf. destruct op as [| | | | |[now|]|]; simpl.
  - apply onShard_wf; [|done]. intros. by apply lru_Get_wf.
  - apply onShard_wf; [|done]. intros. by apply lru_SetExp_wf.
  - apply onShard_wf; [|done]. intros. by apply lru_SetExp_wf.
  - apply onShard_wf; [|done]. intros. by apply lru_Delete_wf.
  - destruct Hwf as [Hp Hall]. split; simpl; [by rewrite length_fmap|].
    apply Forall_fmap. eapply Forall_impl; [done|]. intros. by apply lru_Clear_wf.
  - destruct Hwf as [Hp Hall]. split; simpl; [by rewrite length_imap|].
    apply Forall_lookup. intros i c. rewrite list_lookup_imap.
    intros (c0 & Hc0 & ->)%fmap_Some. apply evictLocked_effect. by eapply Forall_lookup_1.
  - done.
  - unfold Close. case_match; [done|]. destruct Hwf as [Hp Hall]. split; simpl; [by rewrite length_fmap|].
    apply Forall_fmap. eapply Forall_impl; [done|]. intros. by apply lru_Close_wf.
Qed.

Lemma shardReachable_wf opts s : shardReachable opts s → sharded_wf s.
Proof.
  induction 1 as [s Hnew|op s _ IH]; [|by apply shardStep_wf].
  destruct (new_sharded opts s Hnew) as (j & ? & ? & Hall & _). split; [eauto|].
  eapply Forall_impl; [done|]. by intros c [? _].
Qed.

(** ** Locality of the operations *)

Lemma shard_onShard {A} k k' (dflt : A) f s c :
  shard s k = Some c →
  shard (onShard k dflt f s).1 k' =
    if decide (shardIndex (length (shards s)) k' = shardIndex (length (shards s)) k)
    then Some (f c).1 else shard s k'.
Proof.
  intros Hc. unfold onShard. rewrite Hc. destruct (f c) as [c' r] eqn:Hf. unfold shard in *. simpl.
  rewrite length_insert. case_decide as Hi.
  - rewrite Hi, list_lookup_insert_eq; [by rewrite ?Hf|by apply lookup_lt_Some in Hc].
  - by rewrite list_lookup_insert_ne.
Qed.

Lemma onShard_result {A} k (dflt : A) f s c : shard s k = Some c → (onShard k dflt f s).2 = (f c).2.
Proof. intros Hc. unfold onShard. rewrite Hc. by destruct (f c). Qed.

(** The value of a key: the value it has in its shard. *)
Definition sharded_lookup (t : Z) (k : string) s : option V := shard s k ≫= lru_lookup t k.

Definition sharded_room s k v : Prop := ∀ c, shard s k = Some c → lru_room c k v.

(** A law of one LRU about the keys [k] (operated on) and [k'] (observed) holds
    of the sharded store, whichever shards the keys are in. *)
Lemma onShard_lookup {A} (P : option V → option V → Prop) t k k' (dflt : A) f s :
  sharded_wf s →
  (∀ c, shard s k = Some c → lru_wf c → P (lru_lookup t k' (f c).1) (lru_lookup t k' c)) →
  (k ≠ k' → ∀ o, P o o) →
  P (sharded_lookup t k' (onShard k dflt f s).1) (sharded_lookup t k' s).
Proof.
  intros Hwf Hlaw Hrefl. destruct (shard_some s k Hwf) as (c & Hc & Hcwf). unfold sharded_lookup.
  rewrite (shard_onShard k k' dflt f s c Hc). case_decide as Hi.
  - assert (shard s k' = Some c) as -> by (unfold shard in *; by rewrite Hi). by apply Hlaw.
  - apply Hrefl. by intros ->.
Qed.

Lemma onShard_room {A} k k' v (dflt : A) f s :
  sharded_wf s → (∀ c, lru_wf c → lru_room (f c).1 k' v ↔ lru_room c k' v) →
  sharded_room (onShard k dflt f s).1 k' v ↔ sharded_room s k' v.
Proof.
  intros Hwf Hlaw. destruct (shard_some s k Hwf) as (c & Hc & Hcwf). unfold sharded_room.
  rewrite (shard_onShard k k' dflt f s c Hc). case_decide as Hi; [|done].
  assert (shard s k' = Some c) as -> by (unfold shard in *; by rewrite Hi).
  specialize (Hlaw c Hcwf). naive_solver.
Qed.

Lemma shard_mapShards f s k : shard (mapShards f s) k = f <$> shard s k.
Proof. unfold shard, mapShards. simpl. by rewrite length_fmap, list_lookup_fmap. Qed.

Lemma shard_Close s k : shard (Close s) k = if s_closed s then shard s k else Lru.Close <$> shard s k.
Proof. unfold Close. case_match; [done|]. unfold shard. simpl. by rewrite length_fmap, list_lookup_fmap. Qed.

(** ** [shardedLRU] implements the [Store] contract *)

#[global] Instance sharded_store : Store (shardedLRU V) V := {|
  st_Get := Get; st_Set := Set_; st_SetWithExpiration := SetWithExpiration;
  st_Delete := Delete; st_Clear := Clear; st_Len := Len_; st_Close := Close
|}.

#[global] Instance sharded_store_model : StoreModel (shardedLRU V) V :=
  {| st_wf := sharded_wf; st_lookup := sharded_lookup; st_room := sharded_room |}.

#[global] Instance sharded_store_laws : StoreLaws (shardedLRU V) V.
Proof.
  split; unfold st_Get, st_Set, st_SetWithExpiration, st_Delete, st_Clear, st_Close, sharded_store,
    st_wf, st_lookup, st_room, sharded_store_model, Get, Set_, SetWithExpiration, Delete.
  - intros now k s. apply (shardStep_wf (SGet now k)).
  - intros now k v s. apply (shardStep_wf (SSet now k v)).
  - intros now now' k v d s. apply (shardStep_wf (SSetWithExpiration now now' k v d)).
  - intros k s. apply (shardStep_wf (SDelete k)).
  - apply (shardStep_wf SClear).
  - apply (shardStep_wf SClose).
  - intros t t' k v s Hwf Hle. unfold sharded_lookup.
    destruct (shard s k); [|done]. by apply lru_lookup_mono.
  - intros now k s Hwf. destruct (shard_some s k Hwf) as (c & Hc & _). unfold sharded_lookup.
    rewrite (onShard_result _ _ _ _ c Hc), Hc. apply lru_Get_result.
  - intros now t k k' s Hwf Hle. apply (onShard_lookup (=)); [done| |done].
    intros c _ Hcwf. by apply lru_Get_frame.
  - intros now t k v s Hwf Hroom Hle.
    apply (onShard_lookup (λ o _, o = Some v)); [done| |congruence].
    intros c Hc Hcwf. apply lru_Set_lookup_same; [done|by apply Hroom|done|lia].
  - intros now t k v w s Hwf. apply (onShard_lookup (λ o _, o = Some w → w = v)); [done| |congruence].
    intros c Hc Hcwf. exact (st_Set_only now t k v w c Hcwf).
  - intros now t k k' v s Hwf Hne Hle.
    apply (onShard_lookup (λ o o', o = o' ∨ o = None)); [done| |auto].
    intros c _ Hcwf. by apply lru_Set_lookup_other.
  - intros now now' t k v d s Hwf Hroom Hd Hle Hlt.
    apply (onShard_lookup (λ o _, o = Some v)); [done| |congruence].
    intros c Hc Hcwf. apply lru_Set_lookup_same; [done|by apply Hroom|done|done].
  - intros now now' t k v d s Hwf Hd Hle.
    apply (onShard_lookup (λ o _, o = None)); [done| |congruence].
    intros c Hc Hcwf. exact (st_SetExp_expired now now' t k v d c Hcwf Hd Hle).
  - intros now now' t k v w d s Hwf.
    apply (onShard_lookup (λ o _, o = Some w → w = v)); [done| |congruence].
    intros c Hc Hcwf. exact (st_SetExp_only now now' t k v w d c Hcwf).
  - intros now now' t k k' v d s Hwf Hne Hle.
    apply (onShard_lookup (λ o o', o = o' ∨ o = None)); [done| |auto].
    intros c _ Hcwf. by apply lru_Set_lookup_other.
  - intros t k s Hwf. apply (onShard_lookup (λ o _, o = None)); [done| |congruence].
    intros c _ Hcwf. exact (st_Delete_same t k c Hcwf).
  - intros t k k' s Hwf Hne. apply (onShard_lookup (=)); [done| |done].
    intros c _ Hcwf. exact (st_Delete_other t k k' c Hcwf Hne).
  - intros t k s Hwf Hl. destruct (shard_some s k Hwf) as (c & Hc & Hcwf). unfold sharded_lookup in Hl.
    rewrite Hc in Hl. rewrite (onShard_result _ _ _ _ c Hc). by eapply lru_Delete_result.
  - intros t k s Hwf. unfold sharded_lookup, Clear. rewrite shard_mapShards.
    destruct (shard_some s k Hwf) as (c & -> & Hcwf). exact (st_Clear_lookup t k c Hcwf).
  - intros t k s Hwf. unfold sharded_lookup. rewrite shard_Close. case_match; [done|].
    destruct (shard s k); [|done]. apply lru_Close_lookup.
  - intros now k k' v s Hwf. apply onShard_room; [done|]. intros c Hc. exact (st_Get_room now k k' v c Hc).
  - intros now k w k' v s Hwf. apply onShard_room; [done|]. intros c Hc. exact (st_Set_room now k w k' v c Hc).
  - intros now now' k w d k' v s Hwf. apply onShard_room; [done|].
    intros c Hc. exact (st_SetExp_room now now' k w d k' v c Hc).
  - intros k k' v s Hwf. apply onShard_room; [done|]. intros c Hc. exact (st_Delete_room k k' v c Hc).
  - intros k' v s Hwf. unfold sharded_room, Clear. rewrite shard_mapShards.
    destruct (shard_some s k' Hwf) as (c & -> & Hcwf). split; intros Hr c'; intros [= <-]; by apply (Hr _ eq_refl).
Qed.

(** ** Properties *)

(** The mask [hash & (len(shards)-1)] selects an existing shard for every
    key in every reachable state, so indexing never panics, and that shard is
    a well-formed LRU. *)
Theorem shard_in_range opts s k : shardReachable opts s → ∃ c, shard s k = Some c ∧ lru_wf c.
Proof. intros Hs. by apply shard_some, (shardReachable_wf opts). Qed.

(** The split of the budget at construction. *)
Lemma new_sharded_budget opts s :
  newShardedLRU opts = Some s → 0 < MaxBytes opts →
  sumZ maxBytes (shards s) = MaxBytes opts ∧
  (length (shards s) = 1%nat ∨ Forall (λ c, 1024 ≤ maxBytes c) (shards s)).
Proof.
  intros Hnew Hmax. destruct (new_sharded opts s Hnew) as (j & Hj & Hlen & _ & Hb & _).
  destruct (Hb Hmax) as [Hbud Hmin]. assert (0 < 2 ^ j) by (apply Z.pow_pos_nonneg; lia).
  assert (∀ {A} (f : A → Z) l, sumZ id (f <$> l) = sumZ f l) as Hsum.
  { intros A f l. induction l as [|x l IH]; [done|].
    change (f x + sumZ id (f <$> l) = f x + sumZ f l). by rewrite IH. }
  split.
  - rewrite <-Hsum, Hbud, Hsum. unfold shardBudget.
    pose proof (sumZ_split (Z.quot (MaxBytes opts) (2 ^ j)) (Z.rem (MaxBytes opts) (2 ^ j)) (Z.to_nat (2 ^ j))) as Hs.
    rewrite Z2Nat.id in Hs by lia. pose proof (Z.rem_bound_pos (MaxBytes opts) (2 ^ j)).
    rewrite Hs by lia. pose proof (Z.quot_rem' (MaxBytes opts) (2 ^ j)). lia.
  - destruct Hmin as [->|Hmin]; [left; simpl in Hlen; lia|right].
    assert (Forall (λ z, 1024 ≤ z) (maxBytes <$> shards s)) as Hall.
    { rewrite Hbud. apply Forall_fmap, Forall_true. intros i. unfold shardBudget. simpl. case_match; lia. }
    by rewrite Forall_fmap in Hall.
Qed.

(** The budgets of the shards add up to [opts.MaxBytes], and unless there
    is a single shard every shard gets at least 1 KiB. *)
Theorem sharded_budget_split opts s :
  newShardedLRU opts = Some s → 0 < MaxBytes opts →
  sumZ maxBytes (shards s) = MaxBytes opts ∧
  (length (shards s) = 1%nat ∨ Forall (λ c, 1024 ≤ maxBytes c) (shards s)).
Proof. apply new_sharded_budget. Qed.

(** Keys in different shards are independent: no operation on one key
    touches the shard of the other. *)
Theorem sharded_isolation s k k' now now' (v : option V) d :
  shardIndex (length (shards s)) k ≠ shardIndex (length (shards s)) k' →
  shard (Get now k s).1 k' = shard s k' ∧
  shard (SetWithExpiration now now' k v d s) k' = shard s k' ∧
  shard (Delete k s).1 k' = shard s k'.
Proof.
  intros Hne. unfold Get, SetWithExpiration, Delete.
  destruct (shard s k) as [c|] eqn:Hc.
  - rewrite !(shard_onShard k k' _ _ s c Hc), !decide_False by auto. done.
  - unfold onShard. by rewrite Hc.
Qed.

(** ** The byte budget of the whole store *)

Definition small_sop (op : shardOp V) : Prop :=
  match op with
  | SSetWithExpiration _ _ k (Some v) _ | SSet _ k (Some v) => small_entry (mkEntry k v)
  | _ => True
  end.

(** What the argument maintains of each shard. *)
Definition shard_ok (c : lruCache V) : Prop :=
  lru_wf c ∧ 0 < maxBytes c < 2 ^ 62 ∧ budgeted (maxBytes c) (view c).

Lemma shard_ok_step op c : small_op op → shard_ok c → shard_ok (lruStep op c) ∧ maxBytes (lruStep op c) = maxBytes c.
Proof.
  intros Hop (Hwf & Hmax & Hb). pose proof (lruStep_config op c Hwf) as [Hm _].
  split; [|done]. split_and!; [by apply lruStep_wf|lia|lia|by apply lruStep_budgeted].
Qed.

(** A step of the store is a step of each shard or leaves it alone. *)
Lemma shardStep_shards op s :
  small_sop op →
  Forall2 (λ c c', c' = c ∨ ∃ lop, small_op lop ∧ c' = lruStep lop c) (shards s) (shards (shardStep op s)).
Proof.
  intros Hop.
  assert (∀ {A} k (dflt : A) f lop, small_op lop → (∀ c, (f c).1 = lruStep lop c) →
    Forall2 (λ c c', c' = c ∨ ∃ lop, small_op lop ∧ c' = lruStep lop c)
      (shards s) (shards (onShard k dflt f s).1)) as Hon.
  { intros A k dflt f lop Hlop Hf. unfold onShard. destruct (shard s k) as [c|] eqn:Hc; [|apply Forall_Forall2_diag, Forall_true; by left].
    specialize (Hf c). destruct (f c) as [c' r]. simpl in *. subst c'.
    apply Forall2_same_length_lookup. split; [by rewrite length_insert|]. intros i x y Hx Hy.
    destruct (decide (i = shardIndex (length (shards s)) k)) as [->|Hne].
    - rewrite list_lookup_insert_eq in Hy by (by apply lookup_lt_Some in Hc).
      unfold shard in Hc. simplify_eq. right. eauto.
    - rewrite list_lookup_insert_ne in Hy by done. simplify_eq. by left. }
  destruct op as [now k|now now' k v d|now k v|k| |[now|]|]; simpl.
  - apply (Hon _ _ _ _ (OpGet now k)); [done|]. intros c. unfold lruStep. simpl. by destruct (Lru.Get now k c).
  - by apply (Hon _ _ _ _ (OpSetWithExpiration now now' k v d)).
  - by apply (Hon _ _ _ _ (OpSetWithExpiration now now k v 0)).
  - apply (Hon _ _ _ _ (OpDelete k)); [done|]. intros c. unfold lruStep. simpl. by destruct (Lru.Delete k c).
  - apply Forall2_fmap_r, Forall_Forall2_diag, Forall_true. right. by exists OpClear.
  - apply Forall2_same_length_lookup. split; [by rewrite length_imap|]. intros i x y Hx.
    rewrite list_lookup_imap, Hx. intros [= <-]. right. by exists (OpCleanup (TickC (now i))).
  - apply Forall_Forall2_diag, Forall_true. by left.
  - unfold Close. case_match; [apply Forall_Forall2_diag, Forall_true; by left|].
    apply Forall2_fmap_r, Forall_Forall2_diag, Forall_true. right. by exists OpClose.
Qed.

Lemma shardStep_ok op s :
  small_sop op → Forall shard_ok (shards s) →
  Forall shard_ok (shards (shardStep op s)) ∧
  sumZ maxBytes (shards (shardStep op s)) = sumZ maxBytes (shards s).
Proof.
  intros Hop Hall. pose proof (shardStep_shards op s Hop) as H2. revert Hall.
  induction H2 as [|c c' l l' Hc _ IH]; [by split|]. intros [Hok Hall]%Forall_cons.
  destruct (IH Hall) as [IH1 IH2]. simpl. rewrite IH2.
  destruct Hc as [->|(lop & Hlop & ->)]; [split; [by constructor|done]|].
  destruct (shard_ok_step lop c Hlop Hok) as [? ->]. split; [by constructor|done].
Qed.

Lemma sumZ_member (f : lruCache V → Z) l c : (∀ x, x ∈ l → 0 ≤ f x) → c ∈ l → f c ≤ sumZ f l.
Proof.
  intros Hpos. induction 1 as [c l|c x l _ IH]; simpl.
  - assert (0 ≤ sumZ f l) by (apply sumZ_nonneg; intros; apply Hpos; by right). lia.
  - pose proof (Hpos x (list_elem_of_here _ _)).
    assert (f c ≤ sumZ f l) by (apply IH; intros; apply Hpos; by right). lia.
Qed.

Lemma new_sharded_ok opts s :
  newShardedLRU opts = Some s → 0 < MaxBytes opts < 2 ^ 62 → Forall shard_ok (shards s).
Proof.
  intros Hnew Hmax. destruct (new_sharded_budget opts s Hnew) as [Hsum Hmin]; [lia|].
  destruct (new_sharded opts s Hnew) as (j & Hj & Hlen & Hall & _).
  assert (∀ c, c ∈ shards s → 0 < maxBytes c) as Hpos.
  { destruct Hmin as [H1|H1024]; [|intros c Hc; rewrite Forall_forall in H1024; specialize (H1024 c Hc); lia].
    destruct (shards s) as [|c [|? ?]]; simplify_eq/=. intros c' ->%list_elem_of_singleton. lia. }
  rewrite Forall_forall in Hall |- *. intros c Hc. destruct (Hall c Hc) as [Hwf Hv].
  pose proof (Hpos c Hc). pose proof (sumZ_member maxBytes (shards s) c) as Hle.
  split_and!; [done|done| |rewrite Hv; split_and!; [constructor|set_solver|unfold total; simpl; lia]].
  eapply Z.le_lt_trans; [apply Hle; [|done]|lia]. intros x Hx. specialize (Hpos x Hx). lia.
Qed.

Lemma shardRun_ok ops s :
  Forall small_sop ops → Forall shard_ok (shards s) →
  let s' := foldl (flip shardStep) s ops in
  Forall shard_ok (shards s') ∧ sumZ maxBytes (shards s') = sumZ maxBytes (shards s).
Proof.
  intros Hops. revert s. induction Hops as [|op ops Hop _ IH]; intros s Hok; simpl; [done|].
  destruct (shardStep_ok op s Hop Hok) as [Hok' <-]. by apply IH.
Qed.

Lemma sumZ_le (f g : lruCache V → Z) l : Forall (λ c, 0 ≤ f c ≤ g c) l → 0 ≤ sumZ f l ≤ sumZ g l.
Proof. induction 1; simpl; lia. Qed.

(** [C24] The byte budget of the sharded store: after any sequence of operations
    that write entries of fewer than [2^62] bytes, every shard counts exactly
    the bytes it stores and together they stay within [opts.MaxBytes]. *)
Theorem sharded_byte_budget opts s ops :
  newShardedLRU opts = Some s → 0 < MaxBytes opts < 2 ^ 62 → Forall small_sop ops →
  let s' := foldl (flip shardStep) s ops in
  Forall (λ c, usedBytes c = total (view c)) (shards s') ∧
  0 ≤ sumZ usedBytes (shards s') ≤ MaxBytes opts.
Proof.
  intros Hnew Hmax Hops s'.
  destruct (new_sharded_budget opts s Hnew) as [Hsum _]; [lia|].
  destruct (shardRun_ok ops s Hops) as [Hok Heq]; [by eapply new_sharded_ok|]. fold s' in Hok, Heq.
  rewrite <-Hsum, <-Heq. split; [|apply sumZ_le];
    (eapply Forall_impl; [exact Hok|]; intros c (Hwf & Hm & Hb); by apply budgeted_used).
Qed.
End facts.

(** ** Witnesses *)

Definition ws_opts : Options := {| MaxBytes := 5000; ShardCount := 6; CleanupInterval := 0; OnEvicted := false |}.

Example ws_shards : (length ∘ shards <$> (newShardedLRU ws_opts : option (shardedLRU ByteView))) = Some 4%nat.
Proof. by vm_compute. Qed.

Definition ws_new : shardedLRU ByteView :=
  default (mkSharded [] false false) (newShardedLRU ws_opts).

Lemma ws_new_eq : newShardedLRU ws_opts = Some ws_new.
Proof. by vm_compute. Qed.

Lemma shard_in_range_witness : ∃ c, shard ws_new "k" = Some c ∧ lru_wf c.
Proof. apply (shard_in_range ws_opts ws_new "k"), shardReachable_new, ws_new_eq. Defined.

Lemma sharded_budget_split_witness : sumZ maxBytes (shards ws_new) = 5000.
Proof. apply (sharded_budget_split ws_opts ws_new ws_new_eq). by vm_compute. Defined.

Lemma sharded_isolation_witness :
  shard (Get 0 "a" ws_new).1 "b" = shard ws_new "b".
Proof.
  apply (sharded_isolation ws_new "a" "b" 0 0 None 0). by vm_compute.
Defined.

Lemma sharded_byte_budget_witness :
  0 ≤ sumZ usedBytes (shards (foldl (flip shardStep) ws_new [SSet 0 "a" (Some (mkByteView [1; 2]))])) ≤ 5000.
Proof.
  apply (sharded_byte_budget ws_opts ws_new [SSet 0 "a" (Some (mkByteView [1; 2]))] ws_new_eq);
    [vm_compute; by split|]. repeat constructor; vm_compute; done.
Defined.
