(* ===== verification/Cache.v ===== *)
(** * NewStore and the node-local cache (store/store.go, cache.go)

    [NewStore] picks an implementation by its name; the interface value it
    returns is a sum of the two, dispatching every method, and fulfils the
    [Store] contract because both do.  [Cache] wraps a store with hit and miss
    counters and a closed flag; a [*Cache] may be nil, and every method but
    [Stats] accepts a nil receiver.  [Cache] is verified against the [Store]
    contract, for any implementation of it. *)

From Stdlib Require Import QArith_base.
From S2P Require Import Prelude Store ByteView Hashes Lru LruFacts LruSpec Sharded ShardedFacts.
#[local] Open Scope Z_scope.

(** ** NewStore *)

Section newstore.
Context {V : Type} `{Value V}.

(** The dynamic type of a [Store] interface value. *)
Inductive storeImpl := SLru (c : lruCache V) | SSharded (s : shardedLRU V).

Definition NewStore (cacheType : string) (opts : Options) : option storeImpl :=
  if decide (cacheType = LRU) then Some (SLru (newLRUCache opts))
  else if decide (cacheType = ShardedLRU) then SSharded <$> newShardedLRU opts
  else SSharded <$> newShardedLRU opts.

#[global] Instance storeImpl_store : Store storeImpl V := {|
  st_Get now k s :=
    match s with
    | SLru c => let '(c', v) := st_Get now k c in (SLru c', v)
    | SSharded s => let '(s', v) := st_Get now k s in (SSharded s', v)
    end;
  st_Set now k v s :=
    match s with SLru c => SLru (st_Set now k v c) | SSharded s => SSharded (st_Set now k v s) end;
  st_SetWithExpiration now now' k v d s :=
    match s with
    | SLru c => SLru (st_SetWithExpiration now now' k v d c)
    | SSharded s => SSharded (st_SetWithExpiration now now' k v d s)
    end;
  st_Delete k s :=
    match s with
    | SLru c => let '(c', r) := st_Delete k c in (SLru c', r)
    | SSharded s => let '(s', r) := st_Delete k s in (SSharded s', r)
    end;
  st_Clear s := match s with SLru c => SLru (st_Clear c) | SSharded s => SSharded (st_Clear s) end;
  st_Len s := match s with SLru c => st_Len c | SSharded s => st_Len s end;
  st_Close s := match s with SLru c => SLru (st_Close c) | SSharded s => SSharded (st_Close s) end
|}.

#[global] Instance storeImpl_model : StoreModel storeImpl V := {|
  st_wf s := match s with SLru c => st_wf (V := V) c | SSharded s => st_wf (V := V) s end;
  st_lookup t k s := match s with SLru c => st_lookup t k c | SSharded s => st_lookup t k s end;
  st_room s k v := match s with SLru c => st_room c k v | SSharded s => st_room s k v end
|}.
End newstore.
Arguments storeImpl V : clear implicits.

(** ** Cache *)

Record Cache (S : Type) := mkCache {
  store : S;
  hits : Z;
  misses : Z;
  c_closed : bool
}.
Arguments mkCache {S}.
Arguments store {S}.
Arguments hits {S}.
Arguments misses {S}.
Arguments c_closed {S}.

Record CacheOptions := mkCacheOptions {
  co_CacheType : string;
  co_MaxBytes : Z;
  co_ShardCount : Z;
  co_CleanupTime : Z;
  co_OnEvicted : bool
}.

Definition DefaultCacheOptions : CacheOptions := {|
  co_CacheType := ShardedLRU; co_MaxBytes := Z.shiftl 8 20; co_ShardCount := 16;
  co_CleanupTime := Minute; co_OnEvicted := false
|}.

(** [None]: the construction of the store does not return. *)
Definition NewCache (opts : CacheOptions) : option (Cache (storeImpl ByteView)) :=
  let cacheType := if decide (co_CacheType opts = "") then ShardedLRU else co_CacheType opts in
  let shardCount := if co_ShardCount opts <=? 0 then 16 else co_ShardCount opts in
  let cleanup := if co_CleanupTime opts <=? 0 then Minute else co_CleanupTime opts in
  s ← NewStore cacheType {| MaxBytes := co_MaxBytes opts; ShardCount := shardCount;
                            CleanupInterval := cleanup; OnEvicted := co_OnEvicted opts |};
  Some (mkCache s 0 0 false).

Section cache.
Context {S : Type} `{Store S ByteView}.
Implicit Types c : option (Cache S).

Definition with_store (s : S) (c : Cache S) : Cache S := mkCache s (hits c) (misses c) (c_closed c).

Definition Add (now : Z) (k : string) (v : ByteView) (c : option (Cache S)) : option (Cache S) :=
  match c with
  | None => None
  | Some c => if c_closed c then Some c else Some (with_store (st_Set now k (Some v) (store c)) c)
  end.

(** [t] is the reading of [time.Until], [now] and [now'] those of the store. *)
Definition AddWithExpiration (t now now' : Z) (k : string) (v : ByteView) (expirationTime : Z)
    (c : option (Cache S)) : option (Cache S) :=
  match c with
  | None => None
  | Some c =>
      if c_closed c then Some c
      else let ttl := time_Sub expirationTime t in
           if ttl <=? 0 then Some c
           else Some (with_store (st_SetWithExpiration now now' k (Some v) ttl (store c)) c)
  end.

(** The stored values are byte views, so the type assertion succeeds. *)
Definition Get (now : Z) (k : string) (c : option (Cache S)) : option (Cache S) * option ByteView :=
  match c with
  | None => (None, None)
  | Some c =>
      if c_closed c then (Some c, None)
      else match st_Get now k (store c) with
           | (s, None) => (Some (mkCache s (hits c) (int64 (misses c + 1)) (c_closed c)), None)
           | (s, Some v) => (Some (mkCache s (int64 (hits c + 1)) (misses c) (c_closed c)), Some v)
           end
  end.

Definition Delete (k : string) (c : option (Cache S)) : option (Cache S) * bool :=
  match c with
  | None => (None, false)
  | Some c =>
      if c_closed c then (Some c, false)
      else let '(s, b) := st_Delete k (store c) in (Some (with_store s c), b)
  end.

Definition Clear (c : option (Cache S)) : option (Cache S) :=
  match c with
  | None => None
  | Some c => if c_closed c then Some c else Some (mkCache (st_Clear (store c)) 0 0 (c_closed c))
  end.

Definition Len_ (c : option (Cache S)) : Z :=
  match c with None => 0 | Some c => if c_closed c then 0 else st_Len (store c) end.

Definition Close (c : option (Cache S)) : option (Cache S) :=
  match c with
  | None => None
  | Some c => if c_closed c then Some c
              else Some (mkCache (st_Close (store c)) (hits c) (misses c) true)
  end.

(** [Stats], with the hit rate as an exact fraction. *)
Record CacheStats := mkCacheStats {
  cs_closed : bool; cs_hits : Z; cs_misses : Z; cs_size : Z; cs_hit_rate : Q
}.

Definition Stats (c : Cache S) : CacheStats :=
  let total := int64 (hits c + misses c) in
  {| cs_closed := c_closed c; cs_hits := hits c; cs_misses := misses c; cs_size := Len_ (Some c);
     cs_hit_rate := if 0 <? total then Qmake (hits c) (Z.to_pos total) else 0%Q |}.
End cache.

(** ** The [Store] contract of the interface value *)

Section newstore_facts.
Context {V : Type} `{Value V}.

(** Apply a law of the implementation at hand. *)
#[local] Tactic Notation "law" uconstr(l) := solve [eapply l; eassumption].

#[global] Instance storeImpl_laws : StoreLaws (storeImpl V) V.
Proof.
  split; intros;
    repeat match goal with s : storeImpl _ |- _ => destruct s end;
    cbn [st_Get st_Set st_SetWithExpiration st_Delete st_Clear st_Close st_wf st_lookup st_room
      storeImpl_store storeImpl_model] in *;
    repeat match goal with |- context [let '(_, _) := ?x in _] => rewrite (surjective_pairing x) end;
    cbn [fst snd];
    first [law st_Get_wf | law st_Set_wf | law st_SetExp_wf | law st_Delete_wf |
           law st_Clear_wf | law st_Close_wf | law st_lookup_mono | law st_Get_result |
           law st_Get_frame | law st_Set_same | law st_Set_only | law st_Set_other | law st_SetExp_same |
           law st_SetExp_expired | law st_SetExp_only | law st_SetExp_other |
           law st_Delete_same | law st_Delete_other | law st_Delete_result |
           law st_Clear_lookup | law st_Close_lookup | law st_Get_room | law st_Set_room |
           law st_SetExp_room | law st_Delete_room | law st_Clear_room |
           match goal with Hl : _ = Some _ |- _ => first [eapply st_SetExp_only in Hl; eassumption | eapply st_Set_only in Hl; eassumption] end].
Qed.
End newstore_facts.
