(* ===== verification/CacheFacts.v ===== *)
(** * Correctness of the node-local cache

    Proved for any store that fulfils the [Store] contract. *)

From Stdlib Require Import QArith_base.
From S2P Require Import Prelude Store ByteView Hashes Lru LruFacts LruSpec Sharded ShardedFacts Cache.
#[local] Open Scope Z_scope.

Section facts.
Context {S : Type} `{StoreLaws S ByteView}.
Implicit Types (c : Cache S) (k : string) (v : ByteView).

(** The value a key has in a cache at an instant; a nil or closed cache has none. *)
Definition cache_lookup (t : Z) (k : string) (c : option (Cache S)) : option ByteView :=
  c ← c; if c_closed c then None else st_lookup t k (store c).

Definition cache_wf (c : option (Cache S)) : Prop :=
  match c with None => True | Some c => st_wf (V := ByteView) (store c) end.

(** The cache accepts writes and the entry fits. *)
Definition cache_room (c : option (Cache S)) (k : string) (v : ByteView) : Prop :=
  match c with None => False | Some c => c_closed c = false ∧ st_room (store c) k v end.

(** The public operations as one step, with the clock readings they take. *)
Inductive cacheOp :=
| CAdd (now : Z) (k : string) (v : ByteView)
| CAddWithExpiration (t now now' : Z) (k : string) (v : ByteView) (expirationTime : Z)
| CGet (now : Z) (k : string)
| CDelete (k : string)
| CClear
| CClose.

Definition cacheStep (op : cacheOp) (c : option (Cache S)) : option (Cache S) :=
  match op with
  | CAdd now k v => Add now k v c
  | CAddWithExpiration t now now' k v d => AddWithExpiration t now now' k v d c
  | CGet now k => (Get now k c).1
  | CDelete k => (Delete k c).1
  | CClear => Clear c
  | CClose => Close c
  end.

Lemma cacheStep_wf op (c : option (Cache S)) : cache_wf c → cache_wf (cacheStep op c).
Proof.
  destruct c as [c|]; [|by destruct op]. simpl. intros Hwf.
  destruct op as [now k v|t now now' k v d|now k|k| |]; simpl; (destruct (c_closed c) eqn:Hc; simpl; [done|]).
  - by apply st_Set_wf.
  - case_match; [done|]. by apply st_SetExp_wf.
  - pose proof (st_Get_wf now k (store c) Hwf). destruct (st_Get now k (store c)) as [s [v|]]; done.
  - pose proof (st_Delete_wf k (store c) Hwf). by destruct (st_Delete k (store c)).
  - by apply st_Clear_wf.
  - by apply st_Close_wf.
Qed.

(** Only [Close] changes whether a cache is closed. *)
Lemma cacheStep_closed op (c : option (Cache S)) : op ≠ CClose → c_closed <$> cacheStep op c = c_closed <$> c.
Proof.
  destruct c as [c|]; [|by destruct op]. simpl. intros Hop.
  destruct op as [now k v|t now now' k v d|now k|k| |]; simpl; (destruct (c_closed c) eqn:Hc; simpl; rewrite ?Hc; [done|]); try done.
  - case_match; simpl; by rewrite ?Hc.
  - destruct (st_Get now k (store c)) as [s [v|]]; simpl; by rewrite ?Hc.
  - destruct (st_Delete k (store c)). simpl. by rewrite ?Hc.
Qed.

Lemma cache_Get_result now k (c : option (Cache S)) :
  cache_wf c → (Get now k c).2 = cache_lookup now k c.
Proof.
  destruct c as [c|]; [|done]. simpl. intros Hwf. destruct (c_closed c); [done|].
  rewrite <-st_Get_result by done. by destruct (st_Get now k (store c)) as [s [v|]].
Qed.

Lemma cache_Get_frame now t k k' (c : option (Cache S)) :
  cache_wf c → now ≤ t → cache_lookup t k' (Get now k c).1 = cache_lookup t k' c.
Proof.
  destruct c as [c|]; [|done]. simpl. intros Hwf Hle. destruct (c_closed c) eqn:Hc; simpl; [by rewrite ?Hc|].
  pose proof (st_Get_frame now t k k' (store c) Hwf Hle) as Hf.
  destruct (st_Get now k (store c)) as [s [v|]]; simpl in *; rewrite ?Hc; done.
Qed.

Lemma cache_Delete_lookup t k k' (c : option (Cache S)) :
  cache_wf c →
  cache_lookup t k' (Delete k c).1 = if decide (k' = k) then None else cache_lookup t k' c.
Proof.
  destruct c as [c|]; simpl; [|by case_decide]. intros Hwf.
  destruct (c_closed c) eqn:Hc; simpl; [rewrite ?Hc; by case_decide|].
  pose proof (st_Delete_same t k (store c) Hwf) as Hs1.
  pose proof (st_Delete_other t k k' (store c) Hwf) as Hs2.
  destruct (st_Delete k (store c)) as [s b]; simpl in *; rewrite ?Hc.
  case_decide; subst; auto.
Qed.

Lemma cache_Add_same now t k v (c : option (Cache S)) :
  cache_wf c → cache_room c k v → now ≤ t → cache_lookup t k (Add now k v c) = Some v.
Proof.
  destruct c as [c|]; [|done]. simpl. intros Hwf [Hc Hr] Hle. rewrite ?Hc. simpl. rewrite ?Hc.
  by apply st_Set_same.
Qed.

Lemma cache_Clear_lookup t k (c : option (Cache S)) : cache_wf c → cache_lookup t k (Clear c) = None.
Proof.
  destruct c as [c|]; [|done]. simpl. intros Hwf. destruct (c_closed c) eqn:Hc; simpl; rewrite ?Hc; [done|].
  by apply st_Clear_lookup.
Qed.

Lemma cache_step_room op k v (c : option (Cache S)) :
  cache_wf c → op ≠ CClose → cache_room (cacheStep op c) k v ↔ cache_room c k v.
Proof.
  destruct c as [c|]; [|by destruct op]. simpl. intros Hwf Hop.
  destruct op as [now k' v'|t now now' k' v' d|now k'|k'| |]; simpl; destruct (c_closed c) eqn:Hc; simpl;
    rewrite ?Hc; try done.
  - by rewrite st_Set_room.
  - case_match; simpl; rewrite ?Hc; [done|]. by rewrite st_SetExp_room.
  - pose proof (st_Get_room now k' k v (store c) Hwf) as Hr.
    destruct (st_Get now k' (store c)) as [s [w|]]; simpl in *; by rewrite ?Hc, Hr.
  - pose proof (st_Delete_room k' k v (store c) Hwf) as Hr.
    destruct (st_Delete k' (store c)) as [s b]; simpl in *; by rewrite ?Hc, Hr.
  - by rewrite st_Clear_room.
Qed.

(** A closed cache is inert: every operation leaves it as it is, reads
    miss, deletes report nothing and its length is zero; closing again is a
    no-op, so the store is closed once. *)
Theorem cache_closed_inert c op :
  c_closed c = true →
  cacheStep op (Some c) = Some c ∧
  (∀ now k, (Get now k (Some c)).2 = None) ∧ (∀ k, (Delete k (Some c)).2 = false) ∧
  Len_ (Some c) = 0.
Proof.
  intros Hc. simpl. rewrite ?Hc. split_and!; try done.
  destruct op; simpl; by rewrite ?Hc.
Qed.

(** Lifetime of [AddWithExpiration]: with a time to live that is positive
    at the reading [t] and clock readings [t <= now <= now'], the entry is
    visible at every later instant before the requested expiration time and
    never from that time plus the drift [now - t] between the two readings. *)
Theorem cache_add_expiration_lifetime (c : option (Cache S)) t now now' u k v exp :
  cache_wf c → cache_room c k v → t < exp ≤ t + max_int64 → t ≤ now → now' ≤ u →
  let c' := AddWithExpiration t now now' k v exp c in
  (u < exp → cache_lookup u k c' = Some v) ∧ (exp + (now - t) ≤ u → cache_lookup u k c' = None).
Proof.
  destruct c as [c|]; [|done]. intros Hwf [Hc Hr] Hexp Hle1 Hle2. unfold AddWithExpiration, max_int64 in *.
  rewrite ?Hc, time_Sub_small by (unfold min_int64, max_int64; lia).
  destruct (Z.leb_spec (exp - t) 0); [lia|]. simpl. rewrite ?Hc. split; intros Hu.
  - apply st_SetExp_same; [done|done|lia..].
  - apply st_SetExp_expired; [done|lia..].
Qed.

(** Accounting: each [Get] on an open cache counts exactly one hit or one
    miss, a hit exactly when it returns a value, and [Stats] reports a hit rate
    between zero and one. *)
Theorem cache_get_accounting c now k :
  c_closed c = false → 0 ≤ hits c → 0 ≤ misses c → hits c + misses c < max_int64 →
  let '(c', r) := Get now k (Some c) in
  ∃ c1, c' = Some c1 ∧ hits c1 + misses c1 = hits c + misses c + 1 ∧
    (is_Some r ↔ hits c1 = hits c + 1) ∧ (cs_hit_rate (Stats c1) <= 1)%Q ∧ (0 <= cs_hit_rate (Stats c1))%Q.
Proof.
  intros Hc Hh Hm Hlt. unfold Get, max_int64 in *. rewrite Hc.
  assert (∀ (c1 : Cache S), 0 ≤ hits c1 → 0 ≤ misses c1 → hits c1 + misses c1 < 2 ^ 63 →
    (cs_hit_rate (Stats c1) <= 1)%Q ∧ (0 <= cs_hit_rate (Stats c1))%Q) as Hrate.
  { intros c1 H1' H2' H3'. unfold Stats. simpl. rewrite int64_small by lia.
    destruct (Z.ltb_spec 0 (hits c1 + misses c1)); [|done]. unfold Qle. simpl. lia. }
  destruct (st_Get now k (store c)) as [s [v|]]; rewrite int64_small by lia;
    (eexists; split; [done|]); cbn [hits misses]; (split; [lia|]);
    (split; [|apply Hrate; cbn [hits misses]; lia]).
  - split; [done|eauto].
  - split; [by intros []|lia].
Qed.
End facts.

(** ** Construction *)

Lemma NewStore_wf {V} `{Value V} ty opts (s : storeImpl V) : NewStore ty opts = Some s → st_wf (V := V) s.
Proof.
  unfold NewStore. intros Hnew. case_decide; [simplify_eq; apply newLRUCache_wf|].
  assert (SSharded <$> newShardedLRU opts = Some s) as Hs by (by case_decide).
  destruct (newShardedLRU opts) as [s'|] eqn:Hs'; [|done]. simpl in Hs. injection Hs as <-.
  apply (shardReachable_wf opts s'), shardReachable_new, Hs'.
Qed.

Lemma NewCache_wf opts c : NewCache opts = Some c → cache_wf (Some c) ∧ c_closed c = false.
Proof.
  unfold NewCache. intros (s & Hs & Hc)%bind_Some. injection Hc as <-.
  split; [|done]. by eapply NewStore_wf.
Qed.

(** ** Witnesses *)

Definition wc : Cache (storeImpl ByteView) :=
  default (mkCache (SLru (newLRUCache NewOptions)) 0 0 false) (NewCache DefaultCacheOptions).

Lemma wc_eq : NewCache DefaultCacheOptions = Some wc.
Proof. by vm_compute. Qed.

Lemma wc_wf : cache_wf (Some wc).
Proof. apply (NewCache_wf _ _ wc_eq). Qed.

Lemma cache_closed_inert_witness : cacheStep CClear (Close (Some wc)) = Close (Some wc).
Proof. exact (proj1 (cache_closed_inert (mkCache (st_Close (store wc)) 0 0 true) CClear eq_refl)). Defined.

Lemma wc_room : cache_room (Some wc) "k" (mkByteView [1]).
Proof.
  split; [by vm_compute|]. intros c Hc. right.
  assert (maxBytes c = 524288) as ->; [|by vm_compute].
  assert (maxBytes <$> (match store wc with SSharded s => shard s "k" | _ => None end) = Some 524288) as Hm by (by vm_compute).
  change (match store wc with SSharded s => shard s "k" | _ => None end = Some c) in Hc.
  rewrite Hc in Hm. by injection Hm.
Qed.

Lemma cache_add_expiration_lifetime_witness :
  cache_lookup 8 "k" (AddWithExpiration 0 1 2 "k" (mkByteView [1]) 10 (Some wc)) = Some (mkByteView [1]).
Proof.
  apply (cache_add_expiration_lifetime (Some wc) 0 1 2 8 "k" (mkByteView [1]) 10 wc_wf);
    [exact wc_room|unfold max_int64; lia|lia|lia|lia].
Defined.

Lemma cache_get_accounting_witness :
  ∃ c1, (Get 0 "k" (Some wc)).1 = Some c1 ∧ hits c1 + misses c1 = 1.
Proof.
  pose proof (cache_get_accounting wc 0 "k") as Hw.
  destruct (Get 0 "k" (Some wc)) as [c' r].
  destruct Hw as (c1 & Hc & Hsum & _); [by vm_compute..|]. by exists c1.
Defined.
