(* ===== verification/ConsistentHash.v ===== *)
(** * The consistent hash ring (consistenthash/con_hash.go, config.go)

    [Map]: virtual points sorted by (hash, node, replica), the set of members,
    and the configuration.  Methods hold [m.mu], so each is one state
    transformer. *)

From S2P Require Import Prelude Hashes.

Record point := mkPoint { hash : Z; node : string; replica : Z }.

#[export] Instance point_eq_dec : EqDecision point.
Proof. solve_decision. Defined.

(** [type Config struct] with a non-nil hash function. *)
Record Config := mkConfig { Replicas : Z; HashFunc : list Z → Z }.

Definition DefaultConfig : Config := {| Replicas := 100; HashFunc := ChecksumIEEE |}.

Record Map := mkMap { config : Config; points : list point; nodes : gset string }.

(** [type Option func( *Map)]: the two constructors of the package.  The hash
    function of a [WithConfig] argument may be nil. *)
Inductive Option_ := WithConfig (replicas : Z) (hashFunc : option (list Z → Z)) | WithReplicas (replicas : Z).

Definition applyOption (o : Option_) (m : Map) : Map :=
  match o with
  | WithConfig replicas hashFunc =>
      let c := config m in
      let c := if 0 <? replicas then mkConfig replicas (HashFunc c) else c in
      let c := match hashFunc with Some f => mkConfig (Replicas c) f | None => c end in
      mkMap c (points m) (nodes m)
  | WithReplicas replicas =>
      if 0 <? replicas
      then mkMap (mkConfig replicas (HashFunc (config m))) (points m) (nodes m) else m
  end.

Definition New (opts : list Option_) : Map :=
  foldl (λ m o, applyOption o m) (mkMap DefaultConfig [] ∅) opts.

(** The comparison of [sortPoints]. *)
Definition pointLess (p q : point) : bool :=
  if negb (hash p =? hash q) then hash p <? hash q
  else if negb (String.eqb (node p) (node q)) then string_lt (node p) (node q)
  else replica p <? replica q.

(** [sort.Slice] leaves its algorithm unspecified: it permutes the slice so that
    no element is less than its predecessor.  Merge sort is one such sort, and
    the result is the only one ([sortPoints_unique]). *)
Definition pointLe (p q : point) : Prop := pointLess q p = false.
#[export] Instance pointLe_dec p q : Decision (pointLe p q).
Proof. unfold pointLe. apply _. Defined.
Definition sortPoints (ps : list point) : list point := merge_sort pointLe ps.

(** [m.config.HashFunc(\[\]byte(fmt.Sprintf("%s#%d", node, i)))] *)
Definition pointKey (n : string) (i : Z) : string := n +:+ "#" +:+ pretty i.
Definition virtualPoint (c : Config) (n : string) (i : Z) : point :=
  mkPoint (HashFunc c (bytes_of (pointKey n i))) n i.
Definition virtualPoints (c : Config) (n : string) : list point :=
  virtualPoint c n <$> seqZ 0 (Replicas c).

(** One iteration of the loop of [Add]; the flag is [changed]. *)
Definition addNode (st : Map * bool) (n : string) : Map * bool :=
  let '(m, changed) := st in
  if decide (n = "") then (m, changed)
  else if decide (n ∈ nodes m) then (m, changed)
  else (mkMap (config m) (points m ++ virtualPoints (config m) n) ({[n]} ∪ nodes m), true).

Definition Add (ns : list string) (m : Map) : Map * option string :=
  match ns with
  | [] => (m, Some "no nodes provided")
  | _ =>
      let '(m', changed) := foldl addNode (m, false) ns in
      (if changed then mkMap (config m') (sortPoints (points m')) (nodes m') else m', None)
  end.

Definition Remove (n : string) (m : Map) : Map * option string :=
  if decide (n = "") then (m, Some "invalid node")
  else if decide (n ∈ nodes m) then
    (mkMap (config m) (filter (λ p, node p ≠ n) (points m)) (nodes m ∖ {[n]}), None)
  else (m, Some ("node " +:+ n +:+ " not found")).

(** [sort.Search]: binary search for the least index in [\[i, j)] at which [f]
    holds.  Every iteration shrinks the interval, so [j - i] is enough fuel. *)
Fixpoint searchLoop (fuel : nat) (f : nat → bool) (i j : nat) : nat :=
  match fuel with
  | O => i
  | S fuel =>
      if (i <? j)%nat then
        let h := ((i + j) / 2)%nat in
        if negb (f h) then searchLoop fuel f (S h) j else searchLoop fuel f i h
      else i
  end.
Definition Search (n : nat) (f : nat → bool) : nat := searchLoop n f 0 n.

Definition Get (k : string) (m : Map) : string :=
  if decide (k = "") then ""
  else match points m with
       | [] => ""
       | _ =>
           let h := HashFunc (config m) (bytes_of k) in
           let idx := Search (length (points m))
                        (λ i, match points m !! i with Some p => h <=? hash p | None => true end) in
           let idx := if (idx =? length (points m))%nat then O else idx in
           match points m !! idx with Some p => node p | None => "" end
       end.

Definition Members (m : Map) : list string := merge_sort String.le (elements (nodes m)).
Definition Len_ (m : Map) : Z := Z.of_nat (size (nodes m)).

(** The states of a ring built by [New] and changed by [Add] and [Remove]. *)
Inductive ringReachable (opts : list Option_) : Map → Prop :=
| ringReachable_new : ringReachable opts (New opts)
| ringReachable_add ns m : ringReachable opts m → ringReachable opts (Add ns m).1
| ringReachable_remove n m : ringReachable opts m → ringReachable opts (Remove n m).1.
