(* ===== verification/RingFacts.v ===== *)
(** * Correctness of the consistent hash ring

    The ring is a function of the configuration and the set of members,
    whatever the order of insertions and removals; lookup is the clockwise
    successor; and membership changes move only the keys they must. *)

From S2P Require Import Prelude Hashes ConsistentHash.

(** ** The order on points *)

Lemma string_lt_iff s t : string_lt s t = true ↔ String.compare s t = Lt.
Proof. unfold string_lt, String.ltb. by destruct (String.compare s t). Qed.

Lemma string_compare_refl s : String.compare s s = Eq.
Proof.
  pose proof (String.compare_antisym s s) as Ha. by destruct (String.compare s s).
Qed.

Lemma string_le_iff s t : String.le s t ↔ string_lt s t = true ∨ s = t.
Proof.
  unfold String.le, String.leb. rewrite string_lt_iff.
  destruct (String.compare s t) eqn:Hc; simpl.
  - apply String.compare_eq_iff in Hc. naive_solver.
  - naive_solver.
  - split; [done|]. intros [|Heq]; [done|]. rewrite Heq, string_compare_refl in Hc. done.
Qed.

Lemma string_lt_asym s t : string_lt s t = true → string_lt t s = false.
Proof.
  unfold string_lt, String.ltb. rewrite (String.compare_antisym s t).
  by destruct (String.compare t s).
Qed.

(** [pointLe] spelled out. *)
Lemma pointLe_iff p q :
  pointLe p q ↔
    hash p < hash q ∨
    hash p = hash q ∧ (string_lt (node p) (node q) = true ∨ node p = node q ∧ replica p ≤ replica q).
Proof.
  unfold pointLe, pointLess. destruct (Z.eqb_spec (hash q) (hash p)); simpl; [|rewrite Z.ltb_ge; lia].
  destruct (String.eqb_spec (node q) (node p)) as [Hn|Hn]; simpl.
  - rewrite Z.ltb_ge. rewrite Hn.
    assert (string_lt (node p) (node p) ≠ true) by (intros Hx; by rewrite (string_lt_asym _ _ Hx) in Hx).
    naive_solver lia.
  - assert (string_lt (node q) (node p) = false ↔ string_lt (node p) (node q) = true) as ->; [|naive_solver lia].
    unfold string_lt, String.ltb. rewrite (String.compare_antisym (node p)).
    destruct (String.compare (node q) (node p)) eqn:Hc; simpl; try done.
    by apply String.compare_eq_iff in Hc.
Qed.

#[export] Instance pointLe_trans : Transitive pointLe.
Proof.
  intros p q r. rewrite !pointLe_iff.
  assert (string_lt (node p) (node q) = true → string_lt (node q) (node r) = true →
          string_lt (node p) (node r) = true) as Htr.
  { intros H1 H2. assert (String.le (node p) (node r)) as [|Heq]%string_le_iff; [|done|].
    - etrans; (apply string_le_iff; left; eassumption).
    - rewrite <-Heq in H2. by rewrite (string_lt_asym _ _ H1) in H2. }
  intros [?|[H1 [?|[E1 ?]]]] [?|[H2 [?|[E2 ?]]]]; rewrite ?H1, ?H2 in *; try (left; lia); right;
    (split; [lia|]); rewrite ?E1, ?E2 in *; auto; right; split; [congruence|lia].
Qed.

#[export] Instance pointLe_total : Total pointLe.
Proof.
  intros p q. rewrite !pointLe_iff.
  destruct (Z.lt_trichotomy (hash p) (hash q)) as [?|[Hh|?]]; [by left; left| |by right; left].
  destruct (total String.le (node p) (node q)) as [Hs|Hs]; apply string_le_iff in Hs as [Hs|Hs].
  - left. right. auto.
  - destruct (Z.le_ge_cases (replica p) (replica q)); [left|right]; right; auto.
  - right. right. auto.
  - destruct (Z.le_ge_cases (replica p) (replica q)); [left|right]; right; auto.
Qed.

#[export] Instance pointLe_antisymm : AntiSymm (=) pointLe.
Proof.
  intros [h1 n1 r1] [h2 n2 r2]. rewrite !pointLe_iff. simpl.
  intros [?|[-> [Hs|[-> ?]]]] [?|[? [Hs'|[? ?]]]]; try lia; subst.
  - by rewrite (string_lt_asym _ _ Hs) in Hs'.
  - by rewrite (string_lt_asym _ _ Hs) in Hs.
  - by rewrite (string_lt_asym _ _ Hs') in Hs'.
  - f_equal. lia.
Qed.

(** Any result [sort.Slice] may produce is the one of the model. *)
Lemma sortPoints_unique l l' : l' ≡ₚ l → Sorted pointLe l' → l' = sortPoints l.
Proof.
  intros Hp Hs. unfold sortPoints. apply (Sorted_unique pointLe); [done|by apply Sorted_merge_sort; apply _|].
  by rewrite merge_sort_Permutation.
Qed.

Lemma Sorted_filter (P : point → Prop) `{!∀ p, Decision (P p)} l :
  Sorted pointLe l → Sorted pointLe (filter P l).
Proof.
  intros Hs%(Sorted_StronglySorted pointLe). apply StronglySorted_Sorted.
  induction Hs as [|p l Hl IH Hp]; [constructor|]. rewrite filter_cons. case_decide; [|done].
  constructor; [done|]. rewrite Forall_forall in Hp |- *. intros q [_ Hq]%list_elem_of_filter. auto.
Qed.

(** ** The invariant *)

Definition allPoints (c : Config) (ns : gset string) : list point :=
  elements ns ≫= virtualPoints c.

Record ring_wf (m : Map) : Prop := {
  rwf_sorted : Sorted pointLe (points m);
  rwf_points : points m ≡ₚ allPoints (config m) (nodes m);
  rwf_nodes : "" ∉ nodes m;
  rwf_replicas : 0 < Replicas (config m)
}.

Lemma allPoints_union c n ns :
  n ∉ ns → allPoints c ({[n]} ∪ ns) ≡ₚ allPoints c ns ++ virtualPoints c n.
Proof.
  intros Hn. unfold allPoints. rewrite elements_union_singleton by done. csimpl.
  apply Permutation_app_comm.
Qed.

Lemma elem_of_allPoints c ns p :
  p ∈ allPoints c ns ↔ node p ∈ ns ∧ 0 ≤ replica p < Replicas c ∧ p = virtualPoint c (node p) (replica p).
Proof.
  unfold allPoints, virtualPoints. rewrite list_elem_of_bind.
  setoid_rewrite elem_of_elements. setoid_rewrite list_elem_of_fmap. setoid_rewrite elem_of_seqZ. split.
  - intros (n & (i & -> & Hi) & Hn). simpl. split_and!; try done; lia.
  - intros (Hn & Hi & Hp). exists (node p). split; [|done]. exists (replica p). split; [done|lia].
Qed.

Lemma allPoints_NoDup c ns : NoDup (allPoints c ns).
Proof.
  unfold allPoints. apply NoDup_bind.
  - unfold virtualPoints. intros n1 n2 p _ _ (i & -> & _)%list_elem_of_fmap (j & Heq & _)%list_elem_of_fmap.
    by injection Heq.
  - intros n _. apply NoDup_fmap_2; [|apply NoDup_seqZ]. intros i j Heq. by injection Heq.
  - apply NoDup_elements.
Qed.

Lemma allPoints_length c ns : 0 ≤ Replicas c → Z.of_nat (length (allPoints c ns)) = Replicas c * Z.of_nat (size ns).
Proof.
  intros Hr. unfold allPoints, size, set_size. simpl. induction (elements ns) as [|n l IH]; csimpl; [lia|].
  rewrite length_app. unfold virtualPoints at 1. rewrite length_fmap, length_seqZ. lia.
Qed.

Lemma New_config opts : 0 < Replicas (config (New opts)) ∧ points (New opts) = [] ∧ nodes (New opts) = ∅.
Proof.
  unfold New. assert (0 < Replicas (config (mkMap DefaultConfig [] ∅))) as Hinit by (by vm_compute).
  assert (∀ m, 0 < Replicas (config m) ∧ points m = [] ∧ nodes m = ∅ →
    let m' := foldl (λ m o, applyOption o m) m opts in
    0 < Replicas (config m') ∧ points m' = [] ∧ nodes m' = ∅) as Hloop; [|by apply Hloop].
  induction opts as [|o opts IH]; intros m Hm; simpl; [done|]. apply IH.
  destruct m as [c ps ns]. simpl in *. destruct o as [r [f|]|r]; simpl; destruct (Z.ltb_spec 0 r); simpl; naive_solver.
Qed.

Lemma New_wf opts : ring_wf (New opts).
Proof.
  destruct (New_config opts) as (Hr & Hp & Hn). split; rewrite ?Hp, ?Hn; [constructor|done|set_solver|done].
Qed.

(** What the loop of [Add] maintains before the final sort. *)
Lemma addLoop_spec ns m changed m' changed' :
  foldl addNode (m, changed) ns = (m', changed') →
  points m ≡ₚ allPoints (config m) (nodes m) →
  config m' = config m ∧
  nodes m' = nodes m ∪ (list_to_set ns ∖ {[""]}) ∧
  points m' ≡ₚ allPoints (config m') (nodes m') ∧
  (changed' = false → m' = m).
Proof.
  revert m changed. induction ns as [|n ns IH]; intros m changed Hf Hp; csimpl in Hf.
  { simplify_eq. split_and!; [done|set_solver|done|done]. }
  destruct (decide (n = "")) as [->|Hn]; [|destruct (decide (n ∈ nodes m)) as [Hin|Hin]].
  - destruct (IH _ _ Hf Hp) as (? & -> & ? & ?). split_and!; try done. csimpl. set_solver.
  - destruct (IH _ _ Hf Hp) as (? & -> & ? & ?). split_and!; try done. csimpl. set_solver.
  - destruct (IH _ _ Hf) as (Hc & -> & Hp' & Hch); simpl in *; [by rewrite allPoints_union, Hp|].
    split_and!; [done|set_solver|done|]. intros Hf'. exfalso.
    assert (∀ l st, (foldl addNode (st, true) l).2 = true) as Htrue.
    { clear. induction l as [|x l IH]; intros st; simpl; [done|]. repeat case_decide; apply IH. }
    specialize (Htrue ns (mkMap (config m) (points m ++ virtualPoints (config m) n) ({[n]} ∪ nodes m))).
    rewrite Hf in Htrue. simpl in Htrue. congruence.
Qed.

Lemma Add_spec ns m :
  ring_wf m → ns ≠ [] →
  let m' := (Add ns m).1 in
  ring_wf m' ∧ config m' = config m ∧ nodes m' = nodes m ∪ (list_to_set ns ∖ {[""]}) ∧ (Add ns m).2 = None.
Proof.
  intros Hwf Hne. unfold Add. destruct ns as [|n ns]; [done|].
  destruct (foldl addNode (m, false) (n :: ns)) as [m' changed] eqn:Hf.
  destruct (addLoop_spec _ _ _ _ _ Hf (rwf_points m Hwf)) as (Hc & Hn & Hp & Hch).
  assert ("" ∉ nodes m') as Hempty by (rewrite Hn; pose proof (rwf_nodes m Hwf); set_solver).
  pose proof (rwf_replicas m Hwf) as Hr. destruct changed; simpl.
  - split_and!; try done. split; simpl; rewrite ?Hc in *; [apply Sorted_merge_sort; apply _| |done|done].
    unfold sortPoints. by rewrite merge_sort_Permutation.
  - rewrite (Hch eq_refl) in *. done.
Qed.

Lemma Remove_spec n m :
  ring_wf m → n ∈ nodes m →
  let m' := (Remove n m).1 in
  ring_wf m' ∧ config m' = config m ∧ nodes m' = nodes m ∖ {[n]} ∧
  points m' = filter (λ p, node p ≠ n) (points m) ∧ (Remove n m).2 = None.
Proof.
  intros Hwf Hn. unfold Remove.
  rewrite decide_False by (intros ->; by apply (rwf_nodes m Hwf)).
  rewrite decide_True by done. simpl. split_and!; try done. split; simpl.
  - by apply Sorted_filter, rwf_sorted.
  - rewrite (rwf_points m Hwf). replace (nodes m) with ({[n]} ∪ nodes m ∖ {[n]}) at 1
      by (apply union_difference_singleton_L in Hn; done).
    rewrite allPoints_union by set_solver. rewrite filter_app.
    rewrite (filter_all (λ p, node p ≠ n) (allPoints _ _)) by (intros p [Hp _]%elem_of_allPoints Heq; rewrite Heq in Hp; set_solver).
    assert (filter (λ p, node p ≠ n) (virtualPoints (config m) n) = []) as ->; [|by rewrite app_nil_r].
    unfold virtualPoints. induction (seqZ 0 _) as [|i l IH]; [done|]. csimpl. by rewrite filter_cons_False by auto.
  - pose proof (rwf_nodes m Hwf). set_solver.
  - by apply rwf_replicas.
Qed.

Lemma Remove_absent n m : n ∉ nodes m → (Remove n m).1 = m ∧ is_Some (Remove n m).2.
Proof. intros Hn. unfold Remove. by repeat case_decide. Qed.

Lemma ringReachable_wf opts m : ringReachable opts m → ring_wf m.
Proof.
  induction 1 as [|ns m _ IH|n m _ IH]; [apply New_wf| |].
  - destruct ns as [|n ns]; [done|]. by apply Add_spec.
  - destruct (decide (n ∈ nodes m)); [by apply Remove_spec|].
    by rewrite (proj1 (Remove_absent n m ltac:(done))).
Qed.

Lemma ringReachable_config opts m : ringReachable opts m → config m = config (New opts).
Proof.
  induction 1 as [|ns m Hr IH|n m Hr IH]; [done| |].
  - destruct ns as [|n ns]; [done|].
    by destruct (Add_spec (n :: ns) m (ringReachable_wf _ _ Hr) ltac:(done)) as (_ & -> & _).
  - destruct (decide (n ∈ nodes m)) as [Hn|Hn]; [|by rewrite (proj1 (Remove_absent n m Hn))].
    by destruct (Remove_spec n m (ringReachable_wf _ _ Hr) Hn) as (_ & -> & _).
Qed.

(** The ring is a function of configuration and members. *)
Lemma ring_wf_unique m1 m2 :
  ring_wf m1 → ring_wf m2 → config m1 = config m2 → nodes m1 = nodes m2 → m1 = m2.
Proof.
  intros H1 H2 Hc Hn. destruct m1 as [c1 ps1 ns1], m2 as [c2 ps2 ns2]. simpl in *. subst. f_equal.
  apply (Sorted_unique pointLe); [by apply (rwf_sorted _ H1)|by apply (rwf_sorted _ H2)|].
  etrans; [apply (rwf_points _ H1)|symmetry; apply (rwf_points _ H2)].
Qed.

(** ** Lookup *)

(** [sort.Search] brackets a switch of [f] from false to true; on a monotone
    [f] that is the least index at which [f] holds. *)
Lemma searchLoop_spec f n fuel i j :
  (j - i ≤ fuel)%nat → (i ≤ j ≤ n)%nat →
  (∀ x y, (x ≤ y < n)%nat → f x = true → f y = true) →
  (∀ x, (x < i)%nat → f x = false) → (∀ x, (j ≤ x < n)%nat → f x = true) →
  let r := searchLoop fuel f i j in
  (i ≤ r ≤ j)%nat ∧ (∀ x, (x < r)%nat → f x = false) ∧ (∀ x, (r ≤ x < n)%nat → f x = true).
Proof.
  revert i j. induction fuel as [|fuel IH]; intros i j Hfuel Hij Hmono Hlo Hhi; cbn [searchLoop]; cbn zeta.
  { assert (i = j) as -> by lia. split_and!; try done; lia. }
  destruct (Nat.ltb_spec i j) as [Hlt|Hge]; [|split_and!; [lia|lia|done|intros; apply Hhi; lia]].
  assert (i ≤ (i + j) / 2 < j)%nat as Hh by (pose proof (Nat.div_mod_eq (i + j) 2); pose proof (Nat.mod_upper_bound (i + j) 2); lia).
  set (h := ((i + j) `div` 2)%nat) in *. destruct (f h) eqn:Hf; simpl.
  - destruct (IH i h) as (? & Hl & Hu); [lia|lia|done|done|..|split_and!; [lia|lia|exact Hl|exact Hu]].
    intros x Hx. apply (Hmono h x); [lia|done].
  - destruct (IH (S h) j) as (? & Hl & Hu); [lia|lia|done|..|done|split_and!; [lia|lia|exact Hl|exact Hu]].
    intros x Hx. destruct (f x) eqn:Hfx; [|done]. rewrite (Hmono x h) in Hf; [done|lia|done].
Qed.

Lemma Search_spec f n :
  (∀ x y, (x ≤ y < n)%nat → f x = true → f y = true) →
  (Search n f ≤ n)%nat ∧ (∀ x, (x < Search n f)%nat → f x = false) ∧
  (∀ x, (Search n f ≤ x < n)%nat → f x = true).
Proof. intros Hm. destruct (searchLoop_spec f n n 0 n) as (? & ? & ?); auto; [lia|lia|lia|lia|]. split_and!; [unfold Search; lia|done|done]. Qed.

Lemma sorted_lookup {A} (R : relation A) l i j x y :
  StronglySorted R l → l !! i = Some x → l !! j = Some y → (i < j)%nat → R x y.
Proof.
  intros Hs. revert i j. induction Hs as [|z l Hl IH Hz]; intros [|i] [|j] Hi Hj Hij; simplify_eq/=; try lia.
  - rewrite Forall_forall in Hz. by eapply Hz, list_elem_of_lookup_2.
  - eapply IH; [done..|lia].
Qed.

(** The reference definition of lookup: scan clockwise from [h], wrapping. *)
Definition clockwise (h : Z) (ps : list point) : option point :=
  match filter (λ p, h ≤ hash p) ps with
  | p :: _ => Some p
  | [] => head ps
  end.

Lemma clockwise_app h l1 l2 :
  Forall (λ p, hash p < h) l1 → Forall (λ p, h ≤ hash p) l2 →
  clockwise h (l1 ++ l2) = match l2 with p :: _ => Some p | [] => head l1 end.
Proof.
  intros H1 H2. unfold clockwise. rewrite filter_app.
  assert (filter (λ p, h ≤ hash p) l1 = []) as ->.
  { clear H2. induction H1; [done|]. by rewrite filter_cons_False by lia. }
  simpl. destruct l2 as [|p l2]; simpl; [by rewrite app_nil_r|].
  inversion H2; subst. by rewrite filter_cons_True.
Qed.

Lemma Get_clockwise m k :
  ring_wf m → k ≠ "" →
  Get k m = from_option node "" (clockwise (HashFunc (config m) (bytes_of k)) (points m)).
Proof.
  intros Hwf Hk. unfold Get. rewrite decide_False by done.
  set (h := HashFunc _ _). pose proof (Sorted_StronglySorted _ _ (rwf_sorted m Hwf)) as Hs.
  destruct (points m) as [|p0 ps0] eqn:Hps; [done|]. rewrite <-Hps in *.
  set (f := λ i, match points m !! i with Some p => h <=? hash p | None => true end).
  destruct (Search_spec f (length (points m))) as (Hle & Hlo & Hhi).
  { intros x y Hxy. unfold f. destruct (points m !! x) as [p|] eqn:Hx; [|by apply lookup_ge_None in Hx; lia].
    destruct (points m !! y) as [q|] eqn:Hy; [|done]. rewrite !Z.leb_le. intros Hp.
    destruct (decide (x = y)) as [->|]; [congruence|].
    assert (pointLe p q) as Hle'%pointLe_iff by (eapply (sorted_lookup _ _ x y); eauto with lia). lia. }
  set (r := Search _ _) in *.
  rewrite <-(take_drop r (points m)) at 3. rewrite clockwise_app.
  2:{ apply Forall_lookup. intros i p [Hp Hi]%lookup_take_Some. specialize (Hlo i Hi). unfold f in Hlo. rewrite Hp in Hlo. by apply Z.leb_gt. }
  2:{ apply Forall_lookup. intros i p Hp. rewrite lookup_drop in Hp. pose proof (lookup_lt_Some _ _ _ Hp).
      specialize (Hhi (r + i)%nat ltac:(lia)). unfold f in Hhi. rewrite Hp in Hhi. by apply Z.leb_le. }
  destruct (Nat.eqb_spec r (length (points m))) as [Heq|Hne].
  - rewrite Heq, drop_all, take_ge by lia. by rewrite head_lookup; destruct (points m !! 0%nat).
  - destruct (points m !! r) as [p|] eqn:Hp; [|apply lookup_ge_None in Hp; lia].
    by rewrite (drop_S _ _ _ Hp).
Qed.

Lemma clockwise_elem h ps p : clockwise h ps = Some p → p ∈ ps.
Proof.
  unfold clockwise. destruct (filter _ ps) as [|q l] eqn:Hf.
  - intros Hh. by apply list_elem_of_lookup_2 with 0%nat; rewrite <-head_lookup.
  - intros [= ->]. eapply (list_elem_of_filter (λ p, h ≤ hash p) ps p). rewrite Hf. left.
Qed.

Lemma clockwise_None h ps : clockwise h ps = None ↔ ps = [].
Proof.
  split; [|by intros ->]. unfold clockwise. destruct (filter _ ps) eqn:Hf; [|done].
  by destruct ps.
Qed.

(** Dropping points other than the successor keeps the successor. *)
Lemma clockwise_filter (P : point → Prop) `{!∀ p, Decision (P p)} h ps p :
  clockwise h ps = Some p → P p → clockwise h (filter P ps) = Some p.
Proof.
  intros Hc HP. unfold clockwise in *. rewrite list_filter_filter.
  rewrite (list_filter_iff _ (λ q, P q ∧ h ≤ hash q)) by tauto.
  rewrite <-list_filter_filter. destruct (filter (λ p, h ≤ hash p) ps) as [|q l] eqn:Hf.
  - simpl. destruct ps as [|p' ps]; [done|]. simplify_eq/=. by rewrite filter_cons_True.
  - simplify_eq. by rewrite filter_cons_True.
Qed.

Lemma virtualPoints_nonempty c n : 0 < Replicas c → virtualPoint c n 0 ∈ virtualPoints c n.
Proof. intros. unfold virtualPoints. apply list_elem_of_fmap. exists 0. split; [done|]. apply elem_of_seqZ. lia. Qed.

Lemma ring_points_nil m : ring_wf m → points m = [] ↔ nodes m = ∅.
Proof.
  intros Hwf. split; intros Hnil.
  - apply set_eq. intros n. split; [|set_solver]. intros Hn.
    assert (virtualPoint (config m) n 0 ∈ points m) as Hp; [|rewrite Hnil in Hp; set_solver].
    rewrite (rwf_points m Hwf). apply elem_of_allPoints. simpl.
    pose proof (rwf_replicas m Hwf). split_and!; [done|lia|lia|done].
  - apply Permutation_nil_r. rewrite (rwf_points m Hwf), Hnil. done.
Qed.

Lemma ring_Get_elem m k : ring_wf m → k ≠ "" → nodes m ≠ ∅ → Get k m ∈ nodes m.
Proof.
  intros Hwf Hk Hne. rewrite Get_clockwise by done.
  destruct (clockwise _ _) as [p|] eqn:Hc.
  - apply clockwise_elem in Hc. rewrite (rwf_points m Hwf) in Hc. by apply elem_of_allPoints in Hc as [? _].
  - apply clockwise_None in Hc. by apply ring_points_nil in Hc.
Qed.

Lemma ring_Get_empty m k : ring_wf m → nodes m = ∅ → Get k m = "".
Proof. intros Hwf Hn. unfold Get. rewrite (proj2 (ring_points_nil m Hwf) Hn). by case_decide. Qed.

(** The ring of a subset of the members is what filtering the points gives. *)
Lemma ring_restrict m m' :
  ring_wf m → ring_wf m' → config m = config m' → nodes m ⊆ nodes m' →
  points m = filter (λ p, node p ∈ nodes m) (points m').
Proof.
  intros H1 H2 Hc Hsub. apply (Sorted_unique pointLe); [by apply rwf_sorted| |].
  - by apply Sorted_filter, rwf_sorted.
  - rewrite (rwf_points m H1), (rwf_points m' H2), Hc.
    apply NoDup_Permutation; [apply allPoints_NoDup|apply NoDup_filter, allPoints_NoDup|].
    intros p. rewrite list_elem_of_filter, !elem_of_allPoints. set_solver.
Qed.

(** A key that the larger ring assigns to a common member keeps its owner. *)
Lemma ring_owner_kept m m' k :
  ring_wf m → ring_wf m' → config m = config m' → nodes m ⊆ nodes m' → k ≠ "" →
  Get k m' ∈ nodes m → Get k m = Get k m'.
Proof.
  intros H1 H2 Hc Hsub Hk. rewrite !Get_clockwise by done. rewrite Hc, (ring_restrict m m') by done.
  set (h := HashFunc _ _). intros Hin. destruct (clockwise h (points m')) as [p|] eqn:Hp; simpl in Hin.
  - erewrite clockwise_filter; [done|done|done].
  - destruct (rwf_nodes m H1 Hin).
Qed.

(** ** The ring's guarantees *)

(** Every state a ring reaches is well formed: its points are in
    (hash, node, replica) order without duplicates, they are exactly the
    [Replicas] virtual points of every member, the empty name is no member, and
    the configuration is the one [New] set. *)
Theorem ring_reachable_invariant opts m :
  ringReachable opts m →
  ring_wf m ∧ NoDup (points m) ∧ config m = config (New opts) ∧
  Z.of_nat (length (points m)) = Replicas (config m) * Len_ m ∧
  (∀ p, p ∈ points m ↔ node p ∈ nodes m ∧ 0 ≤ replica p < Replicas (config m) ∧
                       hash p = HashFunc (config m) (bytes_of (pointKey (node p) (replica p)))).
Proof.
  intros Hr. pose proof (ringReachable_wf _ _ Hr) as Hwf. split_and!; [done| |by apply ringReachable_config| |].
  - rewrite (rwf_points m Hwf). apply allPoints_NoDup.
  - rewrite (rwf_points m Hwf). apply allPoints_length. pose proof (rwf_replicas m Hwf). lia.
  - intros p. rewrite (rwf_points m Hwf), elem_of_allPoints. destruct p as [h n r]. simpl.
    unfold virtualPoint. naive_solver.
Qed.

(** [C20] Lookup is the clockwise successor: on every reachable ring [Get],
    which searches by bisection, returns the node of the first point (in ring
    order) whose hash is at least the key's, and of the first point of all when
    there is none. *)
Theorem ring_Get_is_successor opts m k :
  ringReachable opts m → k ≠ "" →
  Get k m = from_option node "" (clockwise (HashFunc (config m) (bytes_of k)) (points m)).
Proof. intros Hr Hk. apply Get_clockwise; [by eapply ringReachable_wf|done]. Qed.

(** Lookup is total: for a non-empty key the owner is a member whenever
    there is one; the empty key and the empty ring give the empty string. *)
Theorem ring_Get_total opts m k :
  ringReachable opts m →
  if decide (k = "" ∨ Len_ m = 0) then Get k m = "" else Get k m ∈ Members m.
Proof.
  intros Hr%ringReachable_wf. unfold Members, Len_. case_decide as Hd.
  - destruct Hd as [->|Hd]; [by unfold Get|]. apply ring_Get_empty; [done|].
    apply leibniz_equiv, size_empty_inv. lia.
  - rewrite merge_sort_Permutation, elem_of_elements. apply ring_Get_elem; [done|naive_solver|].
    intros Hn. apply Hd. right. by rewrite Hn, size_empty.
Qed.

(** [C19] The ring does not depend on history: two rings with the same options
    and the same members are equal, whatever [Add]s and [Remove]s built them, so
    every node of a cluster maps every key to the same owner. *)
Theorem ring_history_independent opts m1 m2 :
  ringReachable opts m1 → ringReachable opts m2 → Members m1 = Members m2 →
  m1 = m2 ∧ ∀ k, Get k m1 = Get k m2.
Proof.
  intros H1 H2 Hm. assert (m1 = m2) as ->; [|done].
  apply ring_wf_unique; [by eapply ringReachable_wf..| |].
  - by rewrite (ringReachable_config _ _ H1), (ringReachable_config _ _ H2).
  - apply set_eq. intros n. rewrite <-!elem_of_elements.
    rewrite <-(merge_sort_Permutation String.le (elements (nodes m1))),
            <-(merge_sort_Permutation String.le (elements (nodes m2))).
    unfold Members in Hm. by rewrite Hm.
Qed.

(** Minimal disruption of [Add]: a key either keeps its owner or moves to
    one of the nodes being added that was not a member before. *)
Theorem ring_Add_disruption opts m ns k :
  ringReachable opts m → ns ≠ [] → k ≠ "" →
  let m' := (Add ns m).1 in
  Get k m' = Get k m ∨ (Get k m' ∈ ns ∧ Get k m' ∉ nodes m).
Proof.
  intros Hr%ringReachable_wf Hns Hk m'. destruct (Add_spec ns m Hr Hns) as (Hwf & Hc & Hn & _).
  fold m' in Hwf, Hc, Hn. destruct (decide (nodes m' = ∅)) as [He|He].
  - left. rewrite !ring_Get_empty; [done|done|set_solver|done|done].
  - pose proof (ring_Get_elem m' k Hwf Hk He) as Hin.
    destruct (decide (Get k m' ∈ nodes m)); [left|right].
    + symmetry. apply ring_owner_kept; try done. set_solver.
    + split; [|done]. rewrite Hn in Hin. set_solver.
Qed.

(** [C21] Minimal disruption of [Remove]: only the keys of the removed node change
    owner, and no key stays with it. *)
Theorem ring_Remove_disruption opts m n k :
  ringReachable opts m → n ∈ nodes m → k ≠ "" →
  let m' := (Remove n m).1 in
  (Get k m ≠ n → Get k m' = Get k m) ∧ Get k m' ≠ n.
Proof.
  intros Hr%ringReachable_wf Hin Hk m'. destruct (Remove_spec n m Hr Hin) as (Hwf & Hc & Hn & _).
  fold m' in Hwf, Hc, Hn. split.
  - intros Hne. apply ring_owner_kept; try done; [set_solver|]. rewrite Hn.
    assert (Get k m ∈ nodes m) by (apply ring_Get_elem; set_solver). set_solver.
  - destruct (decide (nodes m' = ∅)) as [He|He].
    + rewrite ring_Get_empty by done. intros <-. by apply (rwf_nodes m Hr).
    + pose proof (ring_Get_elem m' k Hwf Hk He). set_solver.
Qed.

(** [Add] is idempotent and [Remove] undoes it: adding a fresh node twice
    is adding it once, and removing it afterwards restores the whole ring. *)
Theorem ring_Add_Remove_roundtrip opts m n :
  ringReachable opts m → n ≠ "" → n ∉ nodes m →
  let m' := (Add [n] m).1 in
  Add [n] m' = (m', None) ∧ Remove n m' = (m, None).
Proof.
  intros Hr%ringReachable_wf Hne Hn m'. destruct (Add_spec [n] m Hr ltac:(done)) as (Hwf & Hc & Hns & _).
  fold m' in Hwf, Hc, Hns. assert (n ∈ nodes m') as Hin by (rewrite Hns; set_solver).
  split.
  - unfold Add. simpl. by rewrite decide_False, decide_True.
  - destruct (Remove_spec n m' Hwf Hin) as (Hwf' & Hc' & Hn' & _ & He).
    rewrite (surjective_pairing (Remove n m')), He. f_equal.
    apply ring_wf_unique; [done|done|congruence|]. rewrite Hn', Hns. set_solver.
Qed.

(** ** A concrete ring *)

Definition wring : Map := (Add ["n1"; "n2"] (New [WithReplicas 3])).1.
Definition wring' : Map := (Remove "n3" (Add ["n2"; "n3"] (Add ["n1"] (New [WithReplicas 3])).1).1).1.

Lemma wring_reachable : ringReachable [WithReplicas 3] wring.
Proof. apply ringReachable_add, ringReachable_new. Qed.
Lemma wring'_reachable : ringReachable [WithReplicas 3] wring'.
Proof. apply ringReachable_remove, ringReachable_add, ringReachable_add, ringReachable_new. Qed.

Lemma ring_reachable_invariant_witness :
  ring_wf wring ∧ Z.of_nat (length (points wring)) = 6.
Proof.
  destruct (ring_reachable_invariant [WithReplicas 3] wring wring_reachable) as (Hwf & _ & _ & Hl & _).
  split; [exact Hwf|]. rewrite Hl. vm_compute. reflexivity.
Defined.

Lemma ring_Get_is_successor_witness :
  Get "key" wring =
    from_option node "" (clockwise (HashFunc (config wring) (bytes_of "key")) (points wring)).
Proof. apply (ring_Get_is_successor [WithReplicas 3] wring "key"); [apply wring_reachable|discriminate]. Defined.

Lemma ring_Get_total_witness :
  if decide ("key" = "" ∨ Len_ wring = 0) then Get "key" wring = "" else Get "key" wring ∈ Members wring.
Proof. apply (ring_Get_total [WithReplicas 3] wring "key"), wring_reachable. Defined.

Lemma ring_history_independent_witness : wring = wring'.
Proof.
  apply (ring_history_independent [WithReplicas 3] wring wring' wring_reachable wring'_reachable).
  vm_compute. reflexivity.
Defined.

Lemma ring_Add_disruption_witness :
  Get "key" (Add ["n3"] wring).1 = Get "key" wring ∨
  (Get "key" (Add ["n3"] wring).1 ∈ ["n3"] ∧ Get "key" (Add ["n3"] wring).1 ∉ nodes wring).
Proof. apply (ring_Add_disruption [WithReplicas 3] wring ["n3"] "key"); [apply wring_reachable|discriminate|discriminate]. Defined.

Lemma ring_Remove_disruption_witness :
  (Get "key" wring ≠ "n1" → Get "key" (Remove "n1" wring).1 = Get "key" wring) ∧
  Get "key" (Remove "n1" wring).1 ≠ "n1".
Proof.
  apply (ring_Remove_disruption [WithReplicas 3] wring "n1" "key"); [apply wring_reachable| |discriminate].
  eapply bool_decide_unpack. vm_compute. exact I.
Defined.

Lemma ring_Add_Remove_roundtrip_witness :
  Add ["n3"] (Add ["n3"] wring).1 = ((Add ["n3"] wring).1, None) ∧
  Remove "n3" (Add ["n3"] wring).1 = (wring, None).
Proof.
  apply (ring_Add_Remove_roundtrip [WithReplicas 3] wring "n3"); [apply wring_reachable|discriminate|].
  eapply bool_decide_unpack. vm_compute. exact I.
Defined.
