(* ===== verification/Errors.v ===== *)
(** * Errors (group.go, client.go, server.go)

    Go errors as a tree: a sentinel is a pointer compared by identity,
    [fmt.Errorf] with [%w] wraps an error, [errors.Join] collects several, and
    a gRPC status error carries a code.  A message is kept as the fragments it
    is formatted from, so that the quotation of [%q] stays symbolic.

    The gRPC package is not part of the sources: [status.Code] and what the
    transport makes of a handler's error are the operations of the class
    [Grpc], and what the package documents of them is [GrpcLaws]. *)

From S2P Require Import Prelude.

(** ** Error values *)

Inductive sentinel :=
| ErrKeyRequired
| ErrValueRequired
| ErrGroupClosed
| ErrCacheMiss
| ErrNoOwner
| ErrPeerUnavailable
| ErrTopologyChanged
| ErrNotOwner
| ContextCanceled
| ContextDeadlineExceeded.

#[export] Instance sentinel_eq_dec : EqDecision sentinel.
Proof. solve_decision. Defined.

(** A fragment of a formatted message: text, a [%q] operand, and, for a status
    code's rendering inside [%v], the code. *)
Inductive frag := Lit (s : string) | Quoted (s : string) | CodeText (c : Z).
#[export] Instance frag_eq_dec : EqDecision frag.
Proof. solve_decision. Defined.
Definition msg : Type := list frag.

(** The text of each [errors.New]. *)
Definition sentinelText (s : sentinel) : string :=
  match s with
  | ErrKeyRequired => "key is required"
  | ErrValueRequired => "value is required"
  | ErrGroupClosed => "cache group is closed"
  | ErrCacheMiss => "cache miss"
  | ErrNoOwner => "no cache owner available"
  | ErrPeerUnavailable => "cache owner is remote but no peer client is available"
  | ErrTopologyChanged => "cache membership changed during operation"
  | ErrNotOwner => "this node is not the current owner"
  | ContextCanceled => "context canceled"
  | ContextDeadlineExceeded => "context deadline exceeded"
  end.

(** [Sentinel]: an [errors.New] variable; [Text]: [fmt.Errorf] without [%w];
    [Wrap pre e post]: [fmt.Errorf] with [%w] between two pieces of message;
    [Joined]: [errors.Join] of a non-empty list; [Status]: [status.Error]. *)
Inductive error :=
| Sentinel (s : sentinel)
| Text (m : msg)
| Wrap (pre : msg) (e : error) (post : msg)
| Joined (es : list error)
| Status (code : Z) (m : msg).

#[export] Instance error_eq_dec : EqDecision error.
Proof.
  unfold EqDecision, RelDecision. fix IH 1. intros e1 e2. unfold Decision. decide equality; try apply (decide (_ = _)).
  apply (list_eq_dec (dec := IH)).
Defined.

Coercion Sentinel : sentinel >-> error.

(** [err.Error()]. *)
Fixpoint Error (e : error) : msg :=
  match e with
  | Sentinel s => [Lit (sentinelText s)]
  | Text m => m
  | Wrap pre e post => (pre ++ Error e ++ post)%list
  | Joined es =>
      (fix join es := match es with
                      | [] => [] : msg
                      | [e] => Error e
                      | e :: es => (Error e ++ [Lit (String (Ascii.ascii_of_nat 10) EmptyString)] ++ join es)%list
                      end) es
  | Status c m => Lit "rpc error: code = " :: CodeText c :: Lit " desc = " :: m
  end.

(** [errors.Is(e, s)] for a sentinel [s].  A status error compares equal only
    to status errors. *)
Fixpoint errors_Is (e : error) (s : sentinel) : bool :=
  match e with
  | Sentinel s' => bool_decide (s' = s)
  | Text _ => false
  | Wrap _ e _ => errors_Is e s
  | Joined es => (fix any es := match es with [] => false | e :: es => errors_Is e s || any es end) es
  | Status _ _ => false
  end.

(** [errors.Join(errs...)] on non-nil errors: nil when there are none. *)
Definition errors_Join (es : list error) : option error :=
  match es with [] => None | _ => Some (Joined es) end.

(** [fmt.Errorf("%w: owner=%s", e, owner)]. *)
Definition withOwner (e : error) (owner : string) : error := Wrap [] e [Lit ": owner="; Lit owner].

(** ** gRPC status codes *)

Definition codes_OK : Z := 0.
Definition codes_Canceled : Z := 1.
Definition codes_Unknown : Z := 2.
Definition codes_DeadlineExceeded : Z := 4.
Definition codes_NotFound : Z := 5.
Definition codes_ResourceExhausted : Z := 8.
Definition codes_FailedPrecondition : Z := 9.
Definition codes_Internal : Z := 13.
Definition codes_Unavailable : Z := 14.

Fixpoint hasStatus (e : error) : bool :=
  match e with
  | Sentinel _ | Text _ => false
  | Wrap _ e _ => hasStatus e
  | Joined es => (fix any es := match es with [] => false | e :: es => hasStatus e || any es end) es
  | Status _ _ => true
  end.

(** The operations of the gRPC package: [status.Code], and the error the
    client stub returns when the server's handler returned [e]. *)
Class Grpc := {
  status_Code : error → Z;
  transport : error → error
}.

(** [status.FromContextError]: the code a server gives a handler's error that
    has no status. *)
Definition contextCode (e : error) : Z :=
  if errors_Is e ContextDeadlineExceeded then codes_DeadlineExceeded
  else if errors_Is e ContextCanceled then codes_Canceled else codes_Unknown.

(** Documented behaviour: [status.Code] of a status error is its code and of an
    error without status is [Unknown]; the stub returns a status error, with
    the code of the handler's status error, and with the code of
    [FromContextError] for an error that has no status.  A status error never
    has the code [OK]: [status.Error] with that code is nil. *)
Class GrpcLaws `{Grpc} : Prop := {
  status_Code_Status c m : c ≠ codes_OK → status_Code (Status c m) = c;
  status_Code_Unknown e : hasStatus e = false → status_Code e = codes_Unknown;
  transport_Status c m : c ≠ codes_OK → ∃ m', transport (Status c m) = Status c m';
  transport_context e : hasStatus e = false → ∃ m, transport e = Status (contextCode e) m
}.

(** An implementation: take the first status of the tree. *)
Fixpoint firstStatus (e : error) : option (Z * msg) :=
  match e with
  | Sentinel _ | Text _ => None
  | Wrap _ e _ => firstStatus e
  | Joined es => (fix first es := match es with
                                  | [] => None
                                  | e :: es => match firstStatus e with Some r => Some r | None => first es end
                                  end) es
  | Status c m => Some (c, m)
  end.

Definition grpc_impl : Grpc := {|
  status_Code e := match firstStatus e with Some (c, _) => c | None => codes_Unknown end;
  transport e := match firstStatus e with Some (c, m) => Status c m | None => Status (contextCode e) (Error e) end
|}.

(** ** Induction over error trees *)

Lemma error_induction (P : error → Prop) :
  (∀ s, P (Sentinel s)) → (∀ m, P (Text m)) → (∀ pre e post, P e → P (Wrap pre e post)) →
  (∀ es, Forall P es → P (Joined es)) → (∀ c m, P (Status c m)) → ∀ e, P e.
Proof.
  intros HS HT HW HJ HC. fix IH 1. intros [s|m|pre e post|es|c m]; [apply HS|apply HT|apply HW, IH| |apply HC].
  apply HJ. induction es as [|e es IHes]; constructor; [apply IH|apply IHes].
Qed.

Lemma hasStatus_firstStatus e : hasStatus e = false → firstStatus e = None.
Proof.
  induction e as [| | |es IH|] using error_induction; simpl; try done.
  induction IH as [|e es He Hes IH]; [done|]. intros [H1 H2]%orb_false_iff. rewrite (He H1). by apply IH.
Qed.

Lemma contextCode_cases e :
  contextCode e = codes_DeadlineExceeded ∨ contextCode e = codes_Canceled ∨ contextCode e = codes_Unknown.
Proof. unfold contextCode. repeat case_match; auto. Qed.

Lemma grpc_impl_laws : @GrpcLaws grpc_impl.
Proof.
  split; simpl; [done| |by eauto|]; intros e He; rewrite (hasStatus_firstStatus e He); eauto.
Qed.

Lemma errors_Is_Joined es s : errors_Is (Joined es) s = true ↔ ∃ e, e ∈ es ∧ errors_Is e s = true.
Proof.
  simpl. induction es as [|e es IH]; [set_solver|].
  rewrite orb_true_iff, IH. set_solver.
Qed.

Lemma errors_Is_withOwner e o s : errors_Is (withOwner e o) s = errors_Is e s.
Proof. done. Qed.
#[export] Hint Rewrite errors_Is_withOwner : locache.

(** ** The two ends of an RPC *)

Section rpc.
Context `{Grpc}.

(** server.go: the status a handler returns for an error of the group.  [nil]
    is [None]. *)
Definition mapGroupError (err : option error) : option error :=
  match err with
  | None => None
  | Some err =>
      Some (if errors_Is err ErrNotOwner || errors_Is err ErrTopologyChanged || errors_Is err ErrNoOwner
            then Status codes_FailedPrecondition (Error err)
            else if errors_Is err ErrCacheMiss then Status codes_NotFound (Error err)
            else if errors_Is err ErrGroupClosed then Status codes_Unavailable (Error err)
            else err)
  end.

(** client.go: the error a peer client reports for an error of the stub. *)
Definition classifyRPCError (err : option error) : option error :=
  match err with
  | None => None
  | Some err =>
      Some (let c := status_Code err in
            if c =? codes_FailedPrecondition then Wrap [] ErrTopologyChanged (Lit ": " :: Error err)
            else if c =? codes_NotFound then Wrap [] ErrCacheMiss (Lit ": " :: Error err)
            else err)
  end.

(** What the caller of [Client.Get] (and its siblings) sees of an error of the
    remote group. *)
Definition remoteError (what addr : string) (err : error) : error :=
  match mapGroupError (Some err) with
  | Some e => match classifyRPCError (Some (transport e)) with
              | Some e' => Wrap [Lit what; Lit addr; Lit ": "] e' []
              | None => err
              end
  | None => err
  end.
End rpc.

(** ** Facts about the two ends *)

Section rpc_facts.
Context `{GrpcLaws}.

Lemma mapGroupError_code err c m :
  mapGroupError (Some err) = Some (Status c m) → hasStatus err = false →
  c = codes_FailedPrecondition ∨ c = codes_NotFound ∨ c = codes_Unavailable.
Proof. unfold mapGroupError. intros Heq Hs. repeat case_match; naive_solver. Qed.

(** The sentinel a remote error is reported as. *)
Definition remoteSentinel (err : error) : option sentinel :=
  if errors_Is err ErrNotOwner || errors_Is err ErrTopologyChanged || errors_Is err ErrNoOwner
  then Some ErrTopologyChanged
  else if errors_Is err ErrCacheMiss then Some ErrCacheMiss else None.

Lemma remoteError_Is what addr err s :
  hasStatus err = false →
  errors_Is (remoteError what addr err) s = bool_decide (remoteSentinel err = Some s).
Proof.
  intros Hs. unfold remoteError, mapGroupError, remoteSentinel.
  destruct (_ || _) eqn:Hto; [|destruct (errors_Is err ErrCacheMiss) eqn:Hcm;
    [|destruct (errors_Is err ErrGroupClosed) eqn:Hgc]].
  1-3: match goal with |- context [Status ?c ?m] => destruct (transport_Status c m) as [m' ->]; [done|] end;
    unfold classifyRPCError; rewrite status_Code_Status by done; simpl; repeat case_bool_decide; congruence.
  destruct (transport_context err Hs) as [m ->].
  unfold classifyRPCError. destruct (contextCode_cases err) as [->|[->| ->]]; by rewrite status_Code_Status.
Qed.

(** An error that is a status already, as a Getter of the application may
    return, goes by its code alone. *)
Lemma remoteError_Status_Is what addr c m s :
  c ≠ codes_OK →
  errors_Is (remoteError what addr (Status c m)) s =
  bool_decide (s = ErrTopologyChanged ∧ c = codes_FailedPrecondition ∨ s = ErrCacheMiss ∧ c = codes_NotFound).
Proof.
  intros Hc. unfold remoteError. simpl. destruct (transport_Status c m Hc) as [m' ->].
  unfold classifyRPCError. rewrite status_Code_Status by done.
  destruct (Z.eqb_spec c codes_FailedPrecondition) as [->|]; [|destruct (Z.eqb_spec c codes_NotFound) as [->|]];
    simpl; symmetry; rewrite ?bool_decide_eq_false; [apply bool_decide_ext..|];
    unfold codes_FailedPrecondition, codes_NotFound in *; naive_solver.
Qed.
End rpc_facts.

(** [C32] What an error of the remote group becomes at the caller of the peer
    client.  For an error without a gRPC status, context errors included, the
    caller sees [ErrTopologyChanged] exactly when the remote node is not (or no
    longer) the owner, [ErrCacheMiss] exactly when it reported a miss and no
    topology change, and no other sentinel of the package: cancellation and
    deadline errors of the remote node, a closed group and the errors of the
    source lose their identity.  For an error that is itself a gRPC status of
    the code [c], as a source may return, the caller sees [ErrTopologyChanged]
    exactly when [c] is FailedPrecondition, [ErrCacheMiss] exactly when it is
    NotFound, and no other sentinel. *)
Theorem rpc_error_classification `{GrpcLaws} what addr err :
  (hasStatus err = false →
    (errors_Is (remoteError what addr err) ErrTopologyChanged = true ↔
       errors_Is err ErrNotOwner = true ∨ errors_Is err ErrTopologyChanged = true ∨ errors_Is err ErrNoOwner = true) ∧
    (errors_Is (remoteError what addr err) ErrCacheMiss = true ↔
       errors_Is err ErrCacheMiss = true ∧ errors_Is err ErrNotOwner = false ∧
       errors_Is err ErrTopologyChanged = false ∧ errors_Is err ErrNoOwner = false) ∧
    (∀ s, s ≠ ErrTopologyChanged → s ≠ ErrCacheMiss → errors_Is (remoteError what addr err) s = false)) ∧
  (∀ c m, err = Status c m → c ≠ codes_OK →
    (errors_Is (remoteError what addr err) ErrTopologyChanged = true ↔ c = codes_FailedPrecondition) ∧
    (errors_Is (remoteError what addr err) ErrCacheMiss = true ↔ c = codes_NotFound) ∧
    (∀ s, s ≠ ErrTopologyChanged → s ≠ ErrCacheMiss → errors_Is (remoteError what addr err) s = false)).
Proof.
  split.
  - intros Hs. setoid_rewrite (remoteError_Is what addr err); [|done..]. unfold remoteSentinel.
    destruct (errors_Is err ErrNotOwner), (errors_Is err ErrTopologyChanged), (errors_Is err ErrNoOwner),
      (errors_Is err ErrCacheMiss); simpl; (split_and!; [..|intros s Ht Hc]);
      rewrite ?bool_decide_eq_true, ?bool_decide_eq_false; naive_solver congruence.
  - intros c m -> Hc. setoid_rewrite remoteError_Status_Is; [|done..].
    split_and!; [..|intros s Ht Hm]; rewrite ?bool_decide_eq_true, ?bool_decide_eq_false; naive_solver congruence.
Qed.

Lemma rpc_error_classification_witness :
  errors_Is (@remoteError grpc_impl "grpc get from " "b:1" (withOwner ErrNotOwner "c:1")) ErrTopologyChanged = true ∧
  errors_Is (@remoteError grpc_impl "grpc get from " "b:1" (Wrap [Lit "get"] ContextCanceled [])) ContextCanceled = false ∧
  errors_Is (@remoteError grpc_impl "grpc get from " "b:1" (Status codes_NotFound [])) ErrCacheMiss = true.
Proof.
  pose proof grpc_impl_laws as L. split_and!.
  - apply (@rpc_error_classification grpc_impl L "grpc get from " "b:1" (withOwner ErrNotOwner "c:1"));
      [reflexivity|left; reflexivity].
  - apply (@rpc_error_classification grpc_impl L "grpc get from " "b:1" (Wrap [Lit "get"] ContextCanceled []));
      [reflexivity|discriminate..].
  - apply (@rpc_error_classification grpc_impl L "grpc get from " "b:1" (Status codes_NotFound []) ) with (m := []) (c := codes_NotFound);
      [reflexivity|discriminate|reflexivity].
Defined.
