(* ===== verification/Registry.v ===== *)
(** * Service registration (registry/register.go)

    The keys of the service directory, the normalisation of advertised
    addresses ([net.SplitHostPort] and [net.JoinHostPort] included), and the
    life of a registration.  etcd is not part of the sources: what its client
    answers is an argument of the operations, and the calls made are logged. *)

From S2P Require Import Prelude Errors.

(** ** Configuration and keys *)

Record Config := mkConfig { Endpoints : list string; DialTimeout : Z; LeaseTTL : Z }.
Definition DefaultConfig : Config :=
  {| Endpoints := ["localhost:2379"]; DialTimeout := 5 * Second; LeaseTTL := 10 |}.

Definition ServicePrefix (svcName : string) : string := "/services/" +:+ svcName +:+ "/".
Definition ServiceKey (svcName addr : string) : string := ServicePrefix svcName +:+ addr.

(** ** Host and port

    Go strings as lists of characters; [IndexByte] and [LastIndexByte] return
    [None] for -1. *)

Notation chars := (list Ascii.ascii).
Definition chr (s : string) : Ascii.ascii := match s with String a _ => a | EmptyString => Ascii.zero end.
Definition colon : Ascii.ascii := chr ":".
Definition lbracket : Ascii.ascii := chr "[".
Definition rbracket : Ascii.ascii := chr "]".

Definition IndexByte (l : chars) (c : Ascii.ascii) : option nat := fst <$> list_find (c =.) l.
Definition LastIndexByte (l : chars) (c : Ascii.ascii) : option nat :=
  (λ i, (length l - 1 - i)%nat) <$> IndexByte (reverse l) c.
Definition hasByte (l : chars) (c : Ascii.ascii) : bool :=
  match IndexByte l c with Some _ => true | None => false end.

Definition addrErr (why : string) : (string + (chars * chars))%type := inl why.

(** [net.SplitHostPort]. *)
Definition SplitHostPort (hostport : chars) : string + (chars * chars) :=
  match LastIndexByte hostport colon with
  | None => addrErr "missing port in address"
  | Some i =>
      let finish (host : chars) (j k : nat) :=
        if hasByte (drop j hostport) lbracket then addrErr "unexpected '[' in address"
        else if hasByte (drop k hostport) rbracket then addrErr "unexpected ']' in address"
        else inr (host, drop (i + 1) hostport) in
      if decide (hostport !! 0%nat = Some lbracket) then
        match IndexByte hostport rbracket with
        | None => addrErr "missing ']' in address"
        | Some end_ =>
            if decide (end_ + 1 = length hostport)%nat then addrErr "missing port in address"
            else if decide (end_ + 1 = i)%nat
                 then finish (take (end_ - 1) (drop 1 hostport)) 1%nat (end_ + 1)%nat
            else if decide (hostport !! (end_ + 1)%nat = Some colon) then addrErr "too many colons in address"
            else addrErr "missing port in address"
        end
      else
        let host := take i hostport in
        if hasByte host colon then addrErr "too many colons in address" else finish host 0%nat 0%nat
  end.

(** [net.JoinHostPort]. *)
Definition JoinHostPort (host port : chars) : chars :=
  if hasByte host colon then lbracket :: host ++ rbracket :: colon :: port
  else host ++ colon :: port.

(** [strings.Trim(host, "\[\]")]. *)
Definition isBracket (c : Ascii.ascii) : bool := bool_decide (c = lbracket) || bool_decide (c = rbracket).
Fixpoint trimLeft (l : chars) : chars :=
  match l with [] => [] | c :: l' => if isBracket c then trimLeft l' else l end.
Definition TrimBrackets (l : chars) : chars := reverse (trimLeft (reverse (trimLeft l))).

(** ** The local address

    [net.InterfaceAddrs] asks the operating system: its answer is an argument.
    An [*net.IPNet] carries the bytes of its IP. *)

Inductive netAddr := IPNet (ip : list Z) | OtherAddr.

(** [net.IP.To4] and [net.IP.IsLoopback]. *)
Definition To4 (ip : list Z) : option (list Z) :=
  if decide (length ip = 4%nat) then Some ip
  else if decide (length ip = 16%nat ∧ take 10 ip = replicate 10 0 ∧ take 2 (drop 10 ip) = [255; 255])
       then Some (drop 12 ip) else None.
Definition IsLoopback (ip : list Z) : bool :=
  match To4 ip with
  | Some ip4 => bool_decide (ip4 !! 0%nat = Some 127)
  | None => bool_decide (ip = replicate 15 0 ++ [1])
  end.

(** [net.IP.String] of a 4-byte address. *)
Fixpoint dotted (ip : list Z) : string :=
  match ip with [] => "" | [x] => pretty x | x :: ip' => pretty x +:+ "." +:+ dotted ip' end.

Fixpoint firstIPv4 (addrs : list netAddr) : option string :=
  match addrs with
  | [] => None
  | OtherAddr :: addrs' => firstIPv4 addrs'
  | IPNet ip :: addrs' =>
      if negb (IsLoopback ip)
      then match To4 ip with Some ip4 => Some (dotted ip4) | None => firstIPv4 addrs' end
      else firstIPv4 addrs'
  end.

Definition GetLocalIP (addrs : error + list netAddr) : error + string :=
  match addrs with
  | inl err => inl err
  | inr addrs => match firstIPv4 addrs with
                 | Some ip => inr ip
                 | None => inl (Text [Lit "no routable IPv4 address found"])
                 end
  end.

Definition toChars (s : string) : chars := String.list_ascii_of_string s.
Definition ofChars (l : chars) : string := String.string_of_list_ascii l.

Definition wildcardHost (host : string) : bool :=
  String.eqb host "" || String.eqb host "0.0.0.0" || String.eqb host "::" || String.eqb host "[::]".

Definition NormalizeAddress (ifaces : error + list netAddr) (addr : string) : error + string :=
  match SplitHostPort (toChars addr) with
  | inl err => inl (Wrap [Lit "invalid address "; Quoted addr; Lit ": "] (Text [Lit err]) [])
  | inr (host, port) =>
      if decide (port = []) then inl (Text [Lit "missing port in address "; Quoted addr])
      else
        let host' := if wildcardHost (ofChars host)
                     then match GetLocalIP ifaces with inl err => inl err | inr h => inr (toChars h) end
                     else inr host in
        match host' with
        | inl err => inl err
        | inr host => inr (ofChars (JoinHostPort (TrimBrackets host) port))
        end
  end.

(** ** A registration

    Calls made on the etcd client, in order. *)
Inductive etcdCall :=
| EGrant (ttl : Z)
| EPut (key value : string) (lease : Z)
| EKeepAlive (lease : Z)
| ERevoke (lease : Z).

(** What the client answers to [Register]'s three calls. *)
Record etcdAnswers := mkAnswers { ans_grant : error + Z; ans_put : option error; ans_keepAlive : option error }.

(** [r_cancelled]: the context of the keep-alive is cancelled; [r_once]: the
    body of [Close] has run. *)
Record Registration := mkRegistration { leaseID : Z; r_cancelled : bool; r_once : bool }.

(** The second component tells whether the keep-alive context was cancelled on
    return, the third is the log. *)
Definition Register (cli : bool) (svcName addr : string) (ttl : Z) (a : etcdAnswers) :
    (error + Registration) * bool * list etcdCall :=
  if negb cli then (inl (Text [Lit "nil etcd client"]), false, [])
  else
    let ttl := if ttl <=? 0 then LeaseTTL DefaultConfig else ttl in
    match ans_grant a with
    | inl err => (inl (Wrap [Lit "grant etcd lease: "] err []), true, [EGrant ttl])
    | inr lease =>
        let log := [EGrant ttl; EPut (ServiceKey svcName addr) addr lease] in
        match ans_put a with
        | Some err => (inl (Wrap [Lit "register service in etcd: "] err []), true, log)
        | None =>
            match ans_keepAlive a with
            | Some err => (inl (Wrap [Lit "keep etcd lease alive: "] err []), true, log ++ [EKeepAlive lease])
            | None => (inr (mkRegistration lease false false), false, log ++ [EKeepAlive lease])
            end
        end
    end.

(** [Close] of a possibly nil registration.  [ctxErr] is the context's error
    when it ends before the keep-alive goroutine does, [revoke] the answer of
    etcd. *)
Definition Close (ctxErr revoke : option error) (r : option Registration) :
    option Registration * option error * list etcdCall :=
  match r with
  | None => (None, None, [])
  | Some r =>
      if r_once r then (Some r, None, [])
      else (Some (mkRegistration (leaseID r) true true),
            match ctxErr with Some e => Some e | None => revoke end, [ERevoke (leaseID r)])
  end.
