(* ===== verification/RegistryFacts.v ===== *)
(** * Correctness of service registration

    Splitting and joining of addresses are inverse, normalisation is idempotent,
    and a registration puts its key under a live lease and revokes it once. *)

From S2P Require Import Prelude Errors Registry.

(** ** Byte search *)

Lemma IndexByte_None l c : IndexByte l c = None ↔ c ∉ l.
Proof.
  unfold IndexByte. rewrite fmap_None, list_find_None, Forall_forall. split.
  - intros Hf Hin. by apply (Hf c).
  - by intros Hn x Hx ->.
Qed.

Lemma hasByte_false l c : hasByte l c = false ↔ c ∉ l.
Proof. unfold hasByte. rewrite <-IndexByte_None. by destruct (IndexByte l c). Qed.

Lemma hasByte_true l c : hasByte l c = true ↔ c ∈ l.
Proof. rewrite <-(not_false_iff_true (hasByte l c)), hasByte_false. by destruct (decide (c ∈ l)); naive_solver. Qed.

Lemma IndexByte_app l1 l2 c : c ∉ l1 → IndexByte (l1 ++ c :: l2) c = Some (length l1).
Proof.
  intros Hn. unfold IndexByte. rewrite (proj2 (list_find_Some _ _ (length l1) c)); [done|].
  split_and!; [by rewrite list_lookup_middle|done|]. intros j y Hj Hlt <-.
  rewrite lookup_app_l in Hj by done. by apply list_elem_of_lookup_2 in Hj.
Qed.

Lemma IndexByte_Some l c i : IndexByte l c = Some i → l = take i l ++ c :: drop (i + 1) l ∧ c ∉ take i l.
Proof.
  unfold IndexByte. intros ([j y] & Hf & ->)%fmap_Some. simpl.
  apply list_find_Some in Hf as (Hj & -> & Hlt). split.
  - rewrite Nat.add_1_r. by rewrite take_drop_middle.
  - intros (k & Hk)%list_elem_of_lookup. apply lookup_take_Some in Hk as [Hk ?]. by eapply Hlt.
Qed.

Lemma LastIndexByte_app l1 l2 c : c ∉ l2 → LastIndexByte (l1 ++ c :: l2) c = Some (length l1).
Proof.
  intros Hn. unfold LastIndexByte. rewrite reverse_app, reverse_cons, <-app_assoc. simpl.
  rewrite IndexByte_app by (by rewrite elem_of_reverse). csimpl. f_equal.
  rewrite length_reverse, length_app. simpl. lia.
Qed.

Lemma LastIndexByte_Some l c i :
  LastIndexByte l c = Some i → l = take i l ++ c :: drop (i + 1) l ∧ c ∉ drop (i + 1) l.
Proof.
  unfold LastIndexByte. intros (j & Hj & ->)%fmap_Some.
  apply IndexByte_Some in Hj as [Heq Hn].
  set (a := take j (reverse l)) in *. set (b := drop (j + 1) (reverse l)) in *.
  assert (length a = j) as Hlen.
  { apply (f_equal length) in Heq. unfold a. rewrite length_take. revert Heq. rewrite length_app. simpl.
    unfold a, b. rewrite length_take, length_drop. lia. }
  assert (l = reverse b ++ c :: reverse a) as Hl.
  { rewrite <-(reverse_involutive l), Heq, reverse_app, reverse_cons, <-app_assoc. done. }
  assert (length l - 1 - j = length (reverse b))%nat as ->.
  { rewrite Hl, length_app. simpl. rewrite !length_reverse. lia. }
  assert (drop (length (reverse b) + 1) l = reverse a) as Hd.
  { rewrite Hl, drop_app_add. done. }
  split; [|by rewrite Hd, elem_of_reverse].
  rewrite Hd, Hl at 1. by rewrite Hl, take_app_length.
Qed.

(** ** Splitting and joining *)

Definition plain (l : chars) : Prop := (lbracket ∉ l) ∧ (rbracket ∉ l).

(** What a successful split guarantees. *)
Lemma SplitHostPort_parts l host port :
  SplitHostPort l = inr (host, port) → plain host ∧ plain port ∧ colon ∉ port.
Proof.
  unfold SplitHostPort, addrErr, plain. intros Hs.
  destruct (LastIndexByte l colon) as [i|] eqn:Hi; [|done].
  apply LastIndexByte_Some in Hi as [Hl Hc].
  destruct (decide (l !! 0%nat = Some lbracket)) as [H0|H0].
  - destruct (IndexByte l rbracket) as [e|] eqn:He; [|done].
    apply IndexByte_Some in He as [Hle Hne].
    destruct (decide (e + 1 = length l)%nat); [done|].
    destruct (decide (e + 1 = i)%nat) as [<-|]; [|by case_decide].
    destruct (hasByte (drop 1 l) lbracket) eqn:H1; [done|]. destruct (hasByte (drop (e + 1) l) rbracket) eqn:H2; [done|].
    apply hasByte_false in H1, H2. simplify_eq.
    assert (∀ x, x ∈ take (e - 1) (drop 1 l) → x ∈ drop 1 l ∧ x ∈ take e l) as Hsub.
    { intros x (k & [Hk Hlt]%lookup_take_Some)%list_elem_of_lookup. rewrite lookup_drop in Hk.
      split; [by eapply (list_elem_of_lookup_2 _ k); rewrite lookup_drop|].
      eapply (list_elem_of_lookup_2 _ (1 + k)). apply lookup_take_Some. split; [done|lia]. }
    assert (∀ x, x ∈ drop (e + 1 + 1) l → x ∈ drop 1 l ∧ x ∈ drop (e + 1) l) as Hsub'.
    { intros x (k & Hk)%list_elem_of_lookup. rewrite lookup_drop in Hk. split.
      - eapply (list_elem_of_lookup_2 _ (e + 1 + k)). rewrite lookup_drop, <-Hk. f_equal. lia.
      - eapply (list_elem_of_lookup_2 _ (1 + k)). rewrite lookup_drop, <-Hk. f_equal. lia. }
    split_and!; try done; intros Hx.
    + by apply H1, Hsub.
    + by apply Hne, Hsub.
    + by apply H1, Hsub'.
    + by apply H2, Hsub'.
  - destruct (hasByte (take i l) colon) eqn:H1; [done|]. rewrite !drop_0 in Hs.
    destruct (hasByte l lbracket) eqn:H2; [done|]. destruct (hasByte l rbracket) eqn:H3; [done|].
    apply hasByte_false in H1, H2, H3. simplify_eq. rewrite Hl in H2, H3.
    rewrite not_elem_of_app, not_elem_of_cons in H2, H3. naive_solver.
Qed.

Lemma colon_ne : colon ≠ lbracket ∧ colon ≠ rbracket ∧ lbracket ≠ rbracket.
Proof. by vm_compute. Qed.

(** Splitting undoes joining, for a host and a port such as splitting gives. *)
Lemma SplitHostPort_Join host port :
  plain host → plain port → colon ∉ port → SplitHostPort (JoinHostPort host port) = inr (host, port).
Proof.
  intros [Hh1 Hh2] [Hp1 Hp2] Hc. destruct colon_ne as (Hcl & Hcr & Hlr).
  unfold JoinHostPort. destruct (hasByte host colon) eqn:Hhc.
  - set (l := lbracket :: host ++ rbracket :: colon :: port).
    assert (l = (lbracket :: host ++ [rbracket]) ++ colon :: port) as Hl
      by (unfold l; simpl; by rewrite <-app_assoc).
    assert (l = (lbracket :: host) ++ rbracket :: colon :: port) as Hl' by done.
    unfold SplitHostPort. rewrite Hl at 1. rewrite LastIndexByte_app by done.
    rewrite decide_True by done. rewrite Hl' at 1. rewrite IndexByte_app by set_solver.
    simpl length. rewrite !length_app. simpl length.
    rewrite decide_False by lia.
    rewrite decide_True by lia.
    replace (S (length host) - 1)%nat with (length host) by lia.
    replace (drop (S (length host) + 1) l) with (colon :: port).
    2:{ rewrite Hl'. replace (S (length host) + 1)%nat with (length (lbracket :: host) + 1)%nat by (simpl; lia).
        by rewrite drop_app_add. }
    rewrite (proj2 (hasByte_false (drop 1 l) lbracket)) by (unfold l; simpl; set_solver).
    rewrite (proj2 (hasByte_false (colon :: port) rbracket)) by set_solver.
    change (drop 1 l) with (host ++ rbracket :: colon :: port). rewrite take_app_length. do 2 f_equal.
    replace (S (length host + 1) + 1)%nat with (length (lbracket :: host ++ [rbracket]) + 1)%nat
      by (simpl; rewrite length_app; simpl; lia).
    by rewrite Hl, drop_app_add.
  - apply hasByte_false in Hhc. unfold SplitHostPort. rewrite LastIndexByte_app by done.
    rewrite decide_False.
    2:{ destruct host as [|x host]; simpl; [congruence|]. intros [= ->]. set_solver. }
    rewrite take_app_length, (proj2 (hasByte_false host colon)) by done. rewrite !drop_0.
    rewrite !(proj2 (hasByte_false (host ++ colon :: port) _)) by set_solver.
    by rewrite drop_app_add.
Qed.

Lemma trimLeft_plain l : plain l → trimLeft l = l.
Proof.
  intros [H1 H2]. destruct l as [|c l]; [done|]. simpl. unfold isBracket.
  rewrite !bool_decide_eq_false_2 by set_solver. done.
Qed.

Lemma TrimBrackets_plain l : plain l → TrimBrackets l = l.
Proof.
  intros Hp. unfold TrimBrackets. rewrite (trimLeft_plain l) by done. rewrite trimLeft_plain; [by rewrite reverse_involutive|].
  destruct Hp. split; by rewrite elem_of_reverse.
Qed.

Lemma trimLeft_sub l c : c ∈ trimLeft l → c ∈ l.
Proof. induction l as [|x l IH]; simpl; [done|]. case_match; set_solver. Qed.

Lemma toChars_ofChars l : toChars (ofChars l) = l.
Proof. apply String.list_ascii_of_string_of_list_ascii. Qed.
Lemma ofChars_toChars s : ofChars (toChars s) = s.
Proof. apply String.string_of_list_ascii_of_string. Qed.

(** ** Normalisation *)

Lemma string_all_chars P s c : string_all P s = true → P c = false → c ∉ toChars s.
Proof.
  intros Hs Hc. induction s as [|a s IH]; simpl in *; [set_solver|].
  apply andb_prop in Hs as [Ha Hs]. apply not_elem_of_cons. split; [|by apply IH].
  intros ->. by rewrite Ha in Hc.
Qed.

Definition ip_char (a : Ascii.ascii) : bool := numeral_char a || bool_decide (a = chr ".").

Lemma dotted_ip ip : string_all ip_char (dotted ip) = true.
Proof.
  assert (∀ z : Z, string_all ip_char (pretty z) = true) as Hz.
  { intros z. pose proof (pretty_numeral z) as Hp. induction (pretty z) as [|a s IH]; [done|].
    simpl in *. apply andb_prop in Hp as [Ha Hp]. unfold ip_char at 1. rewrite Ha. simpl. by apply IH. }
  induction ip as [|x ip IH]; [done|]. simpl. destruct ip; [apply Hz|].
  by rewrite !string_all_app, Hz, IH.
Qed.

Lemma GetLocalIP_plain ifaces ip : GetLocalIP ifaces = inr ip → plain (toChars ip).
Proof.
  unfold GetLocalIP. destruct ifaces as [|addrs]; [done|]. destruct (firstIPv4 addrs) as [s|] eqn:Hf; [|done].
  intros [= <-]. assert (∃ l, s = dotted l) as [l ->].
  { clear -Hf. induction addrs as [|[i|] addrs IH]; simpl in Hf; [done| |by auto].
    repeat case_match; simplify_eq; eauto. }
  split; eapply string_all_chars; by apply dotted_ip || done.
Qed.

Lemma NormalizeAddress_spec ifaces addr b :
  NormalizeAddress ifaces addr = inr b →
  ∃ host port, b = ofChars (JoinHostPort host port) ∧ plain host ∧ plain port ∧ colon ∉ port ∧ port ≠ [] ∧
               (wildcardHost (ofChars host) = false ∨ GetLocalIP ifaces = inr (ofChars host)).
Proof.
  unfold NormalizeAddress. destruct (SplitHostPort _) as [|[host port]] eqn:Hs; [done|].
  apply SplitHostPort_parts in Hs as (Hh & Hp & Hc). case_decide as Hne; [done|].
  destruct (wildcardHost (ofChars host)) eqn:Hw.
  - destruct (GetLocalIP ifaces) as [|ip] eqn:Hip; [done|]. intros [= <-].
    pose proof (GetLocalIP_plain _ _ Hip) as Hpl. exists (toChars ip), port.
    rewrite TrimBrackets_plain by done. split_and!; try done. right. by rewrite ofChars_toChars.
  - intros [= <-]. exists host, port. rewrite TrimBrackets_plain by done. auto 10.
Qed.

Lemma NormalizeAddress_again ifaces addr b :
  NormalizeAddress ifaces addr = inr b →
  NormalizeAddress ifaces b = inr b ∧
  ∃ host port, SplitHostPort (toChars b) = inr (host, port) ∧ port ≠ [] ∧
    (wildcardHost (ofChars host) = true → GetLocalIP ifaces = inr (ofChars host)).
Proof.
  intros (host & port & -> & Hh & Hp & Hc & Hne & Hw)%NormalizeAddress_spec.
  pose proof (SplitHostPort_Join host port Hh Hp Hc) as Hs. rewrite toChars_ofChars. split.
  - unfold NormalizeAddress. rewrite toChars_ofChars, Hs, decide_False by done.
    destruct (wildcardHost (ofChars host)) eqn:Hwc.
    + destruct Hw as [|Hip]; [done|]. rewrite Hip, toChars_ofChars. by rewrite TrimBrackets_plain.
    + by rewrite TrimBrackets_plain.
  - exists host, port. split_and!; [done|done|]. intros Hwc. destruct Hw as [Hw|]; [congruence|done].
Qed.

(** [C28] [NormalizeAddress] is idempotent: an address it returns is accepted and
    returned unchanged, splits into a host without brackets and a non-empty
    port, and names a wildcard host only if that is the local IP.  A node thus
    names itself the same way wherever it normalises its address. *)
Theorem normalize_idempotent ifaces addr b :
  NormalizeAddress ifaces addr = inr b →
  NormalizeAddress ifaces b = inr b ∧
  ∃ host port, SplitHostPort (toChars b) = inr (host, port) ∧ port ≠ [] ∧
    (wildcardHost (ofChars host) = true → GetLocalIP ifaces = inr (ofChars host)).
Proof. apply NormalizeAddress_again. Qed.

Lemma normalize_idempotent_witness :
  NormalizeAddress (inr [IPNet [127; 0; 0; 1]; IPNet [10; 0; 0; 7]]) ":8001" = inr "10.0.0.7:8001" ∧
  NormalizeAddress (inr [IPNet [127; 0; 0; 1]; IPNet [10; 0; 0; 7]]) "10.0.0.7:8001" = inr "10.0.0.7:8001".
Proof.
  split; [vm_compute; reflexivity|].
  apply (normalize_idempotent (inr [IPNet [127; 0; 0; 1]; IPNet [10; 0; 0; 7]]) ":8001"). vm_compute. reflexivity.
Defined.

(** Examples of the documented behaviour of the standard library's functions. *)
Lemma normalize_examples :
  NormalizeAddress (inr []) "[fe80::1]:80" = inr "[fe80::1]:80" ∧
  NormalizeAddress (inr [IPNet [10; 0; 0; 7]]) "[::]:80" = inr "10.0.0.7:80" ∧
  SplitHostPort (toChars "a:b:c") = inl "too many colons in address" ∧
  SplitHostPort (toChars "host") = inl "missing port in address" ∧
  SplitHostPort (toChars "[::1]") = inl "missing port in address" ∧
  NormalizeAddress (inr []) ":80" = inl (Text [Lit "no routable IPv4 address found"]).
Proof. by vm_compute. Qed.

(** ** Registration *)

(** A registration that succeeds has put the node's key under the lease it
    keeps alive, with a positive time to live; one that fails leaves no
    keep-alive running. *)
Lemma Register_outcome cli svc addr ttl a :
  match Register cli svc addr ttl a with
  | (inr r, cancelled, log) =>
      cancelled = false ∧ r_once r = false ∧
      ∃ ttl', 0 < ttl' ∧ (0 < ttl → ttl' = ttl) ∧
        log = [EGrant ttl'; EPut (ServiceKey svc addr) addr (leaseID r); EKeepAlive (leaseID r)]
  | (inl _, cancelled, log) => cli = true → cancelled = true
  end.
Proof.
  unfold Register. destruct cli; [|done]. simpl.
  destruct (ans_grant a), (ans_put a), (ans_keepAlive a); try done.
  split_and!; [done|done|]. exists (if ttl <=? 0 then 10 else ttl). simpl.
  destruct (Z.leb_spec ttl 0); (split_and!; [lia|lia|done]).
Qed.

(** However often it is called, [Close] revokes the lease once. *)
Lemma Close_once ctxErr revoke ctxErr' revoke' r :
  r_once r = false →
  let '(r1, _, log1) := Close ctxErr revoke (Some r) in
  let '(r2, err2, log2) := Close ctxErr' revoke' r1 in
  log1 = [ERevoke (leaseID r)] ∧ log2 = [] ∧ err2 = None ∧ r2 = r1.
Proof. intros Hr. unfold Close. rewrite Hr. by simpl. Qed.
