(* ===== verification/Peers.v ===== *)
(** * Membership and routing (peers.go, client.go: NewClient and Close)

    [ClientPicker] mirrors the service directory: the set of members, the hash
    ring over them, one client per remote member and an epoch that numbers the
    memberships seen.  Its methods hold [p.mu], so each is one transformer of
    the state.  etcd and the dialling of gRPC connections are not part of the
    sources: their answers are arguments of the operations.

    Connections are numbered in the order in which they are opened, and closed
    ones are recorded, so that the ownership of connections can be stated. *)

From S2P Require Import Prelude Hashes ConsistentHash Errors Registry.
Module CH := ConsistentHash.

Definition defaultSvcName : string := "locache".

(** ** Clients *)

(** [cl_conn] is the number of the connection. *)
Record Client := mkClient { cl_addr : string; cl_rpcTimeout : Z; cl_conn : nat }.

#[export] Instance Client_eq_dec : EqDecision Client.
Proof. solve_decision. Defined.

(** [dial] is the error of [grpc.NewClient], if any. *)
Definition NewClient (addr : string) (rpcTimeout : Z) (conn : nat) (dial : option error) : error + Client :=
  let rpcTimeout := if rpcTimeout <=? 0 then 3 * Second else rpcTimeout in
  match dial with
  | Some err => inl (Wrap [Lit "create grpc client for "; Lit addr; Lit ": "] err [])
  | None => inr (mkClient addr rpcTimeout conn)
  end.

(** ** The picker *)

Record ClientPicker := mkPicker {
  selfAddr : string;
  svcName : string;
  ring : CH.Map;
  members : gset string;
  clients : gmap string Client;
  endpoints : list string;
  dialTO : Z;
  rpcTO : Z;
  hashReplicas : Z;
  epoch : Z;
  cancelled : bool;            (* p.ctx is cancelled *)
  closeOnce : bool;            (* the body of Close has run *)
  nextConn : nat;              (* number of connections opened *)
  closedConns : list nat       (* connections closed *)
}.

(** Replacement of the mutable part of the state. *)
Definition withMembership (p : ClientPicker) (r : CH.Map) (ms : gset string) (cs : gmap string Client)
    (e : Z) (next : nat) (closed : list nat) : ClientPicker :=
  mkPicker (selfAddr p) (svcName p) r ms cs (endpoints p) (dialTO p) (rpcTO p) (hashReplicas p)
    e (cancelled p) (closeOnce p) next closed.

Inductive PickerOption :=
| WithServiceName (name : string)
| WithPickerEtcdEndpoints (eps : list string)
| WithPickerDialTimeout (timeout : Z)
| WithPeerRPCTimeout (timeout : Z)
| WithHashReplicas (replicas : Z).

Definition applyPickerOption (o : PickerOption) (p : ClientPicker) : ClientPicker :=
  let '(mkPicker self svc r ms cs eps dto rto reps e can once next closed) := p in
  match o with
  | WithServiceName name =>
      if decide (name = "") then p else mkPicker self name r ms cs eps dto rto reps e can once next closed
  | WithPickerEtcdEndpoints eps' =>
      if decide (eps' = []) then p else mkPicker self svc r ms cs eps' dto rto reps e can once next closed
  | WithPickerDialTimeout t =>
      if 0 <? t then mkPicker self svc r ms cs eps t rto reps e can once next closed else p
  | WithPeerRPCTimeout t =>
      if 0 <? t then mkPicker self svc r ms cs eps dto t reps e can once next closed else p
  | WithHashReplicas n =>
      if 0 <? n
      then mkPicker self svc (CH.New [CH.WithReplicas n]) ms cs eps dto rto n e can once next closed else p
  end.

(** ** Membership changes *)

Definition sameMembers (a b : gset string) : bool :=
  if negb (size a =? size b)%nat then false else forallb (λ k, bool_decide (k ∈ b)) (elements a).

(** One iteration of the loop of [replaceMembership] that fills [newClients];
    [dial] answers for each address. *)
Definition replaceClient (p : ClientPicker) (dial : string → option error)
    (st : gmap string Client * nat) (addr : string) : gmap string Client * nat :=
  let '(newClients, next) := st in
  if decide (addr = selfAddr p) then st
  else match clients p !! addr with
       | Some existing => (<[addr := existing]> newClients, next)
       | None =>
           match NewClient addr (rpcTO p) next (dial addr) with
           | inl _ => st
           | inr client => (<[addr := client]> newClients, S next)
           end
       end.

Definition sortStrings (s : gset string) : list string := merge_sort String.le (elements s).

Definition replaceMembership (dial : string → option error) (desired : gset string) (p : ClientPicker) : ClientPicker :=
  if sameMembers (members p) desired then p
  else
    let sorted := sortStrings desired in
    let newRing := (CH.Add sorted (CH.New [CH.WithReplicas (hashReplicas p)])).1 in
    let '(newClients, next) := foldl (replaceClient p dial) (∅, nextConn p) sorted in
    let dropped := filter (λ '(addr, _), newClients !! addr = None) (clients p) in
    withMembership p newRing desired newClients (uint64 (epoch p + 1)) next
      (closedConns p ++ (cl_conn <$> (map_to_list dropped).*2)).

Definition addMember (dial : string → option error) (addr : string) (p : ClientPicker) : ClientPicker :=
  if decide (addr = "") then p
  else if decide (addr ∈ members p) then p
  else
    let ring' := (CH.Add [addr] (ring p)).1 in
    let '(clients', next) :=
      if decide (addr = selfAddr p) then (clients p, nextConn p)
      else match NewClient addr (rpcTO p) (nextConn p) (dial addr) with
           | inl _ => (clients p, nextConn p)
           | inr client => (<[addr := client]> (clients p), S (nextConn p))
           end in
    withMembership p ring' ({[addr]} ∪ members p) clients' (uint64 (epoch p + 1)) next (closedConns p).

Definition removeMember (addr : string) (p : ClientPicker) : ClientPicker :=
  if decide (addr = "" ∨ addr = selfAddr p) then p
  else if decide (addr ∈ members p) then
    withMembership p (CH.Remove addr (ring p)).1 (members p ∖ {[addr]}) (delete addr (clients p))
      (uint64 (epoch p + 1)) (nextConn p)
      (closedConns p ++ match clients p !! addr with Some c => [cl_conn c] | None => [] end)
  else p.

(** ** The service directory *)

Definition parseAddrFromKey (key svc : string) : string :=
  let prefix := ServicePrefix svc in
  let n := String.length prefix in
  if (String.length key <=? n)%nat || negb (String.eqb (String.substring 0 n key) prefix) then ""
  else String.substring n (String.length key - n) key.

(** The address of a key and its value, in a snapshot and in a put event. *)
Definition addrOfPut (svc key value : string) : string :=
  if decide (value = "") then parseAddrFromKey key svc else value.

Definition desiredOf (p : ClientPicker) (kvs : list (string * string)) : gset string :=
  foldl (λ d '(k, v), let addr := addrOfPut (svcName p) k v in
                      if decide (addr = "") then d else {[addr]} ∪ d) {[selfAddr p]} kvs.

(** [resp]: the answer of etcd, its key-value pairs and revision.  Returns the
    revision to watch from. *)
Definition refreshSnapshot (dial : string → option error) (resp : error + (list (string * string) * Z))
    (p : ClientPicker) : ClientPicker * (error + Z) :=
  match resp with
  | inl err => (p, inl (Wrap [Lit "fetch service snapshot: "] err []))
  | inr (kvs, revision) => (replaceMembership dial (desiredOf p kvs) p, inr (int64 (revision + 1)))
  end.

Inductive watchEvent :=
| EventPut (key value : string)
| EventDelete (key : string) (prevValue : option string).

Definition handleEvent (dial : string → option error) (p : ClientPicker) (ev : watchEvent) : ClientPicker :=
  match ev with
  | EventPut key value => addMember dial (addrOfPut (svcName p) key value) p
  | EventDelete key prev =>
      let addr := parseAddrFromKey key (svcName p) in
      let addr := if decide (addr = "") then match prev with Some v => v | None => addr end else addr in
      removeMember addr p
  end.

(** What the watch goroutine receives: a response with events, or the end of
    the watch (an error response or a closed channel) followed by the answer to
    its request for a fresh snapshot. *)
Inductive watchInput :=
| WatchResponse (events : list watchEvent) (revision : Z)
| WatchBroken (snapshot : error + (list (string * string) * Z)).

(** One round of the loops of [watchServiceChanges]; [None] when the goroutine
    has returned. *)
Definition watchStep (dial : string → option error) (inp : watchInput) (st : Z * ClientPicker) :
    option (Z * ClientPicker) :=
  let '(rev, p) := st in
  match inp with
  | WatchResponse events revision =>
      Some (if rev <=? revision then int64 (revision + 1) else rev, foldl (handleEvent dial) p events)
  | WatchBroken snapshot =>
      if cancelled p then None
      else match refreshSnapshot dial snapshot p with
           | (p', inr next) => Some (next, p')
           | (p', inl _) => Some (rev, p')
           end
  end.

(** ** Construction *)

(** [etcdNew]: the error of [clientv3.New], if any; [snapshot]: the answer to
    the first request. *)
Definition NewClientPicker (ifaces : error + list netAddr) (addr : string) (opts : list PickerOption)
    (etcdNew : option error) (dial : string → option error)
    (snapshot : error + (list (string * string) * Z)) : error + (ClientPicker * Z) :=
  match NormalizeAddress ifaces addr with
  | inl err => inl err
  | inr self =>
      let p := mkPicker self defaultSvcName (CH.New []) ∅ ∅ (Endpoints DefaultConfig) (DialTimeout DefaultConfig)
                 (3 * Second) (CH.Replicas CH.DefaultConfig) 0 false false 0 [] in
      let p := foldl (λ p o, applyPickerOption o p) p opts in
      match etcdNew with
      | Some err => inl (Wrap [Lit "create etcd client: "] err [])
      | None =>
          let p := withMembership p (CH.Add [self] (ring p)).1 ({[self]} ∪ members p) (clients p) 1
                     (nextConn p) (closedConns p) in
          match refreshSnapshot dial snapshot p with
          | (_, inl err) => inl err
          | (p', inr next) => inr (p', next)
          end
      end
  end.

(** ** Routing *)

(** An interface value of type [Peer]: nil, or a [*Client] that may itself be
    nil. *)
Inductive Peer := PeerNil | PeerClient (c : option Client).

(** The results of [PickOwner]. *)
Record Pick := mkPick { pk_owner : string; pk_peer : Peer; pk_self : bool; pk_epoch : Z; pk_ok : bool }.

Definition PickOwner (key : string) (p : ClientPicker) : Pick :=
  let owner := CH.Get key (ring p) in
  if decide (owner = "") then mkPick "" PeerNil false (epoch p) false
  else if decide (owner = selfAddr p) then mkPick owner PeerNil true (epoch p) true
  else mkPick owner (PeerClient (clients p !! owner)) false (epoch p) true.

Definition Epoch (p : ClientPicker) : Z := epoch p.
Definition Members (p : ClientPicker) : list string := sortStrings (members p).

(** The lines [PrintPeers] logs. *)
Definition PrintPeers (p : ClientPicker) : list string := (λ addr, "- " +:+ addr) <$> Members p.

(** The addresses [Invalidate] calls. *)
Definition invalidateTargets (exceptOwner : string) (p : ClientPicker) : gmap string Client :=
  delete exceptOwner (clients p).

(** [answer] is what each peer's [Invalidate] returns, [order] the order in
    which the goroutines report: any permutation of the targets. *)
Definition Invalidate (answer : string → option error) (order : list string) (exceptOwner : string)
    (p : ClientPicker) : option error :=
  errors_Join (omap (λ addr, (λ e, Wrap [Lit "invalidate "; Lit addr; Lit ": "] e []) <$> answer addr)
                    (filter (λ addr, is_Some (invalidateTargets exceptOwner p !! addr)) order)).

(** [watchStops]: the watch goroutine ends within two seconds; [connErrs] and
    [etcdErr]: the errors of closing the clients, in order, and etcd. *)
Definition Close (watchStops : bool) (connErrs : list (option error)) (etcdErr : option error)
    (p : ClientPicker) : ClientPicker * option error :=
  if closeOnce p then (p, None)
  else
    let err := if watchStops then None
               else Some (Text [Lit "timed out waiting for membership watch to stop"]) in
    let first err e := match err with Some _ => err | None => e end in
    let err := first (foldl first err connErrs) etcdErr in
    (mkPicker (selfAddr p) (svcName p) (ring p) (members p) ∅ (endpoints p) (dialTO p) (rpcTO p)
       (hashReplicas p) (epoch p) true true (nextConn p)
       (closedConns p ++ (cl_conn <$> (map_to_list (clients p)).*2)), err).
