(* ===== verification/PeersFacts.v ===== *)
(** * Correctness of membership and routing

    The picker's ring is always the ring of its members, every remote member
    has at most one live connection and no connection is lost, the epoch tells
    memberships apart, and a picker that follows the directory routes every key
    as every other such picker does. *)

From S2P Require Import Prelude Hashes ConsistentHash RingFacts Errors Registry RegistryFacts Peers.

(** ** Facts about the helpers *)

Lemma sameMembers_iff a b : sameMembers a b = true ↔ a = b.
Proof.
  unfold sameMembers. destruct (Nat.eqb_spec (size a) (size b)) as [Hs|Hs]; simpl.
  - rewrite forallb_forall. split; [|by intros -> x Hx%list_elem_of_In%elem_of_elements; apply bool_decide_eq_true].
    intros Hall. apply leibniz_equiv, set_subseteq_size_equiv; [|lia]. intros x Hx.
    apply (bool_decide_unpack (x ∈ b)), Is_true_true, Hall, list_elem_of_In, elem_of_elements, Hx.
  - split; [done|]. by intros ->.
Qed.

Lemma elem_of_sortStrings s x : x ∈ sortStrings s ↔ x ∈ s.
Proof. unfold sortStrings. by rewrite merge_sort_Permutation, elem_of_elements. Qed.

Lemma list_to_set_sortStrings s : (list_to_set (sortStrings s) : gset string) = s.
Proof. apply set_eq. intros x. by rewrite elem_of_list_to_set, elem_of_sortStrings. Qed.

Lemma sortStrings_NoDup s : NoDup (sortStrings s).
Proof. unfold sortStrings. rewrite merge_sort_Permutation. apply NoDup_elements. Qed.

Lemma uint64_succ_ne e : 0 ≤ e < 2 ^ 64 → uint64 (e + 1) ≠ e ∧ 0 ≤ uint64 (e + 1) < 2 ^ 64.
Proof.
  intros He. unfold uint64. destruct (decide (e = 2 ^ 64 - 1)) as [->|].
  - replace (2 ^ 64 - 1 + 1) with (2 ^ 64) by lia. rewrite Z_mod_same_full. lia.
  - rewrite Z.mod_small by lia. lia.
Qed.

(** ** The invariant *)

Definition ringConfig (replicas : Z) : CH.Config := CH.mkConfig replicas ChecksumIEEE.

Definition liveConns (p : ClientPicker) : list nat := cl_conn <$> (map_to_list (clients p)).*2.

Record picker_wf (p : ClientPicker) : Prop := {
  pwf_ring : ring_wf (ring p);
  pwf_config : CH.config (ring p) = ringConfig (hashReplicas p);
  pwf_nodes : CH.nodes (ring p) = members p;
  pwf_self : selfAddr p ∈ members p;
  pwf_clients : dom (clients p) ⊆ members p ∖ {[selfAddr p]};
  pwf_addrs : ∀ a c, clients p !! a = Some c → cl_addr c = a;
  pwf_conns : liveConns p ++ closedConns p ≡ₚ seq 0 (nextConn p);
  pwf_epoch : 0 ≤ epoch p < 2 ^ 64
}.

Lemma pwf_nonempty p : picker_wf p → ("" ∉ members p) ∧ selfAddr p ≠ "" ∧ 0 < hashReplicas p.
Proof.
  intros Hwf. pose proof (rwf_nodes _ (pwf_ring p Hwf)) as Hn. rewrite (pwf_nodes p Hwf) in Hn.
  split_and!; [done| |].
  - intros Heq. pose proof (pwf_self p Hwf). congruence.
  - pose proof (rwf_replicas _ (pwf_ring p Hwf)) as Hr. by rewrite (pwf_config p Hwf) in Hr.
Qed.

Lemma New_WithReplicas n : 0 < n → CH.New [CH.WithReplicas n] = CH.mkMap (ringConfig n) [] ∅.
Proof. intros Hn. unfold CH.New. simpl. by rewrite (proj2 (Z.ltb_lt 0 n)). Qed.

(** The ring over a set of members. *)
Lemma ring_of_set n s :
  0 < n → "" ∉ s → s ≠ ∅ →
  let r := (CH.Add (sortStrings s) (CH.New [CH.WithReplicas n])).1 in
  ring_wf r ∧ CH.config r = ringConfig n ∧ CH.nodes r = s.
Proof.
  intros Hn He Hs r. assert (sortStrings s ≠ []) as Hne.
  { intros Heq. apply Hs, set_eq. intros x. rewrite <-elem_of_sortStrings, Heq. set_solver. }
  destruct (Add_spec (sortStrings s) (CH.New [CH.WithReplicas n]) (New_wf _) Hne) as (Hwf & Hc & Hnodes & _).
  fold r in Hwf, Hc, Hnodes. split; [done|]. rewrite Hc, Hnodes, New_WithReplicas by done. simpl.
  split; [done|]. rewrite list_to_set_sortStrings. set_solver.
Qed.

(** ** Preservation *)

Lemma liveConns_insert (cs : gmap string Client) a c :
  cs !! a = None → cl_conn <$> (map_to_list (<[a := c]> cs)).*2 ≡ₚ cl_conn c :: (cl_conn <$> (map_to_list cs).*2).
Proof. intros Hn. by rewrite map_to_list_insert. Qed.

Lemma liveConns_delete (cs : gmap string Client) a c :
  cs !! a = Some c → cl_conn <$> (map_to_list cs).*2 ≡ₚ cl_conn c :: (cl_conn <$> (map_to_list (delete a cs)).*2).
Proof. intros Hc. by rewrite <-(map_to_list_delete cs a c Hc). Qed.

Lemma NewClient_inr addr rto n d c : NewClient addr rto n d = inr c → cl_addr c = addr ∧ cl_conn c = n.
Proof. unfold NewClient. destruct d; [done|]. by intros [= <-]. Qed.

Lemma addMember_wf dial addr p : picker_wf p → picker_wf (addMember dial addr p).
Proof.
  intros Hwf. unfold addMember. case_decide as Ha; [done|]. case_decide as Hin; [done|].
  destruct (Add_spec [addr] (ring p) (pwf_ring p Hwf) ltac:(done)) as (Hr & Hc & Hn & _).
  set (r' := (CH.Add [addr] (ring p)).1) in *. clearbody r'. rewrite (pwf_nodes p Hwf) in Hn.
  pose proof (pwf_self p Hwf) as Hself. pose proof (pwf_clients p Hwf) as Hcl.
  assert (clients p !! addr = None) as Hnone by (apply not_elem_of_dom; set_solver).
  pose proof (uint64_succ_ne _ (pwf_epoch p Hwf)) as [_ He].
  assert (addr ≠ selfAddr p) as Hne by (intros ->; done). rewrite decide_False by done.
  destruct (NewClient addr (rpcTO p) (nextConn p) (dial addr)) as [e|c] eqn:Hnew.
  - split; simpl; [done|by rewrite Hc, (pwf_config p Hwf)|rewrite Hn; set_solver|set_solver|clear -Hcl; set_solver|apply Hwf..|done].
  - apply NewClient_inr in Hnew as [Hca Hcc].
    split; simpl; [done|by rewrite Hc, (pwf_config p Hwf)|rewrite Hn; set_solver|set_solver| | | |done].
    + rewrite dom_insert. clear -Hcl Hne. set_solver.
    + intros a c' [[<- <-]|[_ Ha']]%lookup_insert_Some; [done|by eapply pwf_addrs].
    + unfold liveConns. cbn [clients withMembership]. rewrite liveConns_insert by done.
      change (0%nat :: seq 1 (nextConn p)) with (seq 0 (S (nextConn p))). rewrite seq_S, Hcc. simpl.
      rewrite <-(pwf_conns p Hwf). unfold liveConns. solve_Permutation.
Qed.

Lemma removeMember_wf addr p : picker_wf p → picker_wf (removeMember addr p).
Proof.
  intros Hwf. unfold removeMember. case_decide as Ha; [done|]. case_decide as Hin; [|done].
  assert (addr ∈ CH.nodes (ring p)) as Hin' by (by rewrite (pwf_nodes p Hwf)).
  destruct (Remove_spec addr (ring p) (pwf_ring p Hwf) Hin') as (Hr & Hc & Hn & _).
  set (r' := (CH.Remove addr (ring p)).1) in *. clearbody r'. rewrite (pwf_nodes p Hwf) in Hn.
  pose proof (pwf_self p Hwf) as Hself. pose proof (pwf_clients p Hwf) as Hcl.
  pose proof (uint64_succ_ne _ (pwf_epoch p Hwf)) as [_ He].
  split; simpl; [done|by rewrite Hc, (pwf_config p Hwf)|done|set_solver| | | |done].
  - rewrite dom_delete. clear -Hcl. set_solver.
  - intros a c' [_ Ha']%lookup_delete_Some. by eapply pwf_addrs.
  - unfold liveConns. simpl. rewrite <-(pwf_conns p Hwf). unfold liveConns.
    destruct (clients p !! addr) as [c|] eqn:Hc'.
    + rewrite (liveConns_delete (clients p) addr c) by done. solve_Permutation.
    + by rewrite delete_id, app_nil_r.
Qed.

(** The clients that [replaceMembership] closes once [newClients] is built. *)
Definition droppedFrom (cs nc : gmap string Client) : gmap string Client :=
  filter (λ '(addr, _), nc !! addr = None) cs.

Lemma droppedFrom_insert cs nc a c : droppedFrom cs (<[a := c]> nc) = delete a (droppedFrom cs nc).
Proof.
  apply map_eq. intros b. unfold droppedFrom. apply option_eq. intros x.
  rewrite map_lookup_filter_Some, lookup_delete_Some, map_lookup_filter_Some.
  rewrite lookup_insert_None. naive_solver.
Qed.

(** What the loop over the desired members establishes. *)
Record replaced (p : ClientPicker) (seen : list string) (nc : gmap string Client) (next : nat) : Prop := {
  rep_dom : ∀ a, is_Some (nc !! a) → a ∈ seen ∧ a ≠ selfAddr p;
  rep_addrs : ∀ a c, nc !! a = Some c → cl_addr c = a;
  rep_kept : ∀ a, a ∈ seen → a ≠ selfAddr p → is_Some (clients p !! a) → nc !! a = clients p !! a;
  rep_next : (nextConn p ≤ next)%nat;
  rep_conns : (cl_conn <$> (map_to_list nc).*2) ++ (cl_conn <$> (map_to_list (droppedFrom (clients p) nc)).*2)
              ≡ₚ liveConns p ++ seq (nextConn p) (next - nextConn p)
}.

Lemma replaceClient_step p dial seen nc next addr :
  picker_wf p → replaced p seen nc next → addr ∉ seen →
  replaced p (addr :: seen) (replaceClient p dial (nc, next) addr).1 (replaceClient p dial (nc, next) addr).2.
Proof.
  intros Hwf [Hd Ha Hk Hn Hc] Hnin.
  assert (nc !! addr = None) as Hnone by (destruct (nc !! addr) eqn:?; [|done]; by destruct (Hd addr)).
  unfold replaceClient. destruct (decide (addr = selfAddr p)) as [->|Hne]; simpl.
  { split; try done; set_solver. }
  destruct (clients p !! addr) as [c|] eqn:Hcl; simpl.
  - split; try done.
    + intros a [c' [[<- _]|[_ ?]]%lookup_insert_Some]; set_solver.
    + intros a c' [[<- <-]|[_ ?]]%lookup_insert_Some; [by eapply pwf_addrs|by apply Ha].
    + intros a Hin Hs Hsome. destruct (decide (a = addr)) as [->|]; [by rewrite lookup_insert_eq|].
      rewrite lookup_insert_ne by done. apply Hk; set_solver.
    + rewrite droppedFrom_insert, liveConns_insert by done. rewrite <-Hc.
      rewrite (liveConns_delete (droppedFrom (clients p) nc) addr c).
      2:{ unfold droppedFrom. by rewrite map_lookup_filter_Some. }
      solve_Permutation.
  - destruct (NewClient addr (rpcTO p) next (dial addr)) as [e|c] eqn:Hnew; simpl.
    { split; try done; [set_solver|]. intros a Hin Hs [c' Hs']. apply Hk; set_solver. }
    apply NewClient_inr in Hnew as [Hca Hcc]. split; [..|lia|].
    + intros a [c' [[<- _]|[_ ?]]%lookup_insert_Some]; set_solver.
    + intros a c' [[<- <-]|[_ ?]]%lookup_insert_Some; [done|by apply Ha].
    + intros a Hin Hs Hsome. destruct (decide (a = addr)) as [->|]; [by rewrite Hcl in Hsome; destruct Hsome|].
      rewrite lookup_insert_ne by done. apply Hk; set_solver.
    + rewrite droppedFrom_insert, liveConns_insert by done.
      rewrite (delete_id (droppedFrom _ _)) by (unfold droppedFrom; apply map_lookup_filter_None; by left).
      replace (S next - nextConn p)%nat with (S (next - nextConn p)) by lia. rewrite seq_S.
      replace (nextConn p + (next - nextConn p))%nat with next by lia. rewrite Hcc. simpl. rewrite Hc. solve_Permutation.
Qed.

Lemma replaceLoop_spec p dial l seen nc next :
  picker_wf p → replaced p seen nc next → NoDup l → (∀ a, a ∈ l → a ∉ seen) →
  let '(nc', next') := foldl (replaceClient p dial) (nc, next) l in
  replaced p (reverse l ++ seen) nc' next'.
Proof.
  intros Hwf. revert seen nc next. induction l as [|a l IH]; intros seen nc next Hr Hnd Hdis; [done|].
  apply NoDup_cons in Hnd as [Ha Hnd]. rewrite reverse_cons, <-app_assoc. cbn [foldl app].
  pose proof (replaceClient_step p dial seen nc next a Hwf Hr ltac:(set_solver)) as Hstep.
  destruct (replaceClient p dial (nc, next) a) as [nc1 next1]. simpl in Hstep.
  apply IH; [done|done|]. intros b Hb. rewrite not_elem_of_cons. set_solver.
Qed.

Lemma replaceMembership_wf dial desired p :
  picker_wf p → selfAddr p ∈ desired → "" ∉ desired → picker_wf (replaceMembership dial desired p).
Proof.
  intros Hwf Hself Hempty. unfold replaceMembership. destruct (sameMembers _ _); [done|].
  destruct (pwf_nonempty p Hwf) as (_ & _ & Hrep).
  pose proof (ring_of_set (hashReplicas p) desired Hrep Hempty ltac:(set_solver)) as (Hr & Hc & Hn).
  set (r' := (CH.Add _ _).1) in *. clearbody r'.
  pose proof (replaceLoop_spec p dial (sortStrings desired) [] ∅ (nextConn p) Hwf) as Hloop.
  destruct (foldl _ _ _) as [nc next]. destruct Hloop as [Hd Ha Hk Hnx Hcn].
  { split; [by intros a [? ?]|done|set_solver|lia|]. rewrite Nat.sub_diag, app_nil_r.
    unfold liveConns, droppedFrom. rewrite map_filter_id; [done|]. intros a c _. apply lookup_empty. }
  { apply sortStrings_NoDup. }
  { set_solver. }
  pose proof (uint64_succ_ne _ (pwf_epoch p Hwf)) as [_ He]. split; simpl; [done|done|done|done| |done| |done].
  - intros a Hin%elem_of_dom. destruct (Hd a Hin) as [Hin' ?].
    rewrite app_nil_r, elem_of_reverse, elem_of_sortStrings in Hin'. set_solver.
  - unfold liveConns at 1. simpl. fold (droppedFrom (clients p) nc).
    replace next with (nextConn p + (next - nextConn p))%nat at 1 by lia. rewrite seq_app. simpl.
    rewrite <-(pwf_conns p Hwf).
    transitivity (((cl_conn <$> (map_to_list nc).*2) ++
                   (cl_conn <$> (map_to_list (droppedFrom (clients p) nc)).*2)) ++ closedConns p); [solve_Permutation|].
    rewrite Hcn. solve_Permutation.
Qed.

(** ** Reachable pickers *)

(** What can happen to a picker after its construction: an event of the watch,
    a snapshot taken when the watch broke, the closing. *)
Inductive pickerOp :=
| OpEvent (dial : string → option error) (ev : watchEvent)
| OpSnapshot (dial : string → option error) (resp : error + (list (string * string) * Z))
| OpClose (watchStops : bool) (connErrs : list (option error)) (etcdErr : option error).

Definition pickerStep (op : pickerOp) (p : ClientPicker) : ClientPicker :=
  match op with
  | OpEvent dial ev => handleEvent dial p ev
  | OpSnapshot dial resp => (refreshSnapshot dial resp p).1
  | OpClose w cs e => (Close w cs e p).1
  end.

Inductive pickerReachable : ClientPicker → Prop :=
| pickerReachable_new ifaces addr opts etcdNew dial snap p rev :
    NewClientPicker ifaces addr opts etcdNew dial snap = inr (p, rev) → pickerReachable p
| pickerReachable_step op p : pickerReachable p → pickerReachable (pickerStep op p).

Lemma desiredOf_spec p kvs a :
  a ∈ desiredOf p kvs ↔ a = selfAddr p ∨ (a ≠ "" ∧ ∃ k v, (k, v) ∈ kvs ∧ a = addrOfPut (svcName p) k v).
Proof.
  unfold desiredOf. generalize (selfAddr p) as s.
  assert (∀ d : gset string, a ∈ foldl (λ d '(k, v), let addr := addrOfPut (svcName p) k v in
      if decide (addr = "") then d else {[addr]} ∪ d) d kvs ↔
    a ∈ d ∨ (a ≠ "" ∧ ∃ k v, (k, v) ∈ kvs ∧ a = addrOfPut (svcName p) k v)) as Hloop.
  { induction kvs as [|[k v] kvs IH]; intros d; cbn [foldl]; [set_solver|]. rewrite IH. cbn zeta.
    setoid_rewrite elem_of_cons. case_decide as He; [naive_solver|]. rewrite elem_of_union, elem_of_singleton.
    naive_solver. }
  intros s. rewrite Hloop. set_solver.
Qed.

Lemma refreshSnapshot_wf dial resp p : picker_wf p → picker_wf (refreshSnapshot dial resp p).1.
Proof.
  intros Hwf. destruct resp as [|[kvs rev]]; [done|]. cbn [refreshSnapshot fst].
  destruct (pwf_nonempty p Hwf) as (_ & Hs & _).
  apply replaceMembership_wf; [done|apply desiredOf_spec; auto|]. rewrite desiredOf_spec. naive_solver.
Qed.

Lemma handleEvent_wf dial ev p : picker_wf p → picker_wf (handleEvent dial p ev).
Proof. intros Hwf. destruct ev; simpl; [by apply addMember_wf|by apply removeMember_wf]. Qed.

Lemma Close_wf w cs e p : picker_wf p → picker_wf (Close w cs e p).1.
Proof.
  intros Hwf. unfold Close. destruct (closeOnce p); [done|]. simpl.
  split; simpl; try apply Hwf; [set_solver|done|]. unfold liveConns. simpl.
  rewrite <-(pwf_conns p Hwf). unfold liveConns. solve_Permutation.
Qed.

Lemma pickerStep_wf op p : picker_wf p → picker_wf (pickerStep op p).
Proof.
  destruct op; simpl; [apply handleEvent_wf|apply refreshSnapshot_wf|apply Close_wf].
Qed.

(** The state of a picker under construction, before it has members. *)
Definition fresh (p : ClientPicker) : Prop :=
  ring p = CH.mkMap (ringConfig (hashReplicas p)) [] ∅ ∧ 0 < hashReplicas p ∧ members p = ∅ ∧
  clients p = ∅ ∧ nextConn p = 0%nat ∧ closedConns p = [].

Lemma applyPickerOption_fresh o p :
  fresh p → fresh (applyPickerOption o p) ∧ selfAddr (applyPickerOption o p) = selfAddr p.
Proof.
  destruct p as [self svc r ms cs eps dto rto reps e can once next closed]. unfold fresh. simpl.
  intros (-> & Hr & -> & -> & -> & ->).
  destruct o as [name|eps'|t|t|n]; simpl; try case_decide; try destruct (Z.ltb_spec 0 t); simpl; try done.
  destruct (Z.ltb_spec 0 n); simpl; [|done]. by rewrite New_WithReplicas.
Qed.

Lemma applyPickerOptions_fresh l p :
  fresh p → let p' := foldl (λ p o, applyPickerOption o p) p l in fresh p' ∧ selfAddr p' = selfAddr p.
Proof.
  revert p. induction l as [|o l IH]; intros q Hq; simpl; [done|].
  destruct (applyPickerOption_fresh o q Hq) as [Hq' Hs]. rewrite <-Hs. by apply IH.
Qed.

Lemma NormalizeAddress_nonempty ifaces addr b : NormalizeAddress ifaces addr = inr b → b ≠ "".
Proof.
  intros (host & port & -> & _)%NormalizeAddress_spec Heq. apply (f_equal toChars) in Heq.
  rewrite toChars_ofChars in Heq. unfold JoinHostPort in Heq. destruct (hasByte host colon); [done|].
  by destruct host.
Qed.

Lemma NewClientPicker_wf ifaces addr opts etcdNew dial snap p rev :
  NewClientPicker ifaces addr opts etcdNew dial snap = inr (p, rev) → picker_wf p.
Proof.
  unfold NewClientPicker. destruct (NormalizeAddress ifaces addr) as [|self] eqn:Hself; [done|].
  apply NormalizeAddress_nonempty in Hself. set (p0 := mkPicker self _ _ _ _ _ _ _ _ _ _ _ _ _).
  destruct (applyPickerOptions_fresh opts p0) as [(Hr & Hrep & Hm & Hc & Hn & Hcl) Hs]; [by repeat split|].
  set (q := foldl _ p0 opts) in *. clearbody q. simpl in Hs. subst self. destruct etcdNew; [done|].
  rewrite Hm, Hc, Hn, Hcl, Hr. intros Hres.
  set (q' := withMembership q _ _ _ _ _ _) in Hres.
  assert (picker_wf q') as Hwf.
  { destruct (Add_spec [selfAddr q] (CH.mkMap (ringConfig (hashReplicas q)) [] ∅)) as (Hrw & Hrc & Hrn & _); [|done|].
    { rewrite <-New_WithReplicas by done. apply New_wf. }
    subst q'. set (r' := (CH.Add _ _).1) in *. clearbody r'. split; simpl; try done; set_solver. }
  pose proof (refreshSnapshot_wf dial snap q' Hwf) as Hwf'. destruct (refreshSnapshot dial snap q') as [p1 [|next]]; [done|].
  by simplify_eq.
Qed.

Lemma pickerReachable_wf p : pickerReachable p → picker_wf p.
Proof. induction 1; [by eapply NewClientPicker_wf|by apply pickerStep_wf]. Qed.

(** ** Configuration and epoch along a run *)

Definition settled (p p' : ClientPicker) : Prop :=
  selfAddr p' = selfAddr p ∧ svcName p' = svcName p ∧ hashReplicas p' = hashReplicas p.

Lemma replaceMembership_settled dial s p : settled p (replaceMembership dial s p).
Proof. unfold replaceMembership. repeat case_match; by repeat split. Qed.
Lemma addMember_settled dial a p : settled p (addMember dial a p).
Proof. unfold addMember. repeat case_match; by repeat split. Qed.
Lemma removeMember_settled a p : settled p (removeMember a p).
Proof. unfold removeMember. repeat case_match; by repeat split. Qed.

Lemma pickerStep_settled op p : settled p (pickerStep op p).
Proof.
  destruct op as [dial [k v|k pv]|dial [e|[kvs rev]]|w cs e]; simpl;
    [apply addMember_settled|apply removeMember_settled|done|apply replaceMembership_settled|].
  unfold Close. by case_match.
Qed.

Lemma replaceMembership_members dial s p : members (replaceMembership dial s p) = s.
Proof.
  unfold replaceMembership. destruct (sameMembers (members p) s) eqn:Hs; [by apply sameMembers_iff|].
  by destruct (foldl _ _ _).
Qed.

Lemma addMember_members dial a p :
  a ≠ "" → members (addMember dial a p) = {[a]} ∪ members p.
Proof.
  intros Ha. unfold addMember. rewrite decide_False by done. case_decide as Hin; [set_solver|].
  repeat case_match; done.
Qed.

Lemma removeMember_members a p :
  a ≠ "" → selfAddr p ∈ members p →
  members (removeMember a p) = {[selfAddr p]} ∪ members p ∖ {[a]}.
Proof.
  intros Ha Hs. unfold removeMember. case_decide as Hd.
  { destruct Hd as [| ->]; [done|]. apply set_eq. intros x. destruct (decide (x = selfAddr p)); set_solver. }
  case_decide; simpl; set_solver.
Qed.

(** An operation changes the membership and advances the epoch, or does neither. *)
Lemma pickerStep_epoch op p :
  picker_wf p →
  (members (pickerStep op p) = members p ∧ epoch (pickerStep op p) = epoch p) ∨
  (members (pickerStep op p) ≠ members p ∧ epoch (pickerStep op p) = uint64 (epoch p + 1)).
Proof.
  intros Hwf.
  destruct op as [dial [k v|k pv]|dial [e|[kvs rev]]|w cs e]; cbn [pickerStep handleEvent refreshSnapshot fst].
  - unfold addMember. case_decide; [by left|]. case_decide as Hin; [by left|]. right.
    repeat case_match; (split; [|done]); simpl; set_solver.
  - set (a := if decide _ then _ else _). clearbody a. unfold removeMember.
    case_decide; [by left|]. case_decide as Hin; [|by left]. right. simpl. split; [set_solver|done].
  - by left.
  - rewrite replaceMembership_members. unfold replaceMembership.
    destruct (sameMembers (members p) (desiredOf p kvs)) eqn:Hs; [apply sameMembers_iff in Hs; by left|].
    right. split; [|by destruct (foldl _ _ _)]. intros Heq.
    rewrite <-not_true_iff_false, sameMembers_iff in Hs. congruence.
  - left. unfold Close. by destruct (closeOnce p).
Qed.

Lemma picker_ring_determined p p' :
  picker_wf p → picker_wf p' → hashReplicas p' = hashReplicas p → members p' = members p → ring p' = ring p.
Proof.
  intros H1 H2 Hr Hm. apply ring_wf_unique; [by apply pwf_ring..| |].
  - by rewrite !pwf_config, Hr.
  - by rewrite !pwf_nodes.
Qed.

(** The epoch after [n] changes of membership. *)
Lemma pickerRun_epoch ops p :
  picker_wf p →
  let p' := foldl (λ p op, pickerStep op p) p ops in
  picker_wf p' ∧ settled p p' ∧
  ∃ n : nat, (n ≤ length ops)%nat ∧ epoch p' = uint64 (epoch p + Z.of_nat n) ∧ (n = 0%nat → members p' = members p).
Proof.
  revert p. induction ops as [|op ops IH]; intros p Hwf; simpl.
  - split_and!; [done|by repeat split|]. exists 0%nat. split_and!; [lia| |done].
    pose proof (pwf_epoch p Hwf). unfold uint64. rewrite Z.mod_small; lia.
  - pose proof (pickerStep_wf op p Hwf) as Hwf'. destruct (IH _ Hwf') as (Hw & (Hs1 & Hs2 & Hs3) & n & Hn & He & Hm).
    destruct (pickerStep_settled op p) as (H1 & H2 & H3). split_and!; [done|by repeat split; congruence|].
    destruct (pickerStep_epoch op p Hwf) as [[Hm' He']|[_ He']]; rewrite He' in He.
    + exists n. split_and!; [lia|done|]. intros ->. by rewrite Hm.
    + exists (S n). split_and!; [lia| |done]. rewrite He. unfold uint64. rewrite Zplus_mod_idemp_l. f_equal. lia.
Qed.

(** ** The directory *)

(** The keys of a service and their values in etcd, as [Register] writes them:
    every value is the non-empty address in its key. *)
Definition directory := gmap string string.
Definition entry_ok (svc k v : string) : Prop := v ≠ "" ∧ k = ServiceKey svc v.
Definition dir_wf (svc : string) (d : directory) : Prop := map_Forall (entry_ok svc) d.
Definition addrsOf (d : directory) : gset string := list_to_set (map_to_list d).*2.

Definition applyEvent (ev : watchEvent) (d : directory) : directory :=
  match ev with EventPut k v => <[k := v]> d | EventDelete k _ => delete k d end.
Definition event_ok (svc : string) (ev : watchEvent) : Prop :=
  match ev with
  | EventPut k v => entry_ok svc k v
  | EventDelete k _ => ∃ v, entry_ok svc k v
  end.

Lemma elem_of_addrsOf d a : a ∈ addrsOf d ↔ ∃ k, d !! k = Some a.
Proof.
  unfold addrsOf. rewrite elem_of_list_to_set, list_elem_of_fmap. split.
  - intros ([k v] & -> & Hkv%elem_of_map_to_list). eauto.
  - intros [k Hk]. exists (k, a). split; [done|]. by apply elem_of_map_to_list.
Qed.

Lemma substring_app s t : String.substring 0 (String.length s) (s +:+ t) = s.
Proof. induction s as [|a s IH]; simpl; [by destruct t|]. by rewrite IH. Qed.
Lemma substring_app_r s t n : String.substring (String.length s) n (s +:+ t) = String.substring 0 n t.
Proof. induction s as [|a s IH]; simpl; [done|]. by rewrite IH. Qed.
Lemma substring_full t : String.substring 0 (String.length t) t = t.
Proof. induction t as [|a t IH]; simpl; [done|]. by rewrite IH. Qed.
Lemma length_sapp s t : String.length (s +:+ t) = (String.length s + String.length t)%nat.
Proof. induction s as [|a s IH]; simpl; [done|]. by rewrite IH. Qed.

(** A key of the directory names its address. *)
Lemma parse_ServiceKey svc a : parseAddrFromKey (ServiceKey svc a) svc = a.
Proof.
  unfold parseAddrFromKey, ServiceKey. set (pre := ServicePrefix svc). rewrite length_sapp, substring_app, String.eqb_refl.
  destruct a as [|c a].
  { by rewrite (proj2 (Nat.leb_le _ _)) by (simpl; lia). }
  rewrite (proj2 (Nat.leb_gt _ _)) by (simpl; lia). cbn [orb negb].
  rewrite substring_app_r. replace (_ + _ - _)%nat with (String.length (String c a)) by lia. apply substring_full.
Qed.

Lemma parse_other key svc : (∀ a, key ≠ ServiceKey svc a) → parseAddrFromKey key svc = "".
Proof.
  intros Hk. unfold parseAddrFromKey. set (pre := ServicePrefix svc) in *.
  destruct (Nat.leb_spec (String.length key) (String.length pre)) as [|Hlt]; [done|]. cbn [orb].
  destruct (String.eqb_spec (String.substring 0 (String.length pre) key) pre) as [Heq|]; [|done].
  exfalso. apply (Hk (String.substring (String.length pre) (String.length key - String.length pre) key)).
  unfold ServiceKey. fold pre. rewrite <-Heq at 1. clear Hk Heq. revert Hlt. generalize (String.length pre) as n.
  induction key as [|c key IH]; intros [|n] Hn; simpl in *; try lia; [by rewrite substring_full|].
  by rewrite (IH n) at 1 by lia.
Qed.

Lemma dir_wf_event svc ev d : dir_wf svc d → event_ok svc ev → dir_wf svc (applyEvent ev d).
Proof.
  intros Hd He. destruct ev as [k v|k pv]; simpl in *; [by apply map_Forall_insert_2|by apply map_Forall_delete].
Qed.

(** The membership of a picker that is up to date with the directory. *)
Definition upToDate (p : ClientPicker) (d : directory) : Prop := members p = {[selfAddr p]} ∪ addrsOf d.

Lemma handleEvent_upToDate dial ev p d :
  selfAddr p ∈ members p → dir_wf (svcName p) d → event_ok (svcName p) ev → upToDate p d →
  upToDate (handleEvent dial p ev) (applyEvent ev d).
Proof.
  intros Hself Hd He Hup. unfold upToDate in *. destruct ev as [k v|k pv]; simpl in *.
  - destruct He as [Hv Hk]. unfold addrOfPut. rewrite decide_False by done.
    rewrite addMember_members by done. rewrite (proj1 (addMember_settled dial v p)), Hup.
    apply set_eq. intros a. rewrite !elem_of_union, !elem_of_singleton, !elem_of_addrsOf.
    setoid_rewrite lookup_insert_Some. split; [|naive_solver].
    intros [->|[->|[k' Hk']]]; [by eauto 6|by eauto|]. right.
    destruct (decide (k = k')) as [->|]; [|by eauto 6]. exists k'. left. split; [done|].
    destruct (Hd _ _ Hk') as [_ Heq]. rewrite Hk in Heq.
    by rewrite <-(parse_ServiceKey (svcName p) v), Heq, parse_ServiceKey.
  - destruct He as (v & Hv & ->). rewrite parse_ServiceKey, decide_False by done.
    rewrite removeMember_members by done. rewrite (proj1 (removeMember_settled v p)), Hup.
    apply set_eq. intros a. rewrite !elem_of_union, elem_of_difference, elem_of_union, !elem_of_singleton, !elem_of_addrsOf.
    setoid_rewrite lookup_delete_Some. split.
    2:{ intros [|(k & Hne & Hk)]; [by left|right]. split; [by eauto|]. intros ->. by destruct (Hd _ _ Hk). }
    intros [|([|[k' Hk']] & Hne)]; eauto. right. exists k'. split; [|done]. intros <-.
    apply Hne. destruct (Hd _ _ Hk') as [_ Heq].
    by rewrite <-(parse_ServiceKey (svcName p) a), <-Heq, parse_ServiceKey.
Qed.

Lemma refreshSnapshot_upToDate dial kvs rev p d :
  dir_wf (svcName p) d → kvs ≡ₚ map_to_list d → upToDate (refreshSnapshot dial (inr (kvs, rev)) p).1 d.
Proof.
  intros Hd Hk. unfold upToDate. cbn [refreshSnapshot fst]. rewrite replaceMembership_members.
  rewrite (proj1 (replaceMembership_settled dial _ p)). apply set_eq. intros a.
  rewrite desiredOf_spec, elem_of_union, elem_of_singleton, elem_of_addrsOf. setoid_rewrite Hk.
  setoid_rewrite elem_of_map_to_list. split.
  - intros [|(Ha & k & v & Hkv & ->)]; [by left|right]. exists k. unfold addrOfPut.
    destruct (Hd _ _ Hkv) as [Hv _]. by rewrite decide_False.
  - intros [|[k Hk']]; [by left|right]. destruct (Hd _ _ Hk') as [Hv _]. split; [done|].
    exists k, a. split; [done|]. unfold addrOfPut. by rewrite decide_False.
Qed.

(** A picker of service [svc] that has followed the directory to [d]: by its
    first snapshot, by the events of its watch, by a snapshot after a break. *)
Inductive tracks (svc : string) : ClientPicker → directory → Prop :=
| tracks_new ifaces addr opts etcdNew dial kvs rev0 p rev d :
    NewClientPicker ifaces addr opts etcdNew dial (inr (kvs, rev0)) = inr (p, rev) →
    svcName p = svc → dir_wf svc d → kvs ≡ₚ map_to_list d → tracks svc p d
| tracks_event dial ev p d :
    tracks svc p d → event_ok svc ev → tracks svc (handleEvent dial p ev) (applyEvent ev d)
| tracks_snapshot dial kvs rev p d d' :
    tracks svc p d → dir_wf svc d' → kvs ≡ₚ map_to_list d' →
    tracks svc (refreshSnapshot dial (inr (kvs, rev)) p).1 d'.

Lemma NewClientPicker_upToDate ifaces addr opts etcdNew dial kvs rev0 p rev d :
  NewClientPicker ifaces addr opts etcdNew dial (inr (kvs, rev0)) = inr (p, rev) →
  dir_wf (svcName p) d → kvs ≡ₚ map_to_list d → upToDate p d.
Proof.
  unfold NewClientPicker. destruct (NormalizeAddress ifaces addr) as [|self]; [done|]. destruct etcdNew; [done|].
  set (q := withMembership _ _ _ _ _ _ _). clearbody q. intros Hq Hd Hk.
  destruct (refreshSnapshot dial (inr (kvs, rev0)) q) as [p1 [|next]] eqn:Hr; [done|].
  injection Hq as -> ->. pose proof (refreshSnapshot_upToDate dial kvs rev0 q d) as Hup. rewrite Hr in Hup.
  apply Hup; [|done]. cbn [refreshSnapshot] in Hr. injection Hr as <- _.
  by rewrite (proj1 (proj2 (replaceMembership_settled dial (desiredOf q kvs) q))) in Hd.
Qed.

(** A new picker names itself by the normalised address. *)
Lemma NewClientPicker_self ifaces addr opts etcdNew dial snap p rev :
  NewClientPicker ifaces addr opts etcdNew dial snap = inr (p, rev) → NormalizeAddress ifaces addr = inr (selfAddr p).
Proof.
  unfold NewClientPicker. destruct (NormalizeAddress ifaces addr) as [|self]; [done|].
  set (p0 := mkPicker self _ _ _ _ _ _ _ _ _ _ _ _ _). destruct (applyPickerOptions_fresh opts p0) as [_ Hs]; [by repeat split|].
  set (q := foldl _ p0 opts) in *. clearbody q. simpl in Hs. destruct etcdNew; [done|].
  set (q' := withMembership q _ _ _ _ _ _). assert (selfAddr q' = self) as Hq by done. clearbody q'.
  unfold refreshSnapshot. destruct snap as [|[kvs rev0]]; [done|]. intros [= <- _].
  by rewrite (proj1 (replaceMembership_settled _ _ _)), Hq.
Qed.

Lemma tracks_spec svc p d :
  tracks svc p d → picker_wf p ∧ svcName p = svc ∧ dir_wf svc d ∧ upToDate p d.
Proof.
  induction 1 as [ifaces addr opts etcdNew dial kvs rev0 p rev d Hnew Hs Hd Hk
                 |dial ev p d _ (Hwf & Hs & Hd & Hup) He|dial kvs rev p d d' _ (Hwf & Hs & Hd & Hup) Hd' Hk].
  - split_and!; [by eapply NewClientPicker_wf|done|done|]. subst svc. by eapply NewClientPicker_upToDate.
  - pose proof (pickerStep_settled (OpEvent dial ev) p) as (_ & Hs' & _). simpl in Hs'.
    split_and!; [by apply handleEvent_wf|congruence|by apply dir_wf_event|]. subst svc.
    by apply handleEvent_upToDate; [apply pwf_self|..].
  - pose proof (pickerStep_settled (OpSnapshot dial (inr (kvs, rev))) p) as (_ & Hs' & _). cbn [pickerStep] in Hs'.
    split_and!; [by apply refreshSnapshot_wf|congruence|done|]. subst svc. by apply refreshSnapshot_upToDate.
Qed.

(** What [PickOwner] answers in terms of the ring. *)
Lemma PickOwner_spec p key :
  picker_wf p → key ≠ "" →
  let r := PickOwner key p in
  pk_ok r = true ∧ pk_owner r = CH.Get key (ring p) ∧ pk_owner r ∈ members p ∧ pk_owner r ≠ "" ∧
  pk_epoch r = epoch p ∧ pk_self r = bool_decide (pk_owner r = selfAddr p) ∧
  pk_peer r = (if pk_self r then PeerNil else PeerClient (clients p !! pk_owner r)).
Proof.
  intros Hwf Hk. assert (CH.Get key (ring p) ∈ members p) as Hin.
  { rewrite <-(pwf_nodes p Hwf). apply ring_Get_elem; [by apply pwf_ring|done|].
    rewrite (pwf_nodes p Hwf). pose proof (pwf_self p Hwf). set_solver. }
  destruct (pwf_nonempty p Hwf) as (Hne & _ & _).
  assert (CH.Get key (ring p) ≠ "") as Hge by (intros Heq; by rewrite Heq in Hin).
  unfold PickOwner. rewrite decide_False by done.
  case_decide; simpl; [rewrite bool_decide_eq_true_2 by done|rewrite bool_decide_eq_false_2 by done];
    by split_and!.
Qed.

(** ** The picker's guarantees *)

(** Invariant of every reachable picker: its ring is the well-formed ring
    of its members, it is itself a member, clients belong to remote members and
    carry their address, and every connection it ever opened is either held by
    exactly one client or has been closed exactly once. *)
Theorem picker_reachable_invariant p :
  pickerReachable p →
  picker_wf p ∧ Members p = CH.Members (ring p) ∧
  NoDup (liveConns p ++ closedConns p).
Proof.
  intros Hwf%pickerReachable_wf. split_and!; [done| |].
  - unfold Members, CH.Members, sortStrings. by rewrite (pwf_nodes p Hwf).
  - rewrite (pwf_conns p Hwf). apply NoDup_seq.
Qed.

(** [C26] The epoch identifies the membership: after fewer than [2^64] operations
    an unchanged epoch means an unchanged membership and ring, so comparing
    epochs, as the group does, detects every change in between. *)
Theorem picker_epoch_identifies_membership p ops :
  pickerReachable p → Z.of_nat (length ops) < 2 ^ 64 →
  let p' := foldl (λ p op, pickerStep op p) p ops in
  epoch p' = epoch p → members p' = members p ∧ ring p' = ring p.
Proof.
  intros Hwf%pickerReachable_wf Hlen p' He.
  destruct (pickerRun_epoch ops p Hwf) as (Hw & (_ & _ & Hr) & n & Hn & He' & Hm). fold p' in Hw, Hr, He', Hm.
  assert (n = 0%nat) as Hn0.
  { pose proof (pwf_epoch p Hwf). rewrite He in He'. unfold uint64 in He'.
    destruct (Z.lt_ge_cases (epoch p + Z.of_nat n) (2 ^ 64)); [rewrite Z.mod_small in He'; lia|].
    replace (epoch p + Z.of_nat n) with (epoch p + Z.of_nat n - 2 ^ 64 + 1 * 2 ^ 64) in He' by lia.
    rewrite Z_mod_plus_full, Z.mod_small in He'; lia. }
  split; [by apply Hm|]. apply picker_ring_determined; auto.
Qed.

Lemma tracks_members svc p d :
  tracks svc p d → ∀ a, a ∈ Members p ↔ a = selfAddr p ∨ ∃ k, d !! k = Some a.
Proof.
  intros (_ & _ & _ & Hup)%tracks_spec a. unfold Members. rewrite elem_of_sortStrings, Hup.
  by rewrite elem_of_union, elem_of_singleton, elem_of_addrsOf.
Qed.

(** [C27] Membership follows the directory: whatever snapshots and events a
    picker has seen, its members are the addresses registered in the directory
    they describe, and itself. *)
Theorem picker_follows_directory svc p d :
  tracks svc p d → ∀ a, a ∈ Members p ↔ a = selfAddr p ∨ ∃ k, d !! k = Some a.
Proof. apply tracks_members. Qed.

(** Agreement: two pickers that have followed the directory to the same
    state, in which both are registered, choose the same owner for every key;
    a picker takes a key for itself exactly when the other routes it there. *)
Theorem picker_agreement svc p1 p2 d key :
  tracks svc p1 d → tracks svc p2 d → hashReplicas p1 = hashReplicas p2 →
  selfAddr p1 ∈ addrsOf d → selfAddr p2 ∈ addrsOf d → key ≠ "" →
  pk_ok (PickOwner key p1) = true ∧ pk_owner (PickOwner key p1) = pk_owner (PickOwner key p2) ∧
  (pk_self (PickOwner key p1) = true ↔ pk_owner (PickOwner key p2) = selfAddr p1).
Proof.
  intros (W1 & _ & _ & U1)%tracks_spec (W2 & _ & _ & U2)%tracks_spec Hr S1 S2 Hk.
  assert (ring p1 = ring p2) as Hring.
  { apply picker_ring_determined; [done..|]. unfold upToDate in *. rewrite U1, U2. set_solver. }
  destruct (PickOwner_spec p1 key W1 Hk) as (Hok & Ho & _ & _ & _ & Hs & _).
  destruct (PickOwner_spec p2 key W2 Hk) as (_ & Ho2 & _).
  split_and!; [done|congruence|]. rewrite Hs, bool_decide_eq_true, Ho, Ho2. by rewrite Hring.
Qed.

(** [PickOwner] on a reachable picker is total for non-empty keys and names
    a member; the peer it returns is a nil interface only for the node itself:
    for a remote owner without client it is a non-nil interface holding a nil
    [*Client]. *)
Theorem pickowner_total p key :
  pickerReachable p → key ≠ "" →
  let r := PickOwner key p in
  pk_ok r = true ∧ pk_owner r ∈ Members p ∧
  (pk_self r = true ↔ pk_owner r = selfAddr p) ∧ (pk_peer r = PeerNil ↔ pk_self r = true) ∧
  (∀ c, pk_peer r = PeerClient (Some c) → cl_addr c = pk_owner r) ∧
  (pk_self r = false → clients p !! pk_owner r = None → pk_peer r = PeerClient None).
Proof.
  intros Hwf%pickerReachable_wf Hk r. destruct (PickOwner_spec p key Hwf Hk) as (Hok & _ & Hin & _ & _ & Hs & Hp).
  fold r in Hok, Hin, Hs, Hp. unfold Members. rewrite elem_of_sortStrings, Hp.
  split_and!; [done|done|by rewrite Hs, bool_decide_eq_true|by destruct (pk_self r)| |].
  - intros c Hc. destruct (pk_self r); [done|]. injection Hc as Hc. by eapply pwf_addrs.
  - intros -> ->. done.
Qed.

(** [Invalidate] reports success exactly when every remote member with a
    client, the excepted owner aside, acknowledged, in whatever order the
    answers arrive. *)
Theorem invalidate_reports answer order exceptOwner p :
  order ≡ₚ (map_to_list (invalidateTargets exceptOwner p)).*1 →
  Invalidate answer order exceptOwner p = None ↔
  ∀ a, a ≠ exceptOwner → is_Some (clients p !! a) → answer a = None.
Proof.
  intros Ho. unfold Invalidate. set (T := invalidateTargets exceptOwner p) in *.
  assert (∀ a c, T !! a = Some c ↔ exceptOwner ≠ a ∧ clients p !! a = Some c) as HT
    by (intros a c; apply lookup_delete_Some).
  assert (∀ a, a ∈ order ↔ a ≠ exceptOwner ∧ is_Some (clients p !! a)) as Hin.
  { intros a. rewrite Ho, list_elem_of_fmap. split.
    - intros ([b c] & -> & Hb%elem_of_map_to_list). apply HT in Hb as [? ?]. simpl. eauto.
    - intros [Hne [c Hc]]. exists (a, c). split; [done|]. by apply elem_of_map_to_list, HT. }
  set (err := omap _ _). assert (errors_Join err = None ↔ err = []) as -> by (unfold errors_Join; by destruct err).
  subst err. rewrite filter_all.
  2:{ intros a [Hne [c Hc]]%Hin. exists c. by apply HT. }
  assert (∀ l, omap (λ addr, (λ e, Wrap [Lit "invalidate "; Lit addr; Lit ": "] e []) <$> answer addr) l = [] ↔
    ∀ a, a ∈ l → answer a = None) as ->.
  { induction l as [|x l IH]; csimpl; [set_solver|]. destruct (answer x) eqn:Hx; simpl.
    - split; [done|]. intros Hall. by rewrite (Hall x) in Hx by set_solver.
    - rewrite IH. set_solver. }
  setoid_rewrite Hin. naive_solver.
Qed.

(** ** Concrete pickers *)

Definition w_dir : directory :=
  {["/services/locache/10.0.0.7:8001" := "10.0.0.7:8001"; "/services/locache/10.0.0.8:8001" := "10.0.0.8:8001"]}.
Definition w_build (ip : Z) (dial : string → option error) : error + (ClientPicker * Z) :=
  NewClientPicker (inr [IPNet [10; 0; 0; ip]]) ":8001" [WithHashReplicas 2] None dial (inr (map_to_list w_dir, 41)).
Definition w_none : ClientPicker := mkPicker "" "" (CH.New []) ∅ ∅ [] 0 0 0 0 false false 0 [].
Definition w_get (r : error + (ClientPicker * Z)) : ClientPicker := match r with inr (p, _) => p | inl _ => w_none end.
Definition wp1 : ClientPicker := w_get (w_build 7 (λ _, None)).
Definition wp2 : ClientPicker := w_get (w_build 8 (λ _, None)).
(** A picker that could not dial its peer. *)
Definition wp3 : ClientPicker := w_get (w_build 7 (λ _, Some (Text [Lit "bad target"]))).

Lemma w_get_ok r : match r with inr _ => true | inl _ => false end = true → ∃ rev, r = inr (w_get r, rev).
Proof. destruct r as [|[p rev]]; [done|]. by exists rev. Qed.

Lemma wp1_new : ∃ rev, w_build 7 (λ _, None) = inr (wp1, rev).
Proof. apply w_get_ok. vm_compute. reflexivity. Qed.
Lemma wp2_new : ∃ rev, w_build 8 (λ _, None) = inr (wp2, rev).
Proof. apply w_get_ok. vm_compute. reflexivity. Qed.
Lemma wp3_new : ∃ rev, w_build 7 (λ _, Some (Text [Lit "bad target"])) = inr (wp3, rev).
Proof. apply w_get_ok. vm_compute. reflexivity. Qed.

Lemma w_dir_wf : dir_wf "locache" w_dir.
Proof.
  unfold w_dir. apply map_Forall_insert_2; [split; [done|reflexivity]|].
  apply map_Forall_singleton. split; [done|reflexivity].
Qed.

Lemma wp1_reachable : pickerReachable wp1.
Proof. destruct wp1_new as [rev Hnew]. by eapply pickerReachable_new. Qed.
Lemma wp2_reachable : pickerReachable wp2.
Proof. destruct wp2_new as [rev Hnew]. by eapply pickerReachable_new. Qed.
Lemma wp3_reachable : pickerReachable wp3.
Proof. destruct wp3_new as [rev Hnew]. by eapply pickerReachable_new. Qed.
Lemma wp1_tracks : tracks "locache" wp1 w_dir.
Proof.
  destruct wp1_new as [rev Hnew]. eapply tracks_new; [exact Hnew|vm_compute; reflexivity|apply w_dir_wf|reflexivity].
Qed.
Lemma wp2_tracks : tracks "locache" wp2 w_dir.
Proof.
  destruct wp2_new as [rev Hnew]. eapply tracks_new; [exact Hnew|vm_compute; reflexivity|apply w_dir_wf|reflexivity].
Qed.

Lemma picker_reachable_invariant_witness : picker_wf wp1 ∧ Members wp1 = ["10.0.0.7:8001"; "10.0.0.8:8001"].
Proof.
  destruct (picker_reachable_invariant wp1 wp1_reachable) as (Hwf & _). split; [exact Hwf|]. vm_compute. reflexivity.
Defined.

Lemma picker_epoch_identifies_membership_witness :
  let ops := [OpEvent (λ _, None) (EventPut "/services/locache/10.0.0.8:8001" "10.0.0.8:8001");
              OpSnapshot (λ _, None) (inl (Text [Lit "unavailable"]))] in
  members (foldl (λ p op, pickerStep op p) wp1 ops) = members wp1.
Proof.
  intros ops. apply (picker_epoch_identifies_membership wp1 ops wp1_reachable).
  - vm_compute. reflexivity.
  - vm_compute. reflexivity.
Defined.

Lemma picker_follows_directory_witness : "10.0.0.8:8001" ∈ Members wp1.
Proof.
  apply (picker_follows_directory "locache" wp1 w_dir wp1_tracks). right.
  exists "/services/locache/10.0.0.8:8001". vm_compute. reflexivity.
Defined.

Lemma picker_agreement_witness :
  pk_owner (PickOwner "Tom" wp1) = pk_owner (PickOwner "Tom" wp2).
Proof.
  refine (proj1 (proj2 (picker_agreement "locache" wp1 wp2 w_dir "Tom" wp1_tracks wp2_tracks _ _ _ _))).
  - vm_compute. reflexivity.
  - apply elem_of_addrsOf. exists "/services/locache/10.0.0.7:8001". vm_compute. reflexivity.
  - apply elem_of_addrsOf. exists "/services/locache/10.0.0.8:8001". vm_compute. reflexivity.
  - discriminate.
Defined.

(** "Sam" belongs to the peer that could not be dialled. *)
Lemma pickowner_total_witness :
  pk_ok (PickOwner "Sam" wp3) = true ∧ pk_self (PickOwner "Sam" wp3) = false ∧
  pk_peer (PickOwner "Sam" wp3) = PeerClient None.
Proof.
  destruct (pickowner_total wp3 "Sam" wp3_reachable) as (Hok & _ & _ & _ & _ & Hnil); [discriminate|].
  split; [exact Hok|]. split; [vm_compute; reflexivity|]. apply Hnil; vm_compute; reflexivity.
Defined.

Lemma invalidate_reports_witness :
  Invalidate (λ a, if decide (a = "10.0.0.8:8001") then None else Some (Text [])) ["10.0.0.8:8001"] "10.0.0.7:8001" wp1 = None.
Proof.
  apply (invalidate_reports _ ["10.0.0.8:8001"] "10.0.0.7:8001" wp1).
  - vm_compute. reflexivity.
  - intros a Ha Hs. assert (a = "10.0.0.8:8001") as ->; [|vm_compute; reflexivity].
    apply elem_of_dom in Hs. pose proof (pwf_clients _ (pickerReachable_wf _ wp1_reachable) a Hs) as Hm.
    apply elem_of_difference in Hm as [Hm Hns].
    assert (members wp1 = {["10.0.0.7:8001"; "10.0.0.8:8001"]}) as Hms by (vm_compute; reflexivity).
    rewrite Hms, elem_of_union, !elem_of_singleton in Hm.
    destruct Hm as [Hm|Hm]; [destruct (Ha Hm)|exact Hm].
Defined.
