(* ===== verification/Singleflight.v ===== *)
(** * Duplicate suppression (singleflight/singleflight.go)

    [Group.Do] under concurrency: any number of goroutines are inside [Do] at
    once, and every step of one of them between two synchronisation points is
    an action of the machine below.  [g.mu] is held within one action, so the
    two critical sections are atomic; [c.wg] is the flag [pending].

    [R] is the type of the pair [(c.val, c.err)]; a function that panics leaves
    [panicVal].  A function that calls [runtime.Goexit] is outside the model. *)

From S2P Require Import Prelude.

Section singleflight.
Context {R : Type}.

(** How a call ended. *)
Inductive outcome := Done_ (r : R) | Panicked (v : string).

(** [type call struct]; [c_key] and [c_leader] (the goroutine that runs [fn])
    are recorded for the proofs only. *)
Record call := mkCall {
  c_key : string; c_leader : nat; c_outcome : option outcome; c_pending : bool
}.

(** Where a goroutine is in [Do]. *)
Inductive pc :=
| Calling (key : string)              (* before the first critical section *)
| Running (key : string) (c : nat)    (* executing fn *)
| Finished (key : string) (c : nat)   (* fn has ended, call still in g.m *)
| Removed (key : string) (c : nat)    (* after the second critical section *)
| Leaving (key : string) (c : nat)    (* after c.wg.Done() *)
| Waiting (key : string) (c : nat)    (* in c.wg.Wait() *)
| Returned (key : string) (c : nat) (o : outcome).  (* Do returned or panicked *)

(** [type Group struct], the heap of calls and the goroutines. *)
Record sfState := mkSf {
  sf_m : gmap string nat; sf_calls : gmap nat call; sf_next : nat; sf_threads : gmap nat pc
}.

Definition sf_init : sfState := mkSf ∅ ∅ 0 ∅.

Definition setPc (t : nat) (p : pc) (s : sfState) : sfState :=
  mkSf (sf_m s) (sf_calls s) (sf_next s) (<[t := p]> (sf_threads s)).
Definition setCall (c : nat) (cl : call) (s : sfState) : sfState :=
  mkSf (sf_m s) (<[c := cl]> (sf_calls s)) (sf_next s) (sf_threads s).

(** A goroutine calls [Do(key, fn)]. *)
Definition invoke (t : nat) (key : string) (s : sfState) : option sfState :=
  match sf_threads s !! t with None => Some (setPc t (Calling key) s) | Some _ => None end.

(** The first critical section: join the call in flight or create one. *)
Definition enter (t : nat) (s : sfState) : option sfState :=
  match sf_threads s !! t with
  | Some (Calling key) =>
      match sf_m s !! key with
      | Some c => Some (setPc t (Waiting key c) s)
      | None =>
          let c := sf_next s in
          Some (mkSf (<[key := c]> (sf_m s)) (<[c := mkCall key t None true]> (sf_calls s)) (S c)
                     (<[t := Running key c]> (sf_threads s)))
      end
  | _ => None
  end.

(** [fn] returns or panics; the deferred [recover] stores the panic value. *)
Definition finish (t : nat) (o : outcome) (s : sfState) : option sfState :=
  match sf_threads s !! t with
  | Some (Running key c) =>
      match sf_calls s !! c with
      | Some cl => Some (setPc t (Finished key c) (setCall c (mkCall (c_key cl) (c_leader cl) (Some o) (c_pending cl)) s))
      | None => None
      end
  | _ => None
  end.

(** The second critical section. *)
Definition remove (t : nat) (s : sfState) : option sfState :=
  match sf_threads s !! t with
  | Some (Finished key c) =>
      let m' := if decide (sf_m s !! key = Some c) then delete key (sf_m s) else sf_m s in
      Some (mkSf m' (sf_calls s) (sf_next s) (<[t := Removed key c]> (sf_threads s)))
  | _ => None
  end.

(** [c.wg.Done()]. *)
Definition wgDone (t : nat) (s : sfState) : option sfState :=
  match sf_threads s !! t with
  | Some (Removed key c) =>
      match sf_calls s !! c with
      | Some cl => Some (setPc t (Leaving key c) (setCall c (mkCall (c_key cl) (c_leader cl) (c_outcome cl) false) s))
      | None => None
      end
  | _ => None
  end.

(** The end of [Do], for the goroutine that ran [fn] and, once [c.wg.Wait()]
    lets it through, for one that joined: panic with [c.panicVal] or return
    [c.val, c.err]. *)
Definition leave (t : nat) (s : sfState) : option sfState :=
  match sf_threads s !! t with
  | Some (Leaving key c) =>
      match sf_calls s !! c with
      | Some cl => match c_outcome cl with Some o => Some (setPc t (Returned key c o) s) | None => None end
      | None => None
      end
  | Some (Waiting key c) =>
      match sf_calls s !! c with
      | Some cl => if c_pending cl then None
                   else match c_outcome cl with Some o => Some (setPc t (Returned key c o) s) | None => None end
      | None => None
      end
  | _ => None
  end.

Inductive sfAction :=
| AInvoke (t : nat) (key : string)
| AEnter (t : nat)
| AFinish (t : nat) (o : outcome)
| ARemove (t : nat)
| AWgDone (t : nat)
| ALeave (t : nat).

Definition sfStep (a : sfAction) (s : sfState) : option sfState :=
  match a with
  | AInvoke t key => invoke t key s
  | AEnter t => enter t s
  | AFinish t o => finish t o s
  | ARemove t => remove t s
  | AWgDone t => wgDone t s
  | ALeave t => leave t s
  end.

Fixpoint sfRun (l : list sfAction) (s : sfState) : option sfState :=
  match l with [] => Some s | a :: l => s' ← sfStep a s; sfRun l s' end.

Inductive sfReachable : sfState → Prop :=
| sfReachable_init : sfReachable sf_init
| sfReachable_step a s s' : sfReachable s → sfStep a s = Some s' → sfReachable s'.

(** ** The invariant *)

(** The phases of the goroutine that runs call [c]. *)
Definition phase (m : gmap string nat) (c : nat) (cl : call) (p : pc) : Prop :=
  match p with
  | Running k c' => c' = c ∧ k = c_key cl ∧ c_outcome cl = None ∧ c_pending cl = true ∧ m !! k = Some c
  | Finished k c' => c' = c ∧ k = c_key cl ∧ is_Some (c_outcome cl) ∧ c_pending cl = true ∧ m !! k = Some c
  | Removed k c' => c' = c ∧ k = c_key cl ∧ is_Some (c_outcome cl) ∧ c_pending cl = true ∧ m !! k ≠ Some c
  | Leaving k c' => c' = c ∧ k = c_key cl ∧ is_Some (c_outcome cl) ∧ c_pending cl = false ∧ m !! k ≠ Some c
  | Returned k c' o => c' = c ∧ k = c_key cl ∧ c_outcome cl = Some o ∧ c_pending cl = false ∧ m !! k ≠ Some c
  | _ => False
  end.

(** What a goroutine knows about its call. *)
Definition attached (calls : gmap nat call) (t : nat) (p : pc) : Prop :=
  match p with
  | Calling _ => True
  | Running k c | Finished k c | Removed k c | Leaving k c =>
      ∃ cl, calls !! c = Some cl ∧ c_leader cl = t ∧ c_key cl = k
  | Waiting k c => ∃ cl, calls !! c = Some cl ∧ c_leader cl ≠ t ∧ c_key cl = k
  | Returned k c o => ∃ cl, calls !! c = Some cl ∧ c_key cl = k ∧ c_outcome cl = Some o ∧ c_pending cl = false
  end.

Record sf_wf (s : sfState) : Prop := {
  sfw_calls : ∀ c cl, sf_calls s !! c = Some cl →
    ∃ p, sf_threads s !! c_leader cl = Some p ∧ phase (sf_m s) c cl p;
  sfw_threads : ∀ t p, sf_threads s !! t = Some p → attached (sf_calls s) t p;
  sfw_index : ∀ k c, sf_m s !! k = Some c → ∃ cl, sf_calls s !! c = Some cl ∧ c_key cl = k;
  sfw_fresh : ∀ c, is_Some (sf_calls s !! c) → (c < sf_next s)%nat
}.

Lemma sf_init_wf : sf_wf sf_init.
Proof. split; intros; simplify_map_eq. by destruct H. Qed.

(** A step that only moves goroutine [t], which leads no call, to a position
    that fits the calls. *)
Lemma sf_wf_setPc s t p :
  sf_wf s → (∀ c cl, sf_calls s !! c = Some cl → c_leader cl ≠ t) → attached (sf_calls s) t p →
  sf_wf (setPc t p s).
Proof.
  intros [Hc Ht Hi Hf] Hl Hp. split; simpl; try done.
  - intros c cl Hcl. destruct (Hc c cl Hcl) as (q & Hq & Hph). exists q.
    by rewrite lookup_insert_ne by (intros ->; by eapply Hl).
  - intros t' q. destruct (decide (t' = t)) as [->|]; intros; simplify_map_eq; eauto.
Qed.

(** A step of the leader [t] of call [c] that updates the call. *)
Lemma sf_wf_lead s t c cl cl' p m' :
  sf_wf s → sf_calls s !! c = Some cl → c_leader cl = t → c_leader cl' = t → c_key cl' = c_key cl →
  (∀ o, c_outcome cl = Some o → c_outcome cl' = Some o) → (c_pending cl = false → c_pending cl' = false) →
  (∀ k c', c' ≠ c → m' !! k = Some c' ↔ sf_m s !! k = Some c') →
  (∀ k, m' !! k = Some c → sf_m s !! k = Some c) →
  phase m' c cl' p → attached (<[c := cl']> (sf_calls s)) t p →
  sf_wf (mkSf m' (<[c := cl']> (sf_calls s)) (sf_next s) (<[t := p]> (sf_threads s))).
Proof.
  intros [Hc Ht Hi Hf] Hcl Hl Hl' Hk Ho Hpe Hm Hm' Hph Hp. split; simpl.
  - intros c' x Hx. destruct (decide (c' = c)) as [->|Hne]; simplify_map_eq.
    { exists p. split; [by rewrite Hl', lookup_insert_eq|done]. }
    destruct (Hc c' x Hx) as (q & Hq & Hphq). exists q. split.
    + rewrite lookup_insert_ne; [done|]. intros Heq. destruct (Hc c cl Hcl) as (q' & Hq' & Hphq').
      rewrite Heq in Hq'. assert (q' = q) as -> by congruence. destruct q; simpl in *; naive_solver.
    + destruct q; simpl in *; try done; rewrite Hm by done; done.
  - intros t' q Hq. destruct (decide (t' = t)) as [->|]; simplify_map_eq; [done|].
    specialize (Ht t' q Hq). destruct (Hc c cl Hcl) as (q' & Hq' & Hphq').
    destruct q as [k|k c'|k c'|k c'|k c'|k c'|k c' o]; simpl in *; try done;
      (destruct (decide (c' = c)) as [->|]; [|by rewrite lookup_insert_ne by done]);
      rewrite lookup_insert_eq; destruct Ht as (cl1 & Hcl1 & Ht); simplify_eq; naive_solver.
  - intros k c' Hkc. destruct (decide (c' = c)) as [->|Hne].
    + destruct (Hi k c) as (cl1 & ? & ?); [auto|]. simplify_eq. exists cl'. split; [by rewrite lookup_insert_eq|congruence].
    + rewrite lookup_insert_ne by done. apply Hi. by apply Hm.
  - intros c' [x [[<- _]|[_ Hx]]%lookup_insert_Some]; apply Hf; eauto.
Qed.

Lemma sfStep_wf a s s' : sf_wf s → sfStep a s = Some s' → sf_wf s'.
Proof.
  intros Hwf. destruct (Hwf) as [Hc Ht Hi Hf].
  assert (∀ t key, sf_threads s !! t = Some (Calling key) → ∀ c cl, sf_calls s !! c = Some cl → c_leader cl ≠ t) as Hcalling.
  { intros t key Hp c cl Hcl Heq. destruct (Hc c cl Hcl) as (q & Hq & Hph). rewrite Heq, Hp in Hq. by simplify_eq. }
  destruct a as [t key|t|t o|t|t|t]; simpl.
  - unfold invoke. destruct (sf_threads s !! t) as [p|] eqn:Hp; [done|]. intros [= <-].
    apply sf_wf_setPc; [done| |done]. intros c cl Hcl Heq.
    destruct (Hc c cl Hcl) as (q & Hq & _). congruence.
  - unfold enter. destruct (sf_threads s !! t) as [[key| | | | | |]|] eqn:Hp; try done.
    destruct (sf_m s !! key) as [c|] eqn:Hm; intros [= <-].
    + apply sf_wf_setPc; [done|by eapply Hcalling|]. destruct (Hi key c Hm) as (cl & Hcl & Hk).
      exists cl. split_and!; [done|by eapply Hcalling|done].
    + assert (sf_calls s !! sf_next s = None) as Hnone.
      { apply eq_None_not_Some. intros Hs. specialize (Hf _ Hs). lia. }
      split; simpl.
      * intros c cl Hcl. destruct (decide (c = sf_next s)) as [->|Hne]; simplify_map_eq.
        { eexists. split; [done|]. simpl. by simplify_map_eq. }
        destruct (Hc c cl Hcl) as (q & Hq & Hph). exists q.
        rewrite lookup_insert_ne by (intros Heq; by eapply (Hcalling t key Hp c cl)). split; [done|].
        destruct q as [k|k c'|k c'|k c'|k c'|k c'|k c' o]; simpl in *; try done;
          (destruct (decide (k = key)) as [->|]; [rewrite lookup_insert_eq|by rewrite lookup_insert_ne by done]);
          naive_solver congruence.
      * intros t' q Hq. destruct (decide (t' = t)) as [->|]; simplify_map_eq.
        { eexists. by simplify_map_eq. }
        specialize (Ht t' q Hq). destruct q as [k|k c'|k c'|k c'|k c'|k c'|k c' o]; simpl in *; try done;
          destruct Ht as (cl & Hcl & Ht); exists cl; by rewrite lookup_insert_ne by congruence.
      * intros k c Hkc. destruct (decide (k = key)) as [->|]; simplify_map_eq.
        { eexists. by simplify_map_eq. }
        destruct (Hi k c Hkc) as (cl & Hcl & ?). exists cl. by rewrite lookup_insert_ne by congruence.
      * intros c [x [[<- _]|[_ Hx]]%lookup_insert_Some]; [lia|]. specialize (Hf c ltac:(eauto)). lia.
  - unfold finish. destruct (sf_threads s !! t) as [[|key c| | | | |]|] eqn:Hp; try done.
    destruct (sf_calls s !! c) as [cl|] eqn:Hcl; [|done]. intros [= <-].
    destruct (Ht _ _ Hp) as (cl0 & ? & Hl & Hk). simplify_eq.
    destruct (Hc c cl Hcl) as (q & Hq & Hph). rewrite Hp in Hq. simplify_eq. destruct Hph as (_ & _ & Ho & Hpe & Hm).
    apply (sf_wf_lead s (c_leader cl) c cl); simpl; try done; [congruence|by rewrite lookup_insert_eq; eauto].
  - unfold remove. destruct (sf_threads s !! t) as [[| |key c| | | |]|] eqn:Hp; try done. intros [= <-].
    destruct (Ht _ _ Hp) as (cl & Hcl & Hl & Hk). destruct (Hc c cl Hcl) as (q & Hq & Hph).
    rewrite Hl, Hp in Hq. simplify_eq. destruct Hph as (_ & _ & Ho & Hpe & Hm).
    rewrite decide_True by done. rewrite <-(insert_id (sf_calls s) c cl) at 1 by done.
    apply (sf_wf_lead s (c_leader cl) c cl); simpl; try done.
    + intros k c' Hne. rewrite lookup_delete_Some. naive_solver congruence.
    + intros k [_ ?]%lookup_delete_Some. done.
    + by rewrite lookup_delete_eq.
    + by rewrite lookup_insert_eq; eauto.
  - unfold wgDone. destruct (sf_threads s !! t) as [[| | |key c| | |]|] eqn:Hp; try done.
    destruct (sf_calls s !! c) as [cl|] eqn:Hcl; [|done]. intros [= <-].
    destruct (Ht _ _ Hp) as (cl0 & ? & Hl & Hk). simplify_eq.
    destruct (Hc c cl Hcl) as (q & Hq & Hph). rewrite Hp in Hq. simplify_eq. destruct Hph as (_ & _ & Ho & Hpe & Hm).
    apply (sf_wf_lead s (c_leader cl) c cl); simpl; try done. by rewrite lookup_insert_eq; eauto.
  - unfold leave. destruct (sf_threads s !! t) as [[| | | |key c|key c|]|] eqn:Hp; try done.
    + destruct (sf_calls s !! c) as [cl|] eqn:Hcl; [|done]. destruct (c_outcome cl) as [o|] eqn:Ho; [|done]. intros [= <-].
      destruct (Ht _ _ Hp) as (cl0 & ? & Hl & Hk). simplify_eq.
      destruct (Hc c cl Hcl) as (q & Hq & Hph). rewrite Hp in Hq. simplify_eq. destruct Hph as (_ & _ & _ & Hpe & Hm).
      unfold setPc. rewrite <-(insert_id (sf_calls s) c cl) at 1 by done.
      apply (sf_wf_lead s (c_leader cl) c cl); simpl; try done. rewrite lookup_insert_eq. by eauto 6.
    + destruct (sf_calls s !! c) as [cl|] eqn:Hcl; [|done]. destruct (c_pending cl) eqn:Hpe; [done|].
      destruct (c_outcome cl) as [o|] eqn:Ho; [|done]. intros [= <-].
      destruct (Ht _ _ Hp) as (cl0 & ? & Hl & Hk). simplify_eq. apply sf_wf_setPc; [done| |by eexists].
      intros c' cl' Hcl' Heq. destruct (Hc c' cl' Hcl') as (q & Hq & Hph). rewrite Heq, Hp in Hq. by simplify_eq.
Qed.

Lemma sfReachable_wf s : sfReachable s → sf_wf s.
Proof. induction 1; [apply sf_init_wf|by eapply sfStep_wf]. Qed.

(** ** Persistence along runs *)

Lemma sfRun_reachable l s s' : sfReachable s → sfRun l s = Some s' → sfReachable s'.
Proof.
  revert s. induction l as [|a l IH]; intros s Hs; simpl; [by intros [= <-]|].
  destruct (sfStep a s) as [s1|] eqn:H1; [|done]. simpl. apply IH. by eapply sfReachable_step.
Qed.

Lemma sfStep_Returned a s s' t k c o :
  sfStep a s = Some s' → sf_threads s !! t = Some (Returned k c o) → sf_threads s' !! t = Some (Returned k c o).
Proof.
  intros Hs Ht. destruct a as [t' key|t'|t' o'|t'|t'|t']; simpl in Hs;
    unfold invoke, enter, finish, remove, wgDone, leave in Hs;
    (destruct (decide (t' = t)) as [->|]; [by rewrite Ht in Hs|]);
    repeat (case_match; try done); simplify_eq; simpl; by rewrite lookup_insert_ne.
Qed.

Lemma sfRun_Returned l s s' t k c o :
  sfRun l s = Some s' → sf_threads s !! t = Some (Returned k c o) → sf_threads s' !! t = Some (Returned k c o).
Proof.
  revert s. induction l as [|a l IH]; intros s; simpl; [by intros [= <-]|].
  destruct (sfStep a s) as [s1|] eqn:H1; [|done]. simpl. intros Hl Ht. eapply IH; [done|]. by eapply sfStep_Returned.
Qed.

(** ** Work left *)

Definition weight (p : pc) : nat :=
  match p with
  | Calling _ => 5 | Running _ _ => 4 | Finished _ _ => 3 | Removed _ _ => 2
  | Leaving _ _ | Waiting _ _ => 1 | Returned _ _ _ => 0
  end.
Definition work (s : sfState) : nat := sum_list (weight <$> (map_to_list (sf_threads s)).*2).

Definition isInvoke (a : sfAction) : bool := match a with AInvoke _ _ => true | _ => false end.

Lemma work_insert s t p p' m calls next :
  sf_threads s !! t = Some p → (weight p' < weight p)%nat →
  (work (mkSf m calls next (<[t := p']> (sf_threads s))) < work s)%nat.
Proof.
  intros Ht Hw. unfold work. simpl. rewrite <-insert_delete_eq.
  rewrite map_to_list_insert by apply lookup_delete_eq. rewrite <-(map_to_list_delete (sf_threads s) t p Ht).
  simpl. lia.
Qed.

Lemma sfStep_work a s s' : isInvoke a = false → sfStep a s = Some s' → (work s' < work s)%nat.
Proof.
  intros Ha Hs. destruct a as [t key|t|t o|t|t|t]; [done|..]; simpl in Hs;
    unfold enter, finish, remove, wgDone, leave in Hs;
    repeat (case_match; try done); simplify_eq; (eapply (work_insert s t); [eassumption|simpl; lia]).
Qed.

Lemma work_le s : (work s ≤ 5 * size (sf_threads s))%nat.
Proof.
  unfold work. rewrite <-length_map_to_list. induction (map_to_list (sf_threads s)) as [|[t p] l IH]; csimpl; [lia|].
  assert (weight p ≤ 5)%nat by (destruct p; simpl; lia). lia.
Qed.

(** A goroutine that has not returned can step, or waits for one that can. *)
Lemma sf_enabled s t p :
  sf_wf s → sf_threads s !! t = Some p → (0 < weight p)%nat →
  ∃ a s', isInvoke a = false ∧ sfStep a s = Some s'.
Proof.
  intros [Hc Ht Hi Hf] Hp Hw. pose proof (Ht t p Hp) as Hat.
  assert (∀ t q, sf_threads s !! t = Some q → attached (sf_calls s) t q →
    match q with Running _ _ | Finished _ _ | Removed _ _ => True | _ => False end →
    ∃ a s', isInvoke a = false ∧ sfStep a s = Some s') as Hlead.
  { intros t' q Hq Haq Hcase. destruct q as [|k c|k c|k c| | |]; try done.
    - destruct Haq as (cl & Hcl & _). exists (AFinish t' (Panicked "")). simpl. unfold finish. rewrite Hq, Hcl. eauto.
    - exists (ARemove t'). simpl. unfold remove. rewrite Hq. eauto.
    - destruct Haq as (cl & Hcl & _). exists (AWgDone t'). simpl. unfold wgDone. rewrite Hq, Hcl. eauto. }
  destruct p as [k|k c|k c|k c|k c|k c|k c o]; [|by eapply Hlead..| | |simpl in Hw; lia].
  - exists (AEnter t). simpl. unfold enter. rewrite Hp. destruct (sf_m s !! k); eauto.
  - destruct Hat as (cl & Hcl & Hl & _). destruct (Hc c cl Hcl) as (q & Hq & Hph).
    rewrite Hl, Hp in Hq. simplify_eq. destruct Hph as (_ & _ & [o Ho] & _).
    exists (ALeave (c_leader cl)). simpl. unfold leave. rewrite Hp, Hcl, Ho. eauto.
  - destruct Hat as (cl & Hcl & _). destruct (Hc c cl Hcl) as (q & Hq & Hph).
    destruct (c_pending cl) eqn:Hpe.
    + eapply (Hlead (c_leader cl) q); [done|by apply Ht|].
      destruct q; simpl in Hph |- *; try done; destruct Hph as (_ & _ & _ & Hph & _); congruence.
    + assert (is_Some (c_outcome cl)) as [o Ho].
      { destruct q; simpl in Hph; try done; destruct Hph as (_ & _ & Ho & Hph & _); (congruence || eauto). }
      exists (ALeave t). simpl. unfold leave. rewrite Hp, Hcl, Hpe, Ho. eauto.
Qed.

(** ** Guarantees *)

(** [C33] Mutual exclusion per key: in every reachable state at most one
    goroutine is executing [fn] for a key. *)
Theorem singleflight_exclusive s t1 t2 key c1 c2 :
  sfReachable s → sf_threads s !! t1 = Some (Running key c1) → sf_threads s !! t2 = Some (Running key c2) →
  t1 = t2 ∧ c1 = c2.
Proof.
  intros [Hc Ht _ _]%sfReachable_wf H1 H2.
  destruct (Ht _ _ H1) as (l1 & Hl1 & E1 & _), (Ht _ _ H2) as (l2 & Hl2 & E2 & _).
  destruct (Hc _ _ Hl1) as (p1 & Hp1 & Ph1), (Hc _ _ Hl2) as (p2 & Hp2 & Ph2).
  rewrite E1, H1 in Hp1. rewrite E2, H2 in Hp2. simplify_eq.
  destruct Ph1 as (_ & _ & _ & _ & M1), Ph2 as (_ & _ & _ & _ & M2). rewrite M1 in M2. by simplify_eq.
Qed.

(** [C34] Shared result: everyone who returns from the same call returns (or
    panics with) the one outcome of its [fn], and whoever enters [Do] after
    that never joins this call, however the goroutines are scheduled. *)
Theorem singleflight_shares_fresh_result s t key c o :
  sfReachable s → sf_threads s !! t = Some (Returned key c o) →
  (∃ cl, sf_calls s !! c = Some cl ∧ c_outcome cl = Some o) ∧
  (∀ t' k' o', sf_threads s !! t' = Some (Returned k' c o') → o' = o ∧ k' = key) ∧
  (∀ l s1 s2 t' k' c', sfRun l s = Some s1 → sfStep (AEnter t') s1 = Some s2 →
     sf_threads s2 !! t' = Some (Waiting k' c') → c' ≠ c).
Proof.
  intros Hr Hp. destruct (sfReachable_wf s Hr) as [Hc Ht Hi Hf].
  destruct (Ht _ _ Hp) as (cl & Hcl & Hk & Ho & Hpe). split_and!; [by eauto| |].
  - intros t' k' o' Hp'. destruct (Ht _ _ Hp') as (cl' & Hcl' & Hk' & Ho' & _). split; congruence.
  - intros l s1 s2 t' k' c' Hl He Hw ->. pose proof (sfRun_Returned _ _ _ _ _ _ _ Hl Hp) as Hp1.
    destruct (sfReachable_wf s1 (sfRun_reachable _ _ _ Hr Hl)) as [Hc1 Ht1 Hi1 _].
    destruct (Ht1 _ _ Hp1) as (cl1 & Hcl1 & _ & _ & Hpe1). destruct (Hc1 _ _ Hcl1) as (p & Hp2 & Hph).
    simpl in He. unfold enter in He. destruct (sf_threads s1 !! t') as [[k| | | | | |]|] eqn:Ht'; try done.
    destruct (sf_m s1 !! k) as [c0|] eqn:Hm; simplify_eq/=; simplify_map_eq.
    destruct (Hi1 _ _ Hm) as (cl2 & Hcl2 & Hk2). simplify_eq.
    destruct p; simpl in Hph; try done; destruct Hph as (_ & ? & _ & ? & Hne); try congruence; subst; done.
Qed.

(** No caller waits for ever: if [fn] always ends, then from every
    reachable state and under every schedule the goroutines inside [Do] return
    after at most five steps each, and until all have returned one can step. *)
Theorem singleflight_completes s :
  sfReachable s →
  (∀ l s', Forall (λ a, isInvoke a = false) l → sfRun l s = Some s' →
     (length l ≤ 5 * size (sf_threads s))%nat) ∧
  (∃ l s', Forall (λ a, isInvoke a = false) l ∧ sfRun l s = Some s' ∧
     ∀ t p, sf_threads s' !! t = Some p → ∃ k c o, p = Returned k c o).
Proof.
  intros Hr. split.
  - intros l s' Hl Hrun. pose proof (work_le s). enough (length l + work s' ≤ work s)%nat by lia. clear -Hl Hrun.
    revert s Hrun. induction Hl as [|a l Ha Hl IH]; intros s; simpl; [intros [= ->]; lia|].
    destruct (sfStep a s) as [s1|] eqn:H1; [|done]. simpl. intros Hrun. specialize (IH s1 Hrun).
    pose proof (sfStep_work _ _ _ Ha H1). lia.
  - remember (work s) as n eqn:Hn. revert s Hr Hn. induction n as [n IH] using lt_wf_ind. intros s Hr ->.
    destruct (decide (map_Forall (λ _ p, weight p = 0%nat) (sf_threads s))) as [Hz|Hz].
    { exists [], s. split_and!; [done|done|]. intros t p Hp. specialize (Hz t p Hp). destruct p; simpl in Hz; try lia. eauto. }
    apply map_not_Forall in Hz as (t & p & Hp & Hz); [|apply _].
    destruct (sf_enabled s t p (sfReachable_wf s Hr) Hp ltac:(lia)) as (a & s1 & Ha & H1).
    destruct (IH (work s1) (sfStep_work _ _ _ Ha H1) s1) as (l & s' & Hl & Hrun & Hall);
      [by eapply sfReachable_step|done|].
    exists (a :: l), s'. split_and!; [by constructor|simpl; by rewrite H1|done].
Qed.
End singleflight.
Arguments outcome R : clear implicits.
Arguments pc R : clear implicits.
Arguments sfState R : clear implicits.
Arguments sfAction R : clear implicits.

(** ** Concrete runs *)

(** Two callers of one key: the second joins, and both get the value. *)
Definition w_shared : list (sfAction nat) :=
  [AInvoke 1 "k"; AInvoke 2 "k"; AEnter 1; AEnter 2; AFinish 1 (Done_ 7%nat); ARemove 1; AWgDone 1; ALeave 2; ALeave 1].
Definition w_sf (l : list (sfAction nat)) : sfState nat := default sf_init (sfRun l sf_init).

Lemma w_sf_reachable l : is_Some (sfRun l sf_init) → sfReachable (w_sf l).
Proof.
  intros [s Hs]. unfold w_sf. rewrite Hs. simpl. by eapply sfRun_reachable; [apply sfReachable_init|].
Qed.

(** The window the source comments on: between the end of [fn] and the second
    critical section a newcomer still joins the finished call. *)
Lemma singleflight_joins_finished :
  let s := w_sf [AInvoke 1 "k"; AEnter 1; AFinish 1 (Done_ 7%nat); AInvoke 2 "k"; AEnter 2] in
  sf_threads s !! 2%nat = Some (Waiting "k" 0) ∧
  sf_calls s !! 0%nat = Some (mkCall "k" 1 (Some (Done_ 7%nat)) true).
Proof. by vm_compute. Qed.

Lemma singleflight_exclusive_witness :
  let s := w_sf [AInvoke 1 "k"; AInvoke 2 "k"; AEnter 2; AEnter 1] in
  sf_threads s !! 2%nat = Some (Running "k" 0) ∧ 2%nat = 2%nat ∧ 0%nat = 0%nat.
Proof.
  intros s. assert (sf_threads s !! 2%nat = Some (Running "k" 0)) as H2 by (vm_compute; reflexivity).
  split; [exact H2|].
  apply (singleflight_exclusive s 2%nat 2%nat "k" 0%nat 0%nat); [|exact H2|exact H2].
  apply w_sf_reachable. vm_compute. eauto.
Defined.

Lemma singleflight_shares_fresh_result_witness :
  sf_threads (w_sf w_shared) !! 2%nat = Some (Returned "k" 0 (Done_ 7%nat)) ∧
  ∀ t k o, sf_threads (w_sf w_shared) !! t = Some (Returned k 0 o) → o = Done_ 7%nat ∧ k = "k".
Proof.
  assert (sf_threads (w_sf w_shared) !! 2%nat = Some (Returned "k" 0 (Done_ 7%nat))) as H2 by (vm_compute; reflexivity).
  split; [exact H2|].
  apply (singleflight_shares_fresh_result (w_sf w_shared) 2%nat "k" 0%nat (Done_ 7%nat)); [|exact H2].
  apply w_sf_reachable. vm_compute. eauto.
Defined.

Lemma singleflight_completes_witness :
  ∃ l s', Forall (λ a, isInvoke a = false) l ∧ sfRun l (w_sf [AInvoke 1 "k"; AInvoke 2 "k"]) = Some s' ∧
    ∀ t p, sf_threads s' !! t = Some p → ∃ k c o, p = Returned k c o.
Proof. apply singleflight_completes, w_sf_reachable. vm_compute. eauto. Defined.
