(* ===== verification/Prog.v ===== *)
(** * Programs with events

    The methods of [Group] interleave their own steps with calls on shared
    state, other components and the environment.  A program is a tree whose
    nodes are such atomic events: [Vis e k] performs [e] and goes on with its
    answer.  A program can also panic; [finally] is [defer] and [catch] is the
    [recover] of singleflight.

    A program has two readings: the set of its traces, with the answers chosen
    by an adversary ([runs]), and its execution by a handler that answers events
    from a state ([interp]). *)

From Stdlib Require Import Eqdep_dec.
From S2P Require Import Prelude.

Inductive prog {E : Type} (ans : E → Type) (A : Type) : Type :=
| Ret (a : A)
| Panic (v : string)
| Vis (e : E) (k : ans e → prog ans A).
Arguments Ret {E ans A}.
Arguments Panic {E ans A}.
Arguments Vis {E ans A}.

(** How a program ends. *)
Inductive result (A : Type) := Val (a : A) | Boom (v : string).
Arguments Val {A}.
Arguments Boom {A}.

Section prog.
Context {E : Type} {ans : E → Type}.
Notation prog := (prog ans).

Fixpoint bind {A B} (p : prog A) (f : A → prog B) : prog B :=
  match p with
  | Ret a => f a
  | Panic v => Panic v
  | Vis e k => Vis e (λ x, bind (k x) f)
  end.

Definition event (e : E) : prog (ans e) := Vis e Ret.

(** [defer q()] around [p]: [q] runs whether [p] returns or panics. *)
Fixpoint finally {A} (p : prog A) (q : prog unit) : prog A :=
  match p with
  | Ret a => bind q (λ _, Ret a)
  | Panic v => bind q (λ _, Panic v)
  | Vis e k => Vis e (λ x, finally (k x) q)
  end.

(** [recover()] around [p]. *)
Fixpoint catch {A} (p : prog A) : prog (result A) :=
  match p with
  | Ret a => Ret (Val a)
  | Panic v => Ret (Boom v)
  | Vis e k => Vis e (λ x, catch (k x))
  end.

(** ** Traces *)

Definition act := {e : E & ans e}.
Definition did (e : E) (x : ans e) : act := existT e x.

Fixpoint runs {A} (p : prog A) (t : list act) (r : result A) : Prop :=
  match p with
  | Ret a => t = [] ∧ r = Val a
  | Panic v => t = [] ∧ r = Boom v
  | Vis e k => ∃ x t', t = did e x :: t' ∧ runs (k x) t' r
  end.

Lemma runs_bind {A B} (p : prog A) (f : A → prog B) t r :
  runs (bind p f) t r ↔
  (∃ t1 t2 a, t = t1 ++ t2 ∧ runs p t1 (Val a) ∧ runs (f a) t2 r) ∨
  (∃ v, runs p t (Boom v) ∧ r = Boom v).
Proof.
  revert t. induction p as [a|v|e k IH]; intros t; simpl.
  - split; [intros Hf; left; by exists [], t, a|].
    intros [(t1 & t2 & a' & -> & [-> [= ->]] & Hf)|(v & [-> ?] & _)]; done.
  - split; [intros [-> ->]; right; by exists v|].
    intros [(t1 & t2 & a' & -> & [-> ?] & Hf)|(v' & [-> [= ->]] & ->)]; done.
  - split.
    + intros (x & t' & -> & Hr). apply IH in Hr as [(t1 & t2 & a & -> & Hp & Hf)|(v & Hp & ->)].
      * left. exists (did e x :: t1), t2, a. eauto 6.
      * right. exists v. eauto 6.
    + intros [(t1 & t2 & a & -> & (x & t' & -> & Hp) & Hf)|(v & (x & t' & -> & Hp) & ->)].
      * exists x, (t' ++ t2). split; [done|]. apply IH. left. eauto 6.
      * exists x, t'. split; [done|]. apply IH. eauto.
Qed.

(** The events determine how a program goes on: after the trace with which [p]
    returns, [f] runs. *)
Lemma runs_prefix `{EqDecision E} {A B} (p : prog A) (f : A → prog B) t1 t2 a r :
  runs p t1 (Val a) → runs (bind p f) (t1 ++ t2) r → runs (f a) t2 r.
Proof.
  revert t1. induction p as [a'|v|e k IH]; intros t1; simpl; [by intros [-> [= ->]]|by intros [_ ?]|].
  intros (x & t' & -> & Hp) (x' & t'' & Heq & Hr). injection Heq as Hx <-.
  apply (inj_pair2_eq_dec E (λ x y, decide (x = y))) in Hx as <-. by eapply IH.
Qed.

Lemma runs_finally {A} (p : prog A) q t r :
  runs (finally p q) t r ↔
  (∃ t1 t2 r', t = t1 ++ t2 ∧ runs p t1 r' ∧
     ((runs q t2 (Val tt) ∧ r = r') ∨ (∃ v, runs q t2 (Boom v) ∧ r = Boom v))).
Proof.
  revert t. induction p as [a|v|e k IH]; intros t; simpl.
  - rewrite runs_bind. split.
    + intros [(t1 & t2 & [] & -> & Hq & -> & ->)|(v & Hq & ->)].
      * exists [], t1, (Val a). rewrite app_nil_r. auto 6.
      * exists [], t, (Val a). eauto 8.
    + intros (t1 & t2 & r' & -> & [-> ->] & [[Hq ->]|(v & Hq & ->)]); [left|right; eauto].
      exists t2, [], (). by rewrite app_nil_r.
  - rewrite runs_bind. split.
    + intros [(t1 & t2 & [] & -> & Hq & -> & ->)|(v' & Hq & ->)].
      * exists [], t1, (Boom v). rewrite app_nil_r. auto 6.
      * exists [], t, (Boom v). eauto 8.
    + intros (t1 & t2 & r' & -> & [-> ->] & [[Hq ->]|(v' & Hq & ->)]); [left|right; eauto].
      exists t2, [], (). by rewrite app_nil_r.
  - split.
    + intros (x & t' & -> & Hr). apply IH in Hr as (t1 & t2 & r' & -> & Hp & Hq).
      exists (did e x :: t1), t2, r'. split; [done|]. eauto 6.
    + intros (t1 & t2 & r' & -> & (x & t' & -> & Hp) & Hq).
      exists x, (t' ++ t2). split; [done|]. apply IH. eauto 6.
Qed.

Lemma runs_catch {A} (p : prog A) t r : runs (catch p) t r ↔ ∃ r', r = Val r' ∧ runs p t r'.
Proof.
  revert t. induction p as [a|v|e k IH]; intros t; simpl; [naive_solver..|].
  setoid_rewrite IH. naive_solver.
Qed.

(** A property of events that every trace of a program satisfies. *)
Fixpoint every {A} (P : E → Prop) (p : prog A) : Prop :=
  match p with Ret _ | Panic _ => True | Vis e k => P e ∧ ∀ x, every P (k x) end.

Lemma every_bind {A B} P (p : prog A) (f : A → prog B) : every P p → (∀ a, every P (f a)) → every P (bind p f).
Proof. intros Hp Hf. induction p as [a|v|e k IH]; simpl; [done|done|]. destruct Hp. split; [done|]. auto. Qed.
Lemma every_finally {A} P (p : prog A) q : every P p → every P q → every P (finally p q).
Proof.
  intros Hp Hq. induction p as [a|v|e k IH]; simpl; [by apply every_bind..|]. destruct Hp. split; [done|]. auto.
Qed.
Lemma every_catch {A} P (p : prog A) : every P p → every P (catch p).
Proof. induction p as [a|v|e k IH]; simpl; [done|done|]. intros []. split; [done|]. auto. Qed.

Lemma every_runs {A} P (p : prog A) t r : every P p → runs p t r → Forall (λ a, P (projT1 a)) t.
Proof.
  revert t. induction p as [a|v|e k IH]; intros t; simpl; [by intros _ [-> _]..|].
  intros [HP Hk] (x & t' & -> & Hr). constructor; [done|]. by eapply IH.
Qed.

(** Events satisfy [P] until an event and its answer satisfy [Q]. *)
Fixpoint guarded {A} (Q : act → bool) (P : E → Prop) (p : prog A) : Prop :=
  match p with
  | Ret _ | Panic _ => True
  | Vis e k => P e ∧ ∀ x, Q (did e x) = false → guarded Q P (k x)
  end.

Lemma guarded_bind {A B} Q P (p : prog A) (f : A → prog B) :
  guarded Q P p → (∀ a, guarded Q P (f a)) → guarded Q P (bind p f).
Proof. intros Hp Hf. induction p as [a|v|e k IH]; simpl; [done|done|]. destruct Hp. split; [done|]. auto. Qed.
Lemma guarded_finally {A} Q P (p : prog A) q : guarded Q P p → guarded Q P q → guarded Q P (finally p q).
Proof.
  intros Hp Hq. induction p as [a|v|e k IH]; simpl; [by apply guarded_bind..|]. destruct Hp. split; [done|]. auto.
Qed.
Lemma guarded_catch {A} Q P (p : prog A) : guarded Q P p → guarded Q P (catch p).
Proof. induction p as [a|v|e k IH]; simpl; [done|done|]. intros []. split; [done|]. auto. Qed.

Lemma guarded_runs {A} Q P (p : prog A) t r :
  guarded Q P p → runs p t r → existsb Q t = false → Forall (λ a, P (projT1 a)) t.
Proof.
  revert t. induction p as [a|v|e k IH]; intros t; simpl; [by intros _ [-> _]..|].
  intros [HP Hk] (x & t' & -> & Hr) [HQ HQ']%orb_false_iff. constructor; [done|]. by eapply IH; [apply Hk|..].
Qed.

(** At most [n] events satisfy [P]. *)
Fixpoint atMost {A} (P : E → bool) (n : nat) (p : prog A) : Prop :=
  match p with
  | Ret _ | Panic _ => True
  | Vis e k => if P e then match n with O => False | S n => ∀ x, atMost P n (k x) end
               else ∀ x, atMost P n (k x)
  end.

Lemma atMost_mono {A} P n m (p : prog A) : (n ≤ m)%nat → atMost P n p → atMost P m p.
Proof.
  revert n m. induction p as [a|v|e k IH]; intros n m Hnm; simpl; [done|done|].
  destruct (P e); [|by eauto]. destruct n, m; [done|done|lia|]. intros Hk x. apply (IH x n); [lia|done].
Qed.
Lemma atMost_bind {A B} P n m (p : prog A) (f : A → prog B) :
  atMost P n p → (∀ a, atMost P m (f a)) → atMost P (n + m) (bind p f).
Proof.
  intros Hp Hf. revert n Hp. induction p as [a|v|e k IH]; intros n Hp; simpl in *.
  - by apply (atMost_mono P m); [lia|].
  - done.
  - destruct (P e); [|by auto]. destruct n; [done|]. simpl. auto.
Qed.
Lemma every_atMost {A} P (p : prog A) : every (λ e, P e = false) p → atMost P 0 p.
Proof. induction p as [a|v|e k IH]; simpl; [done|done|]. intros [-> Hk]. auto. Qed.

Definition count (P : E → bool) (t : list act) : nat := length (filter (λ a, P (projT1 a) = true) t).
Lemma atMost_runs {A} P n (p : prog A) t r : atMost P n p → runs p t r → (count P t ≤ n)%nat.
Proof.
  revert n t. induction p as [a|v|e k IH]; intros n t; simpl; [by intros _ [-> _]; unfold count; simpl; lia..|].
  intros Hk (x & t' & -> & Hr). unfold count. rewrite filter_cons. simpl.
  destruct (P e); simpl; [|by eapply IH]. destruct n; [done|]. apply le_n_S. by eapply IH.
Qed.

(** ** Execution by a handler *)

Section interp.
Context {W : Type} (handle : ∀ e : E, W → W * ans e).

Fixpoint interp {A} (p : prog A) (w : W) : W * result A :=
  match p with
  | Ret a => (w, Val a)
  | Panic v => (w, Boom v)
  | Vis e k => let '(w', x) := handle e w in interp (k x) w'
  end.

Lemma interp_bind {A B} (p : prog A) (f : A → prog B) w :
  interp (bind p f) w =
  match interp p w with
  | (w', Val a) => interp (f a) w'
  | (w', Boom v) => (w', Boom v)
  end.
Proof. revert w. induction p as [a|v|e k IH]; intros w; simpl; [done|done|]. destruct (handle e w). apply IH. Qed.

Lemma interp_finally {A} (p : prog A) q w :
  interp (finally p q) w =
  let '(w1, r) := interp p w in
  match interp q w1 with (w2, Val _) => (w2, r) | (w2, Boom v) => (w2, Boom v) end.
Proof.
  revert w. induction p as [a|v|e k IH]; intros w; simpl.
  - rewrite interp_bind. by destruct (interp q w) as [? []].
  - rewrite interp_bind. by destruct (interp q w) as [? []].
  - destruct (handle e w). apply IH.
Qed.

Lemma interp_catch {A} (p : prog A) w :
  interp (catch p) w = let '(w', r) := interp p w in (w', Val r).
Proof. revert w. induction p as [a|v|e k IH]; intros w; simpl; [done|done|]. destruct (handle e w). apply IH. Qed.

(** ** Reasoning about executions: the execution of [p] from [w] ends as [Q]
    says. *)

Definition ends {A} (p : prog A) (w : W) (Q : W → result A → Prop) : Prop :=
  let '(w', r) := interp p w in Q w' r.

Lemma ends_ret {A} (a : A) w (Q : W → result A → Prop) : Q w (Val a) → ends (Ret a) w Q.
Proof. done. Qed.
Lemma ends_event {A} e (k : ans e → prog A) w (Q : W → result A → Prop) :
  ends (k (handle e w).2) (handle e w).1 Q → ends (bind (event e) k) w Q.
Proof. unfold ends. simpl. by destruct (handle e w). Qed.
Lemma ends_bind {A B} (p : prog A) (f : A → prog B) w (Q : W → result B → Prop) :
  ends p w (λ w' r, match r with Val a => ends (f a) w' Q | Boom v => Q w' (Boom v) end) → ends (bind p f) w Q.
Proof. unfold ends. rewrite interp_bind. by destruct (interp p w) as [w' [a|v]]. Qed.
Lemma ends_finally {A} (p : prog A) q w (Q : W → result A → Prop) :
  ends p w (λ w' r, ends q w' (λ w2 r2, Q w2 (match r2 with Val _ => r | Boom v => Boom v end))) →
  ends (finally p q) w Q.
Proof.
  unfold ends. rewrite interp_finally. destruct (interp p w) as [w' r]. by destruct (interp q w') as [w2 [[]|v]].
Qed.
Lemma ends_catch {A} (p : prog A) w (Q : W → result (result A) → Prop) :
  ends p w (λ w' r, Q w' (Val r)) → ends (catch p) w Q.
Proof. unfold ends. rewrite interp_catch. by destruct (interp p w). Qed.
Lemma ends_mono {A} (p : prog A) w (Q Q' : W → result A → Prop) :
  ends p w Q → (∀ w' r, Q w' r → Q' w' r) → ends p w Q'.
Proof. unfold ends. destruct (interp p w). auto. Qed.

(** An execution is one of the traces. *)
Lemma interp_runs {A} (p : prog A) w : ∃ t, runs p t (interp p w).2.
Proof.
  revert w. induction p as [a|v|e k IH]; intros w; simpl; [by exists []..|].
  destruct (handle e w) as [w' x]. destruct (IH x w') as [t Ht]. exists (did e x :: t). eauto.
Qed.
End interp.
End prog.

(** ** Events and what came before them

    [always G h p]: after the history [h], the program [p] performs an event only
    when [G] allows it in view of the events before it. *)

Section always.
Context {E : Type} {ans' : E → Type} (G : list (act (ans := ans')) → E → Prop).

Fixpoint always {A} (h : list act) (p : prog ans' A) : Prop :=
  match p with Vis e k => G h e ∧ ∀ x, always (h ++ [did e x]) (k x) | _ => True end.

Lemma always_bind {A B} h (p : prog ans' A) (f : A → prog ans' B) :
  always h p → (∀ t a, runs p t (Val a) → always (h ++ t) (f a)) → always h (bind p f).
Proof.
  revert h. induction p as [a|v|e k IH]; intros h Hp Hf; [|done|].
  - specialize (Hf [] a). rewrite app_nil_r in Hf. by apply Hf.
  - destruct Hp as [He Hk]. split; [done|]. intros x. apply IH; [apply Hk|]. intros t a Ht. rewrite <-app_assoc. apply Hf. by exists x, t.
Qed.
Lemma always_finally {A} h (p : prog ans' A) (q : prog ans' unit) :
  always h p → (∀ t r, runs p t r → always (h ++ t) q) → always h (finally p q).
Proof.
  revert h. induction p as [a|v|e k IH]; intros h Hp Hq; cbn [finally].
  - apply always_bind; [|done]. specialize (Hq [] (Val a)). rewrite app_nil_r in Hq. by apply Hq.
  - apply always_bind; [|done]. specialize (Hq [] (Boom v)). rewrite app_nil_r in Hq. by apply Hq.
  - destruct Hp as [He Hk]. split; [done|]. intros x. apply IH; [apply Hk|]. intros t r Ht. rewrite <-app_assoc. eapply Hq. by exists x, t.
Qed.
Lemma always_every {A} h (p : prog ans' A) : every (λ e, ∀ h, G h e) p → always h p.
Proof. revert h. induction p as [a|v|e k IH]; intros h; [done|done|]. intros [He Hk]. split; [apply He|]. intros x. apply IH, Hk. Qed.
End always.

Lemma always_weaken {E} {ans' : E → Type} {A} (G G' : list (act (ans := ans')) → E → Prop) h (p : prog ans' A) :
  always G h p → (∀ h e, G h e → G' h e) → always G' h p.
Proof. intros Hp HG. revert h Hp. induction p as [a|v|e k IH]; intros h; [done|done|]. intros [He Hk]. split; auto. Qed.

(** Notations for sequencing, kept in a scope of their own. *)
Declare Scope prog_scope.
Delimit Scope prog_scope with prog.
Notation "x <- p ;; q" := (bind p (λ x, q)) (at level 100, p at next level, right associativity) : prog_scope.
Notation "p ;;; q" := (bind p (λ _, q)) (at level 100, right associativity) : prog_scope.
