(* ===== verification/Group.v ===== *)
(** * The distributed cache group (group.go)

    The methods of [Group] as programs over events.  Each event is one atomic
    access to the shared state of the group (its caches, key states, counters,
    owner epoch), one call on another component (the [PeerPicker], a [Peer],
    the [Getter], the singleflight group) or one reading of the clock.  Mutexes
    are events, so critical sections are visible in the traces.

    The fields of the group that do not change after its construction are the
    record [config].  A context is not modelled: its end shows in the answers
    of peer calls and of the [select] of [waitForTopologyRetry]. *)

From S2P Require Import Prelude Store ByteView Errors Peers Singleflight Prog.
#[local] Open Scope prog_scope.

(** ** The group's configuration and state components *)

(** [hasGetter], [hasNear], [hasPeers]: whether the field is non-nil. *)
Record config := mkGConfig {
  name : string; hasGetter : bool; hasNear : bool; nearTTL : Z; hasPeers : bool; expiration : Z
}.

(** [type groupStats struct], one constructor per counter. *)
Inductive counter :=
| localHits | localMisses | nearHits | nearMisses | peerHits | peerMisses
| sourceLoads | sourceErrors | sourceDuration | sets | deletes | invalidationFailures.

#[export] Instance counter_eq_dec : EqDecision counter.
Proof. solve_decision. Defined.

(** What a getter can do. *)
Inductive loaded := LoadOk (bytes : list Z) | LoadErr (err : error) | LoadPanic (v : string).

(** The singleflight group's answer to a caller: it leads a new call or joins. *)
Inductive flight := Lead (c : nat) | Join (c : nat).

(** How a turn of the loop of [Set] or [Delete] ends: return an error, [break] with the owner and
    the stable epoch, or [continue] with the owner picked in this turn. *)
Inductive turn (A : Type) := TReturn (err : error) | TBreak (a : A) | TContinue (owner : string).
Arguments TReturn {A}.
Arguments TBreak {A}.
Arguments TContinue {A}.

(** ** Events *)

Inductive ev :=
| EvClosed                                          (* atomic.LoadInt32(&g.closed) == 1 *)
| EvNow                                             (* time.Now() *)
| EvStat (f : counter) (n : Z)                      (* atomic.AddInt64 *)
| EvPickOwner (key : string)                        (* g.peers.PickOwner *)
| EvEpoch                                           (* g.peers.Epoch *)
| EvInvalidate (group key owner : string)           (* g.peers.Invalidate *)
| EvPeerGet (c : Client) (group key : string)       (* peer.Get *)
| EvPeerSet (c : Client) (group key : string) (value : list Z)
| EvPeerDelete (c : Client) (group key : string)
| EvGetter (key : string)                           (* g.getter.Get *)
| EvMainGet (key : string)                          (* g.mainCache *)
| EvMainAdd (key : string) (view : ByteView)
| EvMainAddExp (key : string) (view : ByteView) (at_ : Z)
| EvMainDelete (key : string)
| EvMainClear
| EvNearGet (key : string)                          (* g.nearCache *)
| EvNearAddExp (key : string) (view : ByteView) (at_ : Z)
| EvNearDelete (key : string)
| EvOwnerLock                                       (* g.ownerEpochMu *)
| EvOwnerUnlock
| EvOwnerGet                                        (* g.ownerEpoch *)
| EvOwnerPut (e : Z)
| EvAcquire (key : string)                          (* g.acquireKeyState *)
| EvRelease (key : string) (st : nat)               (* g.releaseKeyState *)
| EvLock (st : nat)                                 (* state.mu *)
| EvUnlock (st : nat)
| EvGen (st : nat)                                  (* state.generation *)
| EvIncGen (st : nat)
| EvFlight (key : string)                           (* loader.Do: first critical section *)
| EvFlightWait (c : nat)                            (* loader.Do: c.wg.Wait() *)
| EvFlightEnd (key : string) (c : nat) (o : outcome (error + ByteView))
| EvSelect (timer : bool).                          (* select of waitForTopologyRetry *)

#[export] Instance outcome_eq_dec {R} `{EqDecision R} : EqDecision (outcome R).
Proof. solve_decision. Defined.
#[export] Instance ev_eq_dec : EqDecision ev.
Proof. solve_decision. Defined.

(** The answer of the [select] is the context's error, if the context ended;
    otherwise the timer fired ([timer]) or the ticker did. *)
Definition ans (e : ev) : Type :=
  match e with
  | EvClosed | EvMainDelete _ | EvNearDelete _ => bool
  | EvNow | EvEpoch | EvOwnerGet | EvGen _ => Z
  | EvPickOwner _ => Pick
  | EvInvalidate _ _ _ => option error
  | EvPeerGet _ _ _ => error + list Z
  | EvPeerSet _ _ _ _ => option error
  | EvPeerDelete _ _ _ => error + bool
  | EvGetter _ => loaded
  | EvMainGet _ | EvNearGet _ => option ByteView
  | EvAcquire _ => nat
  | EvFlight _ => flight
  | EvFlightWait _ => outcome (error + ByteView)
  | EvSelect _ => option error
  | _ => unit
  end%type.

Notation gprog := (prog ans).
Notation do e := (event (ans := ans) e) (only parsing).

Section group.
Context (g : config).

Definition nearKey (epoch : Z) (key : string) : string := pretty epoch +:+ ":" +:+ key.

(** The rounds of the loop: [ticks] is the number of ticks of the ticker that
    are received before the timer fires. *)
Fixpoint waitLoop (ticks : nat) (epoch : Z) : gprog (option error) :=
  e <- do EvEpoch ;;
  if decide (e ≠ epoch) then Ret None
  else match ticks with
       | O => done <- do (EvSelect true) ;; Ret done
       | S ticks =>
           done <- do (EvSelect false) ;;
           match done with Some err => Ret (Some err) | None => waitLoop ticks epoch end
       end.

Definition waitForTopologyRetry (ticks : nat) (epoch : Z) : gprog (option error) :=
  if negb (hasPeers g) then Ret None else waitLoop ticks epoch.

Definition invalidateNearKey (key : string) : gprog unit :=
  if negb (hasNear g) then Ret tt
  else if hasPeers g then e <- do EvEpoch ;; do (EvNearDelete (nearKey e key)) ;;; Ret tt
  else Ret tt.

Definition invalidateLocalCopies (key : string) : gprog unit :=
  (if hasPeers g then
     r <- do (EvPickOwner key) ;;
     if pk_ok r && negb (String.eqb (pk_owner r) "") && negb (pk_self r)
     then do (EvMainDelete key) ;;; Ret tt else Ret tt
   else Ret tt) ;;;
  invalidateNearKey key.

Definition invalidatePeerCopies (key owner : string) : gprog unit :=
  if negb (hasPeers g) then Ret tt
  else r <- do (EvInvalidate (name g) key owner) ;;
       match r with Some _ => do (EvStat invalidationFailures 1) | None => Ret tt end.

(** [prepareLocalOwner], with the critical section of [ownerEpochMu]. *)
Definition prepareLocalOwner (key : string) : gprog (error + Z) :=
  if negb (hasPeers g) then Ret (inr 0)
  else
    r <- do (EvPickOwner key) ;;
    if negb (pk_ok r) || String.eqb (pk_owner r) "" then Ret (inl (Sentinel ErrNoOwner))
    else if negb (pk_self r) then Ret (inl (withOwner ErrNotOwner (pk_owner r)))
    else
      do EvOwnerLock ;;;
      oe <- do EvOwnerGet ;;
      (if decide (oe = 0) then do (EvOwnerPut (pk_epoch r))
       else if decide (oe ≠ pk_epoch r) then do EvMainClear ;;; do (EvOwnerPut (pk_epoch r))
       else Ret tt) ;;;
      do EvOwnerUnlock ;;;
      Ret (inr (pk_epoch r)).

Definition addOwnerValue (key : string) (view : ByteView) : gprog unit :=
  if 0 <? expiration g
  then now <- do EvNow ;; do (EvMainAddExp key view (time_Add now (expiration g)))
  else do (EvMainAdd key view).

(** singleflight's [Do], for a function that may panic. *)
Definition flightDo (key : string) (fn : gprog (error + ByteView)) : gprog (error + ByteView) :=
  f <- do (EvFlight key) ;;
  match f with
  | Join c =>
      o <- do (EvFlightWait c) ;;
      match o with Done_ r => Ret r | Panicked v => Panic v end
  | Lead c =>
      r <- catch fn ;;
      let o := match r with Val r => Done_ r | Boom v => Panicked v end in
      do (EvFlightEnd key c o) ;;;
      match o with Done_ r => Ret r | Panicked v => Panic v end
  end.

(** The function [getLocal] passes to the loader, for the key state [st]. *)
Definition loadOwner (key : string) (epoch : Z) (st : nat) : gprog (error + ByteView) :=
  do (EvLock st) ;;;
  cached <- do (EvMainGet key) ;;
  match cached with
  | Some view => do (EvUnlock st) ;;; Ret (inr view)
  | None =>
      startGeneration <- do (EvGen st) ;;
      do (EvUnlock st) ;;;
      start <- do EvNow ;;
      do (EvStat sourceLoads 1) ;;;
      l <- do (EvGetter key) ;;
      match l with
      | LoadPanic v => Panic v
      | _ =>
          now <- do EvNow ;;
          do (EvStat sourceDuration (time_Sub now start)) ;;;
          match l with
          | LoadErr loadErr => do (EvStat sourceErrors 1) ;;; Ret (inl loadErr)
          | LoadPanic v => Panic v
          | LoadOk bytes =>
              moved <- (if hasPeers g
                        then r <- do (EvPickOwner key) ;;
                             Ret (negb (pk_ok r) || negb (pk_self r) || negb (pk_epoch r =? epoch))
                        else Ret false) ;;
              if (moved : bool) then Ret (inl (Sentinel ErrTopologyChanged))
              else
                do (EvLock st) ;;;
                finally
                  (gen <- do (EvGen st) ;;
                   if decide (gen ≠ startGeneration) then
                     cached <- do (EvMainGet key) ;;
                     match cached with
                     | Some view => Ret (inr view)
                     | None => Ret (inl (Sentinel ErrCacheMiss))
                     end
                   else
                     let view := mkByteView (cloneBytes bytes) in
                     addOwnerValue key view ;;; Ret (inr view))
                  (do (EvUnlock st))
          end
      end
  end.

Definition getLocal (key : string) : gprog (error + ByteView) :=
  closed <- do EvClosed ;;
  if (closed : bool) then Ret (inl (Sentinel ErrGroupClosed))
  else
    prep <- prepareLocalOwner key ;;
    match prep with
    | inl err => Ret (inl err)
    | inr epoch =>
        st <- do (EvAcquire key) ;;
        finally
          (cached <- do (EvMainGet key) ;;
           match cached with
           | Some view => do (EvStat localHits 1) ;;; Ret (inr view)
           | None =>
               do (EvStat localMisses 1) ;;;
               if negb (hasGetter g) then Ret (inl (Sentinel ErrCacheMiss))
               else
                 r <- flightDo key (loadOwner key epoch st) ;;
                 match r with
                 | inl err =>
                     if errors_Is err ErrCacheMiss || errors_Is err ErrTopologyChanged || errors_Is err ErrNotOwner
                     then Ret (inl err)
                     else Ret (inl (Wrap [Lit "load "; Quoted key; Lit " from source: "] err []))
                 | inr view => Ret (inr view)
                 end
           end)
          (do (EvRelease key st))
    end.

Definition setLocal (key : string) (value : list Z) : gprog (option error) :=
  closed <- do EvClosed ;;
  if (closed : bool) then Ret (Some (Sentinel ErrGroupClosed))
  else
    prep <- prepareLocalOwner key ;;
    match prep, hasPeers g with
    | inl err, true => Ret (Some err)
    | _, _ =>
        st <- do (EvAcquire key) ;;
        finally
          (do (EvLock st) ;;;
           do (EvIncGen st) ;;;
           addOwnerValue key (mkByteView (cloneBytes value)) ;;;
           do (EvUnlock st) ;;;
           invalidateNearKey key ;;;
           Ret None)
          (do (EvRelease key st))
    end.

Definition deleteLocal (key : string) : gprog bool :=
  st <- do (EvAcquire key) ;;
  finally
    (do (EvLock st) ;;;
     do (EvIncGen st) ;;;
     removed <- do (EvMainDelete key) ;;
     do (EvUnlock st) ;;;
     invalidateNearKey key ;;;
     Ret removed)
    (do (EvRelease key st)).

Definition deleteOwnerLocal (key : string) : gprog (error + bool) :=
  closed <- do EvClosed ;;
  if (closed : bool) then Ret (inl (Sentinel ErrGroupClosed))
  else
    prep <- prepareLocalOwner key ;;
    match prep, hasPeers g with
    | inl err, true => Ret (inl err)
    | _, _ => removed <- deleteLocal key ;; Ret (inr removed)
    end.

(** A method call on a [Peer] that is a nil [*Client] dereferences it. *)
Definition nilPeer {A} : gprog A := Panic "invalid memory address or nil pointer dereference".
Definition peerGet (c : option Client) (key : string) : gprog (error + list Z) :=
  match c with Some c => do (EvPeerGet c (name g) key) | None => nilPeer end.
Definition peerSet (c : option Client) (key : string) (value : list Z) : gprog (option error) :=
  match c with Some c => do (EvPeerSet c (name g) key value) | None => nilPeer end.
Definition peerDelete (c : option Client) (key : string) : gprog (error + bool) :=
  match c with Some c => do (EvPeerDelete c (name g) key) | None => nilPeer end.

Definition isTopology (err : error) : bool := errors_Is err ErrNotOwner || errors_Is err ErrTopologyChanged.

(** The two views of the ring name the same owner in the same epoch. *)
Definition samePick (r r' : Pick) : bool :=
  pk_ok r' && String.eqb (pk_owner r') (pk_owner r) && (pk_epoch r' =? pk_epoch r).

(** The near-cache lookup of [Get]: the view, if it is valid. *)
Definition nearLookup (key : string) (r : Pick) : gprog (option ByteView) :=
  if negb (hasNear g) then Ret None
  else
    let nk := nearKey (pk_epoch r) key in
    hit <- do (EvNearGet nk) ;;
    match hit with
    | Some view =>
        r' <- do (EvPickOwner key) ;;
        if samePick r r' then do (EvStat nearHits 1) ;;; Ret (Some view)
        else do (EvNearDelete nk) ;;; do (EvStat nearMisses 1) ;;; Ret None
    | None => do (EvStat nearMisses 1) ;;; Ret None
    end.

(** One turn of the loop of [Get]: [None] is [continue]. *)
Definition getTurn (last : bool) (ticks : nat) (key : string) : gprog (option (error + ByteView)) :=
  r <- do (EvPickOwner key) ;;
  if negb (pk_ok r) || String.eqb (pk_owner r) "" then Ret (Some (inl (Sentinel ErrNoOwner)))
  else if pk_self r then
    v <- getLocal key ;;
    match v with
    | inl err => if errors_Is err ErrTopologyChanged || errors_Is err ErrNotOwner then Ret None else Ret (Some (inl err))
    | inr view => Ret (Some (inr view))
    end
  else
    match pk_peer r with
    | PeerNil => Ret (Some (inl (withOwner ErrPeerUnavailable (pk_owner r))))
    | PeerClient c =>
        near <- nearLookup key r ;;
        match near with
        | Some view => Ret (Some (inr view))
        | None =>
            bytes <- peerGet c key ;;
            match bytes with
            | inl err =>
                do (EvStat peerMisses 1) ;;;
                if isTopology err then
                  if last then Ret (Some (inl (Sentinel ErrTopologyChanged)))
                  else w <- waitForTopologyRetry ticks (pk_epoch r) ;;
                       match w with Some waitErr => Ret (Some (inl waitErr)) | None => Ret None end
                else Ret (Some (inl (Wrap [Lit "get "; Quoted key; Lit " from owner "; Lit (pk_owner r); Lit ": "] err [])))
            | inr bytes =>
                r' <- do (EvPickOwner key) ;;
                if negb (samePick r r') || pk_self r' then Ret None
                else
                  do (EvStat peerHits 1) ;;;
                  let view := mkByteView (cloneBytes bytes) in
                  (if hasNear g
                   then now <- do EvNow ;; do (EvNearAddExp (nearKey (pk_epoch r) key) view (time_Add now (nearTTL g)))
                   else Ret tt) ;;;
                  Ret (Some (inr view))
            end
        end
    end.

(** The loop [for attempt := 0; attempt < 4; attempt++] with [n] turns to
    go; [attempt == 3] in the last one.  [ticks] gives the ticks of each turn's
    wait. *)
Fixpoint getLoop (n : nat) (ticks : nat → nat) (key : string) : gprog (error + ByteView) :=
  match n with
  | O => Ret (inl (Sentinel ErrTopologyChanged))
  | S n =>
      v <- getTurn (n =? 0)%nat (ticks n) key ;;
      match v with Some r => Ret r | None => getLoop n ticks key end
  end.

Definition Get (ticks : nat → nat) (key : string) : gprog (error + ByteView) :=
  closed <- do EvClosed ;;
  if (closed : bool) then Ret (inl (Sentinel ErrGroupClosed))
  else if decide (key = "") then Ret (inl (Sentinel ErrKeyRequired))
  else if negb (hasPeers g) then getLocal key
  else getLoop 4 ticks key.

(** The part of a turn after the owner has acknowledged. *)
Definition confirm (last : bool) (key : string) (r : Pick) : gprog (turn (string * Z)) :=
  r' <- do (EvPickOwner key) ;;
  if samePick r r' then Ret (TBreak (pk_owner r, pk_epoch r))
  else if last then Ret (TReturn (Sentinel ErrTopologyChanged))
  else Ret (TContinue (pk_owner r)).

(** The part of a turn after the owner's node has refused: wait and retry. *)
Definition refused (last : bool) (ticks : nat) (r : Pick) : gprog (turn (string * Z)) :=
  if last then Ret (TReturn (Sentinel ErrTopologyChanged))
  else w <- waitForTopologyRetry ticks (pk_epoch r) ;;
       match w with Some waitErr => Ret (TReturn waitErr) | None => Ret (TContinue (pk_owner r)) end.

Definition setTurn (last : bool) (ticks : nat) (key : string) (value : list Z) : gprog (turn (string * Z)) :=
  if negb (hasPeers g) then
    r <- setLocal key value ;;
    match r with Some err => Ret (TReturn err) | None => Ret (TBreak ("", 0)) end
  else
    r <- do (EvPickOwner key) ;;
    if negb (pk_ok r) || String.eqb (pk_owner r) "" then Ret (TReturn (Sentinel ErrNoOwner))
    else if pk_self r then
      e <- setLocal key value ;;
      match e with
      | Some err =>
          if errors_Is err ErrTopologyChanged || errors_Is err ErrNotOwner
          then Ret (TContinue (pk_owner r)) else Ret (TReturn err)
      | None => confirm last key r
      end
    else
      match pk_peer r with
      | PeerNil => Ret (TReturn (withOwner ErrPeerUnavailable (pk_owner r)))
      | PeerClient c =>
          e <- peerSet c key value ;;
          match e with
          | Some err =>
              if isTopology err then refused last ticks r
              else Ret (TReturn (Wrap [Lit "set "; Quoted key; Lit " on owner "; Lit (pk_owner r); Lit ": "] err []))
          | None => confirm last key r
          end
      end.

(** The loop of [Set] and of [Delete]: an error to return, or the owner and the
    stable epoch it ends with, zero unless it was left by [break]. *)
Fixpoint turnLoop (n : nat) (body : bool → nat → gprog (turn (string * Z))) (ticks : nat → nat)
    (owner : string) : gprog (error + (string * Z)) :=
  match n with
  | O => Ret (inr (owner, 0))
  | S n =>
      v <- body (n =? 0)%nat (ticks n) ;;
      match v with
      | TReturn err => Ret (inl err)
      | TBreak r => Ret (inr r)
      | TContinue owner => turnLoop n body ticks owner
      end
  end.

Definition Set_ (ticks : nat → nat) (key : string) (value : list Z) : gprog (option error) :=
  closed <- do EvClosed ;;
  if (closed : bool) then Ret (Some (Sentinel ErrGroupClosed))
  else if decide (key = "") then Ret (Some (Sentinel ErrKeyRequired))
  else if decide (value = []) then Ret (Some (Sentinel ErrValueRequired))
  else
    res <- turnLoop 4 (λ last t, setTurn last t key value) ticks "" ;;
    match res with
    | inl err => Ret (Some err)
    | inr (owner, stableEpoch) =>
        do (EvStat sets 1) ;;;
        invalidateLocalCopies key ;;;
        invalidatePeerCopies key owner ;;;
        (if hasPeers g && hasNear g && negb (String.eqb owner "") then
           r <- do (EvPickOwner key) ;;
           if pk_ok r && String.eqb (pk_owner r) owner && (pk_epoch r =? stableEpoch) && negb (pk_self r)
           then now <- do EvNow ;;
                do (EvNearAddExp (nearKey stableEpoch key) (mkByteView (cloneBytes value)) (time_Add now (nearTTL g)))
           else Ret tt
         else Ret tt) ;;;
        Ret None
    end.

Definition deleteTurn (last : bool) (ticks : nat) (key : string) : gprog (turn (string * Z)) :=
  if negb (hasPeers g) then deleteLocal key ;;; Ret (TBreak ("", 0))
  else
    r <- do (EvPickOwner key) ;;
    if negb (pk_ok r) || String.eqb (pk_owner r) "" then Ret (TReturn (Sentinel ErrNoOwner))
    else if pk_self r then deleteLocal key ;;; confirm last key r
    else
      match pk_peer r with
      | PeerNil => Ret (TReturn (withOwner ErrPeerUnavailable (pk_owner r)))
      | PeerClient c =>
          e <- peerDelete c key ;;
          match e with
          | inl err =>
              if isTopology err then refused last ticks r
              else Ret (TReturn (Wrap [Lit "delete "; Quoted key; Lit " on owner "; Lit (pk_owner r); Lit ": "] err []))
          | inr _ => confirm last key r
          end
      end.

Definition Delete (ticks : nat → nat) (key : string) : gprog (option error) :=
  closed <- do EvClosed ;;
  if (closed : bool) then Ret (Some (Sentinel ErrGroupClosed))
  else if decide (key = "") then Ret (Some (Sentinel ErrKeyRequired))
  else
    res <- turnLoop 4 (λ last t, deleteTurn last t key) ticks "" ;;
    match res with
    | inl err => Ret (Some err)
    | inr (owner, _) =>
        do (EvStat deletes 1) ;;;
        invalidateLocalCopies key ;;;
        invalidatePeerCopies key owner ;;;
        Ret None
    end.
End group.
