(* ===== verification/Rpc.v ===== *)
(** * The two ends of a peer call (client.go, server.go, pb/locache.proto)

    The methods of [Client] as functions of the stub's answer, and the handlers
    of [Server] as programs of the group they address.  Between the two lies
    gRPC: a handler's error reaches the client as [transport] makes it. *)

From S2P Require Import Prelude Hashes Store ByteView Errors Peers Singleflight Prog Group.
#[local] Open Scope prog_scope.

(** [message Request], with the metadata key that marks an invalidation. *)
Record Request := mkRequest { rq_group : string; rq_key : string; rq_value : list Z; rq_invalidate : bool }.

(** ** Messages on the wire

    The encoding of proto3: a field that is empty is left out, any other takes
    a tag of one byte, the length as a varint and the bytes; a [bool] is left
    out when false and takes two bytes otherwise.  A [string] must be UTF-8. *)

(** [protowire.SizeVarint]: seven bits to a byte. *)
Definition sizeVarint (n : Z) : Z := 1 + Z.log2 n / 7.
Definition sizeBytes (n : Z) : Z := if n =? 0 then 0 else 1 + sizeVarint n + n.

(** Every field number of pb/locache.proto is below 16.  The invalidation flag
    travels in the metadata. *)
Definition requestSize (req : Request) : Z :=
  sizeBytes (go_len (rq_group req)) + sizeBytes (go_len (rq_key req)) + sizeBytes (Z.of_nat (length (rq_value req))).
(** [message ResponseForGet] and [message ResponseForDelete]. *)
Definition getResponseSize (value : list Z) : Z := sizeBytes (Z.of_nat (length value)).
Definition deleteResponseSize (value : bool) : Z := if value then 2 else 0.

(** [utf8.Valid]: the well-formed byte sequences of one to four bytes. *)
Definition between (lo hi x : Z) : bool := (lo <=? x) && (x <=? hi).
Definition continuation : Z → bool := between 0x80 0xBF.
Fixpoint validUTF8 (bs : list Z) : bool :=
  match bs with
  | [] => true
  | b0 :: bs =>
      if between 0 0x7F b0 then validUTF8 bs
      else if between 0xC2 0xDF b0 then
        match bs with b1 :: bs => continuation b1 && validUTF8 bs | _ => false end
      else if between 0xE0 0xEF b0 then
        match bs with
        | b1 :: b2 :: bs =>
            between (if b0 =? 0xE0 then 0xA0 else 0x80) (if b0 =? 0xED then 0x9F else 0xBF) b1 && continuation b2 && validUTF8 bs
        | _ => false
        end
      else if between 0xF0 0xF4 b0 then
        match bs with
        | b1 :: b2 :: b3 :: bs =>
            between (if b0 =? 0xF0 then 0x90 else 0x80) (if b0 =? 0xF4 then 0x8F else 0xBF) b1 &&
            continuation b2 && continuation b3 && validUTF8 bs
        | _ => false
        end
      else false
  end.

(** The limits of a call to a server whose [MaxMsgSize] is [limit].  The client
    does not set its own: the defaults of the package are [math.MaxInt32] for
    what it sends and 4 MiB for what it receives.  [None]: the message passes. *)
Definition clientMaxSend : Z := 2 ^ 31 - 1.
Definition clientMaxRecv : Z := Z.shiftl 4 20.

Definition requestError (limit : Z) (req : Request) : option error :=
  if negb (validUTF8 (bytes_of (rq_group req)) && validUTF8 (bytes_of (rq_key req)))
  then Some (Status codes_Internal [Lit "grpc: error while marshaling: string field contains invalid UTF-8"])
  else if (requestSize req <=? clientMaxSend) && (requestSize req <=? limit) then None
  else Some (Status codes_ResourceExhausted [Lit "message larger than max"]).

Definition responseError (limit size : Z) : option error :=
  if (size <=? limit) && (size <=? clientMaxRecv) then None
  else Some (Status codes_ResourceExhausted [Lit "message larger than max"]).

(** ** Client *)

(** The deadline of a call: the caller's, or the client's timeout from now. *)
Definition callContext (c : Client) (now : Z) (deadline : option Z) : Z :=
  match deadline with Some d => d | None => time_Add now (cl_rpcTimeout c) end.

Section client.
Context `{Grpc}.

Definition clientError (what : string) (c : Client) (err : error) : error :=
  Wrap [Lit what; Lit (cl_addr c); Lit ": "] (default err (classifyRPCError (Some err))) [].

Definition Client_Get (c : Client) (resp : error + list Z) : error + list Z :=
  match resp with inl err => inl (clientError "grpc get from " c err) | inr v => inr v end.
Definition Client_Set (c : Client) (resp : error + list Z) : option error :=
  match resp with inl err => Some (clientError "grpc set on " c err) | inr _ => None end.
Definition Client_Delete (c : Client) (resp : error + bool) : error + bool :=
  match resp with inl err => inl (clientError "grpc delete on " c err) | inr b => inr b end.
Definition Client_Invalidate (c : Client) (resp : error + bool) : option error :=
  match resp with inl err => Some (clientError "grpc invalidate on " c err) | inr _ => None end.

(** [conn] is the field [c.conn], [closeConn] the answer of the connection. *)
Definition Client_Close (closeConn : nat → option error) (conn : option nat) : option error :=
  match conn with Some n => closeConn n | None => None end.
End client.

(** ** Server *)

Definition groupNotFound (group : string) : error := Text [Lit "group "; Lit group; Lit " not found"].

(** [group] is the answer of [GetGroup(req.Group)]. *)
Definition Server_Get (group : option config) (req : Request) : gprog (error + list Z) :=
  match group with
  | None => Ret (inl (groupNotFound (rq_group req)))
  | Some g =>
      v <- getLocal g (rq_key req) ;;
      Ret match v with
          | inl err => inl (default err (mapGroupError (Some err)))
          | inr view => inr (ByteSlice view)
          end
  end.

Definition Server_Set (group : option config) (req : Request) : gprog (error + list Z) :=
  match group with
  | None => Ret (inl (groupNotFound (rq_group req)))
  | Some g =>
      e <- setLocal g (rq_key req) (rq_value req) ;;
      Ret match e with
          | Some err => inl (default err (mapGroupError (Some err)))
          | None => inr (rq_value req)
          end
  end.

Definition Server_Delete (group : option config) (req : Request) : gprog (error + bool) :=
  match group with
  | None => Ret (inl (groupNotFound (rq_group req)))
  | Some g =>
      if rq_invalidate req then removed <- deleteLocal g (rq_key req) ;; Ret (inr removed)
      else
        r <- deleteOwnerLocal g (rq_key req) ;;
        Ret match r with
            | inl err => inl (default err (mapGroupError (Some err)))
            | inr removed => inr removed
            end
  end.

(** What the client makes of a handler's error. *)
Lemma client_remoteError `{Grpc} what c err :
  clientError what c (transport (default err (mapGroupError (Some err)))) = remoteError what (cl_addr c) err.
Proof. done. Qed.

(** ** What passes *)

Lemma log2_7_mono n m : n ≤ m → Z.log2 n / 7 ≤ Z.log2 m / 7.
Proof. intros Hle. apply Z.div_le_mono; [lia|]. by apply Z.log2_le_mono. Qed.
Lemma sizeBytes_mono n m : 0 ≤ n → n ≤ m → 0 ≤ sizeBytes n ≤ sizeBytes m.
Proof.
  intros Hn Hle. unfold sizeBytes, sizeVarint. pose proof (log2_7_mono n m Hle).
  pose proof (Z.div_pos (Z.log2 n) 7 (Z.log2_nonneg n) ltac:(lia)). destruct (Z.eqb_spec n 0), (Z.eqb_spec m 0); lia.
Qed.
(** Below 2 MiB the length takes at most three bytes. *)
Lemma sizeBytes_small n : 0 ≤ n < 2 ^ 21 → 0 ≤ sizeBytes n ≤ n + 4.
Proof.
  intros Hn. split; [apply (sizeBytes_mono n n); lia|]. unfold sizeBytes, sizeVarint. destruct (Z.eqb_spec n 0) as [->|Hne]; [lia|].
  assert (Z.log2 n < 21) as Hl by (apply Z.log2_lt_pow2; lia). pose proof (Z.div_lt_upper_bound (Z.log2 n) 7 3 ltac:(lia) ltac:(lia)). lia.
Qed.

(** A request that passes with a value passes without one. *)
Lemma requestError_key limit group key value inv inv' :
  requestError limit (mkRequest group key value inv) = None → requestError limit (mkRequest group key [] inv') = None.
Proof.
  unfold requestError. cbn [rq_group rq_key]. destruct (negb _); [done|]. unfold requestSize. cbn [rq_group rq_key rq_value].
  pose proof (sizeBytes_mono 0 (Z.of_nat (length value)) ltac:(lia) ltac:(lia)) as Hle. cbn [length] in *. change (Z.of_nat 0) with 0.
  repeat case_match; rewrite ?andb_true_iff, ?andb_false_iff, ?Z.leb_le, ?Z.leb_gt in *; try done; lia.
Qed.

(** A server that accepts a request with a key answers a deletion. *)
Lemma requestError_delete limit req x :
  rq_key req ≠ "" → requestError limit req = None → responseError limit (deleteResponseSize x) = None.
Proof.
  intros Hk. unfold requestError, responseError. destruct (negb _); [done|]. unfold requestSize.
  assert (1 ≤ go_len (rq_key req)) as Hl by (destruct (rq_key req); [done|]; unfold go_len; simpl; lia).
  pose proof (sizeBytes_mono 1 (go_len (rq_key req)) ltac:(lia) Hl) as Hle.
  pose proof (sizeBytes_mono 0 (go_len (rq_group req)) ltac:(lia) (go_len_nonneg _)).
  pose proof (sizeBytes_mono 0 (Z.of_nat (length (rq_value req))) ltac:(lia) ltac:(lia)).
  change (sizeBytes 1) with 3 in Hle. assert (deleteResponseSize x ≤ 2) as Hx by (by destruct x).
  change clientMaxRecv with 4194304. repeat case_match; rewrite ?andb_true_iff, ?andb_false_iff, ?Z.leb_le, ?Z.leb_gt in *; try done; lia.
Qed.
