(* ===== verification/GroupFacts.v ===== *)
(** * Correctness of the group's routing

    Statements about every trace of the group's methods, whatever the picker,
    the peers, the getter, the clock and the other goroutines answer. *)

From S2P Require Import Prelude Store ByteView Errors Peers PeersFacts Singleflight Prog Group Rpc.

(** ** Symbolic execution of programs

    Decompose a run into its events and case splits. *)

Ltac run_step H :=
  lazymatch type of H with
  | runs (bind _ _) _ _ => apply runs_bind in H
  | runs (finally _ _) _ _ => apply runs_finally in H
  | runs (catch _) _ _ => apply runs_catch in H
  end.

(** ** Events that leave the node *)

Definition remote (e : ev) : bool :=
  match e with
  | EvPeerGet _ _ _ | EvPeerSet _ _ _ _ | EvPeerDelete _ _ _ | EvInvalidate _ _ _ => true
  | _ => false
  end.
Definition isLocal (e : ev) : Prop := remote e = false.

(** Discharge [every]: walk the program. *)
Ltac every_tac :=
  repeat first
    [ progress simpl | done | split | intros ?
    | apply every_bind | apply every_finally | apply every_catch | case_match ].

Section local.
Context (g : config).
Lemma prepareLocalOwner_local key : every isLocal (prepareLocalOwner g key).
Proof. unfold prepareLocalOwner. every_tac. Qed.
Lemma addOwnerValue_local key v : every isLocal (addOwnerValue g key v).
Proof. unfold addOwnerValue. every_tac. Qed.
Lemma invalidateNearKey_local key : every isLocal (invalidateNearKey g key).
Proof. unfold invalidateNearKey. every_tac. Qed.
Hint Resolve prepareLocalOwner_local addOwnerValue_local invalidateNearKey_local : locache.
Lemma getLocal_local key : every isLocal (getLocal g key).
Proof. unfold getLocal, flightDo. every_tac; auto with locache. Qed.
Lemma setLocal_local key v : every isLocal (setLocal g key v).
Proof. unfold setLocal. every_tac; auto with locache. Qed.
Lemma deleteLocal_local key : every isLocal (deleteLocal g key).
Proof. unfold deleteLocal. every_tac; auto with locache. Qed.
Lemma deleteOwnerLocal_local key : every isLocal (deleteOwnerLocal g key).
Proof. unfold deleteOwnerLocal. every_tac; auto with locache. Qed.
Lemma invalidateLocalCopies_local key : every isLocal (invalidateLocalCopies g key).
Proof. unfold invalidateLocalCopies. every_tac; auto with locache. Qed.
End local.
#[export] Hint Resolve getLocal_local setLocal_local deleteLocal_local deleteOwnerLocal_local : locache.

(** Peer requests stay local: no run of a server handler, on any group and
    request and with any answers, calls a peer or invalidates at peers, so a
    request cannot re-enter distributed routing. *)
Theorem handlers_local_only group req t :
  (∀ r, runs (Server_Get group req) t r → Forall (λ a, remote (projT1 a) = false) t) ∧
  (∀ r, runs (Server_Set group req) t r → Forall (λ a, remote (projT1 a) = false) t) ∧
  (∀ r, runs (Server_Delete group req) t r → Forall (λ a, remote (projT1 a) = false) t).
Proof.
  split_and!; intros r; apply (every_runs isLocal); destruct group as [g|]; try done; cbn [Server_Get Server_Set Server_Delete].
  - apply every_bind; [auto with locache|done].
  - apply every_bind; [auto with locache|done].
  - destruct (rq_invalidate req); (apply every_bind; [auto with locache|done]).
Qed.

(** ** Bounded work *)

Definition peerCall (e : ev) : bool :=
  match e with EvPeerGet _ _ _ | EvPeerSet _ _ _ _ | EvPeerDelete _ _ _ => true | _ => false end.

Lemma local_no_peerCall {A} (p : gprog A) : every isLocal p → every (λ e, peerCall e = false) p.
Proof. induction p as [a|v|e k IH]; simpl; [done|done|]. intros [He Hk]. split; [by destruct e|auto]. Qed.

Lemma waitLoop_calls ticks e : every (λ e, peerCall e = false) (waitLoop ticks e).
Proof. induction ticks as [|ticks IH]; every_tac. Qed.
Lemma waitRetry_calls g ticks e : every (λ e, peerCall e = false) (waitForTopologyRetry g ticks e).
Proof. unfold waitForTopologyRetry. case_match; [done|apply waitLoop_calls]. Qed.
Lemma confirm_calls last key r : every (λ e, peerCall e = false) (confirm last key r).
Proof. unfold confirm. every_tac. Qed.
Lemma refused_calls g last ticks r : every (λ e, peerCall e = false) (refused g last ticks r).
Proof.
  unfold refused. case_match; [done|]. apply every_bind; [apply waitRetry_calls|]. every_tac.
Qed.
Lemma nearLookup_calls g key r : every (λ e, peerCall e = false) (nearLookup g key r).
Proof. unfold nearLookup. every_tac. Qed.
Lemma invalidateLocalCopies_calls g key : every (λ e, peerCall e = false) (invalidateLocalCopies g key).
Proof. unfold invalidateLocalCopies, invalidateNearKey. every_tac. Qed.
Lemma invalidatePeerCopies_calls g key o : every (λ e, peerCall e = false) (invalidatePeerCopies g key o).
Proof. unfold invalidatePeerCopies. every_tac. Qed.

#[local] Hint Resolve waitRetry_calls confirm_calls refused_calls nearLookup_calls local_no_peerCall
  invalidateLocalCopies_calls invalidatePeerCopies_calls : locache.

(** Sequencing with a program that calls no peer. *)
Lemma calls_then {A B} n (p : gprog A) (f : A → gprog B) :
  every (λ e, peerCall e = false) p → (∀ a, atMost peerCall n (f a)) → atMost peerCall n (bind p f).
Proof. intros Hp Hf. apply (atMost_bind peerCall 0 n); [by apply every_atMost|done]. Qed.
Lemma calls_none {A} n (p : gprog A) : every (λ e, peerCall e = false) p → atMost peerCall n p.
Proof. intros Hp. apply (atMost_mono _ 0); [lia|]. by apply every_atMost. Qed.

#[local] Arguments getLocal : simpl never.
#[local] Arguments setLocal : simpl never.
#[local] Arguments deleteLocal : simpl never.
#[local] Arguments waitForTopologyRetry : simpl never.
#[local] Arguments nearLookup : simpl never.
#[local] Arguments confirm : simpl never.
#[local] Arguments refused : simpl never.
#[local] Arguments invalidateLocalCopies : simpl never.
#[local] Arguments invalidatePeerCopies : simpl never.

Ltac calls_tac :=
  repeat first
    [ done | progress intros | progress cbn [bind event atMost peerCall]
    | apply calls_then; [solve [auto with locache]|] | solve [apply calls_none; auto with locache] | case_match ].

Lemma getTurn_calls g last ticks key : atMost peerCall 1 (getTurn g last ticks key).
Proof.
  unfold getTurn, peerGet, nilPeer. calls_tac.
Qed.
Lemma setTurn_calls g last ticks key v : atMost peerCall 1 (setTurn g last ticks key v).
Proof. unfold setTurn, peerSet, nilPeer. calls_tac. Qed.
Lemma deleteTurn_calls g last ticks key : atMost peerCall 1 (deleteTurn g last ticks key).
Proof. unfold deleteTurn, peerDelete, nilPeer. calls_tac. Qed.

Lemma getLoop_calls g n ticks key : atMost peerCall n (getLoop g n ticks key).
Proof.
  induction n as [|n IH]; [done|]. cbn [getLoop]. apply (atMost_bind _ 1 n); [apply getTurn_calls|].
  intros [r|]; [done|apply IH].
Qed.
Lemma turnLoop_calls n body ticks o :
  (∀ last t, atMost peerCall 1 (body last t)) → atMost peerCall n (turnLoop n body ticks o).
Proof.
  intros Hb. revert o. induction n as [|n IH]; intros o; [done|]. cbn [turnLoop].
  apply (atMost_bind _ 1 n); [apply Hb|]. intros [err|a|o']; [done|done|apply IH].
Qed.

(** Bounded retries: whatever the picker and the peers answer, a [Get],
    [Set] or [Delete] makes at most four peer calls, also when it panics. *)
Theorem group_bounded_peer_calls g ticks key value t :
  (∀ r, runs (Get g ticks key) t r → (count peerCall t ≤ 4)%nat) ∧
  (∀ r, runs (Set_ g ticks key value) t r → (count peerCall t ≤ 4)%nat) ∧
  (∀ r, runs (Delete g ticks key) t r → (count peerCall t ≤ 4)%nat).
Proof.
  split_and!; intros r; apply atMost_runs.
  - unfold Get. cbn [bind event atMost peerCall]. intros closed.
    destruct closed; [done|]. case_decide; [done|]. case_match; [apply calls_none; auto with locache|].
    apply getLoop_calls.
  - unfold Set_. cbn [bind event atMost peerCall]. intros closed.
    destruct closed; [done|]. case_decide; [done|]. case_decide; [done|].
    apply (atMost_bind _ 4 0); [apply turnLoop_calls; intros; apply setTurn_calls|]. intros res. calls_tac.
  - unfold Delete. cbn [bind event atMost peerCall]. intros closed.
    destruct closed; [done|]. case_decide; [done|].
    apply (atMost_bind _ 4 0); [apply turnLoop_calls; intros; apply deleteTurn_calls|]. intros res. calls_tac.
Qed.

(** ** What only the owner does *)

(** Filling the owner cache and asking the source. *)
Definition ownerAction (e : ev) : bool :=
  match e with EvGetter _ | EvMainAdd _ _ | EvMainAddExp _ _ _ => true | _ => false end.
Definition notOwnerAction (e : ev) : Prop := ownerAction e = false.

(** The picker names this node as owner. *)
Definition selfPick (a : act (ans := ans)) : bool :=
  match a with existT (EvPickOwner _) r => pk_ok r && pk_self r | _ => false end.

Notation owned p := (guarded selfPick notOwnerAction p).

Lemma every_owned {A} (p : gprog A) : every notOwnerAction p → owned p.
Proof. induction p as [a|v|e k IH]; simpl; [done|done|]. intros []. split; [done|]. auto. Qed.

Lemma owned_event {A} e (k : ans e → gprog A) :
  ownerAction e = false → (∀ x, selfPick (did e x) = false → owned (k x)) → owned (bind (event e) k).
Proof. intros He Hk. simpl. auto. Qed.

Lemma owned_ev e : ownerAction e = false → owned (event e).
Proof. done. Qed.

Ltac owned_tac :=
  repeat first
    [ done | progress intros | solve [auto with locache] | apply owned_ev; done
    | lazymatch goal with
      | |- guarded _ _ (bind (event _) _) => apply owned_event; [done|]
      | |- guarded _ _ (bind _ _) => apply guarded_bind
      | |- guarded _ _ (finally _ _) => apply guarded_finally
      | |- guarded _ _ (catch _) => apply guarded_catch
      end
    | case_match ].

Section owned.
Context (g : config) (Hpeers : hasPeers g = true).

(** A refused preparation is the only way on without a pick of this node. *)
Lemma prepare_then {A} key (f : error + Z → gprog A) :
  (∀ err, owned (f (inl err))) → owned (bind (prepareLocalOwner g key) f).
Proof.
  intros Hf. unfold prepareLocalOwner. rewrite Hpeers. cbn [negb]. simpl. split; [done|]. intros r Hr.
  destruct (pk_ok r) eqn:Hok; [|apply Hf]. simpl in *. destruct (String.eqb (pk_owner r) ""); [apply Hf|].
  rewrite Hr. apply Hf.
Qed.

Lemma getLocal_owned key : owned (getLocal g key).
Proof.
  unfold getLocal. apply owned_event; [done|]. intros [] _; [done|]. by apply prepare_then.
Qed.
Lemma setLocal_owned key v : owned (setLocal g key v).
Proof.
  unfold setLocal. apply owned_event; [done|]. intros [] _; [done|]. apply prepare_then. by rewrite Hpeers.
Qed.
Lemma invalidateNearKey_owned key : owned (invalidateNearKey g key).
Proof. unfold invalidateNearKey. owned_tac. Qed.
Lemma deleteLocal_owned key : owned (deleteLocal g key).
Proof. unfold deleteLocal. owned_tac; apply invalidateNearKey_owned. Qed.
Lemma waitRetry_owned ticks e : owned (waitForTopologyRetry g ticks e).
Proof.
  unfold waitForTopologyRetry. case_match; [done|]. induction ticks as [|ticks IH]; cbn [waitLoop]; owned_tac.
Qed.
Lemma confirm_owned last key r : owned (confirm last key r).
Proof. unfold confirm. owned_tac. Qed.
Lemma refused_owned last ticks r : owned (refused g last ticks r).
Proof. unfold refused. owned_tac. apply waitRetry_owned. Qed.
Lemma nearLookup_owned key r : owned (nearLookup g key r).
Proof. unfold nearLookup. owned_tac. Qed.
Lemma invalidateLocalCopies_owned key : owned (invalidateLocalCopies g key).
Proof. unfold invalidateLocalCopies. owned_tac. apply invalidateNearKey_owned. Qed.
Lemma invalidatePeerCopies_owned key o : owned (invalidatePeerCopies g key o).
Proof. unfold invalidatePeerCopies. owned_tac. Qed.
End owned.
#[local] Hint Resolve getLocal_owned setLocal_owned deleteLocal_owned waitRetry_owned confirm_owned refused_owned
  nearLookup_owned invalidateLocalCopies_owned invalidatePeerCopies_owned : locache.

Section owned2.
Context (g : config) (Hpeers : hasPeers g = true).

Lemma getTurn_owned last ticks key : owned (getTurn g last ticks key).
Proof. unfold getTurn, peerGet, nilPeer. owned_tac; auto with locache. Qed.
Lemma setTurn_owned last ticks key v : owned (setTurn g last ticks key v).
Proof. unfold setTurn, peerSet, nilPeer. owned_tac; auto with locache. Qed.
Lemma deleteTurn_owned last ticks key : owned (deleteTurn g last ticks key).
Proof. unfold deleteTurn, peerDelete, nilPeer. owned_tac; auto with locache. Qed.
Lemma getLoop_owned n ticks key : owned (getLoop g n ticks key).
Proof. induction n as [|n IH]; [done|]. cbn [getLoop]. owned_tac. apply getTurn_owned. Qed.
Lemma turnLoop_owned n body ticks o : (∀ l t, owned (body l t)) → owned (turnLoop n body ticks o).
Proof. intros Hb. revert o. induction n as [|n IH]; intros o; [done|]. cbn [turnLoop]. owned_tac. Qed.
End owned2.

(** Only the owner loads and stores: in every run of a distributed group's
    [Get], [Set] and [Delete] and of the server handlers, the getter is called
    and the owner cache is filled only if the picker named this node as owner
    earlier in that run.  A requester never falls back to its own source. *)
Theorem group_owner_only g ticks key value req t :
  hasPeers g = true → existsb selfPick t = false →
  (∀ r, runs (Get g ticks key) t r → Forall (λ a, ownerAction (projT1 a) = false) t) ∧
  (∀ r, runs (Set_ g ticks key value) t r → Forall (λ a, ownerAction (projT1 a) = false) t) ∧
  (∀ r, runs (Delete g ticks key) t r → Forall (λ a, ownerAction (projT1 a) = false) t) ∧
  (∀ r, runs (Server_Get (Some g) req) t r → Forall (λ a, ownerAction (projT1 a) = false) t) ∧
  (∀ r, runs (Server_Set (Some g) req) t r → Forall (λ a, ownerAction (projT1 a) = false) t).
Proof.
  intros Hp Ht. split_and!; intros r Hr; refine (guarded_runs selfPick notOwnerAction _ t r _ Hr Ht).
  - unfold Get. owned_tac. by apply getLoop_owned.
  - unfold Set_. owned_tac. apply turnLoop_owned. intros. by apply setTurn_owned.
  - unfold Delete. owned_tac. apply turnLoop_owned. intros. by apply deleteTurn_owned.
  - cbn [Server_Get]. owned_tac.
  - cbn [Server_Set]. owned_tac.
Qed.

(** ** Where the value of a [Get] comes from *)

Notation picked key r := (did (ans := ans) (EvPickOwner key) r).

(** Compute the next event of a run. *)
Ltac rn H := cbn [runs bind event negb orb andb peerGet peerSet peerDelete nilPeer] in H.
Ltac rgoal := cbn [runs bind event negb orb andb].

(** The second look at the ring names the same owner in the same epoch. *)
Definition confirms (r r' : Pick) : Prop := pk_ok r' = true ∧ pk_owner r' = pk_owner r ∧ pk_epoch r' = pk_epoch r.

Lemma samePick_confirms r r' : samePick r r' = true → confirms r r'.
Proof.
  unfold samePick, confirms. intros [[Hok Ho]%andb_true_iff He]%andb_true_iff.
  apply String.eqb_eq in Ho. apply Z.eqb_eq in He. done.
Qed.

(** The near-cache lookup: nothing found, or a view that the picker confirmed. *)
Lemma nearLookup_runs g key r t res :
  runs (nearLookup g key r) t res →
  res = Val None ∨
  ∃ v r', res = Val (Some v) ∧ confirms r r' ∧
    t = [did (EvNearGet (nearKey (pk_epoch r) key)) (Some v); picked key r'; did (EvStat nearHits 1) tt].
Proof.
  unfold nearLookup. destruct (hasNear g); simpl; [|intros [_ ->]; auto].
  intros (hit & t1 & -> & H). destruct hit as [view|]; simpl in H.
  - destruct H as (r' & t2 & -> & H). destruct (samePick r r') eqn:Hs; simpl in H.
    + apply samePick_confirms in Hs. destruct H as ([] & t3 & -> & -> & ->). right. eauto 6.
    + destruct H as (b & t3 & -> & [] & t4 & -> & -> & ->). auto.
  - destruct H as ([] & t2 & -> & -> & ->). auto.
Qed.

(** The three sources of a value, after the pick [r]: the rest of the trace
    from there on is [t]. *)
Inductive provenance (g : config) (key : string) (r : Pick) (v : ByteView) : list (act (ans := ans)) → Prop :=
| from_self t :
    pk_self r = true → runs (getLocal g key) t (Val (inr v)) → provenance g key r v t
| from_near r' :
    pk_self r = false → confirms r r' →
    provenance g key r v
      [did (EvNearGet (nearKey (pk_epoch r) key)) (Some v); picked key r'; did (EvStat nearHits 1) tt]
| from_owner c bytes r' before after :
    pk_self r = false → pk_peer r = PeerClient (Some c) → confirms r r' → pk_self r' = false → b v = bytes →
    provenance g key r v
      (before ++ did (EvPeerGet c (name g) key) (inr bytes) :: picked key r' :: after).

Lemma getTurn_provenance g last ticks key t v :
  runs (getTurn g last ticks key) t (Val (Some (inr v))) →
  ∃ r t', t = picked key r :: t' ∧ pk_ok r = true ∧ provenance g key r v t'.
Proof.
  unfold getTurn. rgoal. intros (r & t' & -> & H). exists r, t'. split; [done|].
  destruct (pk_ok r) eqn:Hok; rn H; [|by destruct H]. destruct (String.eqb (pk_owner r) ""); rn H; [by destruct H|].
  split; [done|]. destruct (pk_self r) eqn:Hself.
  { apply runs_bind in H as [(t1 & t2 & x & -> & Hl & H)|(? & _ & ?)]; [|done].
    destruct x as [err|view]; [case_match; by destruct H|]. destruct H as [-> [= <-]]. rewrite app_nil_r. by constructor. }
  destruct (pk_peer r) as [|c] eqn:Hpeer; [by destruct H|].
  apply runs_bind in H as [(t1 & t2 & near & -> & Hn & H)|(? & _ & ?)]; [|done].
  apply nearLookup_runs in Hn as [[= ->]|(v' & r' & [= ->] & Hs & ->)].
  2:{ destruct H as [-> [= <-]]. rewrite app_nil_r. by apply from_near. }
  destruct c as [c|]; rn H; [|by destruct H]. destruct H as (resp & t3 & -> & H).
  destruct resp as [err|bytes]; rn H.
  { destruct H as (x & t4 & -> & H). destruct (isTopology err); [|by destruct H]. destruct last; [by destruct H|].
    apply runs_bind in H as [(? & ? & w & -> & _ & H)|(? & _ & ?)]; [|done]. by destruct w; destruct H. }
  destruct H as (r' & t4 & -> & H). destruct (samePick r r') eqn:Hs; rn H; [apply samePick_confirms in Hs|by destruct H].
  destruct (pk_self r') eqn:Hs'; [by destruct H|]. rn H. destruct H as (x & t5 & -> & H).
  assert (b v = bytes) as Hb.
  { destruct (hasNear g); rn H; [destruct H as (? & ? & -> & ? & ? & -> & H)|]; destruct H as [_ [= ->]];
      apply cloneBytes_id. }
  by eapply from_owner.
Qed.

(** The value of a [Get]. *)
Lemma Get_provenance g ticks key t v :
  hasPeers g = true → runs (Get g ticks key) t (Val (inr v)) →
  ∃ t0 r t', t = t0 ++ picked key r :: t' ∧ pk_ok r = true ∧ provenance g key r v t'.
Proof.
  intros Hp. unfold Get. rgoal. intros (closed & t1 & -> & H). destruct closed; [by destruct H|].
  case_decide; [by destruct H|]. rewrite Hp in H. cbn [negb] in H. revert t1 H.
  assert (∀ n t1, runs (getLoop g n ticks key) t1 (Val (inr v)) →
    ∃ t0 r t', t1 = t0 ++ picked key r :: t' ∧ pk_ok r = true ∧ provenance g key r v t') as Hloop.
  { induction n as [|n IH]; intros t1; cbn [getLoop]; [by intros []|].
    intros [(ta & tb & x & -> & Ha & Hb)|(? & _ & ?)]%runs_bind; [|done]. destruct x as [x|].
    - destruct Hb as [-> [= <-]]. rewrite app_nil_r.
      apply getTurn_provenance in Ha as (r & t' & -> & Hok & Hpr). by exists [], r, t'.
    - destruct (IH tb Hb) as (t0 & r & t' & -> & Hok & Hpr). exists (ta ++ t0), r, t'. by rewrite <-app_assoc. }
  intros t1 H. destruct (Hloop 4%nat t1 H) as (t0 & r & t' & -> & Hok & Hpr).
  by exists (did EvClosed false :: t0), r, t'.
Qed.

(** [C35] Provenance: a value returned by [Get] on a distributed group comes from
    the owner.  After the last choice of an owner, it was read by the owner-only
    path when that is this node; or found in the near cache under the epoch of
    that choice, or answered by that owner's node, and in both cases the picker
    confirmed the same owner and epoch after the value had been obtained. *)
Theorem group_get_provenance g ticks key t v :
  hasPeers g = true → runs (Get g ticks key) t (Val (inr v)) →
  ∃ t0 r t', t = t0 ++ picked key r :: t' ∧ pk_ok r = true ∧ provenance g key r v t'.
Proof. apply Get_provenance. Qed.

(** ** What an acknowledged mutation means *)

(** [n] attempts that are not the last one, each of which ended in [continue]. *)
Fixpoint retried (body : bool → nat → gprog (turn (string * Z))) (ticks : nat → nat) (n : nat) (t : list (act (ans := ans))) : Prop :=
  match n with
  | O => t = []
  | S n => ∃ t1 t2 o, t = t1 ++ t2 ∧ runs (body false (ticks (S n))) t1 (Val (TContinue o)) ∧ retried body ticks n t2
  end.

(** How the loop of [Set] and [Delete] ends without an error: by [break], or by
    running out of turns with a [continue] in the last one, after one in every
    turn before. *)
Lemma turnLoop_runs n body ticks o t res :
  runs (turnLoop (S n) body ticks o) t (Val (inr res)) →
  (∃ t1 t2 last tk, t = t1 ++ t2 ∧ runs (body last tk) t2 (Val (TBreak res))) ∨
  (∃ t1 t2 owner, t = t1 ++ t2 ∧ retried body ticks n t1 ∧ runs (body true (ticks 0%nat)) t2 (Val (TContinue owner)) ∧ res = (owner, 0)).
Proof.
  revert o t. induction n as [|n IH]; intros o t.
  - intros [(ta & tb & x & -> & Ha & Hb)|(? & _ & ?)]%runs_bind; [|done].
    destruct x as [err|a|o']; destruct Hb as [-> [= Hres]]; rewrite app_nil_r; try subst res.
    + left. by exists [], ta, true, (ticks 0%nat).
    + right. by exists [], ta, o'.
  - intros [(ta & tb & x & -> & Ha & Hb)|(? & _ & ?)]%runs_bind; [|done]. destruct x as [err|a|o'].
    + by destruct Hb.
    + destruct Hb as [-> [= <-]]. left. exists [], ta, false, (ticks (S n)). by rewrite app_nil_r.
    + destruct (IH o' tb Hb) as [(t1 & t2 & last & tk & -> & H)|(t1 & t2 & ow & -> & Hre & H & Hres)];
        [left; exists (ta ++ t1), t2, last, tk|right; exists (ta ++ t1), t2, ow]; rewrite <-app_assoc; [done|].
      split_and!; [done| |done..]. by exists ta, t1, o'.
Qed.

Lemma confirm_runs last key r t x :
  runs (confirm last key r) t (Val x) →
  ∃ r', t = [picked key r'] ∧
    x = (if samePick r r' then TBreak (pk_owner r, pk_epoch r)
         else if last then TReturn (Sentinel ErrTopologyChanged) else TContinue (pk_owner r)).
Proof.
  unfold confirm. rgoal. intros (r' & t' & -> & H). exists r'.
  destruct (samePick r r'), last; by destruct H as [-> [= ->]].
Qed.

Lemma refused_runs g ticks r t x :
  (runs (refused g true ticks r) t (Val x) → ∃ e, x = TReturn e) ∧
  (∀ last a, runs (refused g last ticks r) t (Val x) → x ≠ TBreak a).
Proof.
  unfold refused. split; [by intros [_ [= ->]]; eauto|]. intros [] a; [by intros [_ [= ->]]|].
  intros [(? & ? & w & -> & _ & H)|(? & _ & ?)]%runs_bind; [|done]. by destruct w; destruct H as [_ [= ->]].
Qed.

(** The trace of the owner taking the write, and the deletion. *)
Inductive setAck (g : config) (key : string) (value : list Z) (r : Pick) : list (act (ans := ans)) → Prop :=
| set_self t : pk_self r = true → runs (setLocal g key value) t (Val None) → setAck g key value r t
| set_peer c : pk_self r = false → pk_peer r = PeerClient (Some c) →
    setAck g key value r [did (EvPeerSet c (name g) key value) None].
Inductive deleteAck (g : config) (key : string) (r : Pick) : list (act (ans := ans)) → Prop :=
| delete_self t b : pk_self r = true → runs (deleteLocal g key) t (Val b) → deleteAck g key r t
| delete_peer c b : pk_self r = false → pk_peer r = PeerClient (Some c) →
    deleteAck g key r [did (EvPeerDelete c (name g) key) (inr b)].

Lemma setTurn_runs g last tk key value t x :
  hasPeers g = true → runs (setTurn g last tk key value) t (Val x) →
  match x with
  | TBreak _ => ∃ r t1 r', t = picked key r :: t1 ++ [picked key r'] ∧ setAck g key value r t1 ∧ confirms r r'
  | TContinue _ => last = true →
      ∃ r t1 err, t = picked key r :: t1 ∧ pk_self r = true ∧ isTopology err = true ∧
                  runs (setLocal g key value) t1 (Val (Some err))
  | TReturn _ => True
  end.
Proof.
  intros Hp. unfold setTurn. rewrite Hp. rgoal. intros (r & t' & -> & H).
  destruct (negb (pk_ok r) || _); [by destruct H as [_ [= ->]]|]. destruct (pk_self r) eqn:Hself.
  - apply runs_bind in H as [(t1 & t2 & e & -> & Hl & H)|(? & _ & ?)]; [|done]. destruct e as [err|].
    + destruct (errors_Is err _ || _) eqn:Htop; destruct H as [-> [= ->]]; [|done]. intros _.
      exists r, t1, err. rewrite app_nil_r. split_and!; try done. unfold isTopology. by rewrite orb_comm.
    + apply confirm_runs in H as (r' & -> & ->). destruct (samePick r r') eqn:Hs; [apply samePick_confirms in Hs|by destruct last].
      exists r, t1, r'. split_and!; try done. by constructor.
  - destruct (pk_peer r) as [|c] eqn:Hc; [by destruct H as [_ [= ->]]|]. destruct c as [c|]; rn H; [|by destruct H].
    destruct H as (e & t1 & -> & H). destruct e as [err|].
    + destruct (isTopology err); [|by destruct H as [_ [= ->]]].
      destruct x as [e|a|o]; [done| |].
      * by destruct (proj2 (refused_runs g tk r t1 (TBreak a)) last a).
      * intros ->. by destruct (proj1 (refused_runs g tk r t1 (TContinue o)) H).
    + apply confirm_runs in H as (r' & -> & ->). destruct (samePick r r') eqn:Hs; [apply samePick_confirms in Hs|by destruct last].
      exists r, [did (EvPeerSet c (name g) key value) None], r'. split_and!; try done. by constructor.
Qed.

Lemma deleteTurn_runs g last tk key t x :
  hasPeers g = true → runs (deleteTurn g last tk key) t (Val x) →
  match x with
  | TBreak _ => ∃ r t1 r', t = picked key r :: t1 ++ [picked key r'] ∧ deleteAck g key r t1 ∧ confirms r r'
  | TContinue _ => last = false
  | TReturn _ => True
  end.
Proof.
  intros Hp. unfold deleteTurn. rewrite Hp. rgoal. intros (r & t' & -> & H).
  destruct (negb (pk_ok r) || _); [by destruct H as [_ [= ->]]|]. destruct (pk_self r) eqn:Hself.
  - apply runs_bind in H as [(t1 & t2 & e & -> & Hl & H)|(? & _ & ?)]; [|done].
    apply confirm_runs in H as (r' & -> & ->). destruct (samePick r r') eqn:Hs; [apply samePick_confirms in Hs|by destruct last].
    exists r, t1, r'. split_and!; try done. by econstructor.
  - destruct (pk_peer r) as [|c] eqn:Hc; [by destruct H as [_ [= ->]]|]. destruct c as [c|]; rn H; [|by destruct H].
    destruct H as (e & t1 & -> & H). destruct e as [err|b].
    + destruct (isTopology err); [|by destruct H as [_ [= ->]]].
      destruct x as [e|a|o]; [done| |].
      * by destruct (proj2 (refused_runs g tk r t1 (TBreak a)) last a).
      * destruct last; [|done]. by destruct (proj1 (refused_runs g tk r t1 (TContinue o)) H).
    + apply confirm_runs in H as (r' & -> & ->). destruct (samePick r r') eqn:Hs; [apply samePick_confirms in Hs|by destruct last].
      exists r, [did (EvPeerDelete c (name g) key) (inr b)], r'. split_and!; try done. by econstructor.
Qed.

Lemma Set_acknowledged g ticks key value t :
  hasPeers g = true → runs (Set_ g ticks key value) t (Val None) →
  (∃ t0 r t1 r' t2, t = t0 ++ picked key r :: t1 ++ picked key r' :: t2 ∧
     setAck g key value r t1 ∧ confirms r r') ∨
  (∃ t0 r t1 t2 err, t = did EvClosed false :: t0 ++ picked key r :: t1 ++ t2 ∧
     retried (λ last tk, setTurn g last tk key value) ticks 3 t0 ∧ pk_self r = true ∧ isTopology err = true ∧
     runs (setLocal g key value) t1 (Val (Some err))).
Proof.
  intros Hp. unfold Set_. rgoal. intros (closed & t' & -> & H). destruct closed; [by destruct H|].
  case_decide; [by destruct H|]. case_decide; [by destruct H|].
  apply runs_bind in H as [(ta & tb & res & -> & Ha & Hb)|(? & _ & ?)]; [|done].
  destruct res as [err|res]; [by destruct Hb|].
  apply turnLoop_runs in Ha as [(t1 & t2 & last & tk & -> & Ha)|(t1 & t2 & ow & -> & Hre & Ha & _)];
    apply setTurn_runs in Ha; try done.
  - destruct Ha as (r & t3 & r' & -> & Hack & Hs). left.
    exists (did EvClosed false :: t1), r, t3, r', tb. split_and!; try done.
    simpl. rewrite <-!app_assoc. simpl. by rewrite <-app_assoc.
  - destruct Ha as (r & t3 & err & -> & Hself & Htop & Hl); [done|]. right.
    exists t1, r, t3, tb, err. split_and!; try done. by rewrite <-app_assoc.
Qed.

(** [C36] An acknowledged [Set]: on a distributed group, [Set] returns nil only
    if an owner took the write and the picker confirmed that owner and epoch
    afterwards, or three attempts ended in a retry and then the fourth and last
    chose this node, which refused it. *)
Theorem group_set_acknowledged g ticks key value t :
  hasPeers g = true → runs (Set_ g ticks key value) t (Val None) →
  (∃ t0 r t1 r' t2, t = t0 ++ picked key r :: t1 ++ picked key r' :: t2 ∧
     setAck g key value r t1 ∧ confirms r r') ∨
  (∃ t0 r t1 t2 err, t = did EvClosed false :: t0 ++ picked key r :: t1 ++ t2 ∧
     retried (λ last tk, setTurn g last tk key value) ticks 3 t0 ∧ pk_self r = true ∧ isTopology err = true ∧
     runs (setLocal g key value) t1 (Val (Some err))).
Proof. apply Set_acknowledged. Qed.

Lemma Delete_acknowledged g ticks key t :
  hasPeers g = true → runs (Delete g ticks key) t (Val None) →
  ∃ t0 r t1 r' t2, t = t0 ++ picked key r :: t1 ++ picked key r' :: t2 ∧
     deleteAck g key r t1 ∧ confirms r r'.
Proof.
  intros Hp. unfold Delete. rgoal. intros (closed & t' & -> & H). destruct closed; [by destruct H|].
  case_decide; [by destruct H|].
  apply runs_bind in H as [(ta & tb & res & -> & Ha & Hb)|(? & _ & ?)]; [|done].
  destruct res as [err|res]; [by destruct Hb|].
  apply turnLoop_runs in Ha as [(t1 & t2 & last & tk & -> & Ha)|(t1 & t2 & ow & -> & _ & Ha & _)];
    apply deleteTurn_runs in Ha; try done.
  destruct Ha as (r & t3 & r' & -> & Hack & Hs).
  exists (did EvClosed false :: t1), r, t3, r', tb. split_and!; try done.
  simpl. rewrite <-!app_assoc. simpl. by rewrite <-app_assoc.
Qed.

(** [C37] An acknowledged [Delete]: on a distributed group, [Delete] returns nil
    only if an owner carried it out and the picker confirmed that owner and
    epoch afterwards. *)
Theorem group_delete_acknowledged g ticks key t :
  hasPeers g = true → runs (Delete g ticks key) t (Val None) →
  ∃ t0 r t1 r' t2, t = t0 ++ picked key r :: t1 ++ picked key r' :: t2 ∧
     deleteAck g key r t1 ∧ confirms r r'.
Proof. apply Delete_acknowledged. Qed.

(** ** Two behaviours the comments do not promise *)

(** Events that store a value for a key. *)
Definition storesValue (e : ev) : bool :=
  match e with EvMainAdd _ _ | EvMainAddExp _ _ _ | EvPeerSet _ _ _ _ | EvNearAddExp _ _ _ => true | _ => false end.
Notation storeless t := (Forall (λ a, storesValue (projT1 a) = false) t).

(** An attempt of [Set] that picks this node as the owner and is refused by it,
    because [setLocal] sees another ring. *)
Definition refusedHere (g : config) (key : string) (value : list Z) (t : list (act (ans := ans))) : Prop :=
  ∃ r t1 err, t = picked key r :: t1 ∧ pk_ok r = true ∧ pk_owner r ≠ "" ∧ pk_self r = true ∧
    runs (setLocal g key value) t1 (Val (Some err)) ∧ isTopology err = true.

Lemma setLocal_error g key value t err :
  hasPeers g = true → runs (setLocal g key value) t (Val (Some err)) → storeless t.
Proof.
  intros Hp. unfold setLocal. rgoal. intros (closed & t1 & -> & H). constructor; [done|]. destruct closed; [destruct H as [-> _]; constructor|].
  apply runs_bind in H as [(ta & tb & prep & -> & Ha & Hb)|(? & _ & ?)]; [|done]. rewrite Hp in Hb. destruct prep as [e|epoch].
  - destruct Hb as [-> _]. rewrite app_nil_r. refine (every_runs (λ e, storesValue e = false) _ _ _ _ Ha). unfold prepareLocalOwner. every_tac.
  - exfalso. rn Hb. destruct Hb as (st & t2 & -> & H). apply runs_finally in H as (t3 & t4 & r' & -> & H & [[_ <-]|(? & _ & ?)]); [|done].
    rn H. destruct H as (? & t5 & -> & ? & t6 & -> & H). apply runs_bind in H as [(? & ? & ? & -> & _ & H)|(? & _ & ?)]; [|done].
    rn H. destruct H as (? & ? & -> & H). apply runs_bind in H as [(? & ? & ? & -> & _ & _ & ?)|(? & _ & ?)]; done.
Qed.

Lemma refusedHere_turn g last tk key value t :
  hasPeers g = true → refusedHere g key value t →
  (∃ o, runs (setTurn g last tk key value) t (Val (TContinue o))) ∧ storeless t.
Proof.
  intros Hp (r & t1 & err & -> & Hok & Hne & Hself & Hl & Htop). split; [|constructor; [done|by eapply setLocal_error]].
  exists (pk_owner r). unfold setTurn. rewrite Hp. rgoal. exists r, t1. split; [done|].
  rewrite Hok, (proj2 (String.eqb_neq _ _) Hne), Hself. cbn [negb orb]. apply runs_bind. left. exists t1, [], (Some err).
  rewrite app_nil_r. split_and!; [done..|]. unfold isTopology in Htop. rewrite orb_comm in Htop. by rewrite Htop.
Qed.

(** What follows the loop when it ran out of turns: nothing is stored unless the
    picker answers the epoch zero. *)
Lemma lost_end g key value o t r :
  hasPeers g = true → (∀ r', picked key r' ∈ t → pk_epoch r' ≠ 0) →
  runs (do (EvStat sets 1) ;;;
        invalidateLocalCopies g key ;;;
        invalidatePeerCopies g key o ;;;
        (if hasPeers g && hasNear g && negb (String.eqb o "") then
           r <- do (EvPickOwner key) ;;
           if pk_ok r && String.eqb (pk_owner r) o && (pk_epoch r =? 0) && negb (pk_self r)
           then now <- do EvNow ;;
                do (EvNearAddExp (nearKey 0 key) (mkByteView (cloneBytes value)) (time_Add now (nearTTL g)))
           else Ret tt
         else Ret tt) ;;;
        Ret None)%prog t r →
  r = Val (None : option error) ∧ storeless t.
Proof.
  intros Hp Hep. rgoal. intros ([] & t1 & -> & H). apply runs_bind in H as [(ta & tb & [] & -> & Ha & H)|(v & Ha & ->)].
  2:{ exfalso. unfold invalidateLocalCopies, invalidateNearKey in Ha. rewrite Hp in Ha. rn Ha. destruct Ha as (r' & ? & -> & Ha).
      destruct (pk_ok r' && _ && _), (hasNear g); rn Ha; naive_solver. }
  assert (storeless ta) as Hta.
  { refine (every_runs (λ e, storesValue e = false) _ _ _ _ Ha). unfold invalidateLocalCopies, invalidateNearKey. every_tac. }
  apply runs_bind in H as [(tc & td & [] & -> & Hc & H)|(v & Hc & ->)].
  2:{ exfalso. unfold invalidatePeerCopies in Hc. rewrite Hp in Hc. rn Hc. destruct Hc as ([] & ? & -> & Hc); rn Hc; naive_solver. }
  assert (storeless tc) as Htc.
  { refine (every_runs (λ e, storesValue e = false) _ _ _ _ Hc). unfold invalidatePeerCopies. every_tac. }
  assert (r = Val None ∧ storeless td) as [-> Htd].
  { rewrite Hp in H. destruct (hasNear g); cbn [andb] in H; [|by destruct H as [-> ->]].
    destruct (negb (String.eqb o "")); [|by destruct H as [-> ->]]. rn H. destruct H as (r' & te & -> & H).
    assert ((pk_epoch r' =? 0) = false) as Hz by (apply Z.eqb_neq, Hep; set_solver). rewrite Hz, andb_false_r in H. rn H.
    destruct H as [-> ->]. by repeat constructor. }
  split; [done|]. constructor; [done|]. by repeat apply Forall_app_2.
Qed.

(** [C38] A lost write: whenever a distributed group's [Set] is refused four times
    in a row by this node itself, which the picker named as the owner, then
    [Set] returns nil although no event of the run has stored the value, in the
    owner cache, in a near cache or through a peer.  (The epoch zero, which the
    loop leaves behind as its mark of failure, must not be an epoch of the
    picker.) *)
Theorem group_set_lost g ticks key value a1 a2 a3 a4 rest r :
  hasPeers g = true → key ≠ "" → value ≠ [] → Forall (refusedHere g key value) [a1; a2; a3; a4] →
  (∀ r', picked key r' ∈ rest → pk_epoch r' ≠ 0) →
  let t := did EvClosed false :: a1 ++ a2 ++ a3 ++ a4 ++ rest in
  runs (Set_ g ticks key value) t r → r = Val None ∧ storeless t.
Proof.
  intros Hp Hk Hv Hall Hep t Hrun. unfold Set_ in Hrun.
  apply (runs_prefix (do EvClosed) _ [did EvClosed false] (a1 ++ a2 ++ a3 ++ a4 ++ rest) false) in Hrun; [|by exists false, []].
  rewrite !decide_False in Hrun by done. cbn [turnLoop] in Hrun.
  repeat (apply Forall_cons in Hall as [?Ha Hall]).
  destruct (refusedHere_turn g false (ticks 3%nat) key value a1 Hp Ha) as [[o1 R1] S1].
  destruct (refusedHere_turn g false (ticks 2%nat) key value a2 Hp Ha0) as [[o2 R2] S2].
  destruct (refusedHere_turn g false (ticks 1%nat) key value a3 Hp Ha1) as [[o3 R3] S3].
  destruct (refusedHere_turn g true (ticks 0%nat) key value a4 Hp Ha2) as [[o4 R4] S4].
  assert (runs (turnLoop 4 (λ last tk, setTurn g last tk key value) ticks "") (a1 ++ a2 ++ a3 ++ a4) (Val (inr (o4, 0)))) as Hloop.
  { cbn [turnLoop]. apply runs_bind. left. exists a1, (a2 ++ a3 ++ a4), (TContinue o1). split_and!; [done..|].
    apply runs_bind. left. exists a2, (a3 ++ a4), (TContinue o2). split_and!; [done..|].
    apply runs_bind. left. exists a3, a4, (TContinue o3). split_and!; [done..|].
    apply runs_bind. left. exists a4, [], (TContinue o4). rewrite app_nil_r. by split_and!. }
  assert (a1 ++ a2 ++ a3 ++ a4 ++ rest = (a1 ++ a2 ++ a3 ++ a4) ++ rest) as Hassoc by (by rewrite <-!app_assoc). rewrite Hassoc in Hrun.
  apply (runs_prefix _ _ _ _ _ _ Hloop), lost_end in Hrun as [-> Hrest]; [|done..].
  split; [done|]. constructor; [done|]. by repeat apply Forall_app_2.
Qed.

(** [C39] A remote owner without client: on a reachable picker that has no client
    for the owner, [PickOwner] returns a nil [*Client] in a non-nil interface, so
    a [Get] whose first look at the ring this is never reports
    [ErrPeerUnavailable]: unless its near cache has a value for the key that the
    picker confirms, it dereferences the nil pointer and panics. *)
Theorem group_get_nil_client_panics g ticks key p t r :
  pickerReachable p → key ≠ "" → hasPeers g = true →
  pk_self (PickOwner key p) = false → clients p !! pk_owner (PickOwner key p) = None →
  runs (Get g ticks key) (did EvClosed false :: picked key (PickOwner key p) :: t) r →
  r = Boom "invalid memory address or nil pointer dereference" ∨
  (hasNear g = true ∧ ∃ v r', r = Val (inr v) ∧ confirms (PickOwner key p) r' ∧
     t = [did (EvNearGet (nearKey (pk_epoch (PickOwner key p)) key)) (Some v); picked key r'; did (EvStat nearHits 1) tt]).
Proof.
  intros Hr Hk Hp Hself Hnone. destruct (PickOwner_spec p key (pickerReachable_wf p Hr) Hk) as (Hok & _ & _ & Hne & _ & _ & Hpeer).
  rewrite Hself, Hnone in Hpeer. set (pk := PickOwner key p) in *. clearbody pk. intros H. unfold Get in H.
  apply (runs_prefix (do EvClosed) _ [did EvClosed false] (picked key pk :: t) false) in H; [|by exists false, []].
  rewrite decide_False, Hp in H by done. cbn [negb getLoop] in H.
  set (next := λ v : option (error + ByteView), match v with Some r => Ret r | None => _ end) in H.
  assert (runs (bind (bind (nearLookup g key pk) (λ near, match near with
    | Some view => Ret (Some (inr view))
    | None => nilPeer (A := option (error + ByteView))
    end)) next) t r) as H'.
  { apply (runs_prefix (do (EvPickOwner key)) (λ r, bind _ next) [picked key pk] t pk) in H; [|by exists pk, []].
    rewrite Hok, (proj2 (String.eqb_neq _ _) Hne), Hself, Hpeer in H. exact H. }
  clear H. apply runs_bind in H' as [(ta & tb & x & -> & H & Hx)|(v & H & ->)].
  - apply runs_bind in H as [(tc & td & near & -> & Hn & H)|(? & _ & ?)]; [|done].
    destruct (hasNear g) eqn:Hnear; [|unfold nearLookup in Hn; rewrite Hnear in Hn; destruct Hn as [_ [= ->]]; by destruct H].
    apply nearLookup_runs in Hn as [[= ->]|(v & r' & [= ->] & Hc & ->)]; [by destruct H|]. destruct H as [-> [= ->]]. destruct Hx as [-> ->].
    right. split; [done|]. exists v, r'. by rewrite !app_nil_r.
  - left. apply runs_bind in H as [(tc & td & near & -> & Hn & H)|(v' & Hn & [= ->])].
    + destruct near; destruct H as [_ H]; congruence.
    + apply nearLookup_runs in Hn as [?|(? & ? & ? & _)]; done.
Qed.

(** ** Concrete runs *)

(** The answer of a look at the ring. *)
Definition pickOf (a : act (ans := ans)) : option Pick := match a with existT (EvPickOwner _) r => Some r | _ => None end.

Definition wg : config := mkGConfig "scores" true false 0 true 0.
Definition wclient : Client := mkClient "b:1" (3 * Second) 0.
Definition wpick : Pick := mkPick "b:1" (PeerClient (Some wclient)) false 1 true.
Definition wnone : Pick := mkPick "" PeerNil false 1 false.
Notation no_ticks := (λ _ : nat, 0%nat).

Lemma group_owner_only_witness :
  let t := [did EvClosed false; picked "Tom" wnone] in
  runs (Get wg no_ticks "Tom") t (Val (inl (Sentinel ErrNoOwner))) ∧
  Forall (λ a : act (ans := ans), ownerAction (projT1 a) = false) t.
Proof.
  intros t. assert (runs (Get wg no_ticks "Tom") t (Val (inl (Sentinel ErrNoOwner)))) as Hr.
  { do 2 (eexists; eexists; split; [reflexivity|]). split; reflexivity. }
  split; [exact Hr|].
  apply (group_owner_only wg no_ticks "Tom" [1] (mkRequest "scores" "Tom" [] false) t eq_refl eq_refl) in Hr.
  exact Hr.
Defined.

Definition w_get_trace : list (act (ans := ans)) :=
  [did EvClosed false; picked "Tom" wpick; did (EvPeerGet wclient "scores" "Tom") (inr [6; 3; 0]);
   picked "Tom" wpick; did (EvStat peerHits 1) tt].

Lemma group_get_provenance_witness :
  runs (Get wg no_ticks "Tom") w_get_trace (Val (inr (mkByteView [6; 3; 0]))) ∧
  ∃ t0 r t', w_get_trace = t0 ++ picked "Tom" r :: t' ∧ pk_ok r = true ∧ provenance wg "Tom" r (mkByteView [6; 3; 0]) t'.
Proof.
  assert (runs (Get wg no_ticks "Tom") w_get_trace (Val (inr (mkByteView [6; 3; 0])))) as Hr.
  { do 5 (eexists; eexists; split; [reflexivity|]). split; reflexivity. }
  split; [exact Hr|]. exact (group_get_provenance wg no_ticks "Tom" w_get_trace _ eq_refl Hr).
Defined.

Definition w_set_trace : list (act (ans := ans)) :=
  [did EvClosed false; picked "Tom" wpick; did (EvPeerSet wclient "scores" "Tom" [9]) None; picked "Tom" wpick;
   did (EvStat sets 1) tt; picked "Tom" wpick; did (EvMainDelete "Tom") false; did (EvInvalidate "scores" "Tom" "b:1") None].

Lemma group_set_acknowledged_witness :
  runs (Set_ wg no_ticks "Tom" [9]) w_set_trace (Val None) ∧
  ((∃ t0 r t1 r' t2, w_set_trace = t0 ++ picked "Tom" r :: t1 ++ picked "Tom" r' :: t2 ∧
     setAck wg "Tom" [9] r t1 ∧ confirms r r') ∨
   (∃ t0 r t1 t2 err, w_set_trace = did EvClosed false :: t0 ++ picked "Tom" r :: t1 ++ t2 ∧
     retried (λ last tk, setTurn wg last tk "Tom" [9]) no_ticks 3 t0 ∧ pk_self r = true ∧ isTopology err = true ∧
     runs (setLocal wg "Tom" [9]) t1 (Val (Some err)))).
Proof.
  assert (runs (Set_ wg no_ticks "Tom" [9]) w_set_trace (Val None)) as Hr.
  { do 8 (eexists; eexists; split; [reflexivity|]). split; reflexivity. }
  split; [exact Hr|]. exact (group_set_acknowledged wg no_ticks "Tom" [9] w_set_trace eq_refl Hr).
Defined.

Definition w_delete_trace : list (act (ans := ans)) :=
  [did EvClosed false; picked "Tom" wpick; did (EvPeerDelete wclient "scores" "Tom") (inr true); picked "Tom" wpick;
   did (EvStat deletes 1) tt; picked "Tom" wpick; did (EvMainDelete "Tom") false; did (EvInvalidate "scores" "Tom" "b:1") None].

Lemma group_delete_acknowledged_witness :
  runs (Delete wg no_ticks "Tom") w_delete_trace (Val None) ∧
  ∃ t0 r t1 r' t2, w_delete_trace = t0 ++ picked "Tom" r :: t1 ++ picked "Tom" r' :: t2 ∧
     deleteAck wg "Tom" r t1 ∧ confirms r r'.
Proof.
  assert (runs (Delete wg no_ticks "Tom") w_delete_trace (Val None)) as Hr.
  { do 8 (eexists; eexists; split; [reflexivity|]). split; reflexivity. }
  split; [exact Hr|]. exact (group_delete_acknowledged wg no_ticks "Tom" w_delete_trace eq_refl Hr).
Defined.

(** This node is the owner in the epoch [n] and has lost the key in the next one:
    a peer joins and leaves again between the attempts. *)
Definition flicker (n : Z) : list (act (ans := ans)) :=
  [picked "Tom" (mkPick "a:1" PeerNil true n true); did EvClosed false; picked "Tom" (mkPick "b:1" (PeerClient (Some wclient)) false (n + 1) true)].
Definition lostRest : list (act (ans := ans)) :=
  [did (EvStat sets 1) tt; picked "Tom" (mkPick "a:1" PeerNil true 9 true); did (EvInvalidate "scores" "Tom" "a:1") None].

Lemma flicker_refused n : refusedHere wg "Tom" [9] (flicker n).
Proof.
  eexists _, _, _. split_and!; [reflexivity..|discriminate|reflexivity| |].
  - eexists _, _. split; [reflexivity|]. eexists _, _. split; [reflexivity|]. by split.
  - reflexivity.
Qed.

(** The epochs one to nine, in order. *)
Lemma group_set_lost_witness :
  storeless (did EvClosed false :: flicker 1 ++ flicker 3 ++ flicker 5 ++ flicker 7 ++ lostRest : list (act (ans := ans))).
Proof.
  apply (group_set_lost wg no_ticks "Tom" [9] (flicker 1) (flicker 3) (flicker 5) (flicker 7) lostRest (Val None)).
  - reflexivity.
  - discriminate.
  - discriminate.
  - repeat constructor; apply flicker_refused.
  - intros r' Hin. unfold lostRest in Hin. rewrite !elem_of_cons in Hin. destruct Hin as [H|[H|[H|H%elem_of_nil]]];
      [apply (f_equal pickOf) in H..|done]; [discriminate|injection H as ->; discriminate|discriminate].
  - do 16 (eexists; eexists; split; [reflexivity|]). split; reflexivity.
Defined.

(** With a near cache that has no value. *)
Lemma group_get_nil_client_panics_witness :
  let g := mkGConfig "scores" true true 0 true 0 in
  Boom (A := error + ByteView) "invalid memory address or nil pointer dereference" = Boom "invalid memory address or nil pointer dereference" ∨
  (hasNear g = true ∧ ∃ v r', Boom (A := error + ByteView) "invalid memory address or nil pointer dereference" = Val (inr v) ∧
     confirms (PickOwner "Sam" wp3) r' ∧
     [did (EvNearGet (nearKey (pk_epoch (PickOwner "Sam" wp3)) "Sam")) None; did (EvStat nearMisses 1) tt] =
     [did (EvNearGet (nearKey (pk_epoch (PickOwner "Sam" wp3)) "Sam")) (Some v); picked "Sam" r'; did (EvStat nearHits 1) tt]).
Proof.
  apply (group_get_nil_client_panics (mkGConfig "scores" true true 0 true 0) no_ticks "Sam" wp3
    [did (EvNearGet (nearKey (pk_epoch (PickOwner "Sam" wp3)) "Sam")) None; did (EvStat nearMisses 1) tt]).
  - apply wp3_reachable.
  - discriminate.
  - reflexivity.
  - vm_compute. reflexivity.
  - vm_compute. reflexivity.
  - assert (PickOwner "Sam" wp3 = mkPick "10.0.0.8:8001" (PeerClient None) false 2 true) as -> by (vm_compute; reflexivity).
    do 4 (eexists; eexists; split; [reflexivity|]). split; reflexivity.
Defined.
