(* ===== verification/Node.v ===== *)
(** * A node: the state of a group and what its events do (group.go)

    The mutable fields of [Group] and the meaning of every event that stays on
    the node, when operations on it do not overlap.  Mutexes are free then, so
    locking has no effect.  Time is a number that every reading of the clock
    advances by some non-negative amount ([tick]). *)

From S2P Require Import Prelude Store ByteView Errors Cache CacheFacts Peers Singleflight Prog Group.

(** [type keyMutationState struct] *)
Record keyMutationState := mkKeyState { generation : Z; refs : Z }.

Section node.
Context {S : Type} `{Store S ByteView}.

(** The mutable fields of [type Group struct].  A key state is a number, its
    address; the loader is the map of the singleflight group. *)
Record Group := mkGroup {
  closed : bool;
  mainCache : option (Cache S);
  nearCache : option (Cache S);
  ownerEpoch : Z;
  keyStates : gmap string nat;
  ksHeap : gmap nat keyMutationState;
  ksNext : nat;
  loader : gmap string nat;
  loaderNext : nat;
  stats : counter → Z
}.

Definition with_main (c : option (Cache S)) (g : Group) : Group :=
  mkGroup (closed g) c (nearCache g) (ownerEpoch g) (keyStates g) (ksHeap g) (ksNext g) (loader g) (loaderNext g) (stats g).
Definition with_near (c : option (Cache S)) (g : Group) : Group :=
  mkGroup (closed g) (mainCache g) c (ownerEpoch g) (keyStates g) (ksHeap g) (ksNext g) (loader g) (loaderNext g) (stats g).
Definition with_ownerEpoch (e : Z) (g : Group) : Group :=
  mkGroup (closed g) (mainCache g) (nearCache g) e (keyStates g) (ksHeap g) (ksNext g) (loader g) (loaderNext g) (stats g).
Definition with_keys (ks : gmap string nat) (h : gmap nat keyMutationState) (n : nat) (g : Group) : Group :=
  mkGroup (closed g) (mainCache g) (nearCache g) (ownerEpoch g) ks h n (loader g) (loaderNext g) (stats g).
Definition with_loader (m : gmap string nat) (n : nat) (g : Group) : Group :=
  mkGroup (closed g) (mainCache g) (nearCache g) (ownerEpoch g) (keyStates g) (ksHeap g) (ksNext g) m n (stats g).
Definition addStat (f : counter) (n : Z) (g : Group) : Group :=
  mkGroup (closed g) (mainCache g) (nearCache g) (ownerEpoch g) (keyStates g) (ksHeap g) (ksNext g) (loader g) (loaderNext g)
    (λ f', if decide (f' = f) then int64 (stats g f + n) else stats g f').

(** ** Key states *)

Definition acquireKeyState (key : string) (g : Group) : Group * nat :=
  let '(ks, h, next, st) :=
    match keyStates g !! key with
    | Some st => (keyStates g, ksHeap g, ksNext g, st)
    | None => (<[key := ksNext g]> (keyStates g), <[ksNext g := mkKeyState 0 0]> (ksHeap g),
               (ksNext g + 1)%nat, ksNext g)
    end in
  (with_keys ks (alter (λ s, mkKeyState (generation s) (int64 (refs s + 1))) st h) next g, st).

Definition releaseKeyState (key : string) (st : nat) (g : Group) : Group :=
  let h := alter (λ s, mkKeyState (generation s) (int64 (refs s - 1))) st (ksHeap g) in
  let zero := match h !! st with Some s => bool_decide (refs s = 0) | None => false end in
  with_keys (if zero && bool_decide (keyStates g !! key = Some st) then delete key (keyStates g) else keyStates g)
    h (ksNext g) g.

(** ** A node and its events *)

Record node := mkNode {
  nd_cfg : config;                       (* the immutable fields of the group *)
  nd_group : Group;
  nd_picker : ClientPicker;              (* g.peers *)
  nd_source : Z → string → loaded        (* what g.getter answers at a time *)
}.

Definition on_group (f : Group → Group) (nd : node) : node :=
  mkNode (nd_cfg nd) (f (nd_group nd)) (nd_picker nd) (nd_source nd).

(** The answer of a peer that cannot be reached. *)
Definition unreachable : error := Status codes_Unavailable [Lit "no connection"].

Context (tick : Z → Z).

(** The effect of an event on the node and the clock.  Calls of peers do not
    belong to the node: they are answered as unreachable here and replaced in
    the cluster. *)
Definition handleNode (e : ev) (w : node * Z) : (node * Z) * ans e :=
  let nd := w.1 in
  let t := w.2 in
  let g := nd_group nd in
  let upd g' := mkNode (nd_cfg nd) g' (nd_picker nd) (nd_source nd) in
  match e with
  | EvClosed => ((nd, t), closed g)
  | EvNow => ((nd, tick t), tick t)
  | EvStat f n => ((upd (addStat f n g), t), tt)
  | EvPickOwner key => ((nd, t), PickOwner key (nd_picker nd))
  | EvEpoch => ((nd, t), Epoch (nd_picker nd))
  | EvInvalidate _ _ _ => ((nd, t), Some unreachable)
  | EvPeerGet _ _ _ => ((nd, t), inl unreachable)
  | EvPeerSet _ _ _ _ => ((nd, t), Some unreachable)
  | EvPeerDelete _ _ _ => ((nd, t), inl unreachable)
  | EvGetter key => ((nd, t), nd_source nd t key)
  | EvMainGet key =>
      let r := Cache.Get (tick t) key (mainCache g) in ((upd (with_main r.1 g), tick t), r.2)
  | EvMainAdd key v => ((upd (with_main (Cache.Add (tick t) key v (mainCache g)) g), tick t), tt)
  | EvMainAddExp key v exp =>
      let t1 := tick t in let t2 := tick t1 in let t3 := tick t2 in
      ((upd (with_main (Cache.AddWithExpiration t1 t2 t3 key v exp (mainCache g)) g), t3), tt)
  | EvMainDelete key =>
      let r := Cache.Delete key (mainCache g) in ((upd (with_main r.1 g), t), r.2)
  | EvMainClear => ((upd (with_main (Cache.Clear (mainCache g)) g), t), tt)
  | EvNearGet key =>
      let r := Cache.Get (tick t) key (nearCache g) in ((upd (with_near r.1 g), tick t), r.2)
  | EvNearAddExp key v exp =>
      let t1 := tick t in let t2 := tick t1 in let t3 := tick t2 in
      ((upd (with_near (Cache.AddWithExpiration t1 t2 t3 key v exp (nearCache g)) g), t3), tt)
  | EvNearDelete key =>
      let r := Cache.Delete key (nearCache g) in ((upd (with_near r.1 g), t), r.2)
  | EvOwnerLock | EvOwnerUnlock => ((nd, t), tt)
  | EvOwnerGet => ((nd, t), ownerEpoch g)
  | EvOwnerPut e => ((upd (with_ownerEpoch e g), t), tt)
  | EvAcquire key => let r := acquireKeyState key g in ((upd r.1, t), r.2)
  | EvRelease key st => ((upd (releaseKeyState key st g), t), tt)
  | EvLock _ | EvUnlock _ => ((nd, t), tt)
  | EvGen st => ((nd, t), match ksHeap g !! st with Some s => generation s | None => 0 end)
  | EvIncGen st =>
      ((upd (with_keys (keyStates g)
               (alter (λ s, mkKeyState (uint64 (generation s + 1)) (refs s)) st (ksHeap g)) (ksNext g) g), t), tt)
  | EvFlight key =>
      match loader g !! key with
      | Some c => ((nd, t), Join c)
      | None => ((upd (with_loader (<[key := loaderNext g]> (loader g)) (loaderNext g + 1)%nat g), t), Lead (loaderNext g))
      end
  | EvFlightWait _ => ((nd, t), Panicked "all goroutines are asleep")
  | EvFlightEnd key c o =>
      ((upd (with_loader (if decide (loader g !! key = Some c) then delete key (loader g) else loader g) (loaderNext g) g), t), tt)
  | EvSelect _ => ((nd, t), None)
  end.
End node.
Arguments Group S : clear implicits.
Arguments node S : clear implicits.
