(* ===== verification/NodeFacts.v ===== *)
(** * What the owner-only paths do on a node

    What every event keeps ([keeps]), and the outcome of the local operations of
    a group on a node that owns the key, as rules for [ends]. *)

From S2P Require Import Prelude Store ByteView Errors Cache CacheFacts ConsistentHash RingFacts Peers PeersFacts Singleflight Prog Group Rpc GroupFacts Node.

Section facts.
Context {S : Type} {HS : Store S ByteView} {HM : StoreModel S ByteView} {HL : StoreLaws S ByteView} (tick : Z → Z) (tick_le : ∀ t, t ≤ tick t).
Implicit Types (nd : node S) (t u : Z) (key : string).
Notation exec p nd t := (interp (handleNode tick) p (nd, t)).

(** ** What every event keeps *)

Definition group_wf (g : Node.Group S) : Prop :=
  closed g = false ∧ cache_wf (mainCache g) ∧ cache_wf (nearCache g).

Record keeps nd nd' : Prop := {
  kp_cfg : nd_cfg nd' = nd_cfg nd;
  kp_picker : nd_picker nd' = nd_picker nd;
  kp_source : nd_source nd' = nd_source nd;
  kp_near : nearCache (nd_group nd) = None → nearCache (nd_group nd') = None;
  kp_wf : group_wf (nd_group nd) → group_wf (nd_group nd');
  kp_room : group_wf (nd_group nd) → ∀ k v,
    cache_room (mainCache (nd_group nd')) k v ↔ cache_room (mainCache (nd_group nd)) k v
}.

#[global] Instance keeps_refl : Reflexive keeps.
Proof. by split. Qed.
#[global] Instance keeps_trans : Transitive keeps.
Proof.
  intros a b c [C1 P1 S1 N1 W1 R1] [C2 P2 S2 N2 W2 R2]. split; [congruence..|auto|auto|].
  intros Hw k v. rewrite R2, R1; auto.
Qed.

(** A change of one field of the group that keeps the caches in order. *)
Lemma keeps_group nd g' :
  closed g' = closed (nd_group nd) →
  (∃ op, op ≠ CClose ∧ mainCache g' = cacheStep op (mainCache (nd_group nd))) ∨ mainCache g' = mainCache (nd_group nd) →
  (∃ op, nearCache g' = cacheStep op (nearCache (nd_group nd))) ∨ nearCache g' = nearCache (nd_group nd) →
  keeps nd (mkNode (nd_cfg nd) g' (nd_picker nd) (nd_source nd)).
Proof.
  intros Hc Hm Hn. split; simpl; try done.
  - intros Hnone. destruct Hn as [(op & ->)| ->]; [|done]. rewrite Hnone. by destruct op.
  - intros (H1 & H2 & H3). split_and!; [congruence| |].
    + destruct Hm as [(op & _ & ->)| ->]; [by apply cacheStep_wf|done].
    + destruct Hn as [(op & ->)| ->]; [by apply cacheStep_wf|done].
  - intros (H1 & H2 & H3) k v. destruct Hm as [(op & Hop & ->)| ->]; [by apply cache_step_room|done].
Qed.

Lemma acquire_fields key (g : Node.Group S) :
  let g' := (acquireKeyState key g).1 in
  closed g' = closed g ∧ mainCache g' = mainCache g ∧ nearCache g' = nearCache g ∧ ownerEpoch g' = ownerEpoch g ∧
  loader g' = loader g.
Proof. unfold acquireKeyState. by destruct (keyStates g !! key). Qed.

(** A cache is left alone or changed by one of its operations, not closed. *)
Definition touched (c c' : option (Cache S)) : Prop := (∃ op, op ≠ CClose ∧ c' = cacheStep op c) ∨ c' = c.

Lemma handleNode_fields e nd t :
  let nd' := (handleNode tick e (nd, t)).1.1 in
  nd' = mkNode (nd_cfg nd) (nd_group nd') (nd_picker nd) (nd_source nd) ∧
  closed (nd_group nd') = closed (nd_group nd) ∧
  touched (mainCache (nd_group nd)) (mainCache (nd_group nd')) ∧
  touched (nearCache (nd_group nd)) (nearCache (nd_group nd')).
Proof.
  destruct nd as [cfg g pk src], e; cbn [handleNode fst snd nd_cfg nd_group nd_picker nd_source];
    repeat match goal with |- context [match ?x with Some _ => _ | None => _ end] => destruct x end;
    cbn [fst snd nd_cfg nd_group nd_picker nd_source]; try (split_and!; first [done|by right]);
    try (split_and!; [done|apply acquire_fields|right; apply acquire_fields..]);
    split_and!; first [done|by right|left].
  - by exists (CGet (tick t) key).
  - by exists (CAdd (tick t) key view).
  - by exists (CAddWithExpiration (tick t) (tick (tick t)) (tick (tick (tick t))) key view at_).
  - by exists (CDelete key).
  - by exists CClear.
  - by exists (CGet (tick t) key).
  - by exists (CAddWithExpiration (tick t) (tick (tick t)) (tick (tick (tick t))) key view at_).
  - by exists (CDelete key).
Qed.

Lemma handleNode_clock e nd t : t ≤ (handleNode tick e (nd, t)).1.2.
Proof.
  assert (t ≤ tick (tick (tick t))) as H3 by (etrans; [apply tick_le|]; etrans; apply tick_le).
  destruct e; cbn [handleNode fst snd]; try case_match; cbn [fst snd]; first [apply tick_le|exact H3|lia].
Qed.

Lemma handleNode_keeps e nd t :
  keeps nd (handleNode tick e (nd, t)).1.1 ∧ t ≤ (handleNode tick e (nd, t)).1.2.
Proof.
  split; [|apply handleNode_clock]. destruct (handleNode_fields e nd t) as (-> & Hc & Hm & Hn).
  apply keeps_group; [done|done|]. destruct Hn as [(op & _ & ?)|?]; eauto.
Qed.

Lemma ends_keeps {A} (p : gprog A) nd t (Q : node S * Z → result A → Prop) :
  ends (handleNode tick) p (nd, t) Q →
  ends (handleNode tick) p (nd, t) (λ w' r, Q w' r ∧ keeps nd w'.1 ∧ t ≤ w'.2).
Proof.
  unfold ends. intros HQ. enough (keeps nd (interp (handleNode tick) p (nd, t)).1.1 ∧
    t ≤ (interp (handleNode tick) p (nd, t)).1.2) by (by destruct (interp _ p (nd, t))). clear HQ.
  revert nd t. induction p as [a|v|e k IH]; intros nd t; cbn [interp fst snd]; [split; [reflexivity|lia]..|].
  pose proof (handleNode_keeps e nd t) as [Hk Ht]. destruct (handleNode tick e (nd, t)) as [[nd1 t1] x].
  cbn [fst snd] in *. destruct (IH x nd1 t1) as [Hk' Ht']. split; [by etrans|lia].
Qed.
(** ** Observations *)

Definition mainVal nd u key : option ByteView := cache_lookup u key (mainCache (nd_group nd)).
(** The near-cache value of a key under the node's current epoch. *)
Definition nearVal nd u key : option ByteView :=
  cache_lookup u (nearKey (epoch (nd_picker nd)) key) (nearCache (nd_group nd)).

(** A distributed group that is open and in order. *)
Definition node_ok nd : Prop :=
  group_wf (nd_group nd) ∧ hasPeers (nd_cfg nd) = true ∧
  (hasNear (nd_cfg nd) = false → nearCache (nd_group nd) = None).

Lemma keeps_ok nd nd' : keeps nd nd' → node_ok nd → node_ok nd'.
Proof. intros [Hc _ _ Hn Hw _] (H1 & H2 & H3). unfold node_ok. rewrite Hc. auto. Qed.

(** Step over the next event. *)
Ltac estep := apply ends_event; cbn [handleNode fst snd nd_cfg nd_group nd_picker nd_source].
Ltac eret := apply ends_ret; cbn [fst snd].

Lemma invalidateNearKey_ends g nd t key (Q : node S * Z → result unit → Prop) :
  nd_cfg nd = g → node_ok nd →
  (∀ nd', nd_picker nd' = nd_picker nd → mainCache (nd_group nd') = mainCache (nd_group nd) →
     ownerEpoch (nd_group nd') = ownerEpoch (nd_group nd) → (∀ u, nearVal nd' u key = None) → Q (nd', t) (Val tt)) →
  ends (handleNode tick) (invalidateNearKey g key) (nd, t) Q.
Proof.
  intros <- ((_ & _ & Hn) & Hp & Hnear) HQ. unfold invalidateNearKey. rewrite Hp. destruct (hasNear (nd_cfg nd)) eqn:Hh; cbn [negb].
  - estep. estep. eret. apply HQ; try done. intros u. unfold nearVal, Epoch. simpl.
    rewrite cache_Delete_lookup by done. by rewrite decide_True.
  - eret. apply HQ; try done. intros u. unfold nearVal. by rewrite Hnear.
Qed.

Lemma deleteLocal_ends g nd t key :
  nd_cfg nd = g → node_ok nd →
  ends (handleNode tick) (deleteLocal g key) (nd, t) (λ w r,
    (∃ b, r = Val b) ∧ (∀ u, mainVal w.1 u key = None) ∧ (∀ u, nearVal w.1 u key = None) ∧
    ownerEpoch (nd_group w.1) = ownerEpoch (nd_group nd)).
Proof.
  intros <- Hok. unfold deleteLocal. estep. apply ends_finally. do 4 estep. destruct Hok as ((Hcl & Hm & Hn) & Hp & Hnear).
  destruct (acquire_fields key (nd_group nd)) as (Ec & Em & En & Eo & _).
  set (st := (acquireKeyState key (nd_group nd)).2). set (g1 := (acquireKeyState key (nd_group nd)).1) in *.
  apply ends_bind. apply invalidateNearKey_ends; [done|..].
  { unfold node_ok, group_wf. simpl. rewrite Ec, Em, En. split_and!; try done.
    apply (cacheStep_wf (CDelete key)). done. }
  intros nd' Hp' Hm' Ho' Hn'. eret. estep. eret. simpl in *. unfold mainVal, nearVal in *. simpl.
  split_and!; [by eauto| |done|by rewrite Ho', Eo].
  intros u. rewrite Hm', Em, cache_Delete_lookup by done. by rewrite decide_True.
Qed.

(** The pick that names the node itself. *)
Definition picksSelf nd key : Prop :=
  let r := PickOwner key (nd_picker nd) in
  pk_ok r = true ∧ pk_owner r ≠ "" ∧ pk_self r = true ∧ pk_epoch r = epoch (nd_picker nd).

Lemma prepareLocalOwner_ends g nd t key (Q : node S * Z → result (error + Z) → Prop) :
  nd_cfg nd = g → node_ok nd → picksSelf nd key →
  (∀ nd', nd_picker nd' = nd_picker nd → keeps nd nd' → nearCache (nd_group nd') = nearCache (nd_group nd) →
     ownerEpoch (nd_group nd') = epoch (nd_picker nd) →
     (ownerEpoch (nd_group nd) = 0 ∨ ownerEpoch (nd_group nd) = epoch (nd_picker nd) →
      mainCache (nd_group nd') = mainCache (nd_group nd)) →
     (∀ u k, mainVal nd u k = None → mainVal nd' u k = None) →
     Q (nd', t) (Val (inr (epoch (nd_picker nd))))) →
  ends (handleNode tick) (prepareLocalOwner g key) (nd, t) Q.
Proof.
  intros <- Hok (Hpok & Hne & Hself & Hep) HQ. unfold prepareLocalOwner. rewrite (proj1 (proj2 Hok)). cbn [negb].
  estep. rewrite Hpok, (proj2 (String.eqb_neq _ _) Hne), Hself. cbn [negb orb]. rewrite Hep. estep. estep.
  case_decide as H0; [|case_decide as H1].
  - estep. estep. eret. apply HQ; try done; (apply keeps_group; by right).
  - apply ends_bind. estep. estep. estep. eret. apply HQ; try done; [apply keeps_group; simpl; [done|left; by exists CClear|by right]|by intros [|]|].
    intros u k _. unfold mainVal. simpl. apply cache_Clear_lookup. apply (proj1 Hok).
  - apply ends_bind. eret. estep. eret. by apply HQ.
Qed.

(** The value [v] is in the owner cache from [t] until [T]. *)
Definition holds nd t (T : Z) key (v : ByteView) : Prop := ∀ u, t ≤ u < T → mainVal nd u key = Some v.

(** The instant until which a value written at [t] lives. *)
Definition deadline (g : config) t : option Z := if 0 <? expiration g then Some (t + expiration g) else None.
Definition before (T : option Z) u : Prop := match T with Some T => u < T | None => True end.

Lemma addOwnerValue_ends g nd t key v (Q : node S * Z → result unit → Prop) :
  nd_cfg nd = g → group_wf (nd_group nd) → expiration g ≤ max_int64 → cache_room (mainCache (nd_group nd)) key v →
  (∀ nd' t', nd_picker nd' = nd_picker nd → keeps nd nd' → t ≤ t' →
     nearCache (nd_group nd') = nearCache (nd_group nd) → ownerEpoch (nd_group nd') = ownerEpoch (nd_group nd) →
     (∀ T, before (deadline g t) (T - 1) → holds nd' t' T key v) → Q (nd', t') (Val tt)) →
  ends (handleNode tick) (addOwnerValue g key v) (nd, t) Q.
Proof.
  intros <- (Hcl & Hm & Hn) Hexp Hroom HQ. unfold addOwnerValue, deadline in *.
  destruct (Z.ltb_spec 0 (expiration (nd_cfg nd))) as [Hpos|Hzero].
  - estep. estep. eret. pose proof (tick_le t). pose proof (tick_le (tick t)). pose proof (tick_le (tick (tick t))).
    pose proof (tick_le (tick (tick (tick t)))). apply HQ; try done; [apply keeps_group; simpl; [done|left|by right]|lia|].
    { by eexists (CAddWithExpiration _ _ _ _ _ _). }
    intros T HT u Hu. unfold mainVal. simpl. destruct (mainCache (nd_group nd)) as [c|]; [|done].
    destruct Hroom as [Hc Hroom]. unfold AddWithExpiration, time_Add in *. rewrite ?Hc.
    simpl in HT. rewrite time_Sub_small by (unfold max_int64, min_int64 in *; lia).
    destruct (Z.leb_spec (tick t + expiration (nd_cfg nd) - tick (tick t)) 0); [lia|]. simpl. rewrite ?Hc.
    apply st_SetExp_same; [done|done|lia|lia|lia].
  - estep. eret. apply HQ; try done; [apply keeps_group; simpl; [done|left|by right]|].
    { by eexists (CAdd _ _ _). }
    intros T _ u Hu. unfold mainVal. simpl. apply cache_Add_same; [done|done|lia].
Qed.

Lemma setLocal_ends g nd t key value :
  nd_cfg nd = g → node_ok nd → picksSelf nd key → expiration g ≤ max_int64 →
  cache_room (mainCache (nd_group nd)) key (mkByteView value) →
  ends (handleNode tick) (setLocal g key value) (nd, t) (λ w r,
    r = Val None ∧ ownerEpoch (nd_group w.1) = epoch (nd_picker nd) ∧
    (∀ T, before (deadline g t) (T - 1) → holds w.1 w.2 T key (mkByteView value))).
Proof.
  intros <- Hok Hself Hexp Hroom. unfold setLocal. estep. destruct (Hok) as ((Hcl & Hm & Hn) & Hp & Hnear). rewrite Hcl.
  apply ends_bind. apply prepareLocalOwner_ends; [done..|]. intros nd1 Hp1 K1 N1 O1 _ _. cbn [fst snd].
  destruct (K1) as [C1 _ _ _ W1 R1]. estep. apply ends_finally. estep. estep. apply ends_bind.
  destruct (acquire_fields key (nd_group nd1)) as (Ec & Em & En & Eo & _).
  destruct (W1 (proj1 Hok)) as (Hcl1 & Hm1 & Hn1).
  set (st := (acquireKeyState key (nd_group nd1)).2). set (g1 := (acquireKeyState key (nd_group nd1)).1) in *.
  apply addOwnerValue_ends; simpl; [done| |done| |].
  { unfold group_wf. simpl. by rewrite Ec, Em, En. }
  { rewrite cloneBytes_id, Em. by apply R1. }
  intros nd2 t2 Hp2 K2 Ht N2 O2 Hholds. simpl in *. estep. apply ends_bind.
  apply invalidateNearKey_ends; [rewrite (kp_cfg _ _ K2); done| |].
  { eapply keeps_ok; [exact K2|]. unfold node_ok, group_wf. simpl. rewrite Ec, Em, En, C1. split_and!; try done.
    rewrite N1. done. }
  intros nd3 Hp3 M3 O3 N3. eret. estep. eret. simpl. split_and!; [done|by rewrite O3, O2, Eo|].
  intros T HT u Hu. unfold mainVal. simpl. rewrite M3. rewrite cloneBytes_id in Hholds. by apply (Hholds T HT).
Qed.

Lemma getLocal_hit_ends g nd t key v :
  nd_cfg nd = g → node_ok nd → picksSelf nd key →
  ownerEpoch (nd_group nd) = 0 ∨ ownerEpoch (nd_group nd) = epoch (nd_picker nd) →
  mainVal nd (tick t) key = Some v →
  ends (handleNode tick) (getLocal g key) (nd, t) (λ w r,
    r = Val (inr v) ∧ w.2 = tick t ∧ ownerEpoch (nd_group w.1) = epoch (nd_picker nd) ∧
    (∀ u k, tick t ≤ u → mainVal w.1 u k = mainVal nd u k)).
Proof.
  intros <- Hok Hself Hoe Hv. unfold getLocal. estep. destruct (Hok) as ((Hcl & Hm & Hn) & Hp & Hnear). rewrite Hcl.
  apply ends_bind. apply prepareLocalOwner_ends; [done..|]. intros nd1 Hp1 K1 N1 O1 M1 _. cbn [fst snd].
  specialize (M1 Hoe). estep. apply ends_finally. estep.
  destruct (acquire_fields key (nd_group nd1)) as (Ec & Em & En & Eo & _).
  set (st := (acquireKeyState key (nd_group nd1)).2). set (g1 := (acquireKeyState key (nd_group nd1)).1) in *.
  unfold mainVal in *. rewrite Em, M1, cache_Get_result, Hv by done. estep. eret. estep. eret. simpl.
  split_and!; [done|done|by rewrite Eo|]. intros u k Hu. unfold mainVal. simpl. by apply cache_Get_frame.
Qed.
End facts.
