(* ===== verification/ReadThrough.v ===== *)
(** * Misses and loads on the owner

    What the owner path does when the owner cache has no value: without a source
    it reports a miss, with one it loads, stores and returns.  A node is quiet
    when no load is in flight; operations that run one at a time leave it so. *)

From S2P Require Import Prelude Store ByteView Errors Cache CacheFacts ConsistentHash RingFacts Peers PeersFacts Singleflight Prog Group Rpc GroupFacts Node NodeFacts.

Section facts.
Context {S : Type} {HS : Store S ByteView} {HM : StoreModel S ByteView} {HL : StoreLaws S ByteView} (tick : Z → Z) (tick_le : ∀ t, t ≤ tick t).
Implicit Types (nd : node S) (t u : Z) (key : string).
Notation nends := (ends (handleNode tick)).

(** ** No load in flight *)

Definition quiet nd : Prop := loader (nd_group nd) = ∅.

Definition noFlight (e : ev) : Prop :=
  match e with EvFlight _ | EvFlightWait _ | EvFlightEnd _ _ _ => False | _ => True end.

Lemma handleNode_loader e nd t : noFlight e → loader (nd_group (handleNode tick e (nd, t)).1.1) = loader (nd_group nd).
Proof.
  destruct e; try done. intros _. cbn [handleNode fst snd nd_group]. by destruct (acquire_fields key (nd_group nd)) as (_ & _ & _ & _ & ->).
Qed.

Lemma noFlight_loader {A} (p : gprog A) nd t :
  every noFlight p → loader (nd_group (interp (handleNode tick) p (nd, t)).1.1) = loader (nd_group nd).
Proof.
  revert nd t. induction p as [a|v|e k IH]; intros nd t; cbn [interp every]; [done|done|]. intros [He Hk].
  pose proof (handleNode_loader e nd t He) as Hl. destruct (handleNode tick e (nd, t)) as [[nd1 t1] x]. simpl in Hl.
  by rewrite IH.
Qed.

(** The program leaves a quiet node quiet. *)
Definition quiets {A} (p : gprog A) : Prop := ∀ nd t, quiet nd → quiet (interp (handleNode tick) p (nd, t)).1.1.

Lemma noFlight_quiets {A} (p : gprog A) : every noFlight p → quiets p.
Proof. intros Hp nd t Hq. unfold quiet. by rewrite noFlight_loader. Qed.
Lemma quiets_bind {A B} (p : gprog A) (f : A → gprog B) : quiets p → (∀ a, quiets (f a)) → quiets (bind p f).
Proof.
  intros Hp Hf nd t Hq. rewrite interp_bind. specialize (Hp nd t Hq).
  destruct (interp (handleNode tick) p (nd, t)) as [[nd1 t1] [a|v]]; [by apply Hf|done].
Qed.
Lemma quiets_finally {A} (p : gprog A) q : quiets p → quiets q → quiets (finally p q).
Proof.
  intros Hp Hf nd t Hq. rewrite interp_finally. specialize (Hp nd t Hq).
  destruct (interp (handleNode tick) p (nd, t)) as [[nd1 t1] r]. specialize (Hf nd1 t1 Hp).
  by destruct (interp (handleNode tick) q (nd1, t1)) as [[nd2 t2] []].
Qed.

Lemma flightDo_quiets key fn : every noFlight fn → quiets (flightDo key fn).
Proof.
  intros Hfn nd t Hq. unfold flightDo. cbn [bind event interp handleNode fst snd]. unfold quiet in Hq.
  rewrite Hq, lookup_empty. cbn [fst snd]. rewrite interp_bind, interp_catch.
  set (nd0 := mkNode _ _ _ _). pose proof (noFlight_loader fn nd0 t Hfn) as Hl. simpl in Hl.
  destruct (interp (handleNode tick) fn (nd0, t)) as [[nd1 t1] r]. simpl in Hl. cbn [bind event interp handleNode fst snd].
  unfold quiet. rewrite Hl. destruct r; simpl; (rewrite lookup_insert_eq, decide_True by done);
    rewrite delete_insert_eq; apply delete_empty.
Qed.

Section programs.
Context (g : config).

Lemma prepareLocalOwner_noFlight key : every noFlight (prepareLocalOwner g key).
Proof. unfold prepareLocalOwner. every_tac. Qed.
Lemma addOwnerValue_noFlight key v : every noFlight (addOwnerValue g key v).
Proof. unfold addOwnerValue. every_tac. Qed.
Lemma invalidateNearKey_noFlight key : every noFlight (invalidateNearKey g key).
Proof. unfold invalidateNearKey. every_tac. Qed.
Hint Resolve prepareLocalOwner_noFlight addOwnerValue_noFlight invalidateNearKey_noFlight : locache.
Lemma loadOwner_noFlight key e st : every noFlight (loadOwner g key e st).
Proof. unfold loadOwner. every_tac; auto with locache. Qed.
Lemma setLocal_noFlight key v : every noFlight (setLocal g key v).
Proof. unfold setLocal. every_tac; auto with locache. Qed.
Lemma deleteLocal_noFlight key : every noFlight (deleteLocal g key).
Proof. unfold deleteLocal. every_tac; auto with locache. Qed.
Hint Resolve deleteLocal_noFlight : locache.
Lemma deleteOwnerLocal_noFlight key : every noFlight (deleteOwnerLocal g key).
Proof. unfold deleteOwnerLocal. every_tac; auto with locache. Qed.
Lemma invalidateLocalCopies_noFlight key : every noFlight (invalidateLocalCopies g key).
Proof. unfold invalidateLocalCopies. every_tac; auto with locache. Qed.

Lemma getLocal_quiets key : quiets (getLocal g key).
Proof.
  unfold getLocal. apply quiets_bind; [by apply noFlight_quiets|]. intros cl. case_match; [by apply noFlight_quiets|].
  apply quiets_bind; [apply noFlight_quiets, prepareLocalOwner_noFlight|]. intros [err|epoch]; [by apply noFlight_quiets|].
  apply quiets_bind; [by apply noFlight_quiets|]. intros st. apply quiets_finally; [|by apply noFlight_quiets].
  apply quiets_bind; [by apply noFlight_quiets|]. intros [view|]; [apply noFlight_quiets; every_tac|].
  apply quiets_bind; [by apply noFlight_quiets|]. intros _. destruct (hasGetter g); cbn [negb]; [|by apply noFlight_quiets].
  apply quiets_bind; [apply flightDo_quiets, loadOwner_noFlight|]. intros r. apply noFlight_quiets. every_tac.
Qed.
End programs.

(** ** The owner path without a value *)

(** A value written later lives longer. *)
Lemma deadline_later g t t' u : t ≤ t' → before (deadline g t) u → before (deadline g t') u.
Proof. unfold deadline. destruct (0 <? expiration g); simpl; [lia|done]. Qed.

Ltac estep := apply ends_event; cbn [handleNode fst snd nd_cfg nd_group nd_picker nd_source].
Ltac eret := apply ends_ret; cbn [fst snd].

(** The owner cache has no value for the key from [t] on. *)
Definition mainNone nd t key : Prop := ∀ u, t ≤ u → mainVal nd u key = None.

(** Without a source, a miss. *)
Lemma getLocal_miss_ends g nd t key :
  nd_cfg nd = g → node_ok nd → picksSelf nd key → mainNone nd t key → hasGetter g = false →
  nends (getLocal g key) (nd, t) (λ w r, r = Val (inl (Sentinel ErrCacheMiss)) ∧ mainNone w.1 w.2 key).
Proof.
  intros <- Hok Hself Hnone Hget. unfold getLocal. estep. destruct (Hok) as ((Hcl & Hm & Hn) & Hp & Hnear). rewrite Hcl.
  apply ends_bind. apply prepareLocalOwner_ends; [done..|]. intros nd1 Hp1 K1 N1 O1 _ M1. cbn [fst snd].
  destruct (kp_wf _ _ K1 (proj1 Hok)) as (_ & Hm1 & _). estep. apply ends_finally. estep.
  destruct (acquire_fields key (nd_group nd1)) as (_ & Em & _).
  set (g1 := (acquireKeyState key (nd_group nd1)).1) in *.
  assert (∀ u, tick t ≤ u → mainVal nd1 u key = None) as Hnone1 by (intros u Hu; apply M1, Hnone; pose proof (tick_le t); lia).
  rewrite Em, cache_Get_result by done. pose proof (Hnone1 (tick t) (Z.le_refl _)) as H0. unfold mainVal in H0. rewrite H0. estep.
  rewrite Hget. cbn [negb]. eret. estep. eret. split; [done|]. intros u Hu. unfold mainVal. simpl.
  rewrite cache_Get_frame by done. by apply Hnone1.
Qed.

(** The function passed to the loader, on a node whose cache has no value: it
    loads, finds the generation unchanged, stores and returns. *)
Lemma loadOwner_ends g nd t key bytes st :
  nd_cfg nd = g → node_ok nd → picksSelf nd key → mainNone nd t key →
  (∀ u, t ≤ u ≤ tick (tick t) → nd_source nd u key = LoadOk bytes) →
  expiration g ≤ max_int64 → cache_room (mainCache (nd_group nd)) key (mkByteView bytes) →
  nends (loadOwner g key (epoch (nd_picker nd)) st) (nd, t) (λ w r,
    r = Val (inr (mkByteView bytes)) ∧ ownerEpoch (nd_group w.1) = ownerEpoch (nd_group nd) ∧
    (∀ T, before (deadline g t) (T - 1) → holds w.1 w.2 T key (mkByteView bytes))).
Proof.
  intros <- Hok (Hpok & Hne & Hself & Hep) Hnone Hsrc Hexp Hroom. unfold loadOwner. estep. estep.
  destruct (Hok) as ((Hcl & Hm & Hn) & Hp & Hnear). rewrite cache_Get_result by done.
  pose proof (Hnone (tick t) (tick_le t)) as H0. unfold mainVal in H0. rewrite H0. do 5 estep.
  rewrite Hsrc by (pose proof (tick_le t); pose proof (tick_le (tick t)); lia).
  do 2 estep. rewrite Hp. apply ends_bind. estep. eret. rewrite Hpok, Hself, Hep, Z.eqb_refl. cbn [negb orb].
  estep. apply ends_finally. estep. rewrite decide_False by (intros Hx; by apply Hx). rewrite cloneBytes_id. apply ends_bind.
  set (nd1 := mkNode _ _ _ _). pose proof (tick_le t). pose proof (tick_le (tick t)). pose proof (tick_le (tick (tick t))).
  apply addOwnerValue_ends; [done|done| |done| |].
  { unfold group_wf. simpl. split_and!; [done| |done]. by apply (cacheStep_wf (CGet (tick t) key)). }
  { by apply (cache_step_room (CGet (tick t) key)). }
  intros nd2 t2 Hp2 K2 Ht2 N2 O2 Hh. eret. estep. eret. split_and!; [done|done|]. intros T HT. apply Hh.
  eapply deadline_later; [|exact HT]. lia.
Qed.

(** With a source that answers for the key while the load runs: its value is returned and kept. *)
Lemma getLocal_load_ends g nd t key bytes :
  nd_cfg nd = g → node_ok nd → picksSelf nd key → mainNone nd t key → quiet nd → hasGetter g = true →
  (∀ u, t ≤ u ≤ tick (tick (tick t)) → nd_source nd u key = LoadOk bytes) → expiration g ≤ max_int64 → cache_room (mainCache (nd_group nd)) key (mkByteView bytes) →
  nends (getLocal g key) (nd, t) (λ w r,
    r = Val (inr (mkByteView bytes)) ∧ ownerEpoch (nd_group w.1) = epoch (nd_picker nd) ∧
    (∀ T, before (deadline g t) (T - 1) → holds w.1 w.2 T key (mkByteView bytes))).
Proof.
  intros <- Hok Hself Hnone Hq Hget Hsrc Hexp Hroom. unfold getLocal. estep. destruct (Hok) as ((Hcl & Hm & Hn) & Hp & Hnear). rewrite Hcl.
  apply ends_bind.
  eapply (ends_mono _ _ _ (λ w r, ∃ nd', w = (nd', t) ∧ r = Val (inr (epoch (nd_picker nd))) ∧ keeps nd nd' ∧
    ownerEpoch (nd_group nd') = epoch (nd_picker nd) ∧ (∀ u k, mainVal nd u k = None → mainVal nd' u k = None) ∧ quiet nd')).
  { pose proof (noFlight_quiets (prepareLocalOwner (nd_cfg nd) key) (prepareLocalOwner_noFlight _ _) nd t Hq) as Hq'. unfold ends.
    pose proof (prepareLocalOwner_ends tick (nd_cfg nd) nd t key (λ w r, ∃ nd', w = (nd', t) ∧ r = Val (inr (epoch (nd_picker nd))) ∧ keeps nd nd' ∧
      ownerEpoch (nd_group nd') = epoch (nd_picker nd) ∧ (∀ u k, mainVal nd u k = None → mainVal nd' u k = None)) eq_refl Hok Hself) as Hprep.
    unfold ends in Hprep. destruct (interp _ _ (nd, t)) as [w r]. destruct Hprep as (nd' & -> & -> & K & O & M).
    { intros nd' _ K _ O _ M. by exists nd'. }
    exists nd'. by split_and!. }
  intros w r (nd1 & -> & -> & K1 & O1 & M1 & Hq1). estep. apply ends_finally. estep.
  destruct (acquire_fields key (nd_group nd1)) as (Ec & Em & En & Eo & El).
  set (st := (acquireKeyState key (nd_group nd1)).2). set (g1 := (acquireKeyState key (nd_group nd1)).1) in *.
  destruct (kp_wf _ _ K1 (proj1 Hok)) as (Hcl1 & Hm1 & Hn1).
  assert (∀ u, t ≤ u → mainVal nd1 u key = None) as Hnone1 by (intros u Hu; by apply M1, Hnone).
  rewrite Em, cache_Get_result by done. pose proof (Hnone1 (tick t) (tick_le t)) as H0. unfold mainVal in H0. rewrite H0. estep.
  rewrite Hget. cbn [negb]. apply ends_bind. unfold flightDo. apply ends_event. cbn [handleNode fst snd nd_group].
  cbn [addStat with_main loader]. unfold quiet in Hq1. rewrite El, Hq1, lookup_empty. cbn [fst snd]. apply ends_bind, ends_catch.
  set (nd2 := mkNode _ _ _ _).
  assert (keeps nd1 nd2) as K2.
  { apply (keeps_group nd1 (nd_group nd2)); simpl; [done|left; exists (CGet (tick t) key); split; [done|by rewrite <-Em]|by right]. }
  assert (keeps nd nd2) as K by (by etrans).
  eapply ends_mono; [rewrite <-(kp_picker _ _ K); apply (loadOwner_ends (nd_cfg nd) nd2 (tick t) key bytes st)|].
  - apply K.
  - by eapply keeps_ok.
  - unfold picksSelf. by rewrite (kp_picker _ _ K).
  - intros u Hu. unfold mainVal. simpl. rewrite cache_Get_frame by done. apply Hnone1. pose proof (tick_le t). lia.
  - intros u Hu. rewrite (kp_source _ _ K). apply Hsrc. pose proof (tick_le t). lia.
  - done.
  - by apply (kp_room _ _ K (proj1 Hok)).
  - intros [nd3 t3] r (-> & O3 & Hh). estep. eret. eret. estep. eret. cbn [fst snd] in *. split_and!; [done| |].
    + simpl. rewrite O3. simpl. by rewrite Eo.
    + intros T HT. intros u Hu. unfold mainVal. simpl. apply (Hh T); [|done].
      eapply deadline_later; [apply tick_le|done].
Qed.
End facts.
#[export] Hint Resolve prepareLocalOwner_noFlight addOwnerValue_noFlight invalidateNearKey_noFlight setLocal_noFlight deleteLocal_noFlight deleteOwnerLocal_noFlight invalidateLocalCopies_noFlight : locache.
