(* ===== verification/Cluster.v ===== *)
(** * A cluster of nodes (group.go, client.go, server.go, peers.go)

    Every node holds a group of the same name.  An operation of one node runs
    to its end before the next one starts; its peer calls run the handler of
    the addressed node on that node's state, and their messages pass the limits
    of the two ends, the transport and the client. *)

From S2P Require Import Prelude Store ByteView Errors Cache CacheFacts Peers Singleflight Prog Group Rpc Node.

Section cluster.
Context {S : Type} `{Store S ByteView} `{Grpc} (tick : Z → Z).

(** The [MaxMsgSize] of the server at an address. *)
Context (limits : string → Z).

(** The world as the operating node sees it. *)
Record world := mkWorld { here : node S; others : gmap string (node S); clock : Z }.

(** [GetGroup(name)] on a node that has one group. *)
Definition GetGroup (nd : node S) (group : string) : option config :=
  if decide (name (nd_cfg nd) = group) then Some (nd_cfg nd) else None.

(** The stub's answer for the way a handler ended.  A handler that panics takes
    its process down, so the call fails. *)
Definition answer {A} (r : result (error + A)) : error + A :=
  match r with
  | Val (inl err) => inl (transport err)
  | Val (inr x) => inr x
  | Boom _ => inl unreachable
  end.

(** Send a request to the node at [addr].  A request that does not pass is not
    handled; a response that does not pass is lost after the handler has run. *)
Definition call {A} (addr : string) (handler : option config → Request → gprog (error + A)) (respSize : A → Z)
    (req : Request) (nodes : gmap string (node S)) (t : Z) : gmap string (node S) * Z * (error + A) :=
  match nodes !! addr with
  | None => (nodes, t, inl unreachable)
  | Some nd =>
      match requestError (limits addr) req with
      | Some err => (nodes, t, inl err)
      | None =>
          let '((nd', t'), r) := interp (handleNode tick) (handler (GetGroup nd (rq_group req)) req) (nd, t) in
          (<[addr := nd']> nodes, t',
           match answer r with
           | inr x => match responseError (limits addr) (respSize x) with Some err => inl err | None => inr x end
           | inl err => inl err
           end)
      end
  end.

(** The calls of [ClientPicker.Invalidate], one peer after the other; the
    answers are collected by address. *)
Definition invalidateOne (group key : string) (st : gmap string (node S) * Z * gmap string error)
    (target : string * Client) : gmap string (node S) * Z * gmap string error :=
  let '(nodes, t, errs) := st in
  let '(addr, c) := target in
  let req := mkRequest group key [] true in
  let '(nodes', t', r) := call (cl_addr c) Server_Delete deleteResponseSize req nodes t in
  (nodes', t', match Client_Invalidate c r with Some err => <[addr := err]> errs | None => errs end).

Definition local (e : ev) (w : world) : world * ans e :=
  let '((nd, t), x) := handleNode tick e (here w, clock w) in (mkWorld nd (others w) t, x).

Definition handleCluster (e : ev) (w : world) : world * ans e :=
  match e with
  | EvPeerGet c group key =>
      let '(nodes, t, r) := call (cl_addr c) Server_Get getResponseSize (mkRequest group key [] false) (others w) (clock w) in
      (mkWorld (here w) nodes t, Client_Get c r)
  | EvPeerSet c group key value =>
      let '(nodes, t, r) := call (cl_addr c) Server_Set getResponseSize (mkRequest group key value false) (others w) (clock w) in
      (mkWorld (here w) nodes t, Client_Set c r)
  | EvPeerDelete c group key =>
      let '(nodes, t, r) := call (cl_addr c) Server_Delete deleteResponseSize (mkRequest group key [] false) (others w) (clock w) in
      (mkWorld (here w) nodes t, Client_Delete c r)
  | EvInvalidate group key owner =>
      let targets := map_to_list (invalidateTargets owner (nd_picker (here w))) in
      let '(nodes, t, errs) := foldl (invalidateOne group key) (others w, clock w, ∅) targets in
      (mkWorld (here w) nodes t, Invalidate (λ addr, errs !! addr) targets.*1 owner (nd_picker (here w)))
  | e => local e w
  end.

(** ** Operations on the cluster *)

Record cluster := mkCluster { nodes : gmap string (node S); now : Z }.

(** Run a method of the group at the node [a]. *)
Definition runAt {A} (a : string) (p : config → gprog A) (cl : cluster) : option (cluster * result A) :=
  nd ← nodes cl !! a;
  let '(w, r) := interp handleCluster (p (nd_cfg nd)) (mkWorld nd (delete a (nodes cl)) (now cl)) in
  Some (mkCluster (<[a := here w]> (others w)) (clock w), r).
End cluster.
Arguments world S : clear implicits.
Arguments cluster S : clear implicits.
