(* ===== verification/ClusterFacts.v ===== *)
(** * Reads see acknowledged writes, on every node

    In a cluster whose nodes agree on the membership and can reach each other,
    a value written through any node is what every node reads until it
    expires, with and without near caches. *)

From S2P Require Import Prelude Hashes Store ByteView Errors Cache CacheFacts ConsistentHash RingFacts Peers PeersFacts Singleflight Prog Group Rpc GroupFacts Node NodeFacts Cluster.

Section facts.
Context {S : Type} {HS : Store S ByteView} {HM : StoreModel S ByteView} {HL : StoreLaws S ByteView}
  {HG : Grpc} (tick : Z → Z) (limits : string → Z) (tick_le : ∀ t, t ≤ tick t).
Implicit Types (nd : node S) (w : world S) (N : gmap string (node S)) (t u T : Z) (key : string) (v : ByteView).
Notation cends := (ends (handleCluster tick limits)).

(** ** Lifting the node's own steps *)

Lemma ends_local {A} (p : gprog A) w (Q : world S → result A → Prop) :
  every isLocal p →
  ends (handleNode tick) p (here w, clock w) (λ nt r, Q (mkWorld nt.1 (others w) nt.2) r) →
  cends p w Q.
Proof.
  unfold ends. revert w. induction p as [a|x|e k IH]; intros [nd o t] Hev; cbn [interp]; [done|done|].
  destruct Hev as [He Hk].
  assert (handleCluster tick limits e (mkWorld nd o t) = local tick e (mkWorld nd o t)) as -> by (by destruct e).
  unfold local. cbn [here others clock]. destruct (handleNode tick e (nd, t)) as [[nd1 t1] x].
  apply (IH x (mkWorld nd1 o t1)), Hk.
Qed.

(** ** Routing in a connected cluster *)

Record connected (R : Z) (G : string) N : Prop := {
  cn_node : ∀ n nd, N !! n = Some nd →
    node_ok nd ∧ picker_wf (nd_picker nd) ∧ selfAddr (nd_picker nd) = n ∧ members (nd_picker nd) = dom N ∧
    hashReplicas (nd_picker nd) = R ∧ name (nd_cfg nd) = G ∧ expiration (nd_cfg nd) ≤ max_int64;
  cn_clients : ∀ n m nd, N !! n = Some nd → m ∈ dom N → m ≠ n → is_Some (clients (nd_picker nd) !! m)
}.

(** What the picker of node [n] says when [o] owns the key. *)
Definition routesTo (n o key : string) nd : Prop :=
  let r := PickOwner key (nd_picker nd) in
  pk_ok r = true ∧ pk_owner r = o ∧ o ≠ "" ∧ pk_epoch r = epoch (nd_picker nd) ∧ pk_self r = bool_decide (n = o) ∧
  (n ≠ o → ∃ c, pk_peer r = PeerClient (Some c) ∧ cl_addr c = o).

Lemma connected_routes R G N key :
  connected R G N → N ≠ ∅ → key ≠ "" →
  ∃ o, o ∈ dom N ∧ ∀ n nd, N !! n = Some nd → routesTo n o key nd.
Proof.
  intros Hcn Hne Hk. destruct (map_choose N Hne) as (n0 & nd0 & H0).
  destruct (cn_node R G N Hcn n0 nd0 H0) as (_ & W0 & _ & M0 & R0 & _).
  exists (ConsistentHash.Get key (ring (nd_picker nd0))). destruct (PickOwner_spec _ key W0 Hk) as (_ & Ho0 & Hin0 & _).
  split; [by rewrite <-M0, <-Ho0|]. intros n nd Hn.
  destruct (cn_node R G N Hcn n nd Hn) as (_ & W & Hself & M & Rr & _).
  assert (ring (nd_picker nd) = ring (nd_picker nd0)) as Hring by (apply picker_ring_determined; congruence).
  destruct (PickOwner_spec _ key W Hk) as (Hok & Ho & Hin & Hne' & Hep & Hs & Hp). rewrite Hring in Ho.
  unfold routesTo. split_and!; [done|done|by rewrite <-Ho|done| |].
  - rewrite Hs, Hself. apply bool_decide_ext. rewrite Ho. naive_solver.
  - intros Hno. rewrite Hp, Hs, bool_decide_eq_false_2 by congruence.
    destruct (cn_clients R G N Hcn n (pk_owner (PickOwner key (nd_picker nd))) nd Hn) as [c Hc]; [congruence..|].
    exists c. rewrite Hc. split; [done|]. rewrite <-Ho. by eapply pwf_addrs.
Qed.

(** A node that is changed as [keeps] allows routes as before. *)
Lemma keeps_connected R G N n nd nd' :
  connected R G N → N !! n = Some nd → keeps nd nd' → connected R G (<[n := nd']> N).
Proof.
  intros Hcn Hn K. destruct (K) as [Kc Kp _ _ _ _].
  assert (dom (<[n := nd']> N) = dom N) as Hdom by (apply dom_insert_lookup_L; eauto).
  split.
  - intros m x Hx. rewrite Hdom. destruct (decide (m = n)) as [->|]; simplify_map_eq; [|by eapply cn_node].
    rewrite Kc, Kp. destruct (cn_node R G N Hcn n nd Hn) as (Hok & ?). split; [by eapply keeps_ok|done].
  - intros m k x Hx. rewrite Hdom. destruct (decide (m = n)) as [->|]; simplify_map_eq; [|by eapply cn_clients].
    rewrite Kp. by eapply cn_clients.
Qed.

Lemma keeps_routes n o key nd nd' : keeps nd nd' → routesTo n o key nd → routesTo n o key nd'.
Proof. intros [_ Kp _ _ _ _]. unfold routesTo. by rewrite Kp. Qed.

(** ** Coherence *)

(** A near copy of the key is absent or the value [v] from [t] on. *)
Definition nearOk t key v nd : Prop := ∀ u, t ≤ u → nearVal nd u key = None ∨ nearVal nd u key = Some v.

(** The owner holds [v] until [T] under its current epoch. *)
Definition ownerOk t T key v nd : Prop :=
  holds nd t T key v ∧ (ownerEpoch (nd_group nd) = 0 ∨ ownerEpoch (nd_group nd) = epoch (nd_picker nd)).

Definition coherent (o : string) t T key v N : Prop :=
  ∀ n nd, N !! n = Some nd → if decide (n = o) then ownerOk t T key v nd else nearOk t key v nd.

Lemma nearOk_later t t' key v nd : t ≤ t' → nearOk t key v nd → nearOk t' key v nd.
Proof. intros Hle Hn u Hu. apply Hn. lia. Qed.
Lemma ownerOk_later t t' T key v nd : t ≤ t' → ownerOk t T key v nd → ownerOk t' T key v nd.
Proof. intros Hle [Hh He]. split; [|done]. intros u Hu. apply Hh. lia. Qed.
Lemma coherent_later o t t' T key v N : t ≤ t' → coherent o t T key v N → coherent o t' T key v N.
Proof.
  intros Hle Hc n nd Hn. specialize (Hc n nd Hn). case_decide; [by eapply ownerOk_later|by eapply nearOk_later].
Qed.
Lemma coherent_insert o t T key v N n nd :
  coherent o t T key v N → (if decide (n = o) then ownerOk t T key v nd else nearOk t key v nd) →
  coherent o t T key v (<[n := nd]> N).
Proof. intros Hc Hn m x Hx. destruct (decide (m = n)) as [->|]; simplify_map_eq; [done|by apply Hc]. Qed.

(** ** The handlers *)

Lemma routesTo_self o key nd : routesTo o o key nd → picksSelf nd key.
Proof.
  intros (Hok & Ho & Hne & Hep & Hs & _). unfold picksSelf. rewrite Ho, Hs. by rewrite bool_decide_eq_true_2.
Qed.

Lemma GetGroup_same nd G : name (nd_cfg nd) = G → GetGroup nd G = Some (nd_cfg nd).
Proof. intros <-. unfold GetGroup. by rewrite decide_True. Qed.

Lemma serve_get N c nd t T G key v :
  N !! cl_addr c = Some nd → name (nd_cfg nd) = G → node_ok nd → routesTo (cl_addr c) (cl_addr c) key nd →
  ownerOk t T key v nd → tick t < T →
  requestError (limits (cl_addr c)) (mkRequest G key [] false) = None → responseError (limits (cl_addr c)) (getResponseSize (b v)) = None →
  ∃ nd', call tick limits (cl_addr c) Server_Get getResponseSize (mkRequest G key [] false) N t =
           (<[cl_addr c := nd']> N, tick t, inr (b v)) ∧
         keeps nd nd' ∧ ownerOk (tick t) T key v nd'.
Proof.
  intros Hn Hg Hok Hr [Hh Ho] HT Hreq Hresp. unfold call. rewrite Hn, Hreq. cbn [rq_group]. rewrite (GetGroup_same nd G Hg). cbn [Server_Get rq_key].
  pose proof (getLocal_hit_ends tick (nd_cfg nd) nd t key v eq_refl Hok (routesTo_self _ _ _ Hr) Ho) as Hget.
  pose proof (ends_keeps tick tick_le _ _ _ _ (Hget (Hh (tick t) (conj (tick_le t) HT)))) as Hends. clear Hget.
  unfold ends in Hends. rewrite interp_bind.
  destruct (interp (handleNode tick) (getLocal (nd_cfg nd) key) (nd, t)) as [[nd1 t1] r].
  destruct Hends as ((-> & Ht & Ho' & Hm) & K & _). cbn [fst snd] in *. subst t1. simpl.
  exists nd1. unfold ByteSlice. rewrite cloneBytes_id, Hresp. split_and!; [done|done|]. split.
  - intros u Hu. rewrite Hm by lia. apply Hh. pose proof (tick_le t). lia.
  - right. by rewrite Ho', (kp_picker _ _ K).
Qed.

Lemma serve_set N c nd t G key value :
  N !! cl_addr c = Some nd → name (nd_cfg nd) = G → node_ok nd → routesTo (cl_addr c) (cl_addr c) key nd →
  expiration (nd_cfg nd) ≤ max_int64 → cache_room (mainCache (nd_group nd)) key (mkByteView value) →
  requestError (limits (cl_addr c)) (mkRequest G key value false) = None → responseError (limits (cl_addr c)) (getResponseSize value) = None →
  ∃ nd' t', call tick limits (cl_addr c) Server_Set getResponseSize (mkRequest G key value false) N t =
              (<[cl_addr c := nd']> N, t', inr value) ∧
            keeps nd nd' ∧ t ≤ t' ∧
            (∀ T, before (deadline (nd_cfg nd) t) (T - 1) → ownerOk t' T key (mkByteView value) nd').
Proof.
  intros Hn Hg Hok Hr Hexp Hroom Hreq Hresp. unfold call. rewrite Hn, Hreq. cbn [rq_group]. rewrite (GetGroup_same nd G Hg). cbn [Server_Set rq_key rq_value].
  pose proof (setLocal_ends tick tick_le (nd_cfg nd) nd t key value eq_refl Hok (routesTo_self _ _ _ Hr) Hexp Hroom) as Hset.
  pose proof (ends_keeps tick tick_le _ _ _ _ Hset) as Hends. clear Hset. unfold ends in Hends. rewrite interp_bind.
  destruct (interp (handleNode tick) (setLocal (nd_cfg nd) key value) (nd, t)) as [[nd1 t1] r].
  destruct Hends as ((-> & Ho' & Hh) & K & Ht). cbn [fst snd] in *. simpl. rewrite Hresp.
  exists nd1, t1. split_and!; [done|done|done|]. intros T HT. split; [by apply Hh|].
  right. by rewrite Ho', (kp_picker _ _ K).
Qed.

Lemma serve_invalidate N c nd t G key :
  N !! cl_addr c = Some nd → name (nd_cfg nd) = G → node_ok nd →
  requestError (limits (cl_addr c)) (mkRequest G key [] true) = None →
  ∃ nd' t' r, call tick limits (cl_addr c) Server_Delete deleteResponseSize (mkRequest G key [] true) N t =
                (<[cl_addr c := nd']> N, t', r) ∧
              keeps nd nd' ∧ t ≤ t' ∧ (∀ u, nearVal nd' u key = None).
Proof.
  intros Hn Hg Hok Hreq. unfold call. rewrite Hn, Hreq. cbn [rq_group]. rewrite (GetGroup_same nd G Hg). cbn [Server_Delete rq_key rq_invalidate].
  pose proof (ends_keeps tick tick_le _ _ _ _ (deleteLocal_ends tick (nd_cfg nd) nd t key eq_refl Hok)) as Hends.
  unfold ends in Hends. rewrite interp_bind.
  destruct (interp (handleNode tick) (deleteLocal (nd_cfg nd) key) (nd, t)) as [[nd1 t1] r].
  destruct Hends as (([x ->] & _ & Hnear & _) & K & Ht). cbn [fst snd] in *. simpl. destruct (responseError _ _) as [err|]; by eexists nd1, t1, _.
Qed.

(** ** Near copies *)

Lemma cache_AddExp_near t1 t2 t3 u k v exp (c : option (Cache S)) :
  cache_wf c → cache_lookup u k c = None ∨ cache_lookup u k c = Some v →
  cache_lookup u k (AddWithExpiration t1 t2 t3 k v exp c) = None ∨
  cache_lookup u k (AddWithExpiration t1 t2 t3 k v exp c) = Some v.
Proof.
  destruct c as [c|]; [|done]. simpl. intros Hwf Hl. destruct (c_closed c) eqn:Hc; simpl; rewrite ?Hc; [by left|].
  case_match; simpl; rewrite ?Hc; [done|].
  destruct (st_lookup u k (st_SetWithExpiration t2 t3 k (Some v) (time_Sub exp t1) (store c))) as [x|] eqn:Hx; [|by left].
  right. f_equal. by eapply st_SetExp_only.
Qed.

(** ** The cluster around an operation of node [a] *)

Definition around (a : string) w : gmap string (node S) := <[a := here w]> (others w).

(** The operating node and its peers are connected, agree on the owner [o] of
    the key, and the key is coherent. *)
Record settled (R : Z) (G a o key : string) w : Prop := {
  se_fresh : others w !! a = None;
  se_conn : connected R G (around a w);
  se_owner : o ∈ dom (around a w);
  se_routes : ∀ n nd, around a w !! n = Some nd → routesTo n o key nd;
  se_request : ∀ n, n ∈ dom (around a w) → requestError (limits n) (mkRequest G key [] false) = None
}.

Lemma settled_here R G a o key w nd t :
  settled R G a o key w → keeps (here w) nd → settled R G a o key (mkWorld nd (others w) t).
Proof.
  intros [Hf Hc Ho Hr Hq] K. unfold around in *. simpl in *.
  assert (<[a := nd]> (others w) = <[a := nd]> (<[a := here w]> (others w))) as Heq by (by rewrite insert_insert_eq).
  split; unfold around; simpl; [done| | | |].
  - rewrite Heq. eapply keeps_connected; [done| |done]. apply lookup_insert_eq.
  - rewrite Heq, dom_insert_lookup_L by (rewrite lookup_insert_eq; eauto). done.
  - intros n x Hx. destruct (decide (n = a)) as [->|]; simplify_map_eq; [|apply Hr; by simplify_map_eq].
    eapply keeps_routes; [done|]. apply Hr. apply lookup_insert_eq.
  - rewrite Heq, dom_insert_lookup_L by (rewrite lookup_insert_eq; eauto). done.
Qed.

Lemma settled_other R G a o key w m nd nd' t :
  settled R G a o key w → others w !! m = Some nd → keeps nd nd' →
  settled R G a o key (mkWorld (here w) (<[m := nd']> (others w)) t).
Proof.
  intros [Hf Hc Ho Hr Hq] Hm K. assert (m ≠ a) as Hne by (intros ->; congruence). unfold around in *. simpl in *.
  assert (<[a := here w]> (<[m := nd']> (others w)) = <[m := nd']> (<[a := here w]> (others w))) as Heq by (by apply insert_insert_ne).
  assert (<[a := here w]> (others w) !! m = Some nd) as Hm' by (by rewrite lookup_insert_ne).
  split; unfold around; simpl; [by rewrite lookup_insert_ne| | | |].
  - rewrite Heq. by eapply keeps_connected.
  - rewrite Heq, dom_insert_lookup_L by eauto. done.
  - rewrite Heq. intros n x Hx. destruct (decide (n = m)) as [->|]; simplify_map_eq; [|by apply Hr].
    eapply keeps_routes; [done|]. apply Hr. by rewrite lookup_insert_ne.
  - rewrite Heq, dom_insert_lookup_L by eauto. done.
Qed.

Lemma settled_node R G a o key w n nd :
  settled R G a o key w → around a w !! n = Some nd →
  node_ok nd ∧ routesTo n o key nd ∧ name (nd_cfg nd) = G ∧ expiration (nd_cfg nd) ≤ max_int64.
Proof.
  intros [Hf Hc Ho Hr _] Hn. destruct (cn_node _ _ _ Hc n nd Hn) as (? & _ & _ & _ & _ & ? & ?). eauto 6.
Qed.

Lemma settled_owner_other R G a o key w :
  settled R G a o key w → a ≠ o → ∃ nd, others w !! o = Some nd ∧ around a w !! o = Some nd.
Proof.
  intros [Hf Hc Ho Hr _] Hne. unfold around in *. apply elem_of_dom in Ho as [nd Hnd]. exists nd. split; [|done].
  by rewrite lookup_insert_ne in Hnd.
Qed.

(** Updates of the operating node and of the owner keep the key coherent. *)
Lemma coherent_here o t t' T key v a w nd t2 :
  coherent o t T key v (around a w) → t ≤ t' →
  (if decide (a = o) then ownerOk t' T key v nd else nearOk t' key v nd) →
  coherent o t' T key v (around a (mkWorld nd (others w) t2)).
Proof.
  intros Hc Hle Hnd. unfold around in *. simpl.
  assert (<[a := nd]> (others w) = <[a := nd]> (<[a := here w]> (others w))) as -> by (by rewrite insert_insert_eq).
  apply coherent_insert; [by eapply coherent_later|done].
Qed.
Lemma coherent_owner o t t' T key v a w nd t2 :
  a ≠ o → coherent o t T key v (around a w) → t ≤ t' → ownerOk t' T key v nd →
  coherent o t' T key v (around a (mkWorld (here w) (<[o := nd]> (others w)) t2)).
Proof.
  intros Hne Hc Hle Hnd. unfold around in *. simpl. rewrite insert_insert_ne by done.
  apply coherent_insert; [by eapply coherent_later|]. by rewrite decide_True.
Qed.

(** ** Get *)

Ltac cstep := apply ends_event; cbn [handleCluster local handleNode fst snd here others clock nd_cfg nd_group nd_picker nd_source].
Ltac cret := apply ends_ret; cbn [fst snd].

Lemma iter_le k t : t ≤ Nat.iter k tick t.
Proof. induction k as [|k IH]; simpl; [lia|]. etrans; [exact IH|apply tick_le]. Qed.

Lemma iter_tick k t : Nat.iter k tick (tick t) = Nat.iter (Datatypes.S k) tick t.
Proof. by rewrite Nat.iter_succ_r. Qed.

(** The lookup in the near cache finds nothing or the value. *)
Lemma nearLookup_ends R G a o w T key v (Q : world S → result (option ByteView) → Prop) :
  settled R G a o key w → a ≠ o → coherent o (clock w) T key v (around a w) →
  (∀ w' r, settled R G a o key w' → coherent o (clock w') T key v (around a w') →
     nd_cfg (here w') = nd_cfg (here w) → nd_picker (here w') = nd_picker (here w) →
     clock w' = clock w ∨ clock w' = tick (clock w) → r = None ∨ r = Some v → Q w' (Val r)) →
  cends (nearLookup (nd_cfg (here w)) key (PickOwner key (nd_picker (here w)))) w Q.
Proof.
  intros Hse Hne Hco HQ. unfold nearLookup. destruct (hasNear (nd_cfg (here w))); cbn [negb]; [|cret; apply HQ; auto].
  assert (around a w !! a = Some (here w)) as Ha by apply lookup_insert_eq.
  destruct (settled_node _ _ _ _ _ _ _ _ Hse Ha) as (Hok & (Hpok & Hown & _ & Hep & _ & _) & _).
  destruct Hok as ((Hcl & Hm & Hn) & _). pose proof (Hco a (here w) Ha) as Hnear. rewrite decide_False in Hnear by done.
  cstep. rewrite Hep. set (nk := nearKey (epoch (nd_picker (here w))) key).
  set (nd1 := mkNode _ _ _ _).
  assert (keeps (here w) nd1) as K1.
  { apply keeps_group; simpl; [done|by right|left; by exists (CGet (tick (clock w)) nk)]. }
  assert (∀ f n, nearOk (tick (clock w)) key v (on_group (addStat f n) nd1) ∧ nearOk (tick (clock w)) key v nd1) as Hok1.
  { intros f n. split; intros u Hu; unfold nearVal; simpl; rewrite cache_Get_frame by done; apply Hnear;
      (etrans; [apply tick_le|done]). }
  rewrite cache_Get_result by done. pose proof (Hnear (tick (clock w)) (tick_le _)) as Hv. fold nk in Hv.
  assert (∀ f n x, x = None ∨ x = Some v → Q (mkWorld (on_group (addStat f n) nd1) (others w) (tick (clock w))) (Val x)) as HQ'.
  { intros f n x Hx. apply HQ; try done; [| |by right].
    - apply settled_here; [done|]. etrans; [exact K1|]. apply keeps_group; [done|by right..].
    - eapply coherent_here; [done|apply tick_le|]. rewrite decide_False by done. exact (proj1 (Hok1 f n)). }
  destruct (cache_lookup (tick (clock w)) nk (nearCache (nd_group (here w)))) as [x|] eqn:Hx.
  - assert (x = v) as -> by (destruct Hv as [Hv|Hv]; unfold nearVal in Hv; fold nk in Hv; congruence).
    cstep. change (nd_picker nd1) with (nd_picker (here w)). unfold samePick. rewrite Hpok, String.eqb_refl, Z.eqb_refl. cbn [andb]. cstep. cret. apply (HQ' nearHits 1). by right.
  - cstep. cret. apply (HQ' nearMisses 1). by left.
Qed.

(** The state in which an operation leaves the cluster. *)
Definition after (R : Z) (G a o key : string) T v w w' : Prop :=
  settled R G a o key w' ∧ coherent o (clock w') T key v (around a w') ∧
  nd_cfg (here w') = nd_cfg (here w) ∧ nd_picker (here w') = nd_picker (here w).

(** Filling the near cache with the value keeps the key coherent. *)
Lemma nearFill_ends R G a o w T key v ttl :
  settled R G a o key w → a ≠ o → coherent o (clock w) T key v (around a w) →
  cends (bind (do EvNow) (λ now, do (EvNearAddExp (nearKey (epoch (nd_picker (here w))) key) v (time_Add now ttl)))) w
    (λ w' r, r = Val tt ∧ after R G a o key T v w w').
Proof.
  intros Hse Hne Hco. assert (around a w !! a = Some (here w)) as Ha by apply lookup_insert_eq.
  destruct (settled_node _ _ _ _ _ _ _ _ Hse Ha) as (((_ & _ & Hn) & _) & _).
  pose proof (Hco a (here w) Ha) as Hnear. rewrite decide_False in Hnear by done.
  pose proof (iter_le 4 (clock w)) as Hit. simpl in Hit.
  cstep. unfold ends. cbn [event interp]. cbn [handleCluster local handleNode fst snd here others clock].
  split; [done|]. split_and!; [| |done|done].
  - eapply (settled_here _ _ _ _ _ w); [done|]. apply keeps_group; simpl; [done|by right|left].
    by eexists (CAddWithExpiration _ _ _ _ _ _).
  - eapply (coherent_here _ (clock w) _ _ _ _ _ w); [done|done|]. rewrite decide_False by done.
    intros u Hu. unfold nearVal. simpl in Hu |- *. apply cache_AddExp_near; [done|]. apply Hnear. lia.
Qed.

Lemma getTurn_self R G a w T key v last tk :
  settled R G a a key w → coherent a (clock w) T key v (around a w) → tick (clock w) < T →
  cends (getTurn (nd_cfg (here w)) last tk key) w (λ w' r,
    r = Val (Some (inr v)) ∧ after R G a a key T v w w').
Proof.
  intros Hse Hco HT. assert (around a w !! a = Some (here w)) as Ha by apply lookup_insert_eq.
  destruct (settled_node _ _ _ _ _ _ _ _ Hse Ha) as (Hok & Hr & _). pose proof (Hco a (here w) Ha) as Hown.
  rewrite decide_True in Hown by done. destruct Hown as [Hh Hoe]. pose proof (routesTo_self _ _ _ Hr) as Hself.
  unfold getTurn. cstep. destruct Hr as (Hpok & Ho & Hne & Hep & Hs & _).
  rewrite Hpok, Ho, (proj2 (String.eqb_neq _ _) Hne), Hs, bool_decide_eq_true_2 by done. cbn [negb orb].
  apply ends_bind, ends_local; [apply getLocal_local|].
  eapply ends_mono; [apply ends_keeps; [done|]; apply getLocal_hit_ends; [done|done|done|exact Hoe|]|].
  { apply Hh. split; [apply tick_le|done]. }
  intros [nd1 t1] r ((-> & Ht & Ho1 & Hm) & K & _). cbn [fst snd] in *. subst t1. cret. split; [done|].
  split_and!; [by apply (settled_here _ _ _ _ _ w)| |by apply kp_cfg|by apply kp_picker].
  eapply (coherent_here _ _ _ _ _ _ _ w); [done|apply tick_le|]. rewrite decide_True by done. split.
  - intros u Hu. rewrite Hm by apply Hu. apply Hh. pose proof (tick_le (clock w)). simpl in Hu. lia.
  - right. by rewrite Ho1, (kp_picker _ _ K).
Qed.

(** The end of a remote read: the owner has answered [bytes], the pick is
    confirmed and the near cache filled. *)
Lemma getFill_ends R G a o w T key v :
  settled R G a o key w → a ≠ o → coherent o (clock w) T key v (around a w) →
  let g := nd_cfg (here w) in
  let r := PickOwner key (nd_picker (here w)) in
  cends (r' <- do (EvPickOwner key) ;;
         if negb (samePick r r') || pk_self r' then Ret None
         else
           do (EvStat peerHits 1) ;;;
           let view := mkByteView (cloneBytes (b v)) in
           (if hasNear g
            then now <- do EvNow ;; do (EvNearAddExp (nearKey (pk_epoch r) key) view (time_Add now (nearTTL g)))
            else Ret tt) ;;;
           Ret (Some (inr view)))%prog w
    (λ w' r, r = Val (Some (inr v : error + ByteView)) ∧ after R G a o key T v w w').
Proof.
  intros Hse Hne Hco g r. assert (around a w !! a = Some (here w)) as Ha by apply lookup_insert_eq.
  destruct (settled_node _ _ _ _ _ _ _ _ Hse Ha) as (_ & (Hpok & Ho & Hoe & Hep & Hs & _) & _). fold r in Hpok, Ho, Hep, Hs.
  cstep. fold r. unfold samePick.
  rewrite Hpok, String.eqb_refl, Z.eqb_refl, Hs, bool_decide_eq_false_2 by done. cbn [andb negb orb].
  cstep. pose proof (Hco a (here w) Ha) as Hnear. rewrite decide_False in Hnear by done.
  set (nd3 := mkNode _ (addStat peerHits 1 _) _ _).
  assert (keeps (here w) nd3) as K3 by (apply keeps_group; [done|by right..]).
  set (w3 := mkWorld nd3 (others w) (clock w)).
  assert (settled R G a o key w3) as Hse3 by (by eapply (settled_here _ _ _ _ _ w)).
  assert (coherent o (clock w3) T key v (around a w3)) as Hco3
    by (eapply (coherent_here _ _ _ _ _ _ _ w); [done|reflexivity|]; by rewrite decide_False).
  rewrite cloneBytes_id. apply ends_bind. destruct v as [bs]. subst g. destruct (hasNear (nd_cfg (here w))).
  2:{ cret. cret. split; [done|]. by split_and!. }
  rewrite Hep. change (nd_picker (here w)) with (nd_picker (here w3)).
  eapply ends_mono; [by apply (nearFill_ends R G a o w3 T)|]. intros w4 x (-> & Hse4 & Hco4 & Hc4 & Hp4). cret.
  split; [done|]. by split_and!.
Qed.

Lemma getTurn_remote R G a o w T key v last tk :
  settled R G a o key w → a ≠ o → coherent o (clock w) T key v (around a w) → tick (tick (clock w)) < T →
  responseError (limits o) (getResponseSize (b v)) = None →
  cends (getTurn (nd_cfg (here w)) last tk key) w (λ w' r,
    r = Val (Some (inr v)) ∧ after R G a o key T v w w').
Proof.
  intros Hse Hne Hco HT Hresp. assert (around a w !! a = Some (here w)) as Ha by apply lookup_insert_eq.
  destruct (settled_node _ _ _ _ _ _ _ _ Hse Ha) as (Hok & Hr & Hname & _).
  unfold getTurn. cstep. destruct Hr as (Hpok & Ho & Hoe & Hep & Hs & Hpeer).
  destruct (Hpeer Hne) as (c & Hc & Hca).
  rewrite Hpok, Ho, (proj2 (String.eqb_neq _ _) Hoe), Hs, bool_decide_eq_false_2 by done. cbn [negb orb].
  rewrite Hc. apply ends_bind. destruct w as [nd ot t]. cbn [here clock others] in *.
  eapply (nearLookup_ends R G a o (mkWorld nd ot t) T key v); [done..|]. cbn [here clock others].
  intros w1 x Hse1 Hco1 Hcfg Hpick Ht1 [->| ->].
  2:{ cret. by split_and!. }
  cbn [peerGet]. destruct (settled_owner_other _ _ _ _ _ _ Hse1 Hne) as (ndo & Hndo & Haro).
  destruct (settled_node _ _ _ _ _ _ _ _ Hse1 Haro) as (Hoko & Hro & Hnameo & _).
  pose proof (Hco1 o ndo Haro) as Hown. rewrite decide_True in Hown by done. destruct Hca.
  destruct (serve_get (others w1) c ndo (clock w1) T G key v Hndo Hnameo Hoko Hro Hown) as (ndo' & Hcall & Ko & Howno).
  { destruct Ht1 as [-> | ->]; [|done]. pose proof (tick_le (tick t)). lia. }
  { apply (se_request _ _ _ _ _ _ Hse1). by eapply elem_of_dom_2. }
  { done. }
  cstep. rewrite Hname, Hcall. cbn [Client_Get fst snd].
  set (w2 := mkWorld (here w1) (<[cl_addr c := ndo']> (others w1)) (tick (clock w1))).
  assert (settled R G a (cl_addr c) key w2) as Hse2 by (by eapply settled_other).
  assert (coherent (cl_addr c) (clock w2) T key v (around a w2)) as Hco2
    by (eapply coherent_owner; [done|done|apply tick_le|done]).
  rewrite <-Hpick, <-Hcfg. eapply ends_mono; [by apply (getFill_ends R G a (cl_addr c) w2 T)|].
  intros w4 r (-> & Hse4 & Hco4 & Hc4 & Hp4). split; [done|]. split_and!; [done|done|by rewrite Hc4|by rewrite Hp4].
Qed.

Lemma Get_ends R G a o w T key v ticks :
  settled R G a o key w → coherent o (clock w) T key v (around a w) → key ≠ "" → tick (tick (clock w)) < T →
  responseError (limits o) (getResponseSize (b v)) = None →
  cends (Group.Get (nd_cfg (here w)) ticks key) w (λ w' r, r = Val (inr v) ∧ after R G a o key T v w w').
Proof.
  intros Hse Hco Hk HT Hresp. assert (around a w !! a = Some (here w)) as Ha by apply lookup_insert_eq.
  destruct (settled_node _ _ _ _ _ _ _ _ Hse Ha) as (((Hcl & _) & Hp & _) & _).
  unfold Group.Get. cstep. rewrite Hcl, decide_False, Hp by done. cbn [negb getLoop]. apply ends_bind.
  destruct w as [nd ot t]. cbn [here others clock] in *.
  destruct (decide (a = o)) as [->|Hne].
  - eapply ends_mono; [apply (getTurn_self R G o (mkWorld nd ot t) T key v); [done|done|]|].
    { simpl. pose proof (tick_le (tick t)). lia. }
    intros w' r [-> Haf]. by cret.
  - eapply ends_mono; [by apply (getTurn_remote R G a o (mkWorld nd ot t) T key v)|].
    intros w' r [-> Haf]. by cret.
Qed.

(** ** Set *)

(** The invalidation reaches every listed peer and nobody else. *)
Lemma invalidate_loop R G a o key targets w errs :
  settled R G a o key w → NoDup targets.*1 →
  (∀ m c, (m, c) ∈ targets → cl_addr c = m ∧ is_Some (others w !! m)) →
  let '(N', t', _) := foldl (invalidateOne tick limits G key) (others w, clock w, errs) targets in
  settled R G a o key (mkWorld (here w) N' t') ∧ clock w ≤ t' ∧
  (∀ m, m ∉ targets.*1 → N' !! m = others w !! m) ∧
  (∀ m nd, m ∈ targets.*1 → N' !! m = Some nd → ∀ u, nearVal nd u key = None).
Proof.
  revert w errs. induction targets as [|[m c] targets IH]; intros w errs Hse Hnd Hall.
  { destruct w as [nd ot t]. simpl. split_and!; [done|lia|done|]. intros ? ? Hin. by apply not_elem_of_nil in Hin. }
  cbn [foldl]. unfold invalidateOne at 2. csimpl in Hnd. apply NoDup_cons in Hnd as [Hm Hnd].
  destruct (Hall m c ltac:(left)) as [Hca [nd Hnd']]. rewrite <-Hca in Hnd'.
  assert (around a w !! cl_addr c = Some nd) as Har.
  { unfold around. rewrite lookup_insert_ne; [done|]. intros Heq. pose proof (se_fresh _ _ _ _ _ _ Hse) as Hf. rewrite Heq in Hf. congruence. }
  destruct (settled_node _ _ _ _ _ _ _ _ Hse Har) as (Hok & _ & Hname & _).
  destruct (serve_invalidate (others w) c nd (clock w) G key Hnd' Hname Hok
    (requestError_key _ _ _ _ _ _ (se_request _ _ _ _ _ _ Hse _ (elem_of_dom_2 _ _ _ Har)))) as (nd' & t1 & r & -> & K & Ht & Hnear).
  set (w1 := mkWorld (here w) (<[cl_addr c := nd']> (others w)) t1).
  set (errs1 := match Client_Invalidate c r with Some err => _ | None => _ end).
  assert (settled R G a o key w1) as Hse1 by (by eapply settled_other).
  specialize (IH w1 errs1 Hse1 Hnd). cbn [others clock here w1] in IH.
  destruct (foldl _ _ targets) as [[N' t'] errs']. destruct IH as (IH1 & IH2 & IH3 & IH4).
  { intros m' c' Hin. destruct (Hall m' c') as [? ?]; [by right|]. split; [done|].
    destruct (decide (m' = cl_addr c)) as [->|]; simplify_map_eq; eauto. }
  split_and!; [done|lia| |].
  - intros m' Hm'. csimpl in Hm'. apply not_elem_of_cons in Hm' as [Hne Hm']. rewrite IH3 by done.
    by rewrite lookup_insert_ne by congruence.
  - intros m' x Hm' Hx. csimpl in Hm'. apply elem_of_cons in Hm' as [->|Hm']; [|by eapply IH4].
    rewrite IH3 in Hx by done. rewrite Hca, lookup_insert_eq in Hx. by simplify_eq.
Qed.

Lemma invalidatePeerCopies_ends R G a o key except w (Q : world S → result unit → Prop) :
  settled R G a o key w →
  (∀ w', settled R G a o key w' → clock w ≤ clock w' →
     nd_cfg (here w') = nd_cfg (here w) → nd_picker (here w') = nd_picker (here w) →
     mainCache (nd_group (here w')) = mainCache (nd_group (here w)) →
     nearCache (nd_group (here w')) = nearCache (nd_group (here w)) →
     ownerEpoch (nd_group (here w')) = ownerEpoch (nd_group (here w)) →
     (except ≠ a → others w' !! except = others w !! except) →
     (∀ m nd, m ≠ except → others w' !! m = Some nd → ∀ u, nearVal nd u key = None) →
     Q w' (Val tt)) →
  cends (invalidatePeerCopies (nd_cfg (here w)) key except) w Q.
Proof.
  intros Hse HQ. assert (around a w !! a = Some (here w)) as Ha by apply lookup_insert_eq.
  destruct (settled_node _ _ _ _ _ _ _ _ Hse Ha) as ((_ & Hp & _) & _ & Hname & _).
  destruct (cn_node _ _ _ (se_conn _ _ _ _ _ _ Hse) a (here w) Ha) as (_ & Hwf & Hself & Hmem & _).
  unfold invalidatePeerCopies. rewrite Hp, Hname. cbn [negb]. cstep.
  set (targets := map_to_list (invalidateTargets except (nd_picker (here w)))).
  assert (∀ m c, (m, c) ∈ targets ↔ except ≠ m ∧ clients (nd_picker (here w)) !! m = Some c) as Hin.
  { intros m c. unfold targets, invalidateTargets. by rewrite elem_of_map_to_list, lookup_delete_Some. }
  assert (∀ m, m ∈ targets.*1 ↔ m ≠ except ∧ is_Some (others w !! m)) as Hin1.
  { intros m. rewrite list_elem_of_fmap. pose proof (se_fresh _ _ _ _ _ _ Hse) as Hfresh. split.
    - intros ([m' c] & -> & [Hne Hc]%Hin). split; [done|]. simpl.
      assert (m' ∈ dom (clients (nd_picker (here w)))) as Hd by (apply elem_of_dom; eauto).
      apply (pwf_clients _ Hwf) in Hd. rewrite Hmem, Hself in Hd. apply elem_of_difference in Hd as [Hd Hna].
      apply elem_of_dom in Hd. unfold around in Hd. rewrite lookup_insert_ne in Hd by set_solver. done.
    - intros [Hne Hs]. destruct (cn_clients _ _ _ (se_conn _ _ _ _ _ _ Hse) a m (here w) Ha) as [c Hc].
      + apply elem_of_dom. unfold around. rewrite lookup_insert_ne by (intros ->; rewrite Hfresh in Hs; by destruct Hs). done.
      + intros ->. rewrite Hfresh in Hs. by destruct Hs.
      + exists (m, c). split; [done|]. by apply Hin. }
  pose proof (invalidate_loop R G a o key targets w ∅ Hse) as Hloop.
  destruct (foldl _ _ targets) as [[N' t'] errs]. destruct Hloop as (Hse' & Ht & Hrest & Hnone).
  { unfold targets. apply NoDup_fst_map_to_list. }
  { intros m c Hmc. split; [|apply Hin1, list_elem_of_fmap; by exists (m, c)].
    apply Hin in Hmc as [_ Hc]. by eapply pwf_addrs. }
  assert (∀ m nd, m ≠ except → N' !! m = Some nd → ∀ u, nearVal nd u key = None) as Hnear.
  { intros m x Hm Hx. apply (Hnone m x); [|done]. apply Hin1. split; [done|].
    destruct (decide (m ∈ targets.*1)) as [Hi|Hi]; [by apply Hin1 in Hi as [_ ?]|]. rewrite Hrest in Hx by done. eauto. }
  assert (except ≠ a → N' !! except = others w !! except) as Hex.
  { intros _. apply Hrest. rewrite Hin1. by intros []. }
  cbn [fst snd]. destruct (Invalidate _ _ _ _).
  - cstep. cret. apply HQ; try done. apply (settled_here _ _ _ _ _ (mkWorld (here w) N' t')); [done|].
    apply keeps_group; [done|by right..].
  - cret. by apply HQ.
Qed.

(** The owner, wherever it is, holds the value. *)
Definition written a o T key v w : Prop := ∃ nd, around a w !! o = Some nd ∧ ownerOk (clock w) T key v nd.

(** A step of the operating node that spares the owner's value. *)
Lemma written_here a o T key v w nd t :
  written a o T key v w → clock w ≤ t → nd_picker nd = nd_picker (here w) →
  (a = o → mainCache (nd_group nd) = mainCache (nd_group (here w)) ∧
           ownerEpoch (nd_group nd) = ownerEpoch (nd_group (here w))) →
  written a o T key v (mkWorld nd (others w) t).
Proof.
  intros (x & Hx & Hw) Ht Hp Hsame. unfold written, around in *. simpl. destruct (decide (a = o)) as [->|Hne].
  - rewrite lookup_insert_eq in Hx. simplify_eq. destruct (Hsame eq_refl) as [Hm Ho]. exists nd.
    rewrite lookup_insert_eq. split; [done|]. apply (ownerOk_later _ t) in Hw; [|done].
    unfold ownerOk, holds, mainVal in *. by rewrite Hm, Ho, Hp.
  - rewrite lookup_insert_ne in Hx |- * by done. exists x. split; [done|]. by eapply ownerOk_later.
Qed.

Lemma invalidateLocalCopies_ends R G a o key w (Q : world S → result unit → Prop) :
  settled R G a o key w →
  (∀ nd, keeps (here w) nd →
     (a = o → mainCache (nd_group nd) = mainCache (nd_group (here w)) ∧
              ownerEpoch (nd_group nd) = ownerEpoch (nd_group (here w))) →
     (∀ u, nearVal nd u key = None) → Q (mkWorld nd (others w) (clock w)) (Val tt)) →
  cends (invalidateLocalCopies (nd_cfg (here w)) key) w Q.
Proof.
  intros Hse HQ. assert (around a w !! a = Some (here w)) as Ha by apply lookup_insert_eq.
  destruct (settled_node _ _ _ _ _ _ _ _ Hse Ha) as (Hok & (Hpok & Ho & Hne & _ & Hs & _) & _).
  apply ends_local; [apply invalidateLocalCopies_local|].
  eapply ends_mono; [apply (ends_keeps tick tick_le _ _ _ (λ nt r, r = Val tt ∧ nt.2 = clock w ∧
    (a = o → mainCache (nd_group nt.1) = mainCache (nd_group (here w)) ∧
             ownerEpoch (nd_group nt.1) = ownerEpoch (nd_group (here w))) ∧ (∀ u, nearVal nt.1 u key = None)))|].
  2:{ intros [nd t] r ((-> & Ht & Hown & Hnear) & K & _). cbn [fst snd] in *. subst t. by apply HQ. }
  unfold invalidateLocalCopies. rewrite (proj1 (proj2 Hok)). apply ends_bind.
  apply ends_event. cbn [handleNode fst snd]. rewrite Hpok, Ho, (proj2 (String.eqb_neq _ _) Hne), Hs. cbn [andb negb].
  destruct (decide (a = o)) as [Heq|Hao].
  - rewrite bool_decide_eq_true_2 by done. cbn [negb]. cret. apply invalidateNearKey_ends; [done|done|].
    intros nd' Hp Hm Hoe Hn. by cbn [fst snd].
  - rewrite bool_decide_eq_false_2 by done. cbn [negb]. apply ends_event.
    cbn [handleNode fst snd]. cret. apply invalidateNearKey_ends; [done| |].
    { destruct Hok as ((Hc & Hm & Hn) & Hp & Hnear). unfold node_ok, group_wf. simpl. split_and!; try done.
      by apply (cacheStep_wf (CDelete key)). }
    intros nd' Hp Hm Hoe Hn. cbn [fst snd]. by split_and!.
Qed.

(** The owner can store the value, which then lives until [T] at least. *)
Definition storable t T key v nd : Prop :=
  cache_room (mainCache (nd_group nd)) key v ∧ before (deadline (nd_cfg nd) t) (T - 1).

(** What the operating node keeps of itself. *)
Definition same nd nd' : Prop := nd_cfg nd' = nd_cfg nd ∧ nd_picker nd' = nd_picker nd.

Lemma confirm_ends R G a o key last w (Q : world S → result (turn (string * Z)) → Prop) r :
  settled R G a o key w → r = PickOwner key (nd_picker (here w)) →
  Q w (Val (TBreak (o, epoch (nd_picker (here w))))) → cends (confirm last key r) w Q.
Proof.
  intros Hse -> HQ. assert (around a w !! a = Some (here w)) as Ha by apply lookup_insert_eq.
  destruct (settled_node _ _ _ _ _ _ _ _ Hse Ha) as (_ & (Hpok & Ho & _ & Hep & _) & _).
  unfold confirm. cstep. unfold samePick. rewrite Hpok, String.eqb_refl, Z.eqb_refl. cbn [andb]. cret.
  rewrite Ho, Hep. by destruct w.
Qed.

Lemma setTurn_ends R G a o w T key value last tk (Q : world S → result (turn (string * Z)) → Prop) :
  settled R G a o key w →
  (∀ nd, around a w !! o = Some nd → storable (clock w) T key (mkByteView value) nd) →
  requestError (limits o) (mkRequest G key value false) = None → responseError (limits o) (getResponseSize value) = None →
  (∀ w', settled R G a o key w' → same (here w) (here w') → clock w ≤ clock w' →
     written a o T key (mkByteView value) w' → Q w' (Val (TBreak (o, epoch (nd_picker (here w')))))) →
  cends (setTurn (nd_cfg (here w)) last tk key value) w Q.
Proof.
  intros Hse Hst Hreq Hresp HQ. assert (around a w !! a = Some (here w)) as Ha by apply lookup_insert_eq.
  destruct (settled_node _ _ _ _ _ _ _ _ Hse Ha) as (Hok & Hr & Hname & Hexp). destruct w as [nd ot t]. cbn [here others clock] in *.
  unfold setTurn. rewrite (proj1 (proj2 Hok)). cbn [negb]. cstep. destruct (Hr) as (Hpok & Ho & Hoe & Hep & Hs & Hpeer).
  rewrite Hpok, Ho, (proj2 (String.eqb_neq _ _) Hoe), Hs. cbn [negb orb].
  destruct (decide (a = o)) as [->|Hne].
  - rewrite bool_decide_eq_true_2 by done. destruct (Hst nd Ha) as [Hroom Hbefore].
    apply ends_bind, ends_local; [apply setLocal_local|].
    eapply ends_mono; [apply ends_keeps; [done|]; by apply (setLocal_ends tick tick_le (nd_cfg nd) nd t key value eq_refl Hok
      (routesTo_self _ _ _ Hr))|].
    intros [nd1 t1] r ((-> & Ho1 & Hh) & K & Ht). cbn [fst snd here others clock] in *.
    set (w1 := mkWorld nd1 ot t1).
    assert (settled R G o o key w1) as Hse1 by (by apply (settled_here _ _ _ _ _ (mkWorld nd ot t))).
    apply (confirm_ends R G o o); [done|by rewrite <-(kp_picker _ _ K)|]. apply HQ; [done|split; [apply K|apply K]|done|].
    exists nd1. unfold around. simpl. rewrite lookup_insert_eq. split; [done|]. split; [by apply Hh|]. right.
    by rewrite Ho1, (kp_picker _ _ K).
  - rewrite bool_decide_eq_false_2 by done. destruct (Hpeer Hne) as (c & Hc & Hca). rewrite Hc. cbn [peerSet].
    destruct (settled_owner_other _ _ _ _ _ _ Hse Hne) as (ndo & Hndo & Haro).
    destruct (settled_node _ _ _ _ _ _ _ _ Hse Haro) as (Hoko & Hro & Hnameo & Hexpo).
    destruct (Hst ndo Haro) as [Hroom Hbefore]. destruct Hca. cbn [others] in *.
    destruct (serve_set ot c ndo t G key value Hndo Hnameo Hoko Hro Hexpo Hroom Hreq Hresp) as (ndo' & t' & Hcall & Ko & Ht & Hown).
    cstep. rewrite Hname, Hcall. cbn [Client_Set fst snd].
    set (w1 := mkWorld nd (<[cl_addr c := ndo']> ot) t').
    assert (settled R G a (cl_addr c) key w1) as Hse1 by (by eapply (settled_other _ _ _ _ _ (mkWorld nd ot t))).
    apply (confirm_ends R G a (cl_addr c)); [done..|]. apply HQ; [done|done|done|].
    exists ndo'. unfold around. simpl. rewrite lookup_insert_ne by done. rewrite lookup_insert_eq. split; [done|by apply Hown].
Qed.

(** After the invalidations only the owner holds the key, and it holds the value. *)
Lemma written_coherent a o T key v w w' :
  written a o T key v w → (∀ u, nearVal (here w) u key = None) → clock w ≤ clock w' →
  nd_picker (here w') = nd_picker (here w) →
  mainCache (nd_group (here w')) = mainCache (nd_group (here w)) →
  nearCache (nd_group (here w')) = nearCache (nd_group (here w)) →
  ownerEpoch (nd_group (here w')) = ownerEpoch (nd_group (here w)) →
  (o ≠ a → others w' !! o = others w !! o) →
  (∀ m nd, m ≠ o → others w' !! m = Some nd → ∀ u, nearVal nd u key = None) →
  coherent o (clock w') T key v (around a w').
Proof.
  intros (x & Hx & Hw) Hnear Ht Hp Hm Hn Ho Hrest Hnone n y Hy. unfold around in *.
  apply (ownerOk_later _ (clock w')) in Hw; [|done]. case_decide as Hno.
  - subst n. destruct (decide (a = o)) as [->|Hne]; simplify_map_eq.
    + unfold ownerOk, holds, mainVal in *. by rewrite Hm, Ho, Hp.
    + rewrite Hrest in Hy by done. by simplify_eq.
  - destruct (decide (n = a)) as [->|Hna]; simplify_map_eq; intros u _; left; [|by eapply Hnone].
    unfold nearVal in *. by rewrite Hn, Hp.
Qed.

Lemma Set_ends R G a o w T key value ticks :
  settled R G a o key w → key ≠ "" → value ≠ [] →
  (∀ nd, around a w !! o = Some nd → storable (clock w) T key (mkByteView value) nd) →
  requestError (limits o) (mkRequest G key value false) = None → responseError (limits o) (getResponseSize value) = None →
  cends (Set_ (nd_cfg (here w)) ticks key value) w (λ w' r,
    r = Val None ∧ after R G a o key T (mkByteView value) w w').
Proof.
  intros Hse Hk Hv Hst Hreq Hresp. assert (around a w !! a = Some (here w)) as Ha by apply lookup_insert_eq.
  destruct (settled_node _ _ _ _ _ _ _ _ Hse Ha) as (((Hcl & _) & Hp & _) & (Hpok & Ho & Hoe & Hep & Hs & _) & _).
  destruct w as [nd ot t]. cbn [here others clock] in *.
  unfold Set_. cstep. rewrite Hcl, decide_False, decide_False by done. cbn [turnLoop]. apply ends_bind, ends_bind.
  apply (setTurn_ends R G a o (mkWorld nd ot t) T key value); [done..|]. cbn [here others clock].
  intros w1 Hse1 [Hc1 Hp1] Ht1 Hw1. cret. cstep. set (nd2 := mkNode _ (addStat sets 1 _) _ _).
  assert (keeps (here w1) nd2) as K2 by (apply keeps_group; [done|by right..]).
  set (w2 := mkWorld nd2 (others w1) (clock w1)).
  assert (settled R G a o key w2) as Hse2 by (by apply settled_here).
  assert (written a o T key (mkByteView value) w2) as Hw2 by (by apply written_here).
  assert (nd_cfg nd = nd_cfg (here w2)) as -> by done. apply ends_bind.
  apply (invalidateLocalCopies_ends R G a o key w2 _ Hse2). intros nd3 K3 Hown3 Hnear3.
  set (w3 := mkWorld nd3 (others w2) (clock w2)).
  assert (settled R G a o key w3) as Hse3 by (by apply settled_here).
  assert (written a o T key (mkByteView value) w3) as Hw3 by (by apply written_here; [..|apply K3|]).
  assert (nd_cfg (here w2) = nd_cfg (here w3)) as -> by (symmetry; apply K3). apply ends_bind.
  apply (invalidatePeerCopies_ends R G a o key o w3 _ Hse3).
  intros w4 Hse4 Ht4 Hc4 Hp4 Hm4 Hn4 Ho4 Hrest Hnone.
  assert (coherent o (clock w4) T key (mkByteView value) (around a w4)) as Hco4 by (by eapply written_coherent).
  assert (nd_picker (here w4) = nd_picker nd) as Hp4' by (rewrite Hp4; etrans; [apply K3|done]).
  assert (nd_cfg (here w4) = nd_cfg nd) as Hc4' by (rewrite Hc4; etrans; [apply K3|done]).
  rewrite <-Hc4, Hc4', Hp. destruct (hasNear (nd_cfg nd)); cbn [andb].
  2:{ apply ends_bind. cret. cret. split; [done|by split_and!]. }
  rewrite (proj2 (String.eqb_neq _ _) Hoe). cbn [negb]. apply ends_bind. cstep. rewrite Hp4', Hpok, Ho, Hep, Hs, Hp1.
  rewrite String.eqb_refl, Z.eqb_refl. cbn [andb]. destruct (decide (a = o)) as [Hao|Hao].
  { rewrite bool_decide_eq_true_2 by done. cbn [negb]. cret. cret. split; [done|]. destruct w4. by split_and!. }
  rewrite bool_decide_eq_false_2 by done. cbn [negb]. rewrite <-Hp4', cloneBytes_id.
  eapply ends_mono; [by apply (nearFill_ends R G a o w4 T)|]. intros w5 r (-> & Hse5 & Hco5 & Hc5 & Hp5). cret.
  split; [done|]. split_and!; [done|done|by rewrite Hc5|by rewrite Hp5].
Qed.

(** ** Operations on a whole cluster *)

(** The cluster is connected, [o] owns the key, and the key is coherent. *)
Definition serves (R : Z) (G o key : string) T v (cl : cluster S) : Prop :=
  connected R G (nodes cl) ∧ (∀ n nd, nodes cl !! n = Some nd → routesTo n o key nd) ∧
  coherent o (now cl) T key v (nodes cl) ∧ (∀ n, n ∈ dom (nodes cl) → requestError (limits n) (mkRequest G key [] false) = None).

Lemma around_self (cl : cluster S) a nd :
  nodes cl !! a = Some nd → around a (mkWorld nd (delete a (nodes cl)) (now cl)) = nodes cl.
Proof. intros Ha. unfold around. simpl. by rewrite insert_delete_id. Qed.

Lemma connected_settled R G (cl : cluster S) a nd o key :
  connected R G (nodes cl) → nodes cl !! a = Some nd → o ∈ dom (nodes cl) →
  (∀ n nd, nodes cl !! n = Some nd → routesTo n o key nd) →
  (∀ n, n ∈ dom (nodes cl) → requestError (limits n) (mkRequest G key [] false) = None) →
  settled R G a o key (mkWorld nd (delete a (nodes cl)) (now cl)).
Proof.
  intros Hc Ha Ho Hr Hq. split; try (rewrite (around_self cl a nd) by done); [|done..]. simpl. apply lookup_delete_eq.
Qed.

(** Lift the outcome of a program to the cluster. *)
Lemma runAt_ends {A} (p : config → gprog A) R G o key T v (cl : cluster S) a nd (r0 : result A) :
  connected R G (nodes cl) → nodes cl !! a = Some nd →
  cends (p (nd_cfg nd)) (mkWorld nd (delete a (nodes cl)) (now cl)) (λ w' r,
    r = r0 ∧ after R G a o key T v (mkWorld nd (delete a (nodes cl)) (now cl)) w') →
  ∃ cl', runAt tick limits a p cl = Some (cl', r0) ∧ serves R G o key T v cl' ∧ dom (nodes cl') = dom (nodes cl).
Proof.
  intros Hcn Ha Hends. unfold runAt. rewrite Ha. simpl. unfold ends in Hends.
  destruct (interp _ _ _) as [w' r]. destruct Hends as (-> & [Hf Hc Ho Hr Hq] & Hco & _ & Hp). eexists. split; [done|].
  split; [by split_and!|]. destruct (cn_node _ _ _ Hc a (here w') (lookup_insert_eq _ _ _)) as (_ & _ & _ & Hm & _).
  destruct (cn_node _ _ _ Hcn a nd Ha) as (_ & _ & _ & Hm' & _). simpl in *. rewrite <-Hm', <-Hp. symmetry. exact Hm.
Qed.

(** Reads of the key at the nodes [bs], one after the other: as long as the
    deadline has not come, each of them returns [v]. *)
Fixpoint readsReturn (bs : list string) (ticks : nat → nat) key v T (cl : cluster S) : Prop :=
  match bs with
  | [] => True
  | b :: bs =>
      tick (tick (now cl)) < T →
      ∃ cl', runAt tick limits b (λ g, Group.Get g ticks key) cl = Some (cl', Val (inr v)) ∧ readsReturn bs ticks key v T cl'
  end.

Lemma serves_reads R G o key T v bs ticks (cl : cluster S) :
  key ≠ "" → o ∈ dom (nodes cl) → responseError (limits o) (getResponseSize (b v)) = None → serves R G o key T v cl → Forall (λ b, b ∈ dom (nodes cl)) bs →
  readsReturn bs ticks key v T cl.
Proof.
  intros Hk. revert cl. induction bs as [|b bs IH]; intros cl Ho Hresp Hs Hall; [done|]. cbn [readsReturn]. intros HT.
  destruct Hs as (Hcn & Hr & Hco & Hq). apply Forall_cons in Hall as [Hb Hall]. apply elem_of_dom in Hb as [nd Hnd].
  destruct (runAt_ends (λ g, Group.Get g ticks key) R G o key T v cl b nd (Val (inr v)) Hcn Hnd) as (cl' & Hrun & Hs' & Hdom).
  { pose proof (connected_settled R G cl b nd o key Hcn Hnd Ho Hr Hq) as Hse.
    apply (Get_ends R G b o (mkWorld nd (delete b (nodes cl)) (now cl)) T key v ticks Hse); [|done..].
    by rewrite around_self. }
  exists cl'. split; [done|]. apply IH; rewrite ?Hdom; done.
Qed.

Lemma reads_see_set R G (cl : cluster S) a bs key value ticks ticks' T :
  connected R G (nodes cl) → a ∈ dom (nodes cl) → Forall (λ b, b ∈ dom (nodes cl)) bs → key ≠ "" → value ≠ [] →
  (∀ n, n ∈ dom (nodes cl) → requestError (limits n) (mkRequest G key value false) = None ∧
                             responseError (limits n) (getResponseSize value) = None) →
  (∀ n nd, nodes cl !! n = Some nd → pk_self (PickOwner key (nd_picker nd)) = true →
     storable (now cl) T key (mkByteView value) nd) →
  ∃ cl', runAt tick limits a (λ g, Set_ g ticks key value) cl = Some (cl', Val None) ∧
         readsReturn bs ticks' key (mkByteView value) T cl'.
Proof.
  intros Hcn Ha Hbs Hk Hv Hmsg Hst. apply elem_of_dom in Ha as [nd Ha].
  destruct (connected_routes R G (nodes cl) key Hcn) as (o & Ho & Hr); [by intros He; rewrite He, lookup_empty in Ha|done|].
  destruct (runAt_ends (λ g, Set_ g ticks key value) R G o key T (mkByteView value) cl a nd (Val None) Hcn Ha)
    as (cl' & Hrun & Hs & Hdom).
  { pose proof (connected_settled R G cl a nd o key Hcn Ha Ho Hr (λ n Hn, requestError_key _ _ _ _ _ _ (proj1 (Hmsg n Hn)))) as Hse.
    apply (Set_ends R G a o (mkWorld nd (delete a (nodes cl)) (now cl)) T key value ticks Hse); [done..| |by apply Hmsg|by apply Hmsg].
    rewrite around_self by done. intros x Hx. apply (Hst o x Hx). destruct (Hr o x Hx) as (_ & _ & _ & _ & Hself & _).
    by rewrite Hself, bool_decide_eq_true_2. }
  exists cl'. split; [done|]. by eapply serves_reads; rewrite ?Hdom; [..|apply Hmsg| |].
Qed.

(** [C1] Read your writes, cluster-wide.  Operations run one at a time in a
    connected cluster: the groups of the nodes are open, have one name and are in
    good order, the nodes agree on the membership and the number of points on the
    ring, hold a client for every peer and reach each other.  Let key and value
    be non-empty, let the value fit the shard of the owner's main cache that it
    belongs to, and let the request that carries it and the response that returns it be
    encodable (UTF-8) and pass the message limits of every server and of the
    clients.  Then a [Set] at any node succeeds, and when [Get]s
    of the key follow and nothing else, each of them, at whatever nodes and in
    whatever order and number, returns the written value, whether it is served
    by the owner, by an RPC to the owner or from a near cache, as long as the
    expiration the owner counts from the write has not come. *)
Theorem cluster_reads_see_write R G (cl : cluster S) a bs key value ticks ticks' T :
  connected R G (nodes cl) → a ∈ dom (nodes cl) → Forall (λ b, b ∈ dom (nodes cl)) bs → key ≠ "" → value ≠ [] →
  (∀ n, n ∈ dom (nodes cl) → requestError (limits n) (mkRequest G key value false) = None ∧
                             responseError (limits n) (getResponseSize value) = None) →
  (∀ n nd, nodes cl !! n = Some nd → pk_self (PickOwner key (nd_picker nd)) = true →
     storable (now cl) T key (mkByteView value) nd) →
  ∃ cl', runAt tick limits a (λ g, Set_ g ticks key value) cl = Some (cl', Val None) ∧
         readsReturn bs ticks' key (mkByteView value) T cl'.
Proof. by apply reads_see_set. Qed.
End facts.

(** ** A cluster of two nodes *)

Definition w_limits (addr : string) : Z := Z.shiftl 4 20.

(** [source] is the getter of the group, if it has one. *)
Definition w_node (source : option (Z → list Z)) (p : ClientPicker) : node (storeImpl ByteView) :=
  mkNode (mkGConfig "scores" (bool_decide (is_Some source)) true 1000 true 100)
    (mkGroup false (Some wc) (Some wc) 0 ∅ ∅ 0 ∅ 0 (λ _, 0)) p (λ t _, LoadOk (default (λ _, []) source t)).
Definition w_cluster (source : option (Z → list Z)) : cluster (storeImpl ByteView) :=
  mkCluster {["10.0.0.7:8001" := w_node source wp1; "10.0.0.8:8001" := w_node source wp2]} 0.

Lemma w_node_in source n nd :
  nodes (w_cluster source) !! n = Some nd → (n = "10.0.0.7:8001" ∧ nd = w_node source wp1) ∨ (n = "10.0.0.8:8001" ∧ nd = w_node source wp2).
Proof. cbn [w_cluster nodes]. rewrite lookup_insert_Some, lookup_singleton_Some. naive_solver. Qed.

Lemma w_node_ok source p : node_ok (w_node source p).
Proof. split_and!; [|done|done]. split_and!; [done|exact wc_wf|exact wc_wf]. Qed.

Lemma w_cluster_connected source : connected 2 "scores" (nodes (w_cluster source)).
Proof.
  assert (dom (nodes (w_cluster source)) = {["10.0.0.7:8001"; "10.0.0.8:8001"]}) as Hdom.
  { cbn [w_cluster nodes]. by rewrite dom_insert_L, dom_singleton_L. }
  split.
  - intros n nd Hn. rewrite Hdom. apply w_node_in in Hn as [[-> ->]|[-> ->]]; (split; [apply w_node_ok|]); cbn [w_node nd_picker nd_cfg].
    + split; [apply pickerReachable_wf, wp1_reachable|]. split_and!; [vm_compute; reflexivity..|]. by vm_compute.
    + split; [apply pickerReachable_wf, wp2_reachable|]. split_and!; [vm_compute; reflexivity..|]. by vm_compute.
  - intros n m nd Hn Hm Hne. rewrite Hdom in Hm. apply elem_of_union in Hm. rewrite !elem_of_singleton in Hm.
    apply w_node_in in Hn as [[-> ->]|[-> ->]]; destruct Hm as [-> | ->]; [done|by vm_compute; eexists..|done].
Qed.

Lemma cluster_reads_see_write_witness :
  ∃ cl', @runAt _ _ grpc_impl Z.succ w_limits _ "10.0.0.8:8001" (λ g, Set_ g (λ _, 0%nat) "k" [1]) (w_cluster None) = Some (cl', Val None) ∧
         @readsReturn _ _ grpc_impl Z.succ w_limits ["10.0.0.7:8001"; "10.0.0.8:8001"; "10.0.0.8:8001"] (λ _, 0%nat) "k" (mkByteView [1]) 100 cl'.
Proof.
  apply (@cluster_reads_see_write _ _ _ _ grpc_impl Z.succ w_limits (λ t, Z.le_succ_diag_r t) 2 "scores").
  - apply w_cluster_connected.
  - cbn [w_cluster nodes]. set_solver.
  - cbn [w_cluster nodes]. repeat constructor; set_solver.
  - done.
  - done.
  - intros n _. split; by vm_compute.
  - intros n nd Hn _. apply w_node_in in Hn as [[-> ->]|[-> ->]]; (split; [exact wc_room|by vm_compute]).
Defined.
