(* ===== verification/ClusterDelete.v ===== *)
(** * Deletes and read-through, on every node

    After a [Delete] through any node of a connected cluster no node has the
    key: reads miss, or load from the owner's source and agree on what it
    returned. *)

From S2P Require Import Prelude Hashes Store ByteView Errors Cache CacheFacts ConsistentHash RingFacts Peers PeersFacts Singleflight Prog Group Rpc GroupFacts Node NodeFacts ReadThrough Cluster ClusterFacts.

Section facts.
Context {S : Type} {HS : Store S ByteView} {HM : StoreModel S ByteView} {HL : StoreLaws S ByteView}
  {HG : Grpc} {HGL : GrpcLaws} (tick : Z → Z) (limits : string → Z) (tick_le : ∀ t, t ≤ tick t).
Implicit Types (nd : node S) (w : world S) (N : gmap string (node S)) (t u T : Z) (key : string) (v : ByteView).
Notation cends := (ends (handleCluster tick limits)).

(** ** What an operation keeps of its own node *)

Lemma handleCluster_here e w :
  keeps (here w) (here (handleCluster tick limits e w).1) ∧
  (noFlight e → loader (nd_group (here (handleCluster tick limits e w).1)) = loader (nd_group (here w))).
Proof.
  destruct w as [nd ot t]. assert (∀ e, keeps nd (here (local tick e (mkWorld nd ot t)).1) ∧
    (noFlight e → loader (nd_group (here (local tick e (mkWorld nd ot t)).1)) = loader (nd_group nd))) as Hl.
  { intros e'. unfold local. cbn [here others clock]. pose proof (handleNode_keeps tick tick_le e' nd t) as [Hk _].
    pose proof (handleNode_loader tick e' nd t) as Hld. by destruct (handleNode tick e' (nd, t)) as [[nd1 t1] x]. }
  destruct e; try (exact (Hl _)); cbn [handleCluster here others clock nd_picker].
  - by destruct (foldl _ _ _) as [[N' t'] errs].
  - by destruct (call _ _ _ _ _ _) as [[N' t'] r].
  - by destruct (call _ _ _ _ _ _) as [[N' t'] r].
  - by destruct (call _ _ _ _ _ _) as [[N' t'] r].
Qed.

Lemma here_keeps {A} (p : gprog A) w : keeps (here w) (here (interp (handleCluster tick limits) p w).1).
Proof.
  revert w. induction p as [a|x|e k IH]; intros w; cbn [interp]; [reflexivity..|].
  pose proof (handleCluster_here e w) as [Hk _]. destruct (handleCluster tick limits e w) as [w1 x]. by etrans; [exact Hk|apply IH].
Qed.
Lemma here_loader {A} (p : gprog A) w :
  every noFlight p → loader (nd_group (here (interp (handleCluster tick limits) p w).1)) = loader (nd_group (here w)).
Proof.
  revert w. induction p as [a|x|e k IH]; intros w; cbn [interp every]; [done..|]. intros [He Hk].
  pose proof (handleCluster_here e w) as [_ Hl]. destruct (handleCluster tick limits e w) as [w1 x]. rewrite IH by done. by apply Hl.
Qed.

(** ** What an operation keeps of the whole cluster *)

Definition kept N N' : Prop := dom N' = dom N ∧ ∀ n nd nd', N !! n = Some nd → N' !! n = Some nd' → keeps nd nd'.

Lemma kept_refl N : kept N N.
Proof. split; [done|]. intros n nd nd' H1 H2. by simplify_eq. Qed.
Lemma kept_trans N1 N2 N3 : kept N1 N2 → kept N2 N3 → kept N1 N3.
Proof.
  intros [D1 K1] [D2 K2]. split; [congruence|]. intros n nd nd3 H1 H3.
  assert (is_Some (N2 !! n)) as [nd2 H2] by (apply elem_of_dom; rewrite D1; by apply elem_of_dom). by etrans; [eapply K1|eapply K2].
Qed.
Lemma kept_insert N n nd nd' : N !! n = Some nd → keeps nd nd' → kept N (<[n := nd']> N).
Proof.
  intros Hn K. split; [apply dom_insert_lookup_L; eauto|]. intros m x x' Hx Hx'.
  destruct (decide (m = n)) as [->|]; simplify_map_eq; [done|reflexivity].
Qed.

Lemma call_kept {A} addr (h : option config → Request → gprog (error + A)) size req N t :
  kept N (call tick limits addr h size req N t).1.1.
Proof.
  unfold call. destruct (N !! addr) as [nd|] eqn:Hn; [|apply kept_refl]. destruct (requestError _ _); [apply kept_refl|].
  pose proof (ends_keeps tick tick_le (h (GetGroup nd (rq_group req)) req) nd t (λ _ _, True)) as Hk. unfold ends in Hk.
  destruct (interp _ _ (nd, t)) as [[nd' t'] r]. destruct Hk as (_ & Hk & _); [done|]. by eapply kept_insert.
Qed.

Lemma invalidate_kept group key targets st : kept st.1.1 (foldl (invalidateOne tick limits group key) st targets).1.1.
Proof.
  revert st. induction targets as [|[m c] targets IH]; intros [[N t] errs]; [apply kept_refl|]. cbn [foldl fst].
  eapply kept_trans; [|apply IH]. cbn [invalidateOne].
  pose proof (call_kept (cl_addr c) Server_Delete deleteResponseSize (mkRequest group key [] true) N t) as Hk.
  by destruct (call _ _ _ _ _ _ _ _) as [[N' t'] r].
Qed.

Lemma handleCluster_others e w : kept (others w) (others (handleCluster tick limits e w).1).
Proof.
  destruct w as [nd ot t]. assert (∀ e, kept ot (others (local tick e (mkWorld nd ot t)).1)) as Hl.
  { intros e'. unfold local. cbn [here others clock]. destruct (handleNode tick e' (nd, t)) as [[nd1 t1] x]. apply kept_refl. }
  destruct e; try (exact (Hl _)); cbn [handleCluster here others clock nd_picker].
  - pose proof (invalidate_kept group key (map_to_list (invalidateTargets owner (nd_picker nd))) (ot, t, ∅)) as Hk.
    by destruct (foldl _ _ _) as [[N' t'] errs].
  - pose proof (call_kept (cl_addr c) Server_Get getResponseSize (mkRequest group key [] false) ot t) as Hk. by destruct (call _ _ _ _ _ _ _ _) as [[N' t'] r].
  - pose proof (call_kept (cl_addr c) Server_Set getResponseSize (mkRequest group key value false) ot t) as Hk. by destruct (call _ _ _ _ _ _ _ _) as [[N' t'] r].
  - pose proof (call_kept (cl_addr c) Server_Delete deleteResponseSize (mkRequest group key [] false) ot t) as Hk. by destruct (call _ _ _ _ _ _ _ _) as [[N' t'] r].
Qed.

Lemma others_kept {A} (p : gprog A) w : kept (others w) (others (interp (handleCluster tick limits) p w).1).
Proof.
  revert w. induction p as [a|x|e k IH]; intros w; cbn [interp]; [apply kept_refl..|].
  pose proof (handleCluster_others e w) as Hk. destruct (handleCluster tick limits e w) as [w1 x]. by eapply kept_trans; [exact Hk|apply IH].
Qed.

(** Whatever program runs at a node, and however it ends. *)
Lemma runAt_kept {A} a (p : config → gprog A) (cl cl' : cluster S) r :
  runAt tick limits a p cl = Some (cl', r) → kept (nodes cl) (nodes cl').
Proof.
  unfold runAt. intros (nd & Ha & Hrun)%bind_Some. set (w := mkWorld nd (delete a (nodes cl)) (now cl)) in Hrun.
  pose proof (here_keeps (p (nd_cfg nd)) w) as Hh. destruct (others_kept (p (nd_cfg nd)) w) as [Hd Ho].
  destruct (interp _ _ w) as [w' r']. injection Hrun as <- <-. cbn [fst here others nodes w] in *. split.
  - rewrite dom_insert_L, Hd, dom_delete_L. apply elem_of_dom_2 in Ha. by rewrite <-union_difference_singleton_L.
  - intros n x x' Hx Hx'. destruct (decide (n = a)) as [->|Hne]; simplify_map_eq; [done|].
    apply (Ho n); [by rewrite lookup_delete_ne|done].
Qed.

Lemma kept_connected R G N N' : connected R G N → kept N N' → connected R G N'.
Proof.
  intros Hcn [Hd K]. assert (∀ n x', N' !! n = Some x' → ∃ x, N !! n = Some x ∧ keeps x x') as Hof.
  { intros n x' Hx'. assert (is_Some (N !! n)) as [x Hx] by (apply elem_of_dom; rewrite <-Hd; by eapply elem_of_dom_2). by eauto. }
  split.
  - intros n x' Hx'. destruct (Hof n x' Hx') as (x & Hx & Kx). destruct (cn_node R G N Hcn n x Hx) as (Hok & Hrest).
    rewrite Hd, (kp_picker _ _ Kx), (kp_cfg _ _ Kx). split; [by eapply keeps_ok|done].
  - intros n m x' Hx' Hm Hne. destruct (Hof n x' Hx') as (x & Hx & Kx). rewrite (kp_picker _ _ Kx). rewrite Hd in Hm. by eapply cn_clients.
Qed.

Section programs.
Context (g : config).
Lemma waitLoop_noFlight n e : every noFlight (waitLoop n e).
Proof. induction n as [|n IH]; cbn [waitLoop]; every_tac. Qed.
Lemma confirm_noFlight last key r : every noFlight (confirm last key r).
Proof. unfold confirm. every_tac. Qed.
Lemma refused_noFlight last n r : every noFlight (refused g last n r).
Proof. unfold refused, waitForTopologyRetry. every_tac; auto using waitLoop_noFlight. Qed.
Lemma deleteTurn_noFlight last n key : every noFlight (deleteTurn g last n key).
Proof. unfold deleteTurn, peerDelete, nilPeer. every_tac; auto using confirm_noFlight, refused_noFlight with locache. Qed.
Lemma turnLoop_noFlight n body ticks o : (∀ last k, every noFlight (body last k)) → every noFlight (turnLoop n body ticks o).
Proof. intros Hb. revert o. induction n as [|n IH]; intros o; cbn [turnLoop]; every_tac; auto. Qed.
Lemma invalidatePeerCopies_noFlight key o : every noFlight (invalidatePeerCopies g key o).
Proof. unfold invalidatePeerCopies. every_tac. Qed.
Lemma Delete_noFlight ticks key : every noFlight (Group.Delete g ticks key).
Proof.
  unfold Group.Delete. every_tac; auto using turnLoop_noFlight, deleteTurn_noFlight, invalidatePeerCopies_noFlight with locache.
Qed.
End programs.

Lemma ends_and {A} (p : gprog A) w (Q1 Q2 : world S → result A → Prop) :
  cends p w Q1 → cends p w Q2 → cends p w (λ w' r, Q1 w' r ∧ Q2 w' r).
Proof. unfold ends. by destruct (interp _ p w). Qed.

(** ** The key is gone *)

Definition nearNone nd t key : Prop := ∀ u, t ≤ u → nearVal nd u key = None.

Definition cleared (o : string) t key N : Prop :=
  ∀ n nd, N !! n = Some nd → if decide (n = o) then mainNone nd t key else nearNone nd t key.

Lemma mainNone_later nd t t' key : t ≤ t' → mainNone nd t key → mainNone nd t' key.
Proof. intros Hle Hn u Hu. apply Hn. lia. Qed.
Lemma nearNone_later nd t t' key : t ≤ t' → nearNone nd t key → nearNone nd t' key.
Proof. intros Hle Hn u Hu. apply Hn. lia. Qed.
Lemma cleared_later o t t' key N : t ≤ t' → cleared o t key N → cleared o t' key N.
Proof.
  intros Hle Hc n nd Hn. specialize (Hc n nd Hn). case_decide; [by eapply mainNone_later|by eapply nearNone_later].
Qed.
Lemma cleared_insert o t key N n nd :
  cleared o t key N → (if decide (n = o) then mainNone nd t key else nearNone nd t key) → cleared o t key (<[n := nd]> N).
Proof. intros Hc Hn m x Hx. destruct (decide (m = n)) as [->|]; simplify_map_eq; [done|by apply Hc]. Qed.
Lemma cleared_here o t t' key a w nd t2 :
  cleared o t key (around a w) → t ≤ t' → (if decide (a = o) then mainNone nd t' key else nearNone nd t' key) →
  cleared o t' key (around a (mkWorld nd (others w) t2)).
Proof.
  intros Hc Hle Hnd. unfold around in *. simpl.
  assert (<[a := nd]> (others w) = <[a := nd]> (<[a := here w]> (others w))) as -> by (by rewrite insert_insert_eq).
  apply cleared_insert; [by eapply cleared_later|done].
Qed.
Lemma cleared_owner o t t' key a w nd t2 :
  a ≠ o → cleared o t key (around a w) → t ≤ t' → mainNone nd t' key →
  cleared o t' key (around a (mkWorld (here w) (<[o := nd]> (others w)) t2)).
Proof.
  intros Hne Hc Hle Hnd. unfold around in *. simpl. rewrite insert_insert_ne by done.
  apply cleared_insert; [by eapply cleared_later|]. by rewrite decide_True.
Qed.

(** ** Delete *)

Ltac cstep := apply ends_event; cbn [handleCluster local handleNode fst snd here others clock nd_cfg nd_group nd_picker nd_source].
Ltac cret := apply ends_ret; cbn [fst snd].

Lemma deleteOwnerLocal_ends g nd t key :
  nd_cfg nd = g → node_ok nd → picksSelf nd key →
  ends (handleNode tick) (deleteOwnerLocal g key) (nd, t) (λ nt r, (∃ b, r = Val (inr b)) ∧ ∀ u, mainVal nt.1 u key = None).
Proof.
  intros <- Hok Hself. unfold deleteOwnerLocal. apply ends_event. cbn [handleNode fst snd]. destruct (Hok) as ((Hcl & _) & Hp & _). rewrite Hcl.
  apply ends_bind. apply prepareLocalOwner_ends; [done..|]. intros nd1 Hp1 K1 N1 O1 _ _. cbn [fst snd].
  apply ends_bind. eapply ends_mono; [apply deleteLocal_ends; [apply K1|by eapply keeps_ok]|].
  intros w r ([b ->] & Hm & _). cret. by eauto.
Qed.

Lemma serve_delete N c nd t G key :
  N !! cl_addr c = Some nd → name (nd_cfg nd) = G → node_ok nd → routesTo (cl_addr c) (cl_addr c) key nd →
  requestError (limits (cl_addr c)) (mkRequest G key [] false) = None → (∀ x, responseError (limits (cl_addr c)) (deleteResponseSize x) = None) →
  ∃ nd' t' b, call tick limits (cl_addr c) Server_Delete deleteResponseSize (mkRequest G key [] false) N t = (<[cl_addr c := nd']> N, t', inr b) ∧
    keeps nd nd' ∧ t ≤ t' ∧ (∀ u, mainVal nd' u key = None) ∧ (quiet nd → quiet nd').
Proof.
  intros Hn Hg Hok Hr Hreq Hresp. unfold call. rewrite Hn, Hreq. cbn [rq_group]. rewrite (GetGroup_same nd G Hg). cbn [Server_Delete rq_key rq_invalidate].
  pose proof (ends_keeps tick tick_le _ _ _ _ (deleteOwnerLocal_ends (nd_cfg nd) nd t key eq_refl Hok (routesTo_self _ _ _ Hr))) as Hends.
  pose proof (noFlight_quiets tick _ (deleteOwnerLocal_noFlight (nd_cfg nd) key) nd t) as Hq. unfold ends in Hends. rewrite interp_bind.
  destruct (interp (handleNode tick) (deleteOwnerLocal (nd_cfg nd) key) (nd, t)) as [[nd1 t1] r].
  destruct Hends as (([b ->] & Hm) & K & Ht). simpl in *. rewrite Hresp. by exists nd1, t1, b.
Qed.

(** The owner, wherever it is, has no value for the key; it came out of [nd0]. *)
Definition gone a o key nd0 w : Prop :=
  ∃ nd, around a w !! o = Some nd ∧ keeps nd0 nd ∧ (∀ u, mainVal nd u key = None) ∧ (a ≠ o → quiet nd0 → quiet nd).

Lemma deleteTurn_ends R G a o w key nd0 last tk (Q : world S → result (turn (string * Z)) → Prop) :
  settled limits R G a o key w → around a w !! o = Some nd0 → (∀ x, responseError (limits o) (deleteResponseSize x) = None) →
  (∀ w', settled limits R G a o key w' → same (here w) (here w') → clock w ≤ clock w' →
     gone a o key nd0 w' → Q w' (Val (TBreak (o, epoch (nd_picker (here w')))))) →
  cends (deleteTurn (nd_cfg (here w)) last tk key) w Q.
Proof.
  intros Hse H0 Hresp HQ. assert (around a w !! a = Some (here w)) as Ha by apply lookup_insert_eq.
  destruct (settled_node _ _ _ _ _ _ _ _ _ Hse Ha) as (Hok & Hr & Hname & Hexp). destruct w as [nd ot t]. cbn [here others clock] in *.
  unfold deleteTurn. rewrite (proj1 (proj2 Hok)). cbn [negb]. cstep. destruct (Hr) as (Hpok & Ho & Hoe & Hep & Hs & Hpeer).
  rewrite Hpok, Ho, (proj2 (String.eqb_neq _ _) Hoe), Hs. cbn [negb orb].
  destruct (decide (a = o)) as [->|Hne].
  - rewrite bool_decide_eq_true_2 by done. assert (nd0 = nd) as -> by congruence.
    apply ends_bind, ends_local; [apply deleteLocal_local|].
    eapply ends_mono; [apply ends_keeps; [done|]; by apply (deleteLocal_ends tick (nd_cfg nd) nd t key eq_refl Hok)|].
    intros [nd1 t1] r (([b ->] & Hm & _ & _) & K & Ht). cbn [fst snd here others clock] in *.
    set (w1 := mkWorld nd1 ot t1).
    assert (settled limits R G o o key w1) as Hse1 by (by apply (settled_here _ _ _ _ _ _ (mkWorld nd ot t))).
    apply (confirm_ends tick limits R G o o); [done|by rewrite <-(kp_picker _ _ K)|]. apply HQ; [done|split; [apply K|apply K]|done|].
    exists nd1. unfold around. simpl. rewrite lookup_insert_eq. by split_and!.
  - rewrite bool_decide_eq_false_2 by done. destruct (Hpeer Hne) as (c & Hc & Hca). rewrite Hc. cbn [peerDelete].
    destruct (settled_owner_other _ _ _ _ _ _ _ Hse Hne) as (ndo & Hndo & Haro). assert (nd0 = ndo) as -> by congruence.
    destruct (settled_node _ _ _ _ _ _ _ _ _ Hse Haro) as (Hoko & Hro & Hnameo & _). destruct Hca. cbn [others] in *.
    destruct (serve_delete ot c ndo t G key Hndo Hnameo Hoko Hro (se_request _ _ _ _ _ _ _ Hse _ (elem_of_dom_2 _ _ _ Haro)) Hresp) as (ndo' & t' & b & Hcall & Ko & Ht & Hm & Hq).
    cstep. rewrite Hname, Hcall. cbn [Client_Delete fst snd].
    set (w1 := mkWorld nd (<[cl_addr c := ndo']> ot) t').
    assert (settled limits R G a (cl_addr c) key w1) as Hse1 by (by eapply (settled_other _ _ _ _ _ _ (mkWorld nd ot t))).
    apply (confirm_ends tick limits R G a (cl_addr c)); [done..|]. apply HQ; [done|done|done|].
    exists ndo'. unfold around. simpl. rewrite lookup_insert_ne by done. rewrite lookup_insert_eq. by split_and!.
Qed.

(** A step of the operating node that does not fill the owner cache. *)
Lemma gone_here a o key nd0 w nd t :
  gone a o key nd0 w → keeps (here w) nd → (a = o → mainCache (nd_group nd) = mainCache (nd_group (here w))) →
  gone a o key nd0 (mkWorld nd (others w) t).
Proof.
  intros (x & Hx & K & Hm & Hq) Kn Hsame. unfold gone, around in *. simpl. destruct (decide (a = o)) as [->|Hne].
  - rewrite lookup_insert_eq in Hx. simplify_eq. exists nd. rewrite lookup_insert_eq. split_and!; [done|by etrans| |done].
    intros u. unfold mainVal in *. by rewrite Hsame.
  - rewrite lookup_insert_ne in Hx |- * by done. by exists x.
Qed.

Lemma gone_cleared a o key nd0 w w' :
  gone a o key nd0 w → (∀ u, nearVal (here w) u key = None) →
  nd_picker (here w') = nd_picker (here w) → mainCache (nd_group (here w')) = mainCache (nd_group (here w)) →
  nearCache (nd_group (here w')) = nearCache (nd_group (here w)) →
  (o ≠ a → others w' !! o = others w !! o) →
  (∀ m nd, m ≠ o → others w' !! m = Some nd → ∀ u, nearVal nd u key = None) →
  cleared o (clock w') key (around a w').
Proof.
  intros (x & Hx & _ & Hw & _) Hnear Hp Hm Hn Hrest Hnone n y Hy. unfold around in *. case_decide as Hno.
  - subst n. intros u _. destruct (decide (a = o)) as [->|Hne]; simplify_map_eq.
    + unfold mainVal in *. by rewrite Hm.
    + rewrite Hrest in Hy by done. by simplify_eq.
  - intros u _. destruct (decide (n = a)) as [->|Hna]; simplify_map_eq; [|by eapply Hnone].
    unfold nearVal in *. by rewrite Hn, Hp.
Qed.

(** How a [Delete] leaves the cluster. *)
Definition removed (R : Z) (G a o key : string) nd0 w w' : Prop :=
  settled limits R G a o key w' ∧ cleared o (clock w') key (around a w') ∧ same (here w) (here w') ∧ clock w ≤ clock w' ∧
  ∃ nd', around a w' !! o = Some nd' ∧ keeps nd0 nd' ∧ (quiet nd0 → quiet nd').

Lemma Delete_walk R G a o w key ticks nd0 :
  settled limits R G a o key w → key ≠ "" → around a w !! o = Some nd0 →
  (∀ x, responseError (limits o) (deleteResponseSize x) = None) →
  cends (Group.Delete (nd_cfg (here w)) ticks key) w (λ w' r,
    r = Val None ∧ settled limits R G a o key w' ∧ cleared o (clock w') key (around a w') ∧ same (here w) (here w') ∧ clock w ≤ clock w' ∧
    (a ≠ o → ∃ nd', around a w' !! o = Some nd' ∧ keeps nd0 nd' ∧ (quiet nd0 → quiet nd'))).
Proof.
  intros Hse Hk H0 Hresp. assert (around a w !! a = Some (here w)) as Ha by apply lookup_insert_eq.
  destruct (settled_node _ _ _ _ _ _ _ _ _ Hse Ha) as (((Hcl & _) & Hp & _) & (Hpok & Ho & Hoe & Hep & Hs & _) & _).
  destruct w as [nd ot t]. cbn [here others clock] in *.
  unfold Group.Delete. cstep. rewrite Hcl, decide_False by done. cbn [turnLoop]. apply ends_bind, ends_bind.
  apply (deleteTurn_ends R G a o (mkWorld nd ot t) key nd0); [done..|]. cbn [here others clock].
  intros w1 Hse1 [Hc1 Hp1] Ht1 Hw1. cret. cstep. set (nd2 := mkNode _ (addStat deletes 1 _) _ _).
  assert (keeps (here w1) nd2) as K2 by (apply keeps_group; [done|by right..]).
  set (w2 := mkWorld nd2 (others w1) (clock w1)).
  assert (settled limits R G a o key w2) as Hse2 by (by apply settled_here).
  assert (gone a o key nd0 w2) as Hw2 by (by apply gone_here).
  assert (nd_cfg nd = nd_cfg (here w2)) as -> by done. apply ends_bind.
  apply (invalidateLocalCopies_ends tick limits tick_le R G a o key w2 _ Hse2). intros nd3 K3 Hown3 Hnear3.
  set (w3 := mkWorld nd3 (others w2) (clock w2)).
  assert (settled limits R G a o key w3) as Hse3 by (by apply settled_here).
  assert (gone a o key nd0 w3) as Hw3 by (by apply gone_here; [..|intros Hao; apply (Hown3 Hao)]).
  assert (nd_cfg (here w2) = nd_cfg (here w3)) as -> by (symmetry; apply K3). apply ends_bind.
  apply (invalidatePeerCopies_ends tick limits tick_le R G a o key o w3 _ Hse3).
  intros w4 Hse4 Ht4 Hc4 Hp4 Hm4 Hn4 Ho4 Hrest Hnone. cret. split_and!; [done|done|by eapply gone_cleared| | |].
  - split; [rewrite Hc4; etrans; [apply K3|done]|rewrite Hp4; etrans; [apply K3|done]].
  - etrans; [exact Ht1|exact Ht4].
  - intros Hne. destruct Hw3 as (x & Hx & Kx & _ & Hqx). exists x. unfold around in *.
    rewrite lookup_insert_ne in Hx |- * by done. rewrite Hrest by done. split_and!; auto.
Qed.

Lemma Delete_ends R G a o w key ticks nd0 :
  settled limits R G a o key w → key ≠ "" → around a w !! o = Some nd0 →
  (∀ x, responseError (limits o) (deleteResponseSize x) = None) →
  cends (Group.Delete (nd_cfg (here w)) ticks key) w (λ w' r, r = Val None ∧ removed R G a o key nd0 w w').
Proof.
  intros Hse Hk H0 Hresp. pose proof (Delete_walk R G a o w key ticks nd0 Hse Hk H0 Hresp) as Hends.
  pose proof (here_keeps (Group.Delete (nd_cfg (here w)) ticks key) w) as K.
  pose proof (here_loader (Group.Delete (nd_cfg (here w)) ticks key) w (Delete_noFlight _ _ _)) as Hl.
  unfold ends in *. destruct (interp _ _ w) as [w' r]. destruct Hends as (-> & Hse' & Hcl & Hsame & Ht & Hoth). simpl in K, Hl.
  split; [done|]. split_and!; [done..|]. destruct (decide (a = o)) as [->|Hne]; [|by apply Hoth].
  unfold around in *. rewrite lookup_insert_eq in H0. injection H0 as <-. exists (here w'). rewrite lookup_insert_eq.
  split_and!; [done|done|]. unfold quiet. by rewrite Hl.
Qed.
End facts.
