(* ===== verification/ClusterReads.v ===== *)
(** * Reads of a key that no node holds

    Reads after a [Delete], at any node of a connected cluster: without a source
    at the owner they miss, with one the first read loads through the owner and
    every later read agrees with it. *)

From S2P Require Import Prelude Hashes Store ByteView Errors Cache CacheFacts ConsistentHash RingFacts Peers PeersFacts Singleflight Prog Group Rpc GroupFacts Node NodeFacts ReadThrough Cluster ClusterFacts ClusterDelete.

Section facts.
Context {S : Type} {HS : Store S ByteView} {HM : StoreModel S ByteView} {HL : StoreLaws S ByteView}
  {HG : Grpc} {HGL : GrpcLaws} (tick : Z → Z) (limits : string → Z) (tick_le : ∀ t, t ≤ tick t).
Implicit Types (nd : node S) (w : world S) (N : gmap string (node S)) (t u T : Z) (key : string) (v : ByteView).
Notation cends := (ends (handleCluster tick limits)).
Ltac cstep := apply ends_event; cbn [handleCluster local handleNode fst snd here others clock nd_cfg nd_group nd_picker nd_source].
Ltac cret := apply ends_ret; cbn [fst snd].

(** The owner's source answers [bytes] for the key from [t] to [u], and no load
    is in flight there. *)
Definition sourced key (bytes : list Z) t u nd : Prop :=
  hasGetter (nd_cfg nd) = true ∧ (∀ x, t ≤ x ≤ u → nd_source nd x key = LoadOk bytes) ∧ quiet nd.

(** ** The handler of [Get] at the owner *)

Lemma serve_get_miss N c nd t G key :
  N !! cl_addr c = Some nd → name (nd_cfg nd) = G → node_ok nd → routesTo (cl_addr c) (cl_addr c) key nd →
  mainNone nd t key → hasGetter (nd_cfg nd) = false →
  requestError (limits (cl_addr c)) (mkRequest G key [] false) = None →
  ∃ nd' t', call tick limits (cl_addr c) Server_Get getResponseSize (mkRequest G key [] false) N t =
              (<[cl_addr c := nd']> N, t', inl (transport (default (Sentinel ErrCacheMiss) (mapGroupError (Some (Sentinel ErrCacheMiss)))))) ∧
            keeps nd nd' ∧ t ≤ t' ∧ mainNone nd' t' key.
Proof.
  intros Hn Hg Hok Hr Hnone Hget Hreq. unfold call. rewrite Hn, Hreq. cbn [rq_group]. rewrite (GetGroup_same nd G Hg). cbn [Server_Get rq_key].
  pose proof (ends_keeps tick tick_le _ _ _ _ (getLocal_miss_ends tick tick_le (nd_cfg nd) nd t key eq_refl Hok (routesTo_self _ _ _ Hr) Hnone Hget)) as Hends.
  unfold ends in Hends. rewrite interp_bind. destruct (interp (handleNode tick) (getLocal (nd_cfg nd) key) (nd, t)) as [[nd1 t1] r].
  destruct Hends as ((-> & Hm) & K & Ht). by exists nd1, t1.
Qed.

Lemma serve_get_load N c nd t G key bytes :
  N !! cl_addr c = Some nd → name (nd_cfg nd) = G → node_ok nd → routesTo (cl_addr c) (cl_addr c) key nd →
  expiration (nd_cfg nd) ≤ max_int64 → mainNone nd t key → sourced key bytes t (tick (tick (tick t))) nd →
  cache_room (mainCache (nd_group nd)) key (mkByteView bytes) →
  requestError (limits (cl_addr c)) (mkRequest G key [] false) = None → responseError (limits (cl_addr c)) (getResponseSize bytes) = None →
  ∃ nd' t', call tick limits (cl_addr c) Server_Get getResponseSize (mkRequest G key [] false) N t = (<[cl_addr c := nd']> N, t', inr bytes) ∧
            keeps nd nd' ∧ t ≤ t' ∧ (∀ T, before (deadline (nd_cfg nd) t) (T - 1) → ownerOk t' T key (mkByteView bytes) nd').
Proof.
  intros Hn Hg Hok Hr Hexp Hnone (Hget & Hsrc & Hq) Hroom Hreq Hresp. unfold call. rewrite Hn, Hreq. cbn [rq_group]. rewrite (GetGroup_same nd G Hg). cbn [Server_Get rq_key].
  pose proof (ends_keeps tick tick_le _ _ _ _ (getLocal_load_ends tick tick_le (nd_cfg nd) nd t key bytes eq_refl Hok (routesTo_self _ _ _ Hr)
    Hnone Hq Hget Hsrc Hexp Hroom)) as Hends.
  unfold ends in Hends. rewrite interp_bind. destruct (interp (handleNode tick) (getLocal (nd_cfg nd) key) (nd, t)) as [[nd1 t1] r].
  destruct Hends as ((-> & Ho & Hh) & K & Ht). cbn [fst snd] in *. simpl. unfold ByteSlice. rewrite cloneBytes_id. cbn [b]. rewrite Hresp.
  exists nd1, t1. split_and!; [done..|]. intros T HT. split; [by apply Hh|]. right. by rewrite Ho, (kp_picker _ _ K).
Qed.

(** ** The near cache *)

Lemma nearLookup_none R G a o w key (Q : world S → result (option ByteView) → Prop) :
  settled limits R G a o key w → a ≠ o → cleared o (clock w) key (around a w) →
  (∀ w', settled limits R G a o key w' → cleared o (clock w') key (around a w') → same (here w) (here w') →
     clock w' = clock w ∨ clock w' = tick (clock w) → others w' = others w → Q w' (Val None)) →
  cends (nearLookup (nd_cfg (here w)) key (PickOwner key (nd_picker (here w)))) w Q.
Proof.
  intros Hse Hne Hco HQ. unfold nearLookup. destruct (hasNear (nd_cfg (here w))); cbn [negb]; [|cret; apply HQ; by auto].
  assert (around a w !! a = Some (here w)) as Ha by apply lookup_insert_eq.
  destruct (settled_node _ _ _ _ _ _ _ _ _ Hse Ha) as (((Hcl & Hm & Hn) & _) & (_ & _ & _ & Hep & _) & _).
  pose proof (Hco a (here w) Ha) as Hnear. rewrite decide_False in Hnear by done. cstep. rewrite Hep, cache_Get_result by done.
  pose proof (Hnear (tick (clock w)) (tick_le _)) as Hv. unfold nearVal in Hv. rewrite Hv. cstep. cret.
  apply HQ; [|eapply (cleared_here _ (clock w)); [done|apply tick_le|]|done|by right|done].
  - apply settled_here; [done|]. apply keeps_group; simpl; [done|by right|left; by eexists (CGet _ _)].
  - rewrite decide_False by done. intros u Hu. unfold nearVal. simpl. rewrite cache_Get_frame by done. apply Hnear.
    pose proof (tick_le (clock w)). simpl in Hu. lia.
Qed.

(** ** One turn of [Get] *)

(** The branch of [getTurn] that asks the owner. *)
Definition remoteRead (g : config) (last : bool) (ticks : nat) key (r : Pick) (c : option Client) : gprog (option (error + ByteView)) :=
  (bytes <- peerGet g c key ;;
   match bytes with
   | inl err =>
       do (EvStat peerMisses 1) ;;;
       if isTopology err then
         if last then Ret (Some (inl (Sentinel ErrTopologyChanged)))
         else w <- waitForTopologyRetry g ticks (pk_epoch r) ;;
              match w with Some waitErr => Ret (Some (inl waitErr)) | None => Ret None end
       else Ret (Some (inl (Wrap [Lit "get "; Quoted key; Lit " from owner "; Lit (pk_owner r); Lit ": "] err [])))
   | inr bytes =>
       r' <- do (EvPickOwner key) ;;
       if negb (samePick r r') || pk_self r' then Ret None
       else
         do (EvStat peerHits 1) ;;;
         let view := mkByteView (cloneBytes bytes) in
         (if hasNear g
          then now <- do EvNow ;; do (EvNearAddExp (nearKey (pk_epoch r) key) view (time_Add now (nearTTL g)))
          else Ret tt) ;;;
         Ret (Some (inr view))
   end)%prog.

Lemma getTurn_asks R G a o w key last tk (Q : world S → result (option (error + ByteView)) → Prop) :
  settled limits R G a o key w → a ≠ o → cleared o (clock w) key (around a w) →
  (∀ c w', cl_addr c = o → settled limits R G a o key w' → cleared o (clock w') key (around a w') → same (here w) (here w') →
     clock w' = clock w ∨ clock w' = tick (clock w) → others w' = others w →
     cends (remoteRead (nd_cfg (here w')) last tk key (PickOwner key (nd_picker (here w'))) (Some c)) w' Q) →
  cends (getTurn (nd_cfg (here w)) last tk key) w Q.
Proof.
  intros Hse Hne Hco HQ. assert (around a w !! a = Some (here w)) as Ha by apply lookup_insert_eq.
  destruct (settled_node _ _ _ _ _ _ _ _ _ Hse Ha) as (_ & (Hpok & Ho & Hoe & Hep & Hs & Hpeer) & _). destruct (Hpeer Hne) as (c & Hc & Hca).
  unfold getTurn. cstep. rewrite Hpok, Ho, (proj2 (String.eqb_neq _ _) Hoe), Hs, bool_decide_eq_false_2 by done. cbn [negb orb].
  rewrite Hc. apply ends_bind. destruct w as [nd ot t]. cbn [here clock others] in *.
  eapply (nearLookup_none R G a o (mkWorld nd ot t) key); [done..|]. cbn [here clock others].
  intros w1 Hse1 Hco1 [Hcfg Hpick] Ht1 Hoth. specialize (HQ c w1 Hca Hse1 Hco1 (conj Hcfg Hpick) Ht1 Hoth).
  unfold remoteRead in HQ. rewrite Hcfg, Hpick in HQ. by rewrite Ho in HQ.
Qed.

(** How a read without a value leaves the cluster. *)
Definition missed (R : Z) (G a o key : string) w w' : Prop :=
  settled limits R G a o key w' ∧ cleared o (clock w') key (around a w') ∧ same (here w) (here w') ∧
  ∃ nd nd', around a w !! o = Some nd ∧ around a w' !! o = Some nd' ∧ nd_cfg nd' = nd_cfg nd.

Lemma getTurn_miss R G a o w key last tk nd0 :
  settled limits R G a o key w → cleared o (clock w) key (around a w) → around a w !! o = Some nd0 → hasGetter (nd_cfg nd0) = false →
  cends (getTurn (nd_cfg (here w)) last tk key) w (λ w' r,
    ∃ err, r = Val (Some (inl err)) ∧ errors_Is err ErrCacheMiss = true ∧ missed R G a o key w w').
Proof.
  intros Hse Hcl H0 Hget. destruct (decide (a = o)) as [->|Hne].
  - assert (around o w !! o = Some (here w)) as Ha by apply lookup_insert_eq. assert (nd0 = here w) as -> by congruence.
    destruct (settled_node _ _ _ _ _ _ _ _ _ Hse Ha) as (Hok & Hr & _). pose proof (Hcl o (here w) Ha) as Hnone. rewrite decide_True in Hnone by done.
    pose proof (routesTo_self _ _ _ Hr) as Hself. unfold getTurn. cstep. destruct Hr as (Hpok & Ho & Hoe & Hep & Hs & _).
    rewrite Hpok, Ho, (proj2 (String.eqb_neq _ _) Hoe), Hs, bool_decide_eq_true_2 by done. cbn [negb orb].
    apply ends_bind, ends_local; [apply getLocal_local|].
    eapply ends_mono; [apply ends_keeps; [done|]; by apply (getLocal_miss_ends tick tick_le (nd_cfg (here w)) (here w) (clock w) key)|].
    intros [nd1 t1] r ((-> & Hm) & K & Ht). cbn [fst snd] in *. cret. eexists. split_and!; [done|done|].
    split_and!; [by apply (settled_here _ _ _ _ _ _ w)| |split; apply K|].
    + eapply (cleared_here _ (clock w)); [done..|]. by rewrite decide_True.
    + exists (here w), nd1. unfold around. rewrite !lookup_insert_eq. split_and!; [done..|apply K].
  - apply (getTurn_asks R G a o); [done..|]. intros c w1 Hca Hse1 Hcl1 Hsame Ht1 Hoth. destruct Hca.
    destruct (settled_owner_other _ _ _ _ _ _ _ Hse1 Hne) as (ndo & Hndo & Haro).
    assert (nd0 = ndo) as -> by (unfold around in H0; rewrite lookup_insert_ne in H0 by done; rewrite Hoth in Hndo; congruence).
    destruct (settled_node _ _ _ _ _ _ _ _ _ Hse1 Haro) as (Hoko & Hro & Hnameo & _).
    assert (around a w1 !! a = Some (here w1)) as Ha by apply lookup_insert_eq.
    destruct (settled_node _ _ _ _ _ _ _ _ _ Hse1 Ha) as (_ & _ & Hname & _).
    pose proof (Hcl1 _ _ Haro) as Hnone. rewrite decide_True in Hnone by done.
    destruct (serve_get_miss (others w1) c ndo (clock w1) G key Hndo Hnameo Hoko Hro Hnone Hget
      (se_request _ _ _ _ _ _ _ Hse1 _ (elem_of_dom_2 _ _ _ Haro))) as (ndo' & t' & Hcall & Ko & Ht & Hm).
    unfold remoteRead. cbn [peerGet]. cstep. rewrite Hname, Hcall. cbn [Client_Get fst snd]. rewrite client_remoteError.
    assert (∀ s, errors_Is (remoteError "grpc get from " (cl_addr c) (Sentinel ErrCacheMiss)) s = bool_decide (ErrCacheMiss = s)) as Hs.
    { intros s. rewrite remoteError_Is by done. apply bool_decide_ext. change (remoteSentinel _) with (Some ErrCacheMiss). naive_solver. }
    generalize dependent (remoteError "grpc get from " (cl_addr c) (Sentinel ErrCacheMiss)). intros err Hs.
    cstep. unfold isTopology. rewrite !Hs. cbn [bool_decide orb]. cret. eexists. split_and!; [done|cbn [errors_Is]; by rewrite Hs|].
    set (w2 := mkWorld (here w1) (<[cl_addr c := ndo']> (others w1)) t').
    assert (settled limits R G a (cl_addr c) key w2) as Hse2 by (by eapply settled_other).
    assert (cleared (cl_addr c) (clock w2) key (around a w2)) as Hcl2 by (by eapply (cleared_owner _ (clock w1))).
    set (nd3 := mkNode _ (addStat peerMisses 1 _) _ _).
    assert (keeps (here w2) nd3) as K3 by (apply keeps_group; [done|by right..]).
    split_and!; [by apply (settled_here _ _ _ _ _ _ w2)| |by destruct Hsame..|].
    + eapply (cleared_here _ (clock w2) _ _ _ w2); [done|reflexivity|]. rewrite decide_False by done.
      pose proof (Hcl1 _ _ Ha) as Hnn. rewrite decide_False in Hnn by done. by eapply (nearNone_later _ (clock w1)).
    + exists ndo, ndo'. unfold around in *. simpl. rewrite !lookup_insert_ne by done. rewrite lookup_insert_eq. rewrite <-Hoth. split_and!; [done..|apply Ko].
Qed.

(** The owner has loaded the value and nobody else holds one. *)
Lemma cleared_filled o t t' T key v N nd :
  cleared o t key N → t ≤ t' → ownerOk t' T key v nd → coherent o t' T key v (<[o := nd]> N).
Proof.
  intros Hcl Ht Ho n x Hx. case_decide as Hno; [subst n; by simplify_map_eq|]. rewrite lookup_insert_ne in Hx by done.
  pose proof (Hcl n x Hx) as Hn. rewrite decide_False in Hn by done. intros u Hu. left. apply Hn. lia.
Qed.

(** Three readings of the clock from now, or from its next reading, are among
    the next four. *)
Lemma sourced_shift key bytes t t' nd :
  sourced key bytes t (Nat.iter 4 tick t) nd → t' = t ∨ t' = tick t → sourced key bytes t' (tick (tick (tick t'))) nd.
Proof.
  intros (Hget & Hsrc & Hq) Ht. split_and!; [done| |done]. intros x Hx. apply Hsrc. simpl.
  pose proof (tick_le t). pose proof (tick_le (tick (tick (tick t)))). destruct Ht as [->| ->]; lia.
Qed.

Lemma getTurn_load R G a o w T key bytes last tk nd0 :
  settled limits R G a o key w → cleared o (clock w) key (around a w) → around a w !! o = Some nd0 →
  sourced key bytes (clock w) (Nat.iter 4 tick (clock w)) nd0 → storable (clock w) T key (mkByteView bytes) nd0 →
  responseError (limits o) (getResponseSize bytes) = None →
  cends (getTurn (nd_cfg (here w)) last tk key) w (λ w' r,
    r = Val (Some (inr (mkByteView bytes))) ∧ after limits R G a o key T (mkByteView bytes) w w').
Proof.
  intros Hse Hcl H0 Hsrc [Hroom Hdl] Hresp. destruct (decide (a = o)) as [->|Hne].
  - assert (around o w !! o = Some (here w)) as Ha by apply lookup_insert_eq. assert (nd0 = here w) as -> by congruence.
    destruct (settled_node _ _ _ _ _ _ _ _ _ Hse Ha) as (Hok & Hr & _ & Hexp). pose proof (Hcl o (here w) Ha) as Hnone. rewrite decide_True in Hnone by done.
    pose proof (routesTo_self _ _ _ Hr) as Hself. unfold getTurn. cstep. destruct Hr as (Hpok & Ho & Hoe & Hep & Hs & _).
    rewrite Hpok, Ho, (proj2 (String.eqb_neq _ _) Hoe), Hs, bool_decide_eq_true_2 by done. cbn [negb orb].
    apply ends_bind, ends_local; [apply getLocal_local|]. apply (sourced_shift _ _ _ (clock w)) in Hsrc as (Hget & Hsrc & Hq); [|by left].
    eapply ends_mono; [apply ends_keeps; [done|]; by apply (getLocal_load_ends tick tick_le (nd_cfg (here w)) (here w) (clock w) key bytes)|].
    intros [nd1 t1] r ((-> & Ho1 & Hh) & K & Ht). cbn [fst snd] in *. cret. split; [done|].
    split_and!; [by apply (settled_here _ _ _ _ _ _ w)| |apply K..]. unfold around in *. cbn [here others clock].
    rewrite <-(insert_insert_eq _ o nd1 (here w)). eapply cleared_filled; [done..|]. split; [by apply Hh|].
    right. by rewrite Ho1, (kp_picker _ _ K).
  - apply (getTurn_asks R G a o); [done..|]. intros c w1 Hca Hse1 Hcl1 [Hc1 Hp1] Ht1 Hoth. destruct Hca.
    destruct (settled_owner_other _ _ _ _ _ _ _ Hse1 Hne) as (ndo & Hndo & Haro).
    assert (nd0 = ndo) as -> by (unfold around in H0; rewrite lookup_insert_ne in H0 by done; rewrite Hoth in Hndo; congruence).
    destruct (settled_node _ _ _ _ _ _ _ _ _ Hse1 Haro) as (Hoko & Hro & Hnameo & Hexpo).
    assert (around a w1 !! a = Some (here w1)) as Ha by apply lookup_insert_eq.
    destruct (settled_node _ _ _ _ _ _ _ _ _ Hse1 Ha) as (_ & _ & Hname & _).
    pose proof (Hcl1 _ _ Haro) as Hnone. rewrite decide_True in Hnone by done.
    destruct (serve_get_load (others w1) c ndo (clock w1) G key bytes Hndo Hnameo Hoko Hro Hexpo Hnone (sourced_shift _ _ _ _ _ Hsrc Ht1) Hroom
      (se_request _ _ _ _ _ _ _ Hse1 _ (elem_of_dom_2 _ _ _ Haro)) Hresp) as (ndo' & t' & Hcall & Ko & Ht & Hown).
    assert (clock w ≤ clock w1) as Ht1' by (destruct Ht1 as [->| ->]; [lia|apply tick_le]).
    unfold remoteRead. cbn [peerGet]. cstep. rewrite Hname, Hcall. cbn [Client_Get fst snd].
    set (w2 := mkWorld (here w1) (<[cl_addr c := ndo']> (others w1)) t').
    assert (settled limits R G a (cl_addr c) key w2) as Hse2 by (by eapply settled_other).
    assert (coherent (cl_addr c) (clock w2) T key (mkByteView bytes) (around a w2)) as Hco2.
    { unfold around. simpl. rewrite insert_insert_ne by done. eapply cleared_filled; [done..|]. apply Hown. by eapply deadline_later. }
    eapply ends_mono; [by apply (getFill_ends tick limits tick_le R G a (cl_addr c) w2 T key (mkByteView bytes))|].
    intros w4 r (-> & Hse4 & Hco4 & Hc4 & Hp4). split; [done|]. split_and!; [done|done|by rewrite Hc4|by rewrite Hp4].
Qed.

(** ** Get *)

(** A turn that decides ends the loop of [Get]. *)
Lemma Get_turn R G a o w key ticks (Q : world S → error + ByteView → Prop) :
  settled limits R G a o key w → key ≠ "" →
  cends (getTurn (nd_cfg (here w)) false (ticks 3%nat) key) w (λ w' r, ∃ x, r = Val (Some x) ∧ Q w' x) →
  cends (Group.Get (nd_cfg (here w)) ticks key) w (λ w' r, ∃ x, r = Val x ∧ Q w' x).
Proof.
  intros Hse Hk Hturn. assert (around a w !! a = Some (here w)) as Ha by apply lookup_insert_eq.
  destruct (settled_node _ _ _ _ _ _ _ _ _ Hse Ha) as (((Hcl & _) & Hp & _) & _).
  unfold Group.Get. cstep. rewrite Hcl, decide_False, Hp by done. cbn [negb getLoop]. apply ends_bind.
  destruct w as [nd ot t]. eapply ends_mono; [exact Hturn|]. intros w' r (x & -> & HQ). cret. by exists x.
Qed.

(** ** Operations on a whole cluster *)

Lemma runAt_world {A} (p : config → gprog A) (cl : cluster S) a nd (Q : world S → result A → Prop) :
  nodes cl !! a = Some nd → cends (p (nd_cfg nd)) (mkWorld nd (delete a (nodes cl)) (now cl)) Q →
  ∃ w r, runAt tick limits a p cl = Some (mkCluster (around a w) (clock w), r) ∧ Q w r.
Proof. intros Ha Hends. unfold runAt. rewrite Ha. simpl. unfold ends in Hends. destruct (interp _ _ _) as [w r]. by exists w, r. Qed.

Lemma settled_dom R G a o key w : settled limits R G a o key w → dom (around a w) = members (nd_picker (here w)).
Proof. intros Hse. by destruct (cn_node _ _ _ (se_conn _ _ _ _ _ _ _ Hse) a (here w) (lookup_insert_eq _ _ _)) as (_ & _ & _ & Hm & _). Qed.

(** The cluster is connected, [o] owns the key, nobody holds it, and the owner
    is as [P] says. *)
Definition vacant (R : Z) (G o key : string) (P : node S → Prop) (cl : cluster S) : Prop :=
  connected R G (nodes cl) ∧ (∀ n nd, nodes cl !! n = Some nd → routesTo n o key nd) ∧
  cleared o (now cl) key (nodes cl) ∧ (∀ n, n ∈ dom (nodes cl) → requestError (limits n) (mkRequest G key [] false) = None) ∧
  ∃ nd, nodes cl !! o = Some nd ∧ P nd.

(** Reads of the key at the nodes [bs], one after the other: each of them
    reports a miss. *)
Fixpoint readsMiss (bs : list string) (ticks : nat → nat) key (cl : cluster S) : Prop :=
  match bs with
  | [] => True
  | b :: bs =>
      ∃ cl' err, runAt tick limits b (λ g, Group.Get g ticks key) cl = Some (cl', Val (inl err)) ∧
                 errors_Is err ErrCacheMiss = true ∧ readsMiss bs ticks key cl'
  end.

Lemma vacant_misses R G o key bs ticks (cl : cluster S) :
  key ≠ "" → vacant R G o key (λ nd, hasGetter (nd_cfg nd) = false) cl → Forall (λ b, b ∈ dom (nodes cl)) bs →
  readsMiss bs ticks key cl.
Proof.
  intros Hk. revert cl. induction bs as [|b bs IH]; intros cl (Hcn & Hr & Hcl & Hq & nd0 & H0 & Hget) Hall; [done|]. cbn [readsMiss].
  apply Forall_cons in Hall as [[nd Hnd]%elem_of_dom Hall].
  pose proof (connected_settled limits R G cl b nd o key Hcn Hnd ltac:(by eapply elem_of_dom_2) Hr Hq) as Hse.
  set (w0 := mkWorld _ _ _) in Hse. assert (around b w0 = nodes cl) as Hw0 by (by apply around_self).
  destruct (runAt_world (λ g, Group.Get g ticks key) cl b nd (λ w r, ∃ x, r = Val x ∧
    ∃ err, x = inl err ∧ errors_Is err ErrCacheMiss = true ∧ missed R G b o key w0 w)) as (w & r & Hrun & _ & -> & err & -> & Herr & Hm); [done| |].
  { apply (Get_turn R G b o w0); [done..|]. eapply ends_mono; [apply (getTurn_miss R G b o w0 key _ _ nd0 Hse); [..|done]|].
    - by rewrite Hw0.
    - by rewrite Hw0.
    - intros w r (err & -> & Herr & Hm). by eauto 6. }
  destruct Hm as (Hse' & Hcl' & [_ Hp'] & x & x' & Hx & Hx' & Hcfg). rewrite Hw0 in Hx. simplify_eq.
  eexists _, err. split_and!; [exact Hrun|done|]. apply IH.
  - split_and!; [apply Hse'|apply Hse'|done|apply Hse'|]. exists x'. by rewrite Hcfg.
  - cbn [nodes]. rewrite (settled_dom _ _ _ _ _ _ Hse'), Hp'. rewrite <-(settled_dom _ _ _ _ _ _ Hse). by rewrite Hw0.
Qed.

Lemma vacant_loads R G o key T bytes b ticks (cl : cluster S) :
  key ≠ "" → vacant R G o key (λ nd, sourced key bytes (now cl) (Nat.iter 4 tick (now cl)) nd ∧ storable (now cl) T key (mkByteView bytes) nd) cl →
  responseError (limits o) (getResponseSize bytes) = None → b ∈ dom (nodes cl) →
  ∃ cl', runAt tick limits b (λ g, Group.Get g ticks key) cl = Some (cl', Val (inr (mkByteView bytes))) ∧
         serves limits R G o key T (mkByteView bytes) cl' ∧ dom (nodes cl') = dom (nodes cl).
Proof.
  intros Hk (Hcn & Hr & Hcl & Hq & nd0 & H0 & Hsrc & Hst) Hresp [nd Hnd]%elem_of_dom.
  pose proof (connected_settled limits R G cl b nd o key Hcn Hnd ltac:(by eapply elem_of_dom_2) Hr Hq) as Hse.
  set (w0 := mkWorld _ _ _) in Hse. assert (around b w0 = nodes cl) as Hw0 by (by apply around_self).
  apply (runAt_ends tick limits (λ g, Group.Get g ticks key) R G o key T (mkByteView bytes) cl b nd (Val (inr (mkByteView bytes))) Hcn Hnd).
  eapply ends_mono; [apply (Get_turn R G b o w0 key ticks (λ w x, x = inr (mkByteView bytes) ∧ after limits R G b o key T (mkByteView bytes) w0 w)); [done..|]|].
  - eapply ends_mono; [apply (getTurn_load R G b o w0 T key bytes _ _ nd0 Hse); [..|done|done|done]|].
    + by rewrite Hw0.
    + by rewrite Hw0.
    + intros w r [-> Haf]. by eauto.
  - by intros w r (_ & -> & -> & Haf).
Qed.

Lemma reads_after_delete R G (cl : cluster S) a bs key ticks ticks' :
  connected R G (nodes cl) → a ∈ dom (nodes cl) → Forall (λ b, b ∈ dom (nodes cl)) bs → key ≠ "" →
  (∀ n, n ∈ dom (nodes cl) → requestError (limits n) (mkRequest G key [] false) = None) →
  ∃ cl', runAt tick limits a (λ g, Group.Delete g ticks key) cl = Some (cl', Val None) ∧
    ((∀ n nd, nodes cl !! n = Some nd → pk_self (PickOwner key (nd_picker nd)) = true → hasGetter (nd_cfg nd) = false) →
       readsMiss bs ticks' key cl') ∧
    (∀ b bytes T, b ∈ dom (nodes cl) →
       (∀ n nd, nodes cl !! n = Some nd → pk_self (PickOwner key (nd_picker nd)) = true →
          sourced key bytes (now cl') (Nat.iter 4 tick (now cl')) nd ∧ storable (now cl') T key (mkByteView bytes) nd ∧
          responseError (limits n) (getResponseSize bytes) = None) →
       ∃ cl'', runAt tick limits b (λ g, Group.Get g ticks' key) cl' = Some (cl'', Val (inr (mkByteView bytes))) ∧
               readsReturn tick limits bs ticks' key (mkByteView bytes) T cl'').
Proof.
  intros Hcn [nd Ha]%elem_of_dom Hbs Hk Hreq.
  destruct (connected_routes limits R G (nodes cl) key Hcn) as (o & Ho & Hr); [by intros He; rewrite He, lookup_empty in Ha|done|].
  pose proof (connected_settled limits R G cl a nd o key Hcn Ha Ho Hr Hreq) as Hse.
  set (w0 := mkWorld _ _ _) in Hse. assert (around a w0 = nodes cl) as Hw0 by (by apply around_self).
  pose proof Ho as [nd0 H0]%elem_of_dom. assert (pk_self (PickOwner key (nd_picker nd0)) = true) as Hself.
  { destruct (Hr o nd0 H0) as (_ & _ & _ & _ & -> & _). by rewrite bool_decide_eq_true_2. }
  destruct (runAt_world (λ g, Group.Delete g ticks key) cl a nd (λ w r, r = Val None ∧ removed limits R G a o key nd0 w0 w))
    as (w & r & Hrun & -> & Hse' & Hcl & [_ Hp] & _ & nd' & Hnd' & K & Hq); [done| |].
  { apply (Delete_ends tick limits tick_le R G a o w0 key ticks nd0 Hse); [done|by rewrite Hw0|]. intros x. by eapply requestError_delete, Hreq. }
  assert (dom (around a w) = dom (nodes cl)) as Hdom.
  { rewrite (settled_dom _ _ _ _ _ _ Hse'), Hp, <-(settled_dom _ _ _ _ _ _ Hse). by rewrite Hw0. }
  assert (∀ P : node S → Prop, P nd' → vacant R G o key P (mkCluster (around a w) (clock w))) as Hvac.
  { intros P HP. split_and!; [apply Hse'|apply Hse'|done|apply Hse'|by exists nd']. }
  eexists. split_and!; [exact Hrun|intros Hget|intros b bytes T Hb Hsrc].
  - eapply vacant_misses; [done|apply Hvac|cbn [nodes]; by rewrite Hdom]. rewrite (kp_cfg _ _ K). by eapply Hget.
  - destruct (Hsrc o nd0 H0 Hself) as [(Hget & Hld & Hq0) [[Hroom Hdl] Hresp]].
    destruct (vacant_loads R G o key T bytes b ticks' (mkCluster (around a w) (clock w)) Hk) as (cl2 & Hget2 & Hserves & Hdom2).
    + apply Hvac. unfold sourced, storable. rewrite (kp_cfg _ _ K), (kp_source _ _ K). split_and!; [done..|by apply Hq| |done].
      apply (kp_room _ _ K); [|done]. destruct (cn_node _ _ _ Hcn o nd0 H0) as ((Hwf & _) & _). done.
    + done.
    + cbn [nodes]. by rewrite Hdom.
    + exists cl2. split; [done|]. cbn [nodes] in Hdom2. eapply serves_reads; [done|done| |done|done|]; by rewrite Hdom2, Hdom.
Qed.

(** [C7] Delete, then read, cluster-wide.  Operations run one at a time in a
    connected cluster, and requests with the group's name and the key, which is
    not empty, are encodable (UTF-8) and pass the message limits.  A [Delete] at any node succeeds and clears the key at its
    owner and from every near cache.  When the owner has no source and only
    [Get]s of the key follow, each of them, at whatever nodes, reports a miss.
    When it has one, no load was in flight there, the source answers the value
    [bytes] during the next four readings of the clock, the value fits the
    owner's cache and the message limits, and only [Get]s of the key follow, then
    the first [Get], wherever it is called, returns [bytes], and every later one
    returns the same until the value expires, whatever the source would answer
    by then. *)
Theorem cluster_reads_after_delete R G (cl : cluster S) a bs key ticks ticks' :
  connected R G (nodes cl) → a ∈ dom (nodes cl) → Forall (λ b, b ∈ dom (nodes cl)) bs → key ≠ "" →
  (∀ n, n ∈ dom (nodes cl) → requestError (limits n) (mkRequest G key [] false) = None) →
  ∃ cl', runAt tick limits a (λ g, Group.Delete g ticks key) cl = Some (cl', Val None) ∧
    ((∀ n nd, nodes cl !! n = Some nd → pk_self (PickOwner key (nd_picker nd)) = true → hasGetter (nd_cfg nd) = false) →
       readsMiss bs ticks' key cl') ∧
    (∀ b bytes T, b ∈ dom (nodes cl) →
       (∀ n nd, nodes cl !! n = Some nd → pk_self (PickOwner key (nd_picker nd)) = true →
          sourced key bytes (now cl') (Nat.iter 4 tick (now cl')) nd ∧ storable (now cl') T key (mkByteView bytes) nd ∧
          responseError (limits n) (getResponseSize bytes) = None) →
       ∃ cl'', runAt tick limits b (λ g, Group.Get g ticks' key) cl' = Some (cl'', Val (inr (mkByteView bytes))) ∧
               readsReturn tick limits bs ticks' key (mkByteView bytes) T cl'').
Proof. by apply reads_after_delete. Qed.
End facts.

(** The source of the witness changes its answer. *)
Definition w_source (t : Z) : list Z := if t <=? 40 then [1] else [2].

Lemma cluster_reads_after_delete_witness :
  (∃ cl', @runAt _ _ grpc_impl Z.succ w_limits _ "10.0.0.8:8001" (λ g, Group.Delete g (λ _, 0%nat) "k") (w_cluster None) = Some (cl', Val None) ∧
          @readsMiss _ _ grpc_impl Z.succ w_limits ["10.0.0.7:8001"; "10.0.0.8:8001"] (λ _, 0%nat) "k" cl') ∧
  (∃ cl' cl'', @runAt _ _ grpc_impl Z.succ w_limits _ "10.0.0.7:8001" (λ g, Group.Delete g (λ _, 0%nat) "k") (w_cluster (Some w_source)) = Some (cl', Val None) ∧
          @runAt _ _ grpc_impl Z.succ w_limits _ "10.0.0.8:8001" (λ g, Group.Get g (λ _, 0%nat) "k") cl' = Some (cl'', Val (inr (mkByteView [1]))) ∧
          @readsReturn _ _ grpc_impl Z.succ w_limits (replicate 20 "10.0.0.7:8001") (λ _, 0%nat) "k" (mkByteView [1]) 90 cl'').
Proof.
  assert (∀ source, "10.0.0.7:8001" ∈ dom (nodes (w_cluster source)) ∧ "10.0.0.8:8001" ∈ dom (nodes (w_cluster source))) as Hin.
  { intros source. cbn [w_cluster nodes]. set_solver. }
  split.
  - destruct (@cluster_reads_after_delete _ _ _ _ grpc_impl grpc_impl_laws Z.succ w_limits (λ t, Z.le_succ_diag_r t) 2 "scores" (w_cluster None)
      "10.0.0.8:8001" ["10.0.0.7:8001"; "10.0.0.8:8001"] "k" (λ _, 0%nat) (λ _, 0%nat)) as (cl' & Hrun & Hmiss & _).
    + apply w_cluster_connected.
    + exact (proj2 (Hin None)).
    + constructor; [exact (proj1 (Hin None))|]. constructor; [exact (proj2 (Hin None))|]. constructor.
    + done.
    + intros n _. by vm_compute.
    + exists cl'. split; [exact Hrun|]. apply Hmiss. intros n nd Hn _. by apply w_node_in in Hn as [[-> ->]|[-> ->]].
  - destruct (@cluster_reads_after_delete _ _ _ _ grpc_impl grpc_impl_laws Z.succ w_limits (λ t, Z.le_succ_diag_r t) 2 "scores" (w_cluster (Some w_source))
      "10.0.0.7:8001" (replicate 20 "10.0.0.7:8001") "k" (λ _, 0%nat) (λ _, 0%nat)) as (cl' & Hrun & _ & Hload).
    + apply w_cluster_connected.
    + exact (proj1 (Hin (Some w_source))).
    + apply Forall_replicate, (proj1 (Hin (Some w_source))).
    + done.
    + intros n _. by vm_compute.
    + assert (now cl' = 0) as Hnow.
      { assert (now <$> (fst <$> @runAt _ _ grpc_impl Z.succ w_limits _ "10.0.0.7:8001" (λ g, Group.Delete g (λ _, 0%nat) "k") (w_cluster (Some w_source))) = Some 0) as Hx
          by (vm_compute; reflexivity).
        rewrite Hrun in Hx. by injection Hx. }
      destruct (Hload "10.0.0.8:8001" [1] 90) as (cl'' & Hget & Hreads);
        [exact (proj2 (Hin (Some w_source)))| |exists cl', cl''; split; [exact Hrun|split; [exact Hget|exact Hreads]]].
      rewrite Hnow. intros n nd Hn _. apply w_node_in in Hn as [[-> ->]|[-> ->]];
        (split; [split; [reflexivity|split; [|reflexivity]]|split; [split; [exact wc_room|by vm_compute]|by vm_compute]]);
        (intros x Hx; change (LoadOk (w_source x) = LoadOk [1]); unfold w_source; cbn in Hx; rewrite (proj2 (Z.leb_le x 40)) by lia; reflexivity).
Defined.
