(* ===== verification/Interleave.v ===== *)
(** * Interleavings of goroutines

    Any number of goroutines, each a program, run on one shared state.  A step
    is one event of one goroutine: [effect] says whether the event can happen
    now, what it does to the shared state and which answer it has, if the state
    determines it; every other answer is possible.

    The programs are verified one by one against a discipline: [obey] says which
    events a goroutine may perform and how they change what it has ([Loc]).  A
    component that uses this file proves that its programs keep the discipline
    ([obeys]) and that a step that obeys keeps its invariant of the shared state
    and of what the goroutines have. *)

From S2P Require Import Prelude Prog.

(** ** Steps and runs *)

Record system {E : Type} (ans : E → Type) (Sh : Type) := mkSystem { sy_shared : Sh; sy_pool : gmap nat (prog ans unit) }.
Arguments mkSystem {E ans Sh}.
Arguments sy_shared {E ans Sh}.
Arguments sy_pool {E ans Sh}.

Definition finished {E} {ans : E → Type} {A} (p : prog ans A) : bool := match p with Vis _ _ => false | _ => true end.

Section machine.
Context {E : Type} {ans : E → Type} {Sh : Type}.
Context (effect : nat → ∀ e : E, Sh → option (Sh * option (ans e))).
Notation system := (system ans Sh).
Notation trace := (list (nat * act (ans := ans))).
Implicit Types (c : system) (tr : trace) (t : nat).

Inductive sysStep c : nat * act (ans := ans) → system → Prop :=
| sys_step t e k s' forced x :
    sy_pool c !! t = Some (Vis e k) → effect t e (sy_shared c) = Some (s', forced) →
    (∀ y, forced = Some y → x = y) →
    sysStep c (t, did e x) (mkSystem s' (<[t := k x]> (sy_pool c))).

(** [sysRun c tr c']: from [c] the events [tr], in this order, lead to [c']. *)
Inductive sysRun c : trace → system → Prop :=
| sysRun_nil : sysRun c [] c
| sysRun_snoc tr c1 a c2 : sysRun c tr c1 → sysStep c1 a c2 → sysRun c (tr ++ [a]) c2.

(** One step of goroutine [t], with the answers that are free chosen by [choose]. *)
Definition stepOnce (choose : nat → ∀ e, ans e) t c : option (act (ans := ans) * system) :=
  match sy_pool c !! t with
  | Some (Vis e k) =>
      match effect t e (sy_shared c) with
      | Some (s', forced) =>
          let x := match forced with Some y => y | None => choose t e end in
          Some (did e x, mkSystem s' (<[t := k x]> (sy_pool c)))
      | None => None
      end
  | _ => None
  end.

(** Run a schedule. *)
Fixpoint execute (choose : nat → ∀ e, ans e) (sched : list nat) c : option (trace * system) :=
  match sched with
  | [] => Some ([], c)
  | t :: sched =>
      match stepOnce choose t c with
      | Some (a, c1) =>
          match execute choose sched c1 with Some (tr, c2) => Some ((t, a) :: tr, c2) | None => None end
      | None => None
      end
  end.

Lemma stepOnce_step choose t c a c' : stepOnce choose t c = Some (a, c') → sysStep c (t, a) c'.
Proof.
  unfold stepOnce. destruct (sy_pool c !! t) as [[| |e k]|] eqn:Hp; try done.
  destruct (effect t e (sy_shared c)) as [[s' forced]|] eqn:He; [|done]. intros [= <- <-].
  econstructor; [done|done|]. by intros y ->.
Qed.

Lemma sysRun_trans c tr1 c1 tr2 c2 : sysRun c tr1 c1 → sysRun c1 tr2 c2 → sysRun c (tr1 ++ tr2) c2.
Proof.
  intros H1 H2. induction H2 as [|tr2 c2 a c3 H2 IH Hs]; [by rewrite app_nil_r|]. rewrite app_assoc. by eapply sysRun_snoc.
Qed.
Lemma sysRun_one c a c' : sysStep c a c' → sysRun c [a] c'.
Proof. intros Hs. apply (sysRun_snoc _ [] c); [constructor|done]. Qed.

(** Runs from the back. *)
Lemma sysRun_last c tr a c' : sysRun c (tr ++ [a]) c' → ∃ c1, sysRun c tr c1 ∧ sysStep c1 a c'.
Proof.
  intros Hrun. inversion Hrun as [Hnil|tr' c1 a' c2 Hrun' Hstep Heq]; [by destruct tr|]. subst.
  apply app_inj_tail in Heq as [-> ->]. eauto.
Qed.

Lemma sysRun_app c tr1 tr2 c' : sysRun c (tr1 ++ tr2) c' → ∃ c1, sysRun c tr1 c1 ∧ sysRun c1 tr2 c'.
Proof.
  revert c'. induction tr2 as [|a tr2 IH] using rev_ind; intros c' Hrun.
  - rewrite app_nil_r in Hrun. exists c'. split; [done|constructor].
  - rewrite app_assoc in Hrun. apply sysRun_last in Hrun as (c2 & (c1 & H1 & H2)%IH & Hs). exists c1. split; [done|]. by eapply sysRun_snoc.
Qed.
Lemma sysRun_cons c a tr c' : sysRun c (a :: tr) c' → ∃ c1, sysStep c a c1 ∧ sysRun c1 tr c'.
Proof.
  intros (c1 & H1 & H2)%(sysRun_app c [a] tr). exists c1. split; [|done].
  apply (sysRun_last c [] a) in H1 as (c0 & H0 & Hs). inversion H0 as [|tr0 ? ? ? ? ? Heq]; [by subst|by destruct tr0].
Qed.

(** A goroutine performs events of its program only. *)
Lemma sysRun_every (P : E → Prop) c tr c' t p :
  sysRun c tr c' → sy_pool c !! t = Some p → every P p → ∀ a, (t, a) ∈ tr → P (projT1 a).
Proof.
  intros Hrun Hp HP. enough ((∃ p', sy_pool c' !! t = Some p' ∧ every P p') ∧ ∀ a, (t, a) ∈ tr → P (projT1 a)) as [_ ?] by done.
  induction Hrun as [|tr c1 a c2 Hrun IH Hs]; [split; [eauto|]; by intros ? ?%elem_of_nil|]. destruct IH as [(p1 & Hp1 & HP1) IH].
  destruct Hs as [u e k s' forced x Hu _ _]. cbn [sy_pool]. destruct (decide (u = t)) as [->|Hne].
  - rewrite Hu in Hp1. injection Hp1 as <-. destruct HP1 as [He Hk]. split; [exists (k x); by rewrite lookup_insert_eq|].
    intros a [Hin|Hin]%elem_of_app; [by apply IH|]. by apply list_elem_of_singleton in Hin as [= ->].
  - split; [exists p1; by rewrite lookup_insert_ne|]. intros a [Hin|Hin]%elem_of_app; [by apply IH|].
    by apply list_elem_of_singleton in Hin as [= <- _].
Qed.

(** What is left of a program performs events of the program only. *)
Lemma sysRun_pool_every (P : E → Prop) c tr c' t p :
  sysRun c tr c' → sy_pool c !! t = Some p → every P p → ∃ p', sy_pool c' !! t = Some p' ∧ every P p'.
Proof.
  intros Hrun Hp HP. induction Hrun as [|tr c1 a c2 Hrun (p1 & Hp1 & HP1) Hs]; [eauto|].
  destruct Hs as [u e k s' forced x Hu _ _]. cbn [sy_pool]. destruct (decide (u = t)) as [->|Hne].
  - rewrite Hu in Hp1. injection Hp1 as <-. destruct HP1 as [_ Hk]. exists (k x). by rewrite lookup_insert_eq.
  - exists p1. by rewrite lookup_insert_ne.
Qed.
Lemma pool_kept c tr c' t p : sysRun c tr c' → sy_pool c !! t = Some p → is_Some (sy_pool c' !! t).
Proof.
  intros Hrun Hp. induction Hrun as [|tr c1 a c2 Hrun [p1 Hp1] Hs]; [eauto|]. destruct Hs as [u e k s' forced x Hu _ _]. cbn [sy_pool].
  destruct (decide (u = t)) as [->|Hne]; [rewrite lookup_insert_eq|rewrite lookup_insert_ne by done]; eauto.
Qed.

Lemma execute_run choose sched c tr c' : execute choose sched c = Some (tr, c') → sysRun c tr c'.
Proof.
  revert c tr. induction sched as [|t sched IH]; intros c tr; cbn [execute]; [intros [= <- <-]; constructor|].
  destruct (stepOnce choose t c) as [[a c1]|] eqn:Hs; [|done].
  destruct (execute choose sched c1) as [[tr' c2]|] eqn:He; [|done]. intros [= <- <-].
  apply (sysRun_trans _ [(t, a)] c1); [|by apply IH]. by eapply sysRun_one, stepOnce_step.
Qed.

(** The result of a schedule that can be run, for concrete runs. *)
Definition outcomeOf (choose : nat → ∀ e, ans e) (sched : list nat) c : trace * system := default ([], c) (execute choose sched c).
Lemma outcomeOf_run choose sched c :
  bool_decide (is_Some (execute choose sched c)) = true →
  sysRun c (outcomeOf choose sched c).1 (outcomeOf choose sched c).2.
Proof. intros [[tr c'] He]%bool_decide_eq_true. unfold outcomeOf. rewrite He. by eapply execute_run. Qed.

(** ** Progress *)

(** Some goroutine can take a step. *)
Definition canStep c : Prop := ∃ a c', sysStep c a c'.

Lemma enabled_step (some : ∀ e, ans e) c t e k :
  sy_pool c !! t = Some (Vis e k) → is_Some (effect t e (sy_shared c)) → canStep c.
Proof.
  intros Hp [[s' forced] He]. eexists (t, did e (default (some e) forced)), _. econstructor; [done|done|]. by intros y ->.
Qed.

Definition allFinished c : bool := bool_decide (map_Forall (λ _ p, finished p = true) (sy_pool c)).

Lemma allFinished_at c t p : allFinished c = true → sy_pool c !! t = Some p → finished p = true.
Proof. intros Hf%bool_decide_eq_true. apply Hf. Qed.
Lemma unfinished c : allFinished c = false → ∃ t p, sy_pool c !! t = Some p ∧ finished p = false.
Proof.
  intros Hn%bool_decide_eq_false. apply map_not_Forall in Hn as (t & p & Hp & Hf); [|apply _].
  exists t, p. split; [done|]. by apply not_true_iff_false.
Qed.

(** One event of a program. *)
Definition sub {A} (p' p : prog ans A) : Prop := match p with Vis e k => ∃ x, p' = k x | _ => False end.

Lemma sub_wf {A} (p : prog ans A) : Acc sub p.
Proof.
  induction p as [a|v|e k IH]; constructor; [by intros ? []|by intros ? []|]. intros p' [x ->]. apply IH.
Qed.

Definition poolStep (m' m : gmap nat (prog ans unit)) : Prop := ∃ t p p', m !! t = Some p ∧ sub p' p ∧ m' = <[t := p']> m.

Lemma poolStep_insert t m p : Acc poolStep m → m !! t = None → Acc poolStep (<[t := p]> m).
Proof.
  intros Hm. revert p. induction Hm as [m _ IHm]. intros p Ht. induction (sub_wf p) as [p _ IHp].
  constructor. intros m' (u & q & q' & Hu & Hs & ->). apply lookup_insert_Some in Hu as [[<- <-]|[Hne Hu]].
  - rewrite insert_insert_eq. by apply IHp.
  - rewrite insert_insert_ne by done. apply IHm; [by exists u, q, q'|by rewrite lookup_insert_ne].
Qed.
Lemma poolStep_wf m : Acc poolStep m.
Proof.
  induction m as [|t p m Ht IH] using map_ind; [|exact (poolStep_insert t m p IH Ht)].
  constructor. intros m' (t & p & p' & Hp & _). by rewrite lookup_empty in Hp.
Qed.

(** [after c' c]: a step leads from [c] to [c'].  No run goes on for ever. *)
Definition after c' c : Prop := ∃ a, sysStep c a c'.

Lemma after_wf c : Acc after c.
Proof.
  remember (sy_pool c) as m eqn:Hm. revert c Hm. induction (poolStep_wf m) as [m _ IH]. intros c ->.
  constructor. intros c' [a Hs]. eapply IH; [|done]. destruct Hs as [t e k s' forced x Hp _ _]. exists t, (Vis e k), (k x).
  split_and!; [done|by exists x|done].
Qed.

(** With an invariant under which unfinished goroutines cannot all wait, every
    run can be continued to the end. *)
Lemma run_to_end (I : system → Prop) c :
  (∀ c1 a c2, I c1 → sysStep c1 a c2 → I c2) → (∀ c1, I c1 → allFinished c1 = false → canStep c1) →
  I c → ∃ tr c', sysRun c tr c' ∧ allFinished c' = true.
Proof.
  intros Hstep Hgo. induction (after_wf c) as [c _ IH]. intros HI.
  destruct (allFinished c) eqn:Hf; [exists [], c; split; [constructor|done]|].
  destruct (Hgo _ HI Hf) as (a & c1 & Hs). destruct (IH c1 ltac:(by exists a) (Hstep _ _ _ HI Hs)) as (tr & c' & Hrun & Hf').
  exists ([a] ++ tr), c'. split; [|done]. eapply sysRun_trans; [by apply sysRun_one|done].
Qed.

(** ** The discipline *)

Context {Loc : Type} (obey : ∀ e, ans e → Loc → option Loc) (idle : Loc).
Implicit Types (l : Loc) (L : gmap nat Loc).

(** All events of a program obey, whatever the answers, and it ends as [Q] says. *)
Fixpoint obeys {A} l (p : prog ans A) (Q : Loc → result A → Prop) : Prop :=
  match p with
  | Ret a => Q l (Val a)
  | Panic v => Q l (Boom v)
  | Vis e k => ∀ x, match obey e x l with Some l' => obeys l' (k x) Q | None => False end
  end.

Lemma obeys_mono {A} l (p : prog ans A) (Q Q' : Loc → result A → Prop) :
  obeys l p Q → (∀ l' r, Q l' r → Q' l' r) → obeys l p Q'.
Proof.
  intros Hp HQ. revert l Hp. induction p as [a|v|e k IH]; intros l; simpl; [auto|auto|].
  intros Hp x. specialize (Hp x). destruct (obey e x l); [by apply IH|done].
Qed.
Lemma obeys_bind {A B} l (p : prog ans A) (f : A → prog ans B) Q :
  obeys l p (λ l' r, match r with Val a => obeys l' (f a) Q | Boom v => Q l' (Boom v) end) → obeys l (bind p f) Q.
Proof.
  revert l. induction p as [a|v|e k IH]; intros l; simpl; [done|done|].
  intros Hp x. specialize (Hp x). destruct (obey e x l); [by apply IH|done].
Qed.
Lemma obeys_finally {A} l (p : prog ans A) q Q :
  obeys l p (λ l1 r, obeys l1 q (λ l2 r2, Q l2 (match r2 with Val _ => r | Boom v => Boom v end))) → obeys l (finally p q) Q.
Proof.
  revert l. induction p as [a|v|e k IH]; intros l; simpl.
  - intros Hq. apply obeys_bind. eapply obeys_mono; [exact Hq|]. by intros l' [[]|v].
  - intros Hq. apply obeys_bind. eapply obeys_mono; [exact Hq|]. by intros l' [[]|v'].
  - intros Hp x. specialize (Hp x). destruct (obey e x l); [by apply IH|done].
Qed.
Lemma obeys_catch {A} l (p : prog ans A) Q : obeys l p (λ l' r, Q l' (Val r)) → obeys l (catch p) Q.
Proof.
  revert l. induction p as [a|v|e k IH]; intros l; simpl; [done|done|].
  intros Hp x. specialize (Hp x). destruct (obey e x l); [by apply IH|done].
Qed.

(** Goroutine [t] performs [e], answered by [x]. *)
Definition performs t e (x : ans e) (sh sh' : Sh) L l l' : Prop :=
  (∃ forced, effect t e sh = Some (sh', forced) ∧ ∀ y, forced = Some y → x = y) ∧
  L !! t = Some l ∧ obey e x l = Some l'.

(** [L]: what each goroutine has.  They all obey, and end with nothing. *)
Record pooled c L : Prop := {
  po_dom : dom L = dom (sy_pool c);
  po_obeys : ∀ t p l, sy_pool c !! t = Some p → L !! t = Some l → obeys l p (λ l' _, l' = idle)
}.

Lemma pooled_local c L t p : pooled c L → sy_pool c !! t = Some p → is_Some (L !! t).
Proof. intros [Hd _] Hp. apply elem_of_dom. rewrite Hd. apply elem_of_dom. eauto. Qed.
Lemma pooled_prog c L t l : pooled c L → L !! t = Some l → is_Some (sy_pool c !! t).
Proof. intros [Hd _] Hl. apply elem_of_dom. rewrite <-Hd. apply elem_of_dom. eauto. Qed.

(** A goroutine that has finished has nothing. *)
Lemma finished_idle c L t p l : pooled c L → sy_pool c !! t = Some p → L !! t = Some l → finished p = true → l = idle.
Proof. intros HI Hp Hl Hf. pose proof (po_obeys _ _ HI _ _ _ Hp Hl) as Ho. by destruct p. Qed.
Lemma allFinished_idle c L t l : pooled c L → allFinished c = true → L !! t = Some l → l = idle.
Proof.
  intros HI Hf Hl. destruct (pooled_prog _ _ _ _ HI Hl) as [p Hp]. eapply finished_idle; eauto using allFinished_at.
Qed.

(** A goroutine that has something has a next event, and that event obeys. *)
Lemma busy_next c L t l :
  pooled c L → L !! t = Some l → l ≠ idle → ∃ e k, sy_pool c !! t = Some (Vis e k) ∧ ∀ x, is_Some (obey e x l).
Proof.
  intros HI Hl Hne. destruct (pooled_prog _ _ _ _ HI Hl) as [p Hp].
  pose proof (po_obeys _ _ HI _ _ _ Hp Hl) as Ho. destruct p as [a|v|e k]; [done|done|]. exists e, k. split; [done|].
  intros x. specialize (Ho x). destruct (obey e x l); [eauto|done].
Qed.

Lemma pooled_step c L t a c' :
  pooled c L → sysStep c (t, a) c' →
  ∃ l l', performs t (projT1 a) (projT2 a) (sy_shared c) (sy_shared c') L l l' ∧ pooled c' (<[t := l']> L).
Proof.
  intros HI Hstep. inversion Hstep as [t' e k sh' forced x Hpool He Hf Ht Hc]. subst. clear Hstep.
  destruct (pooled_local _ _ _ _ HI Hpool) as [l Ht]. destruct HI as [I1 I2].
  pose proof (I2 _ _ _ Hpool Ht x) as Hob. destruct (obey e x l) as [l'|] eqn:Ho; [|done].
  exists l, l'. split; [split_and!; eauto|]. split; cbn [sy_shared sy_pool].
  - by rewrite !dom_insert_L, I1.
  - intros u p y [[<- <-]|[Hne Hu]]%lookup_insert_Some; [rewrite lookup_insert_eq; by intros [= <-]|].
    rewrite lookup_insert_ne by done. by apply I2.
Qed.

(** Goroutines about to run programs that obey. *)
Lemma start_idle {A} (m : gmap nat A) t l : ((λ _, idle) <$> m) !! t = Some l → l = idle.
Proof. rewrite lookup_fmap. destruct (m !! t); simpl; congruence. Qed.
Lemma pooled_start {A} (f : A → prog ans unit) (m : gmap nat A) sh :
  (∀ a, obeys idle (f a) (λ l' _, l' = idle)) → pooled (mkSystem sh (f <$> m)) ((λ _, idle) <$> m).
Proof.
  intros Hf. split; cbn [sy_pool].
  - by rewrite !dom_fmap_L.
  - intros t p l Hp Hl. apply start_idle in Hl as ->. rewrite lookup_fmap in Hp. destruct (m !! t); [|done].
    injection Hp as <-. apply Hf.
Qed.
End machine.

(** ** The events of one goroutine *)

Section events.
Context {E : Type} {ans : E → Type}.
Implicit Types (tr : list (nat * act (ans := ans))) (t : nat).

Definition eventsOf t tr : list (act (ans := ans)) := (filter (λ ta, ta.1 = t) tr).*2.

Lemma elem_of_eventsOf t tr a : a ∈ eventsOf t tr ↔ (t, a) ∈ tr.
Proof.
  unfold eventsOf. rewrite list_elem_of_fmap. setoid_rewrite list_elem_of_filter. split.
  - intros ([u a'] & -> & Hu & Hin). simpl in Hu. by subst u.
  - intros Hin. exists (t, a). done.
Qed.
Lemma eventsOf_app t tr1 tr2 : eventsOf t (tr1 ++ tr2) = eventsOf t tr1 ++ eventsOf t tr2.
Proof. unfold eventsOf. by rewrite filter_app, fmap_app. Qed.
Lemma eventsOf_split t tr e1 a e2 :
  eventsOf t tr = e1 ++ a :: e2 → ∃ tr1 tr2, tr = tr1 ++ (t, a) :: tr2 ∧ eventsOf t tr1 = e1 ∧ eventsOf t tr2 = e2.
Proof.
  revert e1. induction tr as [|[u x] tr IH]; intros e1; [by destruct e1|]. unfold eventsOf. rewrite filter_cons. case_decide as Hu; cbn.
  - simpl in Hu. subst u. destruct e1 as [|y e1]; cbn.
    + intros [= -> <-]. by exists [], tr.
    + intros [= -> Hrest]. destruct (IH e1 Hrest) as (tr1 & tr2 & -> & <- & <-). exists ((t, y) :: tr1), tr2. split_and!; [done| |done].
      unfold eventsOf. by rewrite filter_cons_True.
  - intros Hrest. destruct (IH e1 Hrest) as (tr1 & tr2 & -> & <- & <-). exists ((u, x) :: tr1), tr2. split_and!; [done| |done].
    unfold eventsOf. by rewrite filter_cons_False.
Qed.

(** The events of a goroutine lead from its program to what is left of it; when it
    has finished they are a complete run. *)
Lemma sysRun_runs {Sh} (eff : nat → ∀ e : E, Sh → option (Sh * option (ans e))) c tr c' t p :
  sysRun eff c tr c' → sy_pool c !! t = Some p →
  ∃ p', sy_pool c' !! t = Some p' ∧ ∀ evs r, runs p' evs r → runs p (eventsOf t tr ++ evs) r.
Proof.
  intros Hrun Hp. induction Hrun as [|tr c1 a c2 Hrun IH Hs]; [by exists p|]. destruct IH as (p1 & Hp1 & IH).
  destruct Hs as [u e k s' forced x Hu _ _]. cbn [sy_pool]. setoid_rewrite eventsOf_app. unfold eventsOf at 2. rewrite filter_cons, filter_nil.
  destruct (decide (u = t)) as [->|Hne].
  - rewrite Hu in Hp1. injection Hp1 as <-. exists (k x). rewrite lookup_insert_eq. split; [done|]. intros evs r Hr.
    rewrite decide_True by done. cbn. rewrite <-app_assoc. apply IH. exists x, evs. done.
  - exists p1. rewrite lookup_insert_ne by done. split; [done|]. intros evs r Hr. rewrite decide_False by done. cbn. rewrite app_nil_r. by apply IH.
Qed.

(** A program performs an event only when its own past allows it. *)
Lemma sysRun_always {Sh} (eff : nat → ∀ e : E, Sh → option (Sh * option (ans e))) (G : nat → list (act (ans := ans)) → E → Prop) c tr c' :
  sysRun eff c tr c' → (∀ t p, sy_pool c !! t = Some p → always (G t) [] p) →
  (∀ t p, sy_pool c' !! t = Some p → always (G t) (eventsOf t tr) p) ∧
  (∀ tr1 t a tr2, tr = tr1 ++ (t, a) :: tr2 → G t (eventsOf t tr1) (projT1 a)).
Proof.
  intros Hrun H0. induction Hrun as [|tr c1 a c2 Hrun IH Hs]; [split; [done|by intros []]|]. destruct IH as [Hpool Hev].
  destruct Hs as [u e k s' forced x Hu _ _]. pose proof (Hpool _ _ Hu) as [He Hk]. split.
  - intros t p. cbn [sy_pool]. rewrite eventsOf_app. intros [[<- <-]|[Hne Hp]]%lookup_insert_Some.
    + unfold eventsOf at 2. rewrite filter_cons_True by done. apply Hk.
    + unfold eventsOf at 2. rewrite filter_cons_False by done. cbn. rewrite app_nil_r. by apply Hpool.
  - intros tr1 t a tr2 Heq. destruct tr2 as [|y tr2 _] using rev_ind.
    + apply app_inj_tail in Heq as [-> Heq]. injection Heq as <- <-. done.
    + rewrite app_comm_cons, app_assoc in Heq. apply app_inj_tail in Heq as [-> _]. by eapply Hev.
Qed.
End events.

(** ** Exclusive possession

    [o] is the goroutine that has what [P] says, if any. *)

Section held.
Context {Loc : Type} (P : Loc → bool).
Implicit Types (L : gmap nat Loc) (l : Loc) (t : nat) (o : option nat).

Definition heldBy o L : Prop := ∀ t, o = Some t ↔ ∃ l, L !! t = Some l ∧ P l = true.

Lemma heldBy_own o L t l : heldBy o L → L !! t = Some l → o = Some t ↔ P l = true.
Proof. intros Hi Ht. rewrite (Hi t). naive_solver. Qed.
Lemma heldBy_update o o' L t l' :
  heldBy o L → (o' = Some t ↔ P l' = true) → (∀ u, u ≠ t → o' = Some u ↔ o = Some u) → heldBy o' (<[t := l']> L).
Proof.
  intros Hi Hown Hoth u. destruct (decide (u = t)) as [->|Hne].
  - rewrite Hown, lookup_insert_eq. naive_solver.
  - rewrite Hoth, lookup_insert_ne by done. apply Hi.
Qed.
Lemma heldBy_same o L t l l' : heldBy o L → L !! t = Some l → P l' = P l → heldBy o (<[t := l']> L).
Proof. intros Hi Ht Hs. eapply heldBy_update; [done| |done]. rewrite Hs. by apply heldBy_own with L. Qed.
Lemma heldBy_acquire L t l' : heldBy None L → P l' = true → heldBy (Some t) (<[t := l']> L).
Proof. intros Hi Hp. eapply heldBy_update; [done|naive_solver|]. naive_solver. Qed.
Lemma heldBy_release o L t l l' :
  heldBy o L → L !! t = Some l → P l = true → P l' = false → heldBy None (<[t := l']> L).
Proof.
  intros Hi Ht Hp Hp'. assert (o = Some t) as -> by (by apply (heldBy_own o L t l)).
  eapply heldBy_update; [done| |]; rewrite ?Hp'; naive_solver.
Qed.
Lemma heldBy_start {A} (m : gmap nat A) l : P l = false → heldBy None ((λ _, l) <$> m).
Proof. intros Hp t. split; [done|]. intros (l' & ->%start_idle & Hl). congruence. Qed.
End held.
