(* ===== verification/Groups.v ===== *)
(** * The groups of a process (group.go: NewGroup .. DestroyAllGroups)

    The package-level map from names to groups, the construction of a group
    from its options, and the methods that change a group as a whole.  A
    [*Group] is a number, its address; the objects live in a heap, so a group
    that is no longer registered still exists for those who hold its pointer.

    The functions that change the table are programs: an event is one critical
    section of [groupsMu], one access to an atomic or plain field of a group, or
    one call of a method of a cache. *)

From S2P Require Import Prelude Store ByteView Errors Cache Peers Singleflight Prog Interleave Group Node.
#[local] Open Scope prog_scope.

(** A group object: the fields fixed by its construction and its state. *)
Record gobj := mkGObj { go_cfg : config; go_state : Node.Group (storeImpl ByteView) }.

Record groupTable := mkTable { groups : gmap string nat; objs : gmap nat gobj; nextObj : nat }.

Definition noGroups : groupTable := mkTable ∅ ∅ 0.

(** ** Options *)

(** An option is a function on the group, whose fields are not exported; these
    are the options of the package.  [WithPeers] carries whether its argument
    is non-nil. *)
Inductive GroupOption :=
| WithExpiration (d : Z)
| WithPeers (peers : bool)
| WithCacheOptions (opts : CacheOptions)
| WithNearCache (maxBytes ttl : Z).

Definition WithHotCache (maxBytes ttl : Z) : GroupOption := WithNearCache maxBytes ttl.

Definition with_MaxBytes (n : Z) (o : CacheOptions) : CacheOptions :=
  mkCacheOptions (co_CacheType o) n (co_ShardCount o) (co_CleanupTime o) (co_OnEvicted o).

(** [None]: the construction of a cache does not return. *)
Definition applyGroupOption (o : GroupOption) (x : gobj) : option gobj :=
  let g := go_cfg x in
  match o with
  | WithExpiration d =>
      Some (mkGObj (mkGConfig (name g) (hasGetter g) (hasNear g) (nearTTL g) (hasPeers g) d) (go_state x))
  | WithPeers peers =>
      Some (mkGObj (mkGConfig (name g) (hasGetter g) (hasNear g) (nearTTL g) peers (expiration g)) (go_state x))
  | WithCacheOptions opts => c ← NewCache opts; Some (mkGObj g (with_main (Some c) (go_state x)))
  | WithNearCache maxBytes ttl =>
      if (maxBytes <=? 0) || (ttl <=? 0) then Some x
      else
        c ← NewCache (with_MaxBytes maxBytes DefaultCacheOptions);
        Some (mkGObj (mkGConfig (name g) (hasGetter g) true ttl (hasPeers g) (expiration g))
                     (with_near (Some c) (go_state x)))
  end.

Definition applyGroupOptions (opts : list GroupOption) (x : gobj) : option gobj :=
  foldl (λ x o, x ← x; applyGroupOption o x) (Some x) opts.

(** ** Construction

    The part of [NewGroup] before it takes the lock. *)

Definition emptyState : Node.Group (storeImpl ByteView) := mkGroup false None None 0 ∅ ∅ 0 ∅ 0 (λ _, 0).

Definition newObj (nm : string) (cacheBytes : Z) (getter : bool) (opts : list GroupOption) : option gobj :=
  x ← applyGroupOptions opts (mkGObj (mkGConfig nm getter false 0 false 0) emptyState);
  match mainCache (go_state x) with
  | Some _ => Some x
  | None =>
      c ← NewCache (if 0 <? cacheBytes then with_MaxBytes cacheBytes DefaultCacheOptions else DefaultCacheOptions);
      Some (mkGObj (go_cfg x) (with_main (Some c) (go_state x)))
  end.

(** ** Events *)

Inductive tev :=
| TvNew (nm : string) (cacheBytes : Z) (getter : bool) (opts : list GroupOption)
                            (* the construction, which nobody else sees, and
                               groupsMu.Lock(); old := groups[name]; groups[name] = g; groupsMu.Unlock() *)
| TvCas (p : nat)           (* atomic.CompareAndSwapInt32(&g.closed, 0, 1) *)
| TvCloseMain (p : nat)     (* g.mainCache.Close() *)
| TvCloseNear (p : nat)     (* g.nearCache.Close() *)
| TvDrop (p : nat)          (* groupsMu.Lock(); if groups[g.name] == g { delete(..) }; groupsMu.Unlock() *)
| TvLookup (nm : string)    (* groupsMu.RLock(); g := groups[name]; groupsMu.RUnlock() *)
| TvSnapshot                (* groupsMu.RLock(); for .. range groups; groupsMu.RUnlock() *)
| TvClosed (p : nat)        (* atomic.LoadInt32(&g.closed) == 1 *)
| TvClearMain (p : nat)     (* g.mainCache.Clear() *)
| TvClearNear (p : nat)     (* g.nearCache.Clear() *)
| TvHasPeers (p : nat)      (* g.peers != nil *)
| TvSetPeers (p : nat) (peers : bool)   (* g.peers = peers *)
| TvUse (p : nat) (e : ev) (picker : ClientPicker) (source : Z → string → loaded) (tick : Z → Z) (t : Z).
                            (* an event of a method that runs on the group, with the
                               picker, the source and the clock it happens to see *)

Definition tans (e : tev) : Type :=
  match e with
  | TvNew _ _ _ _ => nat * option nat
  | TvCas _ | TvClosed _ | TvHasPeers _ => bool
  | TvLookup _ => option nat
  | TvSnapshot => list (string * nat)
  | _ => unit
  end.

Notation tprog := (prog tans).
Notation tdo e := (event (ans := tans) e) (only parsing).

Definition setClosedFlag (s : Node.Group (storeImpl ByteView)) : Node.Group (storeImpl ByteView) :=
  mkGroup true (mainCache s) (nearCache s) (ownerEpoch s) (keyStates s) (ksHeap s) (ksNext s) (loader s) (loaderNext s) (stats s).

(** Replace the object at [p]. *)
Definition put (p : nat) (x : gobj) (T : groupTable) : groupTable := mkTable (groups T) (<[p := x]> (objs T)) (nextObj T).
Definition putState (p : nat) (x : gobj) (s : Node.Group (storeImpl ByteView)) (T : groupTable) : groupTable :=
  put p (mkGObj (go_cfg x) s) T.

(** [None]: the construction does not return, or there is no object at the
    pointer, which does not occur. *)
Definition tableEffect (e : tev) (T : groupTable) : option (groupTable * tans e) :=
  match e return option (groupTable * tans e) with
  | TvNew nm cacheBytes getter opts =>
      x ← newObj nm cacheBytes getter opts;
      let g := nextObj T in
      Some (mkTable (<[nm := g]> (groups T)) (<[g := x]> (objs T)) (g + 1)%nat, (g, groups T !! nm))
  | TvCas p =>
      x ← objs T !! p;
      Some (if closed (go_state x) then (T, false) else (putState p x (setClosedFlag (go_state x)) T, true))
  | TvCloseMain p =>
      x ← objs T !! p; let s := go_state x in Some (putState p x (with_main (Cache.Close (mainCache s)) s) T, tt)
  | TvCloseNear p =>
      x ← objs T !! p; let s := go_state x in Some (putState p x (with_near (Cache.Close (nearCache s)) s) T, tt)
  | TvDrop p =>
      x ← objs T !! p;
      let n := name (go_cfg x) in
      Some (mkTable (if decide (groups T !! n = Some p) then delete n (groups T) else groups T) (objs T) (nextObj T), tt)
  | TvLookup nm => Some (T, groups T !! nm)
  | TvSnapshot => Some (T, map_to_list (groups T))
  | TvClosed p => x ← objs T !! p; Some (T, closed (go_state x))
  | TvClearMain p =>
      x ← objs T !! p; let s := go_state x in Some (putState p x (with_main (Cache.Clear (mainCache s)) s) T, tt)
  | TvClearNear p =>
      x ← objs T !! p; let s := go_state x in Some (putState p x (with_near (Cache.Clear (nearCache s)) s) T, tt)
  | TvHasPeers p => x ← objs T !! p; Some (T, hasPeers (go_cfg x))
  | TvSetPeers p peers =>
      x ← objs T !! p;
      let g := go_cfg x in
      Some (put p (mkGObj (mkGConfig (name g) (hasGetter g) (hasNear g) (nearTTL g) peers (expiration g)) (go_state x)) T, tt)
  | TvUse p e picker source tick t =>
      x ← objs T !! p;
      let nd := mkNode (go_cfg x) (go_state x) picker source in
      Some (putState p x (nd_group (handleNode tick e (nd, t)).1.1) T, tt)
  end.

(** ** The functions *)

(** [(g *Group) Close].  [Cache.Close] accepts a nil receiver. *)
Definition Close (p : nat) : tprog unit :=
  swapped <- tdo (TvCas p) ;;
  if (swapped : bool) then tdo (TvCloseMain p) ;;; tdo (TvCloseNear p) ;;; tdo (TvDrop p)
  else Ret tt.

Definition NewGroup (nm : string) (cacheBytes : Z) (getter : bool) (opts : list GroupOption) : tprog nat :=
  r <- tdo (TvNew nm cacheBytes getter opts) ;;
  let g := r.1 in
  match r.2 with
  | Some old => if decide (old = g) then Ret g else Close old ;;; Ret g
  | None => Ret g
  end.

Definition GetGroup (nm : string) : tprog (option nat) := tdo (TvLookup nm).

(** [(g *Group) RegisterPeers]. *)
Definition RegisterPeers (p : nat) (peers : bool) : tprog unit :=
  has <- tdo (TvHasPeers p) ;;
  if (has : bool) then Panic "RegisterPeers called more than once" else tdo (TvSetPeers p peers).

(** [(g *Group) Clear].  [Cache.Clear] accepts a nil receiver. *)
Definition Clear (p : nat) : tprog unit :=
  c <- tdo (TvClosed p) ;;
  if (c : bool) then Ret tt else tdo (TvClearMain p) ;;; tdo (TvClearNear p).

(** [shuffle]: the order in which Go iterates over the map. *)
Definition ListGroups (shuffle : list (string * nat) → list (string * nat)) : tprog (list string) :=
  snapshot <- tdo TvSnapshot ;; Ret (shuffle snapshot).*1.

Definition DestroyGroup (nm : string) : tprog bool :=
  g <- tdo (TvLookup nm) ;;
  match (g : option nat) with
  | None => Ret false
  | Some g => Close g ;;; Ret true
  end.

(** The loop over the snapshot. *)
Fixpoint closeAll (snapshot : list nat) : tprog unit :=
  match snapshot with [] => Ret tt | g :: snapshot => Close g ;;; closeAll snapshot end.
Definition DestroyAllGroups (shuffle : list (string * nat) → list (string * nat)) : tprog unit :=
  snapshot <- tdo TvSnapshot ;; closeAll (shuffle snapshot).*2.

(** [(g *Group) Stats], less the average load time, a floating-point quotient of
    [sourceDuration] and [sourceLoads]. *)
Record GroupStats := mkGroupStats {
  gs_name : string; gs_closed : bool; gs_owner_ttl : Z; gs_near_ttl : Z; gs_read_through : bool;
  gs_counters : list (string * Z); gs_owner_cache : option CacheStats; gs_near_cache : option CacheStats
}.

Definition Stats (x : gobj) : GroupStats :=
  let s := go_state x in
  let load f := stats s f in
  {| gs_name := name (go_cfg x); gs_closed := closed s; gs_owner_ttl := expiration (go_cfg x);
     gs_near_ttl := nearTTL (go_cfg x); gs_read_through := hasGetter (go_cfg x);
     gs_counters := [("local_hits", load localHits); ("local_misses", load localMisses); ("near_hits", load nearHits);
       ("near_misses", load nearMisses); ("peer_hits", load peerHits); ("peer_misses", load peerMisses);
       ("source_loads", load sourceLoads); ("source_errors", load sourceErrors); ("sets", load sets);
       ("deletes", load deletes); ("invalidation_failures", load invalidationFailures)];
     gs_owner_cache := Cache.Stats <$> mainCache s; gs_near_cache := Cache.Stats <$> nearCache s |}.

(** ** Goroutines of a process *)

(** A call of one of the functions, or any sequence of events of methods that run
    on the group [p]. *)
Inductive tableOp :=
| TNew (nm : string) (cacheBytes : Z) (getter : bool) (opts : list GroupOption)
| TClose (p : nat)
| TClear (p : nat)
| TRegisterPeers (p : nat) (peers : bool)
| TDestroy (nm : string)
| TDestroyAll (shuffle : list (string * nat) → list (string * nat))
| TUse (p : nat) (evs : list (ev * ClientPicker * (Z → string → loaded) * (Z → Z) * Z)).

Fixpoint uses (p : nat) (evs : list (ev * ClientPicker * (Z → string → loaded) * (Z → Z) * Z)) : tprog unit :=
  match evs with [] => Ret tt | (e, picker, source, tick, t) :: evs => tdo (TvUse p e picker source tick t) ;;; uses p evs end.

Definition tableProgram (op : tableOp) : tprog unit :=
  match op with
  | TNew nm cacheBytes getter opts => NewGroup nm cacheBytes getter opts ;;; Ret tt
  | TClose p => Close p
  | TClear p => Clear p
  | TRegisterPeers p peers => RegisterPeers p peers
  | TDestroy nm => DestroyGroup nm ;;; Ret tt
  | TDestroyAll shuffle => DestroyAllGroups shuffle
  | TUse p evs => uses p evs
  end.

(** The system in which they run: the answers are determined by the table. *)
Definition tableEff (_ : nat) (e : tev) (T : groupTable) : option (groupTable * option (tans e)) :=
  (λ r, (r.1, Some r.2)) <$> tableEffect e T.
Definition tableStart (ops : gmap nat tableOp) : system tans groupTable := mkSystem noGroups (tableProgram <$> ops).
Notation tableRun ops := (sysRun tableEff (tableStart ops)).

(** A function called when nothing else runs; [None] if it does not return. *)
Fixpoint runAlone {A} (p : tprog A) (T : groupTable) : option (groupTable * result A) :=
  match p with
  | Ret a => Some (T, Val a)
  | Panic v => Some (T, Boom v)
  | Vis e k => r ← tableEffect e T; runAlone (k r.2) r.1
  end.
