(* ===== verification/GroupsFacts.v ===== *)
(** * Correctness of the table of groups

    With any number of goroutines that create, close, destroy, clear and use
    groups, interleaved event by event: what can be seen while they run, and
    what holds when they have returned. *)

From S2P Require Import Prelude Store ByteView Errors Lru LruSpec Sharded ShardedFacts Cache CacheFacts Peers Singleflight Prog Interleave Group GroupFacts Node NodeFacts Groups.
#[local] Open Scope prog_scope.

(** ** Objects *)

(** The caches of a group are in order and closed exactly when the group is;
    the near cache is there if the configuration says so. *)
Record state_ok (near : bool) (s : Node.Group (storeImpl ByteView)) : Prop := {
  so_main : c_closed <$> mainCache s = Some (closed s);
  so_near : c_closed <$> nearCache s = if near then Some (closed s) else None;
  so_main_wf : cache_wf (mainCache s);
  so_near_wf : cache_wf (nearCache s)
}.

Definition obj_ok (x : gobj) : Prop := state_ok (hasNear (go_cfg x)) (go_state x).

Lemma touched_wf {S} `{StoreLaws S ByteView} (c c' : option (Cache S)) :
  touched c c' → cache_wf c → cache_wf c' ∧ c_closed <$> c' = c_closed <$> c.
Proof.
  intros [(op & Hop & ->)| ->] Hwf; [|done]. split; [by apply cacheStep_wf|by apply cacheStep_closed].
Qed.

Lemma Cache_Close_closed (c : option (Cache (storeImpl ByteView))) b :
  c_closed <$> c = Some b → c_closed <$> Cache.Close c = Some true.
Proof. destruct c as [c|]; [|done]. simpl. intros [= <-]. by destruct (c_closed c) eqn:Hc; simpl; rewrite ?Hc. Qed.

(** ** Construction *)

(** The state of a group under construction: the main cache may be missing. *)
Record building (near : bool) (s : Node.Group (storeImpl ByteView)) : Prop := {
  bu_open : closed s = false;
  bu_main : ∀ c, mainCache s = Some c → c_closed c = false;
  bu_near : c_closed <$> nearCache s = if near then Some false else None;
  bu_main_wf : cache_wf (mainCache s);
  bu_near_wf : cache_wf (nearCache s)
}.

Lemma applyGroupOption_building o x x' :
  applyGroupOption o x = Some x' → building (hasNear (go_cfg x)) (go_state x) →
  building (hasNear (go_cfg x')) (go_state x') ∧ name (go_cfg x') = name (go_cfg x) ∧ hasGetter (go_cfg x') = hasGetter (go_cfg x).
Proof.
  intros Ho [B1 B2 B3 B4 B5]. destruct o as [d|b|opts|mb ttl]; cbn [applyGroupOption] in Ho.
  - by simplify_eq.
  - by simplify_eq.
  - apply bind_Some in Ho as (c & Hc & [= <-]). destruct (NewCache_wf _ _ Hc) as [Hwf Hcl].
    split; [|done]. split; simpl; try done. by intros ? [= <-].
  - destruct ((mb <=? 0) || (ttl <=? 0)); [by simplify_eq|].
    apply bind_Some in Ho as (c & Hc & [= <-]). destruct (NewCache_wf _ _ Hc) as [Hwf Hcl].
    split; [|done]. split; simpl; try done. by rewrite Hcl.
Qed.

Lemma foldl_None {A B} (f : B → A → option A) l :
  foldl (λ x o, x ← x; f o x) None l = None.
Proof. by induction l. Qed.

Lemma applyGroupOptions_building opts x x' :
  applyGroupOptions opts x = Some x' → building (hasNear (go_cfg x)) (go_state x) →
  building (hasNear (go_cfg x')) (go_state x') ∧ name (go_cfg x') = name (go_cfg x) ∧ hasGetter (go_cfg x') = hasGetter (go_cfg x).
Proof.
  unfold applyGroupOptions. revert x. induction opts as [|o opts IH]; intros x; simpl; [by intros [= <-]|].
  destruct (applyGroupOption o x) as [x1|] eqn:Ho; [|by rewrite foldl_None].
  intros Hx' Hb. destruct (applyGroupOption_building _ _ _ Ho Hb) as (Hb1 & Hn1 & Hg1).
  destruct (IH x1 Hx' Hb1) as (? & ? & ?). split_and!; [done|congruence..].
Qed.

Lemma newObj_ok nm cb getter opts x :
  newObj nm cb getter opts = Some x →
  obj_ok x ∧ closed (go_state x) = false ∧ name (go_cfg x) = nm ∧ hasGetter (go_cfg x) = getter.
Proof.
  unfold newObj. intros (y & Hy & Hx)%bind_Some.
  destruct (applyGroupOptions_building _ _ _ Hy) as ([B1 B2 B3 B4 B5] & Hn & Hg); [by split|]. simpl in Hn, Hg.
  destruct (mainCache (go_state y)) as [c|] eqn:Hm.
  - simplify_eq. split_and!; [|done|done|done]. split; [|by rewrite B1|by rewrite Hm|done].
    rewrite Hm. simpl. by rewrite B1, B2.
  - apply bind_Some in Hx as (c & Hc & [= <-]). destruct (NewCache_wf _ _ Hc) as [Hwf Hcl].
    split_and!; [|done|done|done]. split; simpl; [by rewrite Hcl, B1|by rewrite B1|done|done].
Qed.

Lemma NewCache_total opts : co_ShardCount opts ≤ 2 ^ 62 → is_Some (NewCache opts).
Proof.
  intros Hle. unfold NewCache, NewStore. set (so := Store.mkOptions _ _ _ _).
  assert (is_Some (newShardedLRU (V := ByteView) so)) as [s Hs].
  { unfold newShardedLRU. destruct (nextPowerOfTwo_least (if ShardCount so <=? 0 then 16 else ShardCount so)) as (j & -> & _).
    { case_match; [lia|]. unfold so. simpl in *. case_match; lia. }
    eauto. }
  rewrite Hs. repeat case_decide; eauto.
Qed.

(** The caches an option asks for can be built. *)
Definition buildable (o : GroupOption) : Prop :=
  match o with WithCacheOptions opts => co_ShardCount opts ≤ 2 ^ 62 | _ => True end.

Lemma newObj_total nm cb getter opts : Forall buildable opts → is_Some (newObj nm cb getter opts).
Proof.
  intros Hb. unfold newObj. set (x0 := mkGObj _ _). clearbody x0.
  assert (is_Some (applyGroupOptions opts x0)) as [x Hx].
  { unfold applyGroupOptions. revert x0. induction Hb as [|o opts Ho Hb IH]; intros x0; cbn [foldl]; [eauto|].
    assert (is_Some (applyGroupOption o x0)) as [x1 Hx1]; [|cbn [mbind option_bind]; rewrite Hx1; apply IH].
    destruct o as [d|b|co|mb ttl]; cbn [applyGroupOption]; [by eauto|by eauto| |].
    - destruct (NewCache_total co Ho) as [c ->]. eauto.
    - case_match; [by eauto|]. destruct (NewCache_total (with_MaxBytes mb DefaultCacheOptions)) as [c ->]; [done|eauto]. }
  rewrite Hx. cbn [mbind option_bind]. destruct (mainCache (go_state x)); [by eauto|].
  match goal with |- context [NewCache ?o] => destruct (NewCache_total o) as [c ->] end; [by case_match|eauto].
Qed.

(** A closed group refuses every operation and changes nothing. *)
Lemma closed_group_refuses {S} `{Store S ByteView} tick (nd : node S) t ticks key value :
  closed (nd_group nd) = true →
  let refuses {A} (p : gprog A) r := interp (handleNode tick) p (nd, t) = ((nd, t), Val r) in
  refuses (Group.Get (nd_cfg nd) ticks key) (inl (Sentinel ErrGroupClosed)) ∧
  refuses (Set_ (nd_cfg nd) ticks key value) (Some (Sentinel ErrGroupClosed)) ∧
  refuses (Group.Delete (nd_cfg nd) ticks key) (Some (Sentinel ErrGroupClosed)) ∧
  refuses (getLocal (nd_cfg nd) key) (inl (Sentinel ErrGroupClosed)) ∧
  refuses (setLocal (nd_cfg nd) key value) (Some (Sentinel ErrGroupClosed)) ∧
  refuses (deleteOwnerLocal (nd_cfg nd) key) (inl (Sentinel ErrGroupClosed)).
Proof. intros Hc. split_and!; unfold Group.Get, Set_, Group.Delete, getLocal, setLocal, deleteOwnerLocal; simpl; by rewrite Hc. Qed.


(** ** The discipline

    What a goroutine still has to do: close the group it has replaced; close the
    caches of, and then remove from the table, the group that it has closed. *)

Inductive duty := Nothing | Replaced (p : nat) | OwesMain (p : nat) | OwesNear (p : nat) | OwesDrop (p : nat).

#[export] Instance duty_eq_dec : EqDecision duty.
Proof. solve_decision. Defined.

Definition tobey (e : tev) : tans e → duty → option duty :=
  match e return tans e → duty → option duty with
  | TvNew _ _ _ _ => λ r l, if decide (l = Nothing) then
      Some match r.2 with Some old => if decide (old = r.1) then Nothing else Replaced old | None => Nothing end else None
  | TvCas p => λ b l, if decide (l = Nothing ∨ l = Replaced p) then Some (if b then OwesMain p else Nothing) else None
  | TvCloseMain p => λ _ l, if decide (l = OwesMain p) then Some (OwesNear p) else None
  | TvCloseNear p => λ _ l, if decide (l = OwesNear p) then Some (OwesDrop p) else None
  | TvDrop p => λ _ l, if decide (l = OwesDrop p) then Some Nothing else None
  | _ => λ _ l, if decide (l = Nothing) then Some Nothing else None
  end.

Notation tobeys l p := (obeys (ans := tans) tobey l p (λ l' _, l' = Nothing)).

Lemma Close_obeys l p : l = Nothing ∨ l = Replaced p → tobeys l (Close p).
Proof.
  intros Hl b. unfold tobey at 1. rewrite decide_True by done. destruct b; [|done]. do 3 (intros []; cbn; case_decide; [|done]). done.
Qed.
Lemma Close_then_obeys {A} l p (k : tprog A) : l = Nothing ∨ l = Replaced p → tobeys Nothing k → tobeys l (Close p ;;; k).
Proof. intros Hl Hk. apply obeys_bind. eapply obeys_mono; [by apply Close_obeys|]. intros l' [[]|v] ->; done. Qed.
Lemma closeAll_obeys ps : tobeys Nothing (closeAll ps).
Proof. induction ps as [|p ps IH]; [done|]. by apply Close_then_obeys; [left|]. Qed.

Lemma tableProgram_obeys op : tobeys Nothing (tableProgram op).
Proof.
  destruct op as [nm cb getter opts|p|p|p peers|nm|shuffle|p evs]; cbn [tableProgram].
  - apply obeys_bind. intros [g old]. cbn [tobey fst snd]. rewrite decide_True by done. cbn [bind fst snd].
    destruct old as [old|]; [|done]. case_decide; [done|]. eapply obeys_mono; [apply Close_then_obeys; [by right|done]|]. by intros l' [] ->.
  - apply Close_obeys. by left.
  - intros b. cbn [tobey]. rewrite decide_True by done. destruct b; [done|]. do 2 (intros []; cbn; rewrite decide_True by done). done.
  - intros b. cbn [tobey]. rewrite decide_True by done. destruct b; [done|]. intros []. cbn. by rewrite decide_True.
  - apply obeys_bind. intros g. cbn [tobey]. rewrite decide_True by done. cbn [bind]. destruct g as [g|]; [|done].
    eapply obeys_mono; [apply Close_then_obeys; [by left|done]|]. by intros l' [] ->.
  - intros snapshot. cbn [tobey]. rewrite decide_True by done. apply closeAll_obeys.
  - induction evs as [|[[[[e picker] source] tick] t] evs IH]; [done|]. intros []. cbn. by rewrite decide_True.
Qed.

(** ** The invariant *)

Definition mainClosed (x : gobj) : option bool := c_closed <$> mainCache (go_state x).
Definition nearClosed (x : gobj) : option bool := c_closed <$> nearCache (go_state x).

(** What an open and what a closed group looks like, in view of what the
    goroutines still have to do. *)
Record gobj_inv (T : groupTable) (L : gmap nat duty) (p : nat) (x : gobj) : Prop := {
  gi_fresh : (p < nextObj T)%nat;
  gi_wf : cache_wf (mainCache (go_state x)) ∧ cache_wf (nearCache (go_state x));
  gi_has : is_Some (mainClosed x) ∧ (is_Some (nearClosed x) ↔ hasNear (go_cfg x) = true);
  gi_open : closed (go_state x) = false →
    mainClosed x ≠ Some true ∧ nearClosed x ≠ Some true ∧ (groups T !! name (go_cfg x) = Some p ∨ ∃ t, L !! t = Some (Replaced p));
  gi_main : closed (go_state x) = true → (∃ t, L !! t = Some (OwesMain p)) ∨ mainClosed x ≠ Some false;
  gi_near : closed (go_state x) = true →
    (∃ t, L !! t = Some (OwesMain p)) ∨ (∃ t, L !! t = Some (OwesNear p)) ∨ nearClosed x ≠ Some false;
  gi_gone : closed (go_state x) = true → groups T !! name (go_cfg x) = Some p →
    (∃ t, L !! t = Some (OwesMain p)) ∨ (∃ t, L !! t = Some (OwesNear p)) ∨ (∃ t, L !! t = Some (OwesDrop p))
}.

(** The group that a goroutine has closed and not yet removed. *)
Definition closing (l : duty) : option nat :=
  match l with OwesMain p | OwesNear p | OwesDrop p => Some p | _ => None end.

Record table_inv (T : groupTable) (L : gmap nat duty) : Prop := {
  ti_named : ∀ n p, groups T !! n = Some p → ∃ x, objs T !! p = Some x ∧ name (go_cfg x) = n;
  ti_objs : ∀ p x, objs T !! p = Some x → gobj_inv T L p x;
  ti_closing : ∀ t l p, L !! t = Some l → closing l = Some p → ∃ x, objs T !! p = Some x ∧ closed (go_state x) = true
}.

(** A duty that [t] does not have is not affected by what [t] does. *)
Lemma duty_kept (L : gmap nat duty) t l l' d :
  L !! t = Some l → l ≠ d → (∃ u, L !! u = Some d) → ∃ u, <[t := l']> L !! u = Some d.
Proof. intros Hl Hne [u Hu]. exists u. rewrite lookup_insert_ne; [done|]. intros ->. congruence. Qed.
Lemma duty_new (L : gmap nat duty) t d : ∃ u, <[t := d]> L !! u = Some d.
Proof. exists t. apply lookup_insert_eq. Qed.

(** The group of a duty. *)
Definition dutyOn (l : duty) : option nat := match l with Replaced p => Some p | l => closing l end.

(** An object that [t] has no business with. *)
Lemma gobj_inv_other T T' L t l l' p x :
  gobj_inv T L p x → L !! t = Some l → dutyOn l ≠ Some p → (nextObj T ≤ nextObj T')%nat →
  (groups T' !! name (go_cfg x) = Some p ↔ groups T !! name (go_cfg x) = Some p) → gobj_inv T' (<[t := l']> L) p x.
Proof.
  intros [G1 G2 G3 G4 G5 G6 G7] Hl Hne Hle Hg.
  assert (∀ d, dutyOn d = Some p → (∃ u, L !! u = Some d) → ∃ u, <[t := l']> L !! u = Some d) as Hk.
  { intros d Hd. apply (duty_kept _ _ l); [done|]. intros ->. done. }
  split; [lia|done|done| | | |]; rewrite ?Hg; intros Hc.
  - destruct (G4 Hc) as (? & ? & [?|Hr]); split_and!; [done|done|by left|done|done|right]. by apply Hk.
  - destruct (G5 Hc) as [?|?]; [left; by apply Hk|by right].
  - destruct (G6 Hc) as [?|[?|?]]; [left; by apply Hk|right; left; by apply Hk|by right; right].
  - intros Hin. destruct (G7 Hc Hin) as [?|[?|?]]; [left; by apply Hk|right; left; by apply Hk|right; right; by apply Hk].
Qed.

Lemma ti_closing_update T T' L t l l' :
  table_inv T L → L !! t = Some l →
  (∀ p x, objs T !! p = Some x → closed (go_state x) = true → ∃ x', objs T' !! p = Some x' ∧ closed (go_state x') = true) →
  (∀ p, closing l' = Some p → ∃ x, objs T' !! p = Some x ∧ closed (go_state x) = true) →
  ∀ u d p, <[t := l']> L !! u = Some d → closing d = Some p → ∃ x, objs T' !! p = Some x ∧ closed (go_state x) = true.
Proof.
  intros HI Hl Hobj Hnew u d p [[<- <-]|[_ Hd]]%lookup_insert_Some Hp; [by apply Hnew|].
  destruct (ti_closing _ _ HI _ _ _ Hd Hp) as (x & Hx & Hc). by eapply Hobj.
Qed.

(** Nobody's business: a change that keeps what the invariant speaks of. *)
Lemma table_inv_put T L p x x' :
  table_inv T L → objs T !! p = Some x → name (go_cfg x') = name (go_cfg x) → hasNear (go_cfg x') = hasNear (go_cfg x) →
  closed (go_state x') = closed (go_state x) → mainClosed x' = mainClosed x → nearClosed x' = nearClosed x →
  cache_wf (mainCache (go_state x')) → cache_wf (nearCache (go_state x')) → table_inv (put p x' T) L.
Proof.
  intros [I1 I2 I3] Hx Hn Hh Hc Hm Hne Wm Wn. split; cbn [put groups objs].
  - intros n q Hq. destruct (I1 n q Hq) as (y & Hy & Hyn). destruct (decide (q = p)) as [->|]; [|exists y; by rewrite lookup_insert_ne].
    exists x'. rewrite lookup_insert_eq. split; [done|congruence].
  - intros q y [[<- <-]|[Hqp Hy]]%lookup_insert_Some.
    + destruct (I2 p x Hx) as [G1 G2 G3 G4 G5 G6 G7]. split; cbn [put groups nextObj]; rewrite ?Hn, ?Hh, ?Hc, ?Hm, ?Hne; try done.
    + by destruct (I2 q y Hy).
  - intros t l q Hl Hq. destruct (I3 _ _ _ Hl Hq) as (y & Hy & Hyc). destruct (decide (q = p)) as [->|]; [|exists y; by rewrite lookup_insert_ne].
    exists x'. rewrite lookup_insert_eq. split; [done|congruence].
Qed.

(** A step of [t] that concerns the group [p] only. *)
Lemma table_inv_own T T' L t l l' p x x' :
  table_inv T L → L !! t = Some l → objs T !! p = Some x → (∀ q, dutyOn l = Some q → q = p) → (∀ q, closing l' = Some q → q = p) →
  objs T' = <[p := x']> (objs T) → nextObj T' = nextObj T → name (go_cfg x') = name (go_cfg x) →
  (∀ n q, groups T' !! n = Some q → groups T !! n = Some q) →
  (∀ n q, q ≠ p → groups T !! n = Some q → groups T' !! n = Some q) →
  (closed (go_state x) = true → closed (go_state x') = true) → (is_Some (closing l') → closed (go_state x') = true) →
  gobj_inv T' (<[t := l']> L) p x' → table_inv T' (<[t := l']> L).
Proof.
  intros HI Hl Hx Hd Hd' Ho Hno Hn Hg1 Hg2 Hc Hc' Hp. split.
  - intros n q Hq. destruct (ti_named _ _ HI n q (Hg1 _ _ Hq)) as (y & Hy & Hyn). rewrite Ho.
    destruct (decide (q = p)) as [->|]; [|exists y; by rewrite lookup_insert_ne]. exists x'. rewrite lookup_insert_eq. split; [done|congruence].
  - rewrite Ho. intros q y [[<- <-]|[Hqp Hy]]%lookup_insert_Some; [done|].
    eapply gobj_inv_other; [by eapply ti_objs|done| |lia|]; [intros ->%Hd; done|]. split; [apply Hg1|by apply Hg2].
  - eapply ti_closing_update; [done|done| |].
    + intros q y Hy Hyc. rewrite Ho. destruct (decide (q = p)) as [->|]; [|exists y; by rewrite lookup_insert_ne].
      exists x'. rewrite lookup_insert_eq. split; [done|]. apply Hc. congruence.
    + intros q Hq. assert (q = p) as -> by (by apply Hd'). exists x'. rewrite Ho, lookup_insert_eq. eauto.
Qed.

Lemma table_inv_New T L t nm cb getter opts x :
  table_inv T L → L !! t = Some Nothing → newObj nm cb getter opts = Some x →
  table_inv (mkTable (<[nm := nextObj T]> (groups T)) (<[nextObj T := x]> (objs T)) (nextObj T + 1)%nat)
    (<[t := match groups T !! nm with Some old => if decide (old = nextObj T) then Nothing else Replaced old | None => Nothing end]> L).
Proof.
  intros HI Hl Hx. destruct (newObj_ok _ _ _ _ _ Hx) as ([Om On Wm Wn] & Hc & Hn & _).
  assert (∀ q y, objs T !! q = Some y → (q < nextObj T)%nat) as Hlt by (intros q y Hy; by eapply gi_fresh, ti_objs).
  assert (∀ n q, groups T !! n = Some q → (q < nextObj T)%nat) as Hreg.
  { intros n q (y & Hy & _)%(ti_named _ _ HI). by eapply Hlt. }
  split; cbn [groups objs nextObj].
  - intros n q [[<- <-]|[Hne Hq]]%lookup_insert_Some; [exists x; by rewrite lookup_insert_eq|].
    destruct (ti_named _ _ HI n q Hq) as (y & Hy & Hyn). exists y. rewrite lookup_insert_ne; [done|]. apply Hlt in Hy. lia.
  - intros q y [[<- <-]|[Hqg Hy]]%lookup_insert_Some.
    + split; unfold mainClosed, nearClosed; cbn [groups nextObj]; rewrite ?Om, ?On, ?Hc, ?Hn; [lia|done| |intros _|done..].
      * split; [eauto|]. destruct (hasNear (go_cfg x)); [by split; eauto|]. split; [by intros [??]|done].
      * split_and!; [done|by case_match|left; apply lookup_insert_eq].
    + pose proof (ti_objs _ _ HI q y Hy) as Hq. destruct (decide (groups T !! nm = Some q ∧ name (go_cfg y) = nm)) as [[Hold Hyn]|Hno].
      * rewrite Hold, decide_False by (apply Hlt in Hy; lia).
        destruct (gobj_inv_other T T L t Nothing (Replaced q) q y Hq Hl ltac:(done) ltac:(lia) ltac:(done)) as [G1 G2 G3 G4 G5 G6 G7].
        split; cbn [groups nextObj]; [lia|done|done| |done|done|].
        -- intros (? & ? & _)%G4. split_and!; [done|done|right; apply duty_new].
        -- rewrite Hyn, lookup_insert_eq. intros _ [= Heq]. done.
      * eapply gobj_inv_other; [done|done|done|cbn; lia|]. cbn [groups]. destruct (decide (name (go_cfg y) = nm)) as [Hyn|Hyn].
        -- rewrite Hyn, lookup_insert_eq. split; [intros [= Heq]; done|naive_solver].
        -- by rewrite lookup_insert_ne by done.
  - refine (ti_closing_update T (mkTable (groups T) (<[nextObj T := x]> (objs T)) 0) L t Nothing _ HI Hl _ _); [|by repeat case_match].
    intros q y Hy Hyc. exists y. cbn [objs]. rewrite lookup_insert_ne; [done|]. apply Hlt in Hy. lia.
Qed.

(** The caches after a step that closes one of them. *)
Lemma Close_flag (c : option (Cache (storeImpl ByteView))) : c_closed <$> Cache.Close c = (λ _, true) <$> c.
Proof. destruct c as [c|]; [|done]. cbn. by destruct (c_closed c) eqn:Hc; cbn; rewrite ?Hc. Qed.

Lemma table_inv_Cas T L t l p x :
  table_inv T L → L !! t = Some l → l = Nothing ∨ l = Replaced p → objs T !! p = Some x → closed (go_state x) = false →
  table_inv (putState p x (setClosedFlag (go_state x)) T) (<[t := OwesMain p]> L).
Proof.
  intros HI Hl Hd Hx Hc. destruct (ti_objs _ _ HI p x Hx) as [G1 G2 G3 G4 _ _ _].
  eapply (table_inv_own T _ L t l _ p x _ HI Hl Hx); [|by intros q [= ->]|done..|].
  - intros q. destruct Hd as [->| ->]; [done|by intros [= ->]].
  - split; cbn; try done; intros _.
    + left. apply duty_new.
    + left. apply duty_new.
    + intros _. left. apply duty_new.
Qed.
Lemma table_inv_Cas_lost T L t l p x :
  table_inv T L → L !! t = Some l → l = Nothing ∨ l = Replaced p → objs T !! p = Some x → closed (go_state x) = true →
  table_inv T (<[t := Nothing]> L).
Proof.
  intros HI Hl Hd Hx Hc. destruct (ti_objs _ _ HI p x Hx) as [G1 G2 G3 G4 G5 G6 G7].
  assert (∀ d, is_Some (closing d) → (∃ u, L !! u = Some d) → ∃ u, <[t := Nothing]> L !! u = Some d) as Hk.
  { intros d Hcl. apply (duty_kept _ _ l); [done|]. intros <-. destruct Hd as [->| ->]; by destruct Hcl. }
  apply (table_inv_own T T L t l Nothing p x x HI Hl Hx); [|done|by rewrite insert_id|done..|by intros [??]|].
  - intros q. destruct Hd as [->| ->]; [done|by intros [= ->]].
  - split; try done; rewrite ?Hc; try done; intros _.
    + destruct (G5 Hc); [left; eauto|by right].
    + destruct (G6 Hc) as [?|[?|?]]; [left; eauto|right; left; eauto|by right; right].
    + intros Hg. destruct (G7 Hc Hg) as [?|[?|?]]; [left; eauto|right; left; eauto|right; right; eauto].
Qed.

Lemma table_inv_CloseMain T L t p x :
  table_inv T L → L !! t = Some (OwesMain p) → objs T !! p = Some x →
  table_inv (putState p x (with_main (Cache.Close (mainCache (go_state x))) (go_state x)) T) (<[t := OwesNear p]> L).
Proof.
  intros HI Hl Hx. destruct (ti_objs _ _ HI p x Hx) as [G1 [Wm Wn] [[b Hb] G3] _ _ _ _].
  destruct (ti_closing _ _ HI _ _ p Hl eq_refl) as (y & Hy & Hc). assert (y = x) as -> by congruence.
  eapply (table_inv_own T _ L t _ _ p x _ HI Hl Hx); [by intros q [= ->]|by intros q [= ->]|done..|].
  unfold mainClosed in Hb. apply fmap_Some in Hb as (c & Hm & _).
  split; unfold mainClosed; cbn; rewrite ?Close_flag, ?Hm; try done; try congruence.
  - split; [|done]. rewrite <-Hm. by apply (cacheStep_wf CClose).
  - intros _. by right.
  - intros _. right. left. apply duty_new.
  - intros _ _. right. left. apply duty_new.
Qed.
Lemma table_inv_CloseNear T L t p x :
  table_inv T L → L !! t = Some (OwesNear p) → objs T !! p = Some x →
  table_inv (putState p x (with_near (Cache.Close (nearCache (go_state x))) (go_state x)) T) (<[t := OwesDrop p]> L).
Proof.
  intros HI Hl Hx. destruct (ti_objs _ _ HI p x Hx) as [G1 [Wm Wn] [Hb G3] _ G5 _ _].
  destruct (ti_closing _ _ HI _ _ p Hl eq_refl) as (y & Hy & Hc). assert (y = x) as -> by congruence.
  eapply (table_inv_own T _ L t _ _ p x _ HI Hl Hx); [by intros q [= ->]|by intros q [= ->]|done..|].
  split; unfold nearClosed in *; cbn; rewrite ?Close_flag; try done; try congruence.
  - split; [done|]. by apply (cacheStep_wf CClose).
  - split; [done|]. rewrite <-G3. by destruct (nearCache (go_state x)).
  - intros _. destruct (G5 Hc) as [Hm|Hm]; [left|by right]. by eapply duty_kept.
  - intros _. right. right. by destruct (nearCache (go_state x)).
  - intros _ _. right. right. apply duty_new.
Qed.
Lemma table_inv_Drop T L t p x :
  table_inv T L → L !! t = Some (OwesDrop p) → objs T !! p = Some x →
  table_inv (mkTable (if decide (groups T !! name (go_cfg x) = Some p) then delete (name (go_cfg x)) (groups T) else groups T)
    (objs T) (nextObj T)) (<[t := Nothing]> L).
Proof.
  intros HI Hl Hx. destruct (ti_objs _ _ HI p x Hx) as [G1 [Wm Wn] [Hb G3] _ G5 G6 _].
  destruct (ti_closing _ _ HI _ _ p Hl eq_refl) as (y & Hy & Hc). assert (y = x) as -> by congruence.
  apply (table_inv_own T _ L t _ _ p x x HI Hl Hx); [by intros q [= ->]|done|by rewrite insert_id|done|done| | |done|by intros [??]|]; cbn [groups].
  - intros n q. case_decide; [|done]. by intros [_ ?]%lookup_delete_Some.
  - intros n q Hne Hq. case_decide as Hp; [|done]. rewrite lookup_delete_ne; [done|]. intros <-. congruence.
  - split; cbn [groups nextObj]; try done; try congruence.
    + intros _. destruct (G5 Hc) as [?|?]; [left; by eapply duty_kept|by right].
    + intros _. destruct (G6 Hc) as [?|[?|?]]; [left; by eapply duty_kept|right; left; by eapply duty_kept|by right; right].
    + intros _. case_decide as Hp; [by rewrite lookup_delete_eq|done].
Qed.

Lemma tableEffect_inv e T T' r L t l l' :
  table_inv T L → tableEffect e T = Some (T', r) → L !! t = Some l → tobey e r l = Some l' → table_inv T' (<[t := l']> L).
Proof.
  intros HI He Hl Hob.
  destruct e as [nm cb getter opts|p|p|p|p|nm| |p|p|p|p|p peers|p e picker source tick t0]; cbn [tableEffect tobey] in He, Hob;
    try (apply bind_Some in He as (x & Hx & He)).
  - case_decide; [|done]. injection Hob as <-. subst l. injection He as <- <-. by eapply table_inv_New.
  - case_decide as Hd; [|done]. injection Hob as <-. destruct (closed (go_state x)) eqn:Hc; injection He as <- <-.
    + by eapply table_inv_Cas_lost.
    + by eapply table_inv_Cas.
  - case_decide; [|done]. injection Hob as <-. subst l. injection He as <- <-. by apply table_inv_CloseMain.
  - case_decide; [|done]. injection Hob as <-. subst l. injection He as <- <-. by apply table_inv_CloseNear.
  - case_decide; [|done]. injection Hob as <-. subst l. injection He as <- <-. by apply table_inv_Drop.
  - case_decide; [|done]. injection Hob as <-. subst l. injection He as <- <-. by rewrite insert_id.
  - case_decide; [|done]. injection Hob as <-. subst l. injection He as <- <-. by rewrite insert_id.
  - case_decide; [|done]. injection Hob as <-. subst l. injection He as <- <-. by rewrite insert_id.
  - case_decide; [|done]. injection Hob as <-. subst l. injection He as <- <-. rewrite insert_id by done.
    destruct (gi_wf _ _ _ _ (ti_objs _ _ HI p x Hx)) as [Wm Wn]. eapply table_inv_put; try done; [by apply (cacheStep_closed CClear)|by apply (cacheStep_wf CClear)].
  - case_decide; [|done]. injection Hob as <-. subst l. injection He as <- <-. rewrite insert_id by done.
    destruct (gi_wf _ _ _ _ (ti_objs _ _ HI p x Hx)) as [Wm Wn]. eapply table_inv_put; try done; [by apply (cacheStep_closed CClear)|by apply (cacheStep_wf CClear)].
  - case_decide; [|done]. injection Hob as <-. subst l. injection He as <- <-. by rewrite insert_id.
  - case_decide; [|done]. injection Hob as <-. subst l. injection He as <- <-. rewrite insert_id by done.
    destruct (gi_wf _ _ _ _ (ti_objs _ _ HI p x Hx)) as [Wm Wn]. by eapply table_inv_put.
  - case_decide; [|done]. injection Hob as <-. subst l. injection He as <- <-. rewrite insert_id by done.
    destruct (gi_wf _ _ _ _ (ti_objs _ _ HI p x Hx)) as [Wm Wn].
    destruct (handleNode_fields tick e (mkNode (go_cfg x) (go_state x) picker source) t0) as (_ & Hc & Tm & Tn).
    destruct (touched_wf _ _ Tm Wm) as [Wm' Hm']. destruct (touched_wf _ _ Tn Wn) as [Wn' Hn']. by eapply table_inv_put.
Qed.

(** ** Runs *)

(** In [tr] goroutine [t] has replaced the group [p] in the table; has closed [p]. *)
Definition replaced (tr : list (nat * act (ans := tans))) (t p : nat) : Prop :=
  ∃ nm cb getter opts g, (t, did (ans := tans) (TvNew nm cb getter opts) (g, Some p)) ∈ tr.
Definition closedBy (tr : list (nat * act (ans := tans))) (t p : nat) : Prop := (t, did (ans := tans) (TvCas p) true) ∈ tr.

Definition running (c : system tans groupTable) (t : nat) : Prop := ∃ p, sy_pool c !! t = Some p ∧ finished p = false.

(** How a goroutine came to its duty. *)
Definition dutyFrom (tr : list (nat * act (ans := tans))) (t : nat) (l : duty) : Prop :=
  match l with Nothing => True | Replaced p => replaced tr t p | OwesMain p | OwesNear p | OwesDrop p => closedBy tr t p end.

Lemma dutyFrom_snoc tr t l a : dutyFrom tr t l → dutyFrom (tr ++ [a]) t l.
Proof.
  destruct l; cbn; [done| |unfold closedBy; set_solver..]. intros (nm & cb & getter & opts & g & Hin). exists nm, cb, getter, opts, g. set_solver.
Qed.
Lemma dutyFrom_step tr t e x l l' : dutyFrom tr t l → tobey e x l = Some l' → dutyFrom (tr ++ [(t, did e x)]) t l'.
Proof.
  intros Hl Hob. destruct e as [nm cb getter opts|p|p|p|p|nm| |p|p|p|p|p peers|p e picker source tick t0];
    cbn [tobey] in Hob; case_decide as Hd; try done; injection Hob as <-; try done; try (subst l; by apply dutyFrom_snoc).
  - destruct x as [g [old|]]; cbn; [|done]. case_decide; [done|]. exists nm, cb, getter, opts, g. set_solver.
  - destruct x; [|done]. unfold dutyFrom, closedBy. set_solver.
Qed.

Record table_run_inv tr (c : system tans groupTable) (L : gmap nat duty) : Prop := {
  tr_pooled : pooled tobey Nothing c L;
  tr_inv : table_inv (sy_shared c) L;
  tr_duty : ∀ t l, L !! t = Some l → dutyFrom tr t l
}.

Lemma tableRun_inv ops tr c : tableRun ops tr c → ∃ L, table_run_inv tr c L.
Proof.
  intros Hrun. induction Hrun as [|tr c1 [t a] c2 Hrun (L & [HP HI HD]) Hs].
  - exists ((λ _, Nothing) <$> ops). split.
    + apply pooled_start, tableProgram_obeys.
    + split; cbn; [by intros n p; rewrite lookup_empty|by intros p x; rewrite lookup_empty|].
      by intros t l p ->%start_idle.
    + by intros t l ->%start_idle.
  - destruct (pooled_step _ _ _ _ _ _ _ _ HP Hs) as (l & l' & ((forced & He & Hf) & Hl & Hob) & HP'). exists (<[t := l']> L).
    destruct a as [e x]. cbn [projT1 projT2] in *. unfold tableEff in He. apply fmap_Some in He as ([T' r] & He & [= Hsh ->]).
    cbn [fst] in Hsh. specialize (Hf _ eq_refl). cbn in Hf. subst x. split; [done| |].
    + rewrite Hsh. by eapply tableEffect_inv.
    + intros u d [[<- <-]|[_ Hd]]%lookup_insert_Some; [eapply (dutyFrom_step _ _ e r); eauto|by apply dutyFrom_snoc, HD].
Qed.

Lemma duty_running tr c L t l : table_run_inv tr c L → L !! t = Some l → l ≠ Nothing → running c t.
Proof.
  intros [HP _ _] Hl Hne. destruct (busy_next _ _ _ _ _ _ HP Hl Hne) as (e & k & Hp & _). by exists (Vis e k).
Qed.

(** Both caches of the group are open; are closed. *)
Definition cachesOpen (x : gobj) : Prop :=
  mainClosed x = Some false ∧ nearClosed x = if hasNear (go_cfg x) then Some false else None.
Definition cachesClosed (x : gobj) : Prop :=
  mainClosed x = Some true ∧ nearClosed x = if hasNear (go_cfg x) then Some true else None.

Lemma flag_is (o : option bool) b : is_Some o → o ≠ Some (negb b) → o = Some b.
Proof. intros [[] ->]; by destruct b. Qed.
Lemma near_flag_is x b :
  (is_Some (nearClosed x) ↔ hasNear (go_cfg x) = true) → nearClosed x ≠ Some (negb b) →
  nearClosed x = if hasNear (go_cfg x) then Some b else None.
Proof.
  intros Hi Hne. destruct (hasNear (go_cfg x)); [apply flag_is; naive_solver|].
  destruct (nearClosed x) eqn:Hn; [|done]. assert (false = true) by (apply Hi; eauto). done.
Qed.

Lemma table_now tr c L :
  table_run_inv tr c L →
  let T := sy_shared c in
  (∀ n p, groups T !! n = Some p → ∃ x, objs T !! p = Some x ∧ name (go_cfg x) = n) ∧
  (∀ p x, objs T !! p = Some x → closed (go_state x) = false →
     cachesOpen x ∧ (groups T !! name (go_cfg x) = Some p ∨ ∃ t, running c t ∧ replaced tr t p)) ∧
  (∀ p x, objs T !! p = Some x → closed (go_state x) = true →
     (cachesClosed x ∧ groups T !! name (go_cfg x) ≠ Some p) ∨ ∃ t, running c t ∧ closedBy tr t p).
Proof.
  intros HR T. assert (∀ t l, L !! t = Some l → l ≠ Nothing → running c t ∧ dutyFrom tr t l) as Hduty.
  { intros t l Hl Hne. split; [by eapply duty_running|by eapply tr_duty]. }
  destruct (tr_inv _ _ _ HR) as [I1 I2 _]. split_and!; [done| |].
  - intros p x Hx Hc. destruct (I2 p x Hx) as [_ _ [Hm Hn] G4 _ _ _]. destruct (G4 Hc) as (Hm' & Hn' & Hreg).
    split; [split; [by apply flag_is|by apply near_flag_is]|]. destruct Hreg as [?|[t Ht]]; [by left|right]. exists t. by apply (Hduty t (Replaced p)).
  - intros p x Hx Hc. destruct (I2 p x Hx) as [_ _ [Hm Hn] _ G5 G6 G7].
    assert (∀ d, closing d = Some p → (∃ t, L !! t = Some d) → ∃ t, running c t ∧ closedBy tr t p) as Hcl.
    { intros d Hd [t Ht]. exists t. destruct d; try done; injection Hd as ->; by apply (Hduty t _ Ht). }
    destruct (G5 Hc) as [?|Hm']; [right; by eapply (Hcl (OwesMain p))|].
    destruct (G6 Hc) as [?|[?|Hn']]; [right; by eapply (Hcl (OwesMain p))|right; by eapply (Hcl (OwesNear p))|].
    destruct (decide (groups T !! name (go_cfg x) = Some p)) as [Hg|Hg].
    + right. destruct (G7 Hc Hg) as [?|[?|?]]; [by eapply (Hcl (OwesMain p))|by eapply (Hcl (OwesNear p))|by eapply (Hcl (OwesDrop p))].
    + left. split; [split; [by apply flag_is|by apply near_flag_is]|done].
Qed.

(** [C40] The table of groups, with the goroutines that create, close, destroy,
    clear and use groups interleaved event by event.  At every moment a name
    leads to a group of that name; an open group has open caches and is
    registered, unless a goroutine that has replaced it has yet to close it; a
    closed group has closed caches and is not registered, unless the goroutine
    that closed it is still at it.  So when all calls have returned, the names lead
    to exactly the open groups, and the caches of all others are closed. *)
Theorem groups_settle ops tr c :
  tableRun ops tr c →
  let T := sy_shared c in
  (∀ n p, groups T !! n = Some p → ∃ x, objs T !! p = Some x ∧ name (go_cfg x) = n) ∧
  (∀ p x, objs T !! p = Some x → closed (go_state x) = false →
     cachesOpen x ∧ (groups T !! name (go_cfg x) = Some p ∨ ∃ t, running c t ∧ replaced tr t p)) ∧
  (∀ p x, objs T !! p = Some x → closed (go_state x) = true →
     (cachesClosed x ∧ groups T !! name (go_cfg x) ≠ Some p) ∨ ∃ t, running c t ∧ closedBy tr t p) ∧
  (allFinished c = true →
     (∀ n p, groups T !! n = Some p ↔ ∃ x, objs T !! p = Some x ∧ name (go_cfg x) = n ∧ closed (go_state x) = false) ∧
     (∀ p x, objs T !! p = Some x → closed (go_state x) = true → cachesClosed x)).
Proof.
  intros Hrun T. destruct (tableRun_inv _ _ _ Hrun) as [L HR]. destruct (table_now _ _ _ HR) as (H1 & H2 & H3).
  split_and!; [done..|]. intros Hf.
  assert (∀ t, ¬ running c t) as Hidle by (intros t (p & Hp & Hn); pose proof (allFinished_at _ _ _ Hf Hp); congruence).
  split; [|intros p x Hx Hc; destruct (H3 p x Hx Hc) as [[? _]|(t & []%Hidle & _)]; done].
  intros n p. split.
  - intros Hg. destruct (H1 n p Hg) as (x & Hx & <-). exists x. split_and!; [done|done|]. destruct (closed (go_state x)) eqn:Hc; [|done].
    destruct (H3 p x Hx Hc) as [[_ ?]|(t & []%Hidle & _)]; done.
  - intros (x & Hx & <- & Hc). by destruct (H2 p x Hx Hc) as [_ [?|(t & []%Hidle & _)]].
Qed.

(** ** Calls that nothing interrupts *)

Lemma NewGroup_first nm cb getter opts x T :
  newObj nm cb getter opts = Some x → groups T !! nm = None →
  runAlone (NewGroup nm cb getter opts) T =
    Some (mkTable (<[nm := nextObj T]> (groups T)) (<[nextObj T := x]> (objs T)) (nextObj T + 1)%nat, Val (nextObj T)).
Proof. intros Hx Hg. cbn. by rewrite Hx, Hg. Qed.

(** ** A group that is replaced

    A goroutine creates a group, and another one of the same name. *)

Definition w_tops : gmap nat tableOp :=
  {[0%nat := TNew "scores" 0 true [WithNearCache 4096 60; WithExpiration 5]; 1%nat := TNew "scores" 0 true []; 2%nat := TClear 0]}.
Definition w_trun : list (nat * act (ans := tans)) * system tans groupTable :=
  outcomeOf tableEff (λ _ e, match e return tans e with
    | TvNew _ _ _ _ => (0%nat, None) | TvCas _ | TvClosed _ | TvHasPeers _ => false | TvLookup _ => None | TvSnapshot => [] | _ => tt end)
    [0; 1; 2; 1; 2; 1; 1; 2; 1]%nat (tableStart w_tops).

Lemma w_trun_run : tableRun w_tops w_trun.1 w_trun.2.
Proof. apply outcomeOf_run. vm_compute. reflexivity. Qed.

Lemma w_trun_done : allFinished w_trun.2 = true ∧ groups (sy_shared w_trun.2) !! "scores" = Some 1%nat.
Proof. vm_compute. split; reflexivity. Qed.

Lemma groups_settle_witness :
  allFinished w_trun.2 = true ∧ groups (sy_shared w_trun.2) !! "scores" = Some 1%nat ∧
  ∃ x, objs (sy_shared w_trun.2) !! 1%nat = Some x ∧ name (go_cfg x) = "scores" ∧ closed (go_state x) = false.
Proof.
  destruct w_trun_done as [Hf Hg]. split; [exact Hf|]. split; [exact Hg|].
  destruct (groups_settle w_tops w_trun.1 w_trun.2 w_trun_run) as (_ & _ & _ & Hall).
  exact (proj1 (proj1 (Hall Hf) "scores" 1%nat) Hg).
Defined.
