(* ===== verification/Concurrent.v ===== *)
(** * Concurrent operations on a node (group.go, singleflight/)

    Any number of goroutines run methods of one group at the same time.  A step
    is one event of one goroutine.  The events that synchronise goroutines have
    the effect they have in the code: the key states with their reference
    counts, generations and mutexes, [ownerEpochMu] and [ownerEpoch], and the calls
    in flight of the loader.  All other events (caches, picker, peers, source, counters,
    clock) may be answered in any way, so what is proved holds for every
    behaviour of those components. *)

From S2P Require Import Prelude Store ByteView Errors Cache Peers Singleflight Prog Interleave Group Rpc Node.
#[local] Open Scope prog_scope.

(** ** The operations a goroutine can run *)

Inductive operation :=
| OGet (ticks : nat → nat) (key : string)
| OSet (ticks : nat → nat) (key : string) (value : list Z)
| ODelete (ticks : nat → nat) (key : string)
| OServeGet (req : Request)
| OServeSet (req : Request)
| OServeDelete (req : Request).

Definition program (g : config) (o : operation) : gprog unit :=
  match o with
  | OGet ticks key => Group.Get g ticks key ;;; Ret tt
  | OSet ticks key value => Set_ g ticks key value ;;; Ret tt
  | ODelete ticks key => Group.Delete g ticks key ;;; Ret tt
  | OServeGet req => Server_Get (Some g) req ;;; Ret tt
  | OServeSet req => Server_Set (Some g) req ;;; Ret tt
  | OServeDelete req => Server_Delete (Some g) req ;;; Ret tt
  end.

(** ** The shared state that synchronises them *)

Record shared (S : Type) := mkShared {
  sh_group : Node.Group S;                       (* key states and the loader's map *)
  sh_locks : gmap nat nat;                       (* the goroutine that holds a key state's mu *)
  sh_owner : option nat;                         (* the goroutine that holds ownerEpochMu *)
  sh_done : gmap nat (outcome (error + ByteView)) (* the calls whose wg.Done has run *)
}.
Arguments mkShared {S}.
Arguments sh_group {S}.
Arguments sh_locks {S}.
Arguments sh_owner {S}.
Arguments sh_done {S}.

Section machine.
Context {S : Type} `{Store S ByteView}.

Definition on_shared (f : Node.Group S → Node.Group S) (s : shared S) : shared S :=
  mkShared (f (sh_group s)) (sh_locks s) (sh_owner s) (sh_done s).
Definition with_locks (l : gmap nat nat) (s : shared S) : shared S :=
  mkShared (sh_group s) l (sh_owner s) (sh_done s).
Definition with_owner (o : option nat) (s : shared S) : shared S :=
  mkShared (sh_group s) (sh_locks s) o (sh_done s).

Definition genOf (st : nat) (g : Node.Group S) : Z :=
  match ksHeap g !! st with Some s => generation s | None => 0 end.
Definition incGen (st : nat) (g : Node.Group S) : Node.Group S :=
  with_keys (keyStates g) (alter (λ s, mkKeyState (uint64 (generation s + 1)) (refs s)) st (ksHeap g)) (ksNext g) g.

(** [Do] of the loader: entering (the map has a call, or a new one is made and
    put there), waiting for a call, and the deferred end (delete the call if it is still
    the one in the map, then [wg.Done]). *)
Definition flightEnter (key : string) (s : shared S) : option (shared S * option flight) :=
  let g := sh_group s in
  match loader g !! key with
  | Some c => Some (s, Some (Join c))
  | None =>
      let c := loaderNext g in
      Some (on_shared (with_loader (<[key := c]> (loader g)) (c + 1)%nat) s, Some (Lead c))
  end.
Definition flightWait (c : nat) (s : shared S) : option (shared S * option (outcome (error + ByteView))) :=
  match sh_done s !! c with Some o => Some (s, Some o) | None => None end.
Definition flightEnd (key : string) (c : nat) (o : outcome (error + ByteView)) (s : shared S) : option (shared S * option unit) :=
  let g := sh_group s in
  Some (mkShared (with_loader (if decide (loader g !! key = Some c) then delete key (loader g) else loader g) (loaderNext g) g)
          (sh_locks s) (sh_owner s) (<[c := o]> (sh_done s)), None).

(** The mutexes of a key state and of the owner epoch: locking waits while a
    goroutine holds them. *)
Definition lockKey (t st : nat) (s : shared S) : option (shared S * option unit) :=
  match sh_locks s !! st with
  | None => Some (with_locks (<[st := t]> (sh_locks s)) s, None)
  | Some _ => None
  end.
Definition lockOwner (t : nat) (s : shared S) : option (shared S * option unit) :=
  match sh_owner s with None => Some (with_owner (Some t) s, None) | Some _ => None end.

(** The effect of an event of goroutine [t]: [None] if it has to wait, otherwise
    the new state and the answer, if it is determined by the state. *)
Definition effect (t : nat) (e : ev) (s : shared S) : option (shared S * option (ans e)) :=
  let g := sh_group s in
  match e with
  | EvAcquire key => let r := acquireKeyState key g in Some (on_shared (λ _, r.1) s, Some r.2)
  | EvRelease key st => Some (on_shared (releaseKeyState key st) s, None)
  | EvLock st => lockKey t st s
  | EvUnlock st => Some (with_locks (delete st (sh_locks s)) s, None)
  | EvGen st => Some (s, Some (genOf st g))
  | EvIncGen st => Some (on_shared (incGen st) s, None)
  | EvOwnerLock => lockOwner t s
  | EvOwnerUnlock => Some (with_owner None s, None)
  | EvOwnerGet => Some (s, Some (ownerEpoch g))
  | EvOwnerPut e => Some (on_shared (with_ownerEpoch e) s, None)
  | EvFlight key => flightEnter key s
  | EvFlightWait c => flightWait c s
  | EvFlightEnd key c o => flightEnd key c o s
  | _ => Some (s, None)
  end.

Definition freshShared (g : Node.Group S) : shared S :=
  mkShared (with_loader ∅ 0 (with_keys ∅ ∅ 0 g)) ∅ None ∅.

(** The start: goroutine [t] is about to run [ops !! t]. *)
Definition start (cfg : config) (g : Node.Group S) (ops : gmap nat operation) : system ans (shared S) :=
  mkSystem (freshShared g) (program cfg <$> ops).
End machine.

(** Unfold the effect of an event in a hypothesis. *)
Ltac effect_in H := cbn [effect] in H; unfold flightEnter, flightWait, flightEnd, lockKey, lockOwner in H.

Notation gsystem S := (system ans (shared S)).
Notation gstep := (sysStep effect).
Notation grun := (sysRun effect).

(** ** A concrete run

    One goroutine serves a [Get], another a [Set] of the same key. *)

Definition anyAnswer (e : ev) : ans e :=
  match e return ans e with
  | EvClosed | EvMainDelete _ | EvNearDelete _ => false
  | EvNow | EvEpoch | EvOwnerGet | EvGen _ => 0
  | EvPickOwner _ => mkPick "" PeerNil false 0 false
  | EvInvalidate _ _ _ | EvPeerSet _ _ _ _ | EvSelect _ => None
  | EvPeerGet _ _ _ => inr []
  | EvPeerDelete _ _ _ => inr false
  | EvGetter _ => LoadOk [7]
  | EvMainGet _ | EvNearGet _ => None
  | EvAcquire _ => 0%nat
  | EvFlight _ => Join 0
  | EvFlightWait _ => Panicked ""
  | _ => tt
  end.

Definition w_cfg : config := mkGConfig "scores" true false 0 false 0.
Definition w_group : Node.Group unit := mkGroup false None None 0 ∅ ∅ 0 ∅ 0 (λ _, 0).
Definition w_ops : gmap nat operation :=
  {[ 0%nat := OServeGet (mkRequest "scores" "Tom" [] false); 1%nat := OServeSet (mkRequest "scores" "Tom" [9] false) ]}.

Definition w_result (sched : list nat) : list (nat * act (ans := ans)) * gsystem unit :=
  outcomeOf effect (λ _, anyAnswer) sched (start w_cfg w_group w_ops).
