(* ===== verification/Discipline.v ===== *)
(** * The discipline of a goroutine

    What a goroutine that runs an operation of a group has at each moment
    ([local]), which events it may perform then ([obey]), and the proof that
    every operation keeps to it, whatever the answers ([program_idles]). *)

From S2P Require Import Prelude Store ByteView Errors Cache Peers Singleflight Prog Interleave Group Rpc GroupFacts Node Concurrent.
#[local] Open Scope prog_scope.

(** ** The discipline of a goroutine

    What a goroutine has: a reference on a key state, that state's mutex (and
    whether it advanced the generation since it locked, and has written or deleted
    the key in the owner cache since), the generation it read
    before a load, the bytes it loaded since, whether it found the generation
    unchanged after the load, [ownerEpochMu], the call it leads and the call it
    waits for. *)
Record local := mkLocal {
  l_ref : option (string * nat);
  l_lock : bool;
  l_inc : bool;
  l_wrote : bool;
  l_gen : option Z;
  l_bytes : option (list Z);
  l_same : bool;
  l_owner : bool;
  l_lead : option (string * nat);
  l_wait : option nat
}.

Definition idle : local := mkLocal None false false false None None false false None None.

Definition setRef (r : option (string * nat)) (l : local) : local :=
  mkLocal r false false false None None false (l_owner l) (l_lead l) (l_wait l).
Definition setLock (b : bool) (l : local) : local :=
  mkLocal (l_ref l) b false false (l_gen l) (l_bytes l) false (l_owner l) (l_lead l) (l_wait l).
Definition setInc (l : local) : local :=
  mkLocal (l_ref l) (l_lock l) true false None None false (l_owner l) (l_lead l) (l_wait l).
Definition setWrote (l : local) : local :=
  mkLocal (l_ref l) (l_lock l) (l_inc l) true (l_gen l) (l_bytes l) (l_same l) (l_owner l) (l_lead l) (l_wait l).
Definition setGen (n : Z) (l : local) : local :=
  mkLocal (l_ref l) (l_lock l) (l_inc l) (l_wrote l) (Some n) None false (l_owner l) (l_lead l) (l_wait l).
Definition setSame (b : bool) (l : local) : local :=
  mkLocal (l_ref l) (l_lock l) (l_inc l) (l_wrote l) (l_gen l) (l_bytes l) b (l_owner l) (l_lead l) (l_wait l).
Definition setBytes (b : option (list Z)) (l : local) : local :=
  mkLocal (l_ref l) (l_lock l) (l_inc l) (l_wrote l) (l_gen l) b false (l_owner l) (l_lead l) (l_wait l).
Definition setOwner (b : bool) (l : local) : local :=
  mkLocal (l_ref l) (l_lock l) (l_inc l) (l_wrote l) (l_gen l) (l_bytes l) (l_same l) b (l_lead l) (l_wait l).
Definition setFlight (lead : option (string * nat)) (wait : option nat) (l : local) : local :=
  mkLocal (l_ref l) (l_lock l) (l_inc l) (l_wrote l) (l_gen l) (l_bytes l) (l_same l) (l_owner l) lead wait.

(** The goroutine holds no mutex. *)
Definition lockFree (l : local) : bool := negb (l_lock l) && negb (l_owner l).
Definition refsTo (st : nat) (l : local) : bool :=
  match l_ref l with Some (_, st') => bool_decide (st = st') | None => false end.
Definition refsKey (key : string) (l : local) : bool :=
  match l_ref l with Some (key', _) => bool_decide (key = key') | None => false end.

(** A write to the owner cache is part of a mutation, or stores what was loaded. *)
Definition mayAdd (key : string) (v : ByteView) (l : local) : bool :=
  refsKey key l && l_lock l && (l_inc l || (l_same l && bool_decide (l_bytes l = Some (b v)))).

Definition guard (c : bool) (l : local) : option local := if c then Some l else None.

(** One event of a goroutine; [None] breaks the discipline. *)
Definition obey (e : ev) (x : ans e) (l : local) : option local :=
  match e return ans e → option local with
  | EvAcquire key => λ st, guard (lockFree l && bool_decide (l_ref l = None)) (setRef (Some (key, st)) l)
  | EvRelease key st => λ _, guard (negb (l_lock l) && bool_decide (l_ref l = Some (key, st))) (setRef None l)
  | EvLock st => λ _, guard (lockFree l && refsTo st l && bool_decide (l_wait l = None)) (setLock true l)
  | EvUnlock st => λ _, guard (l_lock l && refsTo st l && (negb (l_inc l) || l_wrote l)) (setLock false l)
  | EvGen st => λ n,
      guard (l_lock l && refsTo st l)
        (match l_bytes l with None => setGen n l | Some _ => setSame (bool_decide (l_gen l = Some n)) l end)
  | EvIncGen st => λ _, guard (l_lock l && refsTo st l) (setInc l)
  | EvGetter key => λ r,
      guard (lockFree l && refsKey key l && bool_decide (is_Some (l_gen l)))
        (setBytes (match r with LoadOk bytes => Some bytes | _ => None end) l)
  | EvMainAdd key v => λ _, guard (mayAdd key v l) (setWrote l)
  | EvMainAddExp key v _ => λ _, guard (mayAdd key v l) (setWrote l)
  | EvMainDelete key => λ _, Some (if l_lock l && refsKey key l then setWrote l else l)
  | EvOwnerLock => λ _, guard (lockFree l && bool_decide (l_wait l = None)) (setOwner true l)
  | EvOwnerUnlock => λ _, guard (l_owner l) (setOwner false l)
  | EvOwnerGet => λ _, guard (l_owner l) l
  | EvOwnerPut _ => λ _, guard (l_owner l) l
  | EvMainClear => λ _, guard (l_owner l) l
  | EvFlight key => λ f,
      guard (lockFree l && bool_decide (l_lead l = None) && bool_decide (l_wait l = None))
        (match f with Lead c => setFlight (Some (key, c)) None l | Join c => setFlight None (Some c) l end)
  | EvFlightWait c => λ _,
      guard (lockFree l && bool_decide (l_lead l = None) && bool_decide (l_wait l = Some c)) (setFlight None None l)
  | EvFlightEnd key c _ => λ _,
      guard (lockFree l && bool_decide (l_lead l = Some (key, c)) && bool_decide (l_wait l = None)) (setFlight None None l)
  | EvPeerGet _ _ _ => λ _, guard (lockFree l) l
  | EvPeerSet _ _ _ _ => λ _, guard (lockFree l) l
  | EvPeerDelete _ _ _ => λ _, guard (lockFree l) l
  | EvInvalidate _ _ _ => λ _, guard (lockFree l) l
  | EvSelect _ => λ _, guard (lockFree l) l
  | _ => λ _, Some l
  end x.

Lemma guard_Some c l l' : guard c l = Some l' → c = true ∧ l' = l.
Proof. unfold guard. by destruct c; intros [= <-]. Qed.

(** Read off what an event that obeys requires of the goroutine. *)
Ltac guard_inv :=
  repeat match goal with
  | H : _ && _ = true |- _ => apply andb_true_iff in H as [? H]
  | H : bool_decide _ = true |- _ => apply bool_decide_eq_true in H
  | H : lockFree _ = true |- _ => unfold lockFree in H
  | H : negb _ = true |- _ => apply negb_true_iff in H
  end.
Ltac obey_inv H := cbn [obey] in H; apply guard_Some in H as [H ->]; guard_inv.

Notation gobeys := (obeys obey).

(** Events that do not concern the discipline of a goroutine without mutex. *)
Definition plain (e : ev) : Prop :=
  match e with
  | EvAcquire _ | EvRelease _ _ | EvLock _ | EvUnlock _ | EvGen _ | EvIncGen _ | EvGetter _ | EvMainAdd _ _
  | EvMainAddExp _ _ _ | EvOwnerLock | EvOwnerUnlock | EvOwnerGet | EvOwnerPut _ | EvMainClear | EvFlight _
  | EvFlightWait _ | EvFlightEnd _ _ _ => False
  | _ => True
  end.

Lemma every_obeys {A} l (p : gprog A) : every plain p → lockFree l = true → gobeys l p (λ l' _, l' = l).
Proof.
  intros Hp Hl. induction p as [a|v|e k IH]; simpl; [done|done|]. destruct Hp as [He Hk]. intros x.
  assert (obey e x l = Some l) as -> by (destruct e; simpl in *; try done; unfold guard; rewrite ?Hl; try done;
    apply andb_true_iff in Hl as [->%negb_true_iff _]; done).
  by apply IH.
Qed.

(** ** Every operation obeys *)

Section programs.
Context (g : config).

Lemma waitLoop_plain n e : every plain (waitLoop n e).
Proof. induction n as [|n IH]; cbn [waitLoop]; every_tac. Qed.
Lemma waitRetry_plain n e : every plain (waitForTopologyRetry g n e).
Proof. unfold waitForTopologyRetry. case_match; [done|]. apply waitLoop_plain. Qed.
Lemma invalidateNearKey_plain key : every plain (invalidateNearKey g key).
Proof. unfold invalidateNearKey. every_tac. Qed.
Hint Resolve waitRetry_plain invalidateNearKey_plain : locache.
Lemma invalidateLocalCopies_plain key : every plain (invalidateLocalCopies g key).
Proof. unfold invalidateLocalCopies. every_tac; auto with locache. Qed.
Lemma invalidatePeerCopies_plain key o : every plain (invalidatePeerCopies g key o).
Proof. unfold invalidatePeerCopies. every_tac. Qed.
Lemma confirm_plain last key r : every plain (confirm last key r).
Proof. unfold confirm. every_tac. Qed.
Lemma refused_plain last n r : every plain (refused g last n r).
Proof. unfold refused. every_tac; auto with locache. Qed.
Lemma nearLookup_plain key r : every plain (nearLookup g key r).
Proof. unfold nearLookup. every_tac. Qed.

(** Walk over the next event: compute the discipline and take any answer. *)
Ltac ocalc := cbn [obey guard lockFree refsTo refsKey mayAdd l_ref l_lock l_inc l_wrote l_gen l_bytes l_same l_owner
    l_lead l_wait negb andb orb setRef setLock setInc setWrote setGen setSame setBytes setOwner setFlight idle];
  rewrite ?bool_decide_eq_true_2 by eauto; cbn [andb orb guard].
Tactic Notation "ostep" ident(x) := apply obeys_bind; cbn [obeys event]; intros x; ocalc.
Tactic Notation "ostep" := apply obeys_bind; cbn [obeys event]; intros ?; ocalc.

(** The last event of a deferred release. *)
Ltac orel := cbn [obeys event]; intros ?; ocalc; done.

Lemma prepareLocalOwner_obeys l key :
  lockFree l = true → l_wait l = None → gobeys l (prepareLocalOwner g key) (λ l' r, l' = l ∧ ∃ a, r = Val a).
Proof.
  destruct l as [rf lk inc wr gn by_ sm ow ld wt]. unfold lockFree. cbn. intros [Hlk How]%andb_true_iff ->.
  apply negb_true_iff in Hlk as ->, How as ->.
  unfold prepareLocalOwner. destruct (hasPeers g); cbn [negb]; [|cbn; eauto].
  ostep r. case_match; [cbn; eauto|]. case_match; [cbn; eauto|]. ostep. ostep oe. apply obeys_bind.
  case_decide; [|case_decide].
  - cbn [obeys event]. intros y. cbn [obey guard l_owner setOwner]. ostep. cbn. eauto.
  - ostep. cbn [obeys event]. intros y. cbn [obey guard l_owner setOwner]. ostep. cbn. eauto.
  - cbn [obeys]. ostep. cbn. eauto.
Qed.

(** The state of a goroutine that has a reference and leads a call or not. *)
Definition having key st lead : local := mkLocal (Some (key, st)) false false false None None false false lead None.

Lemma addOwnerValue_obeys l key v :
  mayAdd key v l = true → gobeys l (addOwnerValue g key v) (λ l' r, l' = setWrote l ∧ r = Val tt).
Proof.
  intros Hm. unfold addOwnerValue. case_match.
  - apply obeys_bind. cbn [obeys event]. intros x. cbn [obey]. intros []. unfold guard. by rewrite Hm.
  - cbn [obeys event]. intros []. cbn [obey]. unfold guard. by rewrite Hm.
Qed.

Lemma loadOwner_obeys key epoch st c :
  gobeys (having key st (Some c)) (loadOwner g key epoch st) (λ l' _,
    ∃ gn bs, l' = mkLocal (Some (key, st)) false false false gn bs false false (Some c) None).
Proof.
  unfold loadOwner, having. ostep. ostep cached. destruct cached as [view|].
  { ostep. cbn [obeys]. eauto. }
  ostep gen. ostep. ostep now. ostep. ostep l. destruct l as [bytes|err|v]; [..|cbn [obeys]; eauto].
  2:{ ostep. ostep. ostep. cbn [obeys]. eauto. }
  ostep. ostep. apply obeys_bind. eapply (obeys_mono _ _ _ (λ l' r, l' = mkLocal (Some (key, st)) false false false (Some gen) (Some bytes) false false (Some c) None ∧ ∃ a, r = Val a)).
  { case_match; [ostep|]; cbn [obeys]; eauto. }
  intros l' r [-> [moved ->]]. destruct moved; [cbn [obeys]; eauto|].
  ostep. apply obeys_finally. ostep gen'. case_decide as Hne.
  - ostep view. case_match; cbn [obeys event]; intros y; ocalc; eauto.
  - assert (gen' = gen) as -> by (destruct (decide (gen' = gen)); tauto). apply obeys_bind.
    eapply obeys_mono; [apply addOwnerValue_obeys|].
    { unfold mayAdd, refsKey. ocalc. by rewrite cloneBytes_id, !bool_decide_eq_true_2. }
    intros l' r [-> ->]. cbn [obeys event]. intros y. ocalc. eauto.
Qed.

Lemma flightDo_obeys key epoch st :
  gobeys (having key st None) (flightDo key (loadOwner g key epoch st)) (λ l' _,
    ∃ gn bs, l' = mkLocal (Some (key, st)) false false false gn bs false false None None).
Proof.
  unfold flightDo, having. ostep f. destruct f as [c|c].
  - apply obeys_bind, obeys_catch. eapply obeys_mono; [apply (loadOwner_obeys key epoch st (key, c))|].
    intros l' r (gn & bs & ->). ostep. destruct r; cbn [obeys]; eauto.
  - ostep o. destruct o; cbn [obeys]; eauto.
Qed.

Lemma getLocal_obeys key : gobeys idle (getLocal g key) (λ l' _, l' = idle).
Proof.
  unfold getLocal. ostep cl. case_match; [done|]. apply obeys_bind.
  eapply obeys_mono; [by apply prepareLocalOwner_obeys|]. intros l' r [-> [[err|epoch] ->]]; [done|].
  ostep st. apply obeys_finally.
  ostep hit. destruct hit as [view|]; [ostep; orel|]. ostep.
  destruct (hasGetter g); cbn [negb]; [|orel].
  apply obeys_bind. eapply obeys_mono; [apply flightDo_obeys|]. intros l' [r|v] (gn & bs & ->).
  - destruct r as [err|view]; [case_match|]; orel.
  - orel.
Qed.

(** A mutation: the critical section that advances the generation. *)
Lemma setLocal_obeys key value : gobeys idle (setLocal g key value) (λ l' _, l' = idle).
Proof.
  unfold setLocal. ostep cl. case_match; [done|]. apply obeys_bind.
  eapply obeys_mono; [by apply prepareLocalOwner_obeys|]. intros l' r [-> [prep ->]].
  enough (gobeys idle (st <- do (EvAcquire key) ;; finally
     (do (EvLock st) ;;; do (EvIncGen st) ;;; addOwnerValue g key (mkByteView (cloneBytes value)) ;;;
      do (EvUnlock st) ;;; invalidateNearKey g key ;;; Ret (None : option error)) (do (EvRelease key st)))%prog (λ l' _, l' = idle)) as Hgo.
  { destruct prep as [err|epoch]; [destruct (hasPeers g); [done|exact Hgo]|exact Hgo]. }
  ostep st. apply obeys_finally. ostep. ostep. apply obeys_bind.
  eapply obeys_mono; [apply addOwnerValue_obeys; unfold mayAdd, refsKey; by ocalc|]. intros l' r [-> ->]. ostep. apply obeys_bind.
  eapply obeys_mono; [apply every_obeys; [apply invalidateNearKey_plain|done]|]. intros l' r ->.
  destruct r; orel.
Qed.

Lemma deleteLocal_obeys key : gobeys idle (deleteLocal g key) (λ l' _, l' = idle).
Proof.
  unfold deleteLocal. ostep st. apply obeys_finally. ostep. ostep. ostep. ostep. apply obeys_bind.
  eapply obeys_mono; [apply every_obeys; [apply invalidateNearKey_plain|done]|]. intros l' r ->.
  destruct r; orel.
Qed.

Lemma deleteOwnerLocal_obeys key : gobeys idle (deleteOwnerLocal g key) (λ l' _, l' = idle).
Proof.
  unfold deleteOwnerLocal. ostep cl. case_match; [done|]. apply obeys_bind.
  eapply obeys_mono; [by apply prepareLocalOwner_obeys|]. intros l' r [-> [prep ->]].
  assert (gobeys idle (removed <- deleteLocal g key ;; Ret (inr removed : error + bool))%prog (λ l' _, l' = idle)) as Hgo.
  { apply obeys_bind. eapply obeys_mono; [apply deleteLocal_obeys|]. by intros l' [] ->. }
  destruct prep as [err|epoch]; [destruct (hasPeers g); [done|exact Hgo]|exact Hgo].
Qed.

(** Sequencing of programs that begin and end idle. *)
Definition idles {A} (p : gprog A) : Prop := gobeys idle p (λ l' _, l' = idle).
Lemma idles_plain {A} (p : gprog A) : every plain p → idles p.
Proof. intros Hp. by apply every_obeys. Qed.
Lemma idles_bind {A B} (p : gprog A) (f : A → gprog B) : idles p → (∀ a, idles (f a)) → idles (bind p f).
Proof. intros Hp Hf. apply obeys_bind. eapply obeys_mono; [exact Hp|]. intros l' [a|v] ->; [apply Hf|done]. Qed.
Lemma idles_ret {A} (a : A) : idles (Ret a).
Proof. done. Qed.
Lemma idles_panic {A} v : idles (Panic v : gprog A).
Proof. done. Qed.
Lemma idles_event e : plain e → idles (do e).
Proof. intros He. by apply idles_plain. Qed.
Hint Resolve waitRetry_plain invalidateLocalCopies_plain invalidatePeerCopies_plain confirm_plain refused_plain
  nearLookup_plain : locache.

(** Walk a program at rest. *)
Ltac idle_tac := repeat match goal with
  | |- ∀ _, _ => intros ?
  | |- idles (Ret _) => apply idles_ret
  | |- idles (Panic _) => apply idles_panic
  | |- idles (bind _ _) => apply idles_bind
  | |- idles (event _) => by apply idles_event
  | |- idles (getLocal _ _) => apply getLocal_obeys
  | |- idles (setLocal _ _ _) => apply setLocal_obeys
  | |- idles (deleteLocal _ _) => apply deleteLocal_obeys
  | |- idles (deleteOwnerLocal _ _) => apply deleteOwnerLocal_obeys
  | |- idles (match _ with _ => _ end) => case_match
  | |- idles (if _ then _ else _) => case_match
  | |- idles _ => solve [auto with locache | apply idles_plain; auto with locache]
  end.

Lemma getTurn_idles last n key : idles (getTurn g last n key).
Proof. unfold getTurn, peerGet, nilPeer. idle_tac. Qed.
Lemma setTurn_idles last n key v : idles (setTurn g last n key v).
Proof. unfold setTurn, peerSet, nilPeer. idle_tac. Qed.
Lemma deleteTurn_idles last n key : idles (deleteTurn g last n key).
Proof. unfold deleteTurn, peerDelete, nilPeer. idle_tac. Qed.
Hint Resolve getTurn_idles setTurn_idles deleteTurn_idles : locache.
Lemma getLoop_idles n ticks key : idles (getLoop g n ticks key).
Proof. induction n as [|n IH]; cbn [getLoop]; idle_tac. Qed.
Lemma turnLoop_idles n body ticks o : (∀ last t, idles (body last t)) → idles (turnLoop n body ticks o).
Proof. intros Hb. revert o. induction n as [|n IH]; intros o; cbn [turnLoop]; idle_tac. Qed.
Hint Resolve getLoop_idles turnLoop_idles : locache.

Lemma program_idles o : idles (program g o).
Proof.
  destruct o; cbn [program Server_Get Server_Set Server_Delete]; unfold Group.Get, Set_, Group.Delete; idle_tac.
Qed.
End programs.
