(* ===== verification/SyncFacts.v ===== *)
(** * The invariants that synchronise goroutines

    Key states and their reference counts, mutexes and calls in flight, each as
    an invariant of the shared state and the goroutines' own states, with the
    lemmas that keep it. *)

From S2P Require Import Prelude Store ByteView Errors Cache Peers Singleflight Prog Interleave Group Rpc Node Concurrent Discipline.

Section facts.
Context {S : Type}.
Implicit Types (g : Node.Group S) (L : gmap nat local) (l : local) (t : nat) (s : nat).

(** ** Counting references *)

Definition holders s L : nat := size (filter (λ tl, refsTo s tl.2 = true) L).

Lemma holders_fresh s t l L :
  L !! t = None → holders s (<[t := l]> L) = ((if refsTo s l then 1 else 0) + holders s L)%nat.
Proof.
  intros Ht. unfold holders. destruct (refsTo s l) eqn:Hr.
  - rewrite map_filter_insert_True by done. rewrite map_size_insert_None; [done|].
    rewrite map_lookup_filter, Ht. done.
  - rewrite map_filter_insert_False by (simpl; congruence). by rewrite delete_id.
Qed.

Lemma holders_update s t l l' L :
  L !! t = Some l →
  (holders s (<[t := l']> L) + (if refsTo s l then 1 else 0) = holders s L + (if refsTo s l' then 1 else 0))%nat.
Proof.
  intros Ht. rewrite <-(insert_delete_id L t l) at 2 by done.
  rewrite <-(insert_delete_eq L). rewrite !holders_fresh by apply lookup_delete_eq. lia.
Qed.

Lemma holders_le s L : (holders s L ≤ size L)%nat.
Proof. unfold holders. apply map_size_filter. Qed.

Lemma holders_pos s L : (0 < holders s L)%nat ↔ ∃ t l, L !! t = Some l ∧ refsTo s l = true.
Proof.
  unfold holders. rewrite <-Nat.neq_0_lt_0, map_size_ne_0_lookup. split.
  - intros (t & l & [Hl Hr]%map_lookup_filter_Some). eauto.
  - intros (t & l & Hl & Hr). exists t, l. by apply map_lookup_filter_Some.
Qed.

(** ** Key states *)

(** A goroutine's reference is to the state its key has in the map; a state is
    in the map as long as it is referenced, and its count is the number of
    goroutines that reference it. *)
Record keysInv g L : Prop := {
  ki_ref : ∀ t l k s, L !! t = Some l → l_ref l = Some (k, s) → keyStates g !! k = Some s;
  ki_used : ∀ k s, keyStates g !! k = Some s → is_Some (ksHeap g !! s) ∧ (0 < holders s L)%nat;
  ki_inj : ∀ k k' s, keyStates g !! k = Some s → keyStates g !! k' = Some s → k = k';
  ki_heap : ∀ s st, ksHeap g !! s = Some st →
    (s < ksNext g)%nat ∧ refs st = Z.of_nat (holders s L) ∧ 0 ≤ generation st < 2 ^ 64
}.

Lemma refsTo_iff s l : refsTo s l = true ↔ ∃ k, l_ref l = Some (k, s).
Proof.
  unfold refsTo. destruct (l_ref l) as [[k s']|]; [|naive_solver].
  rewrite bool_decide_eq_true. naive_solver.
Qed.

Lemma refsTo_ref s l r :
  l_ref l = r → refsTo s l = match r with Some (_, s') => bool_decide (s = s') | None => false end.
Proof. by intros <-. Qed.

(** A step that keeps the goroutine's reference and the key states. *)
Lemma keysInv_same g g' L t l l' :
  keysInv g L → L !! t = Some l → l_ref l' = l_ref l →
  keyStates g' = keyStates g → ksHeap g' = ksHeap g → ksNext g' = ksNext g → keysInv g' (<[t := l']> L).
Proof.
  intros [K1 K2 K3 K4] Ht Hr E1 E2 E3.
  assert (∀ s, holders s (<[t := l']> L) = holders s L) as Hh.
  { intros s. pose proof (holders_update s t l l' L Ht). unfold refsTo in *. rewrite Hr in *. lia. }
  split; rewrite ?E1, ?E2, ?E3; try done.
  - intros u x k s [[<- <-]|[_ Hu]]%lookup_insert_Some Hx; [|by eapply K1]. rewrite Hr in Hx. by eapply K1.
  - intros k s Hk. rewrite Hh. by eapply K2.
  - intros s st Hs. rewrite Hh. by apply K4.
Qed.

Lemma keysInv_inc g L t l s :
  keysInv g L → L !! t = Some l → keysInv (incGen s g) (<[t := setInc l]> L).
Proof.
  intros K Ht. assert (keysInv g (<[t := setInc l]> L)) as [K1 K2 K3 K4] by (by eapply keysInv_same).
  split; unfold incGen; cbn [keyStates ksHeap ksNext with_keys]; try done.
  - intros k s' Hk. rewrite lookup_alter_is_Some. exact (K2 k s' Hk).
  - intros s' st Hs. apply lookup_alter_Some in Hs as [(<- & st0 & Hs & ->)|[_ Hs]]; [|by apply K4].
    destruct (K4 _ _ Hs) as (? & ? & ?). split_and!; [done|done|apply uint64_range..].
Qed.

(** The other references are untouched when one goroutine changes its own. *)
Lemma ref_update g L t l l' k s :
  keysInv g L → L !! t = Some l → l_ref l' = Some (k, s) → keyStates g !! k = Some s →
  ∀ u x k' s', <[t := l']> L !! u = Some x → l_ref x = Some (k', s') → keyStates g !! k' = Some s'.
Proof.
  intros K Ht Hr Hk u x k' s' [[_ <-]|[_ Hu]]%lookup_insert_Some Hx; [|by eapply ki_ref].
  rewrite Hr in Hx. by simplify_eq.
Qed.

Lemma alter_refs_Some (f : Z → Z) s s' (h : gmap nat keyMutationState) st :
  alter (λ x, mkKeyState (generation x) (f (refs x))) s h !! s' = Some st →
  ∃ st0, h !! s' = Some st0 ∧ generation st = generation st0 ∧ refs st = (if decide (s' = s) then f (refs st0) else refs st0).
Proof.
  intros [(<- & st0 & H0 & ->)|[Hne Hs]]%lookup_alter_Some.
  - exists st0. by rewrite decide_True.
  - exists st. by rewrite decide_False.
Qed.

Lemma keysInv_acquire g L t l k :
  keysInv g L → L !! t = Some l → l_ref l = None → Z.of_nat (size L) < 2 ^ 62 →
  let r := acquireKeyState k g in keysInv r.1 (<[t := setRef (Some (k, r.2)) l]> L) ∧ keyStates r.1 !! k = Some r.2.
Proof.
  intros K Ht Hr Hsz. destruct (K) as [K1 K2 K3 K4]. unfold acquireKeyState.
  assert (∀ s s', holders s' (<[t := setRef (Some (k, s)) l]> L) = ((if decide (s' = s) then 1 else 0) + holders s' L)%nat) as Hh.
  { intros s s'. pose proof (holders_update s' t l (setRef (Some (k, s)) l) L Ht) as Hu.
    rewrite (refsTo_ref s' l None Hr), (refsTo_ref s' (setRef (Some (k, s)) l) (Some (k, s)) eq_refl) in Hu. cbn in Hu.
    destruct (decide (s' = s)) as [->|]; [rewrite bool_decide_eq_true_2 in Hu by done|rewrite bool_decide_eq_false_2 in Hu by done]; lia. }
  destruct (keyStates g !! k) as [s|] eqn:Hk; cbn [fst snd with_keys keyStates].
  - split; [|done]. split; cbn [with_keys keyStates ksHeap ksNext]; [by eapply ref_update| |done|].
    + intros k' s' Hk'. destruct (K2 _ _ Hk'). rewrite lookup_alter_is_Some, Hh. split; [done|lia].
    + intros s' st (st0 & H0 & Hg & Hrf)%(alter_refs_Some (λ z, int64 (z + 1))). destruct (K4 _ _ H0) as (? & E & ?). rewrite Hg, Hrf, Hh, E.
      pose proof (holders_le s' L). split_and!; [done| |lia..]. case_decide; [rewrite int64_small by lia|]; lia.
  - set (s := ksNext g). assert (∀ k', keyStates g !! k' ≠ Some s) as Hfresh.
    { intros k' Hk'. destruct (K2 _ _ Hk') as [[st Hst] _]. destruct (K4 _ _ Hst). unfold s in *. lia. }
    assert (holders s L = 0%nat) as H0.
    { destruct (holders s L) as [|n] eqn:Hn; [done|]. destruct (proj1 (holders_pos s L) ltac:(lia)) as (u & x & Hu & Hx).
      apply refsTo_iff in Hx as [k' Hx]. destruct (Hfresh k'). by eapply K1. }
    split; [|apply lookup_insert_eq]. split; cbn [with_keys keyStates ksHeap ksNext].
    + intros u x k' s' [[_ <-]|[_ Hu]]%lookup_insert_Some Hx; simpl in Hx; [simplify_eq; apply lookup_insert_eq|].
      pose proof (K1 _ _ _ _ Hu Hx). rewrite lookup_insert_ne by congruence. done.
    + intros k' s' Hk'. rewrite lookup_alter_is_Some, Hh. apply lookup_insert_Some in Hk' as [[<- <-]|[_ Hk']].
      * rewrite lookup_insert_eq, decide_True by done. split; [eauto|lia].
      * destruct (K2 _ _ Hk') as [Hs Hp]. rewrite lookup_insert_ne by (intros <-; by eapply Hfresh). split; [done|lia].
    + intros k1 k2 s' [[<- <-]|[_ H1]]%lookup_insert_Some [[<- ?]|[_ H2]]%lookup_insert_Some; [done|..|by eapply K3];
        exfalso; [by eapply Hfresh|subst; by eapply Hfresh].
    + intros s' st (st0 & Hs & Hg & Hrf)%(alter_refs_Some (λ z, int64 (z + 1))). rewrite Hg, Hrf, Hh.
      apply lookup_insert_Some in Hs as [[<- <-]|[Hne Hs]].
      * rewrite !decide_True, H0 by done. split; [unfold s; lia|]. split; [done|simpl; lia].
      * rewrite !decide_False by congruence. destruct (K4 _ _ Hs) as (? & ? & ?). split_and!; [lia|lia|lia|lia].
Qed.

Lemma keysInv_release g L t l k s :
  keysInv g L → L !! t = Some l → l_ref l = Some (k, s) → Z.of_nat (size L) < 2 ^ 62 →
  keysInv (releaseKeyState k s g) (<[t := setRef None l]> L).
Proof.
  intros K Ht Hr Hsz. destruct (K) as [K1 K2 K3 K4]. unfold releaseKeyState.
  assert (∀ s', (holders s' (<[t := setRef None l]> L) + (if decide (s' = s) then 1 else 0) = holders s' L)%nat) as Hh.
  { intros s'. pose proof (holders_update s' t l (setRef None l) L Ht) as Hu.
    rewrite (refsTo_ref s' l (Some (k, s)) Hr), (refsTo_ref s' (setRef None l) None eq_refl) in Hu. cbn in Hu.
    destruct (decide (s' = s)) as [->|]; [rewrite bool_decide_eq_true_2 in Hu by done|rewrite bool_decide_eq_false_2 in Hu by done]; lia. }
  pose proof (K1 _ _ _ _ Ht Hr) as Hk. destruct (K2 _ _ Hk) as [[st Hst] Hpos].
  set (h := alter _ s (ksHeap g)). set (L' := <[t := setRef None l]> L) in *.
  assert (∀ s' st', h !! s' = Some st' → (s' < ksNext g)%nat ∧ refs st' = Z.of_nat (holders s' L') ∧ 0 ≤ generation st' < 2 ^ 64) as Hheap.
  { intros s' st' (st0 & Hs & Hg & Hrf)%(alter_refs_Some (λ z, int64 (z - 1))). destruct (K4 _ _ Hs) as (? & E & ?). rewrite Hg, Hrf, E.
    specialize (Hh s'). pose proof (holders_le s' L). split_and!; [done| |lia..].
    case_decide; [rewrite int64_small by lia|]; lia. }
  assert (∃ st', h !! s = Some st' ∧ refs st' = Z.of_nat (holders s L')) as (st' & Hst' & Hrefs).
  { unfold h. rewrite lookup_alter_eq, Hst. eexists. split; [done|]. by eapply Hheap; unfold h; rewrite lookup_alter_eq, Hst. }
  rewrite Hst', Hk, Hrefs, (bool_decide_eq_true_2 (Some s = Some s)) by done. rewrite andb_true_r.
  assert (∀ u x k' s', L' !! u = Some x → l_ref x = Some (k', s') → keyStates g !! k' = Some s' ∧ (0 < holders s' L')%nat) as Hrefd.
  { intros u x k' s' Hu Hx. split; [|apply holders_pos; exists u, x; split; [done|apply refsTo_iff; eauto]].
    unfold L' in Hu. apply lookup_insert_Some in Hu as [[_ <-]|[_ Hu]]; [done|by eapply K1]. }
  assert (∀ k' s', keyStates g !! k' = Some s' → k' ≠ k → is_Some (h !! s') ∧ (0 < holders s' L')%nat) as Hused.
  { intros k' s' Hk' Hne. destruct (K2 _ _ Hk') as [Hs Hp]. unfold h. rewrite lookup_alter_is_Some. split; [done|].
    specialize (Hh s'). rewrite decide_False in Hh; [lia|]. intros ->. destruct Hne. by eapply K3. }
  case_bool_decide as Hz; split; cbn [with_keys keyStates ksHeap ksNext]; try done.
  - intros u x k' s' Hu Hx. destruct (Hrefd _ _ _ _ Hu Hx) as [Hk' Hp]. rewrite lookup_delete_ne; [done|].
    intros <-. assert (s' = s) as -> by congruence. lia.
  - intros k' s' [Hne Hk']%lookup_delete_Some. by eapply Hused.
  - intros k1 k2 s' [_ H1]%lookup_delete_Some [_ H2]%lookup_delete_Some. by eapply K3.
  - intros u x k' s' Hu Hx. by eapply Hrefd.
  - intros k' s' Hk'. destruct (decide (k' = k)) as [->|Hne]; [|by eapply Hused].
    assert (s' = s) as -> by congruence. split; [eauto|lia].
Qed.

(** ** Mutexes *)

Definition locks (s : nat) l : bool := refsTo s l && l_lock l.

Definition lockInv (m : gmap nat nat) L : Prop := ∀ s t, m !! s = Some t ↔ ∃ l, L !! t = Some l ∧ locks s l = true.
Definition ownerInv : option nat → gmap nat local → Prop := heldBy l_owner.

Lemma lockInv_update m m' L t l l' :
  lockInv m L → L !! t = Some l → (∀ s, m' !! s = Some t ↔ locks s l' = true) →
  (∀ s u, u ≠ t → m' !! s = Some u ↔ m !! s = Some u) → lockInv m' (<[t := l']> L).
Proof.
  intros Hi Ht Hown Hoth s u. destruct (decide (u = t)) as [->|Hne].
  - rewrite Hown, lookup_insert_eq. naive_solver.
  - rewrite Hoth, lookup_insert_ne by done. apply Hi.
Qed.
Lemma lockInv_own m L t l s : lockInv m L → L !! t = Some l → m !! s = Some t ↔ locks s l = true.
Proof. intros Hi Ht. rewrite (Hi s t). naive_solver. Qed.

Lemma lockInv_same m L t l l' :
  lockInv m L → L !! t = Some l → (∀ s, locks s l' = locks s l) → lockInv m (<[t := l']> L).
Proof. intros Hi Ht Hs. eapply lockInv_update; [done|done| |done]. intros s. rewrite Hs. by apply lockInv_own with L. Qed.

Lemma refsTo_inj s s' l : refsTo s l = true → refsTo s' l = true → s = s'.
Proof. rewrite !refsTo_iff. naive_solver. Qed.

Lemma lockInv_lock m L t l s :
  lockInv m L → L !! t = Some l → refsTo s l = true → l_lock l = false → m !! s = None →
  lockInv (<[s := t]> m) (<[t := setLock true l]> L).
Proof.
  intros Hi Ht Hr Hl Hm. eapply lockInv_update; [done|done|..].
  - intros s'. unfold locks. change (refsTo s' (setLock true l)) with (refsTo s' l). simpl. rewrite andb_true_r.
    rewrite lookup_insert_Some, (lockInv_own m L t l s' Hi Ht). unfold locks. rewrite Hl, andb_false_r. split.
    + by intros [[<- _]|[_ ?]].
    + intros Hr'. left. split; [|done]. by eapply refsTo_inj.
  - intros s' u Hu. rewrite lookup_insert_Some. split; [intros [[_ <-]|[_ ?]]; done|].
    intros Hs. right. split; [congruence|done].
Qed.
Lemma lockInv_unlock m L t l s :
  lockInv m L → L !! t = Some l → refsTo s l = true → l_lock l = true →
  lockInv (delete s m) (<[t := setLock false l]> L).
Proof.
  intros Hi Ht Hr Hl. assert (m !! s = Some t) as Hs by (apply (lockInv_own m L t l s Hi Ht); unfold locks; by rewrite Hr, Hl).
  eapply lockInv_update; [done|done|..].
  - intros s'. unfold locks. simpl. rewrite andb_false_r, lookup_delete_Some, (lockInv_own m L t l s' Hi Ht).
    unfold locks. rewrite Hl, andb_true_r. split; [|done]. intros [Hne Hr']. destruct Hne. by eapply refsTo_inj.
  - intros s' u Hu. rewrite lookup_delete_Some. split; [by intros []|]. intros Hs'. split; [congruence|done].
Qed.

(** ** Calls in flight *)

Record flightInv (m : gmap string nat) (next : nat) (done : gmap nat (outcome (error + ByteView))) L : Prop := {
  fi_map : ∀ k c, m !! k = Some c ↔ ∃ t l, L !! t = Some l ∧ l_lead l = Some (k, c);
  fi_next : ∀ k c, m !! k = Some c → (c < next)%nat;
  fi_inj : ∀ k k' c, m !! k = Some c → m !! k' = Some c → k = k';
  fi_one : ∀ t t' l l' kc, L !! t = Some l → L !! t' = Some l' → l_lead l = Some kc → l_lead l' = Some kc → t = t';
  fi_wait : ∀ t l c, L !! t = Some l → l_wait l = Some c → is_Some (done !! c) ∨ ∃ k, m !! k = Some c
}.

Lemma flightInv_same m n d L t l l' :
  flightInv m n d L → L !! t = Some l → l_lead l' = l_lead l → l_wait l' = l_wait l ∨ l_wait l' = None →
  flightInv m n d (<[t := l']> L).
Proof.
  intros [F1 F2 F3 F4 F5] Ht Hl Hw.
  assert (∀ u x, <[t := l']> L !! u = Some x → ∃ y, L !! u = Some y ∧ l_lead x = l_lead y ∧ (l_wait x = l_wait y ∨ l_wait x = None)) as Hx.
  { intros u x [[<- <-]|[_ Hu]]%lookup_insert_Some; eauto. }
  split; try done.
  - intros k c. rewrite F1. split.
    + intros (u & x & Hu & Hk). destruct (decide (u = t)) as [->|]; [|exists u, x; by rewrite lookup_insert_ne].
      exists t, l'. rewrite lookup_insert_eq. simplify_eq. by rewrite Hl.
    + intros (u & x & (y & Hu & Hy & _)%Hx & Hk). exists u, y. by rewrite <-Hy.
  - intros u u' x x' kc (y & Hu & Hy & _)%Hx (y' & Hu' & Hy' & _)%Hx. rewrite Hy, Hy'. by apply F4.
  - intros u x c (y & Hu & _ & [Hy|Hy])%Hx; rewrite Hy; [by apply (F5 u y)|done].
Qed.

Lemma flightInv_lead m n d L t l k :
  flightInv m n d L → L !! t = Some l → l_lead l = None → m !! k = None →
  flightInv (<[k := n]> m) (n + 1) d (<[t := setFlight (Some (k, n)) None l]> L).
Proof.
  intros [F1 F2 F3 F4 F5] Ht Hl Hk.
  assert (∀ k' c, m !! k' = Some c → c ≠ n) as Hn by (intros k' c Hc ->; apply F2 in Hc; lia).
  assert (∀ u x kc, L !! u = Some x → l_lead x = Some kc → u ≠ t ∧ kc.2 ≠ n) as Hx.
  { intros u x [k' c] Hu Hkc. split; [congruence|]. apply (Hn k'). apply F1. eauto. }
  split.
  - intros k' c. rewrite lookup_insert_Some. split.
    + intros [[<- <-]|[Hne Hc]]; [exists t; rewrite lookup_insert_eq; eauto|].
      apply F1 in Hc as (u & x & Hu & Hkc). destruct (Hx u x (k', c) Hu Hkc). exists u, x. by rewrite lookup_insert_ne by congruence.
    + intros (u & x & [[<- <-]|[_ Hu]]%lookup_insert_Some & Hkc); simpl in Hkc; [simplify_eq; by left|].
      assert (m !! k' = Some c) by (apply F1; eauto). right. split; [congruence|done].
  - intros k' c [[_ <-]|[_ Hc%F2]]%lookup_insert_Some; lia.
  - intros k1 k2 c [[<- <-]|[_ H1]]%lookup_insert_Some [[<- ?]|[_ H2]]%lookup_insert_Some; [done|..|by eapply F3]; exfalso; naive_solver.
  - intros u u' x x' kc [[<- <-]|[_ Hu]]%lookup_insert_Some [[<- <-]|[_ Hu']]%lookup_insert_Some; simpl; [done|..|by eapply F4].
    + intros [= <-] Hk'. by destruct (Hx _ _ _ Hu' Hk') as [_ []].
    + intros Hk' [= <-]. by destruct (Hx _ _ _ Hu Hk') as [_ []].
  - intros u x c [[_ <-]|[_ Hu]]%lookup_insert_Some; simpl; [done|]. intros Hw.
    destruct (F5 u x c Hu Hw) as [|[k' Hc]]; [by left|]. right. exists k'. rewrite lookup_insert_ne; [done|congruence].
Qed.

Lemma flightInv_join m n d L t l k c :
  flightInv m n d L → L !! t = Some l → l_lead l = None → m !! k = Some c →
  flightInv m n d (<[t := setFlight None (Some c) l]> L).
Proof.
  intros F Ht Hl Hk. pose proof (flightInv_same m n d L t l (setFlight None None l) F Ht) as [F1 F2 F3 F4 F5]; [done|by right|].
  assert (∀ u x, <[t := setFlight None (Some c) l]> L !! u = Some x →
    ∃ y, <[t := setFlight None None l]> L !! u = Some y ∧ l_lead x = l_lead y ∧ (l_wait x = l_wait y ∨ l_wait x = Some c)) as Hx.
  { intros u x [[<- <-]|[Hne Hu]]%lookup_insert_Some; [rewrite lookup_insert_eq|rewrite lookup_insert_ne by done]; eauto. }
  split; try done.
  - intros k' c'. rewrite F1. split.
    + intros (u & x & [[<- <-]|[Hne Hu]]%lookup_insert_Some & Hkc); [done|]. exists u, x. by rewrite lookup_insert_ne.
    + intros (u & x & (y & Hu & Hy & _)%Hx & Hkc). exists u, y. by rewrite <-Hy.
  - intros u u' x x' kc (y & Hu & Hy & _)%Hx (y' & Hu' & Hy' & _)%Hx. rewrite Hy, Hy'. by apply F4.
  - intros u x c' (y & Hu & _ & [Hy|Hy])%Hx; rewrite Hy; [by apply (F5 u y)|]. intros [= <-]. eauto.
Qed.

Lemma flightInv_end m n d L t l k c o :
  flightInv m n d L → L !! t = Some l → l_lead l = Some (k, c) →
  flightInv (if decide (m !! k = Some c) then delete k m else m) n (<[c := o]> d) (<[t := setFlight None None l]> L).
Proof.
  intros [F1 F2 F3 F4 F5] Ht Hl. assert (m !! k = Some c) as Hk by (apply F1; eauto). rewrite decide_True by done. split.
  - intros k' c'. rewrite lookup_delete_Some, F1. split.
    + intros [Hne (u & x & Hu & Hkc)]. exists u, x. rewrite lookup_insert_ne; [done|]. intros <-. simplify_eq.
    + intros (u & x & [[<- <-]|[Hne Hu]]%lookup_insert_Some & Hkc); [done|]. split; [|eauto]. intros <-.
      assert (c' = c) as -> by (assert (m !! k = Some c') by (apply F1; eauto); congruence). destruct Hne. by eapply F4.
  - intros k' c' [_ Hc]%lookup_delete_Some. by eapply F2.
  - intros k1 k2 c' [_ H1]%lookup_delete_Some [_ H2]%lookup_delete_Some. by eapply F3.
  - intros u u' x x' kc [[_ <-]|[_ Hu]]%lookup_insert_Some [[_ <-]|[_ Hu']]%lookup_insert_Some; [done..|by eapply F4].
  - intros u x c' [[_ <-]|[_ Hu]]%lookup_insert_Some Hw; [done|]. destruct (decide (c' = c)) as [->|Hne].
    { left. rewrite lookup_insert_eq. eauto. }
    destruct (F5 u x c' Hu Hw) as [Hd|[k' Hc]]; [left; by rewrite lookup_insert_ne|]. right. exists k'.
    rewrite lookup_delete_ne; [done|]. intros <-. congruence.
Qed.
End facts.
