(* ===== verification/ConcurrentFacts.v ===== *)
(** * Correctness of concurrent operations

    What the discipline of the single goroutine implies for all interleavings:
    key states are shared while they are used and freed afterwards, a loaded
    value never overwrites a mutation that came after the load, and nothing
    leaks. *)

From S2P Require Import Prelude Store ByteView Errors Cache Peers Singleflight Prog Interleave Group Rpc Node Concurrent Discipline SyncFacts.

(** ** What an action says *)

Definition acquireOf (a : act (ans := ans)) : option (string * nat) :=
  match a with existT e x =>
    match e return ans e → option (string * nat) with EvAcquire key => λ st, Some (key, st) | _ => λ _, None end x end.
Definition releaseOf (a : act (ans := ans)) : option (string * nat) :=
  match projT1 a with EvRelease key st => Some (key, st) | _ => None end.
Definition readOf (a : act (ans := ans)) : option (nat * Z) :=
  match a with existT e x => match e return ans e → option (nat * Z) with EvGen st => λ n, Some (st, n) | _ => λ _, None end x end.
Definition loadOf (a : act (ans := ans)) : option (string * list Z) :=
  match a with existT e x =>
    match e return ans e → option (string * list Z) with
    | EvGetter key => λ r, match r with LoadOk bytes => Some (key, bytes) | _ => None end
    | _ => λ _, None
    end x end.
Definition incOf (a : act (ans := ans)) : option nat :=
  match projT1 a with EvIncGen st => Some st | _ => None end.
Definition unlockOf (a : act (ans := ans)) : option nat :=
  match projT1 a with EvUnlock st => Some st | _ => None end.
Definition storeOf (a : act (ans := ans)) : option (string * ByteView) :=
  match projT1 a with EvMainAdd key v => Some (key, v) | EvMainAddExp key v _ => Some (key, v) | _ => None end.

(** The key whose entry in the owner cache an action writes or deletes. *)
Definition touchOf (a : act (ans := ans)) : option string :=
  match projT1 a with EvMainAdd key _ | EvMainAddExp key _ _ | EvMainDelete key => Some key | _ => None end.

Notation trace := (list (nat * act (ans := ans))).
Notation gperforms := (performs effect obey).

Section facts.
Context {S : Type}.
Implicit Types (g : Node.Group S) (L : gmap nat local) (l : local) (t : nat) (s : nat) (tr : trace) (sh : shared S).

(** ** What the trace says *)

(** The mutations of the key state [s]. *)
Definition incs s tr : Z := Z.of_nat (length (filter (λ ta, incOf ta.2 = Some s) tr)).

Lemma incs_snoc s tr t a : incs s (tr ++ [(t, a)]) = incs s tr + (if decide (incOf a = Some s) then 1 else 0).
Proof.
  unfold incs. rewrite filter_app, length_app, filter_cons. simpl. case_decide; simpl; lia.
Qed.
Lemma incs_bound s tr1 x tr2 : 0 ≤ incs s tr2 < Z.of_nat (length (tr1 ++ x :: tr2)).
Proof. unfold incs. rewrite length_app. simpl. pose proof (length_filter (λ ta : nat * act, incOf ta.2 = Some s) tr2). lia. Qed.
Lemma incs_zero s tr : incs s tr = 0 → ∀ u a, (u, a) ∈ tr → incOf a ≠ Some s.
Proof.
  unfold incs. intros H0 u a Hin Ha. assert ((u, a) ∈ filter (λ ta : nat * act, incOf ta.2 = Some s) tr) as Hf
    by (by apply list_elem_of_filter).
  destruct (filter _ tr); [by apply elem_of_nil in Hf|done].
Qed.

(** No mutation of [key] other than through [s] in [tr2], in view of the whole trace. *)
Definition onlyThrough s (key : string) tr2 tr : Prop :=
  ∀ u a s', (u, a) ∈ tr2 → incOf a = Some s' → s' ≠ s → ∀ u' a', (u', a') ∈ tr → acquireOf a' ≠ Some (key, s').

(** Goroutine [t] read generation [n] of its state [s]; what has happened since. *)
Definition since tr t (key : string) s (n : Z) (bytes : option (list Z)) (unchanged : bool) g : Prop :=
  ∃ tr1 a tr2, tr = tr1 ++ (t, a) :: tr2 ∧ readOf a = Some (s, n) ∧ 0 ≤ n < 2 ^ 64 ∧
    genOf s g = uint64 (n + incs s tr2) ∧
    (∀ bs, bytes = Some bs → ∃ tr3 a' tr4, tr2 = tr3 ++ (t, a') :: tr4 ∧ loadOf a' = Some (key, bs)) ∧
    (unchanged = true → incs s tr2 = 0) ∧ onlyThrough s key tr2 tr.

(** Goroutine [t] advanced the generation of its state [s] and has not unlocked
    since: nobody else has mutated the key in the meantime. *)
Definition mutating tr t (key : string) s (wrote : bool) : Prop :=
  ∃ tr1 a tr2, tr = tr1 ++ (t, a) :: tr2 ∧ incOf a = Some s ∧ (∀ a', (t, a') ∈ tr2 → unlockOf a' ≠ Some s) ∧
    incs s tr2 = 0 ∧ onlyThrough s key tr2 tr ∧ (wrote = true → ∃ a', (t, a') ∈ tr2 ∧ touchOf a' = Some key).

(** What a goroutine knows is consistent. *)
Definition localOk l : Prop :=
  (l_same l || l_inc l = true → l_lock l = true) ∧ (l_gen l = None → l_bytes l = None).

Record traceInv tr g L : Prop := {
  ti_acq : ∀ t l k s, L !! t = Some l → l_ref l = Some (k, s) → ∃ a, (t, a) ∈ tr ∧ acquireOf a = Some (k, s);
  ti_key : ∀ u a k s, (u, a) ∈ tr → acquireOf a = Some (k, s) →
    (s < ksNext g)%nat ∧ ∀ k', keyStates g !! k' = Some s → k' = k;
  ti_gen : ∀ t l k s n, L !! t = Some l → l_ref l = Some (k, s) → l_gen l = Some n →
    since tr t k s n (l_bytes l) (l_same l) g;
  ti_inc : ∀ t l k s, L !! t = Some l → l_ref l = Some (k, s) → l_inc l = true → mutating tr t k s (l_wrote l);
  ti_local : ∀ t l, L !! t = Some l → localOk l
}.

(** The effect of an action on the generations. *)
Definition genStep (a : act (ans := ans)) g g' : Prop :=
  ∀ s, genOf s g' = if decide (incOf a = Some s ∧ is_Some (ksHeap g !! s)) then uint64 (genOf s g + 1) else genOf s g.

(** Goroutine [u] performs [a], which obeys. *)
Definition mayFollow a lu g : Prop :=
  (∀ s', incOf a = Some s' → locks s' lu = true) ∧ (∀ k' s', acquireOf a = Some (k', s') → s' = (acquireKeyState k' g).2).

Lemma onlyThrough_step tr tr2 t k s g L l u lu a :
  keysInv g L → traceInv tr g L → L !! t = Some l → l_ref l = Some (k, s) → L !! u = Some lu → mayFollow a lu g →
  onlyThrough s k tr2 tr → onlyThrough s k (tr2 ++ [(u, a)]) (tr ++ [(u, a)]).
Proof.
  intros K TI Ht Hr Hu [Hinc Hacq] Honly v c s' Hin Hc Hne v' c' Hin' Hc'. pose proof (ki_ref _ _ K _ _ _ _ Ht Hr) as Hk.
  assert ((v', c') ∈ tr) as Hold.
  { apply elem_of_app in Hin' as [Hx|Hx]; [done|]. apply list_elem_of_singleton in Hx as [= -> ->].
    apply Hacq in Hc'. unfold acquireKeyState in Hc'. rewrite Hk in Hc'. simpl in Hc'. congruence. }
  apply elem_of_app in Hin as [Hin|Hin]; [by eapply Honly|].
  apply list_elem_of_singleton in Hin as [= -> ->]. apply Hinc in Hc. unfold locks in Hc. apply andb_true_iff in Hc as [Hc _].
  apply refsTo_iff in Hc as [k' Hk']. pose proof (ki_ref _ _ K _ _ _ _ Hu Hk') as Hks'.
  destruct (ti_key _ _ _ TI _ _ _ _ Hold Hc') as [_ Huniq]. apply Huniq in Hks' as Hkk. congruence.
Qed.

(** While a goroutine has the mutex of a key state, nobody else advances its generation. *)
Lemma locked_inc m L t l u lu s a g :
  lockInv m L → L !! t = Some l → refsTo s l = true → l_lock l = true → L !! u = Some lu → mayFollow a lu g → incOf a = Some s → u = t.
Proof.
  intros HL Ht Hr Hlk Hu [Hinc _] Ha. assert (m !! s = Some u) as H1 by (apply (HL s u); eauto).
  assert (m !! s = Some t) as H2; [|congruence]. apply (lockInv_own m L t l s HL Ht). unfold locks. by rewrite Hlk, andb_true_r.
Qed.

Lemma mutating_start tr t k s a : incOf a = Some s → mutating (tr ++ [(t, a)]) t k s false.
Proof. intros Ha. exists tr, a, []. split_and!; try done. - by intros ? ?%elem_of_nil. - by intros ? ? ? ?%elem_of_nil. Qed.

Lemma mutating_step tr t k s (wrote wrote' : bool) g L l u lu a :
  keysInv g L → traceInv tr g L → L !! t = Some l → l_ref l = Some (k, s) → L !! u = Some lu → mayFollow a lu g →
  incOf a ≠ Some s → (u = t → unlockOf a ≠ Some s) → (wrote' = true → wrote = true ∨ u = t ∧ touchOf a = Some k) →
  mutating tr t k s wrote → mutating (tr ++ [(u, a)]) t k s wrote'.
Proof.
  intros K TI Ht Hr Hu Hmay Hinc Hun Hw (tr1 & a0 & tr2 & -> & Ha0 & Hno & H0 & Honly & Hwr).
  exists tr1, a0, (tr2 ++ [(u, a)]). rewrite <-app_assoc. split_and!; [done|done| | | |].
  - intros a' [Hin|Hin]%elem_of_app; [by apply Hno|]. apply list_elem_of_singleton in Hin as [= <- ->]. by apply Hun.
  - rewrite incs_snoc, decide_False by done. lia.
  - rewrite app_assoc. by eapply (onlyThrough_step _ _ t).
  - intros [Hw'|[-> Hta]]%Hw; [destruct (Hwr Hw') as (a' & ? & ?)|]; [exists a'|exists a]; (split; [set_solver|done]).
Qed.

(** An action extends the history since a reading. *)
Lemma since_step tr t k s n bs (same same' : bool) g g' L m l u lu a :
  keysInv g L → lockInv m L → traceInv tr g L → L !! t = Some l → l_ref l = Some (k, s) →
  L !! u = Some lu → mayFollow a lu g → genStep a g g' →
  (same' = true → same = true ∧ (incOf a = Some s → u ≠ t ∧ l_lock l = true)) →
  since tr t k s n bs same g → since (tr ++ [(u, a)]) t k s n bs same' g'.
Proof.
  intros K HL TI Ht Hr Hu Hmay Hgen Hsame (tr1 & b0 & tr2 & -> & Hb & Hn & Hg & Hbs & Hs0 & Honly).
  pose proof (ki_ref _ _ K _ _ _ _ Ht Hr) as Hk. destruct (ki_used _ _ K _ _ Hk) as [Hheap _].
  exists tr1, b0, (tr2 ++ [(u, a)]). rewrite <-app_assoc. split_and!; [done|done|lia|lia| | | |].
  - rewrite Hgen, incs_snoc, Hg. unfold uint64. case_decide as Hd; case_decide as Hd'; try tauto.
    + rewrite Zplus_mod_idemp_l. f_equal. lia.
    + f_equal. lia.
  - intros bs' Hbs'. destruct (Hbs _ Hbs') as (tr3 & a' & tr4 & -> & Ha'). exists tr3, a', (tr4 ++ [(u, a)]).
    by rewrite <-app_assoc.
  - intros [Hs Hi]%Hsame. rewrite incs_snoc, (Hs0 Hs). case_decide as Hd; [|lia]. destruct (Hi Hd) as [Hne Hlk].
    destruct Hne. eapply locked_inc; [done|exact Ht| |done..]. apply refsTo_iff. eauto.
  - rewrite app_assoc. by eapply (onlyThrough_step _ _ t).
Qed.

(** A step of goroutine [t], from [l] to [l'] and from [g] to [g']. *)
Lemma traceInv_step tr g g' L m t l l' a :
  keysInv g L → lockInv m L → traceInv tr g L → L !! t = Some l →
  mayFollow a l g → genStep a g g' →
  (ksNext g ≤ ksNext g')%nat → (∀ k s, (s < ksNext g)%nat → keyStates g' !! k = Some s → keyStates g !! k = Some s) →
  (∀ k s, l_ref l' = Some (k, s) → l_ref l = Some (k, s) ∨ acquireOf a = Some (k, s)) →
  (∀ k s, acquireOf a = Some (k, s) → (s < ksNext g')%nat ∧ ∀ k', keyStates g' !! k' = Some s → k' = k) →
  (∀ k s n, l_ref l' = Some (k, s) → l_gen l' = Some n → since (tr ++ [(t, a)]) t k s n (l_bytes l') (l_same l') g') →
  (∀ k s, l_ref l' = Some (k, s) → l_inc l' = true → mutating (tr ++ [(t, a)]) t k s (l_wrote l')) →
  localOk l' →
  traceInv (tr ++ [(t, a)]) g' (<[t := l']> L).
Proof.
  intros K HL TI Ht Hmay Hgen Hnext Hks A1 A2 A3 A4 A5. split.
  - intros u x k s [[<- <-]|[_ Hu]]%lookup_insert_Some Hx.
    + destruct (A1 _ _ Hx) as [Hx'|Hx'].
      * destruct (ti_acq _ _ _ TI _ _ _ _ Ht Hx') as (a' & Hin & Ha'). exists a'. split; [set_solver|done].
      * exists a. split; [set_solver|done].
    + destruct (ti_acq _ _ _ TI _ _ _ _ Hu Hx) as (a' & Hin & Ha'). exists a'. split; [set_solver|done].
  - intros u x k s [Hin|Hin]%elem_of_app Hx.
    + destruct (ti_key _ _ _ TI _ _ _ _ Hin Hx) as [Hlt Huniq]. split; [lia|]. intros k' Hk'. apply Huniq. by apply Hks.
    + apply list_elem_of_singleton in Hin as [= -> ->]. by apply A2.
  - intros u x k s n [[<- <-]|[Hne Hu]]%lookup_insert_Some Hx Hn; [by apply A3|].
    eapply (since_step tr u k s n (l_bytes x) (l_same x) (l_same x)); try done; [|by apply (ti_gen _ _ _ TI)].
    intros Hs. split; [done|]. intros _. split; [done|]. apply (proj1 (ti_local _ _ _ TI u x Hu)). by rewrite Hs.
  - intros u x k s [[<- <-]|[Hne Hu]]%lookup_insert_Some Hx Hi.
    + by apply A4.
    + assert (l_lock x = true) as Hlk by (apply (proj1 (ti_local _ _ _ TI u x Hu)); by rewrite Hi, orb_true_r).
      eapply (mutating_step tr u k s (l_wrote x)); try done; [|by left|by apply (ti_inc _ _ _ TI)].
      intros Ha. destruct Hne. eapply locked_inc; [done|exact Hu| |done..]. apply refsTo_iff. eauto.
  - intros u x [[<- <-]|[_ Hu]]%lookup_insert_Some; [done|exact (ti_local _ _ _ TI u x Hu)].
Qed.

(** ** The invariant of the machine *)

Definition gens (h : gmap nat keyMutationState) s : Z := match h !! s with Some st => generation st | None => 0 end.

Lemma gens_refs (f : Z → Z) s0 s h : gens (alter (λ st, mkKeyState (generation st) (f (refs st))) s0 h) s = gens h s.
Proof.
  unfold gens. destruct (decide (s = s0)) as [->|Hne]; [|by rewrite lookup_alter_ne].
  rewrite lookup_alter_eq. by destruct (h !! s0).
Qed.

(** What an event does to the generations. *)
Lemma effect_gen t e x (sh sh' : shared S) f L :
  keysInv (sh_group sh) L → effect t e sh = Some (sh', f) → genStep (did e x) (sh_group sh) (sh_group sh').
Proof.
  intros K He s. change (genOf s) with (λ g : Node.Group S, gens (ksHeap g) s). cbv beta.
  destruct e; effect_in He; unfold incOf; cbn [projT1 did]; try (rewrite decide_False by naive_solver);
    try (injection He as <- _; done); try (case_match; simplify_eq/=; done).
  - injection He as <- _. cbn [on_shared sh_group]. unfold acquireKeyState.
    destruct (keyStates (sh_group sh) !! key) as [s0|]; cbn [fst with_keys ksHeap].
    + apply (gens_refs (λ z, int64 (z + 1))).
    + rewrite (gens_refs (λ z, int64 (z + 1))). unfold gens.
      destruct (decide (s = ksNext (sh_group sh))) as [->|Hne]; [|by rewrite lookup_insert_ne].
      rewrite lookup_insert_eq. destruct (ksHeap (sh_group sh) !! ksNext (sh_group sh)) as [st|] eqn:Hst; [|done].
      destruct (ki_heap _ _ K _ _ Hst). lia.
  - injection He as <- _. cbn [on_shared sh_group releaseKeyState with_keys ksHeap]. apply (gens_refs (λ z, int64 (z - 1))).
  - injection He as <- _. cbn [on_shared sh_group incGen with_keys ksHeap]. unfold gens. case_decide as Hd.
    + destruct Hd as [[= <-] [y Hy]]. by rewrite lookup_alter_eq, Hy.
    + destruct (decide (s = st)) as [->|Hne]; [|by rewrite lookup_alter_ne].
      destruct (ksHeap (sh_group sh) !! st) eqn:Hs; [destruct Hd; eauto|]. by rewrite lookup_alter_eq, Hs.
Qed.

(** What an event does to the map of key states. *)
Lemma effect_keys t e (sh sh' : shared S) f :
  effect t e sh = Some (sh', f) →
  (ksNext (sh_group sh) ≤ ksNext (sh_group sh'))%nat ∧
  (∀ k s, (s < ksNext (sh_group sh))%nat → keyStates (sh_group sh') !! k = Some s → keyStates (sh_group sh) !! k = Some s).
Proof.
  intros He. destruct e; effect_in He; try (injection He as <- _; done); try (case_match; simplify_eq/=; done).
  - injection He as <- _. cbn [on_shared sh_group]. unfold acquireKeyState.
    destruct (keyStates (sh_group sh) !! key) as [s0|]; cbn [fst with_keys ksNext keyStates]; [done|]. split; [lia|].
    intros k s Hs [[_ <-]|[_ Hk]]%lookup_insert_Some; [lia|done].
  - injection He as <- _. cbn [on_shared sh_group releaseKeyState with_keys ksNext keyStates]. split; [done|].
    intros k s Hs Hk. case_match; [by apply lookup_delete_Some in Hk as [_ ?]|done].
Qed.

Record sync (c : gsystem S) L : Prop := {
  in_pool : pooled obey idle c L;
  in_keys : keysInv (sh_group (sy_shared c)) L;
  in_lock : lockInv (sh_locks (sy_shared c)) L;
  in_owner : ownerInv (sh_owner (sy_shared c)) L;
  in_flight : flightInv (loader (sh_group (sy_shared c))) (loaderNext (sh_group (sy_shared c))) (sh_done (sy_shared c)) L
}.

(** ** Steps *)

(** The answer of an event whose answer is determined. *)
Ltac forced_inv He Hf := injection He as <- <-; pose proof (Hf _ eq_refl) as ->.

(** Read off the effect and the goroutine's change where neither matters. *)
Ltac step_inv He Ho :=
  try match type of He with context [match ?y with Some _ => _ | None => _ end] => destruct y eqn:? end; try discriminate He;
  injection He as <- _; first [injection Ho as <-|apply guard_Some in Ho as [? ->]].

Lemma keys_step t e x sh sh' L l l' :
  gperforms t e x sh sh' L l l' → keysInv (sh_group sh) L → Z.of_nat (size L) < 2 ^ 62 →
  keysInv (sh_group sh') (<[t := l']> L).
Proof.
  intros ((forced & He & Hf) & Ht & Ho) K Hsz.
  destruct e; effect_in He; cbn [obey] in Ho;
    try (step_inv He Ho; (eapply keysInv_same; [exact K|exact Ht| |done..]; first [done|by repeat case_match])).
  - forced_inv He Hf. obey_inv Ho. by apply keysInv_acquire.
  - injection He as <- _. obey_inv Ho. by apply keysInv_release.
  - injection He as <- _. obey_inv Ho. by apply keysInv_inc.
Qed.

Lemma lock_step t e x sh sh' L l l' :
  gperforms t e x sh sh' L l l' → lockInv (sh_locks sh) L → lockInv (sh_locks sh') (<[t := l']> L).
Proof.
  intros ((forced & He & Hf) & Ht & Ho) HL.
  destruct e; effect_in He; cbn [obey] in Ho;
    try (step_inv He Ho; (eapply lockInv_same; [exact HL|exact Ht|]; intros s'; first [done|by repeat case_match])).
  - injection He as <- _. obey_inv Ho. eapply lockInv_same; [done|done|]. intros s'. unfold locks. simpl.
    match goal with Hl : l_lock l = false |- _ => by rewrite Hl, !andb_false_r end.
  - injection He as <- _. obey_inv Ho. eapply lockInv_same; [done|done|]. intros s'. unfold locks. simpl.
    match goal with Hl : l_lock l = false |- _ => by rewrite Hl, !andb_false_r end.
  - destruct (sh_locks sh !! st) eqn:Hs; [done|]. injection He as <- _. obey_inv Ho. by apply lockInv_lock.
  - injection He as <- _. obey_inv Ho. by apply lockInv_unlock.
Qed.

Lemma owner_step t e x sh sh' L l l' :
  gperforms t e x sh sh' L l l' → ownerInv (sh_owner sh) L → ownerInv (sh_owner sh') (<[t := l']> L).
Proof.
  intros ((forced & He & Hf) & Ht & Ho) HO.
  destruct e; effect_in He; cbn [obey] in Ho;
    try (step_inv He Ho; (eapply heldBy_same; [exact HO|exact Ht|]; first [done|by repeat case_match])).
  - destruct (sh_owner sh) eqn:Hs; [done|]. injection He as <- _. by apply guard_Some in Ho as [_ ->]; apply heldBy_acquire.
  - injection He as <- _. obey_inv Ho. by eapply heldBy_release.
Qed.

Lemma flight_step t e x sh sh' L l l' :
  gperforms t e x sh sh' L l l' →
  flightInv (loader (sh_group sh)) (loaderNext (sh_group sh)) (sh_done sh) L →
  flightInv (loader (sh_group sh')) (loaderNext (sh_group sh')) (sh_done sh') (<[t := l']> L).
Proof.
  intros ((forced & He & Hf) & Ht & Ho) HF.
  destruct e; effect_in He; cbn [obey] in Ho;
    try (step_inv He Ho; (eapply flightInv_same; [exact HF|exact Ht|first [done|by repeat case_match]|first [by left|left; by repeat case_match]])).
  - step_inv He Ho. unfold acquireKeyState. destruct (keyStates (sh_group sh) !! key); (eapply flightInv_same; [exact HF|exact Ht|done|by left]).
  - destruct (loader (sh_group sh) !! key) as [c|] eqn:Hk; forced_inv He Hf; obey_inv Ho;
      [by eapply flightInv_join|by apply flightInv_lead].
  - destruct (sh_done sh !! c); [|done]. injection He as <- _. obey_inv Ho. eapply flightInv_same; [done|done|by symmetry|by right].
  - injection He as <- _. obey_inv Ho. by apply flightInv_end.
Qed.

(** Conditions of [traceInv_step] that hold for every event. *)
Lemma performs_inc t e x sh sh' L l l' s : gperforms t e x sh sh' L l l' → incOf (did e x) = Some s → locks s l = true.
Proof.
  intros (_ & _ & Ho). destruct e; try done. intros [= ->]. obey_inv Ho. unfold locks. by apply andb_true_iff.
Qed.
Lemma performs_acquire t e x sh sh' L l l' k s :
  gperforms t e x sh sh' L l l' → acquireOf (did e x) = Some (k, s) →
  s = (acquireKeyState k (sh_group sh)).2 ∧ sh_group sh' = (acquireKeyState k (sh_group sh)).1 ∧
  l' = setRef (Some (k, s)) l ∧ l_ref l = None.
Proof.
  intros ((forced & He & Hf) & _ & Ho). destruct e; try done. effect_in He. forced_inv He Hf. intros [= -> <-]. obey_inv Ho. done.
Qed.
Lemma performs_follow t e x sh sh' L l l' : gperforms t e x sh sh' L l l' → mayFollow (did e x) l (sh_group sh).
Proof.
  intros Hp. split; [intros s; by eapply performs_inc|]. intros k s Ha. by destruct (performs_acquire _ _ _ _ _ _ _ _ _ _ Hp Ha).
Qed.
Lemma performs_ref t e x sh sh' L l l' k s :
  gperforms t e x sh sh' L l l' → l_ref l' = Some (k, s) → l_ref l = Some (k, s) ∨ acquireOf (did e x) = Some (k, s).
Proof.
  intros ((forced & He & Hf) & _ & Ho). destruct e; cbn [obey] in Ho; try (injection Ho as <-; first [by left|case_match; by left]);
    apply guard_Some in Ho as [_ ->]; try (by left); try done.
  - intros [= <- <-]. by right.
  - case_match; by left.
  - case_match; by left.
Qed.

Lemma trace_step' t e x sh sh' L l l' tr :
  gperforms t e x sh sh' L l l' → keysInv (sh_group sh) L → lockInv (sh_locks sh) L → Z.of_nat (size L) < 2 ^ 62 →
  traceInv tr (sh_group sh) L →
  (∀ k s n, l_ref l' = Some (k, s) → l_gen l' = Some n →
     since (tr ++ [(t, did e x)]) t k s n (l_bytes l') (l_same l') (sh_group sh')) →
  (l_inc l' = true →
     (l_inc l = true ∧ l_ref l' = l_ref l ∧ unlockOf (did e x) = None ∧ incOf (did e x) = None ∧
      (l_wrote l' = true → l_wrote l = true ∨ ∀ k s, l_ref l = Some (k, s) → touchOf (did e x) = Some k)) ∨
     (∃ st, incOf (did e x) = Some st ∧ refsTo st l' = true ∧ l_wrote l' = false)) →
  localOk l' →
  traceInv (tr ++ [(t, did e x)]) (sh_group sh') (<[t := l']> L).
Proof.
  intros Hp K HL Hsz TI A3 A4 A5. destruct (Hp) as ((forced & He & Hf) & Ht & Ho).
  destruct (effect_keys _ _ _ _ _ He) as [Hn Hk].
  pose proof (performs_follow _ _ _ _ _ _ _ _ Hp) as Hmay. eapply traceInv_step; try done.
  - by eapply effect_gen.
  - intros k s. by eapply performs_ref.
  - intros k s Ha. destruct (performs_acquire _ _ _ _ _ _ _ _ _ _ Hp Ha) as (-> & -> & -> & Hr).
    destruct (keysInv_acquire _ _ t l k K Ht Hr Hsz) as [K' Hks]. destruct (ki_used _ _ K' _ _ Hks) as [[st Hst] _].
    split; [by eapply ki_heap|]. intros k' Hk'. by eapply (ki_inj _ _ K').
  - intros k s Hr Hi. destruct (A4 Hi) as [(Hi' & Hr' & Hun & Hni & Hw)|(st & Hst & Href & ->)].
    + rewrite Hr' in Hr. eapply (mutating_step tr t k s (l_wrote l)); try done; [by rewrite Hni|by rewrite Hun| |by apply (ti_inc _ _ _ TI)].
      intros [?|Hk']%Hw; eauto.
    + apply mutating_start. rewrite Hst. f_equal. apply refsTo_iff in Href as [k' Hk']. congruence.
Qed.

Lemma performs_since t e x sh sh' L l l' tr k s n (same' : bool) :
  gperforms t e x sh sh' L l l' → keysInv (sh_group sh) L → lockInv (sh_locks sh) L → traceInv tr (sh_group sh) L →
  l_ref l = Some (k, s) → l_gen l = Some n → (same' = true → l_same l = true ∧ incOf (did e x) = None) →
  since (tr ++ [(t, did e x)]) t k s n (l_bytes l) same' (sh_group sh').
Proof.
  intros Hp K HL TI Hr Hn Hs. destruct (Hp) as ((forced & He & Hf) & Ht & Ho).
  eapply (since_step tr t k s n _ (l_same l) same' _ _ L); [done|done|done|exact Ht|done|exact Ht|..].
  - by eapply performs_follow.
  - by eapply effect_gen.
  - intros Hs'. destruct (Hs Hs') as [? ->]. done.
  - by eapply (ti_gen _ _ _ TI).
Qed.

(** The last action of the history was a load. *)
Lemma since_load tr t k s n bs same g a bytes :
  since (tr ++ [(t, a)]) t k s n bs same g → loadOf a = Some (k, bytes) →
  since (tr ++ [(t, a)]) t k s n (Some bytes) same g.
Proof.
  intros (tr1 & a0 & tr2 & Htr & Hr & Hn & Hg & _ & Hs & Ho) Ha. exists tr1, a0, tr2. split_and!; try done; try lia.
  intros bs' [= <-]. destruct tr2 as [|y tr2 _] using rev_ind.
  - apply app_inj_tail in Htr as [_ [= <-]]. destruct a as [[] ?]; done.
  - rewrite app_comm_cons, app_assoc in Htr. apply app_inj_tail in Htr as [_ <-]. by exists tr2, a, [].
Qed.
Lemma since_forget tr t k s n bs same g : since tr t k s n bs same g → since tr t k s n None false g.
Proof. intros (tr1 & a0 & tr2 & Htr & Hr & Hn & Hg & _ & _ & Ho). exists tr1, a0, tr2. by split_and!; try lia. Qed.

(** The generation was read again and is the same. *)
Lemma since_unchanged tr t k s n bs g :
  since tr t k s n bs false g → genOf s g = n → Z.of_nat (length tr) ≤ 2 ^ 64 → since tr t k s n bs true g.
Proof.
  intros (tr1 & a0 & tr2 & -> & Hr & Hn & Hg & Hb & _ & Ho) Heq Hlen. exists tr1, a0, tr2. split_and!; try done; try lia.
  intros _. pose proof (incs_bound s tr1 (t, a0) tr2) as Hi. rewrite Heq in Hg. unfold uint64 in Hg.
  destruct (decide (n + incs s tr2 < 2 ^ 64)) as [Hlt|Hge].
  - rewrite Z.mod_small in Hg by lia. lia.
  - rewrite (Z.mod_eq (n + incs s tr2)) in Hg by lia. assert ((n + incs s tr2) / 2 ^ 64 = 1) as Hq.
    { symmetry. apply (Z.div_unique_pos _ _ _ (n + incs s tr2 - 2 ^ 64)); lia. }
    rewrite Hq in Hg. lia.
Qed.

Lemma since_read tr t k s n g a : readOf a = Some (s, n) → 0 ≤ n < 2 ^ 64 → genOf s g = n → since (tr ++ [(t, a)]) t k s n None false g.
Proof.
  intros Ha Hn Hg. exists tr, a, []. split_and!; try done; try lia.
  - rewrite Hg. unfold incs. simpl. unfold uint64. by rewrite Z.add_0_r, Z.mod_small.
  - by intros ? ? ? ?%elem_of_nil.
Qed.

Lemma genOf_range g L s : keysInv g L → 0 ≤ genOf s g < 2 ^ 64.
Proof. intros K. unfold genOf. destruct (ksHeap g !! s) as [st|] eqn:Hs; [|lia]. by apply (ki_heap _ _ K) in Hs as (_ & _ & ?). Qed.

Lemma refsKey_ref key l k s : refsKey key l = true → l_ref l = Some (k, s) → key = k.
Proof. unfold refsKey. intros H0 Hr. rewrite Hr in H0. by apply bool_decide_eq_true in H0. Qed.

Lemma mayAdd_key key v l k s : mayAdd key v l = true → l_ref l = Some (k, s) → key = k.
Proof. unfold mayAdd. intros [[Hk _]%andb_true_iff _]%andb_true_iff. by eapply refsKey_ref. Qed.

Lemma trace_step t e x sh sh' L l l' tr :
  gperforms t e x sh sh' L l l' → keysInv (sh_group sh) L → lockInv (sh_locks sh) L → Z.of_nat (size L) < 2 ^ 62 →
  Z.of_nat (length tr) < 2 ^ 64 → traceInv tr (sh_group sh) L →
  traceInv (tr ++ [(t, did e x)]) (sh_group sh') (<[t := l']> L).
Proof.
  intros Hp K HL Hsz Hlen TI. assert (∀ k s n same', l_ref l = Some (k, s) → l_gen l = Some n →
    (same' = true → l_same l = true ∧ incOf (did e x) = None) →
    since (tr ++ [(t, did e x)]) t k s n (l_bytes l) same' (sh_group sh')) as Hsince by (intros; by eapply performs_since).
  destruct (Hp) as ((forced & He & Hf) & Ht & Ho). destruct (ti_local _ _ _ TI t l Ht) as [Hlk Hgb].
  apply (trace_step' t e x sh sh' L l l' tr Hp K HL Hsz TI).
  - intros k s n Hr Hn. destruct e; cbn [obey] in Ho; try (injection Ho as <-; first [by apply Hsince|case_match; by apply Hsince]);
      (apply guard_Some in Ho as [Hg ->]); try done; try (by apply Hsince);
      try (apply (since_forget _ _ _ _ _ (l_bytes l) false); by apply Hsince).
    + guard_inv. simpl in Hr. destruct x as [bytes|err|v]; simpl.
      * eapply since_load; [by apply Hsince|]. simpl. by erewrite (refsKey_ref key l k s).
      * apply (since_forget _ _ _ _ _ (l_bytes l) false). by apply Hsince.
      * apply (since_forget _ _ _ _ _ (l_bytes l) false). by apply Hsince.
    + effect_in He. forced_inv He Hf. apply andb_true_iff in Hg as [_ Hst].
      assert (l_ref l = Some (k, s)) as Hr' by (by destruct (l_bytes l)).
      assert (st = s) as -> by (apply refsTo_iff in Hst as [k' ?]; congruence).
      destruct (l_bytes l) as [bs|] eqn:Hb; simpl in Hn |- *; rewrite ?Hb.
      * destruct (decide (l_gen l = Some (genOf s (sh_group sh)))) as [Hs|Hs];
          [rewrite bool_decide_eq_true_2 by done|rewrite bool_decide_eq_false_2 by done; by apply Hsince]. apply since_unchanged; [by apply Hsince|congruence|].
        rewrite length_app. simpl. lia.
      * injection Hn as <-. apply since_read; [done| |done]. by eapply genOf_range.
    + destruct x; by apply Hsince.
  - intros Hi. destruct e; cbn [obey] in Ho; try (injection Ho as <-; left; split_and!; [done..|by left]);
      (first [apply guard_Some in Ho as [Hg ->]|injection Ho as <-]); try done; try (left; split_and!; [done..|by left]);
      try (left; split_and!; [done..|]; intros _; right; intros k s Hr; cbn; f_equal; by eapply mayAdd_key).
    + left. destruct (l_lock l && refsKey key l) eqn:Hd; (split_and!; [done..|]); [|by left]. intros _. right. intros k s Hr. change (Some key = Some k). f_equal.
      apply andb_true_iff in Hd as [_ Hd]. by eapply refsKey_ref.
    + destruct (l_bytes l); (left; split_and!; [done..|by left]).
    + apply andb_true_iff in Hg as [_ Hst]. right. by exists st.
    + destruct x; (left; split_and!; [done..|by left]).
  - destruct e; cbn [obey] in Ho; try (injection Ho as <-; first [by split|case_match; by split]); (apply guard_Some in Ho as [Hg ->]); try by split.
    + guard_inv. split; simpl; [|by intros Hn; rewrite Hn in Hg; destruct Hg]. intros Hi. apply Hlk. by rewrite Hi, orb_true_r.
    + apply andb_true_iff in Hg as [Hg _]. split; destruct (l_bytes l); simpl; try done. by intros Hn%Hgb.
    + apply andb_true_iff in Hg as [Hg _]. by split.
    + destruct x; by split.
Qed.

(** ** Runs keep the invariant *)

Lemma sync_step c L t a c' :
  sync c L → gstep c (t, a) c' → Z.of_nat (size L) < 2 ^ 62 →
  ∃ l l', gperforms t (projT1 a) (projT2 a) (sy_shared c) (sy_shared c') L l l' ∧ sync c' (<[t := l']> L).
Proof.
  intros [I1 I2 I3 I4 I5] Hstep Hsz. destruct (pooled_step _ _ _ _ _ _ _ _ I1 Hstep) as (l & l' & Hp & I1').
  exists l, l'. split; [done|]. split.
  - done.
  - by eapply keys_step.
  - by eapply lock_step.
  - by eapply owner_step.
  - by eapply flight_step.
Qed.

Lemma sync_start cfg g (ops : gmap nat operation) : sync (start cfg g ops) ((λ _, idle) <$> ops).
Proof.
  split; [apply pooled_start, program_idles|..];
    cbn [start sy_shared sy_pool freshShared sh_group sh_locks sh_owner sh_done with_loader with_keys loader loaderNext].
  - split; cbn [with_loader with_keys keyStates ksHeap ksNext]; [|done..]. intros t l k s ->%start_idle. done.
  - intros s t. split; [done|]. intros (l & ->%start_idle & Hl). done.
  - intros t. split; [done|]. intros (l & ->%start_idle & Hl). done.
  - split; try done.
    + intros k c. split; [done|]. by intros (t & l & ->%start_idle & ?).
    + by intros t t' l l' kc ->%start_idle.
    + by intros t l c ->%start_idle.
Qed.

Lemma trace_start g (ops : gmap nat operation) : traceInv [] g ((λ _, idle) <$> ops).
Proof.
  split; try (by intros t l ? ? ->%start_idle).
  - by intros ? ? ? ? ?%elem_of_nil.
  - by intros t l ? ? ? ->%start_idle.
  - by intros t l ->%start_idle.
Qed.

(** The invariant with the history.  The bound on its length keeps a generation
    from coming back to an old value. *)
Definition inv tr c L : Prop := sync c L ∧ traceInv tr (sh_group (sy_shared c)) L.

Lemma inv_step tr c L t a c' :
  inv tr c L → gstep c (t, a) c' → Z.of_nat (size L) < 2 ^ 62 → Z.of_nat (length tr) < 2 ^ 64 →
  ∃ l l', L !! t = Some l ∧ obey (projT1 a) (projT2 a) l = Some l' ∧ inv (tr ++ [(t, a)]) c' (<[t := l']> L).
Proof.
  intros [HS TI] Hstep Hsz Hlen. destruct (sync_step _ _ _ _ _ HS Hstep Hsz) as (l & l' & Hp & HS').
  destruct (Hp) as (_ & Ht & Ho). exists l, l'. split_and!; [done|done|]. split; [done|].
  destruct a as [e x]. eapply trace_step; [exact Hp|apply HS|apply HS|done..].
Qed.

(** ** Who uses a key state *)

(** The key state, with its key, that goroutine [t] has acquired and not released
    since, according to the trace. *)
Definition inUse t tr : option (string * nat) :=
  foldl (λ r a, match acquireOf a with Some ks => Some ks | None => match releaseOf a with Some _ => None | None => r end end)
    None (eventsOf t tr).

(** The number of goroutines that use the key state [s]. *)
Definition users (ops : gmap nat operation) s tr : nat := size (filter (λ t, snd <$> inUse t tr = Some s) (dom ops)).

Lemma obey_ref e x l l' :
  obey e x l = Some l' →
  l_ref l' = match acquireOf (did e x) with Some ks => Some ks | None => match releaseOf (did e x) with Some _ => None | None => l_ref l end end.
Proof.
  intros Ho. destruct e; cbn [obey] in Ho; try (injection Ho as <-; first [done|by case_match]);
    apply guard_Some in Ho as [_ ->]; first [done|by case_match].
Qed.

Lemma inUse_snoc u tr t a :
  inUse u (tr ++ [(t, a)]) =
  if decide (t = u) then match acquireOf a with Some ks => Some ks | None => match releaseOf a with Some _ => None | None => inUse u tr end end
  else inUse u tr.
Proof.
  unfold inUse. rewrite eventsOf_app, foldl_app. unfold eventsOf at 2. rewrite filter_cons. simpl. by case_decide.
Qed.

(** What the discipline says a goroutine references is what the trace says. *)
Lemma use_run cfg g ops tr c :
  grun (start cfg g ops) tr c → Z.of_nat (size ops) < 2 ^ 62 →
  ∃ L, sync c L ∧ dom L = dom ops ∧ ∀ t l, L !! t = Some l → l_ref l = inUse t tr.
Proof.
  intros Hrun Hsz. induction Hrun as [|tr c1 [t [e x]] c2 Hrun (L & HI & HL & Hu) Hstep].
  - exists ((λ _, idle) <$> ops). split_and!; [apply sync_start|by rewrite dom_fmap_L|]. by intros t l ->%start_idle.
  - destruct (sync_step _ _ _ _ _ HI Hstep) as (l & l' & (_ & Ht & Ho) & HI').
    { by rewrite <-size_dom, HL, size_dom. }
    exists (<[t := l']> L). split_and!; [done|rewrite dom_insert_lookup_L by eauto; done|]. intros u x'. rewrite inUse_snoc.
    rewrite lookup_insert_Some. intros [[<- <-]|[Hne Hx]]; [|rewrite decide_False by done; by apply Hu].
    rewrite decide_True by done. rewrite (obey_ref _ _ _ _ Ho). by rewrite (Hu t l Ht).
Qed.

Lemma holders_users ops L s tr :
  dom L = dom ops → (∀ t l, L !! t = Some l → l_ref l = inUse t tr) → holders s L = users ops s tr.
Proof.
  intros Hd Hu. unfold holders, users. rewrite <-size_dom. f_equal. apply set_eq. intros t.
  rewrite elem_of_filter, <-Hd, !elem_of_dom. unfold is_Some. setoid_rewrite map_lookup_filter_Some. simpl.
  assert (∀ l, L !! t = Some l → refsTo s l = true ↔ snd <$> inUse t tr = Some s) as Hiff; [|naive_solver].
  intros l Hl. rewrite refsTo_iff, <-(Hu t l Hl). destruct (l_ref l) as [[k s']|]; naive_solver.
Qed.

Lemma sync_run cfg g ops tr c :
  grun (start cfg g ops) tr c → Z.of_nat (size ops) < 2 ^ 62 → ∃ L, sync c L ∧ size L = size ops.
Proof.
  intros Hrun Hsz. destruct (use_run _ _ _ _ _ Hrun Hsz) as (L & HI & HL & _). exists L. split; [done|]. by rewrite <-!size_dom, HL.
Qed.

Lemma inv_run cfg g ops tr c :
  grun (start cfg g ops) tr c → Z.of_nat (size ops) < 2 ^ 62 → Z.of_nat (length tr) ≤ 2 ^ 64 →
  ∃ L, inv tr c L ∧ size L = size ops.
Proof.
  intros Hrun Hsz. induction Hrun as [|tr c1 [t a] c2 Hrun IH Hstep]; intros Hlen.
  - exists ((λ _, idle) <$> ops). split; [split; [apply sync_start|apply trace_start]|]. apply map_size_fmap.
  - rewrite length_app in Hlen. simpl in Hlen. destruct IH as (L & HI & HL); [lia|].
    destruct (inv_step _ _ _ _ _ _ HI Hstep) as (l & l' & Ht & _ & HI'); [lia|lia|].
    exists (<[t := l']> L). split; [done|]. rewrite map_size_insert_Some by eauto. done.
Qed.

(** ** What follows for every interleaving *)

(** Action [a] mutates [key]: it advances the generation of a state that was
    handed out for the key. *)
Definition mutates tr (key : string) (a : act (ans := ans)) : Prop :=
  ∃ s, incOf a = Some s ∧ ∃ u a', (u, a') ∈ tr ∧ acquireOf a' = Some (key, s).

(** A store has one of two origins, and the key is not mutated between the origin
    and the store. *)
Lemma store_origin cfg g ops tr t a c key v :
  grun (start cfg g ops) (tr ++ [(t, a)]) c → storeOf a = Some (key, v) →
  Z.of_nat (size ops) < 2 ^ 62 → Z.of_nat (length tr) < 2 ^ 64 →
  ∃ tr1 a1 tr2, tr = tr1 ++ (t, a1) :: tr2 ∧ (∀ u a2, (u, a2) ∈ tr2 → ¬ mutates tr key a2) ∧
    (loadOf a1 = Some (key, b v) ∨
     ∃ s, incOf a1 = Some s ∧ mutates tr key a1 ∧ ∀ a2, (t, a2) ∈ tr2 → unlockOf a2 ≠ Some s).
Proof.
  intros Hrun Hst Hsz Hlen. apply sysRun_last in Hrun as (c1 & Hrun' & Hstep). destruct (inv_run _ _ _ _ _ Hrun' Hsz) as (L & HI & HL); [lia|].
  destruct (inv_step _ _ _ _ _ _ HI Hstep) as (l & l' & Ht & Ho & _); [lia|lia|].
  assert (mayAdd key v l = true) as Hmay.
  { destruct a as [e x]. destruct e; try done; injection Hst as -> ->; by apply guard_Some in Ho as [Ho _]. }
  unfold mayAdd in Hmay. apply andb_true_iff in Hmay as [Hmay Hor]. apply andb_true_iff in Hmay as [Hkey _].
  unfold refsKey in Hkey. destruct (l_ref l) as [[k s]|] eqn:Hr; [|done]. apply bool_decide_eq_true in Hkey as <-.
  destruct HI as [_ TI].
  assert (∀ tr2, incs s tr2 = 0 → onlyThrough s key tr2 tr → ∀ u a2, (u, a2) ∈ tr2 → ¬ mutates tr key a2) as Hquiet.
  { intros tr2 Hzero Honly u a3 Hin (s' & Hinc & u' & a' & Hin' & Hacq).
    destruct (decide (s' = s)) as [->|Hne]; [by eapply (incs_zero s _ Hzero)|]. by eapply (Honly _ _ _ Hin Hinc Hne). }
  apply orb_true_iff in Hor as [Hi|Hs].
  - destruct (ti_inc _ _ _ TI _ _ _ _ Ht Hr Hi) as (tr1 & a1 & tr2 & Htr & Ha1 & Hun & Hzero & Honly & _).
    exists tr1, a1, tr2. split_and!; [done|by apply Hquiet|]. right. exists s. split_and!; [done| |done]. exists s. split; [done|].
    destruct (ti_acq _ _ _ TI _ _ _ _ Ht Hr) as (a' & ? & ?). eauto.
  - apply andb_true_iff in Hs as [Hs Hb]. apply bool_decide_eq_true in Hb.
    destruct (l_gen l) as [n|] eqn:Hn; [|by rewrite (proj2 (ti_local _ _ _ TI t l Ht) Hn) in Hb].
    destruct (ti_gen _ _ _ TI _ _ _ _ _ Ht Hr Hn) as (tr1 & a1 & tr2 & Htr & _ & _ & _ & Hload & Hzero & Honly).
    destruct (Hload _ Hb) as (tr3 & a2 & tr4 & -> & Ha2). exists (tr1 ++ (t, a1) :: tr3), a2, tr4.
    split_and!; [by rewrite Htr, <-app_assoc| |by left]. intros u a3 Hin. apply (Hquiet _ (Hzero Hs) Honly u). set_solver.
Qed.

(** [C11] No load overwrites a later mutation.  Whatever the interleaving of any
    number of [Get], [Set], [Delete] and server calls, and whatever caches,
    picker, peers and source answer: when a goroutine writes a key into the
    owner cache, then either it has advanced the key's generation in the
    critical section it is in (it is a mutation), or it writes what it loaded
    from the source; and no goroutine has mutated the key since then. *)
Theorem concurrent_loads_fresh cfg g ops tr t a c key v :
  grun (start cfg g ops) (tr ++ [(t, a)]) c → storeOf a = Some (key, v) →
  Z.of_nat (size ops) < 2 ^ 62 → Z.of_nat (length tr) < 2 ^ 64 →
  ∃ tr1 a1 tr2, tr = tr1 ++ (t, a1) :: tr2 ∧ (∀ u a2, (u, a2) ∈ tr2 → ¬ mutates tr key a2) ∧
    (loadOf a1 = Some (key, b v) ∨
     ∃ s, incOf a1 = Some s ∧ mutates tr key a1 ∧ ∀ a2, (t, a2) ∈ tr2 → unlockOf a2 ≠ Some s).
Proof. apply store_origin. Qed.

(** [C12] Nothing leaks.  At every moment of every interleaving the key states in
    the map are exactly those that some goroutine has acquired and not released
    since, each under its key, and the reference count of every key state, in
    the map or not, is the number of the goroutines that have acquired it and
    not released it since.  When all goroutines have finished, returned or
    panicked, no key state is left in the map, no mutex is held and no call is in
    flight. *)
Theorem concurrent_nothing_leaks cfg g ops tr c :
  grun (start cfg g ops) tr c → Z.of_nat (size ops) < 2 ^ 62 →
  (∀ k s, keyStates (sh_group (sy_shared c)) !! k = Some s ↔ ∃ t, t ∈ dom ops ∧ inUse t tr = Some (k, s)) ∧
  (∀ k s, keyStates (sh_group (sy_shared c)) !! k = Some s → is_Some (ksHeap (sh_group (sy_shared c)) !! s)) ∧
  (∀ s st, ksHeap (sh_group (sy_shared c)) !! s = Some st → refs st = Z.of_nat (users ops s tr)) ∧
  (allFinished c = true →
   keyStates (sh_group (sy_shared c)) = ∅ ∧ loader (sh_group (sy_shared c)) = ∅ ∧
   sh_locks (sy_shared c) = ∅ ∧ sh_owner (sy_shared c) = None).
Proof.
  intros Hrun Hsz. destruct (use_run _ _ _ _ _ Hrun Hsz) as (L & HI & HL & Hu). split_and!.
  - intros k s. split.
    + intros Hk. destruct (ki_used _ _ (in_keys _ _ HI) _ _ Hk) as [_ (t & l & Ht & [k' Hr]%refsTo_iff)%holders_pos].
      pose proof (ki_ref _ _ (in_keys _ _ HI) _ _ _ _ Ht Hr) as Hk'. rewrite (ki_inj _ _ (in_keys _ _ HI) _ _ _ Hk Hk').
      exists t. split; [rewrite <-HL; by eapply elem_of_dom_2|]. by rewrite <-(Hu t l Ht).
    + intros (t & Ht & Hin). rewrite <-HL in Ht. apply elem_of_dom in Ht as [l Ht]. rewrite <-(Hu t l Ht) in Hin. by eapply (ki_ref _ _ (in_keys _ _ HI)).
  - intros k s Hk. apply (ki_used _ _ (in_keys _ _ HI) _ _ Hk).
  - intros s st Hst. destruct (ki_heap _ _ (in_keys _ _ HI) _ _ Hst) as (_ & -> & _). by rewrite (holders_users ops L s tr).
  - intros Hfin. assert (∀ t l, L !! t = Some l → l = idle) as Hidle.
    { intros t l. by eapply allFinished_idle; [apply HI|]. }
    split_and!.
    + apply map_empty. intros k. destruct (keyStates _ !! k) as [s|] eqn:Hk; [|done].
      destruct (ki_used _ _ (in_keys _ _ HI) _ _ Hk) as [_ (t & l & ->%Hidle & ?)%holders_pos]. done.
    + apply map_empty. intros k. destruct (loader _ !! k) as [c'|] eqn:Hk; [|done].
      apply (fi_map _ _ _ _ (in_flight _ _ HI)) in Hk as (t & l & ->%Hidle & ?). done.
    + apply map_empty. intros s. destruct (sh_locks _ !! s) as [t|] eqn:Hk; [|done].
      apply (in_lock _ _ HI) in Hk as (l & ->%Hidle & ?). done.
    + destruct (sh_owner _) as [t|] eqn:Hk; [|done]. apply (in_owner _ _ HI) in Hk as (l & ->%Hidle & ?). done.
Qed.
End facts.

(** The [Get] stores what it loaded while the [Set] waits for the mutex. *)
Definition w_load : list nat := replicate 14 0%nat ++ [1; 1]%nat ++ replicate 3 0%nat.
Definition w_before : trace := (w_result (replicate 14 0%nat ++ [1; 1]%nat ++ replicate 2 0%nat)).1.
Definition w_store : act (ans := ans) := did (EvMainAdd "Tom" (mkByteView [7])) tt.

Lemma concurrent_loads_fresh_witness :
  (w_result w_load).1 = w_before ++ [(0%nat, w_store)] ∧
  ∃ tr1 a1 tr2, w_before = tr1 ++ (0%nat, a1) :: tr2 ∧ (∀ u a2, (u, a2) ∈ tr2 → ¬ mutates w_before "Tom" a2) ∧
    (loadOf a1 = Some ("Tom", [7]) ∨
     ∃ s, incOf a1 = Some s ∧ mutates w_before "Tom" a1 ∧ ∀ a2, (0%nat, a2) ∈ tr2 → unlockOf a2 ≠ Some s).
Proof.
  assert ((w_result w_load).1 = w_before ++ [(0%nat, w_store)]) as Heq by (vm_compute; reflexivity).
  split; [exact Heq|].
  apply (concurrent_loads_fresh w_cfg w_group w_ops w_before 0%nat w_store (w_result w_load).2 "Tom" (mkByteView [7])).
  - rewrite <-Heq. apply outcomeOf_run. vm_compute. reflexivity.
  - reflexivity.
  - vm_compute. reflexivity.
  - vm_compute. reflexivity.
Defined.

(** The load is overtaken by the [Set], and both finish. *)
Definition w_overtaken : list nat := replicate 14 0%nat ++ replicate 7 1%nat ++ replicate 6 0%nat.

(** While both use the key state its count is two. *)
Definition w_sharing : list nat := replicate 14 0%nat ++ [1; 1]%nat.

Lemma concurrent_nothing_leaks_witness :
  (refs <$> ksHeap (sh_group (sy_shared (w_result w_sharing).2)) !! 0%nat = Some 2 ∧ users w_ops 0 (w_result w_sharing).1 = 2%nat) ∧
  keyStates (sh_group (sy_shared (w_result w_overtaken).2)) = ∅ ∧
  loader (sh_group (sy_shared (w_result w_overtaken).2)) = ∅ ∧
  sh_locks (sy_shared (w_result w_overtaken).2) = ∅ ∧ sh_owner (sy_shared (w_result w_overtaken).2) = None.
Proof.
  split.
  - destruct (concurrent_nothing_leaks w_cfg w_group w_ops (w_result w_sharing).1 (w_result w_sharing).2) as (_ & _ & Hrefs & _).
    + apply outcomeOf_run. vm_compute. reflexivity.
    + vm_compute. reflexivity.
    + specialize (Hrefs 0%nat (mkKeyState 0 2)). split; [vm_compute; reflexivity|]. apply Nat2Z.inj. symmetry. apply Hrefs. vm_compute. reflexivity.
  - apply (concurrent_nothing_leaks w_cfg w_group w_ops (w_result w_overtaken).1).
    + apply outcomeOf_run. vm_compute. reflexivity.
    + vm_compute. reflexivity.
    + vm_compute. reflexivity.
Defined.

(** ** A gap: the owner epoch

    [prepareLocalOwner] clears the owner cache when the epoch has changed, but a
    load validated under the old epoch stores its value afterwards: the mutex of
    the epoch is not held between the validation and the store. *)

Definition w_peer_cfg : config := mkGConfig "scores" true false 0 true 0.
Definition w_two_gets : gmap nat operation :=
  {[ 0%nat := OServeGet (mkRequest "scores" "Tom" [] false); 1%nat := OServeGet (mkRequest "scores" "Sam" [] false) ]}.

(** Goroutine [t] sees this node as the owner in epoch [t + 1]. *)
Definition w_epochs (t : nat) (e : ev) : ans e :=
  match e return ans e with
  | EvPickOwner _ => mkPick "10.0.0.7:8001" PeerNil true (Z.of_nat t + 1) true
  | e => anyAnswer e
  end.

Definition w_epoch_race : list (nat * act (ans := ans)) * gsystem unit :=
  outcomeOf effect w_epochs (replicate 20 0%nat ++ replicate 7 1%nat ++ replicate 3 0%nat) (start w_peer_cfg w_group w_two_gets).

(** A value loaded and validated in epoch 1 is stored after the owner cache was
    cleared for epoch 2. *)
Theorem owner_epoch_overtaken :
  ∃ tr1 tr2 r c,
    grun (start w_peer_cfg w_group w_two_gets)
      (tr1 ++ (0%nat, did (ans := ans) (EvPickOwner "Tom") r) :: tr2 ++ [(0%nat, did (ans := ans) (EvMainAdd "Tom" (mkByteView [7])) tt)]) c ∧
    pk_epoch r = 1 ∧ ownerEpoch (sh_group (sy_shared c)) = 2 ∧ (1%nat, did (ans := ans) EvMainClear tt) ∈ tr2.
Proof.
  set (tr := w_epoch_race.1). exists (take 19 tr), (take 9 (drop 20 tr)), (mkPick "10.0.0.7:8001" PeerNil true 1 true), w_epoch_race.2.
  split_and!.
  - match goal with |- grun _ ?tr' _ => assert (tr' = tr) as -> by (vm_compute; reflexivity) end.
    apply outcomeOf_run. vm_compute. reflexivity.
  - reflexivity.
  - vm_compute. reflexivity.
  - apply (list_elem_of_lookup_2 _ 4). vm_compute. reflexivity.
Qed.

(** ** A gap: a finished load is still joined

    [Do] removes a call from its map after the function has returned, not with
    it: a caller that comes in between joins the call, although its value may have been
    deleted in the meantime. *)

Definition w_get_delete_get : gmap nat operation :=
  {[ 0%nat := OServeGet (mkRequest "scores" "Tom" [] false); 1%nat := OServeDelete (mkRequest "scores" "Tom" [] false);
     2%nat := OServeGet (mkRequest "scores" "Tom" [] false) ]}.
Definition w_removes (t : nat) (e : ev) : ans e :=
  match e return ans e with EvMainDelete _ => true | e => anyAnswer e end.

(** The load stores its value and returns from the function; the [Delete] runs
    to its end. *)
Definition w_deleted : list (nat * act (ans := ans)) * gsystem unit :=
  outcomeOf effect w_removes (replicate 18 0%nat ++ replicate 7 1%nat) (start w_cfg w_group w_get_delete_get).
(** A new [Get] comes and the load ends. *)
Definition w_joined : list (nat * act (ans := ans)) * gsystem unit :=
  outcomeOf effect w_removes (replicate 5 2%nat ++ [0; 2]%nat) w_deleted.2.

(** A [Get] that starts after a [Delete] of the key has removed the value and
    returned, and before anything is loaded or stored again, is given the
    deleted value. *)
Theorem deleted_value_joined :
  ∃ tr1 tr2 c1 c,
    grun (start w_cfg w_group w_get_delete_get) tr1 c1 ∧ grun c1 tr2 c ∧
    finished <$> sy_pool c1 !! 1%nat = Some true ∧ (1%nat, did (ans := ans) (EvMainDelete "Tom") true) ∈ tr1 ∧
    Forall (λ ta, ta.1 ≠ 2%nat) tr1 ∧ Forall (λ ta, loadOf ta.2 = None ∧ storeOf ta.2 = None) tr2 ∧
    (2%nat, did (ans := ans) (EvFlightWait 0) (Done_ (inr (mkByteView [7])))) ∈ tr2.
Proof.
  exists w_deleted.1, w_joined.1, w_deleted.2, w_joined.2. split_and!.
  - apply (outcomeOf_run effect w_removes (replicate 18 0%nat ++ replicate 7 1%nat) (start w_cfg w_group w_get_delete_get)). vm_compute. reflexivity.
  - apply (outcomeOf_run effect w_removes (replicate 5 2%nat ++ [0; 2]%nat) w_deleted.2). vm_compute. reflexivity.
  - vm_compute. reflexivity.
  - apply (list_elem_of_lookup_2 _ 22). vm_compute. reflexivity.
  - vm_compute. repeat constructor; discriminate.
  - vm_compute. repeat constructor.
  - apply (list_elem_of_lookup_2 _ 6). vm_compute. reflexivity.
Qed.
