(* ===== verification/OwnerCache.v ===== *)
(** * The owner cache under concurrency

    What the owner cache can hold for a key after its last mutation, in every
    interleaving: what that mutation wrote, or what was loaded from the source
    after it.  The content is read off the trace, so eviction and expiry, which
    only take entries away, need not be known. *)

From S2P Require Import Prelude Store ByteView Errors Cache Peers Singleflight Prog Interleave Group Rpc GroupFacts Node Concurrent Discipline SyncFacts ConcurrentFacts.

(** ** The content *)

(** The last thing the owner cache was told about [key], from [v]. *)
Definition contentStep (key : string) (v : option ByteView) (ta : nat * act (ans := ans)) : option ByteView :=
  match projT1 ta.2 with
  | EvMainAdd k x => if decide (k = key) then Some x else v
  | EvMainAddExp k x _ => if decide (k = key) then Some x else v
  | EvMainDelete k => if decide (k = key) then None else v
  | EvMainClear => None
  | _ => v
  end.
Definition content (v0 : option ByteView) (key : string) (tr : trace) : option ByteView := foldl (contentStep key) v0 tr.

Lemma contentStep_Some key v0 t a v :
  contentStep key v0 (t, a) = Some v → storeOf a = Some (key, v) ∨ (touchOf a ≠ Some key ∧ v0 = Some v).
Proof.
  destruct a as [e x]. unfold contentStep, storeOf, touchOf. destruct e; cbn [projT1 snd]; try (intros ->; by right);
    try case_decide; naive_solver.
Qed.

Lemma content_Some v0 key tr v :
  content v0 key tr = Some v →
  (v0 = Some v ∧ ∀ u a, (u, a) ∈ tr → touchOf a ≠ Some key) ∨
  (∃ tr1 t a tr2, tr = tr1 ++ (t, a) :: tr2 ∧ storeOf a = Some (key, v) ∧ ∀ u a', (u, a') ∈ tr2 → touchOf a' ≠ Some key).
Proof.
  revert v. induction tr as [|[t a] tr IH] using rev_ind; intros v; unfold content; [by left; split; [|intros ? ? ?%elem_of_nil]|].
  rewrite foldl_app. cbn [foldl]. intros [Hst|[Hne Hv]]%contentStep_Some.
  - right. exists tr, t, a, []. split_and!; [done|done|]. by intros ? ? ?%elem_of_nil.
  - assert (∀ u a' tr2, (∀ u a', (u, a') ∈ tr2 → touchOf a' ≠ Some key) → (u, a') ∈ tr2 ++ [(t, a)] → touchOf a' ≠ Some key) as Hno.
    { intros u a' tr2 H2 [Hin|Hin]%elem_of_app; [by eapply H2|]. by apply list_elem_of_singleton in Hin as [= _ ->]. }
    destruct (IH v Hv) as [[-> Hall]|(tr1 & t1 & a1 & tr2 & -> & Ha1 & Hall)]; [left; split; [done|eauto]|].
    right. exists tr1, t1, a1, (tr2 ++ [(t, a)]). rewrite <-app_assoc. eauto.
Qed.

(** ** Lists *)

Lemma split_compare {A} (x1 y1 : list A) p q x2 y2 :
  x1 ++ p :: x2 = y1 ++ q :: y2 →
  (∃ z, y1 = x1 ++ p :: z ∧ x2 = z ++ q :: y2) ∨ (x1 = y1 ∧ p = q ∧ x2 = y2) ∨ (∃ z, x1 = y1 ++ q :: z ∧ y2 = z ++ p :: x2).
Proof.
  revert y1. induction x1 as [|x x1 IH]; intros [|y y1]; simpl.
  - intros [= -> ->]. eauto.
  - intros [= -> ->]. left. eauto.
  - intros [= -> <-]. right. right. eauto.
  - intros [= -> Heq]. destruct (IH y1 Heq) as [(z & -> & ->)|[(-> & -> & ->)|(z & -> & ->)]]; eauto 6.
Qed.

Lemma split_first {A} (P : A → Prop) `{!∀ x, Decision (P x)} (l : list A) x :
  x ∈ l → P x → ∃ l1 y l2, l = l1 ++ y :: l2 ∧ P y ∧ ∀ z, z ∈ l1 → ¬ P z.
Proof.
  intros Hx HP. induction l as [|y l IH]; [by apply elem_of_nil in Hx|]. destruct (decide (P y)) as [Hy|Hy].
  - exists [], y, l. split_and!; [done|done|]. by intros ? ?%elem_of_nil.
  - apply elem_of_cons in Hx as [->|Hx]; [done|]. destruct (IH Hx) as (l1 & z & l2 & -> & Hz & Hno).
    exists (y :: l1), z, l2. split_and!; [done|done|]. intros w [->|Hw]%elem_of_cons; [done|by apply Hno].
Qed.

Section facts.
Context {S : Type}.
Implicit Types (g : Node.Group S) (L : gmap nat local) (l : local) (t u s : nat) (tr : trace) (c : gsystem S).

(** ** The critical section of a mutation *)

(** Goroutine [u] is in the section that advanced the generation of [s]. *)
Definition inSection u k s L : Prop := ∃ l, L !! u = Some l ∧ l_inc l = true ∧ l_ref l = Some (k, s).

Lemma obey_section e x l l' k s :
  localOk l → l_inc l = true → l_ref l = Some (k, s) → obey e x l = Some l' → unlockOf (did e x) ≠ Some s →
  l_inc l' = true ∧ l_ref l' = Some (k, s).
Proof.
  intros [Hlk _] Hi Hr Ho Hun. assert (l_lock l = true) as Hl by (apply Hlk; by rewrite Hi, orb_true_r).
  destruct e; cbn [obey] in Ho; try (injection Ho as <-; first [done|by case_match]); apply guard_Some in Ho as [Hg ->];
    try done; unfold lockFree in Hg; rewrite Hl in Hg; try done; try (by case_match).
  apply andb_true_iff in Hg as [Hg _]. cbn [andb] in Hg. unfold refsTo in Hg. rewrite Hr in Hg. apply bool_decide_eq_true in Hg as ->. done.
Qed.

Lemma inSection_step tr c L t a c' u k s :
  inv tr c L → gstep c (t, a) c' → Z.of_nat (size L) < 2 ^ 62 → Z.of_nat (length tr) < 2 ^ 64 →
  inSection u k s L → (t = u → unlockOf a ≠ Some s) →
  ∃ L', inv (tr ++ [(t, a)]) c' L' ∧ size L' = size L ∧ inSection u k s L'.
Proof.
  intros HI Hstep Hsz Hlen (l & Hu & Hi & Hr) Hun. destruct (inv_step _ _ _ _ _ _ HI Hstep Hsz Hlen) as (lt & lt' & Ht & Ho & HI').
  exists (<[t := lt']> L). split_and!; [done|by apply map_size_insert_Some; eauto|].
  destruct (decide (t = u)) as [->|Hne]; [|exists l; by rewrite lookup_insert_ne].
  assert (lt = l) as -> by congruence. exists lt'. rewrite lookup_insert_eq. split; [done|]. destruct a as [e x].
  eapply obey_section; [by eapply ti_local; [apply HI|]|done..|by apply Hun].
Qed.

Lemma inSection_run tr c L tr' c' u k s :
  inv tr c L → grun c tr' c' → Z.of_nat (size L) < 2 ^ 62 → Z.of_nat (length (tr ++ tr')) < 2 ^ 64 →
  inSection u k s L → (∀ a, (u, a) ∈ tr' → unlockOf a ≠ Some s) →
  ∃ L', inv (tr ++ tr') c' L' ∧ size L' = size L ∧ inSection u k s L'.
Proof.
  intros HI Hrun Hsz Hlen Hin Hun. induction Hrun as [|tr' c1 [t a] c2 Hrun IH Hs]; [exists L; by rewrite app_nil_r|].
  rewrite app_assoc, length_app in Hlen. destruct IH as (L1 & HI1 & HL1 & Hin1); [simpl in Hlen; lia|set_solver|].
  rewrite app_assoc. destruct (inSection_step _ _ _ _ _ _ u k s HI1 Hs) as (L2 & HI2 & HL2 & Hin2); [lia|simpl in Hlen; lia|done| |].
  - intros ->. apply Hun. set_solver.
  - exists L2. split_and!; [done|lia|done].
Qed.

(** A mutation that has left its critical section has written or deleted the key. *)
Lemma mutation_touches cfg g ops pre u a s a' post c key :
  grun (start cfg g ops) (pre ++ (u, a) :: post) c → incOf a = Some s → mutates pre key a →
  (u, a') ∈ post → unlockOf a' = Some s →
  Z.of_nat (size ops) < 2 ^ 62 → Z.of_nat (length (pre ++ (u, a) :: post)) < 2 ^ 64 →
  ∃ b, (u, b) ∈ post ∧ touchOf b = Some key.
Proof.
  intros Hrun Ha Hmut Hin Hun Hsz Hlen.
  destruct (split_first (λ ta : nat * act, ta.1 = u ∧ unlockOf ta.2 = Some s) post (u, a') Hin (conj eq_refl Hun))
    as (p1 & [u' b'] & p2 & -> & [Hu' Hb'] & Hfirst). simpl in Hu', Hb'. subst u'.
  apply sysRun_app in Hrun as (c1 & Hpre & (c2 & Hstep & (c3 & Hp1 & (c4 & Hstep' & _)%sysRun_cons)%sysRun_app)%sysRun_cons).
  rewrite length_app in Hlen. simpl in Hlen. rewrite length_app in Hlen.
  destruct (inv_run _ _ _ _ _ Hpre Hsz) as (L & HI & HL); [lia|].
  destruct (inv_step _ _ _ _ _ _ HI Hstep) as (l & l' & Hl & Ho & HI2); [lia|lia|].
  assert (∃ k, l_ref l = Some (k, s) ∧ l' = setInc l) as (k & Hr & ->).
  { destruct a as [e x]. destruct e; try done. injection Ha as ->. obey_inv Ho. apply refsTo_iff in Ho as [k ?]. eauto. }
  assert (k = key) as ->.
  { destruct Hmut as (s' & Hs' & u' & a1 & Hin1 & Hacq). assert (s' = s) as -> by congruence.
    destruct HI as [HS TI]. destruct (ti_key _ _ _ TI _ _ _ _ Hin1 Hacq) as [_ Huniq]. apply Huniq.
    by eapply (ki_ref _ _ (in_keys _ _ HS)). }
  destruct (inSection_run _ _ _ p1 c3 u key s HI2 Hp1) as (L3 & HI3 & HL3 & l3 & Hl3 & Hi3 & Hr3).
  { rewrite map_size_insert_Some by eauto. lia. }
  { rewrite !length_app. simpl. simpl in Hlen. lia. }
  { exists (setInc l). by rewrite lookup_insert_eq. }
  { intros b Hb Hbu. by eapply (Hfirst _ Hb). }
  rewrite map_size_insert_Some in HL3 by eauto.
  destruct (inv_step _ _ _ _ _ _ HI3 Hstep') as (lx & ly & Hlx & Hox & _); [lia|rewrite !length_app; simpl; simpl in Hlen; lia|].
  assert (lx = l3) as -> by congruence. destruct b' as [e x]. destruct e; try done. cbn [projT1 projT2 obey] in Hox.
  apply guard_Some in Hox as [Hg _]. apply andb_true_iff in Hg as [_ Hw]. rewrite Hi3 in Hw. cbn [negb orb] in Hw.
  destruct (ti_inc _ _ _ (proj2 HI3) _ _ _ _ Hl3 Hr3 Hi3) as (tr1 & a1 & tr2 & Htr & Ha1 & _ & Hzero & _ & Hwr).
  destruct (Hwr Hw) as (d & Hd & Htouch). exists d. split; [|done]. rewrite <-app_assoc in Htr.
  apply (split_compare pre tr1 (u, a) (u, a1) p1 tr2) in Htr as [(z & _ & ->)|[(_ & _ & ->)|(z & _ & ->)]]; [set_solver..|].
  destruct (incs_zero s _ Hzero u a); [set_solver|done].
Qed.

(** ** Deletes do not store *)

Definition noStore (e : ev) : Prop := match e with EvMainAdd _ _ | EvMainAddExp _ _ _ => False | _ => True end.

Definition isDelete (o : operation) : bool := match o with ODelete _ _ | OServeDelete _ => true | _ => false end.

Section programs.
Context (cfg : config).
Lemma prepareLocalOwner_noStore key : every noStore (prepareLocalOwner cfg key).
Proof. unfold prepareLocalOwner. every_tac. Qed.
Lemma invalidateNearKey_noStore key : every noStore (invalidateNearKey cfg key).
Proof. unfold invalidateNearKey. every_tac. Qed.
Lemma deleteLocal_noStore key : every noStore (deleteLocal cfg key).
Proof. unfold deleteLocal. every_tac; auto using invalidateNearKey_noStore. Qed.
Lemma deleteOwnerLocal_noStore key : every noStore (deleteOwnerLocal cfg key).
Proof. unfold deleteOwnerLocal. every_tac; auto using prepareLocalOwner_noStore, invalidateNearKey_noStore, deleteLocal_noStore. Qed.
Lemma waitLoop_noStore n e : every noStore (waitLoop n e).
Proof. induction n as [|n IH]; cbn [waitLoop]; every_tac. Qed.
Lemma deleteTurn_noStore last n key : every noStore (deleteTurn cfg last n key).
Proof.
  unfold deleteTurn, peerDelete, nilPeer, confirm, refused, waitForTopologyRetry.
  every_tac; auto using waitLoop_noStore, invalidateNearKey_noStore, deleteLocal_noStore.
Qed.
Lemma turnLoop_noStore n body ticks o : (∀ last k, every noStore (body last k)) → every noStore (turnLoop n body ticks o).
Proof. intros Hb. revert o. induction n as [|n IH]; intros o; cbn [turnLoop]; every_tac; auto. Qed.
Lemma delete_noStore o : isDelete o = true → every noStore (program cfg o).
Proof.
  destruct o; try done; intros _; cbn [program Server_Delete]; unfold Group.Delete, invalidateLocalCopies, invalidatePeerCopies;
    every_tac; auto using turnLoop_noStore, deleteTurn_noStore, invalidateNearKey_noStore, prepareLocalOwner_noStore, deleteLocal_noStore, deleteOwnerLocal_noStore.
Qed.
End programs.

Lemma delete_stores_nothing cfg g ops tr c u o a :
  grun (start cfg g ops) tr c → ops !! u = Some o → isDelete o = true → (u, a) ∈ tr → storeOf a = None.
Proof.
  intros Hrun Ho Hd Hin. assert (noStore (projT1 a)) as Hno.
  { eapply (sysRun_every effect noStore); [exact Hrun| |by apply (delete_noStore cfg o)|exact Hin].
    cbn [start sy_pool]. by rewrite lookup_fmap, Ho. }
  unfold storeOf. destruct a as [[] x]; done.
Qed.

(** ** The last mutation wins *)

Lemma mutates_mono tr tr' key a : (∀ ta, ta ∈ tr → ta ∈ tr') → mutates tr key a → mutates tr' key a.
Proof. intros Hsub (s & Hs & u & a' & Hin & Hacq). exists s. split; [done|]. eauto. Qed.

(** What the owner cache holds for a key after a mutation of it has left its
    critical section: something loaded after the mutation began, or something
    written, after it began, by it or by a later mutation. *)
Lemma content_origin cfg g ops pre u a s a' post c key v0 v :
  grun (start cfg g ops) (pre ++ (u, a) :: post) c →
  incOf a = Some s → mutates pre key a → (u, a') ∈ post → unlockOf a' = Some s →
  Z.of_nat (size ops) < 2 ^ 62 → Z.of_nat (length (pre ++ (u, a) :: post)) < 2 ^ 64 →
  content v0 key (pre ++ (u, a) :: post) = Some v →
  ∃ t a1, (t, a1) ∈ post ∧
    (loadOf a1 = Some (key, b v) ∨
     storeOf a1 = Some (key, v) ∧ ∃ a2, ((t, a2) = (u, a) ∨ (t, a2) ∈ post) ∧ mutates (pre ++ (u, a) :: post) key a2).
Proof.
  intros Hrun Ha Hmut Hin Hun Hsz Hlen Hc. set (tr := pre ++ (u, a) :: post) in *.
  destruct (mutation_touches cfg g ops pre u a s a' post c key) as (d & Hd & Htouch); try done.
  apply content_Some in Hc as [[_ Hno]|(tr1 & t & w & tr2 & Htr & Hw & Hno)].
  { destruct (Hno u d); [unfold tr; set_solver|done]. }
  assert (∃ z, tr1 = pre ++ (u, a) :: z ∧ post = z ++ (t, w) :: tr2) as (z & -> & ->).
  { apply (split_compare pre tr1) in Htr as [?|[(_ & [= -> ->] & _)|(z & _ & ->)]]; [done| |].
    - by destruct w as [[] ?].
    - destruct (Hno u d); [set_solver|done]. }
  assert (∃ c1, grun (start cfg g ops) ((pre ++ (u, a) :: z) ++ [(t, w)]) c1) as [c1 Hrun1].
  { rewrite Htr in Hrun. change ((t, w) :: tr2) with ([(t, w)] ++ tr2) in Hrun. rewrite app_assoc in Hrun.
    apply sysRun_app in Hrun as (c1 & ? & _). eauto. }
  assert (∀ ta, ta ∈ pre ++ (u, a) :: z → ta ∈ tr) as Hsub by (intros ta; unfold tr; set_solver).
  destruct (store_origin _ _ _ _ _ _ _ _ _ Hrun1 Hw Hsz) as (x1 & a1 & x2 & Hx & Hquiet & Horig).
  { unfold tr in Hlen. rewrite !length_app in *. simpl in *. rewrite length_app in Hlen. lia. }
  assert (mutates (pre ++ (u, a) :: z) key a) as Hmut' by (eapply mutates_mono; [|done]; set_solver).
  apply (split_compare pre x1) in Hx as [(y & -> & ->)|[(_ & [= -> ->] & ->)|(y & _ & ->)]].
  - destruct Horig as [Hload|(s1 & _ & Hm & _)]; [exists t, a1; split; [set_solver|by left]|].
    exists t, w. split; [set_solver|]. right. split; [done|]. exists a1. split; [right; set_solver|by eapply mutates_mono].
  - exists t, w. split; [set_solver|]. right. split; [done|]. exists a1. split; [by left|by eapply mutates_mono].
  - destruct (Hquiet u a); [set_solver|done].
Qed.

(** [C10] The last mutation wins.  In every interleaving of [Get], [Set],
    [Delete] and server calls, whatever the owner cache held at first, and
    whatever caches, picker, peers and source answer: when the last mutation
    of a key has left its critical section, what the owner cache holds for the
    key, if anything, was either written by that mutation, which then is not a
    [Delete], or loaded from the source after the mutation. *)
Theorem concurrent_last_mutation_wins cfg g ops pre u a s a' post c key v0 v :
  grun (start cfg g ops) (pre ++ (u, a) :: post) c →
  incOf a = Some s → mutates pre key a → (u, a') ∈ post → unlockOf a' = Some s →
  (∀ t b, (t, b) ∈ post → ¬ mutates (pre ++ (u, a) :: post) key b) →
  Z.of_nat (size ops) < 2 ^ 62 → Z.of_nat (length (pre ++ (u, a) :: post)) < 2 ^ 64 →
  content v0 key (pre ++ (u, a) :: post) = Some v →
  ∃ t a1, (t, a1) ∈ post ∧
    (loadOf a1 = Some (key, b v) ∨ t = u ∧ storeOf a1 = Some (key, v) ∧ ∀ o, ops !! u = Some o → isDelete o = false).
Proof.
  intros Hrun Ha Hmut Hin Hun Hlast Hsz Hlen Hc.
  destruct (content_origin cfg g ops pre u a s a' post c key v0 v Hrun Ha Hmut Hin Hun Hsz Hlen Hc)
    as (t & a1 & Ha1 & [Hload|(Hst & a2 & [[= -> ->]|Ha2] & Hm)]); exists t, a1 || exists u, a1; (split; [done|]).
  - by left.
  - right. split_and!; [done|done|]. intros o Ho. apply not_true_iff_false. intros Hdel.
    rewrite (delete_stores_nothing cfg g ops (pre ++ (u, a) :: post) c u o a1) in Hst; [done|done..|set_solver].
  - by destruct (Hlast t a2).
Qed.
End facts.

(** The [Get] loads, the [Set] overtakes it and finishes, and the [Get] finds
    the generation advanced. *)
Definition w_set_inc : act (ans := ans) := did (EvIncGen 0) tt.
Definition w_before_set : trace := take 17 (w_result w_overtaken).1.
Definition w_after_set : trace := drop 18 (w_result w_overtaken).1.

Lemma concurrent_last_mutation_wins_witness :
  content None "Tom" (w_before_set ++ (1%nat, w_set_inc) :: w_after_set) = Some (mkByteView [9]) ∧
  ∃ t a1, (t, a1) ∈ w_after_set ∧
    (loadOf a1 = Some ("Tom", [9]) ∨
     t = 1%nat ∧ storeOf a1 = Some ("Tom", mkByteView [9]) ∧ ∀ o, w_ops !! 1%nat = Some o → isDelete o = false).
Proof.
  assert (content None "Tom" (w_before_set ++ (1%nat, w_set_inc) :: w_after_set) = Some (mkByteView [9])) as Hc by (vm_compute; reflexivity).
  split; [exact Hc|].
  apply (concurrent_last_mutation_wins w_cfg w_group w_ops w_before_set 1 w_set_inc 0 (did (EvUnlock 0) tt) w_after_set (w_result w_overtaken).2 "Tom" None (mkByteView [9])).
  - assert (w_before_set ++ (1%nat, w_set_inc) :: w_after_set = (w_result w_overtaken).1) as -> by (vm_compute; reflexivity).
    apply (outcomeOf_run effect (λ _, anyAnswer) w_overtaken (start w_cfg w_group w_ops)). vm_compute. reflexivity.
  - reflexivity.
  - exists 0%nat. split; [reflexivity|]. exists 0%nat, (did (EvAcquire "Tom") 0%nat). split; [|reflexivity].
    apply (list_elem_of_lookup_2 _ 1). vm_compute. reflexivity.
  - apply (list_elem_of_lookup_2 _ 1). vm_compute. reflexivity.
  - reflexivity.
  - assert (Forall (λ ta, incOf ta.2 = None) w_after_set) as Hno by (vm_compute; repeat constructor).
    intros t b Hb (s & Hs & _). rewrite Forall_forall in Hno. specialize (Hno _ Hb). simpl in Hno. congruence.
  - vm_compute. reflexivity.
  - vm_compute. reflexivity.
  - exact Hc.
Defined.
