(* ===== verification/Sweep.v ===== *)
(** * The cleanup goroutines of the stores

    Every store has a goroutine that removes expired entries at each tick of its
    ticker.  What a client of the store sees of it: a tick never brings a value
    to life. *)

From S2P Require Import Prelude Store ByteView Lru LruFacts LruSpec Sharded ShardedFacts Cache CacheFacts.

(** One tick of the cleanup goroutine, and what a client may rely on. *)
Class StoreSweep (S : Type) := st_Sweep : Z → S → S.

Class SweepLaws (S V : Type) `{StoreModel S V, StoreSweep S} : Prop := {
  st_Sweep_wf now s : st_wf s → st_wf (st_Sweep now s);
  st_Sweep_lookup now t k v s : st_wf s → st_lookup t k (st_Sweep now s) = Some v → st_lookup t k s = Some v
}.

Section sweep.
Context {V : Type} `{Value V}.

#[global] Instance lru_sweep : StoreSweep (lruCache V) := λ now c, (Lru.cleanupLoop (TickC now) c).1.
#[global] Instance sharded_sweep : StoreSweep (shardedLRU V) := λ now s, (Sharded.cleanupLoop (STickC (λ _, now)) s).1.
#[global] Instance storeImpl_sweep : StoreSweep (storeImpl V) :=
  λ now s, match s with SLru c => SLru (st_Sweep now c) | SSharded s => SSharded (st_Sweep now s) end.

Lemma lru_sweep_lookup now t k v (c : lruCache V) :
  lru_wf c → lru_lookup t k (cleanupExpired now c) = Some v → lru_lookup t k c = Some v.
Proof.
  intros Hwf. unfold cleanupExpired. destruct (evictLocked_effect now c Hwf) as (Hwf' & Hv & He & _).
  rewrite !lru_lookup_live, He, live_restrict, Hv by done. unfold live. case_decide; [done|].
  intros Hin%assoc_Some_elem%elem_of_shrink. apply list_elem_of_filter in Hin as [_ Hin].
  apply (assoc_elem (mkEntry k v)); [by apply NoDup_view_keys|done].
Qed.

#[global] Instance lru_sweep_laws : SweepLaws (lruCache V) V.
Proof. split; [intros now s Hwf; by apply evictLocked_effect|intros now t k v s Hwf; by apply lru_sweep_lookup]. Qed.

#[global] Instance sharded_sweep_laws : SweepLaws (shardedLRU V) V.
Proof.
  split; [intros now s; apply (shardStep_wf (SCleanup (STickC (λ _, now))))|].
  intros now t k v s Hwf. unfold st_lookup, sharded_store_model, sharded_lookup, st_Sweep, sharded_sweep, Sharded.cleanupLoop, shard.
  cbn [fst shards]. rewrite length_imap, list_lookup_imap.
  destruct (shards s !! shardIndex (length (shards s)) k) as [c|] eqn:Hc; [|done]. cbn [fmap option_fmap option_map mbind option_bind].
  apply lru_sweep_lookup. destruct (shard_some s k Hwf) as (c' & Hc' & Hwf'). unfold shard in Hc'. congruence.
Qed.

#[global] Instance storeImpl_sweep_laws : SweepLaws (storeImpl V) V.
Proof.
  split; [intros now [c|s]|intros now t k v [c|s]].
  - apply (st_Sweep_wf (S := lruCache V) (V := V)).
  - apply (st_Sweep_wf (S := shardedLRU V) (V := V)).
  - apply (st_Sweep_lookup (S := lruCache V)).
  - apply (st_Sweep_lookup (S := shardedLRU V)).
Qed.
End sweep.

(** ** Seen by the cache *)

Section cache.
Context {S : Type} `{StoreLaws S ByteView} `{!StoreSweep S, !SweepLaws S ByteView}.

Definition cacheSweep (now : Z) (c : option (Cache S)) : option (Cache S) :=
  c ← c; Some (with_store (st_Sweep now (store c)) c).

Lemma cacheSweep_wf now (c : option (Cache S)) : cache_wf c → cache_wf (cacheSweep now c).
Proof. destruct c as [c|]; [|done]. intros Hwf. exact (st_Sweep_wf now (store c) Hwf). Qed.
Lemma cacheSweep_lookup now t k v (c : option (Cache S)) :
  cache_wf c → cache_lookup t k (cacheSweep now c) = Some v → cache_lookup t k c = Some v.
Proof. destruct c as [c|]; [|done]. cbn. intros Hwf. case_match; [done|]. exact (st_Sweep_lookup now t k v (store c) Hwf). Qed.
End cache.
