(* ===== verification/Live.v ===== *)
(** * A node at work (group.go, cache.go, store/)

    Any number of goroutines run methods of one group, as in [Concurrent], and
    the caches, the counters, the clock and the picker they use are the real
    ones: an event has the effect and the answer it has on the node.  Free are
    only the answers of the source, of other nodes and of the [select] of
    [waitForTopologyRetry].

    Between any two events of goroutines the rest of the process and the world
    may act ([outside]): time passes, the picker follows the directory, the
    cleanup goroutines of the stores tick, the group is cleared or closed, one
    step at a time. *)

From S2P Require Import Prelude Store ByteView Errors Cache CacheFacts Peers Singleflight Prog Interleave Group Rpc Node Concurrent Sweep.

Record live (S : Type) := mkLive {
  lv_node : node S;                              (* group, caches and picker *)
  lv_now : Z;                                    (* the clock *)
  lv_locks : gmap nat nat;                       (* as in [shared] *)
  lv_owner : option nat;
  lv_done : gmap nat (outcome (error + ByteView))
}.
Arguments mkLive {S}.
Arguments lv_node {S}.
Arguments lv_now {S}.
Arguments lv_locks {S}.
Arguments lv_owner {S}.
Arguments lv_done {S}.

Section live.
Context {S : Type} `{Store S ByteView} `{!StoreSweep S}.
Context (tick : Z → Z).
Implicit Types (lv : live S).

Definition lv_shared lv : shared S := mkShared (nd_group (lv_node lv)) (lv_locks lv) (lv_owner lv) (lv_done lv).
Definition with_shared (s : shared S) lv : live S :=
  mkLive (on_group (λ _, sh_group s) (lv_node lv)) (lv_now lv) (sh_locks s) (sh_owner s) (sh_done s).
Definition with_node (w : node S * Z) lv : live S := mkLive w.1 w.2 (lv_locks lv) (lv_owner lv) (lv_done lv).

(** The events that synchronise goroutines, whose effect is that of [Concurrent]. *)
Definition synchronises (e : ev) : bool :=
  match e with
  | EvAcquire _ | EvRelease _ _ | EvLock _ | EvUnlock _ | EvGen _ | EvIncGen _ | EvOwnerLock | EvOwnerUnlock | EvOwnerGet
  | EvOwnerPut _ | EvFlight _ | EvFlightWait _ | EvFlightEnd _ _ _ => true
  | _ => false
  end.
(** The events that are answered elsewhere. *)
Definition abroad (e : ev) : bool :=
  match e with
  | EvGetter _ | EvInvalidate _ _ _ | EvPeerGet _ _ _ | EvPeerSet _ _ _ _ | EvPeerDelete _ _ _ | EvSelect _ => true
  | _ => false
  end.

Definition liveEffect (t : nat) (e : ev) lv : option (live S * option (ans e)) :=
  if synchronises e then
    match effect t e (lv_shared lv) with Some (s, x) => Some (with_shared s lv, x) | None => None end
  else if abroad e then Some (lv, None)
  else let r := handleNode tick e (lv_node lv, lv_now lv) in Some (with_node r.1 lv, Some r.2).

(** ** The rest of the process and the world *)

Inductive outside :=
| Elapse (d : Z)                            (* time passes *)
| Membership (p : ClientPicker)             (* the picker after it has followed the directory *)
| CloseFlag                                 (* Close: closed is set ... *)
| CloseCache (near : bool)                  (* ... and each cache is closed *)
| ClearCache (near : bool)                  (* Clear, for each cache *)
| SweepCache (near : bool).                 (* a tick of a store's cleanup goroutine *)

Definition setClosed (g : Node.Group S) : Node.Group S :=
  mkGroup true (mainCache g) (nearCache g) (ownerEpoch g) (keyStates g) (ksHeap g) (ksNext g) (loader g) (loaderNext g) (stats g).
Definition onCache (near : bool) (f : option (Cache S) → option (Cache S)) (g : Node.Group S) : Node.Group S :=
  if near then with_near (f (nearCache g)) g else with_main (f (mainCache g)) g.

Definition outsideEffect (o : outside) lv : live S :=
  let nd := lv_node lv in
  let upd f := with_node (on_group f nd, lv_now lv) lv in
  match o with
  | Elapse d => with_node (nd, Z.max (lv_now lv) (lv_now lv + d)) lv
  | Membership p => with_node (mkNode (nd_cfg nd) (nd_group nd) p (nd_source nd), lv_now lv) lv
  | CloseFlag => upd setClosed
  | CloseCache near => upd (onCache near Cache.Close)
  | ClearCache near => upd (onCache near Cache.Clear)
  | SweepCache near => upd (onCache near (cacheSweep (lv_now lv)))
  end.

(** ** Runs *)

Notation lsystem := (system ans (live S)).
Notation trace := (list (nat * act (ans := ans))).

Definition act_outside (o : outside) (c : lsystem) : lsystem := mkSystem (outsideEffect o (sy_shared c)) (sy_pool c).

Inductive liveRun (c : lsystem) : trace → lsystem → Prop :=
| liveRun_nil : liveRun c [] c
| liveRun_event tr c1 a c2 : liveRun c tr c1 → sysStep liveEffect c1 a c2 → liveRun c (tr ++ [a]) c2
| liveRun_outside tr c1 o : liveRun c tr c1 → liveRun c tr (act_outside o c1).

(** The start: no call is under way, goroutine [t] is about to run [ops !! t]. *)
Definition freshLive (nd : node S) (now : Z) : live S :=
  mkLive (on_group (λ g, with_loader ∅ 0 (with_keys ∅ ∅ 0 g)) nd) now ∅ None ∅.
Definition liveStart (nd : node S) (now : Z) (ops : gmap nat operation) : lsystem :=
  mkSystem (freshLive nd now) (program (nd_cfg nd) <$> ops).

(** Run a schedule of goroutines and outside actions. *)
Fixpoint liveExecute (choose : nat → ∀ e, ans e) (sched : list (nat + outside)) (c : lsystem) : option (trace * lsystem) :=
  match sched with
  | [] => Some ([], c)
  | inl t :: sched =>
      match stepOnce liveEffect choose t c with
      | Some (a, c1) =>
          match liveExecute choose sched c1 with Some (tr, c2) => Some ((t, a) :: tr, c2) | None => None end
      | None => None
      end
  | inr o :: sched => liveExecute choose sched (act_outside o c)
  end.

Lemma liveRun_trans c tr1 c1 tr2 c2 : liveRun c tr1 c1 → liveRun c1 tr2 c2 → liveRun c (tr1 ++ tr2) c2.
Proof.
  intros H1 H2. induction H2 as [|tr2 c2 a c3 _ IH Hs|tr2 c2 o _ IH]; [by rewrite app_nil_r| |by constructor].
  rewrite app_assoc. by eapply liveRun_event.
Qed.
Lemma liveExecute_run choose sched c tr c' : liveExecute choose sched c = Some (tr, c') → liveRun c tr c'.
Proof.
  revert c tr. induction sched as [|[t|o] sched IH]; intros c tr; cbn [liveExecute]; [intros [= <- <-]; constructor| |].
  - destruct (stepOnce liveEffect choose t c) as [[a c1]|] eqn:Hs; [|done].
    destruct (liveExecute choose sched c1) as [[tr' c2]|] eqn:He; [|done]. intros [= <- <-].
    apply (liveRun_trans _ [(t, a)] c1); [|by apply IH]. apply (liveRun_event _ [] c); [constructor|by eapply stepOnce_step].
  - intros Hr%IH. apply (liveRun_trans _ [] (act_outside o c)); [|done]. apply liveRun_outside. constructor.
Qed.
Definition liveOutcome (choose : nat → ∀ e, ans e) (sched : list (nat + outside)) c : trace * lsystem :=
  default ([], c) (liveExecute choose sched c).
Lemma liveOutcome_run choose sched c :
  bool_decide (is_Some (liveExecute choose sched c)) = true →
  liveRun c (liveOutcome choose sched c).1 (liveOutcome choose sched c).2.
Proof. intros [[tr c'] He]%bool_decide_eq_true. unfold liveOutcome. rewrite He. by eapply liveExecute_run. Qed.
End live.
