(* ===== verification/Watch.v ===== *)
(** * What a goroutine has seen

    A second discipline of the operations of a group, beside [Discipline]: the
    outcome with which a goroutine ends the call it leads is an error or a value
    that it found in the owner cache or loaded since it began the call; and the
    deadline with which it writes to the owner cache, if the group has an
    expiration, is that added to a clock reading taken since it locked the key
    state.  For the calls
    in flight this gives the origin of a value that a joined call returns. *)

From S2P Require Import Prelude Store ByteView Errors Cache Peers Singleflight Prog Interleave Group Rpc GroupFacts Node Concurrent Discipline SyncFacts ConcurrentFacts.
#[local] Open Scope prog_scope.

(** The call the goroutine leads, with the values seen since, and its last clock
    reading. *)
Record watch := mkWatch { w_call : option (string * nat * list (list Z)); w_stamp : option Z }.

#[export] Instance watch_eq_dec : EqDecision watch.
Proof. solve_decision. Defined.

Definition atRest : watch := mkWatch None None.

Definition noStamp (w : watch) : watch := mkWatch (w_call w) None.
Definition saw (key : string) (bs : option (list Z)) (w : watch) : watch :=
  match w_call w, bs with
  | Some (k, c, l), Some bs => if decide (k = key) then mkWatch (Some (k, c, bs :: l)) (w_stamp w) else w
  | _, _ => w
  end.
Definition loadedBytes (r : loaded) : option (list Z) := match r with LoadOk bs => Some bs | _ => None end.
Definition returnedBytes (o : outcome (error + ByteView)) : option (list Z) :=
  match o with Done_ (inr v) => Some (b v) | _ => None end.

(** What is returned, if it is a value, has been seen. *)
Definition among (bs : option (list Z)) (l : list (list Z)) : bool :=
  match bs with Some x => bool_decide (x ∈ l) | None => true end.

(** [expiry]: the expiration of the group. *)
Definition observe (expiry : Z) (e : ev) (x : ans e) (w : watch) : option watch :=
  match e return ans e → option watch with
  | EvFlight key => λ f,
      match w_call w, f with
      | None, Lead c => Some (mkWatch (Some (key, c, [])) (w_stamp w))
      | None, Join _ => Some w
      | Some _, _ => None
      end
  | EvMainGet key => λ r, Some (saw key (b <$> r) w)
  | EvGetter key => λ r, Some (saw key (loadedBytes r) w)
  | EvFlightEnd key c o => λ _,
      match w_call w with
      | Some (k, c', l) =>
          if decide (k = key ∧ c' = c ∧ among (returnedBytes o) l = true) then Some (mkWatch None (w_stamp w)) else None
      | None => None
      end
  | EvNow => λ n, Some (mkWatch (w_call w) (Some n))
  | EvMainAddExp _ _ at_ => λ _,
      match w_stamp w with
      | Some n => if decide (0 < expiry ∧ at_ = time_Add n expiry) then Some (noStamp w) else None
      | None => None
      end
  | EvMainAdd _ _ => λ _, if decide (expiry ≤ 0) then Some w else None
  | EvLock _ => λ _, Some (noStamp w)
  | EvRelease _ _ => λ _, Some (noStamp w)
  | EvNearAddExp _ _ _ => λ _, Some (noStamp w)
  | _ => λ _, Some w
  end x.

(** ** Every operation keeps it *)

Section programs.
Context (g : config).
Notation wobeys := (obeys (observe (expiration g))).

(** Events that leave a goroutine at rest. *)
Definition calm (e : ev) : Prop :=
  match e with EvFlight _ | EvFlightEnd _ _ _ | EvNow | EvMainAdd _ _ | EvMainAddExp _ _ _ => False | _ => True end.

Definition rests {A} (p : gprog A) : Prop := wobeys atRest p (λ w _, w = atRest).

Lemma rests_calm {A} (p : gprog A) : every calm p → rests p.
Proof.
  unfold rests. intros Hp. induction p as [a|v|e k IH]; simpl; [done|done|]. destruct Hp as [He Hk]. intros x.
  assert (observe (expiration g) e x atRest = Some atRest) as -> by (by destruct e). by apply IH.
Qed.
Lemma rests_bind {A B} (p : gprog A) (f : A → gprog B) : rests p → (∀ a, rests (f a)) → rests (bind p f).
Proof. intros Hp Hf. apply obeys_bind. eapply obeys_mono; [exact Hp|]. intros w [a|v] ->; [apply Hf|done]. Qed.
Lemma rests_finally {A} (p : gprog A) q : rests p → rests q → rests (finally p q).
Proof. intros Hp Hq. apply obeys_finally. eapply obeys_mono; [exact Hp|]. intros w r ->. eapply obeys_mono; [exact Hq|done]. Qed.
Lemma rests_ret {A} (a : A) : rests (Ret a).
Proof. done. Qed.
Lemma rests_panic {A} v : rests (Panic v : gprog A).
Proof. done. Qed.
Lemma rests_event e : calm e → rests (do e).
Proof. intros He. by apply rests_calm. Qed.

Lemma waitLoop_calm n e : every calm (waitLoop n e).
Proof. induction n as [|n IH]; cbn [waitLoop]; every_tac. Qed.
Lemma waitRetry_calm n e : every calm (waitForTopologyRetry g n e).
Proof. unfold waitForTopologyRetry. case_match; [done|]. apply waitLoop_calm. Qed.
Lemma prepareLocalOwner_calm key : every calm (prepareLocalOwner g key).
Proof. unfold prepareLocalOwner. every_tac. Qed.
Lemma invalidateNearKey_calm key : every calm (invalidateNearKey g key).
Proof. unfold invalidateNearKey. every_tac. Qed.
Hint Resolve waitRetry_calm prepareLocalOwner_calm invalidateNearKey_calm : locache.
Lemma invalidateLocalCopies_calm key : every calm (invalidateLocalCopies g key).
Proof. unfold invalidateLocalCopies. every_tac; auto with locache. Qed.
Lemma invalidatePeerCopies_calm key o : every calm (invalidatePeerCopies g key o).
Proof. unfold invalidatePeerCopies. every_tac. Qed.
Lemma deleteLocal_calm key : every calm (deleteLocal g key).
Proof. unfold deleteLocal. every_tac; auto with locache. Qed.
Hint Resolve deleteLocal_calm : locache.
Lemma deleteOwnerLocal_calm key : every calm (deleteOwnerLocal g key).
Proof. unfold deleteOwnerLocal. every_tac; auto with locache. Qed.
Lemma confirm_calm last key r : every calm (confirm last key r).
Proof. unfold confirm. every_tac. Qed.
Lemma refused_calm last n r : every calm (refused g last n r).
Proof. unfold refused. every_tac; auto with locache. Qed.
Lemma nearLookup_calm key r : every calm (nearLookup g key r).
Proof. unfold nearLookup. every_tac. Qed.
Hint Resolve invalidateLocalCopies_calm invalidatePeerCopies_calm deleteOwnerLocal_calm confirm_calm refused_calm nearLookup_calm : locache.

(** Walk over the next event, computing what is seen. *)
Tactic Notation "wstep" ident(x) := apply obeys_bind; cbn [obeys event]; intros x; cbn [observe].
Tactic Notation "wstep" := apply obeys_bind; cbn [obeys event]; intros ?; cbn [observe].

Lemma addOwnerValue_watch w key v :
  wobeys w (addOwnerValue g key v) (λ w' r, r = Val tt ∧ w_call w' = w_call w ∧ (w_stamp w = None → w' = w)).
Proof.
  unfold addOwnerValue. destruct (0 <? expiration g) eqn:Hexp.
  - wstep n. intros []. cbn [obeys observe w_stamp]. apply Z.ltb_lt in Hexp. rewrite decide_True by done.
    cbn [noStamp w_call]. split_and!; [done|done|]. destruct w as [c s]. cbn. by intros ->.
  - cbn [obeys event observe]. apply Z.ltb_ge in Hexp. rewrite decide_True by done. by intros [].
Qed.
Lemma addOwnerValue_rests key v : rests (addOwnerValue g key v).
Proof. eapply obeys_mono; [apply addOwnerValue_watch|]. intros w r (_ & _ & Hw). by apply Hw. Qed.
Lemma nearAdd_rests nk v : rests (now <- do EvNow ;; do (EvNearAddExp nk v (time_Add now (nearTTL g)))).
Proof. unfold rests. wstep n. by intros []. Qed.

(** The values seen by the leader of a call, and what it returns. *)
Definition leads (key : string) (c : nat) (bs : option (list Z)) (w : watch) : Prop :=
  ∃ l, w_call w = Some (key, c, l) ∧ among bs l = true.

Lemma leads_other key c bs w w' : w_call w' = w_call w → leads key c bs w → leads key c bs w'.
Proof. intros Heq (l & Hw & Hl). exists l. by rewrite Heq. Qed.
Lemma leads_saw key c bs bs' w : leads key c bs w → leads key c (if bs' is Some _ then bs' else bs) (saw key bs' w).
Proof.
  intros (l & Hw & Hl). unfold leads, saw. rewrite Hw. destruct bs' as [x|]; [|by eauto]. rewrite decide_True by done.
  exists (x :: l). split; [done|]. apply bool_decide_eq_true. by left.
Qed.
Lemma leads_weaken key c bs w : leads key c bs w → leads key c None w.
Proof. intros (l & Hw & _). by exists l. Qed.

Definition resultBytes (r : result (error + ByteView)) : option (list Z) := match r with Val (inr v) => Some (b v) | _ => None end.

Lemma finally_unlock_watch {A} w (p : gprog A) st Q :
  wobeys w p Q → wobeys w (finally p (do (EvUnlock st))) Q.
Proof. intros Hp. apply obeys_finally. eapply obeys_mono; [exact Hp|]. intros w' r HQ. cbn [obeys event]. by intros []. Qed.

Lemma loadOwner_watch key epoch st c w :
  leads key c None w → wobeys w (loadOwner g key epoch st) (λ w' r, leads key c (resultBytes r) w').
Proof.
  intros Hw. unfold loadOwner. wstep. wstep cached.
  apply (leads_other _ _ _ _ (noStamp w)) in Hw; [|done]. apply (leads_saw _ _ _ (b <$> cached)) in Hw.
  set (w1 := saw key (b <$> cached) (noStamp w)) in *. clearbody w1. destruct cached as [view|].
  { wstep. exact Hw. }
  wstep gen. wstep. wstep start. wstep. wstep ld. apply (leads_other _ _ _ _ (mkWatch (w_call w1) (Some start))) in Hw; [|done].
  apply (leads_saw _ _ _ (loadedBytes ld)) in Hw. set (w2 := saw key (loadedBytes ld) _) in *. clearbody w2.
  destruct ld as [bytes|err|v]; [..|by apply leads_weaken in Hw].
  2:{ wstep now. wstep. wstep. by eapply leads_other. }
  wstep now. wstep. apply obeys_bind. apply (leads_other _ _ _ _ (mkWatch (w_call w2) (Some now))) in Hw; [|done].
  set (w3 := mkWatch (w_call w2) (Some now)) in *. clearbody w3.
  eapply (obeys_mono _ _ _ (λ w' r, w' = w3 ∧ ∃ a, r = Val a)).
  { destruct (hasPeers g); [wstep|]; cbn [obeys]; eauto. }
  intros w' r [-> [moved ->]]. destruct moved; [cbn [obeys]; by apply leads_weaken in Hw|].
  wstep. apply finally_unlock_watch. wstep gen'. apply (leads_other _ _ _ _ (noStamp w3)) in Hw; [|done]. case_decide.
  - wstep view. apply (leads_saw _ _ _ (b <$> view)) in Hw. destruct view as [view|]; cbn [obeys]; [exact Hw|by apply leads_weaken in Hw].
  - apply obeys_bind. eapply obeys_mono; [apply addOwnerValue_watch|]. intros w' r (-> & Hc & _). cbn [obeys resultBytes b].
    rewrite cloneBytes_id. by eapply leads_other.
Qed.

Lemma flightDo_watch key epoch st w :
  w_call w = None → wobeys w (flightDo key (loadOwner g key epoch st)) (λ w' _, w_call w' = None).
Proof.
  intros Hw. unfold flightDo. wstep f. rewrite Hw. destruct f as [c|c]; [|wstep o; by destruct o].
  apply obeys_bind, obeys_catch. eapply obeys_mono; [apply (loadOwner_watch key epoch st c); by exists []|].
  intros w' r (l & Hl & Hr). wstep. rewrite Hl, decide_True by (split_and!; [done|done|]; by destruct r as [[]|]).
  by destruct r as [[]|].
Qed.

Lemma getLocal_rests key : rests (getLocal g key).
Proof.
  unfold getLocal. apply rests_bind; [by apply rests_event|]. intros cl. case_match; [done|].
  apply rests_bind; [apply rests_calm, prepareLocalOwner_calm|]. intros [err|epoch]; [done|]. unfold rests. wstep st.
  apply obeys_finally. eapply (obeys_mono _ _ _ (λ w _, w_call w = None)); [|intros [c s] r; cbn; by intros ->].
  wstep hit. destruct hit as [view|]; [wstep; done|]. wstep. case_match; [done|].
  apply obeys_bind. eapply obeys_mono; [by apply flightDo_watch|]. intros w [r|v] Hw; [|done].
  destruct r as [err|view]; [case_match|]; done.
Qed.
Hint Resolve addOwnerValue_rests getLocal_rests nearAdd_rests : locache.

(** Walk a program at rest. *)
Ltac rest_tac := repeat match goal with
  | |- ∀ _, _ => intros ?
  | |- rests (Ret _) => apply rests_ret
  | |- rests (Panic _) => apply rests_panic
  | |- rests (bind (event EvNow) _) => apply nearAdd_rests
  | |- rests (bind _ _) => apply rests_bind
  | |- rests (finally _ _) => apply rests_finally
  | |- rests (event _) => by apply rests_event
  | |- rests (match _ with _ => _ end) => case_match
  | |- rests (if _ then _ else _) => case_match
  | |- rests _ => solve [auto with locache | apply rests_calm; auto with locache]
  end.

Lemma setLocal_rests key value : rests (setLocal g key value).
Proof. unfold setLocal. rest_tac. Qed.
Hint Resolve setLocal_rests : locache.
Lemma getTurn_rests last n key : rests (getTurn g last n key).
Proof. unfold getTurn, peerGet, nilPeer. rest_tac. Qed.
Lemma setTurn_rests last n key v : rests (setTurn g last n key v).
Proof. unfold setTurn, peerSet, nilPeer. rest_tac. Qed.
Lemma deleteTurn_rests last n key : rests (deleteTurn g last n key).
Proof. unfold deleteTurn, peerDelete, nilPeer. rest_tac. Qed.
Hint Resolve getTurn_rests setTurn_rests deleteTurn_rests : locache.
Lemma getLoop_rests n ticks key : rests (getLoop g n ticks key).
Proof. induction n as [|n IH]; cbn [getLoop]; rest_tac. Qed.
Lemma turnLoop_rests n body ticks o : (∀ last t, rests (body last t)) → rests (turnLoop n body ticks o).
Proof. intros Hb. revert o. induction n as [|n IH]; intros o; cbn [turnLoop]; rest_tac. Qed.
Hint Resolve getLoop_rests turnLoop_rests : locache.

Lemma program_rests o : rests (program g o).
Proof. destruct o; cbn [program Server_Get Server_Set Server_Delete]; unfold Group.Get, Set_, Group.Delete; rest_tac. Qed.
End programs.

(** ** Where the value of a joined call comes from *)

(** The owner cache answered with a value. *)
Definition hitOf (a : act (ans := ans)) : option (string * list Z) :=
  match a with existT e x =>
    match e return ans e → option (string * list Z) with
    | EvMainGet key => λ r, match r with Some v => Some (key, b v) | None => None end
    | _ => λ _, None
    end x end.
(** A goroutine gets to know the value of a key. *)
Definition gives (a : act (ans := ans)) (key : string) (bs : list Z) : Prop :=
  hitOf a = Some (key, bs) ∨ loadOf a = Some (key, bs).

Notation begins key c := (did (ans := ans) (EvFlight key) (Lead c)).

(** Call [c] was begun for some key, and its leader then got to know [bs]. *)
Definition ledTo (tr : trace) (c : nat) (bs : list Z) : Prop :=
  ∃ u key tr1 tr2 a, tr = tr1 ++ (u, begins key c) :: tr2 ∧ (u, a) ∈ tr2 ∧ gives a key bs.

Lemma ledTo_snoc tr ta c bs : ledTo tr c bs → ledTo (tr ++ [ta]) c bs.
Proof.
  intros (u & key & tr1 & tr2 & a & -> & Ha & Hg). exists u, key, tr1, (tr2 ++ [ta]), a. rewrite <-app_assoc.
  split_and!; [done|set_solver|done].
Qed.

Section flights.
Context {S : Type}.
Implicit Types (tr : trace) (sh : shared S) (W : gmap nat watch).

Record flightTrace tr sh W : Prop := {
  ft_next : ∀ u key c, (u, begins key c) ∈ tr → (c < loaderNext (sh_group sh))%nat;
  ft_key : ∀ u key c u' key', (u, begins key c) ∈ tr → (u', begins key' c) ∈ tr → key = key';
  ft_loader : ∀ key c, loader (sh_group sh) !! key = Some c → ∃ u, (u, begins key c) ∈ tr;
  ft_join : ∀ t key c, (t, did (ans := ans) (EvFlight key) (Join c)) ∈ tr → ∃ u, (u, begins key c) ∈ tr;
  ft_seen : ∀ u w key c l, W !! u = Some w → w_call w = Some (key, c, l) →
    ∃ tr1 tr2, tr = tr1 ++ (u, begins key c) :: tr2 ∧ ∀ bs, bs ∈ l → ∃ a, (u, a) ∈ tr2 ∧ gives a key bs;
  ft_done : ∀ c v, sh_done sh !! c = Some (Done_ (inr v)) → ledTo tr c (b v);
  ft_wait : ∀ t c v, (t, did (ans := ans) (EvFlightWait c) (Done_ (inr v))) ∈ tr → ledTo tr c (b v)
}.

(** A goroutine other than a leader or a joiner. *)
Definition flightEv (e : ev) : bool :=
  match e with EvFlight _ | EvFlightWait _ | EvFlightEnd _ _ _ => true | _ => false end.

(** How the watch of a goroutine changes by an event that is none of the call's. *)
Lemma observe_call expiry e x w w' key c l :
  flightEv e = false → observe expiry e x w = Some w' → w_call w' = Some (key, c, l) →
  ∃ l0, w_call w = Some (key, c, l0) ∧ ∀ bs, bs ∈ l → bs ∈ l0 ∨ gives (did e x) key bs.
Proof.
  intros Hf Ho Hc.
  assert (∀ k bs, w' = saw k bs w → (∀ y, bs = Some y → gives (did e x) k y) →
    ∃ l0, w_call w = Some (key, c, l0) ∧ ∀ bs, bs ∈ l → bs ∈ l0 ∨ gives (did e x) key bs) as Hsaw.
  { intros k bs -> Hg. unfold saw in Hc. destruct (w_call w) as [[[k' c'] l']|] eqn:Hw; [|congruence].
    destruct bs as [y|]; [|rewrite Hw in Hc; injection Hc as -> -> ->; by eauto].
    case_decide as Hk; [|rewrite Hw in Hc; injection Hc as -> -> ->; by eauto]. injection Hc as -> -> <-. subst k.
    exists l'. split; [done|]. intros z [->|Hz]%elem_of_cons; [right; by apply Hg|by left]. }
  destruct e; try done; cbn [observe] in Ho;
    try (injection Ho as <-; first [exists l; by eauto|cbn in Hc; exists l; by eauto]).
  - injection Ho as <-. eapply Hsaw; [done|]. intros y Hy. right. destruct x; [|done..]. by injection Hy as ->.
  - injection Ho as <-. eapply Hsaw; [done|]. intros y Hy. left. destruct x; [|done]. by injection Hy as <-.
  - case_decide; [|done]. injection Ho as <-. exists l. by eauto.
  - destruct (w_stamp w); [|done]. case_decide; [|done]. injection Ho as <-. exists l. by eauto.
Qed.

(** The answer of the first critical section of [Do], and of the wait. *)
Definition flightOf (a : act (ans := ans)) : option (string * flight) :=
  match a with existT e x =>
    match e return ans e → option (string * flight) with EvFlight key => λ f, Some (key, f) | _ => λ _, None end x end.
Definition waitOf (a : act (ans := ans)) : option (nat * outcome (error + ByteView)) :=
  match a with existT e x =>
    match e return ans e → option (nat * outcome (error + ByteView)) with EvFlightWait c => λ o, Some (c, o) | _ => λ _, None end x end.

Lemma flight_snoc tr t a u key (f : flight) :
  (u, did (ans := ans) (EvFlight key) f) ∈ tr ++ [(t, a)] →
  (u, did (ans := ans) (EvFlight key) f) ∈ tr ∨ u = t ∧ flightOf a = Some (key, f).
Proof. intros [Hin|Hin]%elem_of_app; [by left|right]. apply list_elem_of_singleton in Hin. injection Hin as -> <-. done. Qed.
Lemma wait_snoc tr t a u c o :
  (u, did (ans := ans) (EvFlightWait c) o) ∈ tr ++ [(t, a)] →
  (u, did (ans := ans) (EvFlightWait c) o) ∈ tr ∨ waitOf a = Some (c, o).
Proof. intros [Hin|Hin]%elem_of_app; [by left|right]. apply list_elem_of_singleton in Hin. injection Hin as _ <-. done. Qed.

(** The calls under way after one more event; [seen] is what the event shows to
    the goroutine that leads. *)
Lemma seen_snoc tr t a u key c (l l0 : list (list Z)) :
  (∃ tr1 tr2, tr = tr1 ++ (u, begins key c) :: tr2 ∧ ∀ bs, bs ∈ l0 → ∃ a, (u, a) ∈ tr2 ∧ gives a key bs) →
  (∀ bs, bs ∈ l → bs ∈ l0 ∨ u = t ∧ gives a key bs) →
  ∃ tr1 tr2, tr ++ [(t, a)] = tr1 ++ (u, begins key c) :: tr2 ∧ ∀ bs, bs ∈ l → ∃ a, (u, a) ∈ tr2 ∧ gives a key bs.
Proof.
  intros (tr1 & tr2 & -> & Hall) Hl. exists tr1, (tr2 ++ [(t, a)]). rewrite <-app_assoc. split; [done|].
  intros bs Hbs. destruct (Hl bs Hbs) as [Hin|[-> Hg]]; [|exists a; set_solver].
  destruct (Hall bs Hin) as (a' & Ha & Hg). exists a'. set_solver.
Qed.

(** A step that does not begin a call. *)
Lemma flightTrace_step tr sh sh' W W' t a :
  flightTrace tr sh W → (∀ key c, flightOf a ≠ Some (key, Lead c)) →
  loaderNext (sh_group sh') = loaderNext (sh_group sh) →
  (∀ key c, loader (sh_group sh') !! key = Some c → loader (sh_group sh) !! key = Some c) →
  (∀ key c, flightOf a = Some (key, Join c) → loader (sh_group sh) !! key = Some c) →
  (∀ u w' key c l, W' !! u = Some w' → w_call w' = Some (key, c, l) →
     ∃ w l0, W !! u = Some w ∧ w_call w = Some (key, c, l0) ∧ ∀ bs, bs ∈ l → bs ∈ l0 ∨ u = t ∧ gives a key bs) →
  (∀ c v, sh_done sh' !! c = Some (Done_ (inr v)) → sh_done sh !! c = Some (Done_ (inr v)) ∨ ledTo tr c (b v)) →
  (∀ c v, waitOf a = Some (c, Done_ (inr v)) → sh_done sh !! c = Some (Done_ (inr v))) →
  flightTrace (tr ++ [(t, a)]) sh' W'.
Proof.
  intros [F1 F2 F3 F4 F5 F6 F7] Hno Hn Hl Hj Hw Hd Hwait.
  assert (∀ u key c, (u, begins key c) ∈ tr ++ [(t, a)] → (u, begins key c) ∈ tr) as Hold.
  { intros u key c [Hin|[_ Hf]]%flight_snoc; [done|]. by apply Hno in Hf. }
  assert (∀ u key c, (u, begins key c) ∈ tr → (u, begins key c) ∈ tr ++ [(t, a)]) as Hnew by set_solver.
  split.
  - intros u k c Hin%Hold. rewrite Hn. by eapply F1.
  - intros u k c u' k' Hin%Hold Hin'%Hold. by eapply F2.
  - intros k c Hk%Hl. destruct (F3 _ _ Hk) as [u ?]. eauto.
  - intros u k c [Hin|[_ Hf%Hj]]%flight_snoc; [destruct (F4 _ _ _ Hin) as [u' ?]|destruct (F3 _ _ Hf) as [u' ?]]; eauto.
  - intros u w' k c l Hu Hc. destruct (Hw _ _ _ _ _ Hu Hc) as (w & l0 & Hu0 & Hc0 & Hl0). eapply seen_snoc; [by eapply F5|done].
  - intros c v [Hc|Hc]%Hd; apply ledTo_snoc; [by apply F6|done].
  - intros u c v [Hin|Hc%Hwait]%wait_snoc; apply ledTo_snoc; [by eapply F7|by apply F6].
Qed.

Lemma flightTrace_lead tr sh W t key w :
  let c := loaderNext (sh_group sh) in
  flightTrace tr sh W →
  flightTrace (tr ++ [(t, begins key c)]) (on_shared (with_loader (<[key := c]> (loader (sh_group sh))) (c + 1)%nat) sh)
    (<[t := mkWatch (Some (key, c, [])) (w_stamp w)]> W).
Proof.
  intros c [F1 F2 F3 F4 F5 F6 F7]. assert (∀ u k c', (u, begins k c') ∈ tr → (u, begins k c') ∈ tr ++ [(t, begins key c)]) as Hnew by set_solver.
  split; cbn [on_shared sh_group sh_done with_loader loader loaderNext].
  - intros u k c' [Hin|[_ [= _ <-]]]%flight_snoc; [apply F1 in Hin|]; lia.
  - intros u k c' u' k' [Hin|[_ Hf]]%flight_snoc [Hin'|[_ Hf']]%flight_snoc; [by eapply F2|..]; try injection Hf as <- <-.
    + injection Hf' as <- <-. apply F1 in Hin. lia.
    + apply F1 in Hin'. lia.
    + by injection Hf' as <-.
  - intros k c' [[<- <-]|[Hne Hk]]%lookup_insert_Some; [exists t; set_solver|]. destruct (F3 _ _ Hk) as [u ?]. eauto.
  - intros u k c' [Hin|[_ ?]]%flight_snoc; [|done]. destruct (F4 _ _ _ Hin) as [u' ?]. eauto.
  - intros u wu k c' l [[<- <-]|[Hne Hu]]%lookup_insert_Some Hc; [|eapply seen_snoc; [by eapply F5|by auto]].
    injection Hc as <- <- <-. exists tr, []. split; [done|]. by intros bs ?%elem_of_nil.
  - intros c' v Hc. by apply ledTo_snoc, F6.
  - intros u c' v [Hin|?]%wait_snoc; [|done]. by eapply ledTo_snoc, F7.
Qed.

Lemma effect_flight t e sh sh' forced :
  flightEv e = false → effect t e sh = Some (sh', forced) →
  loader (sh_group sh') = loader (sh_group sh) ∧ loaderNext (sh_group sh') = loaderNext (sh_group sh) ∧ sh_done sh' = sh_done sh.
Proof.
  intros Hf He. destruct e; try done; effect_in He; unfold acquireKeyState in He; repeat case_match; by simplify_eq.
Qed.

Lemma flightTrace_performs expiry tr sh sh' W t e x w w' :
  performs effect (observe expiry) t e x sh sh' W w w' → flightTrace tr sh W → flightTrace (tr ++ [(t, did e x)]) sh' (<[t := w']> W).
Proof.
  intros ((forced & He & Hx) & Ht & Ho) F. assert (∀ u wu key c l, <[t := w']> W !! u = Some wu → w_call wu = Some (key, c, l) →
    (u = t → ∃ l0, w_call w = Some (key, c, l0) ∧ ∀ bs, bs ∈ l → bs ∈ l0 ∨ gives (did e x) key bs) →
    ∃ w0 l0, W !! u = Some w0 ∧ w_call w0 = Some (key, c, l0) ∧ ∀ bs, bs ∈ l → bs ∈ l0 ∨ u = t ∧ gives (did e x) key bs) as Hsee.
  { intros u wu key c l Hu Hc Hown. apply lookup_insert_Some in Hu as [[<- <-]|[Hne Hu]]; [|exists wu, l; by auto].
    destruct (Hown eq_refl) as (l0 & Hw & Hl0). exists w, l0. split_and!; [done|done|]. intros bs Hbs. destruct (Hl0 bs Hbs); auto. }
  destruct (flightEv e) eqn:Hf.
  2:{ destruct (effect_flight _ _ _ _ _ Hf He) as (Hl & Hn & Hd). apply (flightTrace_step _ sh _ W); try done; try (by destruct e).
      - by rewrite Hl.
      - intros u wu key c l Hu Hc. apply (Hsee u wu key c l Hu Hc). intros ->. rewrite lookup_insert_eq in Hu. injection Hu as <-.
        by eapply observe_call.
      - rewrite Hd. by left. }
  destruct e as [| | | | | | | | | | | | | | | | | | | | | | | | | | | |key|c|key c o|]; try done; effect_in He; cbn [observe] in He, Ho.
  - destruct (w_call w) as [[[]]|] eqn:Hw; [done|]. destruct (loader (sh_group sh) !! key) as [c|] eqn:Hk.
    + injection He as <- <-. rewrite (Hx _ eq_refl) in *. injection Ho as <-. rewrite insert_id by done.
      apply (flightTrace_step _ sh _ W); try done; [by intros k c' [= <- <-]| |by auto].
      intros u wu k c' l Hu Hc. exists wu, l. by auto.
    + injection He as <- <-. rewrite (Hx _ eq_refl) in *. injection Ho as <-. by apply flightTrace_lead.
  - destruct (sh_done sh !! c) as [o|] eqn:Hd; [|done]. injection He as <- <-. rewrite (Hx _ eq_refl) in *. injection Ho as <-.
    rewrite insert_id by done. apply (flightTrace_step _ sh _ W); try done; [|by auto|by intros c' v [= <- ->]].
    intros u wu k c' l Hu Hc. exists wu, l. by auto.
  - destruct (w_call w) as [[[k c'] l]|] eqn:Hw; [|done]. case_decide as Hc; [|done]. destruct Hc as (-> & -> & Hl). injection Ho as <-.
    injection He as <- <-. apply (flightTrace_step _ sh _ W); try done; cbn [sh_group with_loader loader sh_done].
    + intros k c'. case_decide; [|done]. by intros [_ ?]%lookup_delete_Some.
    + intros u wu k c' l' Hu Hc. apply (Hsee u wu k c' l' Hu Hc). intros ->. rewrite lookup_insert_eq in Hu. injection Hu as <-. done.
    + intros c' v [[<- ->]|[_ ?]]%lookup_insert_Some; [right|by left]. cbn in Hl. apply bool_decide_eq_true in Hl.
      destruct (ft_seen _ _ _ F _ _ _ _ _ Ht Hw) as (tr1 & tr2 & Htr & Hall). destruct (Hall _ Hl) as (a & Ha & Hg).
      exists t, key, tr1, tr2, a. done.
Qed.

Lemma flightTrace_run cfg g ops tr (c : gsystem S) :
  grun (start cfg g ops) tr c →
  ∃ W, pooled (observe (expiration cfg)) atRest c W ∧ flightTrace tr (sy_shared c) W.
Proof.
  intros Hrun. induction Hrun as [|tr c1 [t [e x]] c2 Hrun IH Hstep].
  - exists ((λ _, atRest) <$> ops). split; [apply pooled_start; intros o; apply program_rests|]. split; cbn [sy_shared start freshShared].
    1-4,7: intros; try done; by apply elem_of_nil in H.
    + intros u w key c l Hu%start_idle Hc. by subst w.
    + by intros.
  - destruct IH as (W & HP & HF). destruct (pooled_step _ _ _ _ _ _ _ _ HP Hstep) as (w & w' & Hp & HP').
    exists (<[t := w']> W). split; [done|]. by eapply flightTrace_performs.
Qed.
End flights.
