(* ===== verification/LiveFacts.v ===== *)
(** * The owner cache of a node at work

    Every run of a node with its real caches ([Live]) is a run of the
    interleavings of [Concurrent], with the same events and answers, so all that
    is proved there holds of it; and whatever the owner cache answers is what the
    trace says it was last told ([content]), in spite of expiry, eviction, the
    cleanup goroutines and writes that come too late. *)

From S2P Require Import Prelude Store ByteView Errors Lru LruFacts LruSpec Sharded ShardedFacts Cache CacheFacts Peers PeersFacts Singleflight Prog Interleave Group Rpc GroupFacts Node Concurrent Discipline SyncFacts ConcurrentFacts OwnerCache Sweep Live Watch.

(** ** Lookups after a write *)

Section cache.
Context {S : Type} `{StoreLaws S ByteView}.
Implicit Types c : option (Cache S).

Lemma cache_lookup_mono t t' k v c : cache_wf c → t ≤ t' → cache_lookup t' k c = Some v → cache_lookup t k c = Some v.
Proof. destruct c as [c|]; [|done]. cbn. intros Hwf Hle. case_match; [done|]. by apply st_lookup_mono. Qed.

Lemma cache_Add_only now t k k' v w c :
  cache_wf c → now ≤ t → cache_lookup t k' (Add now k v c) = Some w →
  (k' = k ∧ w = v) ∨ (k' ≠ k ∧ cache_lookup t k' c = Some w).
Proof.
  destruct c as [c|]; [|done]. cbn. intros Hwf Hle. destruct (c_closed c) eqn:Hc; cbn; rewrite Hc; [done|].
  destruct (decide (k' = k)) as [->|Hne]; intros Hl; [left; split; [done|by eapply st_Set_only]|]. right. split; [done|].
  destruct (st_Set_other now t k k' v (store c) Hwf) as [Heq|Heq]; congruence.
Qed.

Lemma cache_AddExp_only t1 t2 t3 t k k' v exp w c :
  cache_wf c → t3 ≤ t → cache_lookup t k' (AddWithExpiration t1 t2 t3 k v exp c) = Some w →
  (k' = k ∧ w = v ∧ t < t2 + (exp - t1)) ∨ (k' ≠ k ∧ cache_lookup t k' c = Some w) ∨
  (k' = k ∧ exp ≤ t1 ∧ cache_lookup t k' c = Some w).
Proof.
  destruct c as [c|]; [|done]. cbn. intros Hwf Hle. destruct (c_closed c) eqn:Hc; [cbn; by rewrite Hc|].
  destruct (Z.leb_spec (time_Sub exp t1) 0) as [Httl|Httl]; cbn; rewrite Hc; intros Hl.
  { destruct (decide (k' = k)); [|by auto]. right. right. split_and!; [done| |done]. unfold time_Sub, min_int64, max_int64 in Httl. lia. }
  destruct (decide (k' = k)) as [->|Hne].
  - left. split_and!; [done|by eapply st_SetExp_only|]. destruct (decide (t2 + time_Sub exp t1 ≤ t)) as [Hx|Hx].
    + by rewrite st_SetExp_expired in Hl.
    + unfold time_Sub, min_int64, max_int64 in *. lia.
  - right. left. split; [done|]. destruct (st_SetExp_other t2 t3 t k k' v (time_Sub exp t1) (store c) Hwf) as [Heq|Heq]; congruence.
Qed.
End cache.

(** ** Every run is one of the interleavings *)

Section facts.
Context {S : Type} `{StoreLaws S ByteView} `{!StoreSweep S, !SweepLaws S ByteView}.
Context (tick : Z → Z) (tick_le : ∀ t, t ≤ tick t).
Implicit Types (lv : live S) (tr : trace).
Notation lsystem := (system ans (live S)).
Notation lstep := (sysStep (liveEffect tick)).

(** Forget what the interleavings of [Concurrent] leave open. *)
Definition bare (g : Node.Group S) : Node.Group unit :=
  mkGroup false None None (ownerEpoch g) (keyStates g) (ksHeap g) (ksNext g) (loader g) (loaderNext g) (λ _, 0).
Definition hide lv : shared unit := mkShared (bare (nd_group (lv_node lv))) (lv_locks lv) (lv_owner lv) (lv_done lv).
Definition hidden (c : lsystem) : gsystem unit := mkSystem (hide (sy_shared c)) (sy_pool c).

Lemma acquire_bare key (g : Node.Group S) :
  acquireKeyState key (bare g) = (bare (acquireKeyState key g).1, (acquireKeyState key g).2).
Proof. unfold acquireKeyState. cbn [bare keyStates ksHeap ksNext]. by destruct (keyStates g !! key). Qed.

Lemma live_effect_sim t e lv lv' forced :
  liveEffect tick t e lv = Some (lv', forced) →
  ∃ forced', effect t e (hide lv) = Some (hide lv', forced') ∧ ∀ y, forced' = Some y → forced = Some y.
Proof.
  unfold liveEffect. intros He. destruct e; cbn [synchronises abroad] in He;
    effect_in He; cbn [effect]; unfold flightEnter, flightWait, flightEnd, lockKey, lockOwner;
    cbn [lv_shared sh_group sh_locks sh_owner sh_done hide bare loader loaderNext] in He |- *;
    rewrite ?acquire_bare; repeat case_match; simplify_eq; eexists; (split; [reflexivity|naive_solver]).
Qed.

Lemma live_step_sim (c : lsystem) a c' : lstep c a c' → gstep (hidden c) a (hidden c').
Proof.
  intros [t e k lv' forced x Hp He Hx]. destruct (live_effect_sim _ _ _ _ _ He) as (forced' & He' & Hf).
  refine (sys_step effect (hidden c) t e k _ forced' x Hp He' _). intros y Hy. by apply Hx, Hf.
Qed.
Lemma hide_outside o lv : hide (outsideEffect o lv) = hide lv.
Proof. destruct o as [d|p| |[]|[]|[]]; done. Qed.

Lemma live_run_sim (c : lsystem) tr c' : liveRun tick c tr c' → grun (hidden c) tr (hidden c').
Proof.
  intros Hrun. induction Hrun as [|tr c1 a c2 _ IH Hs|tr c1 o _ IH]; [constructor| |].
  - eapply sysRun_snoc; [exact IH|by apply live_step_sim].
  - assert (hidden (act_outside o c1) = hidden c1) as -> by (unfold hidden; cbn; by rewrite hide_outside). done.
Qed.
Lemma hidden_start nd now ops : hidden (liveStart nd now ops) = start (nd_cfg nd) (bare (nd_group nd)) ops.
Proof. done. Qed.

(** Runs from the back, and at an event. *)
Lemma liveRun_at (c : lsystem) tr1 a tr2 c' :
  liveRun tick c (tr1 ++ a :: tr2) c' → ∃ c1 c2, liveRun tick c tr1 c1 ∧ lstep c1 a c2.
Proof.
  intros Hrun. remember (tr1 ++ a :: tr2) as tr eqn:Htr. revert tr2 Htr.
  induction Hrun as [|tr c1 a' c2 Hrun IH Hs|tr c1 o Hrun IH]; intros tr2 Htr; [by destruct tr1|..|by eapply IH].
  destruct tr2 as [|a2 tr2 _] using rev_ind.
  - apply app_inj_tail in Htr as [-> ->]. by exists c1, c2.
  - rewrite app_comm_cons, app_assoc in Htr. apply app_inj_tail in Htr as [-> _]. by eapply IH.
Qed.

(** ** What the owner cache answers *)

Notation mainOf lv := (mainCache (nd_group (lv_node lv))).

(** What a key can have after a step: what it had, if the step did not touch it,
    or what the step stored, until the deadline. *)
Definition stepLookups (expiry : Z) (a : act (ans := ans)) lv lv' : Prop :=
  ∀ k v t, lv_now lv' ≤ t → cache_lookup t k (mainOf lv') = Some v →
    ((∀ u o, contentStep k o (u, a) = o) ∧ cache_lookup t k (mainOf lv) = Some v) ∨
    (storeOf a = Some (k, v) ∧ (0 < expiry → t < lv_now lv' + expiry)).

(** The deadlines in the owner cache are at most the expiration away; those of a key
    whose state a goroutine has locked lie within the expiration of its clock
    reading. *)
Record cacheInv (expiry : Z) (v0 : string → option ByteView) tr lv (L : gmap nat local) (W : gmap nat watch) : Prop := {
  ca_wf : cache_wf (mainOf lv);
  ca_content : ∀ k v t, lv_now lv ≤ t → cache_lookup t k (mainOf lv) = Some v → content (v0 k) k tr = Some v;
  ca_bound : ∀ k v t, 0 < expiry → lv_now lv ≤ t → cache_lookup t k (mainOf lv) = Some v → t < lv_now lv + expiry;
  ca_stamp : ∀ u l w k s n, 0 < expiry → L !! u = Some l → W !! u = Some w → l_lock l = true → l_ref l = Some (k, s) →
    w_stamp w = Some n → n ≤ lv_now lv ∧ ∀ v t, lv_now lv ≤ t → cache_lookup t k (mainOf lv) = Some v → t < n + expiry
}.

(** An action outside the goroutines only takes entries away. *)
Lemma outside_lookups o lv :
  cache_wf (mainOf lv) → cache_wf (mainOf (outsideEffect o lv)) ∧ lv_now lv ≤ lv_now (outsideEffect o lv) ∧
  ∀ t k v, cache_lookup t k (mainOf (outsideEffect o lv)) = Some v → cache_lookup t k (mainOf lv) = Some v.
Proof.
  intros Hwf. destruct o as [d|p| |[]|[]|[]];
    cbn [outsideEffect with_node on_group lv_node lv_now nd_group onCache with_near with_main setClosed mainCache fst snd]; split_and!; try done; try lia.
  - by apply (cacheStep_wf CClose).
  - intros t k v. unfold Cache.Close. destruct (mainOf lv) as [c|]; [|done]. cbn. destruct (c_closed c) eqn:Hc; cbn; by rewrite ?Hc.
  - by apply (cacheStep_wf CClear).
  - intros t k v. by rewrite cache_Clear_lookup.
  - by apply cacheSweep_wf.
  - intros t k v. by apply cacheSweep_lookup.
Qed.

Lemma cacheInv_outside expiry v0 tr o lv L W : cacheInv expiry v0 tr lv L W → cacheInv expiry v0 tr (outsideEffect o lv) L W.
Proof.
  intros [C1 C2 C3 C4]. destruct (outside_lookups o lv C1) as (Hwf & Hle & Hl). split.
  - done.
  - intros k v t Ht Hv%Hl. apply (C2 k v t); [lia|done].
  - intros k v t He Ht Hv%Hl. pose proof (C3 k v t He ltac:(lia) Hv). lia.
  - intros u l w k s n He Hu Hw Hlk Hr Hn. destruct (C4 _ _ _ _ _ _ He Hu Hw Hlk Hr Hn) as [Hnow Hb]. split; [lia|].
    intros v t Ht Hv%Hl. apply (Hb v t); [lia|done].
Qed.

Definition nowOf (a : act (ans := ans)) : option Z :=
  match a with existT e x => match e return ans e → option Z with EvNow => λ n, Some n | _ => λ _, None end x end.

(** Where the lock and the stamp of a goroutine come from. *)
Lemma obey_locked e x l l' k s :
  obey e x l = Some l' → l_lock l' = true → l_ref l' = Some (k, s) →
  (∃ st, e = EvLock st) ∨ (l_lock l = true ∧ l_ref l = Some (k, s)).
Proof.
  intros Ho Hl Hr. destruct e; cbn [obey] in Ho; try (apply guard_Some in Ho as [_ ->]); try (injection Ho as <-);
    cbn in Hl, Hr; eauto; try done; try (case_match; by auto).
Qed.
Lemma saw_stamp k bs w : w_stamp (saw k bs w) = w_stamp w.
Proof. unfold saw. by repeat case_match. Qed.
Lemma observe_stamp expiry e x w w' n :
  observe expiry e x w = Some w' → w_stamp w' = Some n →
  (∀ st, e ≠ EvLock st) ∧ (∀ k v d, e ≠ EvMainAddExp k v d) ∧ (nowOf (did e x) = Some n ∨ w_stamp w = Some n).
Proof.
  intros Ho Hn. destruct e; cbn [observe] in Ho; repeat case_match; try done; injection Ho as <-; rewrite ?saw_stamp in Hn;
    try done; (split_and!; [done|done|]); first [by right|by left].
Qed.

(** Events that leave the owner cache alone. *)
Definition mainEv (e : ev) : bool :=
  match e with EvMainGet _ | EvMainAdd _ _ | EvMainAddExp _ _ _ | EvMainDelete _ | EvMainClear => true | _ => false end.

Lemma live_main_same t e lv lv' forced :
  mainEv e = false → liveEffect tick t e lv = Some (lv', forced) → mainOf lv' = mainOf lv ∧ lv_now lv ≤ lv_now lv'.
Proof.
  unfold liveEffect. intros Hm He. destruct e; try done; cbn [synchronises abroad] in He;
    effect_in He; cbn [lv_shared sh_group sh_locks sh_owner sh_done loader loaderNext] in He;
    unfold acquireKeyState in He; repeat case_match; simplify_eq;
    cbn [with_shared with_node on_group lv_node lv_now nd_group on_shared sh_group handleNode fst snd with_near with_keys with_loader
      with_ownerEpoch with_locks with_owner addStat releaseKeyState incGen mainCache lv_shared];
    (split; [done|]); pose proof tick_le; eauto using Z.le_trans with lia.
Qed.

Lemma live_lookups expiry v0 tr lv L W t e x lv' forced l l' w w' :
  cacheInv expiry v0 tr lv L W → liveEffect tick t e lv = Some (lv', forced) → L !! t = Some l → W !! t = Some w →
  obey e x l = Some l' → observe expiry e x w = Some w' →
  cache_wf (mainOf lv') ∧ lv_now lv ≤ lv_now lv' ∧ stepLookups expiry (did e x) lv lv'.
Proof.
  intros [C1 C2 C3 C4] He Hl Hw Ho Hob. destruct (mainEv e) eqn:Hm.
  2:{ destruct (live_main_same _ _ _ _ _ Hm He) as [Hsame Hle]. unfold stepLookups. rewrite Hsame. split_and!; [done|done|].
      intros k v t' _ Hv. left. split; [|done]. intros u o. by destruct e. }
  assert (∀ t1, t1 ≤ tick t1) as Htk by apply tick_le.
  unfold liveEffect in He. destruct e; try done; cbn [synchronises abroad handleNode] in He; injection He as <- <-;
    cbn [with_node lv_node lv_now nd_group with_main mainCache fst snd] in *; unfold stepLookups;
    cbn [with_node lv_node lv_now nd_group with_main mainCache fst snd].
  - split_and!; [by apply (cacheStep_wf (CGet _ _))|done|]. intros k v t' Ht'. rewrite cache_Get_frame by done. left. done.
  - split_and!; [by apply (cacheStep_wf (CAdd _ _ _))|done|]. intros k v t' Ht' [[-> ->]|[Hne Hv]]%cache_Add_only; [| |done|done].
    + right. split; [done|]. cbn [observe] in Hob. case_decide; [lia|done].
    + left. split; [|done]. intros u o. unfold contentStep. cbn. by rewrite decide_False.
  - split_and!; [by apply (cacheStep_wf (CAddWithExpiration _ _ _ _ _ _))|by eauto using Z.le_trans|].
    cbn [observe] in Hob. destruct (w_stamp w) as [n|] eqn:Hn; [|done]. case_decide as Hd; [|done]. destruct Hd as [Hexp ->].
    apply guard_Some in Ho as [Hmay _]. unfold mayAdd, refsKey in Hmay. destruct (l_ref l) as [[k0 s]|] eqn:Hr; [|done].
    apply andb_true_iff in Hmay as [[Hk0 Hlk]%andb_true_iff _]. apply bool_decide_eq_true in Hk0 as <-.
    destruct (C4 _ _ _ _ _ _ Hexp Hl Hw Hlk Hr Hn) as [Hnow Hb]. pose proof (Htk (lv_now lv)). pose proof (Htk (tick (lv_now lv))).
    pose proof (Htk (tick (tick (lv_now lv)))). unfold time_Add in *.
    intros k v t' Ht' [(-> & -> & Hlt)|[[Hne Hv]|(-> & Hlate & Hv)]]%cache_AddExp_only; [| | |done|done].
    + right. split; [done|]. lia.
    + left. split; [|done]. intros u o. unfold contentStep. cbn. by rewrite decide_False.
    + apply Hb in Hv; lia.
  - split_and!; [by apply (cacheStep_wf (CDelete _))|done|]. intros k v t' Ht'. rewrite cache_Delete_lookup by done.
    case_decide as Hk; [done|]. intros Hv. left. split; [|done]. intros u o. unfold contentStep. cbn. by rewrite decide_False.
  - split_and!; [by apply (cacheStep_wf CClear)|done|]. intros k v t' Ht'. by rewrite cache_Clear_lookup.
Qed.

(** ** Along a run *)

(** Two goroutines do not hold the mutex of a key at the same time. *)
Lemma lock_exclusive tr (c : gsystem unit) L u1 u2 l1 l2 k s1 s2 :
  inv tr c L → L !! u1 = Some l1 → L !! u2 = Some l2 → l_lock l1 = true → l_lock l2 = true →
  l_ref l1 = Some (k, s1) → l_ref l2 = Some (k, s2) → u1 = u2.
Proof.
  intros [HS _] Hu1 Hu2 Hl1 Hl2 Hr1 Hr2. pose proof (ki_ref _ _ (in_keys _ _ HS) _ _ _ _ Hu1 Hr1) as Hk1.
  pose proof (ki_ref _ _ (in_keys _ _ HS) _ _ _ _ Hu2 Hr2) as Hk2. assert (s2 = s1) as -> by congruence.
  assert (∀ u l, L !! u = Some l → l_lock l = true → l_ref l = Some (k, s1) → sh_locks (sy_shared c) !! s1 = Some u) as Hown.
  { intros u l Hu Hl Hr. apply (in_lock _ _ HS). exists l. split; [done|]. unfold locks, refsTo. rewrite Hr, Hl. by rewrite bool_decide_true. }
  pose proof (Hown _ _ Hu1 Hl1 Hr1). pose proof (Hown _ _ Hu2 Hl2 Hr2). congruence.
Qed.

Lemma store_content k v u a o : storeOf a = Some (k, v) → contentStep k o (u, a) = Some v.
Proof. destruct a as [e x]. unfold storeOf, contentStep. destruct e; cbn; try done; intros [= -> ->]; by rewrite decide_True. Qed.

Lemma stamp_no_store expiry e x w w' n k v :
  0 < expiry → observe expiry e x w = Some w' → w_stamp w' = Some n → storeOf (did e x) ≠ Some (k, v).
Proof.
  intros Hexp Ho Hn Hst. destruct (observe_stamp _ _ _ _ _ _ Ho Hn) as (_ & Hadd & _). destruct e; try done.
  - cbn in Ho. case_decide; [lia|done].
  - by eapply Hadd.
Qed.

Lemma cacheInv_step v0 tr (c c' : lsystem) L W t e x l l' w w' expiry :
  inv tr (hidden c) L → cacheInv expiry v0 tr (sy_shared c) L W →
  performs (liveEffect tick) (observe expiry) t e x (sy_shared c) (sy_shared c') W w w' → L !! t = Some l → obey e x l = Some l' →
  cacheInv expiry v0 (tr ++ [(t, did e x)]) (sy_shared c') (<[t := l']> L) (<[t := w']> W).
Proof.
  intros HI HC ((forced & He & Hx) & Hw & Hob) Hl Ho.
  destruct (live_lookups _ _ _ _ _ _ _ _ _ _ _ _ _ _ _ HC He Hl Hw Ho Hob) as (Hwf & Hle & Hst). destruct HC as [C1 C2 C3 C4]. split.
  - done.
  - intros k v t' Ht' Hv. unfold content. rewrite foldl_app. cbn [foldl].
    destruct (Hst k v t' Ht' Hv) as [[-> Hv0]|[Hsv _]]; [|by apply store_content]. apply (C2 k v t'); [lia|done].
  - intros k v t' Hexp Ht' Hv. destruct (Hst k v t' Ht' Hv) as [[_ Hv0]|[_ Hlt]]; [|by apply Hlt].
    pose proof (C3 k v t' Hexp ltac:(lia) Hv0). lia.
  - intros u lu wu k s n Hexp Hu Hwu Hlk Hr Hn. destruct (decide (u = t)) as [->|Hne].
    + rewrite lookup_insert_eq in Hu. rewrite lookup_insert_eq in Hwu. injection Hu as <-. injection Hwu as <-.
      destruct (observe_stamp _ _ _ _ _ _ Hob Hn) as (Hnl & _ & [Hnow|Hstamp]).
      * assert (n = lv_now (sy_shared c')) as ->.
        { destruct e; try done. injection Hnow as ->. injection He as <- <-. by apply Hx. }
        split; [done|]. intros v t' Ht' Hv. destruct (Hst k v t' Ht' Hv) as [[_ Hv0]|[_ Hlt]]; [|by apply Hlt].
        pose proof (C3 k v t' Hexp ltac:(lia) Hv0). lia.
      * destruct (obey_locked _ _ _ _ _ _ Ho Hlk Hr) as [[st ->]|[Hlk0 Hr0]]; [by destruct (Hnl st)|].
        destruct (C4 _ _ _ _ _ _ Hexp Hl Hw Hlk0 Hr0 Hstamp) as [Hnow Hb]. split; [lia|]. intros v t' Ht' Hv.
        destruct (Hst k v t' Ht' Hv) as [[_ Hv0]|[Hsv _]]; [apply (Hb v t'); [lia|done]|]. by eapply stamp_no_store in Hsv.
    + rewrite lookup_insert_ne in Hu by done. rewrite lookup_insert_ne in Hwu by done. destruct (C4 _ _ _ _ _ _ Hexp Hu Hwu Hlk Hr Hn) as [Hnow Hb]. split; [lia|].
      intros v t' Ht' Hv. destruct (Hst k v t' Ht' Hv) as [[_ Hv0]|[Hsv _]]; [apply (Hb v t'); [lia|done]|].
      assert (mayAdd k v l = true) as Hmay by (destruct e; try done; injection Hsv as -> ->; by apply guard_Some in Ho as [Ho _]).
      unfold mayAdd, refsKey in Hmay. destruct (l_ref l) as [[k0 s0]|] eqn:Hr0; [|done].
      apply andb_true_iff in Hmay as [[Hk0 Hlk0]%andb_true_iff _]. apply bool_decide_eq_true in Hk0 as <-.
      by destruct Hne; eapply lock_exclusive.
Qed.

(** The owner cache is well formed at the start, and what it holds is no further
    from its deadline than the expiration of the group. *)
Definition startOk (nd : node S) (now : Z) : Prop :=
  cache_wf (mainCache (nd_group nd)) ∧
  (0 < expiration (nd_cfg nd) → ∀ k v t, now ≤ t → cache_lookup t k (mainCache (nd_group nd)) = Some v → t < now + expiration (nd_cfg nd)).

(** What a key has at the start. *)
Definition initially (nd : node S) (now : Z) (key : string) : option ByteView := cache_lookup now key (mainCache (nd_group nd)).

Lemma live_inv_run nd now ops tr (c : lsystem) :
  startOk nd now → liveRun tick (liveStart nd now ops) tr c → Z.of_nat (size ops) < 2 ^ 62 → Z.of_nat (length tr) ≤ 2 ^ 64 →
  ∃ L W, inv tr (hidden c) L ∧ size L = size ops ∧ pooled (observe (expiration (nd_cfg nd))) atRest c W ∧
         cacheInv (expiration (nd_cfg nd)) (initially nd now) tr (sy_shared c) L W.
Proof.
  intros [Hwf Hdl] Hrun Hsz. induction Hrun as [|tr c1 [t [e x]] c2 Hrun IH Hstep|tr c1 o Hrun IH]; intros Hlen.
  - destruct (inv_run (nd_cfg nd) (bare (nd_group nd)) ops [] (hidden (liveStart nd now ops))) as (L & HI & HL); [constructor|done..|].
    exists L, ((λ _, atRest) <$> ops). split_and!; [done|done|apply pooled_start; intros o; apply program_rests|]. split; [done|..].
    + intros k v t Ht. by apply cache_lookup_mono.
    + intros k v t Hexp. by apply Hdl.
    + intros u l w k s n _ _ Hu%start_idle _ _. by subst w.
  - rewrite length_app in Hlen. simpl in Hlen. destruct IH as (L & W & HI & HL & HP & HC); [lia|].
    destruct (inv_step _ _ _ _ _ _ HI (live_step_sim _ _ _ Hstep)) as (l & l' & Hl & Ho & HI'); [lia|lia|].
    destruct (pooled_step _ _ _ _ _ _ _ _ HP Hstep) as (w & w' & Hp & HP').
    exists (<[t := l']> L), (<[t := w']> W). split_and!; [done|by rewrite map_size_insert_Some by eauto|done|].
    by eapply cacheInv_step.
  - destruct (IH Hlen) as (L & W & HI & HL & HP & HC). exists L, W. split_and!; [|done|by destruct HP|by apply cacheInv_outside].
    unfold hidden in *. cbn [act_outside sy_shared sy_pool]. by rewrite hide_outside.
Qed.

(** What the owner cache answers is what it was last told. *)
Lemma live_hit nd now ops tr1 t key v tr2 (c : lsystem) :
  startOk nd now → liveRun tick (liveStart nd now ops) (tr1 ++ (t, did (EvMainGet key) (Some v)) :: tr2) c →
  Z.of_nat (size ops) < 2 ^ 62 → Z.of_nat (length (tr1 ++ (t, did (ans := ans) (EvMainGet key) (Some v)) :: tr2)) ≤ 2 ^ 64 →
  content (initially nd now key) key tr1 = Some v.
Proof.
  intros Hok (c1 & c2 & Hrun & Hstep)%liveRun_at Hsz Hlen. rewrite length_app in Hlen.
  destruct (live_inv_run nd now ops tr1 c1 Hok Hrun Hsz) as (L & W & _ & _ & _ & [C1 C2 _ _]); [simpl in Hlen; lia|].
  apply (C2 key v (tick (lv_now (sy_shared c1)))); [apply tick_le|]. rewrite <-cache_Get_result by done.
  remember (t, did (EvMainGet key) (Some v)) as ta eqn:Hta.
  destruct Hstep as [t' e k lv' forced x _ He Hx]. assert (e = EvMainGet key) as -> by (by apply (f_equal (λ ta, projT1 ta.2)) in Hta).
  injection He as _ <-. specialize (Hx _ eq_refl). apply (f_equal (λ ta, hitOf ta.2)) in Hta. cbn in Hta. rewrite Hx in Hta.
  cbn [snd] in Hta. cbn [nd_group lv_node]. destruct (Cache.Get _ _ _).2 as [[bs]|]; [|done]. injection Hta as ->. by destruct v.
Qed.

(** [C5] The node at work refines the interleavings.  Every run of operations on a
    node with its real caches, whatever happens outside (time, membership,
    cleanup, Clear, Close), is a run of the abstract machine with the same events
    and answers, and every value the owner cache answers is the one the trace
    says it was last told: a write that came after its own deadline, which the
    cache ignores, leaves nothing older behind. *)
Theorem live_owner_cache_refines nd now ops tr (c : lsystem) :
  startOk nd now → liveRun tick (liveStart nd now ops) tr c → Z.of_nat (size ops) < 2 ^ 62 → Z.of_nat (length tr) ≤ 2 ^ 64 →
  grun (start (nd_cfg nd) (bare (nd_group nd)) ops) tr (hidden c) ∧
  ∀ tr1 t key v tr2, tr = tr1 ++ (t, did (EvMainGet key) (Some v)) :: tr2 → content (initially nd now key) key tr1 = Some v.
Proof.
  intros Hok Hrun Hsz Hlen. split; [exact (live_run_sim _ _ _ Hrun)|]. intros tr1 t key v tr2 ->. by eapply live_hit.
Qed.
End facts.

(** ** A concrete run

    A [Set] and then a [Get] on a node with a cache as [NewCache] makes it, while
    time passes and the cleanup goroutine ticks. *)

Definition lw_cfg : config := mkGConfig "scores" true false 0 false 10.
Definition lw_group : Node.Group (storeImpl ByteView) := with_main (Some wc) (mkGroup false None None 0 ∅ ∅ 0 ∅ 0 (λ _, 0)).
Definition lw_node : node (storeImpl ByteView) := mkNode lw_cfg lw_group w_none (λ _ _, LoadOk [7]).
Definition lw_ops : gmap nat operation :=
  {[ 0%nat := OServeSet (mkRequest "scores" "Tom" [9] false); 1%nat := OServeGet (mkRequest "scores" "Tom" [] false) ]}.
Definition lw_start := liveStart lw_node 0 lw_ops.
Definition lw_early : list (nat * act (ans := ans)) * system ans (live (storeImpl ByteView)) :=
  liveOutcome Z.succ (λ _, anyAnswer) (replicate 5 (inl 0%nat) ++ [inr (SweepCache false)] ++ replicate 3 (inl 0%nat)) lw_start.
Definition lw_late : list (nat * act (ans := ans)) * system ans (live (storeImpl ByteView)) :=
  liveOutcome Z.succ (λ _, anyAnswer) (inr (Elapse 2) :: inr (SweepCache false) :: replicate 5 (inl 1%nat)) lw_early.2.

(** A new cache is empty. *)
Lemma wc_empty t k : cache_lookup t k (Some wc) = None.
Proof.
  assert (∃ s, store wc = SSharded s ∧ Forall (λ c : lruCache ByteView, items c = ∅) (shards s)) as (s & Hs & Hall)
    by (eexists; split; [vm_compute; reflexivity|vm_compute; repeat constructor]).
  unfold cache_lookup. cbn [mbind option_bind]. case_match; [done|]. rewrite Hs. cbn [st_lookup storeImpl_model].
  unfold st_lookup, sharded_store_model, sharded_lookup, shard.
  destruct (shards s !! _) as [c|] eqn:Hc; [|done]. cbn [mbind option_bind]. rewrite Forall_lookup in Hall.
  unfold lru_lookup. rewrite (Hall _ _ Hc), lookup_empty. by case_match.
Qed.

Lemma lw_ok : startOk lw_node 0.
Proof. split; [exact wc_wf|]. intros _ k v t _. cbn [lw_node lw_group nd_group with_main mainCache]. by rewrite wc_empty. Qed.

Lemma lw_run : liveRun Z.succ lw_start (lw_early.1 ++ lw_late.1) lw_late.2.
Proof.
  eapply liveRun_trans; apply liveOutcome_run; vm_compute; reflexivity.
Qed.

Lemma live_owner_cache_refines_witness :
  (lw_late.1 !! 2%nat = Some (1%nat, did (EvMainGet "Tom") (Some (mkByteView [9])))) ∧
  content (initially lw_node 0 "Tom") "Tom" (lw_early.1 ++ take 2 lw_late.1) = Some (mkByteView [9]).
Proof.
  split; [vm_compute; reflexivity|].
  eapply (proj2 (live_owner_cache_refines Z.succ (λ t, Z.le_succ_diag_r t) lw_node 0 lw_ops _ _ lw_ok lw_run
    ltac:(vm_compute; reflexivity) ltac:(vm_compute; discriminate)) _ 1%nat "Tom" (mkByteView [9]) (drop 3 lw_late.1)).
  vm_compute. reflexivity.
Defined.
