(* ===== verification/Reads.v ===== *)
(** * What the reads of a node return

    A read that this node answers as the owner, while any number of other
    operations run, returns nothing older than a mutation of the key that was
    complete when the read began. *)

From S2P Require Import Prelude Store ByteView Errors Cache CacheFacts Peers Singleflight Prog Interleave Group Rpc GroupFacts Node Concurrent Discipline SyncFacts ConcurrentFacts OwnerCache Sweep Live Watch LiveFacts.

(** ** Reads of the owner *)

(** A value is obtained from the owner's path: it was found in the owner cache or
    loaded by this call, or a call in flight for the key was joined. *)
Definition obtained (key : string) (v : ByteView) (evs : list (act (ans := ans))) : Prop :=
  (∃ a, a ∈ evs ∧ gives a key (b v)) ∨
  ∃ c, did (ans := ans) (EvFlight key) (Join c) ∈ evs ∧ did (ans := ans) (EvFlightWait c) (Done_ (inr v)) ∈ evs.

Lemma obtained_sub key v evs evs' : (∀ a, a ∈ evs → a ∈ evs') → obtained key v evs → obtained key v evs'.
Proof. intros Hs [(a & ? & ?)|(c & ? & ?)]; [left|right]; eauto. Qed.

Section programs.
Context (g : config).

Lemma loadOwner_obtained key epoch st evs v :
  runs (loadOwner g key epoch st) evs (Val (inr v)) → ∃ a, a ∈ evs ∧ gives a key (b v).
Proof.
  unfold loadOwner. rgoal. intros (x & e1 & -> & cached & e2 & -> & Hr). destruct cached as [view|]; rn Hr.
  { destruct Hr as (y & e3 & -> & -> & [= <-]). exists (did (EvMainGet key) (Some v)). split; [set_solver|by left]. }
  destruct Hr as (gen & e3 & -> & y & e4 & -> & st0 & e5 & -> & z & e6 & -> & ld & e7 & -> & Hr).
  assert (∀ bytes, ld = LoadOk bytes → b v = bytes → ∃ a, a ∈ did (ans := ans) (EvLock st) x :: did (EvMainGet key) None :: did (EvGen st) gen ::
    did (EvUnlock st) y :: did EvNow st0 :: did (EvStat sourceLoads 1) z :: did (EvGetter key) ld :: e7 ∧ gives a key (b v)) as Hload.
  { intros bytes -> <-. exists (did (EvGetter key) (LoadOk (b v))). split; [set_solver|by right]. }
  destruct ld as [bytes|err|p]; [|by destruct Hr as (? & ? & -> & ? & ? & -> & ? & ? & -> & _ & ?)|by destruct Hr].
  destruct Hr as (now & e8 & -> & q & e9 & -> & Hr).
  apply runs_bind in Hr as [(e10 & e11 & moved & -> & _ & Hr)|(? & _ & ?)]; [|done]. destruct moved; rn Hr; [by destruct Hr|].
  destruct Hr as (w & e12 & -> & Hr). apply runs_finally in Hr as (e13 & e14 & r' & -> & Hr & [[_ <-]|(? & _ & ?)]); [|done].
  rn Hr. destruct Hr as (gen' & e15 & -> & Hr). case_decide; rn Hr.
  - destruct Hr as (c2 & e16 & -> & Hr). destruct c2 as [view|]; [|by destruct Hr]. destruct Hr as [-> [= <-]].
    exists (did (EvMainGet key) (Some v)). split; [set_solver|by left].
  - apply runs_bind in Hr as [(e16 & e17 & u & -> & _ & -> & [= ->])|(? & _ & ?)]; [|done]. apply (Hload bytes); [done|]. cbn. apply cloneBytes_id.
Qed.

Lemma getLocal_obtained key evs v : runs (getLocal g key) evs (Val (inr v)) → obtained key v evs.
Proof.
  unfold getLocal. rgoal. intros (cl & e1 & -> & Hr). destruct cl; [by destruct Hr|].
  apply runs_bind in Hr as [(e2 & e3 & prep & -> & _ & Hr)|(? & _ & ?)]; [|done]. destruct prep as [err|epoch]; [by destruct Hr|]. rn Hr.
  destruct Hr as (st & e4 & -> & Hr). apply runs_finally in Hr as (e5 & e6 & r' & -> & Hr & [[_ <-]|(? & _ & ?)]); [|done]. rn Hr.
  destruct Hr as (hit & e7 & -> & Hr). destruct hit as [view|]; rn Hr.
  { destruct Hr as (y & e8 & -> & -> & [= <-]). left. exists (did (EvMainGet key) (Some v)). split; [set_solver|by left]. }
  destruct Hr as (y & e8 & -> & Hr). destruct (hasGetter g); rn Hr; [|by destruct Hr].
  apply runs_bind in Hr as [(e9 & e10 & r & -> & Hf & Hr)|(? & _ & ?)]; [|done].
  destruct r as [err|view]; [case_match; by destruct Hr|]. destruct Hr as [-> [= <-]].
  apply (obtained_sub key v e9); [intros a; set_solver|]. clear -Hf.
  unfold flightDo in Hf. rn Hf. destruct Hf as (f & e1 & -> & Hf). destruct f as [c|c]; rn Hf.
  - apply runs_bind in Hf as [(e2 & e3 & r & -> & Hl & Hf)|(? & _ & ?)]; [|done]. apply runs_catch in Hl as (r' & [= ->] & Hl).
    destruct r' as [r'|p]; rn Hf; destruct Hf as (z & e4 & -> & Hf); [|by destruct Hf]. destruct Hf as [-> [= <-]].
    left. apply loadOwner_obtained in Hl as (a & Ha & Hg). exists a. split; [set_solver|done].
  - destruct Hf as (o & e2 & -> & Hf). destruct o as [r|p]; [|by destruct Hf]. destruct Hf as [-> [= <-]].
    right. exists c. split; set_solver.
Qed.

(** The node answers itself: it neither asks another node nor its near cache. *)
Definition own (e : ev) : Prop := match e with EvPeerGet _ _ _ | EvNearGet _ => False | _ => True end.

Lemma Get_obtained ticks key evs v :
  runs (Group.Get g ticks key) evs (Val (inr v)) → (∀ a, a ∈ evs → own (projT1 a)) → obtained key v evs.
Proof.
  intros Hr Hown. destruct (hasPeers g) eqn:Hp.
  - destruct (Get_provenance g ticks key evs v Hp Hr) as (t0 & r & t' & -> & _ & Hpr). destruct Hpr as [t' _ Hl|r' _ _|c bytes r' before after _ _ _ _ _].
    + apply (obtained_sub key v t'); [intros a; set_solver|by apply getLocal_obtained].
    + destruct (Hown (did (EvNearGet (nearKey (pk_epoch r) key)) (Some v))). set_solver.
    + destruct (Hown (did (EvPeerGet c (name g) key) (inr bytes))). set_solver.
  - unfold Group.Get in Hr. rn Hr. destruct Hr as (cl & e1 & -> & Hr). destruct cl; [by destruct Hr|].
    case_decide; [by destruct Hr|]. rewrite Hp in Hr. cbn [negb] in Hr.
    apply (obtained_sub key v e1); [intros a; set_solver|by apply getLocal_obtained].
Qed.

(** ** Mutations of the owner *)

(** The events contain a whole critical section that advances the generation of
    the key. *)
Definition mutated (key : string) (evs : list (act (ans := ans))) : Prop :=
  ∃ st e1 x e2 y, evs = e1 ++ did (EvIncGen st) x :: e2 ∧ did (ans := ans) (EvAcquire key) st ∈ e1 ∧ did (ans := ans) (EvUnlock st) y ∈ e2.

Lemma mutated_app key evs e0 e3 : mutated key evs → mutated key (e0 ++ evs ++ e3).
Proof.
  intros (st & e1 & x & e2 & y & -> & Ha & Hu). exists st, (e0 ++ e1), x, (e2 ++ e3), y. rewrite <-!app_assoc. split_and!; [done|set_solver..].
Qed.

Lemma setLocal_mutated key value evs : runs (setLocal g key value) evs (Val None) → mutated key evs.
Proof.
  unfold setLocal. rgoal. intros (cl & e1 & -> & Hr). destruct cl; [by destruct Hr|].
  apply runs_bind in Hr as [(e2 & e3 & prep & -> & _ & Hr)|(? & _ & ?)]; [|done].
  assert (∃ st e4, e3 = did (EvAcquire key) st :: e4 ∧ runs (finally (do (EvLock st) ;;; do (EvIncGen st) ;;;
    addOwnerValue g key (mkByteView (cloneBytes value)) ;;; do (EvUnlock st) ;;; invalidateNearKey g key ;;; Ret None)%prog (do (EvRelease key st)))
    e4 (Val (None : option error))) as (st & e4 & -> & Hf).
  { destruct prep; [destruct (hasPeers g); [by destruct Hr|]|]; rn Hr; exact Hr. }
  apply runs_finally in Hf as (e5 & e6 & r' & -> & Hf & [[_ <-]|(? & _ & ?)]); [|done]. rn Hf.
  destruct Hf as (x & e7 & -> & y & e8 & -> & Hf). apply runs_bind in Hf as [(e9 & e10 & ? & -> & _ & Hf)|(? & _ & ?)]; [|done]. rn Hf.
  destruct Hf as (z & e11 & -> & _).
  exists st, (did EvClosed false :: e2 ++ [did (EvAcquire key) st; did (EvLock st) x]), y, (e9 ++ did (EvUnlock st) z :: e11 ++ e6), z.
  split_and!; [|set_solver|set_solver]. cbn. by rewrite <-?app_assoc.
Qed.

Lemma deleteLocal_mutated key evs r : runs (deleteLocal g key) evs (Val r) → mutated key evs.
Proof.
  unfold deleteLocal. rgoal. intros (st & e4 & -> & Hf).
  apply runs_finally in Hf as (e5 & e6 & r' & -> & Hf & [[_ <-]|(? & _ & ?)]); [|done]. rn Hf.
  destruct Hf as (x & e7 & -> & y & e8 & -> & rm & e9 & -> & z & e10 & -> & _).
  exists st, [did (EvAcquire key) st; did (EvLock st) x], y, (did (EvMainDelete key) rm :: did (EvUnlock st) z :: e10 ++ e6), z.
  split_and!; [done|set_solver..].
Qed.

Lemma Server_Set_mutated req evs v : runs (Server_Set (Some g) req) evs (Val (inr v)) → mutated (rq_key req) evs.
Proof.
  cbn [Server_Set]. intros [(e1 & e2 & r & -> & Hr & -> & Hv)|(? & _ & ?)]%runs_bind; [|done]. destruct r as [err|]; [done|].
  rewrite app_nil_r. by eapply setLocal_mutated.
Qed.

Lemma Server_Delete_mutated req evs v : runs (Server_Delete (Some g) req) evs (Val (inr v)) → mutated (rq_key req) evs.
Proof.
  cbn [Server_Delete]. destruct (rq_invalidate req); intros [(e1 & e2 & r & -> & Hr & -> & Hv)|(? & _ & ?)]%runs_bind; try done; rewrite app_nil_r.
  { by eapply deleteLocal_mutated. }
  destruct r as [err|r]; [done|]. unfold deleteOwnerLocal in Hr. rn Hr. destruct Hr as (cl & e2 & -> & Hr). destruct cl; [by destruct Hr|].
  apply runs_bind in Hr as [(e3 & e4 & prep & -> & _ & Hr)|(? & _ & ?)]; [|done].
  assert (∃ e5 rm, e4 = e5 ++ [] ∧ runs (deleteLocal g (rq_key req)) e5 (Val rm)) as (e5 & rm & -> & Hd).
  { destruct prep; [destruct (hasPeers g); [by destruct Hr|]|]; apply runs_bind in Hr as [(e5 & e6 & rm & -> & Hd & -> & _)|(? & _ & ?)]; eauto; done. }
  apply (mutated_app _ _ (did EvClosed false :: e3) []). by eapply deleteLocal_mutated.
Qed.
End programs.

(** ** Who writes what *)

(** The value an operation writes. *)
Definition writes (o : operation) : option (string * list Z) :=
  match o with OSet _ key value => Some (key, value) | OServeSet req => Some (rq_key req, rq_value req) | _ => None end.

Section writers.
Context (g : config).

Definition storesOnly (key : string) (value : list Z) (e : ev) : Prop :=
  match e with EvMainAdd k v | EvMainAddExp k v _ => k = key ∧ b v = value | _ => True end.
Definition noInc (e : ev) : Prop := match e with EvIncGen _ => False | _ => True end.

Section set.
Context (key : string) (value : list Z).
Notation stores := (every (storesOnly key value)).
Lemma prepareLocalOwner_stores k : stores (prepareLocalOwner g k).
Proof. unfold prepareLocalOwner. every_tac. Qed.
Lemma invalidateNearKey_stores k : stores (invalidateNearKey g k).
Proof. unfold invalidateNearKey. every_tac. Qed.
Lemma addOwnerValue_stores : stores (addOwnerValue g key (mkByteView (cloneBytes value))).
Proof. unfold addOwnerValue. every_tac; apply cloneBytes_id. Qed.
Hint Resolve prepareLocalOwner_stores invalidateNearKey_stores addOwnerValue_stores : locache.
Lemma setLocal_stores : stores (setLocal g key value).
Proof. unfold setLocal. every_tac; auto with locache. Qed.
Lemma waitLoop_stores n e : stores (waitLoop n e).
Proof. induction n as [|n IH]; cbn [waitLoop]; every_tac. Qed.
Lemma setTurn_stores last n : stores (setTurn g last n key value).
Proof. unfold setTurn, peerSet, nilPeer, confirm, refused, waitForTopologyRetry. every_tac; auto using setLocal_stores, waitLoop_stores with locache. Qed.
Lemma turnLoop_stores n body ticks o : (∀ last k, stores (body last k)) → stores (turnLoop n body ticks o).
Proof. intros Hb. revert o. induction n as [|n IH]; intros o; cbn [turnLoop]; every_tac; auto. Qed.
Lemma Set_stores ticks : stores (Set_ g ticks key value).
Proof.
  unfold Set_, invalidateLocalCopies, invalidatePeerCopies.
  every_tac; auto using turnLoop_stores, setTurn_stores, setLocal_stores with locache.
Qed.
End set.

Lemma prepareLocalOwner_noInc k : every noInc (prepareLocalOwner g k).
Proof. unfold prepareLocalOwner. every_tac. Qed.
Lemma addOwnerValue_noInc key v : every noInc (addOwnerValue g key v).
Proof. unfold addOwnerValue. every_tac. Qed.
Hint Resolve prepareLocalOwner_noInc addOwnerValue_noInc : locache.
Lemma getLocal_noInc key : every noInc (getLocal g key).
Proof. unfold getLocal, flightDo. every_tac; auto with locache. Qed.
Lemma waitLoop_noInc n e : every noInc (waitLoop n e).
Proof. induction n as [|n IH]; cbn [waitLoop]; every_tac. Qed.
Lemma getTurn_noInc last n key : every noInc (getTurn g last n key).
Proof. unfold getTurn, nearLookup, peerGet, nilPeer, waitForTopologyRetry. every_tac; auto using getLocal_noInc, waitLoop_noInc with locache. Qed.
Lemma getLoop_noInc n ticks key : every noInc (getLoop g n ticks key).
Proof. induction n as [|n IH]; cbn [getLoop]; [done|]. apply every_bind; [apply getTurn_noInc|]. by intros []. Qed.

(** An operation that advances a generation and stores is a [Set]. *)
Lemma program_writes o :
  every noInc (program g o) ∨ every noStore (program g o) ∨
  ∃ key value, writes o = Some (key, value) ∧ every (storesOnly key value) (program g o).
Proof.
  destruct o; cbn [program writes].
  - left. apply every_bind; [|done]. unfold Group.Get. split; [done|]. intros cl. cbn [bind].
    repeat (case_match; try done); auto using getLocal_noInc, getLoop_noInc.
  - right. right. exists key, value. split; [done|]. apply every_bind; [apply Set_stores|done].
  - right. left. by apply (delete_noStore g (ODelete ticks key)).
  - left. cbn [Server_Get]. apply every_bind; [|done]. apply every_bind; [apply getLocal_noInc|done].
  - right. right. exists (rq_key req), (rq_value req). split; [done|]. cbn [Server_Set]. apply every_bind; [|done]. apply every_bind; [apply setLocal_stores|done].
  - right. left. by apply (delete_noStore g (OServeDelete req)).
Qed.
End writers.

(** Only goroutines that run an operation act. *)
Lemma acts_ops {S} cfg (g : Node.Group S) ops tr c u a :
  grun (start cfg g ops) tr c → (u, a) ∈ tr → is_Some (ops !! u).
Proof.
  intros Hrun Hin. rewrite <-elem_of_dom.
  enough (dom (sy_pool c) = dom ops ∧ ∀ u a, (u, a) ∈ tr → u ∈ dom ops) as [_ ?] by eauto. clear Hin.
  induction Hrun as [|tr c1 ta c2 _ [IHd IH] Hs]; [split; [cbn; by rewrite dom_fmap_L|by intros ? ? ?%elem_of_nil]|].
  destruct Hs as [t e k s' forced x Ht _ _]. split; [cbn [sy_pool]; by rewrite dom_insert_lookup_L by eauto|].
  intros w a' [Hin|Hin]%elem_of_app; [by eapply IH|]. apply list_elem_of_singleton in Hin as [= -> _]. rewrite <-IHd. apply elem_of_dom. eauto.
Qed.

Lemma writer_writes {S} cfg (g : Node.Group S) ops tr c u a1 a2 key v s :
  grun (start cfg g ops) tr c → (u, a1) ∈ tr → storeOf a1 = Some (key, v) → (u, a2) ∈ tr → incOf a2 = Some s →
  ∃ o, ops !! u = Some o ∧ writes o = Some (key, b v).
Proof.
  intros Hrun Ha1 Hst Ha2 Hinc. destruct (acts_ops _ _ _ _ _ _ _ Hrun Ha1) as [o Ho].
  assert (sy_pool (start cfg g ops) !! u = Some (program cfg o)) as Hp by (cbn; by rewrite lookup_fmap, Ho).
  exists o. split; [done|]. destruct (program_writes cfg o) as [Hno|[Hno|(k & value & Hw & Hso)]].
  - pose proof (sysRun_every _ _ _ _ _ _ _ Hrun Hp Hno _ Ha2) as Hx. by destruct a2 as [[] ?].
  - pose proof (sysRun_every _ _ _ _ _ _ _ Hrun Hp Hno _ Ha1) as Hx. by destruct a1 as [[] ?].
  - pose proof (sysRun_every _ _ _ _ _ _ _ Hrun Hp Hso _ Ha1) as Hx. rewrite Hw.
    destruct a1 as [[] ?]; try done; injection Hst as -> ->; by destruct Hx as [<- <-].
Qed.

(** ** Reads are regular *)

(** The read [o] has returned [v], and this node has answered itself. *)
Definition answers (cfg : config) (o : operation) (evs : list (act (ans := ans))) (key : string) (v : ByteView) : Prop :=
  match o with
  | OGet ticks k => k = key ∧ runs (Group.Get cfg ticks k) evs (Val (inr v)) ∧ ∀ a, a ∈ evs → own (projT1 a)
  | OServeGet req => rq_key req = key ∧ runs (Server_Get (Some cfg) req) evs (Val (inr (b v)))
  | _ => False
  end.

(** The mutation [o] of [key] has been acknowledged, and was carried out here. *)
Definition acknowledges (cfg : config) (o : operation) (evs : list (act (ans := ans))) (key : string) : Prop :=
  match o with
  | OSet ticks k value => k = key ∧ runs (Set_ cfg ticks k value) evs (Val None) ∧ mutated k evs
  | ODelete ticks k => k = key ∧ runs (Group.Delete cfg ticks k) evs (Val None) ∧ mutated k evs
  | OServeSet req => rq_key req = key ∧ ∃ r, runs (Server_Set (Some cfg) req) evs (Val (inr r))
  | OServeDelete req => rq_key req = key ∧ ∃ r, runs (Server_Delete (Some cfg) req) evs (Val (inr r))
  | _ => False
  end.

Lemma answers_obtained cfg o evs key v : answers cfg o evs key v → obtained key v evs.
Proof.
  destruct o; try done; cbn [answers].
  - intros (-> & Hr & Hown). by eapply Get_obtained.
  - intros [<- Hr]. cbn [Server_Get] in Hr. apply runs_bind in Hr as [(e1 & e2 & r & -> & Hr & -> & Hv)|(? & _ & ?)]; [|done].
    destruct r as [err|view]; [done|]. injection Hv as Hv. rewrite app_nil_r. apply getLocal_obtained in Hr.
    unfold ByteSlice in Hv. rewrite cloneBytes_id in Hv. destruct v, view. cbn in Hv. by subst.
Qed.
Lemma acknowledges_mutated cfg o evs key : acknowledges cfg o evs key → mutated key evs.
Proof.
  destruct o; try done; cbn [acknowledges]; [by intros (-> & _ & ?)..| |].
  - intros (<- & r & Hr). by eapply Server_Set_mutated.
  - intros (<- & r & Hr). by eapply Server_Delete_mutated.
Qed.

Section regular.
Context {S : Type} `{StoreLaws S ByteView} `{!StoreSweep S, !SweepLaws S ByteView}.
Context (tick : Z → Z) (tick_le : ∀ t, t ≤ tick t).
Context (nd : node S) (now : Z) (ops : gmap nat operation) (Hok : startOk nd now) (Hsz : Z.of_nat (size ops) < 2 ^ 62).
Notation lsystem := (system ans (live S)).
Notation run tr c := (liveRun tick (liveStart nd now ops) tr c).

(** A value of [key] written or loaded in [tr2]. *)
Definition current (key : string) (v : ByteView) (tr2 : trace) : Prop :=
  ∃ u a, (u, a) ∈ tr2 ∧
    (loadOf a = Some (key, b v) ∨ storeOf a = Some (key, v) ∧ ∃ o, ops !! u = Some o ∧ writes o = Some (key, b v)).

Lemma live_grun tr (c : lsystem) : run tr c → grun (start (nd_cfg nd) (bare (nd_group nd)) ops) tr (hidden c).
Proof. intros Hrun%live_run_sim. exact Hrun. Qed.

(** What a goroutine gets to know after a mutation has left its critical section. *)
Lemma gives_current pre u a s a' mid t a1 post key v (c : lsystem) :
  run ((pre ++ (u, a) :: mid) ++ (t, a1) :: post) c → incOf a = Some s → mutates pre key a →
  (u, a') ∈ mid → unlockOf a' = Some s → gives a1 key (b v) →
  Z.of_nat (length ((pre ++ (u, a) :: mid) ++ (t, a1) :: post)) < 2 ^ 64 →
  current key v (mid ++ (t, a1) :: post).
Proof.
  intros Hrun Ha Hmut Ha' Hun [Hhit|Hload] Hlen; [|exists t, a1; split; [set_solver|by left]].
  assert (a1 = did (EvMainGet key) (Some v)) as ->.
  { destruct a1 as [e x]. destruct e; try done. cbn in Hhit. destruct x as [[bs]|]; [|done]. injection Hhit as <- ->. by destruct v. }
  assert (content (initially nd now key) key (pre ++ (u, a) :: mid) = Some v) as Hc by (eapply live_hit; eauto using Z.lt_le_incl).
  pose proof (live_grun _ _ Hrun) as HG. rewrite length_app in Hlen.
  apply sysRun_app in HG as (c1 & HG1 & _).
  destruct (content_origin _ _ _ _ _ _ _ _ _ _ _ _ _ HG1 Ha Hmut Ha' Hun Hsz ltac:(lia) Hc)
    as (u1 & a2 & Ha2 & [Hload|(Hst & a3 & Ha3 & (s3 & Hs3 & _))]); exists u1, a2; (split; [set_solver|]); [by left|right].
  split; [done|]. eapply (writer_writes _ _ _ _ _ u1 a2 a3); [exact HG1|set_solver|done| |done].
  destruct Ha3 as [[= -> ->]|Ha3]; set_solver.
Qed.

(** The call that a read joined began in [late]. *)
Lemma joined_gives early late (c : lsystem) t key v cl :
  run (early ++ late) c → (t, did (ans := ans) (EvFlight key) (Join cl)) ∈ early ++ late →
  (t, did (ans := ans) (EvFlightWait cl) (Done_ (inr v))) ∈ early ++ late →
  (∀ u, (u, did (ans := ans) (EvFlight key) (Lead cl)) ∉ early) → ∃ u a, (u, a) ∈ late ∧ gives a key (b v).
Proof.
  intros Hrun Hjoin Hwait Hlate. destruct (flightTrace_run _ _ _ _ _ (live_grun _ _ Hrun)) as (W & _ & F).
  destruct (ft_wait _ _ _ F _ _ _ Hwait) as (u & k & x1 & x2 & a & Htr & Ha & Hg). destruct (ft_join _ _ _ F _ _ _ Hjoin) as [u' Hu'].
  assert (k = key) as -> by (eapply (ft_key _ _ _ F u); [|exact Hu']; rewrite Htr; set_solver). exists u, a. split; [|done].
  apply app_eq_inv in Htr as [([|y k] & Hk & Hx)|(k & _ & ->)]; [cbn in Hx; rewrite <-Hx; set_solver| |set_solver].
  injection Hx as <- _. destruct (Hlate u). rewrite Hk. set_solver.
Qed.

(** The core of it, for a mutation and a read given by their events. *)
Lemma reads_regular early late (c : lsystem) u t key v :
  run (early ++ late) c → Z.of_nat (length (early ++ late)) < 2 ^ 64 → mutated key (eventsOf u early) → obtained key v (eventsOf t late) →
  (∀ cl w, (t, did (ans := ans) (EvFlight key) (Join cl)) ∈ late → (w, did (ans := ans) (EvFlight key) (Lead cl)) ∉ early) →
  ∃ tr1 a tr2, early ++ late = tr1 ++ (u, a) :: tr2 ∧ mutates tr1 key a ∧ current key v tr2.
Proof.
  intros Hrun Hlen (st & e1 & x & e2 & y & Hev & Hacq & Hun) Hans Hjoin.
  apply eventsOf_split in Hev as (pre & mid & -> & <- & <-). apply elem_of_eventsOf in Hacq, Hun.
  exists pre, (did (EvIncGen st) x), (mid ++ late). split; [by rewrite <-app_assoc|].
  assert (mutates pre key (did (EvIncGen st) x)) as Hmut by (exists st; split; [done|]; eauto). split; [done|].
  assert (∃ w a, (w, a) ∈ late ∧ gives a key (b v)) as (w & a & Hin & Hg).
  { destruct Hans as [(a & Ha%elem_of_eventsOf & Hg)|(cl & Hj%elem_of_eventsOf & Hw%elem_of_eventsOf)]; [eauto|].
    apply (joined_gives _ _ _ t key v cl Hrun); [set_solver|set_solver|]. intros w. by apply Hjoin. }
  apply list_elem_of_split in Hin as (l1 & l2 & ->).
  assert ((pre ++ (u, did (EvIncGen st) x) :: mid) ++ l1 ++ (w, a) :: l2 = (pre ++ (u, did (EvIncGen st) x) :: (mid ++ l1)) ++ (w, a) :: l2)
    as Heq by (rewrite <-!app_assoc; cbn; by rewrite <-app_assoc). rewrite Heq in Hrun, Hlen. rewrite app_assoc.
  apply (gives_current pre u _ st (did (EvUnlock st) y) _ _ _ _ _ _ _ Hrun); try done. set_solver.
Qed.

(** [C4] Reads are regular.  Goroutine [u] has carried out a mutation of [key] and
    returned, then goroutine [t] begins a read of the key that this node answers
    itself, and returns [v]; any number of other operations run at the same time.
    Then [v] was loaded from the source after [u]'s mutation took effect, or was
    written after that by [u] or by another [Set] of the key: nothing older is
    returned.  The exception is a read that joins a load which was already in
    flight before [u] returned. *)
Theorem concurrent_reads_regular early late (c : lsystem) u ou t ot key v :
  run (early ++ late) c → Z.of_nat (length (early ++ late)) < 2 ^ 64 →
  ops !! u = Some ou → acknowledges (nd_cfg nd) ou (eventsOf u early) key →
  ops !! t = Some ot → eventsOf t early = [] → answers (nd_cfg nd) ot (eventsOf t late) key v →
  (∀ cl w, (t, did (ans := ans) (EvFlight key) (Join cl)) ∈ late → (w, did (ans := ans) (EvFlight key) (Lead cl)) ∉ early) →
  ∃ tr1 a tr2, early ++ late = tr1 ++ (u, a) :: tr2 ∧ mutates tr1 key a ∧ current key v tr2.
Proof.
  intros Hrun Hlen _ Hack%acknowledges_mutated _ _ Hans%answers_obtained Hjoin. by eapply reads_regular.
Qed.
End regular.

(** The [Get] of [lw_late] begins when the [Set] of [lw_early] has returned. *)
Lemma concurrent_reads_regular_witness :
  ∃ tr1 a tr2, lw_early.1 ++ lw_late.1 = tr1 ++ (0%nat, a) :: tr2 ∧ mutates tr1 "Tom" a ∧ current lw_ops "Tom" (mkByteView [9]) tr2.
Proof.
  apply (concurrent_reads_regular Z.succ (λ t, Z.le_succ_diag_r t) lw_node 0 lw_ops lw_ok ltac:(vm_compute; reflexivity)
    lw_early.1 lw_late.1 lw_late.2 0%nat (OServeSet (mkRequest "scores" "Tom" [9] false)) 1%nat (OServeGet (mkRequest "scores" "Tom" [] false))).
  - exact lw_run.
  - vm_compute. reflexivity.
  - reflexivity.
  - split; [reflexivity|]. exists [9]. vm_compute eventsOf. repeat (eexists; eexists; split; [reflexivity|]). split; reflexivity.
  - reflexivity.
  - vm_compute. reflexivity.
  - split; [reflexivity|]. vm_compute eventsOf. repeat (eexists; eexists; split; [reflexivity|]). split; reflexivity.
  - intros cl w Hin. exfalso. assert (Forall (λ ta, flightOf ta.2 = None) lw_late.1) as Hno by (vm_compute; repeat constructor).
    rewrite Forall_forall in Hno. by specialize (Hno _ Hin).
Defined.
