(* ===== verification/NearCopies.v ===== *)
(** * Near copies

    What a node finds in its near cache while its operations are interleaved with
    everything else: a value that a goroutine of this node was given by another
    node for the key, or wrote with [Set], put there under the same epoch, not
    invalidated here since, and for less than the time to live of near copies. *)

From S2P Require Import Prelude Store ByteView Errors Lru LruFacts LruSpec Sharded ShardedFacts Cache CacheFacts Peers PeersFacts Singleflight Prog Interleave Group Rpc GroupFacts Node Concurrent Discipline SyncFacts ConcurrentFacts OwnerCache Sweep Live Watch LiveFacts Reads.

(** ** Keys of near copies *)

(** Nothing but the separator has a colon. *)
Fixpoint noColon (s : string) : bool :=
  match s with EmptyString => true | String a s => negb (Ascii.eqb a (Ascii.ascii_of_nat 58)) && noColon s end.

Lemma pretty_go_noColon x s : noColon s = true → noColon (pretty_N_go x s) = true.
Proof.
  revert s. induction (N.lt_wf_0 x) as [x _ IH]. intros s Hs. destruct (decide (x = 0)%N) as [->|Hx].
  - by rewrite pretty_N_go_0.
  - rewrite pretty_N_go_step by lia. apply IH; [apply N.div_lt; lia|]. cbn [noColon]. rewrite Hs, andb_true_r.
    unfold pretty_N_char. by repeat case_match.
Qed.
Lemma pretty_Z_noColon (z : Z) : noColon (pretty z) = true.
Proof.
  assert (∀ x : N, noColon (pretty x) = true) as HN.
  { intros x. unfold pretty, pretty_N. case_decide; [done|]. by apply pretty_go_noColon. }
  destruct z as [|p|p]; [done|apply (HN (Npos p))|apply (HN (Npos p))].
Qed.
Lemma noColon_split s1 s2 k1 k2 :
  noColon s1 = true → noColon s2 = true → s1 +:+ ":" +:+ k1 = s2 +:+ ":" +:+ k2 → s1 = s2 ∧ k1 = k2.
Proof.
  revert s2. induction s1 as [|a s1 IH]; intros [|a' s2]; cbn [noColon String.app]; intros Hs1 Hs2 Heq; simplify_eq/=; try done.
  apply andb_true_iff in Hs1 as [_ Hs1], Hs2 as [_ Hs2]. destruct (IH s2 Hs1 Hs2) as [-> ->]; done.
Qed.
Lemma nearKey_inj e e' k k' : nearKey e k = nearKey e' k' → e = e' ∧ k = k'.
Proof.
  unfold nearKey. intros Heq. apply noColon_split in Heq as [He ->]; [|apply pretty_Z_noColon..]. by apply (inj pretty) in He.
Qed.

(** ** How near copies are made *)

Section programs.
Context (g : config).

(** In [h] another node, which had been picked as the owner, answered [bytes] for
    [key]. *)
Definition peerAnswered (key : string) (bytes : list Z) (h : list (act (ans := ans))) : Prop :=
  ∃ r c h1 h2, h = h1 ++ did (EvPeerGet c (name g) key) (inr bytes) :: h2 ∧
    did (ans := ans) (EvPickOwner key) r ∈ h1 ∧ pk_self r = false ∧ pk_peer r = PeerClient (Some c).

(** The value that the operation [o] puts into the near cache is its own, if it is
    a [Set], or one that the owner gave for the key, if it is a [Get]; its deadline
    counts from a clock reading. *)
Definition nearAdd (o : operation) (h : list (act (ans := ans))) (e : ev) : Prop :=
  match e with
  | EvNearAddExp nk v at_ =>
      (∃ n, did (ans := ans) EvNow n ∈ h ∧ at_ = time_Add n (nearTTL g)) ∧
      ((∃ epoch ticks key, nk = nearKey epoch key ∧ o = OSet ticks key (b v)) ∨
       ∃ epoch ticks key, nk = nearKey epoch key ∧ o = OGet ticks key ∧ peerAnswered key (b v) h)
  | _ => True
  end.

Definition noNearAdd (e : ev) : Prop := match e with EvNearAddExp _ _ _ => False | _ => True end.

Lemma always_noNearAdd {A} o h (p : gprog A) : every noNearAdd p → always (nearAdd o) h p.
Proof.
  intros Hp. apply always_every. induction p as [a|v|e k IH]; [done|done|]. destruct Hp as [He Hk]. split; [|auto].
  intros h'. by destruct e.
Qed.

Lemma prepareLocalOwner_noNear key : every noNearAdd (prepareLocalOwner g key).
Proof. unfold prepareLocalOwner. every_tac. Qed.
Lemma addOwnerValue_noNear key v : every noNearAdd (addOwnerValue g key v).
Proof. unfold addOwnerValue. every_tac. Qed.
Lemma invalidateNearKey_noNear key : every noNearAdd (invalidateNearKey g key).
Proof. unfold invalidateNearKey. every_tac. Qed.
Hint Resolve prepareLocalOwner_noNear addOwnerValue_noNear invalidateNearKey_noNear : locache.
Lemma getLocal_noNear key : every noNearAdd (getLocal g key).
Proof. unfold getLocal, flightDo. every_tac; auto with locache. Qed.
Lemma setLocal_noNear key v : every noNearAdd (setLocal g key v).
Proof. unfold setLocal. every_tac; auto with locache. Qed.
Lemma deleteLocal_noNear key : every noNearAdd (deleteLocal g key).
Proof. unfold deleteLocal. every_tac; auto with locache. Qed.
Lemma waitLoop_noNear n e : every noNearAdd (waitLoop n e).
Proof. induction n as [|n IH]; cbn [waitLoop]; every_tac. Qed.
Hint Resolve getLocal_noNear setLocal_noNear deleteLocal_noNear waitLoop_noNear : locache.
Lemma deleteOwnerLocal_noNear key : every noNearAdd (deleteOwnerLocal g key).
Proof. unfold deleteOwnerLocal. every_tac; auto with locache. Qed.
Lemma setTurn_noNear last n key v : every noNearAdd (setTurn g last n key v).
Proof. unfold setTurn, peerSet, nilPeer, confirm, refused, waitForTopologyRetry. every_tac; auto with locache. Qed.
Lemma deleteTurn_noNear last n key : every noNearAdd (deleteTurn g last n key).
Proof. unfold deleteTurn, peerDelete, nilPeer, confirm, refused, waitForTopologyRetry. every_tac; auto with locache. Qed.
Lemma turnLoop_noNear n body ticks o : (∀ last k, every noNearAdd (body last k)) → every noNearAdd (turnLoop n body ticks o).
Proof. intros Hb. revert o. induction n as [|n IH]; intros o; cbn [turnLoop]; every_tac; auto. Qed.
Lemma Delete_noNear ticks key : every noNearAdd (Group.Delete g ticks key).
Proof.
  unfold Group.Delete, invalidateLocalCopies, invalidatePeerCopies. every_tac; auto using turnLoop_noNear, deleteTurn_noNear with locache.
Qed.

Lemma nearLookup_noNear key r : every noNearAdd (nearLookup g key r).
Proof. unfold nearLookup. every_tac. Qed.

(** Walk over an event that makes no near copy. *)
Tactic Notation "astep" ident(x) := split; [exact I|]; intros x; cbn [bind event].
Tactic Notation "astep" := split; [exact I|]; intros ?; cbn [bind event].

Lemma getTurn_near h ticks last n key : always (nearAdd (OGet ticks key)) h (getTurn g last n key).
Proof.
  unfold getTurn. astep r. case_match; [done|]. case_match.
  { apply always_bind; [apply always_noNearAdd, getLocal_noNear|]. intros t [err|v] _; by repeat case_match. }
  destruct (pk_peer r) as [|c] eqn:Hpeer; [done|]. apply always_bind; [apply always_noNearAdd, nearLookup_noNear|].
  intros t [view|] _; [done|]. destruct c as [c|]; [|done]. cbn [peerGet]. astep resp. destruct resp as [err|bytes].
  - astep. case_match; [|done]. case_match; [done|]. apply always_noNearAdd. unfold waitForTopologyRetry.
    apply every_bind; [case_match; [done|apply waitLoop_noNear]|]. by intros [].
  - astep r'. case_match; [done|]. astep. case_match; [|done]. astep now. split; [|done]. split.
    + exists now. split; [set_solver|done].
    + right. exists (pk_epoch r), ticks, key. split_and!; [done|done|]. cbn [b]. rewrite cloneBytes_id. exists r, c, ((h ++ [did (EvPickOwner key) r]) ++ t).
      eexists. split_and!; [by rewrite <-!app_assoc|set_solver|done|done].
Qed.
Lemma getLoop_near h n ticks key : always (nearAdd (OGet ticks key)) h (getLoop g n ticks key).
Proof.
  revert h. induction n as [|n IH]; intros h; cbn [getLoop]; [done|]. apply always_bind; [apply getTurn_near|].
  intros t [v|] _; [done|apply IH].
Qed.

Lemma Set_near h ticks key value : always (nearAdd (OSet ticks key value)) h (Set_ g ticks key value).
Proof.
  unfold Set_. astep cl. do 3 (case_match; [done|]).
  apply always_bind; [apply always_noNearAdd, turnLoop_noNear; intros; apply setTurn_noNear|].
  intros t [err|[owner stableEpoch]] _; [done|]. astep. apply always_bind.
  { apply always_noNearAdd. unfold invalidateLocalCopies. every_tac; auto with locache. }
  intros t1 [] _. apply always_bind; [apply always_noNearAdd; unfold invalidatePeerCopies; every_tac|].
  intros t2 [] _. apply always_bind; [|done]. case_match; [|done]. astep r. case_match; [|done]. astep now. split; [|done]. split.
  - exists now. split; [set_solver|done].
  - left. exists stableEpoch, ticks, key. cbn [b]. by rewrite cloneBytes_id.
Qed.

Lemma program_near o : always (nearAdd o) [] (program g o).
Proof.
  destruct o; cbn [program Server_Get Server_Set Server_Delete].
  - apply always_bind; [|done]. unfold Group.Get. astep cl. do 2 (case_match; [done|]). case_match; [|apply getLoop_near].
    apply always_noNearAdd, getLocal_noNear.
  - apply always_bind; [apply Set_near|done].
  - apply always_noNearAdd, every_bind; [apply Delete_noNear|done].
  - apply always_noNearAdd, every_bind; [apply every_bind; [apply getLocal_noNear|done]|done].
  - apply always_noNearAdd, every_bind; [apply every_bind; [apply setLocal_noNear|done]|done].
  - apply always_noNearAdd, every_bind; [|done]. case_match; (apply every_bind; [|done]); [apply deleteLocal_noNear|apply deleteOwnerLocal_noNear].
Qed.

End programs.

(** ** What the near cache holds *)

Section facts.
Context {S : Type} `{StoreLaws S ByteView} `{!StoreSweep S, !SweepLaws S ByteView}.
Context (tick : Z → Z) (tick_le : ∀ t, t ≤ tick t).
Context (nd : node S) (now : Z) (ops : gmap nat operation).
Implicit Types (lv : live S) (tr : trace).
Notation lsystem := (system ans (live S)).
Notation run tr c := (liveRun tick (liveStart nd now ops) tr c).
Notation nearOf lv := (nearCache (nd_group (lv_node lv))).
Notation ttl := (nearTTL (nd_cfg nd)).

(** A copy of [v] under [nk] that is visible at [t] was put there at some instant
    less than the time to live before [t], and has not been deleted since. *)
Definition copied tr (nk : string) (v : ByteView) (t : Z) (latest : Z) : Prop :=
  ∃ tr1 u at_ x tr2 T0, tr = tr1 ++ (u, did (EvNearAddExp nk v at_) x) :: tr2 ∧
    (∀ w d, (w, did (ans := ans) (EvNearDelete nk) d) ∉ tr2) ∧ (∀ w n, (w, did (ans := ans) EvNow n) ∈ tr2 → T0 ≤ n) ∧
    T0 ≤ latest ∧ t < T0 + ttl.

Record nearInv tr lv : Prop := {
  ni_wf : cache_wf (nearOf lv);
  ni_now : ∀ t n, (t, did (ans := ans) EvNow n) ∈ tr → n ≤ lv_now lv;
  ni_copy : ∀ nk v t, lv_now lv ≤ t → cache_lookup t nk (nearOf lv) = Some v → copied tr nk v t (lv_now lv)
}.

Definition nearHitOf (a : act (ans := ans)) : option ByteView :=
  match a with existT e x => match e return ans e → option ByteView with EvNearGet _ => λ r, r | _ => λ _, None end x end.

(** A copy stays one while nothing deletes it. *)
Lemma copied_snoc tr nk v t latest latest' ta :
  copied tr nk v t latest → latest ≤ latest' → (∀ w d, ta ≠ (w, did (ans := ans) (EvNearDelete nk) d)) →
  (∀ w n, ta = (w, did (ans := ans) EvNow n) → latest ≤ n) → copied (tr ++ [ta]) nk v t latest'.
Proof.
  intros (tr1 & u & at_ & x & tr2 & T0 & -> & Hdel & Hnow & HT & Ht) Hle Hd Hn.
  exists tr1, u, at_, x, (tr2 ++ [ta]), T0. split_and!; [by rewrite <-app_assoc| | |lia|done].
  - intros w d [Hin|Hin]%elem_of_app; [by eapply Hdel|]. apply list_elem_of_singleton in Hin. by eapply Hd.
  - intros w n [Hin|Hin]%elem_of_app; [by eapply Hnow|]. apply list_elem_of_singleton in Hin. symmetry in Hin. apply Hn in Hin. lia.
Qed.

Lemma outside_near o lv :
  cache_wf (nearOf lv) → cache_wf (nearOf (outsideEffect o lv)) ∧
  ∀ t k v, cache_lookup t k (nearOf (outsideEffect o lv)) = Some v → cache_lookup t k (nearOf lv) = Some v.
Proof.
  intros Hwf. destruct o as [d|p| |[]|[]|[]];
    cbn [outsideEffect with_node on_group lv_node lv_now nd_group onCache with_near with_main setClosed nearCache fst snd]; split; try done.
  - by apply (cacheStep_wf CClose).
  - intros t k v. unfold Cache.Close. destruct (nearOf lv) as [c|]; [|done]. cbn. destruct (c_closed c) eqn:Hc; cbn; by rewrite ?Hc.
  - by apply (cacheStep_wf CClear).
  - intros t k v. by rewrite cache_Clear_lookup.
  - by apply cacheSweep_wf.
  - intros t k v. by apply cacheSweep_lookup.
Qed.
Lemma outside_now o lv : lv_now lv ≤ lv_now (outsideEffect o lv).
Proof. destruct o as [d|p| |[]|[]|[]]; cbn; lia. Qed.

Lemma nearInv_outside tr o lv : nearInv tr lv → nearInv tr (outsideEffect o lv).
Proof.
  intros [N1 N2 N3]. destruct (outside_near o lv N1) as [Hwf Hl]. pose proof (outside_now o lv) as Hle. split; [done| |].
  - intros t n Hin%N2. lia.
  - intros nk v t Ht Hv%Hl. destruct (N3 nk v t ltac:(lia) Hv) as (tr1 & u & at_ & x & tr2 & T0 & Htr & Hd & Hn & HT & Hlt).
    exists tr1, u, at_, x, tr2, T0. split_and!; [done..|lia|done].
Qed.

Definition nearEv (e : ev) : bool := match e with EvNearGet _ | EvNearAddExp _ _ _ | EvNearDelete _ => true | _ => false end.

Lemma live_near_same t e lv lv' forced :
  nearEv e = false → liveEffect tick t e lv = Some (lv', forced) → nearOf lv' = nearOf lv ∧ lv_now lv ≤ lv_now lv'.
Proof.
  unfold liveEffect. intros Hm He. destruct e; try done; cbn [synchronises abroad] in He;
    effect_in He; cbn [lv_shared sh_group sh_locks sh_owner sh_done loader loaderNext] in He;
    unfold acquireKeyState in He; repeat case_match; simplify_eq;
    cbn [with_shared with_node on_group lv_node lv_now nd_group on_shared sh_group handleNode fst snd with_main with_keys with_loader
      with_ownerEpoch with_locks with_owner addStat releaseKeyState incGen nearCache lv_shared];
    (split; [done|]); pose proof tick_le; eauto using Z.le_trans with lia.
Qed.

Lemma nearInv_step tr lv lv' t e x forced o :
  nearInv tr lv → liveEffect tick t e lv = Some (lv', forced) → (∀ y, forced = Some y → x = y) →
  nearAdd (nd_cfg nd) o (eventsOf t tr) e → nearInv (tr ++ [(t, did e x)]) lv'.
Proof.
  intros [N1 N2 N3] He Hx Hadd.
  assert (∀ w n, (t, did e x) = (w, did (ans := ans) EvNow n) → n = lv_now lv' ∧ lv_now lv ≤ n) as Hnow.
  { intros w n Heq. apply (f_equal (λ ta, nowOf ta.2)) in Heq. destruct e; try done. injection Heq as ->. injection He as <- <-.
    rewrite (Hx _ eq_refl). cbn. split; [done|apply tick_le]. }
  assert (cache_wf (nearOf lv') ∧ lv_now lv ≤ lv_now lv' ∧ ∀ nk v t', lv_now lv' ≤ t' → cache_lookup t' nk (nearOf lv') = Some v →
    ((∀ w d, (t, did e x) ≠ (w, did (ans := ans) (EvNearDelete nk) d)) ∧ cache_lookup t' nk (nearOf lv) = Some v) ∨
    (∃ at_, e = EvNearAddExp nk v at_ ∧ t' < lv_now lv' + ttl)) as (Hwf & Hle & Hl).
  { destruct (nearEv e) eqn:Hn.
    2:{ destruct (live_near_same _ _ _ _ _ Hn He) as [-> Hle]. split_and!; [done|done|]. intros nk v t' Ht' Hv. left. split; [|done].
        intros w d Heq. apply (f_equal (λ ta, projT1 ta.2)) in Heq. cbn in Heq. by subst e. }
    unfold liveEffect in He. destruct e; try done; cbn [synchronises abroad handleNode] in He; injection He as <- <-;
      cbn [with_node lv_node lv_now nd_group with_near nearCache fst snd].
    - split_and!; [by apply (cacheStep_wf (CGet _ _))|apply tick_le|]. intros nk v t' Ht'. rewrite cache_Get_frame by done. by left.
    - pose proof (tick_le (lv_now lv)). pose proof (tick_le (tick (lv_now lv))). pose proof (tick_le (tick (tick (lv_now lv)))).
      split_and!; [by apply (cacheStep_wf (CAddWithExpiration _ _ _ _ _ _))|lia|].
      destruct Hadd as [(n & Hin%elem_of_eventsOf & ->) _]. apply N2 in Hin. unfold time_Add.
      intros nk v t' Ht' [(-> & -> & Hlt)|[[_ ?]|(_ & _ & ?)]]%cache_AddExp_only; [| by left|by left|done|done].
      right. eexists. split; [done|]. lia.
    - split_and!; [by apply (cacheStep_wf (CDelete _))|done|]. intros nk v t' Ht'. rewrite cache_Delete_lookup by done.
      case_decide as Hk; [done|]. intros Hv. left. split; [|done]. intros w d Heq. apply (f_equal (λ ta, projT1 ta.2)) in Heq. cbn in Heq. congruence. }
  split; [done| |].
  - intros u n [Hin%N2|Hin]%elem_of_app; [lia|]. apply list_elem_of_singleton in Hin. symmetry in Hin. apply Hnow in Hin. lia.
  - intros nk v t' Ht' Hv. destruct (Hl nk v t' Ht' Hv) as [[Hd Hv0]|(at_ & -> & Hlt)].
    + eapply copied_snoc; [apply N3; [lia|done]|done|done|]. intros w n Heq%Hnow. lia.
    + exists tr, t, at_, x, [], (lv_now lv'). split_and!; [done|by intros w d ?%elem_of_nil|by intros w n ?%elem_of_nil|done|done].
Qed.

Lemma live_nearAdd tr1 t a tr2 (c : lsystem) :
  run (tr1 ++ (t, a) :: tr2) c → ∃ o, ops !! t = Some o ∧ nearAdd (nd_cfg nd) o (eventsOf t tr1) (projT1 a).
Proof.
  intros Hrun%live_grun. destruct (acts_ops _ _ _ _ _ t a Hrun) as [o Ho]; [set_solver|]. exists o. split; [done|].
  destruct (sysRun_always effect (λ t h e, ∀ o, ops !! t = Some o → nearAdd (nd_cfg nd) o h e) _ _ _ Hrun) as [_ Hev].
  { intros u p Hp. cbn in Hp. rewrite lookup_fmap in Hp. destruct (ops !! u) as [o'|] eqn:Ho'; [|done]. injection Hp as <-.
    eapply always_weaken; [apply program_near|]. by intros h e He o'' [= <-]. }
  by eapply Hev.
Qed.

(** The near cache is empty at the start. *)
Definition noCopies : Prop := cache_wf (nearCache (nd_group nd)) ∧ ∀ t k, cache_lookup t k (nearCache (nd_group nd)) = None.

Lemma nearInv_run tr (c : lsystem) : noCopies → run tr c → nearInv tr (sy_shared c).
Proof.
  intros [Hwf Hno] Hrun. induction Hrun as [|tr c1 [t a] c2 Hrun IH Hstep|tr c1 o Hrun IH].
  - split; [done|by intros t n ?%elem_of_nil|]. intros nk v t _.
    cbn [liveStart sy_shared freshLive lv_node on_group nd_group with_loader with_keys nearCache]. by rewrite Hno.
  - destruct (live_nearAdd tr t a [] c2) as (o & _ & Hadd); [by eapply liveRun_event|].
    remember (t, a) as ta eqn:Hta. destruct Hstep as [t' e k lv' forced x _ He Hx]. injection Hta as <- <-. by eapply nearInv_step.
  - by apply nearInv_outside.
Qed.

(** A value found in the near cache was put there by an operation of this node. *)
Lemma near_copy_origin tr1 t epoch key v tr2 (c : lsystem) :
  noCopies → run (tr1 ++ (t, did (EvNearGet (nearKey epoch key)) (Some v)) :: tr2) c →
  ∃ h1 u at_ x h2 o, tr1 = h1 ++ (u, did (EvNearAddExp (nearKey epoch key) v at_) x) :: h2 ∧ ops !! u = Some o ∧
    ((∃ ticks, o = OSet ticks key (b v)) ∨ (∃ ticks, o = OGet ticks key) ∧ peerAnswered (nd_cfg nd) key (b v) (eventsOf u h1)) ∧
    (∀ w d, (w, did (ans := ans) (EvNearDelete (nearKey epoch key)) d) ∉ h2) ∧
    (∀ w w' M N, (w, did (ans := ans) EvNow M) ∈ h2 → (w', did (ans := ans) EvNow N) ∈ tr1 → N < M + ttl).
Proof.
  intros Hno Hrun. pose proof (liveRun_at _ _ _ _ _ _ Hrun) as (c1 & c2 & Hrun1 & Hstep). pose proof (nearInv_run _ _ Hno Hrun1) as [N1 N2 N3].
  assert (cache_lookup (tick (lv_now (sy_shared c1))) (nearKey epoch key) (nearOf (sy_shared c1)) = Some v) as Hv.
  { rewrite <-cache_Get_result by done. remember (t, did (EvNearGet (nearKey epoch key)) (Some v)) as ta eqn:Hta.
    destruct Hstep as [t' e k lv' forced x _ He Hx]. assert (e = EvNearGet (nearKey epoch key)) as -> by (by apply (f_equal (λ ta, projT1 ta.2)) in Hta).
    injection He as _ <-. specialize (Hx _ eq_refl). apply (f_equal (λ ta, nearHitOf ta.2)) in Hta. cbn in Hta. by rewrite <-Hx. }
  destruct (N3 _ _ _ (tick_le _) Hv) as (h1 & u & at_ & x & h2 & T0 & -> & Hdel & Hnow & HT & Hlt).
  rewrite <-app_assoc in Hrun. destruct (live_nearAdd h1 u _ _ c Hrun) as (o & Ho & Hadd).
  exists h1, u, at_, x, h2, o. split_and!; [done|done| |done|].
  - destruct Hadd as [_ [(e' & ticks & k' & [_ <-]%nearKey_inj & ->)|(e' & ticks & k' & [_ <-]%nearKey_inj & -> & Hans)]]; eauto.
  - intros w w' M N HM%Hnow HN%N2. pose proof (tick_le (lv_now (sy_shared c1))). lia.
Qed.

(** [C6] Near copies.  A value found in the near cache for a key and an epoch was
    put there, under the same key and epoch, by an operation of this node: by a
    [Set] of the key to that value, or by a [Get] to which another node had
    answered it.  Since then no operation of this node has invalidated the key, and
    less than the time to live has passed, by every clock reading taken here. *)
Theorem near_copies_bounded tr1 t epoch key v tr2 (c : lsystem) :
  noCopies → run (tr1 ++ (t, did (EvNearGet (nearKey epoch key)) (Some v)) :: tr2) c →
  ∃ h1 u at_ x h2 o, tr1 = h1 ++ (u, did (EvNearAddExp (nearKey epoch key) v at_) x) :: h2 ∧ ops !! u = Some o ∧
    ((∃ ticks, o = OSet ticks key (b v)) ∨
     (∃ ticks, o = OGet ticks key) ∧ ∃ cl, (u, did (ans := ans) (EvPeerGet cl (name (nd_cfg nd)) key) (inr (b v))) ∈ h1) ∧
    (∀ w d, (w, did (ans := ans) (EvNearDelete (nearKey epoch key)) d) ∉ h2) ∧
    (∀ w w' M N, (w, did (ans := ans) EvNow M) ∈ h2 → (w', did (ans := ans) EvNow N) ∈ tr1 → N < M + ttl).
Proof.
  intros Hno Hrun. destruct (near_copy_origin _ _ _ _ _ _ _ Hno Hrun) as (h1 & u & at_ & x & h2 & o & -> & Ho & Hor & Hrest).
  exists h1, u, at_, x, h2, o. split_and!; [done|done| |apply Hrest..]. destruct Hor as [|[Hget (r & cl & e1 & e2 & He & _)]]; [by left|right].
  split; [done|]. exists cl. apply elem_of_eventsOf. rewrite He. set_solver.
Qed.
End facts.

(** ** Two reads at a node that is not the owner

    The first [Get] is answered by the owner; the second finds the copy. *)

Definition nw_cfg : config := mkGConfig "scores" true true 30 true 10.
Definition nw_node : node (storeImpl ByteView) := mkNode nw_cfg (with_near (Some wc) lw_group) wp1 (λ _ _, LoadOk [7]).
Definition nw_ops : gmap nat operation := {[0%nat := OGet (λ _, 0%nat) "Sam"; 1%nat := OGet (λ _, 0%nat) "Sam"]}.
Definition nw_choose (_ : nat) (e : ev) : ans e := match e return ans e with EvPeerGet _ _ _ => inr [9] | e => anyAnswer e end.
Definition nw_reads : list (nat * act (ans := ans)) * system ans (live (storeImpl ByteView)) :=
  liveOutcome Z.succ nw_choose (replicate 9 (inl 0%nat) ++ [inr (Elapse 5); inr (SweepCache true)] ++ replicate 3 (inl 1%nat)) (liveStart nw_node 0 nw_ops).

Lemma nw_empty : noCopies nw_node.
Proof. split; [exact wc_wf|]. intros t k. cbn [nw_node nd_group with_near nearCache]. apply wc_empty. Qed.
Lemma nw_run : liveRun Z.succ (liveStart nw_node 0 nw_ops) nw_reads.1 nw_reads.2.
Proof. apply liveOutcome_run. vm_compute. reflexivity. Qed.

Lemma near_copies_bounded_witness :
  nw_reads.1 !! 11%nat = Some (1%nat, did (EvNearGet "2:Sam") (Some (mkByteView [9]))) ∧
  ∃ h1 u at_ x h2 o, take 11 nw_reads.1 = h1 ++ (u, did (EvNearAddExp "2:Sam" (mkByteView [9]) at_) x) :: h2 ∧ nw_ops !! u = Some o ∧
    ((∃ ticks, o = OSet ticks "Sam" [9]) ∨
     (∃ ticks, o = OGet ticks "Sam") ∧ ∃ cl, (u, did (ans := ans) (EvPeerGet cl "scores" "Sam") (inr [9])) ∈ h1) ∧
    (∀ w d, (w, did (ans := ans) (EvNearDelete "2:Sam") d) ∉ h2) ∧
    (∀ w w' M N, (w, did (ans := ans) EvNow M) ∈ h2 → (w', did (ans := ans) EvNow N) ∈ take 11 nw_reads.1 → N < M + 30).
Proof.
  split; [vm_compute; reflexivity|].
  apply (near_copies_bounded Z.succ (λ t, Z.le_succ_diag_r t) nw_node 0 nw_ops (take 11 nw_reads.1) 1%nat 2 "Sam" (mkByteView [9])
    (drop 12 nw_reads.1) nw_reads.2 nw_empty).
  assert (take 11 nw_reads.1 ++ (1%nat, did (EvNearGet (nearKey 2 "Sam")) (Some (mkByteView [9]))) :: drop 12 nw_reads.1 = nw_reads.1) as ->
    by (vm_compute; reflexivity).
  exact nw_run.
Defined.
