(* ===== verification/Distributed.v ===== *)
(** * Nodes at work (group.go, client.go, server.go)

    Several nodes, each as in [Live], whose goroutines run at the same time: the
    methods of the group called on a node, and the handlers that serve the calls
    of other nodes.  A peer call that succeeds was served: a goroutine of the
    called node ran the handler for the request from its beginning to its end
    while the caller waited, and the call returns what the handler did.  A call
    may also fail, at any time and with any error; its handler may then not have
    run, may have run to its end, or may still be running.  Handlers may serve
    requests from elsewhere too.  Every node has its own clock. *)

From S2P Require Import Prelude Store ByteView Errors Cache Peers Singleflight Prog Interleave Group Rpc Node Concurrent Sweep Live OwnerCache ConcurrentFacts Reads.

Notation gtrace := (list (string * (nat * act (ans := ans)))).

(** What happened on node [n]. *)
Definition proj (n : string) (gtr : gtrace) : list (nat * act (ans := ans)) := (filter (λ x, x.1 = n) gtr).*2.

(** The events of goroutine [t] of node [n]. *)
Definition eventsAt (n : string) (t : nat) (gtr : gtrace) : list (act (ans := ans)) := eventsOf t (proj n gtr).

Section distributed.
Context {S : Type} `{Store S ByteView} `{!StoreSweep S}.
Context (tick : string → Z → Z).
Context (nodes : gmap string (node S)) (clocks : string → Z) (ops : string → gmap nat operation).
Implicit Types (gtr : gtrace) (C : gmap string (system ans (live S))).

(** In [gtr] a goroutine of node [n] has run the handler [h] for a request to the
    group [group], while goroutine [u] of node [a] did nothing: it ended with [r]. *)
Definition served gtr (a : string) (u : nat) (n group : string) {A} (o : operation) (h : config → gprog A) (r : A) : Prop :=
  ∃ p1 p2 t nd, gtr = p1 ++ p2 ∧ eventsAt a u p2 = [] ∧ eventsAt n t p1 = [] ∧
    nodes !! n = Some nd ∧ name (nd_cfg nd) = group ∧ ops n !! t = Some o ∧ runs (h (nd_cfg nd)) (eventsAt n t p2) (Val r).

(** The action [act], an event and its answer, of goroutine [u] of node [a]. *)
Definition justified gtr (a : string) (u : nat) (act : act (ans := ans)) : Prop :=
  match projT1 act as e return ans e → Prop with
  | EvPeerGet c group key => λ x, ∀ bytes, x = inr bytes →
      let req := mkRequest group key [] false in
      served gtr a u (cl_addr c) group (OServeGet req) (λ g, Server_Get (Some g) req) (inr bytes : error + list Z)
  | EvPeerSet c group key value => λ x, x = None →
      let req := mkRequest group key value false in
      ∃ r, served gtr a u (cl_addr c) group (OServeSet req) (λ g, Server_Set (Some g) req) (inr r : error + list Z)
  | EvPeerDelete c group key => λ x, ∀ r, x = inr r →
      let req := mkRequest group key [] false in
      served gtr a u (cl_addr c) group (OServeDelete req) (λ g, Server_Delete (Some g) req) (inr r : error + bool)
  | _ => λ _, True
  end (projT2 act).

Definition startAll : gmap string (system ans (live S)) := map_imap (λ n nd, Some (liveStart nd (clocks n) (ops n))) nodes.

Inductive distRun : gtrace → gmap string (system ans (live S)) → Prop :=
| dist_start : distRun [] startAll
| dist_event gtr C n c t a c' :
    distRun gtr C → C !! n = Some c → sysStep (liveEffect (tick n)) c (t, a) c' → justified gtr n t a →
    distRun (gtr ++ [(n, (t, a))]) (<[n := c']> C)
| dist_outside gtr C n c o :
    distRun gtr C → C !! n = Some c → distRun gtr (<[n := act_outside o c]> C).

(** ** Each node by itself *)

Lemma proj_app n gtr1 gtr2 : proj n (gtr1 ++ gtr2) = proj n gtr1 ++ proj n gtr2.
Proof. unfold proj. by rewrite filter_app, fmap_app. Qed.
Lemma proj_one n m ta : proj n [(m, ta)] = if decide (m = n) then [ta] else [].
Proof. unfold proj. rewrite filter_cons. simpl. by case_decide. Qed.
Lemma eventsAt_app n t gtr1 gtr2 : eventsAt n t (gtr1 ++ gtr2) = eventsAt n t gtr1 ++ eventsAt n t gtr2.
Proof. unfold eventsAt. by rewrite proj_app, eventsOf_app. Qed.
Lemma elem_of_proj n gtr ta : ta ∈ proj n gtr ↔ (n, ta) ∈ gtr.
Proof.
  unfold proj. rewrite list_elem_of_fmap. setoid_rewrite list_elem_of_filter. split.
  - intros ([m ta'] & -> & Hm & Hin). simpl in Hm. by subst m.
  - intros Hin. by exists (n, ta).
Qed.
Lemma elem_of_eventsAt n t gtr a : a ∈ eventsAt n t gtr ↔ (n, (t, a)) ∈ gtr.
Proof. unfold eventsAt. by rewrite elem_of_eventsOf, elem_of_proj. Qed.

Lemma proj_split n gtr tr1 ta tr2 :
  proj n gtr = tr1 ++ ta :: tr2 → ∃ g1 g2, gtr = g1 ++ (n, ta) :: g2 ∧ proj n g1 = tr1 ∧ proj n g2 = tr2.
Proof.
  revert tr1. induction gtr as [|[m x] gtr IH]; intros tr1; [by destruct tr1|]. unfold proj. rewrite filter_cons. case_decide as Hm; cbn.
  - simpl in Hm. subst m. destruct tr1 as [|y tr1]; cbn.
    + intros [= -> <-]. by exists [], gtr.
    + intros [= -> Hrest]. destruct (IH tr1 Hrest) as (g1 & g2 & -> & <- & <-). exists ((n, y) :: g1), g2. split_and!; [done| |done].
      unfold proj. by rewrite filter_cons_True.
  - intros Hrest. destruct (IH tr1 Hrest) as (g1 & g2 & -> & <- & <-). exists ((m, x) :: g1), g2. split_and!; [done| |done].
    unfold proj. by rewrite filter_cons_False.
Qed.
Lemma eventsAt_split n t gtr e1 a e2 :
  eventsAt n t gtr = e1 ++ a :: e2 → ∃ g1 g2, gtr = g1 ++ (n, (t, a)) :: g2 ∧ eventsAt n t g1 = e1 ∧ eventsAt n t g2 = e2.
Proof.
  intros (tr1 & tr2 & Hp & <- & <-)%eventsOf_split. apply proj_split in Hp as (g1 & g2 & -> & <- & <-). by exists g1, g2.
Qed.

(** What happens on one node is a run of that node. *)
Lemma dist_node gtr C n nd :
  distRun gtr C → nodes !! n = Some nd → ∃ c, C !! n = Some c ∧ liveRun (tick n) (liveStart nd (clocks n) (ops n)) (proj n gtr) c.
Proof.
  intros Hrun Hn. induction Hrun as [|gtr C m c t a c' _ IH Hm Hs _|gtr C m c o _ IH Hm].
  - exists (liveStart nd (clocks n) (ops n)). unfold startAll. rewrite map_lookup_imap, Hn. split; [done|constructor].
  - destruct IH as (c0 & Hc0 & Hrun0). rewrite proj_app, proj_one. case_decide as Hmn.
    + subst m. assert (c0 = c) as -> by congruence. exists c'. rewrite lookup_insert_eq. split; [done|by eapply liveRun_event].
    + exists c0. rewrite lookup_insert_ne by done. by rewrite app_nil_r.
  - destruct IH as (c0 & Hc0 & Hrun0). destruct (decide (m = n)) as [->|Hmn].
    + assert (c0 = c) as -> by congruence. exists (act_outside o c). rewrite lookup_insert_eq. split; [done|by apply liveRun_outside].
    + exists c0. by rewrite lookup_insert_ne.
Qed.

(** Every answer was justified when it came. *)
Lemma dist_justified gtr C g1 n t a g2 : distRun gtr C → gtr = g1 ++ (n, (t, a)) :: g2 → justified g1 n t a.
Proof.
  intros Hrun. revert g2. induction Hrun as [|gtr C m c u a' c' _ IH Hm Hs Hj|gtr C m c o _ IH Hm]; intros g2 Heq; [by destruct g1| |by eapply IH].
  destruct g2 as [|y g2 _] using rev_ind.
  - apply app_inj_tail in Heq as [-> Heq]. by injection Heq as -> -> ->.
  - rewrite app_comm_cons, app_assoc in Heq. apply app_inj_tail in Heq as [-> _]. by eapply IH.
Qed.

(** ** Running a schedule

    Goroutine [t] of node [n] takes a step; the answers that are free are chosen
    by [choose]. *)

Fixpoint distExecute (choose : string → nat → ∀ e, ans e) (sched : list (string * nat)) C :
    option (gtrace * gmap string (system ans (live S))) :=
  match sched with
  | [] => Some ([], C)
  | (n, t) :: sched =>
      c ← C !! n;
      '(a, c') ← stepOnce (liveEffect (tick n)) (choose n) t c;
      '(gtr, C') ← distExecute choose sched (<[n := c']> C);
      Some ((n, (t, a)) :: gtr, C')
  end.

(** The justification of the peer calls is left to the caller. *)
Lemma distExecute_run choose sched gtr0 C gtr C' :
  distRun gtr0 C → distExecute choose sched C = Some (gtr, C') →
  (∀ g1 n t a g2, gtr = g1 ++ (n, (t, a)) :: g2 → justified (gtr0 ++ g1) n t a) → distRun (gtr0 ++ gtr) C'.
Proof.
  revert gtr0 C gtr. induction sched as [|[n t] sched IH]; intros gtr0 C gtr Hrun; cbn [distExecute].
  - intros [= <- <-] _. by rewrite app_nil_r.
  - intros (c & Hc & Hx)%bind_Some Hj. apply bind_Some in Hx as ([a c'] & Hs & Hx). apply bind_Some in Hx as ([gtr' C2] & He & [= <- <-]).
    change ((n, (t, a)) :: gtr') with ([(n, (t, a))] ++ gtr'). rewrite app_assoc. eapply IH; [|exact He|].
    + eapply dist_event; [done|done|by eapply stepOnce_step|]. rewrite <-(app_nil_r gtr0). by eapply (Hj [] n t a gtr').
    + intros g1 m u x g2 ->. rewrite <-app_assoc. by eapply (Hj ((n, (t, a)) :: g1) m u x g2).
Qed.

Definition distOutcome (choose : string → nat → ∀ e, ans e) (sched : list (string * nat)) C : gtrace * gmap string (system ans (live S)) :=
  default ([], C) (distExecute choose sched C).
Lemma distOutcome_run choose sched gtr0 C :
  distRun gtr0 C → bool_decide (is_Some (distExecute choose sched C)) = true →
  (∀ g1 n t a g2, (distOutcome choose sched C).1 = g1 ++ (n, (t, a)) :: g2 → justified (gtr0 ++ g1) n t a) →
  distRun (gtr0 ++ (distOutcome choose sched C).1) (distOutcome choose sched C).2.
Proof. intros Hrun [[gtr C'] He]%bool_decide_eq_true. unfold distOutcome. rewrite He. by eapply distExecute_run. Qed.

(** Events other than calls of peers need no justification. *)
Definition calls (a : act (ans := ans)) : bool :=
  match projT1 a with EvPeerGet _ _ _ | EvPeerSet _ _ _ _ | EvPeerDelete _ _ _ => true | _ => false end.
Lemma no_calls gtr0 gtr :
  forallb (λ x : string * (nat * act), negb (calls x.2.2)) gtr = true →
  ∀ g1 n t a g2, gtr = g1 ++ (n, (t, a)) :: g2 → justified (gtr0 ++ g1) n t a.
Proof.
  intros Hall g1 n t a g2 ->. rewrite forallb_app in Hall. apply andb_true_iff in Hall as [_ Hall]. cbn in Hall.
  apply andb_true_iff in Hall as [Hc _]. by destruct a as [[] x].
Qed.
Lemma one_call gtr0 gtr n t a :
  gtr = [(n, (t, a))] → justified gtr0 n t a →
  ∀ g1 n' t' a' g2, gtr = g1 ++ (n', (t', a')) :: g2 → justified (gtr0 ++ g1) n' t' a'.
Proof.
  intros -> Hj g1 n' t' a' g2 Heq. destruct g1 as [|x g1]; [|by destruct g1]. injection Heq as <- <- <- _. by rewrite app_nil_r.
Qed.
End distributed.
