(* ===== verification/DistributedFacts.v ===== *)
(** * Reads and writes across nodes at work

    While a key has one owner, a mutation acknowledged at any node has been
    carried out by the owner before it returns, and a read at any node that
    starts later, if it is not answered from a near copy, is answered by the owner
    with nothing older than that mutation, whatever else runs at the same time
    and whichever calls fail. *)

From S2P Require Import Prelude Store ByteView Errors Cache CacheFacts Peers PeersFacts Singleflight Prog Interleave Group Rpc GroupFacts Node Concurrent Discipline SyncFacts ConcurrentFacts OwnerCache Sweep Live Watch LiveFacts Reads Distributed.

Notation picked key r := (did (ans := ans) (EvPickOwner key) r).

(** ** The pieces on one goroutine *)

(** The request with which an operation turns to the owner. *)
Definition handlerOf (group : string) (o : operation) : option operation :=
  match o with
  | OGet _ key => Some (OServeGet (mkRequest group key [] false))
  | OSet _ key value => Some (OServeSet (mkRequest group key value false))
  | ODelete _ key => Some (OServeDelete (mkRequest group key [] false))
  | _ => None
  end.

(** The mutation [o] of [key] has returned without an error. *)
Definition returned (cfg : config) (o : operation) (evs : list (act (ans := ans))) (key : string) : Prop :=
  match o with
  | OSet ticks k value => k = key ∧ runs (Set_ cfg ticks k value) evs (Val None)
  | ODelete ticks k => k = key ∧ runs (Group.Delete cfg ticks k) evs (Val None)
  | _ => False
  end.

(** A refusal by [setLocal] that sends [Set] into another turn: this node has just
    been told that it is not the owner. *)
Lemma setLocal_refused g key value evs err :
  hasPeers g = true → runs (setLocal g key value) evs (Val (Some err)) → isTopology err = true →
  ∃ r, picked key r ∈ evs ∧ pk_ok r = true ∧ pk_self r = false.
Proof.
  intros Hp. unfold setLocal. rgoal. intros (cl & e1 & -> & Hr) Ht. destruct cl; [by destruct Hr as [_ [= ->]]|].
  apply runs_bind in Hr as [(e2 & e3 & prep & -> & Hprep & Hr)|(? & _ & ?)]; [|done].
  destruct prep as [e|epoch].
  - rewrite Hp in Hr. destruct Hr as [-> [= <-]]. unfold prepareLocalOwner in Hprep. rewrite Hp in Hprep. rn Hprep.
    destruct Hprep as (r & e4 & -> & Hprep). destruct (pk_ok r) eqn:Hok; rn Hprep; [|by destruct Hprep as [_ [= ->]]].
    destruct (String.eqb (pk_owner r) ""); rn Hprep; [by destruct Hprep as [_ [= ->]]|].
    destruct (pk_self r) eqn:Hself; rn Hprep; [|exists r; split_and!; [set_solver|done|done]].
    destruct Hprep as (? & ? & -> & oe & ? & -> & Hprep). apply runs_bind in Hprep as [(? & ? & ? & -> & _ & Hprep)|(? & _ & ?)]; [|done].
    rn Hprep. by destruct Hprep as (? & ? & _ & _ & ?).
  - rn Hr. destruct Hr as (st & e4 & -> & Hr). apply runs_finally in Hr as (e5 & e6 & r' & -> & Hr & [[_ <-]|(? & _ & ?)]); [|done]. rn Hr.
    destruct Hr as (x & e7 & -> & y & e8 & -> & Hr). apply runs_bind in Hr as [(e9 & e10 & ? & -> & _ & Hr)|(? & _ & ?)]; [|done]. rn Hr.
    destruct Hr as (z & e11 & -> & Hr). apply runs_bind in Hr as [(? & ? & ? & -> & _ & _ & ?)|(? & _ & ?)]; done.
Qed.

(** How an acknowledged mutation was carried out: here, or by a call that the
    owner's node acknowledged, not as the first event. *)
Definition carriedOut (cfg : config) (o : operation) (key : string) (r : Pick) (evs : list (act (ans := ans))) : Prop :=
  (pk_self r = true ∧ mutated key evs) ∨
  ∃ c e1 a e2, pk_self r = false ∧ pk_peer r = PeerClient (Some c) ∧ e1 ≠ [] ∧ evs = e1 ++ a :: e2 ∧
    ((∃ ticks value, o = OSet ticks key value ∧ a = did (EvPeerSet c (name cfg) key value) None) ∨
     (∃ ticks x, o = ODelete ticks key ∧ a = did (EvPeerDelete c (name cfg) key) (inr x))).

Lemma returned_carriedOut cfg o evs key :
  hasPeers cfg = true → returned cfg o evs key →
  (∃ r, picked key r ∈ evs ∧ carriedOut cfg o key r evs) ∨
  (∃ r r', picked key r ∈ evs ∧ picked key r' ∈ evs ∧ pk_self r = true ∧ pk_ok r' = true ∧ pk_self r' = false).
Proof.
  intros Hp. destruct o as [|ticks k value|ticks k| | |]; try done; cbn [returned]; intros [-> Hr].
  - apply Set_acknowledged in Hr as [(t0 & r & t1 & r' & t2 & -> & Hack & _)|(t0 & r & t1 & t2 & err & -> & _ & Hself & Htop & Hl)]; [..|done].
    + left. exists r. split; [set_solver|]. destruct Hack as [t1 Hself Hl|c Hself Hc].
      * left. split; [done|]. apply setLocal_mutated in Hl. apply (mutated_app _ _ (t0 ++ [picked key r])) with (e3 := picked key r' :: t2) in Hl.
        by rewrite <-app_assoc in Hl.
      * right. exists c, (t0 ++ [picked key r]), (did (EvPeerSet c (name cfg) key value) None), (picked key r' :: t2).
        split_and!; [done|done|by destruct t0|by rewrite <-app_assoc|]. left. eauto.
    + right. destruct (setLocal_refused _ _ _ _ _ Hp Hl Htop) as (r' & Hr' & Hok & Hs'). exists r, r'. split_and!; [set_solver|set_solver|done..].
  - apply Delete_acknowledged in Hr as (t0 & r & t1 & r' & t2 & -> & Hack & _); [|done].
    left. exists r. split; [set_solver|]. destruct Hack as [t1 x Hself Hl|c x Hself Hc].
    + left. split; [done|]. apply deleteLocal_mutated in Hl. apply (mutated_app _ _ (t0 ++ [picked key r])) with (e3 := picked key r' :: t2) in Hl.
      by rewrite <-app_assoc in Hl.
    + right. exists c, (t0 ++ [picked key r]), (did (EvPeerDelete c (name cfg) key) (inr x)), (picked key r' :: t2).
      split_and!; [done|done|by destruct t0|by rewrite <-app_assoc|]. right. eauto.
Qed.

(** How a read got its value: from the owner's path here, from the near cache, or
    by a call that the owner's node answered. *)
Lemma Get_origin cfg ticks key evs v :
  hasPeers cfg = true → runs (Group.Get cfg ticks key) evs (Val (inr v)) →
  (∃ epoch, did (ans := ans) (EvNearGet (nearKey epoch key)) (Some v) ∈ evs) ∨
  ∃ r, picked key r ∈ evs ∧
    ((pk_self r = true ∧ obtained key v evs) ∨
     ∃ c e1 e2, pk_self r = false ∧ pk_peer r = PeerClient (Some c) ∧ e1 ≠ [] ∧
       evs = e1 ++ did (EvPeerGet c (name cfg) key) (inr (b v)) :: e2).
Proof.
  intros Hp Hr. destruct (Get_provenance _ _ _ _ _ Hp Hr) as (t0 & r & t' & -> & _ & Hpr). destruct Hpr as [t' Hself Hl|r' _ _|c bytes r' before after Hself Hc _ _ <-].
  - right. exists r. split; [set_solver|]. left. split; [done|]. apply (obtained_sub key v t'); [intros a; set_solver|by eapply getLocal_obtained].
  - left. exists (pk_epoch r). set_solver.
  - right. exists r. split; [set_solver|]. right. exists c, (t0 ++ picked key r :: before), (picked key r' :: after).
    split_and!; [done|done|by destruct t0|by rewrite <-app_assoc].
Qed.

(** ** Across nodes *)

Section distributed.
Context {S : Type} `{StoreLaws S ByteView} `{!StoreSweep S, !SweepLaws S ByteView}.
Context (tick : string → Z → Z) (tick_le : ∀ n t, t ≤ tick n t).
Context (nodes : gmap string (node S)) (clocks : string → Z) (ops : string → gmap nat operation).
Implicit Types (gtr early late : gtrace).
Notation dist := (distRun tick nodes clocks ops).

(** In [gtr] every pick of [key] that finds an owner names [o]: the node itself
    exactly on [o], and otherwise a client that reaches [o]. *)
Definition ownedBy gtr (key o : string) : Prop :=
  ∀ n t r, (n, (t, picked key r)) ∈ gtr →
    (pk_self r = true → n = o) ∧ (n = o → pk_ok r = true → pk_self r = true) ∧
    ∀ c, pk_self r = false → pk_peer r = PeerClient (Some c) → cl_addr c = o.

(** Goroutine [w] of node [o] carries out the operation [op] of goroutine [u] of
    node [a]: it is [u], or it handles the request of the operation and began
    after [u] did. *)
Definition carries gtr (a : string) (u : nat) (op : operation) (o : string) (w : nat) : Prop :=
  (a = o ∧ w = u) ∨
  ∃ p1 p2 group h, gtr = p1 ++ p2 ∧ eventsAt a u p1 ≠ [] ∧ eventsAt o w p1 = [] ∧ handlerOf group op = Some h ∧ ops o !! w = Some h.

(** A mutation that has returned was carried out by the owner. *)
Lemma mutation_at_owner early late C m nd u op key o :
  dist (early ++ late) C → ownedBy (early ++ late) key o → nodes !! m = Some nd → hasPeers (nd_cfg nd) = true →
  returned (nd_cfg nd) op (eventsAt m u early) key →
  ∃ w, carries early m u op o w ∧ mutated key (eventsAt o w early).
Proof.
  intros Hrun Hown Hm Hp Hret. assert (∀ r, picked key r ∈ eventsAt m u early → (m, (u, picked key r)) ∈ early ++ late) as Hin.
  { intros r Hr%elem_of_eventsAt. set_solver. }
  destruct (returned_carriedOut _ _ _ _ Hp Hret) as [(r & Hr%Hin%Hown & Hc)|(r & r' & Hr%Hin%Hown & Hr'%Hin%Hown & Hs & Hok & Hs')].
  2:{ destruct Hr as [->%(λ f, f Hs) _], Hr' as [_ [Hs'' _]]. rewrite Hs'' in Hs'; done. }
  destruct Hr as (Hself & _ & Hpeer). destruct Hc as [[Hs Hmut]|(c & e1 & a & e2 & Hs & Hc & Hne & Hev & Ha)].
  { exists u. rewrite <-(Hself Hs). split; [by left|done]. }
  pose proof (Hpeer c Hs Hc) as <-. apply eventsAt_split in Hev as (g1 & g2 & -> & <- & <-).
  assert (∃ h A (hd : config → gprog (error + A)) x, handlerOf (name (nd_cfg nd)) op = Some h ∧
    served nodes ops g1 m u (cl_addr c) (name (nd_cfg nd)) h hd (inr x) ∧
    ∀ cfg evs, runs (hd cfg) evs (Val (inr x)) → mutated key evs) as (h & A & hd & x & Hh & Hserved & Hmut).
  { pose proof (dist_justified _ _ _ _ _ _ g1 m u a (g2 ++ late) Hrun ltac:(by rewrite <-app_assoc)) as Hj.
    destruct Ha as [(ticks & value & -> & ->)|(ticks & y & -> & ->)].
    - destruct (Hj eq_refl) as [x Hx]. eexists _, _, _, x. split_and!; [done|exact Hx|]. intros cfg evs. apply Server_Set_mutated.
    - eexists _, _, _, y. split_and!; [done|exact (Hj y eq_refl)|]. intros cfg evs. apply Server_Delete_mutated. }
  destruct Hserved as (p1 & p2 & w & ndo & -> & Hu & Hw & _ & _ & Ho & Hr). rewrite eventsAt_app, Hu, app_nil_r in Hne.
  exists w. split.
  - right. exists p1, (p2 ++ (m, (u, a)) :: g2), (name (nd_cfg nd)), h. by rewrite <-app_assoc.
  - rewrite !eventsAt_app, Hw. apply (mutated_app _ _ []). by eapply Hmut.
Qed.

(** A value that the owner answered to a goroutine that began in [late] was
    obtained by a handler of the owner, which began after the caller. *)
Lemma answered_at_owner early late C a u ticks key o r c group v e1 e2 :
  dist (early ++ late) C → ownedBy (early ++ late) key o → (a, (u, picked key r)) ∈ early ++ late →
  pk_self r = false → pk_peer r = PeerClient (Some c) → eventsAt a u early = [] → e1 ≠ [] →
  eventsAt a u late = e1 ++ did (EvPeerGet c group key) (inr (b v)) :: e2 →
  ∃ w, carries (early ++ late) a u (OGet ticks key) o w ∧ eventsAt o w early = [] ∧ obtained key v (eventsAt o w late).
Proof.
  intros Hrun Hown Hr Hs Hc Hearly Hne Hev. destruct (Hown a u r Hr) as (_ & _ & Hpeer).
  pose proof (Hpeer c Hs Hc) as <-. apply eventsAt_split in Hev as (l1 & l2 & -> & <- & _).
  pose proof (dist_justified _ _ _ _ _ _ (early ++ l1) a u _ l2 Hrun ltac:(by rewrite <-app_assoc)) as Hj.
  destruct (Hj _ eq_refl) as (p1 & p2 & w & ndo & Heq & Ht & Hw & _ & _ & Ho & Hserve).
  assert (∃ l0, p1 = early ++ l0 ∧ l1 = l0 ++ p2) as (l0 & -> & ->).
  { apply app_eq_inv in Heq as [(k & -> & ->)|(k & -> & ->)]; [|eauto]. rewrite eventsAt_app in Ht. apply app_eq_nil in Ht as [_ Ht]. done. }
  rewrite eventsAt_app in Hw. apply app_eq_nil in Hw as [Hw0 Hw1]. exists w. split_and!; [|done|].
  - right. exists (early ++ l0), (p2 ++ (a, (u, did (EvPeerGet c group key) (inr (b v)))) :: l2), group, (OServeGet (mkRequest group key [] false)).
    split_and!; [by rewrite <-!app_assoc| |by rewrite eventsAt_app, Hw0, Hw1|done|done].
    rewrite !eventsAt_app, Ht, app_nil_r in Hne. rewrite eventsAt_app. intros [_ ?]%app_eq_nil. done.
  - apply (obtained_sub key v (eventsAt (cl_addr c) w p2)); [intros x; rewrite !eventsAt_app; set_solver|].
    apply (answers_obtained (nd_cfg ndo) (OServeGet (mkRequest group key [] false))). done.
Qed.

(** A read is answered from a near copy or by the owner, and then not before the
    read began. *)
Lemma read_at_owner early late C a nd t ticks key o v :
  dist (early ++ late) C → ownedBy (early ++ late) key o → nodes !! a = Some nd → hasPeers (nd_cfg nd) = true →
  eventsAt a t early = [] → runs (Group.Get (nd_cfg nd) ticks key) (eventsAt a t late) (Val (inr v)) →
  (∃ epoch, did (ans := ans) (EvNearGet (nearKey epoch key)) (Some v) ∈ eventsAt a t late) ∨
  ∃ w, carries (early ++ late) a t (OGet ticks key) o w ∧ eventsAt o w early = [] ∧ obtained key v (eventsAt o w late).
Proof.
  intros Hrun Hown Ha Hp Hearly Hget. destruct (Get_origin _ _ _ _ _ Hp Hget) as [Hnear|(r & Hr & Hor)]; [by left|right].
  assert ((a, (t, picked key r)) ∈ early ++ late) as Hin by (apply elem_of_eventsAt in Hr; set_solver).
  destruct Hor as [[Hs Hob]|(c & e1 & e2 & Hs & Hc & Hne & Hev)]; [|by eapply answered_at_owner].
  exists t. destruct (Hown a t r Hin) as [Hself _]. rewrite <-(Hself Hs). split_and!; [by left|done|done].
Qed.

Lemma length_proj n gtr : (length (proj n gtr) ≤ length gtr)%nat.
Proof. unfold proj. rewrite length_fmap. apply length_filter. Qed.

(** What a goroutine of the owner obtained in [late] is nothing older than a
    mutation that had taken effect at the owner in [early]. *)
Lemma obtained_regular early late C o ndo w h key v :
  dist (early ++ late) C → nodes !! o = Some ndo → startOk ndo (clocks o) → Z.of_nat (size (ops o)) < 2 ^ 62 →
  Z.of_nat (length (early ++ late)) < 2 ^ 64 → mutated key (eventsAt o w early) → obtained key v (eventsAt o h late) →
  (∀ cl g, (h, did (ans := ans) (EvFlight key) (Join cl)) ∈ proj o late → (g, did (ans := ans) (EvFlight key) (Lead cl)) ∉ proj o early) →
  ∃ tr1 x tr2, proj o (early ++ late) = tr1 ++ (w, x) :: tr2 ∧ mutates tr1 key x ∧ current (ops o) key v tr2.
Proof.
  intros Hrun Ho Hok Hsz Hlen Hmut Hob Hjoin. destruct (dist_node _ _ _ _ _ _ _ _ Hrun Ho) as (c & _ & Hlive).
  rewrite proj_app in *. eapply (reads_regular (tick o) (tick_le o) ndo (clocks o) (ops o) Hok Hsz); [exact Hlive| |exact Hmut|exact Hob|exact Hjoin].
  rewrite <-proj_app. pose proof (length_proj o (early ++ late)). lia.
Qed.

(** [C2] Reads across nodes are regular.  While every pick of [key] names the owner
    [o]: goroutine [u] of some node runs a [Set] or [Delete] of the key that
    returns nil; then goroutine [t] of some node begins a [Get] of the key, which
    returns [v]; any number of other operations and handlers run on all nodes at
    the same time, and calls may fail.  Then [v] is a near copy; or goroutines [w] and [h]
    of the owner carried out the mutation and the read, and unless [h] joined a load
    that was in flight before the mutation returned, [v] was loaded from the
    owner's source, or written at the owner by a [Set] of the key, after [w]'s
    mutation took effect. *)
Theorem distributed_reads_regular early late C m ndm u op a nda t ticks key o ndo v :
  dist (early ++ late) C → ownedBy (early ++ late) key o →
  nodes !! o = Some ndo → startOk ndo (clocks o) → Z.of_nat (size (ops o)) < 2 ^ 62 → Z.of_nat (length (early ++ late)) < 2 ^ 64 →
  nodes !! m = Some ndm → hasPeers (nd_cfg ndm) = true → returned (nd_cfg ndm) op (eventsAt m u early) key →
  nodes !! a = Some nda → hasPeers (nd_cfg nda) = true →
  eventsAt a t early = [] → runs (Group.Get (nd_cfg nda) ticks key) (eventsAt a t late) (Val (inr v)) →
  (∃ epoch, did (ans := ans) (EvNearGet (nearKey epoch key)) (Some v) ∈ eventsAt a t late) ∨
  ∃ w h, carries early m u op o w ∧ carries (early ++ late) a t (OGet ticks key) o h ∧
    ((∀ cl g, (h, did (ans := ans) (EvFlight key) (Join cl)) ∈ proj o late → (g, did (ans := ans) (EvFlight key) (Lead cl)) ∉ proj o early) →
     ∃ tr1 x tr2, proj o (early ++ late) = tr1 ++ (w, x) :: tr2 ∧ mutates tr1 key x ∧ current (ops o) key v tr2).
Proof.
  intros Hrun Hown Ho Hok Hsz Hlen Hm Hpm Hret Ha Hpa Hearly Hget.
  destruct (mutation_at_owner _ _ _ _ _ _ _ _ _ Hrun Hown Hm Hpm Hret) as (w & Hcw & Hmut).
  destruct (read_at_owner _ _ _ _ _ _ _ _ _ _ Hrun Hown Ha Hpa Hearly Hget) as [Hnear|(h & Hch & _ & Hob)]; [by left|right].
  exists w, h. split_and!; [done|done|]. by eapply obtained_regular.
Qed.
End distributed.

(** ** Two nodes

    A [Set] at one node, carried out by the other, and then a [Get]. *)

Definition dw_A : string := "10.0.0.7:8001".
Definition dw_B : string := "10.0.0.8:8001".
Definition dw_cfg : config := mkGConfig "scores" true false 0 true 10.
Definition dw_node (p : ClientPicker) : node (storeImpl ByteView) := mkNode dw_cfg lw_group p (λ _ _, LoadOk [7]).
Definition dw_nodes : gmap string (node (storeImpl ByteView)) := {[dw_A := dw_node wp1; dw_B := dw_node wp2]}.
Definition dw_set : operation := OSet (λ _, 0%nat) "Sam" [9].
Definition dw_ops (n : string) : gmap nat operation :=
  if decide (n = dw_A) then {[0%nat := dw_set; 1%nat := OGet (λ _, 0%nat) "Sam"]}
  else {[0%nat := OServeSet (mkRequest "scores" "Sam" [9] false); 1%nat := OServeGet (mkRequest "scores" "Sam" [] false)]}.
Definition dw_choose (n : string) (t : nat) (e : ev) : ans e :=
  match e return ans e with EvPeerGet _ _ _ => inr [9] | e => anyAnswer e end.
Definition dw_tick (n : string) : Z → Z := Z.succ.
Definition dw_exec (sched : list (string * nat)) C : gtrace * gmap string (system ans (live (storeImpl ByteView))) :=
  distOutcome dw_tick dw_choose sched C.
Notation dw_dist := (distRun dw_tick dw_nodes (λ _, 0) dw_ops).

Lemma dw_exec_run sched gtr0 C :
  dw_dist gtr0 C → bool_decide (is_Some (distExecute dw_tick dw_choose sched C)) = true →
  (∀ g1 n t a g2, (dw_exec sched C).1 = g1 ++ (n, (t, a)) :: g2 → justified dw_nodes dw_ops (gtr0 ++ g1) n t a) →
  dw_dist (gtr0 ++ (dw_exec sched C).1) (dw_exec sched C).2.
Proof. apply distOutcome_run. Qed.

(** The [Set] turns to its owner, which serves it; the call returns; the [Set]
    goes on to its end. *)
Definition dw_1 := dw_exec (replicate 2 (dw_A, 0%nat) ++ replicate 13 (dw_B, 0%nat)) (startAll dw_nodes (λ _, 0) dw_ops).
Definition dw_2 := dw_exec [(dw_A, 0%nat)] dw_1.2.
Definition dw_3 := dw_exec (replicate 5 (dw_A, 0%nat)) dw_2.2.
Definition dw_early : gtrace := (dw_1.1 ++ dw_2.1) ++ dw_3.1.
(** So does the [Get]. *)
Definition dw_4 := dw_exec (replicate 2 (dw_A, 1%nat) ++ replicate 9 (dw_B, 1%nat)) dw_3.2.
Definition dw_5 := dw_exec [(dw_A, 1%nat)] dw_4.2.
Definition dw_6 := dw_exec (replicate 2 (dw_A, 1%nat)) dw_5.2.
Definition dw_late : gtrace := (dw_4.1 ++ dw_5.1) ++ dw_6.1.

Definition dw_client : Client := mkClient dw_B (3 * Second) 0.

Lemma dw_run : dw_dist (dw_early ++ dw_late) dw_6.2.
Proof.
  assert (dw_dist (dw_1.1 ++ dw_2.1) dw_2.2) as H2.
  { apply dw_exec_run; [|vm_compute; reflexivity|].
    - rewrite <-(app_nil_l dw_1.1). apply dw_exec_run; [constructor|vm_compute; reflexivity|]. apply no_calls. vm_compute. reflexivity.
    - eapply (one_call _ _ _ _ dw_A 0%nat (did (EvPeerSet dw_client "scores" "Sam" [9]) None)); [vm_compute; reflexivity|]. intros _.
      exists [9], (take 2 dw_1.1), (drop 2 dw_1.1), 0%nat, (dw_node wp2).
      split_and!; [by rewrite take_drop|vm_compute; reflexivity|vm_compute; reflexivity|reflexivity|reflexivity|reflexivity|].
      vm_compute eventsAt. repeat (eexists; eexists; split; [reflexivity|]). split; reflexivity. }
  assert (dw_dist dw_early dw_3.2) as H3 by (apply dw_exec_run; [exact H2|vm_compute; reflexivity|apply no_calls; vm_compute; reflexivity]).
  unfold dw_late. rewrite !app_assoc. apply dw_exec_run; [|vm_compute; reflexivity|apply no_calls; vm_compute; reflexivity].
  apply dw_exec_run; [|vm_compute; reflexivity|].
  - apply dw_exec_run; [exact H3|vm_compute; reflexivity|apply no_calls; vm_compute; reflexivity].
  - eapply (one_call _ _ _ _ dw_A 1%nat (did (EvPeerGet dw_client "scores" "Sam") (inr [9]))); [vm_compute; reflexivity|]. intros bytes [= <-].
    exists (dw_early ++ take 2 dw_4.1), (drop 2 dw_4.1), 1%nat, (dw_node wp2).
    split_and!; [by rewrite <-app_assoc, take_drop|vm_compute; reflexivity|vm_compute; reflexivity|reflexivity|reflexivity|reflexivity|].
    vm_compute eventsAt. repeat (eexists; eexists; split; [reflexivity|]). split; reflexivity.
Qed.

(** [ownedBy], event by event. *)
Definition namesOwner (o : string) (x : string * (nat * act (ans := ans))) : Prop :=
  match projT1 x.2.2 as e return ans e → Prop with
  | EvPickOwner _ => λ r, (pk_self r = true → x.1 = o) ∧ (x.1 = o → pk_ok r = true → pk_self r = true) ∧
      ∀ c, pk_self r = false → pk_peer r = PeerClient (Some c) → cl_addr c = o
  | _ => λ _, True
  end (projT2 x.2.2).
Lemma ownedBy_each gtr key o : Forall (namesOwner o) gtr → ownedBy gtr key o.
Proof. intros Hall n t r Hin. rewrite Forall_forall in Hall. exact (Hall _ Hin). Qed.
Ltac names_owner :=
  apply ownedBy_each; match goal with |- Forall _ ?g => let l := fresh in let Hl := fresh in
    assert (∃ l, g = l) as [l Hl] by eauto; rewrite Hl; vm_compute in Hl; subst l end;
  repeat (constructor; [first [exact I|split_and!; [done|done|by intros c _ [= <-]]|split_and!; [done|done|done]]|]); constructor.

Lemma dw_owned : ownedBy (dw_early ++ dw_late) "Sam" dw_B.
Proof. names_owner. Qed.

Lemma distributed_reads_regular_witness :
  (∃ epoch, did (ans := ans) (EvNearGet (nearKey epoch "Sam")) (Some (mkByteView [9])) ∈ eventsAt dw_A 1 dw_late) ∨
  ∃ w h, carries dw_ops dw_early dw_A 0 dw_set dw_B w ∧ carries dw_ops (dw_early ++ dw_late) dw_A 1 (OGet (λ _, 0%nat) "Sam") dw_B h ∧
    ((∀ cl g, (h, did (ans := ans) (EvFlight "Sam") (Join cl)) ∈ proj dw_B dw_late → (g, did (ans := ans) (EvFlight "Sam") (Lead cl)) ∉ proj dw_B dw_early) →
     ∃ tr1 x tr2, proj dw_B (dw_early ++ dw_late) = tr1 ++ (w, x) :: tr2 ∧ mutates tr1 "Sam" x ∧ current (dw_ops dw_B) "Sam" (mkByteView [9]) tr2).
Proof.
  apply (distributed_reads_regular dw_tick (λ _ t, Z.le_succ_diag_r t) dw_nodes (λ _, 0) dw_ops dw_early dw_late dw_6.2
    dw_A (dw_node wp1) 0%nat dw_set dw_A (dw_node wp1) 1%nat (λ _, 0%nat) "Sam" dw_B (dw_node wp2)).
  - exact dw_run.
  - exact dw_owned.
  - reflexivity.
  - exact (conj (proj1 lw_ok) (proj2 lw_ok)).
  - vm_compute. reflexivity.
  - vm_compute. reflexivity.
  - reflexivity.
  - reflexivity.
  - split; [reflexivity|]. vm_compute eventsAt. repeat (eexists; eexists; split; [reflexivity|]). split; reflexivity.
  - reflexivity.
  - reflexivity.
  - vm_compute. reflexivity.
  - vm_compute eventsAt. repeat (eexists; eexists; split; [reflexivity|]). split; reflexivity.
Defined.
