(* ===== verification/Staleness.v ===== *)
(** * How far near copies lag behind the owner

    While a key has one owner, a near copy found after a mutation of the key was
    acknowledged somewhere is nothing older than the mutation, unless it was made
    by an operation that had begun before the mutation returned; and in every case
    it was made less than the time to live of near copies before. *)

From S2P Require Import Prelude Store ByteView Errors Cache CacheFacts Peers PeersFacts Singleflight Prog Interleave Group Rpc GroupFacts Node Concurrent Discipline SyncFacts ConcurrentFacts OwnerCache Sweep Live Watch LiveFacts Reads NearCopies Distributed DistributedFacts.

Section staleness.
Context {S : Type} `{StoreLaws S ByteView} `{!StoreSweep S, !SweepLaws S ByteView}.
Context (tick : string → Z → Z) (tick_le : ∀ n t, t ≤ tick n t).
Context (nodes : gmap string (node S)) (clocks : string → Z) (ops : string → gmap nat operation).
Implicit Types (gtr early late : gtrace).
Notation dist := (distRun tick nodes clocks ops).

(** The near copy of [v] that node [a] finds after [gtr] was made by goroutine [r]:
    it was not invalidated since, and by all clock readings of the node less than
    [ttl] has passed since. *)
Definition copiedAt gtr (a : string) (nk : string) (v : ByteView) (ttl : Z) (r : nat) : Prop :=
  ∃ at_ x g1 g2, gtr = g1 ++ (a, (r, did (EvNearAddExp nk v at_) x)) :: g2 ∧
    (∀ q d, (a, (q, did (ans := ans) (EvNearDelete nk) d)) ∉ g2) ∧
    (∀ q q' M N, (a, (q, did (ans := ans) EvNow M)) ∈ g2 → (a, (q', did (ans := ans) EvNow N)) ∈ gtr → N < M + ttl).

(** Where the copy came from: it was answered to [r] in [gtr], by the picked owner. *)
Lemma copy_origin gtr C a nd t epoch key v post :
  dist (gtr ++ (a, (t, did (EvNearGet (nearKey epoch key)) (Some v))) :: post) C → nodes !! a = Some nd → noCopies nd →
  ∃ r, copiedAt gtr a (nearKey epoch key) v (nearTTL (nd_cfg nd)) r ∧
    ((∃ ticks, ops a !! r = Some (OSet ticks key (b v))) ∨
     ∃ ticks pk c e1 e2, ops a !! r = Some (OGet ticks key) ∧
       eventsAt a r gtr = e1 ++ did (EvPeerGet c (name (nd_cfg nd)) key) (inr (b v)) :: e2 ∧
       picked key pk ∈ e1 ∧ pk_self pk = false ∧ pk_peer pk = PeerClient (Some c)).
Proof.
  intros Hrun Ha Hno. destruct (dist_node _ _ _ _ _ _ _ _ Hrun Ha) as (c & _ & Hlive). rewrite proj_app in Hlive.
  unfold proj at 2 in Hlive. rewrite filter_cons_True in Hlive by done.
  destruct (near_copy_origin (tick a) (tick_le a) nd (clocks a) (ops a) _ _ _ _ _ _ _ Hno Hlive)
    as (h1 & r & at_ & x & h2 & op & Hp & Hop & Hor & Hdel & Hnow).
  apply proj_split in Hp as (g1 & g2 & -> & <- & <-). exists r. split.
  - exists at_, x, g1, g2. split_and!; [done| |].
    + intros q d Hin%elem_of_proj. by eapply Hdel.
    + intros q q' M N HM%elem_of_proj HN%elem_of_proj. by eapply Hnow.
  - destruct Hor as [[ticks ->]|[[ticks ->] (pk & cl & e1 & e2 & He & Hpk & Hs & Hc)]]; [by left; eauto|right].
    eexists ticks, pk, cl, e1, _. split_and!; [done| |done..]. rewrite eventsAt_app. unfold eventsAt at 1. rewrite He. by rewrite <-app_assoc.
Qed.

(** [C3] The staleness of near copies is bounded.  While every pick of [key] names the
    owner [o]: a [Set] or [Delete] of the key at some node has returned nil, and
    then node [a] finds [v] for the key in its near cache, under any epoch.  The
    copy was made by a goroutine [r] of [a], has not been invalidated there since, and was
    made less than the time to live of near copies before.  If [r] began after the
    mutation had returned, then [r] was a [Set] of the key to [v], or [v] was
    obtained for [r] by a goroutine [h] of the owner and, unless [h] joined a load that was
    in flight before the mutation returned, was loaded from the owner's source or
    written at the owner by a [Set] of the key after the mutation took effect. *)
Theorem near_copies_staleness early pre C m ndm u op a nda t epoch key o ndo v post :
  let late := pre ++ (a, (t, did (EvNearGet (nearKey epoch key)) (Some v))) :: post in
  dist (early ++ late) C → ownedBy (early ++ late) key o →
  nodes !! o = Some ndo → startOk ndo (clocks o) → Z.of_nat (size (ops o)) < 2 ^ 62 → Z.of_nat (length (early ++ late)) < 2 ^ 64 →
  nodes !! m = Some ndm → hasPeers (nd_cfg ndm) = true → returned (nd_cfg ndm) op (eventsAt m u early) key →
  nodes !! a = Some nda → noCopies nda →
  ∃ w r, carries ops early m u op o w ∧ copiedAt (early ++ pre) a (nearKey epoch key) v (nearTTL (nd_cfg nda)) r ∧
    (eventsAt a r early = [] →
     (∃ ticks, ops a !! r = Some (OSet ticks key (b v))) ∨
     ∃ ticks h, ops a !! r = Some (OGet ticks key) ∧ carries ops (early ++ late) a r (OGet ticks key) o h ∧
       ((∀ cl g, (h, did (ans := ans) (EvFlight key) (Join cl)) ∈ proj o late → (g, did (ans := ans) (EvFlight key) (Lead cl)) ∉ proj o early) →
        ∃ tr1 x tr2, proj o (early ++ late) = tr1 ++ (w, x) :: tr2 ∧ mutates tr1 key x ∧ current (ops o) key v tr2)).
Proof.
  intros late Hrun Hown Ho Hok Hsz Hlen Hm Hpm Hret Ha Hno.
  destruct (mutation_at_owner tick tick_le nodes clocks ops _ _ _ _ _ _ _ _ _ Hrun Hown Hm Hpm Hret) as (w & Hcw & Hmut).
  pose proof Hrun as Hrun'. unfold late in Hrun'. rewrite app_assoc in Hrun'.
  destruct (copy_origin _ _ _ _ _ _ _ _ _ Hrun' Ha Hno) as (r & Hcopy & Hor). exists w, r. split_and!; [done|done|]. intros Hr.
  destruct Hor as [|(ticks & pk & c & e1 & e2 & Hop & He & Hpk & Hs & Hc)]; [by left|right].
  rewrite eventsAt_app, Hr in He. cbn in He.
  destruct (answered_at_owner tick tick_le nodes clocks ops early late C a r ticks key o pk c (name (nd_cfg nda)) v e1
    (e2 ++ eventsAt a r ((a, (t, did (EvNearGet (nearKey epoch key)) (Some v))) :: post))) as (h & Hch & _ & Hob); try done.
  - apply elem_of_app. right. unfold late. apply elem_of_app. left. apply elem_of_eventsAt. rewrite He. set_solver.
  - intros ->. by apply elem_of_nil in Hpk.
  - unfold late. rewrite eventsAt_app, He. by rewrite <-app_assoc.
  - exists ticks, h. split_and!; [done|done|]. by eapply obtained_regular.
Qed.
End staleness.

(** ** Two nodes with near caches

    A [Set] at the owner; then a [Get] at the other node, which the owner answers,
    and a second one there, which finds the copy. *)

Definition sw_node (p : ClientPicker) : node (storeImpl ByteView) := mkNode nw_cfg (with_near (Some wc) lw_group) p (λ _ _, LoadOk [7]).
Definition sw_nodes : gmap string (node (storeImpl ByteView)) := {[dw_A := sw_node wp1; dw_B := sw_node wp2]}.
Definition sw_ops (n : string) : gmap nat operation :=
  if decide (n = dw_A) then nw_ops else {[0%nat := dw_set; 1%nat := OServeGet (mkRequest "scores" "Sam" [] false)]}.
Definition sw_exec (sched : list (string * nat)) C : gtrace * gmap string (system ans (live (storeImpl ByteView))) :=
  distOutcome dw_tick dw_choose sched C.
Notation sw_dist := (distRun dw_tick sw_nodes (λ _, 0) sw_ops).

Lemma sw_exec_run sched gtr0 C :
  sw_dist gtr0 C → bool_decide (is_Some (distExecute dw_tick dw_choose sched C)) = true →
  (∀ g1 n t a g2, (sw_exec sched C).1 = g1 ++ (n, (t, a)) :: g2 → justified sw_nodes sw_ops (gtr0 ++ g1) n t a) →
  sw_dist (gtr0 ++ (sw_exec sched C).1) (sw_exec sched C).2.
Proof. apply distOutcome_run. Qed.

Definition sw_1 := sw_exec (replicate 24 (dw_B, 0%nat)) (startAll sw_nodes (λ _, 0) sw_ops).
Definition sw_2 := sw_exec (replicate 4 (dw_A, 0%nat) ++ replicate 9 (dw_B, 1%nat)) sw_1.2.
Definition sw_3 := sw_exec [(dw_A, 0%nat)] sw_2.2.
Definition sw_4 := sw_exec (replicate 4 (dw_A, 0%nat) ++ replicate 3 (dw_A, 1%nat)) sw_3.2.
Definition sw_pre : gtrace := (sw_2.1 ++ sw_3.1) ++ take 6 sw_4.1.
Definition sw_found : string * (nat * act (ans := ans)) := (dw_A, (1%nat, did (EvNearGet (nearKey 2 "Sam")) (Some (mkByteView [9])))).

Lemma sw_run : sw_dist (sw_1.1 ++ sw_pre ++ [sw_found]) sw_4.2.
Proof.
  assert (sw_1.1 ++ sw_pre ++ [sw_found] = ((sw_1.1 ++ sw_2.1) ++ sw_3.1) ++ sw_4.1) as -> by (vm_compute; reflexivity).
  apply sw_exec_run; [|vm_compute; reflexivity|apply no_calls; vm_compute; reflexivity].
  apply sw_exec_run; [|vm_compute; reflexivity|].
  - apply sw_exec_run; [|vm_compute; reflexivity|apply no_calls; vm_compute; reflexivity].
    rewrite <-(app_nil_l sw_1.1). apply sw_exec_run; [constructor|vm_compute; reflexivity|apply no_calls; vm_compute; reflexivity].
  - eapply (one_call _ _ _ _ dw_A 0%nat (did (EvPeerGet dw_client "scores" "Sam") (inr [9]))); [vm_compute; reflexivity|]. intros bytes [= <-].
    exists (sw_1.1 ++ take 4 sw_2.1), (drop 4 sw_2.1), 1%nat, (sw_node wp2).
    split_and!; [by rewrite <-app_assoc, take_drop|vm_compute; reflexivity|vm_compute; reflexivity|reflexivity|reflexivity|reflexivity|].
    vm_compute eventsAt. repeat (eexists; eexists; split; [reflexivity|]). split; reflexivity.
Qed.

Lemma sw_owned : ownedBy (sw_1.1 ++ sw_pre ++ [sw_found]) "Sam" dw_B.
Proof. names_owner. Qed.

Lemma near_copies_staleness_witness :
  ∃ w r, carries sw_ops sw_1.1 dw_B 0 dw_set dw_B w ∧ copiedAt (sw_1.1 ++ sw_pre) dw_A "2:Sam" (mkByteView [9]) 30 r ∧
    (eventsAt dw_A r sw_1.1 = [] →
     (∃ ticks, sw_ops dw_A !! r = Some (OSet ticks "Sam" [9])) ∨
     ∃ ticks h, sw_ops dw_A !! r = Some (OGet ticks "Sam") ∧ carries sw_ops (sw_1.1 ++ sw_pre ++ [sw_found]) dw_A r (OGet ticks "Sam") dw_B h ∧
       ((∀ cl g, (h, did (ans := ans) (EvFlight "Sam") (Join cl)) ∈ proj dw_B (sw_pre ++ [sw_found]) →
          (g, did (ans := ans) (EvFlight "Sam") (Lead cl)) ∉ proj dw_B sw_1.1) →
        ∃ tr1 x tr2, proj dw_B (sw_1.1 ++ sw_pre ++ [sw_found]) = tr1 ++ (w, x) :: tr2 ∧ mutates tr1 "Sam" x ∧
          current (sw_ops dw_B) "Sam" (mkByteView [9]) tr2)).
Proof.
  apply (near_copies_staleness dw_tick (λ _ t, Z.le_succ_diag_r t) sw_nodes (λ _, 0) sw_ops sw_1.1 sw_pre sw_4.2
    dw_B (sw_node wp2) 0%nat dw_set dw_A (sw_node wp1) 1%nat 2 "Sam" dw_B (sw_node wp2) (mkByteView [9]) []).
  - exact sw_run.
  - exact sw_owned.
  - reflexivity.
  - exact (conj (proj1 lw_ok) (proj2 lw_ok)).
  - vm_compute. reflexivity.
  - vm_compute. reflexivity.
  - reflexivity.
  - reflexivity.
  - split; [reflexivity|]. vm_compute eventsAt. repeat (eexists; eexists; split; [reflexivity|]). split; reflexivity.
  - reflexivity.
  - exact nw_empty.
Defined.
