(* ===== verification/Progress.v ===== *)
(** * Progress of concurrent operations

    No interleaving of operations of a group gets stuck, and every one ends. *)

From S2P Require Import Prelude Store ByteView Errors Cache Peers Singleflight Prog Interleave Group Rpc Node Concurrent Discipline SyncFacts ConcurrentFacts.

Section progress.
Context {S : Type}.
Implicit Types (g : Node.Group S) (L : gmap nat local) (l : local) (t : nat) (c : gsystem S).

(** ** Nobody waits for ever *)

Definition waits (e : ev) : bool := match e with EvLock _ | EvOwnerLock | EvFlightWait _ => true | _ => false end.

Lemma effect_enabled t e (sh : shared S) : waits e = false → is_Some (effect t e sh).
Proof. destruct e; simpl; try done; try (by eauto). unfold flightEnter. destruct (loader (sh_group sh) !! key); eauto. Qed.

(** What makes an event wait, of a goroutine that obeys. *)
Lemma obey_waits e x l l' :
  obey e x l = Some l' → waits e = true →
  lockFree l = true ∧ (l_wait l = None ∨ l_lead l = None ∧ ∃ w, e = EvFlightWait w ∧ l_wait l = Some w).
Proof.
  intros Ho Hw. destruct e; try done; cbn [obey] in Ho; apply guard_Some in Ho as [Ho _].
  - apply andb_true_iff in Ho as [Ho Hn]. apply bool_decide_eq_true in Hn. auto.
  - apply andb_true_iff in Ho as [Ho Hn]. apply andb_true_iff in Ho as [Ho _]. apply bool_decide_eq_true in Hn. auto.
  - apply andb_true_iff in Ho as [Ho Hn]. apply andb_true_iff in Ho as [Ho Hl].
    apply bool_decide_eq_true in Hn. apply bool_decide_eq_true in Hl. split; [done|]. right. split; [done|]. by exists c.
Qed.

(** The holder of a mutex can go on. *)
Lemma holder_steps c L t l : sync c L → L !! t = Some l → lockFree l = false → canStep effect c.
Proof.
  intros HI Hl Hlk. destruct (busy_next _ _ c L t l (in_pool _ _ HI) Hl) as (e & k & Hp & Ho); [by intros ->|].
  eapply (enabled_step _ anyAnswer); [done|]. apply effect_enabled. destruct (waits e) eqn:Hw; [|done].
  destruct (Ho (anyAnswer e)) as [l' Ho']. by destruct (obey_waits _ _ _ _ Ho' Hw) as [? _]; congruence.
Qed.

(** A goroutine whose next event does not wait for a call can go on, or the
    holder of the mutex it waits for can. *)
Lemma mutex_steps c L t l e k :
  sync c L → L !! t = Some l → sy_pool c !! t = Some (Vis e k) → (∀ w, e ≠ EvFlightWait w) → canStep effect c.
Proof.
  intros HI Hl Hp Hne. destruct (effect t e (sy_shared c)) as [r|] eqn:He; [eapply (enabled_step _ anyAnswer); [done|by rewrite He]|].
  destruct (waits e) eqn:Hw; [|destruct (effect_enabled t e (sy_shared c) Hw); congruence].
  destruct e; try done; effect_in He.
  - destruct (sh_owner _) as [u|] eqn:Hu; [|done]. apply (in_owner _ _ HI) in Hu as (lu & Hlu & Hk).
    eapply (holder_steps _ _ u lu); [done|done|]. unfold lockFree. by rewrite Hk, andb_false_r.
  - destruct (sh_locks _ !! st) as [u|] eqn:Hu; [|done]. apply (in_lock _ _ HI) in Hu as (lu & Hlu & Hk).
    eapply (holder_steps _ _ u lu); [done|done|]. apply andb_true_iff in Hk as [_ Hk]. unfold lockFree. by rewrite Hk.
  - by edestruct Hne.
Qed.

(** While a goroutine has not finished, some goroutine can take a step. *)
Lemma unfinished_steps c L t p : sync c L → sy_pool c !! t = Some p → finished p = false → canStep effect c.
Proof.
  intros HI Hp Hf. destruct p as [a|v|e k]; [done|done|]. clear Hf.
  destruct (pooled_local _ _ _ _ _ _ (in_pool _ _ HI) Hp) as [l Hl].
  destruct (effect t e (sy_shared c)) as [r|] eqn:He; [eapply (enabled_step _ anyAnswer); [done|by rewrite He]|].
  assert ((∃ w, e = EvFlightWait w) ∨ ∀ w, e ≠ EvFlightWait w) as [[w ->]|Hne] by (destruct e; eauto); [|by eapply mutex_steps].
  pose proof (po_obeys _ _ _ _ (in_pool _ _ HI) _ _ _ Hp Hl (anyAnswer (EvFlightWait w))) as Ho.
  destruct (obey (EvFlightWait w) _ l) as [l'|] eqn:Hob; [|done]. clear Ho. obey_inv Hob.
  destruct (fi_wait _ _ _ _ (in_flight _ _ HI) _ _ _ Hl Hob) as [[o Hd]|[k' Hk]].
  { effect_in He; cbn [ans] in He. by rewrite Hd in He. }
  apply (fi_map _ _ _ _ (in_flight _ _ HI)) in Hk as (u & lu & Hlu & Hlead).
  destruct (busy_next _ _ c L u lu (in_pool _ _ HI) Hlu) as (e' & k2 & Hp' & Ho'); [by intros ->|].
  eapply (mutex_steps _ _ u lu e' k2); [done|done|done|]. intros w' ->. destruct (Ho' (anyAnswer _)) as [l2 Ho2].
  obey_inv Ho2. congruence.
Qed.

(** [C13] No deadlock, and every schedule ends: whatever the goroutines have done
    and been answered so far, while one of them has not finished some goroutine
    can take its next step, no schedule goes on for ever, and the calls can be
    run to their end.  A goroutine waits only for a mutex or for a call in
    flight; who holds a mutex never waits, and who leads a call waits at most
    for a mutex. *)
Theorem concurrent_no_deadlock cfg g ops tr c :
  grun (start cfg g ops) tr c → Z.of_nat (size ops) < 2 ^ 62 →
  (allFinished c = false → canStep effect c) ∧ Acc (after effect) c ∧ ∃ tr' c', grun c tr' c' ∧ allFinished c' = true.
Proof.
  intros Hrun Hsz. destruct (sync_run _ _ _ _ _ Hrun Hsz) as (L & HI & HL). split_and!.
  - intros (t & p & Hp & Hf)%unfinished. by eapply unfinished_steps.
  - apply after_wf.
  - apply (run_to_end _ (λ c, ∃ L, sync c L ∧ size L = size ops)); [| |eauto].
    + intros c1 [t a] c2 (L1 & HI1 & HL1) Hs. destruct (sync_step _ _ _ _ _ HI1 Hs) as (l & l' & (_ & Ht & _) & HI2); [lia|].
      exists (<[t := l']> L1). split; [done|]. rewrite map_size_insert_Some by eauto. done.
    + intros c1 (L1 & HI1 & _) (t & p & Hp & Hf)%unfinished. by eapply unfinished_steps.
Qed.
End progress.

Lemma concurrent_no_deadlock_witness :
  stepOnce effect (λ _, anyAnswer) 1%nat ((w_result (replicate 15 0%nat ++ [1; 1]%nat)).2) = None ∧
  (allFinished (w_result (replicate 15 0%nat ++ [1; 1]%nat)).2 = false →
   canStep effect (w_result (replicate 15 0%nat ++ [1; 1]%nat)).2).
Proof.
  split; [vm_compute; reflexivity|].
  apply (concurrent_no_deadlock w_cfg w_group w_ops (w_result (replicate 15 0%nat ++ [1; 1]%nat)).1).
  - apply outcomeOf_run. vm_compute. reflexivity.
  - vm_compute. reflexivity.
Defined.
