(* ===== verification/Server.v ===== *)
(** * The server's lifecycle (server.go, registry/register.go)

    Construction of a server from its options, and its methods [Start] and
    [Stop], which may run at the same time: the goroutine of [Start] registers
    the node, serves and unregisters it; [Stop] cancels the server's context,
    unregisters the node, stops the gRPC server and closes the etcd client.
    What the operating system and etcd answer is free; the gRPC server has handlers
    that run while it serves, and waits for them when it is stopped. *)

From S2P Require Import Prelude Errors Registry Peers Prog Interleave.
#[local] Open Scope prog_scope.

(** ** Options *)

Record ServerOptions := mkServerOptions {
  so_EtcdEndpoints : list string;
  so_DialTimeout : Z;
  so_LeaseTTL : Z;
  so_MaxMsgSize : Z;
  so_TLS : bool;
  so_CertFile : string;
  so_KeyFile : string;
  so_AdvertiseAddr : string
}.

Definition DefaultServerOptions : ServerOptions :=
  mkServerOptions ["localhost:2379"] (5 * Second) 10 (Z.shiftl 4 20) false "" "" "".

(** Any function on the options, whose fields are exported; the package has five. *)
Definition ServerOption : Type := ServerOptions → ServerOptions.

Definition WithEtcdEndpoints (endpoints : list string) : ServerOption := λ o,
  mkServerOptions endpoints (so_DialTimeout o) (so_LeaseTTL o) (so_MaxMsgSize o) (so_TLS o) (so_CertFile o)
    (so_KeyFile o) (so_AdvertiseAddr o).
Definition WithDialTimeout (timeout : Z) : ServerOption := λ o,
  if 0 <? timeout
  then mkServerOptions (so_EtcdEndpoints o) timeout (so_LeaseTTL o) (so_MaxMsgSize o) (so_TLS o) (so_CertFile o)
         (so_KeyFile o) (so_AdvertiseAddr o)
  else o.
Definition WithLeaseTTL (seconds : Z) : ServerOption := λ o,
  if 0 <? seconds
  then mkServerOptions (so_EtcdEndpoints o) (so_DialTimeout o) seconds (so_MaxMsgSize o) (so_TLS o) (so_CertFile o)
         (so_KeyFile o) (so_AdvertiseAddr o)
  else o.
Definition WithAdvertiseAddress (addr : string) : ServerOption := λ o,
  mkServerOptions (so_EtcdEndpoints o) (so_DialTimeout o) (so_LeaseTTL o) (so_MaxMsgSize o) (so_TLS o)
    (so_CertFile o) (so_KeyFile o) addr.
Definition WithTLS (certFile keyFile : string) : ServerOption := λ o,
  mkServerOptions (so_EtcdEndpoints o) (so_DialTimeout o) (so_LeaseTTL o) (so_MaxMsgSize o) true certFile keyFile
    (so_AdvertiseAddr o).

Definition applyServerOptions (opts : list ServerOption) : ServerOptions :=
  foldl (λ o (opt : ServerOption), opt o) DefaultServerOptions opts.

(** ** Construction *)

(** The options a gRPC server is made with, and the services registered on it. *)
Inductive grpcOption := MaxRecvMsgSize (n : Z) | MaxSendMsgSize (n : Z) | Creds (certFile keyFile : string).
Inductive grpcService := LocacheService | HealthService (serving : string).

(** The fields of a [Server] that [Start] and [Stop] do not change; the others
    are in [life] below. *)
Record Server := mkServer {
  listenAddr : string;
  advertiseAddr : string;
  sv_svcName : string;
  sv_grpc : list grpcOption * list grpcService;
  sv_etcd : bool;                              (* s.etcdCli != nil *)
  sv_opts : ServerOptions
}.

(** The calls that [NewServer] makes on the etcd library and the file system, each
    answered by its error, if any. *)
Inductive nev :=
| NvEtcdNew (endpoints : list string) (dialTimeout : Z)    (* clientv3.New *)
| NvLoadTLS (certFile keyFile : string)                    (* loadTLSCredentials *)
| NvEtcdClose.                                             (* etcdCli.Close() *)
Definition nans (e : nev) : Type := option error.
Notation ndo e := (event (ans := nans) e) (only parsing).

Definition NewServerP (ifaces : error + list netAddr) (addr svcName : string) (opts : list ServerOption) :
    prog nans (error + Server) :=
  let options := applyServerOptions opts in
  let svcName := if decide (svcName = "") then defaultSvcName else svcName in
  let advertiseSource := if decide (so_AdvertiseAddr options ≠ "") then so_AdvertiseAddr options else addr in
  match NormalizeAddress ifaces advertiseSource with
  | inl err => Ret (inl err)
  | inr advertiseAddr =>
      err <- ndo (NvEtcdNew (so_EtcdEndpoints options) (so_DialTimeout options)) ;;
      match (err : option error) with
      | Some err => Ret (inl (Wrap [Lit "create etcd client: "] err []))
      | None =>
          let serverOpts := [MaxRecvMsgSize (so_MaxMsgSize options); MaxSendMsgSize (so_MaxMsgSize options)] in
          let finish serverOpts :=
            Ret (inr (mkServer addr advertiseAddr svcName (serverOpts, [LocacheService; HealthService svcName]) true options)) in
          if so_TLS options then
            err <- ndo (NvLoadTLS (so_CertFile options) (so_KeyFile options)) ;;
            match (err : option error) with
            | Some err => ndo NvEtcdClose ;;; Ret (inl (Wrap [Lit "load TLS credentials: "] err []))
            | None => finish (serverOpts ++ [Creds (so_CertFile options) (so_KeyFile options)])
            end
          else finish serverOpts
      end
  end.

(** [etcdNew] and [loadTLS] answer the calls; the state is the number of etcd
    clients that are open. *)
Definition newHandle (etcdNew : list string → Z → option error) (loadTLS : string → string → option error)
    (e : nev) (clients : Z) : Z * nans e :=
  match e with
  | NvEtcdNew endpoints timeout =>
      let err := etcdNew endpoints timeout in (match err with Some _ => clients | None => clients + 1 end, err)
  | NvLoadTLS certFile keyFile => (clients, loadTLS certFile keyFile)
  | NvEtcdClose => (clients - 1, None)
  end.

(** [NewServer], and the number of etcd clients that it leaves open. *)
Definition NewServer (ifaces : error + list netAddr) (etcdNew : list string → Z → option error)
    (loadTLS : string → string → option error) (addr svcName : string) (opts : list ServerOption) :
    (error + Server) * Z :=
  match interp (newHandle etcdNew loadTLS) (NewServerP ifaces addr svcName opts) 0 with
  | (clients, Val r) => (r, clients)
  | (clients, Boom v) => (inl (Text [Lit v]), clients)
  end.

Definition Address (s : Server) : string := advertiseAddr s.

(** [tls.LoadX509KeyPair] is an argument; the credentials carry the pair and the
    least version. *)
Definition VersionTLS12 : Z := 771.
Definition loadTLSCredentials {Cert} (LoadX509KeyPair : string → string → error + Cert) (certFile keyFile : string) :
    error + (Cert * Z) :=
  match LoadX509KeyPair certFile keyFile with inl err => inl err | inr cert => inr (cert, VersionTLS12) end.

(** ** Events of the lifecycle

    A registration is named by its address in the heap, a listener by the
    number the operating system gave it. *)

Inductive sev :=
| SvListen (addr : string)                       (* net.Listen *)
| SvLisClose (lis : nat)
| SvGrant (ttl : Z)                              (* cli.Grant *)
| SvPut (key value : string) (lease : Z)         (* cli.Put *)
| SvKeepAlive (lease : Z)                        (* cli.KeepAlive *)
| SvNewReg (lease : Z)                           (* &Registration{...}, go func *)
| SvLock                                         (* s.mu *)
| SvUnlock
| SvSetReg (r lis : nat)                         (* s.registration, s.listener = reg, lis *)
| SvGetReg                                       (* s.registration *)
| SvServe (lis : nat)                            (* s.grpcServer.Serve: entry *)
| SvServeEnd (lis : nat)                         (* s.grpcServer.Serve: its return *)
| SvCtxErr                                       (* s.ctx.Err() != nil *)
| SvCancel                                       (* s.cancel() *)
| SvOnce (r : nat)                               (* r.once.Do: entry *)
| SvRegCancel (r : nat)                          (* r.cancel() *)
| SvWaitDone (r : nat)                           (* select on r.done and ctx.Done() *)
| SvRevoke (r : nat) (lease : Z)                 (* r.cli.Revoke *)
| SvOnceEnd (r : nat)                            (* r.once.Do: the function has returned *)
| SvStopOnce                                     (* s.stopOnce.Do: entry *)
| SvGracefulStop                                 (* s.grpcServer.GracefulStop: entry *)
| SvDrained                                      (* s.grpcServer.GracefulStop: its return *)
| SvEtcdClose                                    (* s.etcdCli.Close() *)
| SvStopEnd                                      (* s.stopOnce.Do: the function has returned *)
| SvRpc                                          (* a call arrives at the gRPC server *)
| SvRpcEnd                                       (* its handler has returned *)
| SvLisFail (lis : nat) (err : error).           (* accepting connections fails *)

(** The entry of a [sync.Once] answers whether the function is to be run, the
    select whether the context ended first, the entry of [Serve] whether the server
    has not been stopped yet, the arrival of a call whether it is accepted. *)
Definition sans (e : sev) : Type :=
  match e with
  | SvListen _ => error + nat
  | SvGrant _ => error + Z
  | SvPut _ _ _ | SvKeepAlive _ | SvServeEnd _ | SvWaitDone _ | SvRevoke _ _ | SvEtcdClose => option error
  | SvNewReg _ => nat
  | SvGetReg => option (nat * Z)
  | SvCtxErr | SvOnce _ | SvStopOnce | SvServe _ | SvRpc => bool
  | _ => unit
  end.

Notation sprog := (prog sans).
Notation sdo e := (event (ans := sans) e) (only parsing).

(** ** The methods

    A registration is its name and its lease. *)

Definition RegisterP (cli : bool) (svcName addr : string) (ttl : Z) : sprog (error + (nat * Z)) :=
  if negb cli then Ret (inl (Text [Lit "nil etcd client"]))
  else
    let ttl := if ttl <=? 0 then LeaseTTL DefaultConfig else ttl in
    lease <- sdo (SvGrant ttl) ;;
    match lease with
    | inl err => Ret (inl (Wrap [Lit "grant etcd lease: "] err []))
    | inr leaseID =>
        err <- sdo (SvPut (ServiceKey svcName addr) addr leaseID) ;;
        match err with
        | Some err => Ret (inl (Wrap [Lit "register service in etcd: "] err []))
        | None =>
            err <- sdo (SvKeepAlive leaseID) ;;
            match err with
            | Some err => Ret (inl (Wrap [Lit "keep etcd lease alive: "] err []))
            | None => r <- sdo (SvNewReg leaseID) ;; Ret (inr (r : nat, leaseID))
            end
        end
    end.

Definition CloseP (reg : nat * Z) : sprog (option error) :=
  let '(r, leaseID) := reg in
  run <- sdo (SvOnce r) ;;
  if (run : bool) then
    finally
      (sdo (SvRegCancel r) ;;;
       revokeErr <- sdo (SvWaitDone r) ;;
       err <- sdo (SvRevoke r leaseID) ;;
       Ret (match err, revokeErr with Some _, None => err | _, _ => revokeErr end))
      (sdo (SvOnceEnd r))
  else Ret None.

Section methods.
Context (ErrServerStopped : error).              (* grpc.ErrServerStopped *)
Context (isServerStopped : error → bool).       (* errors.Is(err, grpc.ErrServerStopped) *)

(** [Serve] on a stopped server returns [ErrServerStopped] at once. *)
Definition Serve (lis : nat) : sprog (option error) :=
  serving <- sdo (SvServe lis) ;;
  if (serving : bool) then sdo (SvServeEnd lis) else Ret (Some ErrServerStopped).

Definition Start (s : Server) : sprog (option error) :=
  lis <- sdo (SvListen (listenAddr s)) ;;
  match lis with
  | inl err => Ret (Some (Wrap [Lit "listen on "; Lit (listenAddr s); Lit ": "] err []))
  | inr lis =>
      reg <- RegisterP (sv_etcd s) (sv_svcName s) (advertiseAddr s) (so_LeaseTTL (sv_opts s)) ;;
      match reg with
      | inl err => sdo (SvLisClose lis) ;;; Ret (Some (Wrap [Lit "register locache service: "] err []))
      | inr reg =>
          sdo SvLock ;;;
          sdo (SvSetReg reg.1 lis) ;;;
          sdo SvUnlock ;;;
          finally
            (err <- Serve lis ;;
             match err with
             | Some e =>
                 if negb (isServerStopped e) then
                   ended <- sdo SvCtxErr ;;
                   Ret (if (ended : bool) then None else err)
                 else Ret None
             | None => Ret None
             end)
            (CloseP reg ;;; Ret tt)
      end
  end.

Definition Stop (s : Server) : sprog unit :=
  run <- sdo SvStopOnce ;;
  if (run : bool) then
    finally
      (sdo SvCancel ;;;
       sdo SvLock ;;;
       reg <- sdo SvGetReg ;;
       sdo SvUnlock ;;;
       match reg with Some reg => CloseP reg ;;; Ret tt | None => Ret tt end ;;;
       sdo SvGracefulStop ;;;
       sdo SvDrained ;;;
       (if sv_etcd s then sdo SvEtcdClose ;;; Ret tt else Ret tt))
      (sdo SvStopEnd)
  else Ret tt.

(** The calls of [Start] and [Stop], and what else happens to the gRPC server: a
    call of a client, and the failure of a listener. *)
Inductive lifeCall := CStart | CStop | CRpc | CFail (lis : nat) (err : error).

Definition rpc : sprog unit :=
  accepted <- sdo SvRpc ;;
  if (accepted : bool) then sdo SvRpcEnd else Ret tt.

Definition lifeProgram (s : Server) (o : lifeCall) : sprog unit :=
  match o with
  | CStart => Start s ;;; Ret tt
  | CStop => Stop s
  | CRpc => rpc
  | CFail lis err => sdo (SvLisFail lis err)
  end.
End methods.

(** ** The shared state *)

Inductive once := Fresh | Running (t : nat) | Ran.
Record regState := mkReg { rg_lease : Z; rg_cancelled : bool; rg_once : once }.

(** The gRPC server, as its documentation has it: [GracefulStop] makes it accept
    nothing any more and returns when the handlers have; [Serve] returns when
    accepting fails, or when the server has been stopped. *)
Record grpcState := mkGrpc {
  gs_quit : bool;                                (* GracefulStop has begun *)
  gs_done : bool;                                (* and has ended *)
  gs_serving : gset nat;                         (* the goroutines inside Serve *)
  gs_rpcs : gset nat;                            (* the handlers that run *)
  gs_failed : gmap nat error                     (* the listeners that failed *)
}.

Record life := mkLife {
  lf_cancelled : bool;                           (* s.ctx *)
  lf_mu : option nat;                            (* the goroutine that holds s.mu *)
  lf_registration : option nat;                  (* s.registration *)
  lf_listener : option nat;                      (* s.listener *)
  lf_stopOnce : once;
  lf_etcdClosed : bool;
  lf_regs : gmap nat regState;                   (* the registrations made *)
  lf_next : nat;
  lf_grpc : grpcState
}.

Definition newLife : life := mkLife false None None None Fresh false ∅ 0 (mkGrpc false false ∅ ∅ ∅).

Definition with_regs (m : gmap nat regState) (n : nat) (w : life) : life :=
  mkLife (lf_cancelled w) (lf_mu w) (lf_registration w) (lf_listener w) (lf_stopOnce w) (lf_etcdClosed w) m n (lf_grpc w).
Definition with_once (o : once) (r : regState) : regState := mkReg (rg_lease r) (rg_cancelled r) o.
Definition with_mu (o : option nat) (w : life) : life :=
  mkLife (lf_cancelled w) o (lf_registration w) (lf_listener w) (lf_stopOnce w) (lf_etcdClosed w) (lf_regs w) (lf_next w) (lf_grpc w).
Definition with_stop (o : once) (w : life) : life :=
  mkLife (lf_cancelled w) (lf_mu w) (lf_registration w) (lf_listener w) o (lf_etcdClosed w) (lf_regs w) (lf_next w) (lf_grpc w).

Definition with_grpc (g : grpcState) (w : life) : life :=
  mkLife (lf_cancelled w) (lf_mu w) (lf_registration w) (lf_listener w) (lf_stopOnce w) (lf_etcdClosed w) (lf_regs w) (lf_next w) g.

(** What [Serve] on [lis] returns, if it returns now. *)
Definition serveResult (lis : nat) (g : grpcState) : option (option error) :=
  if gs_done g then Some None else if gs_quit g then None else Some <$> gs_failed g !! lis.

(** A [sync.Once]: the first caller runs the function, the others wait for it. *)
Definition enterOnce (t : nat) (o : once) : option (once * bool) :=
  match o with Fresh => Some (Running t, true) | Running _ => None | Ran => Some (Ran, false) end.

Definition lifeEffect (t : nat) (e : sev) (w : life) : option (life * option (sans e)) :=
  match e with
  | SvNewReg lease => Some (with_regs (<[lf_next w := mkReg lease false Fresh]> (lf_regs w)) (S (lf_next w)) w, Some (lf_next w))
  | SvLock => match lf_mu w with None => Some (with_mu (Some t) w, None) | Some _ => None end
  | SvUnlock => Some (with_mu None w, None)
  | SvSetReg r lis =>
      Some (mkLife (lf_cancelled w) (lf_mu w) (Some r) (Some lis) (lf_stopOnce w) (lf_etcdClosed w) (lf_regs w) (lf_next w) (lf_grpc w), None)
  | SvGetReg =>
      Some (w, Some (r ← lf_registration w; st ← lf_regs w !! r; Some (r, rg_lease st)))
  | SvCtxErr => Some (w, Some (lf_cancelled w))
  | SvCancel =>
      Some (mkLife true (lf_mu w) (lf_registration w) (lf_listener w) (lf_stopOnce w) (lf_etcdClosed w) (lf_regs w) (lf_next w) (lf_grpc w), None)
  | SvOnce r =>
      match lf_regs w !! r with
      | Some st =>
          match enterOnce t (rg_once st) with
          | Some (o, run) => Some (with_regs (alter (with_once o) r (lf_regs w)) (lf_next w) w, Some run)
          | None => None
          end
      | None => None
      end
  | SvRegCancel r =>
      Some (with_regs (alter (λ st, mkReg (rg_lease st) true (rg_once st)) r (lf_regs w)) (lf_next w) w, None)
  | SvOnceEnd r => Some (with_regs (alter (with_once Ran) r (lf_regs w)) (lf_next w) w, None)
  | SvStopOnce =>
      match enterOnce t (lf_stopOnce w) with Some (o, run) => Some (with_stop o w, Some run) | None => None end
  | SvStopEnd => Some (with_stop Ran w, None)
  | SvEtcdClose =>
      Some (mkLife (lf_cancelled w) (lf_mu w) (lf_registration w) (lf_listener w) (lf_stopOnce w) true (lf_regs w) (lf_next w) (lf_grpc w), None)
  | SvServe _ =>
      let g := lf_grpc w in
      if gs_quit g then Some (w, Some false)
      else Some (with_grpc (mkGrpc (gs_quit g) (gs_done g) ({[t]} ∪ gs_serving g) (gs_rpcs g) (gs_failed g)) w, Some true)
  | SvServeEnd lis =>
      let g := lf_grpc w in
      match serveResult lis g with
      | Some r => Some (with_grpc (mkGrpc (gs_quit g) (gs_done g) (gs_serving g ∖ {[t]}) (gs_rpcs g) (gs_failed g)) w, Some r)
      | None => None
      end
  | SvGracefulStop =>
      let g := lf_grpc w in Some (with_grpc (mkGrpc true (gs_done g) (gs_serving g) (gs_rpcs g) (gs_failed g)) w, None)
  | SvDrained =>
      let g := lf_grpc w in
      if decide (gs_rpcs g = ∅) then Some (with_grpc (mkGrpc (gs_quit g) true (gs_serving g) (gs_rpcs g) (gs_failed g)) w, None) else None
  | SvRpc =>
      let g := lf_grpc w in
      if gs_quit g || bool_decide (gs_serving g = ∅) then Some (w, Some false)
      else Some (with_grpc (mkGrpc (gs_quit g) (gs_done g) (gs_serving g) ({[t]} ∪ gs_rpcs g) (gs_failed g)) w, Some true)
  | SvRpcEnd =>
      let g := lf_grpc w in
      Some (with_grpc (mkGrpc (gs_quit g) (gs_done g) (gs_serving g) (gs_rpcs g ∖ {[t]}) (gs_failed g)) w, None)
  | SvLisFail lis err =>
      let g := lf_grpc w in
      Some (with_grpc (mkGrpc (gs_quit g) (gs_done g) (gs_serving g) (gs_rpcs g) (<[lis := err]> (gs_failed g))) w, None)
  | _ => Some (w, None)
  end.

Notation lifeRun := (sysRun lifeEffect).

(** Goroutine [t] is about to make the call [calls !! t]. *)
Definition lifeStart (ErrServerStopped : error) (isServerStopped : error → bool) (s : Server) (calls : gmap nat lifeCall) : system sans life :=
  mkSystem newLife (lifeProgram ErrServerStopped isServerStopped s <$> calls).
