(* ===== verification/ServerDiscipline.v ===== *)
(** * The discipline of [Start] and [Stop]

    What a goroutine that runs a method of the server's lifecycle has to do at
    each moment ([duty]), and the proof that [Start] and [Stop] do it. *)

From S2P Require Import Prelude Errors Registry Peers Prog Interleave Server.
#[local] Open Scope prog_scope.

(** The registration the goroutine has to close, whether it is inside the
    registration's [once] (and has asked for the revocation), whether it holds
    [s.mu], how far it is in the function of [s.stopOnce], and whether it is a
    handler that has not returned. *)
Record duty := mkDuty { d_reg : option (nat * Z); d_once : option (nat * bool); d_mu : bool; d_stop : option nat; d_rpc : bool }.

Definition dnone : duty := mkDuty None None false None false.
Definition setReg (r : option (nat * Z)) (d : duty) : duty := mkDuty r (d_once d) (d_mu d) (d_stop d) (d_rpc d).
Definition setOnce (o : option (nat * bool)) (d : duty) : duty := mkDuty (d_reg d) o (d_mu d) (d_stop d) (d_rpc d).
Definition setMu (b : bool) (d : duty) : duty := mkDuty (d_reg d) (d_once d) b (d_stop d) (d_rpc d).
Definition setStop (n : option nat) (d : duty) : duty := mkDuty (d_reg d) (d_once d) (d_mu d) n (d_rpc d).
Definition setRpc (b : bool) (d : duty) : duty := mkDuty (d_reg d) (d_once d) (d_mu d) (d_stop d) b.

(** The goroutine has nothing to do but, perhaps, to go on with [Stop]. *)
Definition free (d : duty) : bool := bool_decide (d_reg d = None) && bool_decide (d_once d = None) && negb (d_mu d) && negb (d_rpc d).
Definition dguard (c : bool) (d : duty) : option duty := if c then Some d else None.

(** The last stage of [Stop]: after the etcd client has been closed, if any. *)
Definition lastStage (etcd : bool) : nat := if etcd then 5 else 4.

Definition dobey (etcd : bool) (e : sev) (x : sans e) (d : duty) : option duty :=
  match e return sans e → option duty with
  | SvNewReg lease => λ r, dguard (free d && bool_decide (d_stop d = None)) (setReg (Some (r, lease)) d)
  | SvLock => λ _, dguard (negb (d_mu d) && negb (d_rpc d) && bool_decide (d_once d = None)) (setMu true d)
  | SvUnlock => λ _, dguard (d_mu d) (setMu false d)
  | SvSetReg r _ => λ _, dguard (d_mu d && bool_decide (fst <$> d_reg d = Some r)) d
  | SvGetReg => λ x,
      dguard (d_mu d && bool_decide (d_stop d = Some 1%nat) && bool_decide (d_reg d = None))
        (setReg x (setStop (Some 2%nat) d))
  | SvOnce r => λ run,
      dguard (negb (d_mu d) && negb (d_rpc d) && bool_decide (fst <$> d_reg d = Some r) && bool_decide (d_once d = None))
        (if (run : bool) then setOnce (Some (r, false)) d else setReg None d)
  | SvRevoke r lease => λ _,
      dguard (bool_decide (d_once d = Some (r, false)) && bool_decide (d_reg d = Some (r, lease))) (setOnce (Some (r, true)) d)
  | SvOnceEnd r => λ _,
      dguard (bool_decide (d_once d = Some (r, true)) && bool_decide (fst <$> d_reg d = Some r)) (setReg None (setOnce None d))
  | SvRegCancel r => λ _, dguard (bool_decide (d_once d = Some (r, false))) d
  | SvStopOnce => λ run, dguard (free d && bool_decide (d_stop d = None)) (if (run : bool) then setStop (Some 0%nat) d else d)
  | SvCancel => λ _, dguard (free d && bool_decide (d_stop d = Some 0%nat)) (setStop (Some 1%nat) d)
  | SvGracefulStop => λ _, dguard (free d && bool_decide (d_stop d = Some 2%nat)) (setStop (Some 3%nat) d)
  | SvDrained => λ _, dguard (free d && bool_decide (d_stop d = Some 3%nat)) (setStop (Some 4%nat) d)
  | SvEtcdClose => λ _, dguard (etcd && free d && bool_decide (d_stop d = Some 4%nat)) (setStop (Some 5%nat) d)
  | SvStopEnd => λ _, dguard (free d && bool_decide (d_stop d = Some (lastStage etcd))) (setStop None d)
  | SvServeEnd _ => λ _,
      dguard (negb (d_mu d) && negb (d_rpc d) && bool_decide (d_once d = None) && bool_decide (d_stop d = None)) d
  | SvRpc => λ accepted, dguard (free d && bool_decide (d_stop d = None)) (setRpc accepted d)
  | SvRpcEnd => λ _, dguard (d_rpc d) (setRpc false d)
  | _ => λ _, Some d
  end x.

Lemma dguard_Some c d d' : dguard c d = Some d' → c = true ∧ d' = d.
Proof. unfold dguard. by destruct c; intros [= <-]. Qed.

(** Read off what an event that obeys requires. *)
Ltac dguard_inv :=
  repeat match goal with
  | H : _ && _ = true |- _ => apply andb_true_iff in H as [? H]
  | H : bool_decide _ = true |- _ => apply bool_decide_eq_true in H
  | H : free _ = true |- _ => unfold free in H
  | H : negb _ = true |- _ => apply negb_true_iff in H
  end.
Ltac dobey_inv H := cbn [dobey] in H; apply dguard_Some in H as [H ->]; dguard_inv.

(** ** The methods obey *)

Ltac dcalc := cbn [dobey dguard free d_reg d_once d_mu d_stop d_rpc negb andb setReg setOnce setMu setStop setRpc dnone fmap option_fmap option_map fst];
  rewrite ?bool_decide_eq_true_2 by (first [reflexivity|done]); cbn [andb dguard].
Tactic Notation "dstep" ident(x) := apply obeys_bind; cbn [obeys event]; intros x; dcalc.
Tactic Notation "dstep" := apply obeys_bind; cbn [obeys event]; intros ?; dcalc.

Section obey.
Context (etcd : bool).
Notation dobeys := (obeys (dobey etcd)).

Lemma CloseP_obeys r lease stop :
  dobeys (mkDuty (Some (r, lease)) None false stop false) (CloseP (r, lease)) (λ d' res, d' = mkDuty None None false stop false ∧ ∃ a, res = Val a).
Proof.
  unfold CloseP. dstep run. destruct run; [|cbn; eauto]. apply obeys_finally.
  dstep. dstep e1. dstep e2. cbn [obeys event]. intros ?. dcalc. eauto.
Qed.

Lemma RegisterP_obeys cli svc addr ttl :
  dobeys dnone (RegisterP cli svc addr ttl) (λ d' res,
    ∃ v, res = Val v ∧ d' = mkDuty (match v with inl _ => None | inr reg => Some reg end) None false None false).
Proof.
  unfold RegisterP. destruct cli; cbn [negb]; [|cbn; eauto]. dstep g. destruct g as [err|lease]; [cbn; eauto|].
  dstep e1. destruct e1; [cbn; eauto|]. dstep e2. destruct e2; [cbn; eauto|]. dstep r. cbn. eauto.
Qed.

Lemma Start_obeys stopped isStopped s : dobeys dnone (Start stopped isStopped s) (λ d' _, d' = dnone).
Proof.
  unfold Start. dstep lis. destruct lis as [err|lis]; [done|]. apply obeys_bind.
  eapply obeys_mono; [apply RegisterP_obeys|]. intros d' res (v & -> & ->). destruct v as [err|[r lease]]; [by dstep|].
  dstep. dstep. dstep. apply obeys_finally.
  assert (dobeys (mkDuty (Some (r, lease)) None false None false) (CloseP (r, lease) ;;; Ret tt) (λ d2 _, d2 = dnone)) as Hclose.
  { apply obeys_bind. eapply obeys_mono; [apply CloseP_obeys|]. by intros d' res [-> [a ->]]. }
  apply obeys_bind. unfold Serve. dstep serving. eapply (obeys_mono _ _ _ (λ d' res, d' = mkDuty (Some (r, lease)) None false None false ∧ ∃ a, res = Val a)).
  { destruct serving; [|cbn; eauto]. cbn [obeys event]. intros ?. dcalc. eauto. }
  intros d' res [-> [err ->]]. destruct err as [e|]; [case_match|]; [dstep ended|..]; cbn [obeys]; exact Hclose.
Qed.
End obey.

Lemma Stop_obeys s : obeys (dobey (sv_etcd s)) dnone (Stop s) (λ d' _, d' = dnone).
Proof.
  unfold Stop. dstep run. destruct run; [|done]. apply obeys_finally. dstep. dstep. dstep reg. dstep. apply obeys_bind.
  eapply (obeys_mono _ _ _ (λ d' res, d' = mkDuty None None false (Some 2%nat) false ∧ res = Val tt)).
  { destruct reg as [[r lease]|]; [|done]. apply obeys_bind. eapply obeys_mono; [apply CloseP_obeys|].
    by intros d' res [-> [a ->]]. }
  intros d' res [-> ->]. dstep. dstep. destruct (sv_etcd s).
  - dstep. cbn [obeys event]. intros ?. dcalc. done.
  - cbn [obeys event]. intros ?. dcalc. done.
Qed.

Lemma lifeProgram_obeys stopped isStopped s o : obeys (dobey (sv_etcd s)) dnone (lifeProgram stopped isStopped s o) (λ d' _, d' = dnone).
Proof.
  destruct o as [| | |lis err]; cbn [lifeProgram]; [|apply Stop_obeys| |by intros []].
  - apply obeys_bind. eapply obeys_mono; [apply Start_obeys|]. by intros d' [] ->.
  - unfold rpc. dstep accepted. destruct accepted; [|done]. cbn [obeys event]. intros []. dcalc. done.
Qed.
