(* ===== verification/ServerFacts.v ===== *)
(** * Correctness of the server's lifecycle

    Invariants of any number of [Start] and [Stop] calls that run at the same
    time: who holds the mutex and who runs the functions of the [sync.Once]s,
    how far [Stop] has come, how often etcd was asked to revoke each lease, and what
    the gRPC server does. *)

From S2P Require Import Prelude Errors Registry RegistryFacts Peers PeersFacts Prog Interleave Server ServerDiscipline.

(** ** What an action says *)

Notation strace := (list (nat * act (ans := sans))).

Definition revokeOf (a : act (ans := sans)) : option (nat * Z) :=
  match projT1 a with SvRevoke r lease => Some (r, lease) | _ => None end.
Definition newOf (a : act (ans := sans)) : option (nat * Z) :=
  match a with existT e x =>
    match e return sans e → option (nat * Z) with SvNewReg lease => λ r, Some (r, lease) | _ => λ _, None end x end.
Definition seenOf (a : act (ans := sans)) : option (nat * Z) :=
  match a with existT e x =>
    match e return sans e → option (nat * Z) with SvGetReg => λ r, r | _ => λ _, None end x end.

(** The steps of the function of [stopOnce]. *)
Inductive stage := StCancel | StRead | StGraceful | StDrained | StClose.
Definition stageOf (a : act (ans := sans)) : option stage :=
  match projT1 a with
  | SvCancel => Some StCancel | SvGetReg => Some StRead | SvGracefulStop => Some StGraceful
  | SvDrained => Some StDrained | SvEtcdClose => Some StClose
  | _ => None
  end.
Definition stages : list stage := [StCancel; StRead; StGraceful; StDrained; StClose].

Definition revokeCalls (r : nat) (tr : strace) : nat := length (filter (λ ta, fst <$> revokeOf ta.2 = Some r) tr).
(** etcd has revoked the lease of the registration [r]: a call succeeded. *)
Definition revoked (r : nat) (tr : strace) : Prop := ∃ u lease, (u, did (ans := sans) (SvRevoke r lease) None) ∈ tr.
Definition stopLog (tr : strace) : list stage := omap (λ ta, stageOf ta.2) tr.

Lemma revokeCalls_snoc r tr t a :
  revokeCalls r (tr ++ [(t, a)]) = (revokeCalls r tr + if decide (fst <$> revokeOf a = Some r) then 1 else 0)%nat.
Proof. unfold revokeCalls. rewrite filter_app, length_app, filter_cons. simpl. by case_decide. Qed.
Lemma revokeCalls_one r tr :
  revokeCalls r tr = 1%nat →
  ∃ t lease x, (t, did (ans := sans) (SvRevoke r lease) x) ∈ tr ∧ ∀ u l y, (u, did (ans := sans) (SvRevoke r l) y) ∈ tr → y = x.
Proof.
  unfold revokeCalls. destruct (filter _ tr) as [|[t [e x]] [|]] eqn:Hf; try done. intros _.
  assert ((t, existT e x) ∈ filter (λ ta : nat * act (ans := sans), fst <$> revokeOf ta.2 = Some r) tr) as [Hr Hin]%list_elem_of_filter by (rewrite Hf; set_solver).
  destruct e; try done. injection Hr as ->. exists t, lease, x. split; [done|]. intros u l y Hy.
  assert ((u, did (ans := sans) (SvRevoke r l) y) ∈ filter (λ ta : nat * act (ans := sans), fst <$> revokeOf ta.2 = Some r) tr) as Hy'
    by (by apply list_elem_of_filter).
  rewrite Hf in Hy'. apply list_elem_of_singleton in Hy'.
  apply (f_equal (λ ta : nat * act (ans := sans), match ta.2 with existT e x => match e return sans e → option (option error) with SvRevoke _ _ => λ y, Some y | _ => λ _, None end x end)) in Hy'.
  by injection Hy' as ->.
Qed.
Lemma stopLog_snoc tr t a : stopLog (tr ++ [(t, a)]) = match stageOf a with Some s => stopLog tr ++ [s] | None => stopLog tr end.
Proof. unfold stopLog. rewrite omap_app. simpl. destruct (stageOf a); [done|apply app_nil_r]. Qed.
Lemma elem_of_snoc {A} (x y : A) l : x ∈ l ++ [y] ↔ x ∈ l ∨ x = y.
Proof. by rewrite elem_of_app, list_elem_of_singleton. Qed.

(** ** The invariant *)

Definition runner (o : once) : option nat := match o with Running t => Some t | _ => None end.
Definition stopping (d : duty) : bool := match d_stop d with Some _ => true | None => false end.
Definition onceAt (r : nat) (d : duty) : bool := match d_once d with Some (r', _) => bool_decide (r = r') | None => false end.

Section facts.
Context (etcd : bool).
Implicit Types (w : life) (L : gmap nat duty) (d : duty) (t r : nat) (tr : strace) (lease : Z).
Notation sperforms := (performs lifeEffect (dobey etcd)).

Record stopInv tr w L : Prop := {
  si_runner : heldBy stopping (runner (lf_stopOnce w)) L;
  si_stage : ∀ t d n, L !! t = Some d → d_stop d = Some n → stopLog tr = take n stages;
  si_fresh : lf_stopOnce w = Fresh → stopLog tr = [];
  si_ran : lf_stopOnce w = Ran → stopLog tr = take (lastStage etcd) stages
}.

(** The registration [r] is someone's duty. *)
Definition due r L : Prop := ∃ t d, L !! t = Some d ∧ fst <$> d_reg d = Some r.

Definition counted tr L r (o : once) : Prop :=
  match o with
  | Fresh => revokeCalls r tr = 0%nat ∧ due r L
  | Running t => ∃ d b, L !! t = Some d ∧ d_once d = Some (r, b) ∧ revokeCalls r tr = (if b then 1 else 0)%nat
  | Ran => revokeCalls r tr = 1%nat
  end.

Record regInv tr w L : Prop := {
  ri_next : ∀ r st, lf_regs w !! r = Some st → (r < lf_next w)%nat;
  ri_once : ∀ r, heldBy (onceAt r) (lf_regs w !! r ≫= λ st, runner (rg_once st)) L;
  ri_inner : ∀ t d r b, L !! t = Some d → d_once d = Some (r, b) → fst <$> d_reg d = Some r;
  ri_reg : ∀ t d r lease, L !! t = Some d → d_reg d = Some (r, lease) → rg_lease <$> lf_regs w !! r = Some lease;
  ri_count : ∀ r st, lf_regs w !! r = Some st → counted tr L r (rg_once st);
  ri_none : ∀ r, lf_regs w !! r = None → revokeCalls r tr = 0%nat;
  ri_new : ∀ u a r lease, (u, a) ∈ tr → newOf a = Some (r, lease) → rg_lease <$> lf_regs w !! r = Some lease;
  ri_made : ∀ r st, lf_regs w !! r = Some st → ∃ u a, (u, a) ∈ tr ∧ newOf a = Some (r, rg_lease st);
  ri_revoke : ∀ u a r lease, (u, a) ∈ tr → revokeOf a = Some (r, lease) → rg_lease <$> lf_regs w !! r = Some lease;
  ri_seen : ∀ u a r lease, (u, a) ∈ tr → seenOf a = Some (r, lease) →
    (∃ d, L !! u = Some d ∧ fst <$> d_reg d = Some r ∧ stopping d = true) ∨ rg_once <$> lf_regs w !! r = Some Ran
}.

(** ** Mutex *)

(** Read off the effect and the change of duty where neither matters. *)
Ltac life_inv He Ho :=
  cbn [mbind option_bind] in He;
  try match type of He with context [match ?y with _ => _ end] => destruct y eqn:? end; try discriminate He;
  injection He as <- _; first [injection Ho as <-|apply dguard_Some in Ho as [? ->]].

Lemma mu_step t e x w w' L d d' :
  sperforms t e x w w' L d d' → heldBy d_mu (lf_mu w) L → heldBy d_mu (lf_mu w') (<[t := d']> L).
Proof.
  intros ((forced & He & Hf) & Ht & Ho) HM.
  destruct e; cbn [lifeEffect] in He; cbn [dobey] in Ho;
    try (by life_inv He Ho; (eapply heldBy_same; [exact HM|exact Ht|]); repeat case_match).
  - destruct (lf_mu w); [done|]. injection He as <- _. apply dguard_Some in Ho as [_ ->]. by apply heldBy_acquire.
  - injection He as <- _. apply dguard_Some in Ho as [Hm ->]. by eapply heldBy_release.
  - destruct (lf_regs w !! r) as [st|]; [|done]. destruct (enterOnce t (rg_once st)) as [[o run]|]; [|done].
    injection He as <- _. apply dguard_Some in Ho as [_ ->]. by eapply heldBy_same; [exact HM|exact Ht|]; case_match.
  - destruct (enterOnce t (lf_stopOnce w)) as [[o run]|]; [|done]. injection He as <- _. apply dguard_Some in Ho as [_ ->].
    by eapply heldBy_same; [exact HM|exact Ht|]; case_match.
Qed.

(** ** [Stop] *)

(** An event that is no part of [Stop]. *)
Lemma stopInv_frame tr w w' L t a d d' :
  stopInv tr w L → L !! t = Some d → d_stop d' = d_stop d → stageOf a = None → lf_stopOnce w' = lf_stopOnce w →
  stopInv (tr ++ [(t, a)]) w' (<[t := d']> L).
Proof.
  intros [S1 S2 S3 S4] Ht Hd Ha Hw. split; rewrite ?Hw, ?stopLog_snoc, ?Ha; try done.
  - eapply heldBy_same; [done|done|]. unfold stopping. by rewrite Hd.
  - intros u y n [[<- <-]|[_ Hu]]%lookup_insert_Some Hn; [rewrite Hd in Hn|]; by eapply S2.
Qed.

(** The only goroutine inside [stopOnce]. *)
Lemma stopper_unique tr w L t d u y :
  stopInv tr w L → L !! t = Some d → stopping d = true → L !! u = Some y → stopping y = true → u = t.
Proof.
  intros SI Ht Hd Hu Hy. apply (heldBy_own _ _ _ _ _ (si_runner _ _ _ SI) Ht) in Hd.
  apply (heldBy_own _ _ _ _ _ (si_runner _ _ _ SI) Hu) in Hy. congruence.
Qed.

(** The goroutine in [stopOnce] takes the next step of [Stop]. *)
Lemma stopInv_advance tr w w' L t a d d' n s :
  stopInv tr w L → L !! t = Some d → d_stop d = Some n → d_stop d' = Some (S n) → stageOf a = Some s →
  take (S n) stages = take n stages ++ [s] → lf_stopOnce w' = lf_stopOnce w →
  stopInv (tr ++ [(t, a)]) w' (<[t := d']> L).
Proof.
  intros SI Ht Hd Hd' Ha Hn Hw. assert (stopping d = true) as Hs by (unfold stopping; by rewrite Hd).
  assert (lf_stopOnce w = Running t) as Hr.
  { apply (heldBy_own _ _ _ _ _ (si_runner _ _ _ SI) Ht) in Hs. destruct (lf_stopOnce w); simpl in Hs; congruence. }
  split; rewrite ?Hw, ?stopLog_snoc, ?Ha.
  - eapply heldBy_same; [apply SI|done|]. rewrite Hs. unfold stopping. by rewrite Hd'.
  - intros u y m [[<- <-]|[Hne Hu]]%lookup_insert_Some Hm.
    + rewrite (si_stage _ _ _ SI _ _ _ Ht Hd), <-Hn. congruence.
    + destruct Hne. eapply stopper_unique; [done|exact Hu| |exact Ht|exact Hs]. unfold stopping. by rewrite Hm.
  - by rewrite Hr.
  - by rewrite Hr.
Qed.

Lemma stop_step t e x w w' L d d' tr :
  sperforms t e x w w' L d d' → stopInv tr w L → stopInv (tr ++ [(t, did e x)]) w' (<[t := d']> L).
Proof.
  intros ((forced & He & Hf) & Ht & Ho) SI.
  destruct e; cbn [lifeEffect] in He; cbn [dobey] in Ho;
    try (by life_inv He Ho; (eapply stopInv_frame; [exact SI|exact Ht|..]); repeat case_match).
  - injection He as <- _. dobey_inv Ho. eapply (stopInv_advance _ _ _ _ _ _ d _ 1); done.
  - injection He as <- _. dobey_inv Ho. eapply (stopInv_advance _ _ _ _ _ _ d _ 0); done.
  - destruct (lf_regs w !! r) as [st|]; [|done]. destruct (enterOnce t (rg_once st)) as [[o run]|]; [|done].
    injection He as <- _. apply dguard_Some in Ho as [_ ->]. by destruct x; (eapply stopInv_frame; [exact SI|exact Ht|..]).
  - destruct (lf_stopOnce w) as [|u|] eqn:Hw; simpl in He; [|done|].
    + injection He as <- <-. pose proof (Hf _ eq_refl) as ->. dobey_inv Ho. split; cbn [with_stop lf_stopOnce];
        rewrite ?stopLog_snoc; cbn [stageOf did projT1]; try done.
      * apply heldBy_acquire; [|done]. pose proof (si_runner _ _ _ SI) as Hr. by rewrite Hw in Hr.
      * intros u y n [[<- <-]|[_ Hu]]%lookup_insert_Some Hn; [|by eapply (si_stage _ _ _ SI)].
        injection Hn as <-. by apply (si_fresh _ _ _ SI).
    + injection He as <- <-. pose proof (Hf _ eq_refl) as ->. dobey_inv Ho. eapply stopInv_frame; [exact SI|exact Ht|..]; done.
  - injection He as <- _. dobey_inv Ho. eapply (stopInv_advance _ _ _ _ _ _ d _ 2); done.
  - case_decide; [|done]. injection He as <- _. dobey_inv Ho. eapply (stopInv_advance _ _ _ _ _ _ d _ 3); done.
  - injection He as <- _. apply dguard_Some in Ho as [Ho ->]. dguard_inv. eapply (stopInv_advance _ _ _ _ _ _ d _ 4); done.
  - injection He as <- _. dobey_inv Ho. split; cbn [with_stop lf_stopOnce];
        rewrite ?stopLog_snoc; cbn [stageOf did projT1]; try done.
    + eapply heldBy_release; [apply SI|done| |done]. unfold stopping. by rewrite Ho.
    + intros u y n [[<- <-]|[_ Hu]]%lookup_insert_Some Hn; [done|by eapply (si_stage _ _ _ SI)].
    + intros _. by eapply (si_stage _ _ _ SI).
Qed.

(** ** Registrations *)

Lemma regInv_update tr w w' L t a d d' :
  regInv tr w L → L !! t = Some d →
  (∀ r st, lf_regs w' !! r = Some st → (r < lf_next w')%nat) →
  (∀ r, heldBy (onceAt r) (lf_regs w' !! r ≫= λ st, runner (rg_once st)) (<[t := d']> L)) →
  (∀ r b, d_once d' = Some (r, b) → fst <$> d_reg d' = Some r) →
  (∀ r lease, d_reg d' = Some (r, lease) ∨ newOf a = Some (r, lease) ∨ revokeOf a = Some (r, lease) →
     rg_lease <$> lf_regs w' !! r = Some lease) →
  (∀ r st, lf_regs w !! r = Some st → ∃ st', lf_regs w' !! r = Some st' ∧ rg_lease st' = rg_lease st ∧
     (rg_once st = Ran → rg_once st' = Ran)) →
  (∀ r st, lf_regs w' !! r = Some st → is_Some (lf_regs w !! r) ∨ newOf a = Some (r, rg_lease st)) →
  (∀ r st, lf_regs w' !! r = Some st → counted (tr ++ [(t, a)]) (<[t := d']> L) r (rg_once st)) →
  (∀ r lease, seenOf a = Some (r, lease) → fst <$> d_reg d' = Some r ∧ stopping d' = true) →
  (∀ r, fst <$> d_reg d = Some r → stopping d = true →
     (fst <$> d_reg d' = Some r ∧ stopping d' = true) ∨ rg_once <$> lf_regs w' !! r = Some Ran) →
  regInv (tr ++ [(t, a)]) w' (<[t := d']> L).
Proof.
  intros [R1 R2 R3 R4 R5 R6 R7 R8 R9 R10] Ht A1 A2 A3 A4 A5 A6 A7 A8 A9.
  assert (∀ r lease, rg_lease <$> lf_regs w !! r = Some lease → rg_lease <$> lf_regs w' !! r = Some lease) as Hl.
  { intros r lease (st & Hst & ->)%fmap_Some. destruct (A5 _ _ Hst) as (st' & -> & <- & _). done. }
  split; [exact A1|exact A2|..].
  - intros u y r b [[<- <-]|[_ Hu]]%lookup_insert_Some; [apply A3|by apply (R3 u)].
  - intros u y r lease [[<- <-]|[_ Hu]]%lookup_insert_Some Hy; [by apply A4; left|]. by eapply Hl, R4.
  - exact A7.
  - intros r Hr. rewrite revokeCalls_snoc. destruct (lf_regs w !! r) as [st|] eqn:Hst.
    { destruct (A5 _ _ Hst) as (st' & ? & _). congruence. }
    rewrite R6 by done. rewrite decide_False; [done|]. intros ([r' lease] & Ha & ->)%fmap_Some.
    specialize (A4 r' lease ltac:(by right; right)). simpl in *. by rewrite Hr in A4.
  - intros u b r lease [Hin|[= -> ->]]%elem_of_snoc Hb; [by eapply Hl, R7|]. apply A4. by right; left.
  - intros r st Hst. destruct (A6 _ _ Hst) as [[st0 Hst0]|Hnew]; [|by exists t, a; rewrite elem_of_snoc; auto].
    destruct (R8 _ _ Hst0) as (u & b & Hin & Hb). destruct (A5 _ _ Hst0) as (st' & Hst' & Hls & _).
    exists u, b. rewrite elem_of_snoc. split; [by left|]. rewrite Hb. congruence.
  - intros u b r lease [Hin|[= -> ->]]%elem_of_snoc Hb; [by eapply Hl, R9|]. apply A4. by right; right.
  - intros u b r lease [Hin|[= -> ->]]%elem_of_snoc Hb.
    + destruct (R10 _ _ _ _ Hin Hb) as [(y & Hu & Hy & Hs)|(st & Hst & Hran)%fmap_Some].
      * destruct (decide (u = t)) as [->|Hne].
        -- assert (y = d) as -> by congruence. destruct (A9 _ Hy Hs) as [[? ?]|?]; [left|by right].
           exists d'. by rewrite lookup_insert_eq.
        -- left. exists y. by rewrite lookup_insert_ne.
      * right. destruct (A5 _ _ Hst) as (st' & -> & _ & Hr'). simpl. by rewrite Hr'.
    + left. exists d'. rewrite lookup_insert_eq. destruct (A8 _ _ Hb). done.
Qed.

Lemma due_frame r L t d d' :
  due r L → L !! t = Some d → (fst <$> d_reg d = Some r → fst <$> d_reg d' = Some r) → due r (<[t := d']> L).
Proof.
  intros (u & y & Hu & Hy) Ht Hd. destruct (decide (u = t)) as [->|Hne].
  - exists t, d'. rewrite lookup_insert_eq. split; [done|]. apply Hd. congruence.
  - exists u, y. by rewrite lookup_insert_ne.
Qed.

Lemma counted_frame tr L t a r o d d' :
  counted tr L r o → L !! t = Some d → fst <$> revokeOf a ≠ Some r →
  (fst <$> d_reg d = Some r → fst <$> d_reg d' = Some r) → (∀ b, d_once d = Some (r, b) → d_once d' = Some (r, b)) →
  counted (tr ++ [(t, a)]) (<[t := d']> L) r o.
Proof.
  intros Hc Ht Ha Hd Ho. unfold counted in *. rewrite revokeCalls_snoc, decide_False, Nat.add_0_r by done.
  destruct o as [|u|]; [..|done].
  - destruct Hc as [? Hc]. split; [done|]. by eapply due_frame.
  - destruct Hc as (y & b & Hu & Hy & Hb). destruct (decide (u = t)) as [->|Hne].
    + exists d', b. rewrite lookup_insert_eq. split_and!; [done| |done]. apply Ho. congruence.
    + exists y, b. by rewrite lookup_insert_ne.
Qed.

(** An event that concerns no registration. *)
Lemma regInv_frame tr w w' L t a d d' :
  regInv tr w L → L !! t = Some d → lf_regs w' = lf_regs w → lf_next w' = lf_next w → d_reg d' = d_reg d → d_once d' = d_once d →
  (d_reg d ≠ None → stopping d = true → stopping d' = true) →
  revokeOf a = None → newOf a = None → seenOf a = None → regInv (tr ++ [(t, a)]) w' (<[t := d']> L).
Proof.
  intros RI Ht E1 E2 E3 E4 Hs Ha1 Ha2 Ha3. destruct RI as [R1 R2 R3 R4 R5 R6 R7 R8 R9 R10] eqn:HR. clear HR.
  eapply regInv_update; [exact RI|exact Ht|..]; rewrite ?E1, ?E2, ?E3, ?E4, ?Ha1, ?Ha2, ?Ha3; try done.
  - intros r. eapply heldBy_same; [apply R2|done|]. unfold onceAt. by rewrite E4.
  - intros r b. by apply (R3 t).
  - intros r lease [Hr|[?|?]]; [|done..]. by eapply R4.
  - intros r st Hst. by exists st.
  - intros r st Hst. left. eauto.
  - intros r st Hst. eapply counted_frame; [by apply R5|done|by rewrite Ha1|by rewrite E3|by rewrite E4].
  - intros r Hr Hst. left. split; [done|]. apply Hs; [|done]. by intros H0; rewrite H0 in Hr.
Qed.

Lemma regInv_new tr w L t d lease :
  regInv tr w L → L !! t = Some d → d_reg d = None → d_once d = None →
  regInv (tr ++ [(t, did (SvNewReg lease) (lf_next w))])
    (with_regs (<[lf_next w := mkReg lease false Fresh]> (lf_regs w)) (S (lf_next w)) w)
    (<[t := setReg (Some (lf_next w, lease)) d]> L).
Proof.
  intros RI Ht Hr Ho. set (n := lf_next w). assert (lf_regs w !! n = None) as Hn.
  { destruct (lf_regs w !! n) as [st|] eqn:Hst; [|done]. apply (ri_next _ _ _ RI) in Hst. unfold n in Hst. lia. }
  eapply regInv_update; [exact RI|exact Ht|..]; cbn [with_regs lf_regs lf_next setReg d_reg d_once].
  - intros r st [[<- _]|[_ Hst]]%lookup_insert_Some; [unfold n; lia|]. apply (ri_next _ _ _ RI) in Hst. lia.
  - intros r. eapply (heldBy_same _ _ _ _ d); [|done|done]. destruct (decide (r = n)) as [->|Hne].
    + rewrite lookup_insert_eq. pose proof (ri_once _ _ _ RI n) as Hi. by rewrite Hn in Hi.
    + rewrite lookup_insert_ne by done. apply (ri_once _ _ _ RI).
  - by rewrite Ho.
  - intros r l [[= <- <-]|[[= <- <-]|?]]; [by rewrite lookup_insert_eq..|done].
  - intros r st Hst. exists st. rewrite lookup_insert_ne by congruence. done.
  - intros r st [[<- <-]|[_ Hst]]%lookup_insert_Some; [by right|left; eauto].
  - intros r st [[<- <-]|[Hne Hst]]%lookup_insert_Some.
    + simpl. rewrite revokeCalls_snoc, decide_False, (ri_none _ _ _ RI) by done. split; [done|]. exists t, (setReg (Some (n, lease)) d).
      by rewrite lookup_insert_eq.
    + eapply counted_frame; [by apply (ri_count _ _ _ RI)|done|done|by rewrite Hr|done].
  - done.
  - by rewrite Hr.
Qed.

Lemma regInv_read tr w L t d m :
  regInv tr w L → L !! t = Some d → d_reg d = None → d_once d = None → d_stop d = Some m →
  let x := (r ← lf_registration w; st ← lf_regs w !! r; Some (r, rg_lease st)) : sans SvGetReg in
  regInv (tr ++ [(t, did SvGetReg x)]) w (<[t := setReg x (setStop (Some 2%nat) d)]> L).
Proof.
  intros RI Ht Hr Ho Hm x. assert (∀ r lease, x = Some (r, lease) → rg_lease <$> lf_regs w !! r = Some lease) as Hx.
  { unfold x. intros r lease. destruct (lf_registration w) as [r'|]; [|done]. simpl.
    destruct (lf_regs w !! r') as [st|] eqn:Hst; [|done]. simpl. intros [= <- <-]. by rewrite Hst. }
  eapply regInv_update; [exact RI|exact Ht|..]; cbn [setReg setStop d_reg d_once].
  - apply RI.
  - intros r. eapply heldBy_same; [apply RI|done|done].
  - by rewrite Ho.
  - intros r lease [?|[?|?]]; [by apply Hx|done..].
  - intros r st Hst. by exists st.
  - intros r st Hst. left. eauto.
  - intros r st Hst. eapply counted_frame; [by apply (ri_count _ _ _ RI)|done|done|by rewrite Hr|done].
  - intros r lease Hs. simpl in Hs. rewrite Hs. done.
  - by rewrite Hr.
Qed.

(** A change of one registration that keeps its lease. *)
Lemma lookup_same_lease (f : regState → regState) r (m : gmap nat regState) r' st :
  (∀ st, rg_lease (f st) = rg_lease st) → alter f r m !! r' = Some st →
  ∃ st0, m !! r' = Some st0 ∧ rg_lease st = rg_lease st0 ∧ st = (if decide (r' = r) then f st0 else st0).
Proof.
  intros Hf [(-> & st0 & Hst & ->)|[Hne Hst]]%lookup_alter_Some.
  - exists st0. by rewrite decide_True by done.
  - exists st. by rewrite decide_False by done.
Qed.

(** The goroutine [t] changes the registration [r] that is its duty: by [f], and
    its own state to [d']. *)
Lemma regInv_alter tr w L t a d d' r st (f : regState → regState) :
  regInv tr w L → L !! t = Some d → lf_regs w !! r = Some st → (∀ st, rg_lease (f st) = rg_lease st) →
  (rg_once st = Ran → rg_once (f st) = Ran) →
  (d_reg d' = d_reg d ∧ stopping d' = stopping d ∨ d_reg d' = None ∧ fst <$> d_reg d = Some r ∧ rg_once (f st) = Ran) →
  (∀ r', r' ≠ r → onceAt r' d' = onceAt r' d) → (∀ r' b, d_once d' = Some (r', b) → fst <$> d_reg d' = Some r') →
  (∀ r' b, r' ≠ r → d_once d = Some (r', b) → d_once d' = Some (r', b)) →
  heldBy (onceAt r) (runner (rg_once (f st))) (<[t := d']> L) →
  newOf a = None → seenOf a = None → (∀ r' lease, revokeOf a = Some (r', lease) → r' = r ∧ lease = rg_lease st) →
  counted (tr ++ [(t, a)]) (<[t := d']> L) r (rg_once (f st)) →
  regInv (tr ++ [(t, a)]) (with_regs (alter f r (lf_regs w)) (lf_next w) w) (<[t := d']> L).
Proof.
  intros RI Ht Hst Hf Hran Hreg Hoth Hin Hoth' Hheld Hnew Hseen Hrev Hcnt.
  eapply regInv_update; [exact RI|exact Ht|..]; cbn [with_regs lf_regs lf_next].
  - intros r' st' (st0 & H0 & _)%lookup_same_lease; [|done]. by eapply (ri_next _ _ _ RI).
  - intros r'. destruct (decide (r' = r)) as [->|Hne]; [by rewrite lookup_alter_eq, Hst|].
    rewrite lookup_alter_ne by done. eapply heldBy_same; [apply RI|done|by apply Hoth].
  - done.
  - intros r' lease Hr'. assert (rg_lease <$> lf_regs w !! r' = Some lease) as Hls.
    { destruct Hr' as [Hr'|[?|Hr']]; [|congruence|].
      - destruct Hreg as [[E _]|[E _]]; [|congruence]. rewrite E in Hr'. by eapply (ri_reg _ _ _ RI).
      - destruct (Hrev _ _ Hr') as [-> ->]. by rewrite Hst. }
    destruct (decide (r' = r)) as [->|Hne]; [rewrite lookup_alter_eq|by rewrite lookup_alter_ne].
    destruct (lf_regs w !! r); simpl in *; by rewrite ?Hf.
  - intros r' st' H'. destruct (decide (r' = r)) as [->|Hne]; [rewrite lookup_alter_eq|rewrite lookup_alter_ne by done; by exists st'].
    rewrite H'. exists (f st'). split_and!; [done|apply Hf|]. assert (st' = st) as -> by congruence. done.
  - intros r' st' (st0 & H0 & _)%lookup_same_lease; [|done]. left. eauto.
  - intros r' st' (st0 & H0 & _ & ->)%lookup_same_lease; [|done]. case_decide as Hd.
    + subst. by assert (st0 = st) as -> by congruence.
    + eapply counted_frame; [by apply (ri_count _ _ _ RI)|done|..].
      * intros ([r2 l2] & H2 & ->)%fmap_Some. destruct (Hrev _ _ H2). done.
      * intros Hr'. destruct Hreg as [[E _]|(_ & E & _)]; [congruence|]. rewrite E in Hr'. congruence.
      * intros b. by apply Hoth'.
  - by rewrite Hseen.
  - intros r' Hr' Hs. destruct Hreg as [[E1 E2]|(_ & E & Hr2)].
    + left. by rewrite E1, E2.
    + right. assert (r' = r) as -> by congruence. rewrite lookup_alter_eq, Hst. simpl. by rewrite Hr2.
Qed.

(** The registration whose [once] a goroutine is in. *)
Lemma once_running tr w L t d r b :
  regInv tr w L → L !! t = Some d → d_once d = Some (r, b) →
  ∃ st, lf_regs w !! r = Some st ∧ rg_once st = Running t ∧ revokeCalls r tr = (if b then 1 else 0)%nat.
Proof.
  intros RI Ht Hd. assert (onceAt r d = true) as Ho by (unfold onceAt; rewrite Hd; by apply bool_decide_eq_true).
  apply (heldBy_own _ _ _ _ _ (ri_once _ _ _ RI r) Ht) in Ho. destruct (lf_regs w !! r) as [st|] eqn:Hst; [|done].
  simpl in Ho. destruct (rg_once st) as [|u|] eqn:Hr; try done. injection Ho as ->. exists st. split_and!; [done|done|].
  pose proof (ri_count _ _ _ RI _ _ Hst) as Hc. rewrite Hr in Hc. destruct Hc as (y & b' & Hy & Hy' & ->).
  assert (y = d) as -> by congruence. rewrite Hd in Hy'. by injection Hy' as ->.
Qed.

Lemma once_idle tr w L t d : regInv tr w L → L !! t = Some d → d_reg d = None → d_once d = None.
Proof.
  intros RI Ht Hr. destruct (d_once d) as [[r b]|] eqn:Ho; [|done].
  pose proof (ri_inner _ _ _ RI _ _ _ _ Ht Ho) as Hi. by rewrite Hr in Hi.
Qed.

Lemma regInv_once tr w L t d r st lease (run : bool) o :
  regInv tr w L → L !! t = Some d → d_reg d = Some (r, lease) → d_once d = None → lf_regs w !! r = Some st →
  enterOnce t (rg_once st) = Some (o, run) →
  regInv (tr ++ [(t, did (SvOnce r) run)]) (with_regs (alter (with_once o) r (lf_regs w)) (lf_next w) w)
    (<[t := if run then setOnce (Some (r, false)) d else setReg None d]> L).
Proof.
  intros RI Ht Hr Ho Hst He. pose proof (ri_once _ _ _ RI r) as Hh. rewrite Hst in Hh. simpl in Hh.
  pose proof (ri_count _ _ _ RI _ _ Hst) as Hc. destruct (rg_once st) as [|u|] eqn:Hone; simpl in He; [|done|]; injection He as <- <-.
  - eapply (regInv_alter _ _ _ _ _ d _ r st); try done.
    + rewrite Hone. done.
    + by left.
    + intros r' Hne. unfold onceAt. simpl. rewrite Ho. by apply bool_decide_eq_false.
    + intros r' b [= <- <-]. simpl. by rewrite Hr.
    + intros r' b _ Hx. congruence.
    + apply heldBy_acquire; [done|]. unfold onceAt. simpl. by apply bool_decide_eq_true.
    + simpl. eexists _, false. rewrite lookup_insert_eq. split_and!; [done|done|].
      rewrite revokeCalls_snoc, decide_False by done. destruct Hc. lia.
  - eapply (regInv_alter _ _ _ _ _ d _ r st); try done.
    + right. by rewrite Hr.
    + simpl. rewrite Ho. done.
    + by eapply heldBy_same.
    + simpl. rewrite revokeCalls_snoc, decide_False by done. simpl in Hc. lia.
Qed.

Lemma regInv_cancel tr w L t d r :
  regInv tr w L → L !! t = Some d → d_once d = Some (r, false) →
  regInv (tr ++ [(t, did (SvRegCancel r) tt)])
    (with_regs (alter (λ st, mkReg (rg_lease st) true (rg_once st)) r (lf_regs w)) (lf_next w) w) (<[t := d]> L).
Proof.
  intros RI Ht Ho. destruct (once_running _ _ _ _ _ _ _ RI Ht Ho) as (st & Hst & Hr & Hc).
  eapply (regInv_alter _ _ _ _ _ d _ r st); try done.
  - by left.
  - intros r' b. by apply (ri_inner _ _ _ RI t).
  - simpl. eapply heldBy_same; [|done|done]. pose proof (ri_once _ _ _ RI r) as Hh. by rewrite Hst in Hh.
  - simpl. rewrite Hr. exists d, false. rewrite lookup_insert_eq, revokeCalls_snoc, Hc. done.
Qed.

Lemma regInv_revoke tr w L t d r lease x :
  regInv tr w L → L !! t = Some d → d_once d = Some (r, false) → d_reg d = Some (r, lease) →
  regInv (tr ++ [(t, did (SvRevoke r lease) x)]) w (<[t := setOnce (Some (r, true)) d]> L).
Proof.
  intros RI Ht Ho Hd. destruct (once_running _ _ _ _ _ _ _ RI Ht Ho) as (st & Hst & Hr & Hc).
  assert (w = with_regs (alter id r (lf_regs w)) (lf_next w) w) as ->.
  { rewrite alter_id by done. by destruct w. }
  pose proof (ri_reg _ _ _ RI _ _ _ _ Ht Hd) as Hl. rewrite Hst in Hl. injection Hl as <-.
  eapply (regInv_alter _ _ _ _ _ d _ r st); try done.
  - by left.
  - intros r' Hne. unfold onceAt. simpl. by rewrite Ho.
  - intros r' b [= <- <-]. simpl. by rewrite Hd.
  - intros r' b Hne [= ? ?]%(eq_trans (eq_sym Ho)). congruence.
  - eapply heldBy_same; [|done|unfold onceAt; simpl; by rewrite Ho]. pose proof (ri_once _ _ _ RI r) as Hh. by rewrite Hst in Hh.
  - intros r' l' [= <- <-]. done.
  - simpl. rewrite Hr. exists (setOnce (Some (r, true)) d), true. rewrite lookup_insert_eq, revokeCalls_snoc, Hc. by rewrite decide_True by done.
Qed.

Lemma regInv_end tr w L t d r :
  regInv tr w L → L !! t = Some d → d_once d = Some (r, true) → fst <$> d_reg d = Some r →
  regInv (tr ++ [(t, did (SvOnceEnd r) tt)]) (with_regs (alter (with_once Ran) r (lf_regs w)) (lf_next w) w)
    (<[t := setReg None (setOnce None d)]> L).
Proof.
  intros RI Ht Ho Hd. destruct (once_running _ _ _ _ _ _ _ RI Ht Ho) as (st & Hst & Hr & Hc).
  eapply (regInv_alter _ _ _ _ _ d _ r st); try done.
  - right. done.
  - intros r' Hne. unfold onceAt. simpl. rewrite Ho. symmetry. by apply bool_decide_eq_false.
  - intros r' b Hne [= ? ?]%(eq_trans (eq_sym Ho)). congruence.
  - simpl. eapply heldBy_release; [|exact Ht|unfold onceAt; rewrite Ho; by apply bool_decide_eq_true|done].
    pose proof (ri_once _ _ _ RI r) as Hh. rewrite Hst in Hh. exact Hh.
  - simpl. by rewrite revokeCalls_snoc, Hc.
Qed.

Lemma reg_step t e x w w' L d d' tr :
  sperforms t e x w w' L d d' → regInv tr w L → regInv (tr ++ [(t, did e x)]) w' (<[t := d']> L).
Proof.
  intros ((forced & He & Hf) & Ht & Ho) RI.
  destruct e; cbn [lifeEffect] in He; cbn [dobey] in Ho;
    try (by life_inv He Ho; (eapply regInv_frame; [exact RI|exact Ht|done..])).
  - injection He as <- <-. pose proof (Hf _ eq_refl) as ->. dobey_inv Ho. by apply regInv_new.
  - injection He as <- <-. pose proof (Hf _ eq_refl) as ->. dobey_inv Ho. eapply regInv_read; eauto using once_idle.
  - destruct (lf_regs w !! r) as [st|] eqn:Hst; [|done]. destruct (enterOnce t (rg_once st)) as [[o run]|] eqn:Hen; [|done].
    injection He as <- <-. pose proof (Hf _ eq_refl) as ->. apply dguard_Some in Ho as [Ho ->]. dguard_inv.
    destruct (d_reg d) as [[r' lease]|] eqn:Hr; [|done]. simplify_eq/=. by eapply regInv_once.
  - injection He as <- _. destruct x. dobey_inv Ho. by apply regInv_cancel.
  - injection He as <- _. dobey_inv Ho. by apply regInv_revoke.
  - injection He as <- _. destruct x. dobey_inv Ho. by apply regInv_end.
  - destruct (enterOnce t (lf_stopOnce w)) as [[o run]|]; [|done]. injection He as <- _. dobey_inv Ho.
    destruct x; (eapply regInv_frame; [exact RI|exact Ht|done..]).
  - injection He as <- _. dobey_inv Ho. by eapply regInv_frame; [exact RI|exact Ht|..].
Qed.

(** ** The gRPC server *)

Record grpcInv tr w L : Prop := {
  gv_quit : gs_quit (lf_grpc w) = bool_decide (3 ≤ length (stopLog tr))%nat;
  gv_done : gs_done (lf_grpc w) = bool_decide (4 ≤ length (stopLog tr))%nat;
  gv_rpcs : ∀ t, t ∈ gs_rpcs (lf_grpc w) ↔ ∃ d, L !! t = Some d ∧ d_rpc d = true
}.

(** The handlers that run, when [t] comes to the duty [d']. *)
Lemma rpcs_update (X X' : gset nat) L t d' :
  (∀ u, u ∈ X ↔ ∃ d, L !! u = Some d ∧ d_rpc d = true) → (t ∈ X' ↔ d_rpc d' = true) → (∀ u, u ≠ t → u ∈ X' ↔ u ∈ X) →
  ∀ u, u ∈ X' ↔ ∃ d, <[t := d']> L !! u = Some d ∧ d_rpc d = true.
Proof.
  intros HX Ht Hoth u. destruct (decide (u = t)) as [->|Hne].
  - rewrite Ht, lookup_insert_eq. naive_solver.
  - rewrite lookup_insert_ne, Hoth by done. apply HX.
Qed.
Lemma rpcs_same (X : gset nat) L t d d' :
  (∀ u, u ∈ X ↔ ∃ d, L !! u = Some d ∧ d_rpc d = true) → L !! t = Some d → d_rpc d' = d_rpc d →
  ∀ u, u ∈ X ↔ ∃ d, <[t := d']> L !! u = Some d ∧ d_rpc d = true.
Proof. intros HX Ht Hd. eapply rpcs_update; [done| |done]. rewrite (HX t), Hd. naive_solver. Qed.

(** An event that is neither part of [Stop] nor of the gRPC server. *)
Lemma grpcInv_frame tr w w' L t a d d' :
  grpcInv tr w L → L !! t = Some d → stageOf a = None → gs_quit (lf_grpc w') = gs_quit (lf_grpc w) →
  gs_done (lf_grpc w') = gs_done (lf_grpc w) → gs_rpcs (lf_grpc w') = gs_rpcs (lf_grpc w) → d_rpc d' = d_rpc d →
  grpcInv (tr ++ [(t, a)]) w' (<[t := d']> L).
Proof.
  intros [G1 G2 G3] Ht Ha Hq Hd Hr Hd'. split; rewrite ?stopLog_snoc, ?Ha, ?Hq, ?Hd, ?Hr; [done|done|]. by eapply rpcs_same.
Qed.

(** The next step of [Stop]. *)
Lemma grpcInv_stage tr w w' L t a d d' n s :
  stopInv tr w L → grpcInv tr w L → L !! t = Some d → d_stop d = Some n → stageOf a = Some s → (n < 5)%nat →
  gs_quit (lf_grpc w') = bool_decide (3 ≤ S n)%nat → gs_done (lf_grpc w') = bool_decide (4 ≤ S n)%nat →
  gs_rpcs (lf_grpc w') = gs_rpcs (lf_grpc w) → d_rpc d' = d_rpc d → grpcInv (tr ++ [(t, a)]) w' (<[t := d']> L).
Proof.
  intros SI [G1 G2 G3] Ht Hn Ha Hlt Hq Hd Hr Hd'.
  assert (length (stopLog tr ++ [s]) = S n) as Hlen.
  { rewrite length_app, (si_stage _ _ _ SI _ _ _ Ht Hn), length_take. cbn. lia. }
  split; rewrite ?stopLog_snoc, ?Ha, ?Hlen, ?Hr; [done|done|]. by eapply rpcs_same.
Qed.

Lemma stage_flags tr w L t d n :
  stopInv tr w L → grpcInv tr w L → L !! t = Some d → d_stop d = Some n → (n < 5)%nat →
  gs_quit (lf_grpc w) = bool_decide (3 ≤ n)%nat ∧ gs_done (lf_grpc w) = bool_decide (4 ≤ n)%nat.
Proof.
  intros SI [-> -> _] Ht Hn Hlt. assert (length (stopLog tr) = n) as ->; [|done].
  rewrite (si_stage _ _ _ SI _ _ _ Ht Hn), length_take. cbn. lia.
Qed.

Lemma grpc_step t e x w w' L d d' tr :
  sperforms t e x w w' L d d' → stopInv tr w L → grpcInv tr w L → grpcInv (tr ++ [(t, did e x)]) w' (<[t := d']> L).
Proof.
  intros ((forced & He & Hf) & Ht & Ho) SI GI.
  assert (∀ n, d_stop d = Some n → (n < 5)%nat → gs_quit (lf_grpc w) = bool_decide (3 ≤ n)%nat ∧ gs_done (lf_grpc w) = bool_decide (4 ≤ n)%nat)
    as Hfl by (intros; by eapply stage_flags).
  destruct e; cbn [lifeEffect] in He; cbn [dobey] in Ho;
    try (by life_inv He Ho; (eapply grpcInv_frame; [exact GI|exact Ht|..]); repeat case_match).
  - injection He as <- _. dobey_inv Ho. destruct (Hfl 1%nat) as [Hq Hd]; [done|lia|].
    by eapply (grpcInv_stage _ _ _ _ _ _ d _ 1); eauto; lia.
  - injection He as <- _. dobey_inv Ho. destruct (Hfl 0%nat) as [Hq Hd]; [done|lia|].
    by eapply (grpcInv_stage _ _ _ _ _ _ d _ 0); eauto; lia.
  - destruct (lf_regs w !! r) as [st|]; [|done]. destruct (enterOnce t (rg_once st)) as [[o run]|]; [|done].
    injection He as <- _. apply dguard_Some in Ho as [_ ->]. by destruct x; (eapply grpcInv_frame; [exact GI|exact Ht|..]).
  - destruct (enterOnce t (lf_stopOnce w)) as [[o run]|]; [|done]. injection He as <- _. apply dguard_Some in Ho as [_ ->].
    by destruct x; (eapply grpcInv_frame; [exact GI|exact Ht|..]).
  - injection He as <- _. dobey_inv Ho. destruct (Hfl 2%nat) as [Hq Hd]; [done|lia|].
    by eapply (grpcInv_stage _ _ _ _ _ _ d _ 2); eauto; lia.
  - case_decide; [|done]. injection He as <- _. dobey_inv Ho. destruct (Hfl 3%nat) as [Hq Hd]; [done|lia|].
    by eapply (grpcInv_stage _ _ _ _ _ _ d _ 3); eauto; lia.
  - injection He as <- _. apply dguard_Some in Ho as [Ho ->]. dguard_inv. destruct (Hfl 4%nat) as [Hq Hd]; [done|lia|].
    by eapply (grpcInv_stage _ _ _ _ _ _ d _ 4); eauto; lia.
  - dobey_inv Ho. destruct (gs_quit (lf_grpc w) || bool_decide (gs_serving (lf_grpc w) = ∅)); injection He as <- <-;
      pose proof (Hf _ eq_refl) as ->; [by eapply grpcInv_frame; [exact GI|exact Ht|..]|].
    destruct GI as [G1 G2 G3]. split; rewrite ?stopLog_snoc; cbn [with_grpc lf_grpc gs_quit gs_done gs_rpcs stageOf did projT1]; [done|done|].
    eapply rpcs_update; [exact G3|set_solver|set_solver].
  - injection He as <- _. dobey_inv Ho. destruct GI as [G1 G2 G3].
    split; rewrite ?stopLog_snoc; cbn [with_grpc lf_grpc gs_quit gs_done gs_rpcs stageOf did projT1]; [done|done|].
    eapply rpcs_update; [exact G3|set_solver|set_solver].
Qed.
End facts.
