(* ===== verification/Lifecycle.v ===== *)
(** * Theorems on the server's lifecycle

    Any number of [Start] and [Stop] calls at the same time: [Stop] takes effect
    once and in order, every lease is revoked exactly once, nobody waits for
    ever; and what [NewServer] and [Start] return. *)

From S2P Require Import Prelude Errors Registry RegistryFacts Peers PeersFacts Prog Interleave Server ServerDiscipline ServerFacts.

(** ** The invariant of a run *)

Section lifecycle.
Context (ErrServerStopped : error) (isServerStopped : error → bool) (s : Server).
Implicit Types (c : system sans life) (L : gmap nat duty) (d : duty) (t r : nat) (tr : strace).
Notation lifeStart := (lifeStart ErrServerStopped isServerStopped s).
Notation dobey := (dobey (sv_etcd s)).

Record lifeInv tr c L : Prop := {
  lv_pool : pooled dobey dnone c L;
  lv_mu : heldBy d_mu (lf_mu (sy_shared c)) L;
  lv_stop : stopInv (sv_etcd s) tr (sy_shared c) L;
  lv_reg : regInv tr (sy_shared c) L;
  lv_grpc : grpcInv tr (sy_shared c) L
}.

Lemma life_step tr c L t a c' :
  lifeInv tr c L → sysStep lifeEffect c (t, a) c' →
  ∃ d d', performs lifeEffect dobey t (projT1 a) (projT2 a) (sy_shared c) (sy_shared c') L d d' ∧
    lifeInv (tr ++ [(t, a)]) c' (<[t := d']> L).
Proof.
  intros [I1 I2 I3 I4 I5] Hstep. destruct (pooled_step _ _ _ _ _ _ _ _ I1 Hstep) as (d & d' & Hp & I1').
  exists d, d'. split; [done|]. destruct a as [e x]. split; [done|by eapply mu_step|by eapply stop_step|by eapply reg_step|by eapply grpc_step].
Qed.

Lemma life_start calls : lifeInv [] (lifeStart calls) ((λ _, dnone) <$> calls).
Proof.
  split; [apply pooled_start, lifeProgram_obeys|by apply heldBy_start|..]; cbn [Server.lifeStart sy_shared newLife].
  - split; [by apply heldBy_start| |done|done]. by intros t d n ->%start_idle.
  - split; try done.
    + intros r. by apply heldBy_start.
    + by intros t d r b ->%start_idle.
    + by intros t d r b ->%start_idle.
    + by intros ? ? ? ? ?%elem_of_nil.
    + by intros ? ? ? ? ?%elem_of_nil.
    + by intros ? ? ? ? ?%elem_of_nil.
  - split; [done|done|]. intros t. split; [set_solver|]. by intros (d & ->%start_idle & Hd).
Qed.

Lemma life_run calls tr c : lifeRun (lifeStart calls) tr c → ∃ L, lifeInv tr c L.
Proof.
  induction 1 as [|tr c1 [t a] c2 _ [L HI] Hstep]; [eexists; apply life_start|].
  destruct (life_step _ _ _ _ _ _ HI Hstep) as (d & d' & _ & HI'). eauto.
Qed.

(** ** [Stop] *)

(** The [once] of [Stop] changes when a goroutine enters it or leaves it. *)
Lemma effect_stopOnce t e w w' f :
  lifeEffect t e w = Some (w', f) →
  (lf_stopOnce w' = lf_stopOnce w ∧ (e = SvStopOnce → lf_stopOnce w = Ran)) ∨
  (e = SvStopOnce ∧ lf_stopOnce w = Fresh ∧ lf_stopOnce w' = Running t) ∨ (e = SvStopEnd ∧ lf_stopOnce w' = Ran).
Proof.
  intros He. destruct e; cbn [lifeEffect] in He; try (left; by injection He as <- _).
  all: try (right; right; by injection He as <- _).
  all: try (destruct (lf_stopOnce w); simpl in He; [|done|]; injection He as <- _; [by right; left|by left]).
  all: left; repeat (case_match; try done); by injection He as <- _.
Qed.

(** A call of [Stop] has not begun, or is inside the function of [stopOnce], or that
    function has returned. *)
Lemma stop_phase calls tr c t :
  lifeRun (lifeStart calls) tr c → calls !! t = Some CStop →
  sy_pool c !! t = Some (Stop s) ∨ lf_stopOnce (sy_shared c) = Running t ∨ lf_stopOnce (sy_shared c) = Ran.
Proof.
  intros Hrun Ht. induction Hrun as [|tr c1 a c2 Hrun IH Hstep].
  - left. cbn [Server.lifeStart sy_pool]. by rewrite lookup_fmap, Ht.
  - destruct Hstep as [u e k w' forced x Hp He _]. cbn [sy_shared sy_pool] in *.
    destruct (effect_stopOnce _ _ _ _ _ He) as [[Heq Hran]|[(-> & Hf & Heq)|[-> Heq]]]; rewrite Heq; [|..|by right; right].
    + destruct IH as [IH|IH]; [|by right]. destruct (decide (u = t)) as [->|Hut]; [|left; by rewrite lookup_insert_ne].
      right. right. apply Hran. rewrite IH in Hp. unfold Stop in Hp. simpl in Hp. by injection Hp as <-.
    + destruct (decide (u = t)) as [->|Hut]; [by right; left|]. left. rewrite lookup_insert_ne by done.
      destruct IH as [IH|[IH|IH]]; [done|congruence..].
Qed.

(** [C15] [Stop] takes effect once: however many [Start] and [Stop] calls run at
    the same time, while handlers run and listeners fail, the context is
    cancelled, the registration read, the gRPC server told to stop, its handlers
    awaited and the etcd client closed at most once each, in this order; and when any
    call of [Stop] has returned, whether it did the work or came later, all of it
    is done. *)
Theorem server_stop_once calls tr c :
  lifeRun (lifeStart calls) tr c →
  (∃ n, stopLog tr = take n stages) ∧
  (∀ t p, calls !! t = Some CStop → sy_pool c !! t = Some p → finished p = true → stopLog tr = take (lastStage (sv_etcd s)) stages).
Proof.
  intros Hrun. destruct (life_run _ _ _ Hrun) as [L HI]. pose proof (lv_stop _ _ _ HI) as SI. split.
  - destruct (lf_stopOnce (sy_shared c)) as [|u|] eqn:Hs.
    + exists 0%nat. by apply (si_fresh _ _ _ _ SI).
    + pose proof (si_runner _ _ _ _ SI) as Hr. rewrite Hs in Hr. destruct (proj1 (Hr u) eq_refl) as (d & Hd & Hst).
      unfold stopping in Hst. destruct (d_stop d) as [n|] eqn:Hn; [|done]. exists n. by eapply (si_stage _ _ _ _ SI).
    + eexists. by apply (si_ran _ _ _ _ SI).
  - intros t p Ht Hp Hf. apply (si_ran _ _ _ _ SI). destruct (stop_phase _ _ _ _ Hrun Ht) as [Hb|[Hs|]]; [|..|done].
    + rewrite Hb in Hp. by injection Hp as <-.
    + pose proof (si_runner _ _ _ _ SI) as Hr. rewrite Hs in Hr. destruct (proj1 (Hr t) eq_refl) as (d & Hd & Hst).
      by rewrite (finished_idle _ _ _ _ _ _ _ (lv_pool _ _ _ HI) Hp Hd Hf) in Hst.
Qed.

(** ** Leases *)

Lemma lease_asked calls tr c u a r lease :
  lifeRun (lifeStart calls) tr c → allFinished c = true → (u, a) ∈ tr → newOf a = Some (r, lease) → revokeCalls r tr = 1%nat.
Proof.
  intros Hrun Hf Hin Ha. destruct (life_run _ _ _ Hrun) as [L HI]. pose proof (lv_reg _ _ _ HI) as RI.
  destruct (proj1 (fmap_Some _ _ _) (ri_new _ _ _ RI _ _ _ _ Hin Ha)) as (st & Hst & _).
  assert (∀ t d, L !! t = Some d → d = dnone) as Hidle by (intros t d; by eapply allFinished_idle; [apply HI|]).
  pose proof (ri_count _ _ _ RI _ _ Hst) as Hc. destruct (rg_once st); simpl in Hc; [| |done].
  - destruct Hc as (_ & t & d & ->%Hidle & Hd). done.
  - destruct Hc as (d & b & ->%Hidle & Hd & _). done.
Qed.

(** [C14] etcd is asked exactly once to revoke every lease: in every interleaving of
    [Start] and [Stop] calls, the revocation of a registration's lease is asked for at
    most once, by whoever comes first, and only for a registration that was made;
    when all calls have returned it was asked for exactly once for every
    registration, and the lease has been revoked if and only if that one call
    returned no error. *)
Theorem server_lease_revoked_once calls tr c :
  lifeRun (lifeStart calls) tr c →
  (∀ r, (revokeCalls r tr ≤ 1)%nat) ∧
  (∀ u a r lease, (u, a) ∈ tr → revokeOf a = Some (r, lease) → ∃ u' a', (u', a') ∈ tr ∧ newOf a' = Some (r, lease)) ∧
  (allFinished c = true → ∀ u a r lease, (u, a) ∈ tr → newOf a = Some (r, lease) →
     revokeCalls r tr = 1%nat ∧ ∃ t x, (t, did (SvRevoke r lease) x) ∈ tr ∧ (revoked r tr ↔ x = None)).
Proof.
  intros Hrun. destruct (life_run _ _ _ Hrun) as [L HI]. pose proof (lv_reg _ _ _ HI) as RI. split_and!.
  - intros r. destruct (lf_regs (sy_shared c) !! r) as [st|] eqn:Hst; [|rewrite (ri_none _ _ _ RI) by done; lia].
    pose proof (ri_count _ _ _ RI _ _ Hst) as Hc. destruct (rg_once st); simpl in Hc; [lia| |lia].
    destruct Hc as (d & b & _ & _ & ->). destruct b; lia.
  - intros u a r lease Hin Ha. destruct (proj1 (fmap_Some _ _ _) (ri_revoke _ _ _ RI _ _ _ _ Hin Ha)) as (st & Hst & ->).
    by apply (ri_made _ _ _ RI) in Hst.
  - intros Hf u a r lease Hin Ha. pose proof (lease_asked _ _ _ _ _ _ _ Hrun Hf Hin Ha) as Hone.
    split; [done|]. destruct (revokeCalls_one _ _ Hone) as (t & lease' & x & Hx & Huniq).
    assert (lease' = lease) as ->.
    { pose proof (ri_revoke _ _ _ RI _ _ r lease' Hx eq_refl) as H1. pose proof (ri_new _ _ _ RI _ _ _ _ Hin Ha) as H2. congruence. }
    exists t, x. split; [done|]. split; [|intros ->; by exists t, lease]. intros (u' & l' & Hu'). symmetry. by apply (Huniq u' l').
Qed.

(** The node is unregistered before its etcd client is closed: if [Stop] saw
    a registration, that registration's lease has been revoked, by [Stop] or by
    the returning [Start], when the etcd client is closed. *)
Theorem server_unregisters_before_close calls tr t x c u a r lease :
  lifeRun (lifeStart calls) (tr ++ [(t, did SvEtcdClose x)]) c → (u, a) ∈ tr → seenOf a = Some (r, lease) → revokeCalls r tr = 1%nat.
Proof.
  intros (c1 & Hrun & Hstep)%sysRun_last Hin Ha. destruct (life_run _ _ _ Hrun) as [L HI].
  destruct (life_step _ _ _ _ _ _ HI Hstep) as (d & d' & (_ & Ht & Ho) & _). cbn [did projT1 projT2] in Ho.
  apply dguard_Some in Ho as [Ho _]. dguard_inv. assert (stopping d = true) as Hs by (unfold stopping; by rewrite Ho).
  destruct (ri_seen _ _ _ (lv_reg _ _ _ HI) _ _ _ _ Hin Ha) as [(y & Hu & Hy & Hs')|(st & Hst & Hran)%fmap_Some].
  - pose proof (stopper_unique _ _ _ _ _ _ _ _ (lv_stop _ _ _ HI) Ht Hs Hu Hs') as ->.
    assert (y = d) as -> by congruence.
    match goal with Hr : d_reg d = None |- _ => by rewrite Hr in Hy end.
  - pose proof (ri_count _ _ _ (lv_reg _ _ _ HI) _ _ Hst) as Hc. by rewrite <-Hran in Hc.
Qed.

(** ** A registration that [Stop] misses *)

(** [Start] has published the registration [r] in [s.registration]. *)
Definition published r tr : Prop := ∃ v lis, (v, did (ans := sans) (SvSetReg r lis) tt) ∈ tr.

Lemma registration_published calls tr c r :
  lifeRun (lifeStart calls) tr c → lf_registration (sy_shared c) = Some r → published r tr.
Proof.
  intros Hrun. induction Hrun as [|tr c1 [t a] c2 Hrun IH Hs]; [done|].
  assert (published r tr → published r (tr ++ [(t, a)])) as Hk by (intros (v & lis & Hin); exists v, lis; set_solver).
  remember (t, a) as ta eqn:Hta. destruct Hs as [u e k w' forced x _ He _]. injection Hta as <- <-. cbn [sy_shared].
  destruct e; cbn [lifeEffect] in He; try (injection He as <- _; intros; by apply Hk, IH);
    try (repeat (case_match; try done); injection He as <- _; intros; by apply Hk, IH).
  injection He as <- _. intros [= ->]. destruct x. exists u, lis. set_solver.
Qed.

(** A lease is revoked by a goroutine that has published the registration or found
    it published; a registration is made when the node's entry has been put. *)
Definition regOrder (h : list (act (ans := sans))) (e : sev) : Prop :=
  match e with
  | SvRevoke r _ => (∃ lis, did (ans := sans) (SvSetReg r lis) tt ∈ h) ∨ ∃ l, did (ans := sans) SvGetReg (Some (r, l)) ∈ h
  | SvNewReg lease => did (ans := sans) (SvPut (ServiceKey (sv_svcName s) (Address s)) (Address s) lease) None ∈ h
  | _ => True
  end.

Lemma CloseP_order h r lease :
  (∃ lis, did (ans := sans) (SvSetReg r lis) tt ∈ h) ∨ (∃ l, did (ans := sans) SvGetReg (Some (r, l)) ∈ h) →
  always regOrder h (CloseP (r, lease)).
Proof.
  intros Hh. cbn. split; [done|]. intros []; [|done]. cbn. split; [done|]. intros ?. split; [done|]. intros ?. split; [|done].
  destruct Hh as [(lis & Hin)|(l & Hin)]; [left; exists lis|right; exists l]; set_solver.
Qed.
Lemma Start_order : always regOrder [] (Start ErrServerStopped isServerStopped s).
Proof.
  unfold Start. cbn [bind event always]. split; [done|]. intros [err|lis]; [done|]. apply always_bind.
  { unfold RegisterP. destruct (sv_etcd s); cbn; [|done]. split; [done|]. intros [err|lease]; [done|]. cbn. split; [done|].
    intros [err|]; [done|]. cbn. split; [done|]. intros [err|]; [done|]. cbn. split; [set_solver|done]. }
  intros t [err|[r lease]] _; [done|]. cbn [bind event always fst]. do 3 (split; [done|]; intros []). apply always_finally.
  - apply always_bind; [cbn; split; [done|]; by intros []|]. intros t' [err|] _; [case_match|]; done.
  - intros t' r' _. apply always_bind; [|done]. apply CloseP_order. left. exists lis. set_solver.
Qed.
Lemma Stop_order : always regOrder [] (Stop s).
Proof.
  unfold Stop. cbn [bind event always]. split; [done|]. intros []; [|done]. apply always_finally; [|by intros; split].
  cbn [bind event always]. do 2 (split; [done|]; intros []). split; [done|]. intros reg. split; [done|]. intros [].
  apply always_bind; [|intros t [] _; cbn; by destruct (sv_etcd s)].
  destruct reg as [[r lease]|]; [|done]. apply always_bind; [|done]. apply CloseP_order. right. exists lease. set_solver.
Qed.
Lemma lifeProgram_order o : always regOrder [] (lifeProgram ErrServerStopped isServerStopped s o).
Proof.
  destruct o as [| | |lis err]; cbn [lifeProgram]; [apply always_bind; [apply Start_order|done]|apply Stop_order| |done].
  cbn. split; [done|]. by intros [].
Qed.

Lemma life_order calls tr c tr1 t a tr2 :
  lifeRun (lifeStart calls) tr c → tr = tr1 ++ (t, a) :: tr2 → regOrder (eventsOf t tr1) (projT1 a).
Proof.
  intros Hrun Heq. eapply (sysRun_always _ (λ _, regOrder) _ _ _ Hrun); [|done]. intros u p Hp. cbn in Hp. rewrite lookup_fmap in Hp.
  destruct (calls !! u); [|done]. injection Hp as <-. apply lifeProgram_order.
Qed.

Lemma revoke_published calls tr c t r lease x :
  lifeRun (lifeStart calls) tr c → (t, did (SvRevoke r lease) x) ∈ tr → published r tr.
Proof.
  intros Hrun (tr1 & tr2 & ->)%list_elem_of_split. destruct (life_order _ _ _ _ _ _ _ Hrun eq_refl) as [(lis & Hin)|(l & Hin)];
    apply elem_of_eventsOf in Hin; [exists t, lis; set_solver|].
  apply list_elem_of_split in Hin as (h1 & h2 & ->). rewrite <-app_assoc in Hrun. apply sysRun_app in Hrun as (c1 & Hrun1 & Hrun2).
  cbn in Hrun2. apply sysRun_cons in Hrun2 as (c2 & Hs & _).
  destruct (registration_published _ _ _ r Hrun1) as (v & lis & Hin); [|exists v, lis; set_solver].
  remember (t, did SvGetReg (Some (r, l))) as ta eqn:Hta. destruct Hs as [u e k w' forced y _ He Hy].
  assert (e = SvGetReg) as -> by (by apply (f_equal (λ ta, projT1 ta.2)) in Hta). injection He as _ <-. specialize (Hy _ eq_refl).
  apply (f_equal (λ ta, seenOf ta.2)) in Hta. cbn in Hta. rewrite Hy in Hta. destruct (lf_registration (sy_shared c1)) as [r'|]; [|done].
  cbn in Hta. destruct (lf_regs _ !! r'); [|done]. by injection Hta as ->.
Qed.

Lemma revokeCalls_none r tr : (∀ t lease x, (t, did (SvRevoke r lease) x) ∉ tr) → revokeCalls r tr = 0%nat.
Proof.
  intros Hno. unfold revokeCalls. destruct (filter _ tr) as [|[t [e x]] l] eqn:Hf; [done|].
  assert ((t, existT e x) ∈ filter (λ ta : nat * act (ans := sans), fst <$> revokeOf ta.2 = Some r) tr) as [Hr Hin]%list_elem_of_filter by (rewrite Hf; set_solver).
  destruct e; try done. injection Hr as ->. by destruct (Hno t lease x).
Qed.

(** Calls on an etcd client that has been closed fail. *)
Definition closedClientFails tr : Prop :=
  ∀ tr1 u x tr2 v r lease y, tr = tr1 ++ (u, did (ans := sans) SvEtcdClose x) :: tr2 →
    (v, did (ans := sans) (SvRevoke r lease) y) ∈ tr2 → y ≠ None.

(** [C31] A gap in the lifecycle.  Whenever [Stop] closes the etcd client before [Start]
    has published the registration it made, and calls on a closed client fail: the
    node's entry had been put into the directory, etcd is asked to revoke the lease
    only through the closed client, and when all calls have returned the lease
    has not been revoked, so that the entry stays until the lease expires. *)
Theorem server_stop_race calls tr1 u x tr2 c v r lease :
  let tr := tr1 ++ (u, did SvEtcdClose x) :: tr2 in
  lifeRun (lifeStart calls) tr c → allFinished c = true → closedClientFails tr →
  (v, did (SvNewReg lease) r) ∈ tr → ¬ published r tr1 →
  (v, did (ans := sans) (SvPut (ServiceKey (sv_svcName s) (Address s)) (Address s) lease) None) ∈ tr ∧
  revokeCalls r tr1 = 0%nat ∧ revokeCalls r tr = 1%nat ∧ ¬ revoked r tr.
Proof.
  intros tr Hrun Hf Hfails Hnew Hpub.
  assert (∀ t l y, (t, did (SvRevoke r l) y) ∉ tr1) as Hno.
  { intros t l y Hin. apply Hpub. apply sysRun_app in Hrun as (c1 & Hrun1 & _). by eapply revoke_published. }
  split_and!; [|by apply revokeCalls_none|by eapply lease_asked|].
  - apply list_elem_of_split in Hnew as (h1 & h2 & Heq). pose proof (life_order _ _ _ _ _ _ _ Hrun Heq) as Hput%elem_of_eventsOf.
    rewrite Heq. set_solver.
  - intros (w & l & [Hin|Hin]%elem_of_app); [by destruct (Hno w l None)|]. apply elem_of_cons in Hin as [?|Hin]; [done|].
    by destruct (Hfails tr1 u x tr2 w r l None eq_refl Hin).
Qed.

(** ** Progress *)

Definition lifeWaits (e : sev) : bool :=
  match e with SvLock | SvOnce _ | SvStopOnce | SvServeEnd _ | SvDrained => true | _ => false end.

Definition lifeAnswer (e : sev) : sans e :=
  match e return sans e with
  | SvListen _ => inr 0%nat
  | SvGrant _ => inr 7
  | SvPut _ _ _ | SvKeepAlive _ | SvServeEnd _ | SvWaitDone _ | SvRevoke _ _ | SvEtcdClose => None
  | SvNewReg _ => 0%nat
  | SvGetReg => None
  | SvCtxErr | SvOnce _ | SvStopOnce | SvServe _ | SvRpc => false
  | _ => tt
  end.

Lemma life_enabled t e w : lifeWaits e = false → is_Some (lifeEffect t e w).
Proof. destruct e; simpl; try done; repeat case_match; by eauto. Qed.

Lemma life_enabled_step c t e k : sy_pool c !! t = Some (Vis e k) → is_Some (lifeEffect t e (sy_shared c)) → canStep lifeEffect c.
Proof. apply (enabled_step _ lifeAnswer). Qed.

(** A goroutine that holds the mutex, is inside a registration's [once] or is a
    handler can go on. *)
Lemma inner_steps tr c L t d :
  lifeInv tr c L → L !! t = Some d → d_mu d = true ∨ d_once d ≠ None ∨ d_rpc d = true → canStep lifeEffect c.
Proof.
  intros HI Ht Hd. destruct (busy_next _ _ _ _ _ _ (lv_pool _ _ _ HI) Ht) as (e & k & Hp & Ho); [by intros ->; destruct Hd as [|[|]]|].
  eapply life_enabled_step; [done|]. apply life_enabled. destruct (lifeWaits e) eqn:Hw; [|done]. exfalso.
  destruct (Ho (lifeAnswer e)) as [d' Ho']. destruct e; try done; dobey_inv Ho'; destruct Hd as [Hd|[Hd|Hd]]; congruence.
Qed.

(** A goroutine that neither waits for [stopOnce] nor in [Serve] can go on, or the
    one it waits for can. *)
Lemma mutual_steps tr c L t d e k :
  lifeInv tr c L → L !! t = Some d → sy_pool c !! t = Some (Vis e k) → e ≠ SvStopOnce → (∀ lis, e ≠ SvServeEnd lis) → canStep lifeEffect c.
Proof.
  intros HI Ht Hp Hne Hns. destruct (lifeEffect t e (sy_shared c)) as [y|] eqn:He; [eapply life_enabled_step; [done|by rewrite He]|].
  destruct (lifeWaits e) eqn:Hw; [|destruct (life_enabled t e (sy_shared c) Hw); congruence].
  destruct e; try done; cbn [lifeEffect] in He.
  - destruct (lf_mu (sy_shared c)) as [u|] eqn:Hm; [|done]. apply (lv_mu _ _ _ HI) in Hm as (y & Hu & Hy).
    eapply (inner_steps _ _ _ u); eauto.
  - by destruct (Hns lis).
  - pose proof (po_obeys _ _ _ _ (lv_pool _ _ _ HI) _ _ _ Hp Ht (lifeAnswer (SvOnce r))) as Ho.
    destruct (dobey (SvOnce r) _ d) as [d'|] eqn:Hob; [clear Ho|done]. apply dguard_Some in Hob as [Hob _]. dguard_inv.
    destruct (d_reg d) as [[r' lease]|] eqn:Hr; [|done]. simplify_eq/=.
    destruct (proj1 (fmap_Some _ _ _) (ri_reg _ _ _ (lv_reg _ _ _ HI) _ _ _ _ Ht Hr)) as (st & Hst & _). rewrite Hst in He.
    destruct (rg_once st) as [|u|] eqn:Hone; try done.
    pose proof (ri_count _ _ _ (lv_reg _ _ _ HI) _ _ Hst) as Hc. rewrite Hone in Hc. destruct Hc as (y & b & Hu & Hy & _).
    eapply (inner_steps _ _ _ u); [done|done|]. right. left. congruence.
  - case_decide as Hr; [done|]. apply set_choose_L in Hr as [u Hu]. apply (gv_rpcs _ _ _ (lv_grpc _ _ _ HI)) in Hu as (y & Hy & Hrpc).
    eapply (inner_steps _ _ _ u); eauto.
Qed.

(** The goroutine inside [stopOnce] can go on, or the one it waits for can. *)
Lemma stopper_steps tr c L u :
  lifeInv tr c L → lf_stopOnce (sy_shared c) = Running u → canStep lifeEffect c.
Proof.
  intros HI Hs. pose proof (si_runner _ _ _ _ (lv_stop _ _ _ HI)) as Hr. rewrite Hs in Hr. destruct (proj1 (Hr u) eq_refl) as (y & Hu & Hy).
  destruct (busy_next _ _ _ _ _ _ (lv_pool _ _ _ HI) Hu) as (e' & k' & Hp' & Ho'); [by intros ->|].
  eapply (mutual_steps _ _ _ u y e' k'); [done|done|done|..].
  - intros ->. destruct (Ho' (lifeAnswer _)) as [y' Hy']. dobey_inv Hy'. unfold stopping in Hy. by rewrite Hy' in Hy.
  - intros lis ->. destruct (Ho' (lifeAnswer _)) as [y' Hy']. dobey_inv Hy'. unfold stopping in Hy. by rewrite Hy' in Hy.
Qed.

(** The goroutines in [p] wait in [Serve] for the server to be stopped. *)
Definition inServe (p : prog sans unit) : Prop := ∃ lis k, p = Vis (SvServeEnd lis) k.

(** If nobody can go on, everybody is in [Serve], and the server has not been
    stopped. *)
Lemma life_stuck tr c L t p :
  lifeInv tr c L → sy_pool c !! t = Some p → finished p = false →
  canStep lifeEffect c ∨ inServe p ∧ gs_quit (lf_grpc (sy_shared c)) = false.
Proof.
  intros HI Hp Hf. destruct p as [a|v|e k]; [done|done|]. destruct (pooled_local _ _ _ _ _ _ (lv_pool _ _ _ HI) Hp) as [d Hd].
  assert (e = SvStopOnce ∨ (∃ lis, e = SvServeEnd lis) ∨ e ≠ SvStopOnce ∧ ∀ lis, e ≠ SvServeEnd lis) as [->|[[lis ->]|[Hn1 Hn2]]]
    by (destruct e; eauto; right; right; done).
  - left. destruct (lf_stopOnce (sy_shared c)) as [|u|] eqn:Hs; [|by eapply stopper_steps|];
      (eapply life_enabled_step; [done|]; cbn [lifeEffect]; rewrite Hs; simpl; eauto).
  - destruct (gs_quit (lf_grpc (sy_shared c))) eqn:Hq; [|right; split; [by exists lis, k|done]]. left.
    destruct (gs_done (lf_grpc (sy_shared c))) eqn:Hdn.
    { eapply life_enabled_step; [done|]. cbn [lifeEffect]. unfold serveResult. rewrite Hdn. eauto. }
    pose proof (gv_quit _ _ _ (lv_grpc _ _ _ HI)) as Q. pose proof (gv_done _ _ _ (lv_grpc _ _ _ HI)) as D.
    rewrite Hq in Q. rewrite Hdn in D. symmetry in Q, D. apply bool_decide_eq_true in Q. apply bool_decide_eq_false in D.
    destruct (lf_stopOnce (sy_shared c)) as [|u|] eqn:Hs; [|by eapply stopper_steps|].
    + rewrite (si_fresh _ _ _ _ (lv_stop _ _ _ HI) Hs) in Q. cbn in Q. lia.
    + rewrite (si_ran _ _ _ _ (lv_stop _ _ _ HI) Hs) in D. destruct D. destruct (sv_etcd s); cbn; lia.
  - left. by eapply mutual_steps.
Qed.

(** A [Stop] is never in [Serve]. *)
Definition noServe (e : sev) : Prop := match e with SvServeEnd _ => False | _ => True end.
Lemma CloseP_noServe reg : every noServe (CloseP reg).
Proof. destruct reg as [r lease]. cbn. split; [done|]. intros []; cbn; auto 12. Qed.
Lemma Stop_noServe : every noServe (Stop s).
Proof.
  unfold Stop. apply every_bind; [done|]. intros []; [|done]. apply every_finally; [|done].
  do 2 (apply every_bind; [done|]; intros _). apply every_bind; [done|]. intros reg. apply every_bind; [done|]. intros _.
  apply every_bind; [destruct reg as [reg|]; [|done]; by apply every_bind; [apply CloseP_noServe|]|]. intros _.
  do 2 (apply every_bind; [done|]; intros _). by destruct (sv_etcd s).
Qed.
Lemma Stop_not_serving calls tr c t p :
  lifeRun (lifeStart calls) tr c → calls !! t = Some CStop → sy_pool c !! t = Some p → ¬ inServe p.
Proof.
  intros Hrun Ht Hp (lis & k & ->). destruct (sysRun_pool_every _ noServe _ _ _ t (Stop s) Hrun) as (p & Hp' & He).
  - cbn [Server.lifeStart sy_pool]. by rewrite lookup_fmap, Ht.
  - apply Stop_noServe.
  - rewrite Hp in Hp'. injection Hp' as <-. by destruct He.
Qed.

Lemma life_steps calls tr c L :
  lifeRun (lifeStart calls) tr c → lifeInv tr c L → (∃ t, calls !! t = Some CStop) → allFinished c = false → canStep lifeEffect c.
Proof.
  intros Hrun HI [t Ht] (u & p & Hp & Hf)%unfinished. destruct (life_stuck _ _ _ _ _ HI Hp Hf) as [?|[_ Hq]]; [done|].
  destruct (pool_kept _ _ _ _ t (Stop s) Hrun) as [p' Hp']; [cbn [Server.lifeStart sy_pool]; by rewrite lookup_fmap, Ht|].
  destruct (finished p') eqn:Hf'.
  - destruct (stop_phase _ _ _ _ Hrun Ht) as [Hb|[Hs|Hs]]; [rewrite Hb in Hp'; by injection Hp' as <-|by eapply stopper_steps|].
    rewrite (gv_quit _ _ _ (lv_grpc _ _ _ HI)), (si_ran _ _ _ _ (lv_stop _ _ _ HI) Hs) in Hq. by destruct (sv_etcd s).
  - destruct (life_stuck _ _ _ _ _ HI Hp' Hf') as [?|[Hin _]]; [done|]. by destruct (Stop_not_serving _ _ _ _ _ Hrun Ht Hp').
Qed.

(** [C16] The lifecycle does not deadlock.  In every interleaving of [Start] and
    [Stop] calls with the handlers of the gRPC server: if some call has not returned
    and no goroutine can go on, then every such call is a [Start] whose [Serve] waits
    for connections, the server not having been stopped.  If [Stop] is among the
    calls this does not happen: while a call has not returned some goroutine can
    go on, and all calls can be run to their end.  No schedule goes on for ever. *)
Theorem server_no_deadlock calls tr c :
  lifeRun (lifeStart calls) tr c →
  (∀ t p, sy_pool c !! t = Some p → finished p = false → canStep lifeEffect c ∨ inServe p ∧ gs_quit (lf_grpc (sy_shared c)) = false) ∧
  Acc (after lifeEffect) c ∧
  ((∃ t, calls !! t = Some CStop) →
    (allFinished c = false → canStep lifeEffect c) ∧ ∃ tr' c', lifeRun c tr' c' ∧ allFinished c' = true).
Proof.
  intros Hrun. destruct (life_run _ _ _ Hrun) as [L HI]. split_and!; [intros t p; by eapply life_stuck|apply after_wf|]. intros Hstop.
  split; [by eapply life_steps|].
  apply (run_to_end _ (λ c, ∃ tr L, lifeRun (lifeStart calls) tr c ∧ lifeInv tr c L)); [| |eauto].
  - intros c1 [t a] c2 (tr1 & L1 & Hr1 & HI1) Hs. destruct (life_step _ _ _ _ _ _ HI1 Hs) as (d & d' & _ & HI2).
    exists (tr1 ++ [(t, a)]), (<[t := d']> L1). split; [by eapply sysRun_snoc|done].
  - intros c1 (tr1 & L1 & Hr1 & HI1). by eapply life_steps.
Qed.

(** ** What [Start] returns *)

(** [Start]: an error of listening or of registering is returned wrapped, and
    the listener is closed when the registration fails; otherwise the node is
    published, served and unregistered, and the error of serving is returned
    only if the server was not stopped: it is not [ErrServerStopped], and the
    context was not cancelled. *)
Theorem server_start_outcome (ev : list (act (ans := sans))) res :
  runs (Start ErrServerStopped isServerStopped s) ev (Val res) →
  (∃ err, ev = [did (SvListen (listenAddr s)) (inl err)] ∧
     res = Some (Wrap [Lit "listen on "; Lit (listenAddr s); Lit ": "] err [])) ∨
  (∃ lis q0, ev = did (SvListen (listenAddr s)) (inr lis) :: q0 ∧
     ((∃ q1 err, q0 = q1 ++ [did (SvLisClose lis) tt] ∧
         runs (RegisterP (sv_etcd s) (sv_svcName s) (advertiseAddr s) (so_LeaseTTL (sv_opts s))) q1 (Val (inl err)) ∧
         res = Some (Wrap [Lit "register locache service: "] err [])) ∨
      (∃ q1 reg qs e q2 q3 err', q0 = q1 ++ [did SvLock tt; did (SvSetReg reg.1 lis) tt; did SvUnlock tt] ++ qs ++ q2 ++ q3 ∧
         runs (Serve ErrServerStopped lis) qs (Val e) ∧
         runs (RegisterP (sv_etcd s) (sv_svcName s) (advertiseAddr s) (so_LeaseTTL (sv_opts s))) q1 (Val (inr reg)) ∧
         runs (CloseP reg) q3 (Val err') ∧
         (res = None ∨ ∃ err, e = Some err ∧ res = Some err ∧ isServerStopped err = false ∧ q2 = [did SvCtxErr false])))).
Proof.
  intros (lis & t0 & -> & Hr). destruct lis as [err|lis]; [left; exists err; by destruct Hr as [-> [= ->]]|].
  right. exists lis, t0. split; [done|]. cbn [bind] in Hr. apply runs_bind in Hr as [(t1 & t2 & [err|reg] & -> & Hreg & Hr)|(v & _ & ?)]; [| |done].
  - left. destruct Hr as (x1 & t3 & -> & -> & [= ->]). destruct x1. eauto.
  - right. destruct Hr as (x1 & ta & -> & x2 & tb & -> & x3 & tc & -> & Hr). destruct x1, x2, x3.
    apply runs_finally in Hr as (td & te & r' & -> & Hserve & [[Hcl <-]|(v & _ & ?)]); [|done].
    apply runs_bind in Hcl as [(tf & tg & err' & -> & Hcl & -> & _)|(v & _ & ?)]; [|done]. rewrite app_nil_r.
    apply runs_bind in Hserve as [(qs & ts & e & -> & Hq & Hs)|(v & _ & ?)]; [|done].
    exists t1, reg, qs, e, ts, tf, err'. split_and!; [by rewrite <-app_assoc|done|done|done|].
    destruct e as [err|]; [|destruct Hs as [-> [= ->]]; by left]. cbn [bind] in Hs. destruct (negb (isServerStopped err)) eqn:Hstop.
    + destruct Hs as (ended & tq & -> & -> & [= ->]). destruct ended; [by left|right]. exists err.
      apply negb_true_iff in Hstop. done.
    + destruct Hs as [-> [= ->]]. by left.
Qed.
End lifecycle.

(** ** Construction *)

(** The options of the package. *)
Inductive packageOption : ServerOption → Prop :=
| po_endpoints endpoints : packageOption (WithEtcdEndpoints endpoints)
| po_dialTimeout timeout : packageOption (WithDialTimeout timeout)
| po_leaseTTL seconds : packageOption (WithLeaseTTL seconds)
| po_advertise addr : packageOption (WithAdvertiseAddress addr)
| po_tls certFile keyFile : packageOption (WithTLS certFile keyFile).

Lemma options_positive opts :
  Forall packageOption opts →
  0 < so_DialTimeout (applyServerOptions opts) ∧ 0 < so_LeaseTTL (applyServerOptions opts) ∧ so_MaxMsgSize (applyServerOptions opts) = 4 * 1024 * 1024.
Proof.
  assert (0 < so_DialTimeout DefaultServerOptions ∧ 0 < so_LeaseTTL DefaultServerOptions ∧ so_MaxMsgSize DefaultServerOptions = 4 * 1024 * 1024)
    as H0 by done.
  revert H0. unfold applyServerOptions. generalize DefaultServerOptions as o. intros o Ho Hall. revert o Ho. induction Hall as [|opt opts Hopt _ IH]; intros o (Hd & Hl & Hm); [done|].
  cbn [foldl]. apply IH. destruct Hopt; unfold WithDialTimeout, WithLeaseTTL; try case_match eqn:Hc; simpl; try done; by apply Z.ltb_lt in Hc.
Qed.

(** What an execution of [NewServer] comes to. *)
Lemma NewServer_spec ifaces etcdNew loadTLS addr svc opts :
  let o := applyServerOptions opts in
  match NewServer ifaces etcdNew loadTLS addr svc opts with
  | (inl _, clients) => clients = 0
  | (inr s, clients) =>
      clients = 1 ∧ NormalizeAddress ifaces (if decide (so_AdvertiseAddr o ≠ "") then so_AdvertiseAddr o else addr) = inr (Address s) ∧
      s = mkServer addr (Address s) (if decide (svc = "") then defaultSvcName else svc)
        ([MaxRecvMsgSize (so_MaxMsgSize o); MaxSendMsgSize (so_MaxMsgSize o)] ++
           (if so_TLS o then [Creds (so_CertFile o) (so_KeyFile o)] else []),
         [LocacheService; HealthService (if decide (svc = "") then defaultSvcName else svc)]) true o
  end.
Proof.
  cbv zeta. unfold NewServer, NewServerP. set (o := applyServerOptions opts). set (source := if decide (so_AdvertiseAddr o ≠ "") then _ else addr).
  destruct (NormalizeAddress ifaces source) as [err|self] eqn:Hself; cbn; [done|].
  destruct (etcdNew _ _); cbn; [done|]. destruct (so_TLS o) eqn:Htls; cbn; [destruct (loadTLS _ _); cbn; [done|]|];
    (split_and!; [done|done|]; by rewrite ?Htls).
Qed.

Lemma newserver_normal ifaces etcdNew loadTLS addr svc opts :
  match NewServer ifaces etcdNew loadTLS addr svc opts with
  | (inl _, _) => True | (inr s, _) => NormalizeAddress ifaces (Address s) = inr (Address s)
  end.
Proof.
  pose proof (NewServer_spec ifaces etcdNew loadTLS addr svc opts) as Hs. destruct (NewServer _ _ _ _ _ _) as [[|s] n]; [done|].
  destruct Hs as (_ & Hself & _). by apply NormalizeAddress_again in Hself as [Hself _].
Qed.

(** [C29] Construction: whatever functions its options are, [NewServer] fails with every
    etcd client it made closed again, or returns a server whose etcd client is the
    only one open, with a service name, an advertised address that normalises to
    itself, the options as the functions left them, the message limit of the options in
    both directions, and the credentials of the options exactly when they turn
    TLS on.  If the functions are options of the package, the dial timeout and
    the lease are positive and the message limit is 4 MiB. *)
Theorem newserver_wellformed ifaces etcdNew loadTLS addr svc (opts : list ServerOption) :
  let o := applyServerOptions opts in
  match NewServer ifaces etcdNew loadTLS addr svc opts with
  | (inl _, clients) => clients = 0
  | (inr s, clients) =>
      clients = 1 ∧ sv_etcd s = true ∧ sv_svcName s ≠ "" ∧ NormalizeAddress ifaces (Address s) = inr (Address s) ∧ sv_opts s = o ∧
      (∀ n, MaxRecvMsgSize n ∈ (sv_grpc s).1 ↔ n = so_MaxMsgSize o) ∧ (∀ n, MaxSendMsgSize n ∈ (sv_grpc s).1 ↔ n = so_MaxMsgSize o) ∧
      (∀ cert key, Creds cert key ∈ (sv_grpc s).1 ↔ so_TLS o = true ∧ cert = so_CertFile o ∧ key = so_KeyFile o) ∧
      (sv_grpc s).2 = [LocacheService; HealthService (sv_svcName s)] ∧
      (Forall packageOption opts → 0 < so_DialTimeout o ∧ 0 < so_LeaseTTL o ∧ so_MaxMsgSize o = 4 * 1024 * 1024)
  end.
Proof.
  intros o. pose proof (NewServer_spec ifaces etcdNew loadTLS addr svc opts) as Hs. cbv zeta in Hs. fold o in Hs.
  destruct (NewServer _ _ _ _ _ _) as [[|s] n]; [done|]. destruct Hs as (-> & Hself & ->). cbn [Address advertiseAddr sv_etcd sv_svcName sv_opts sv_grpc fst snd].
  apply NormalizeAddress_again in Hself as [Hself _].
  split_and!; [done|done|by case_decide|done|done| | | |done|apply options_positive].
  - intros n. destruct (so_TLS o); set_solver.
  - intros n. destruct (so_TLS o); set_solver.
  - intros cert key. destruct (so_TLS o); set_solver.
Qed.

(** ** The registration as the rest of the cluster sees it *)

(** [Start] puts only the server's own entry into the directory. *)
Definition ownEntry (s : Server) (e : sev) : Prop :=
  match e with SvPut k v _ => k = ServiceKey (sv_svcName s) (Address s) ∧ v = Address s | _ => True end.

Lemma CloseP_ownEntry s reg : every (ownEntry s) (CloseP reg).
Proof. destruct reg as [r lease]. cbn. split; [done|]. intros []; cbn; auto 12. Qed.
Lemma Start_ownEntry stopped f s : every (ownEntry s) (Start stopped f s).
Proof.
  unfold Start. cbn [bind event every]. split; [done|]. intros [err|lis]; [done|]. apply every_bind.
  { unfold RegisterP. destruct (sv_etcd s); cbn; [|done]. split; [done|]. intros [err|lease]; cbn; [done|].
    split; [done|]. intros [err|]; cbn; [done|]. split; [done|]. intros [err|]; cbn; auto. }
  intros [err|reg]; [cbn; auto|]. cbn [bind event every]. do 3 (split; [done|]; intros _).
  apply every_finally; [|by apply every_bind; [apply CloseP_ownEntry|]].
  apply every_bind; [cbn; split; [done|]; by intros []|]. intros [err|]; [|done]. destruct (negb (f err)); cbn; auto.
Qed.

(** [C30] The cluster sees the server under one name.  The entry that [Start] of a
    server made by [NewServer] puts into the directory makes the server's
    address a member of every picker of the service that follows the directory;
    its removal, as by the revocation of the lease, takes the address out of
    every such picker except the server's own, one whose own address it is, which
    keeps it.  A picker constructed with the server's [Address] is such a one. *)
Theorem server_seen_by_pickers ifaces etcdNew loadTLS addr svc opts s stopped isServerStopped ev res k v lease x dial q d prev :
  NewServer ifaces etcdNew loadTLS addr svc opts = (inr s, 1) →
  runs (Start stopped isServerStopped s) ev res → did (SvPut k v lease) x ∈ ev → tracks (sv_svcName s) q d →
  let q1 := handleEvent dial q (EventPut k v) in
  let q2 := handleEvent dial q1 (EventDelete k prev) in
  Address s ∈ Members q1 ∧ (Address s ∈ Members q2 ↔ selfAddr q = Address s) ∧
  ∀ popts dial' snap p rev, NewClientPicker ifaces (Address s) popts None dial' snap = inr (p, rev) → selfAddr p = Address s.
Proof.
  intros Hnew Hrun Hin Ht q1 q2.
  pose proof (every_runs _ _ _ _ (Start_ownEntry stopped isServerStopped s) Hrun) as Hall. rewrite Forall_forall in Hall.
  destruct (Hall _ Hin) as [-> ->]. clear Hall Hin.
  assert (NormalizeAddress ifaces (Address s) = inr (Address s)) as Hself.
  { pose proof (newserver_normal ifaces etcdNew loadTLS addr svc opts) as Hw. rewrite Hnew in Hw. exact Hw. }
  assert (Address s ≠ "") as Hne by (by eapply NormalizeAddress_nonempty).
  assert (entry_ok (sv_svcName s) (ServiceKey (sv_svcName s) (Address s)) (Address s)) as Hok by done.
  assert (tracks (sv_svcName s) q1 (<[ServiceKey (sv_svcName s) (Address s) := Address s]> d)) as T1.
  { by apply (tracks_event _ dial (EventPut _ _)). }
  assert (tracks (sv_svcName s) q2 (delete (ServiceKey (sv_svcName s) (Address s)) (<[ServiceKey (sv_svcName s) (Address s) := Address s]> d))) as T2.
  { apply (tracks_event _ dial (EventDelete _ prev)); [done|]. by exists (Address s). }
  split_and!.
  - apply tracks_members with (1 := T1). right. eexists. apply lookup_insert_eq.
  - assert (selfAddr q2 = selfAddr q) as Hself2.
    { unfold q2, q1. simpl. by rewrite (proj1 (removeMember_settled _ _)), (proj1 (addMember_settled _ _ _)). }
    split; [|intros <-; apply tracks_members with (1 := T2); by left].
    intros Hin. apply tracks_members with (1 := T2) in Hin as [Heq|[k' Hk']].
    + congruence.
    + apply lookup_delete_Some in Hk' as [Hne' Hk']. apply tracks_spec in T1 as (_ & _ & Hd & _).
      destruct (Hd _ _ Hk') as [_ ->]. done.
  - intros popts dial' snap p rev Hp%NewClientPicker_self. congruence.
Qed.

(** ** The events of registration, against the registry's functions *)

Definition etcdCallOf (a : act (ans := sans)) : option etcdCall :=
  match projT1 a with
  | SvGrant ttl => Some (EGrant ttl)
  | SvPut k v lease => Some (EPut k v lease)
  | SvKeepAlive lease => Some (EKeepAlive lease)
  | SvRevoke _ lease => Some (ERevoke lease)
  | _ => None
  end.
Definition etcdLog (ev : list (act (ans := sans))) : list etcdCall := omap etcdCallOf ev.

(** The interleaved [Register] and [Close] refine the registry's: every
    execution makes the calls, and returns the result, of the function for some
    answers of etcd; [Close] acts on the registration as its [once] found it. *)
Theorem registration_refines :
  (∀ cli svc addr ttl ev res, runs (RegisterP cli svc addr ttl) ev res →
     ∃ a, let '(result, _, log) := Register cli svc addr ttl a in
       etcdLog ev = log ∧
       match result with inl err => res = Val (inl err) | inr reg => ∃ r, res = Val (inr (r, leaseID reg)) end) ∧
  (∀ r lease ev res, runs (CloseP (r, lease)) ev res →
     ∃ ran ctxErr revoke, let '(_, result, log) := Registry.Close ctxErr revoke (Some (mkRegistration lease ran ran)) in
       etcdLog ev = log ∧ res = Val result).
Proof.
  split.
  - intros cli svc addr ttl ev res. unfold RegisterP, Register. destruct cli; cbn [negb]; [|intros [-> ->]; by exists (mkAnswers (inr 0) None None)].
    intros (g & e1 & -> & Hr). cbn [bind] in Hr. destruct g as [err|lease]; [destruct Hr as [-> ->]; by exists (mkAnswers (inl err) None None)|].
    destruct Hr as (p & e2 & -> & Hr). cbn [bind] in Hr. destruct p as [err|]; [destruct Hr as [-> ->]; by exists (mkAnswers (inr lease) (Some err) None)|].
    destruct Hr as (k & e3 & -> & Hr). cbn [bind] in Hr. destruct k as [err|]; [destruct Hr as [-> ->]; by exists (mkAnswers (inr lease) None (Some err))|].
    destruct Hr as (r & e4 & -> & -> & ->). exists (mkAnswers (inr lease) None None). cbn. eauto.
  - intros r lease ev res (run & e1 & -> & Hr). cbn [bind] in Hr. destruct run; [|destruct Hr as [-> ->]; by exists true, None, None].
    destruct Hr as (x1 & e2 & -> & ctxErr & e3 & -> & revoke & e4 & -> & x2 & e5 & -> & -> & ->).
    exists false, ctxErr, revoke. cbn. split; [done|]. by destruct ctxErr, revoke.
Qed.

(** ** Concrete runs *)

Definition w_ErrServerStopped : error := Text [Lit "grpc: the server has been stopped"].
Definition w_stopped (e : error) : bool :=
  match e with Text [Lit m] => String.eqb m "grpc: the server has been stopped" | _ => false end.

Definition w_server : Server :=
  mkServer ":8001" "10.0.0.7:8001" "locache"
    ([MaxRecvMsgSize (4 * 1024 * 1024); MaxSendMsgSize (4 * 1024 * 1024)], [LocacheService; HealthService "locache"])
    true DefaultServerOptions.

Lemma w_server_new : NewServer (inr [IPNet [10; 0; 0; 7]]) (λ _ _, None) (λ _ _, None) ":8001" "" [] = (inr w_server, 1).
Proof. vm_compute. reflexivity. Qed.

(** [Start], [Stop], a handler and a second [Stop]. *)
Definition w_calls : gmap nat lifeCall := {[ 0%nat := CStart; 1%nat := CStop; 2%nat := CRpc; 3%nat := CStop ]}.
Notation w_start := (lifeStart w_ErrServerStopped w_stopped w_server w_calls).
Definition w_life (answer : ∀ e, sans e) (sched : list nat) : strace * system sans life :=
  outcomeOf lifeEffect (λ _, answer) sched w_start.

(** The answer of an etcd client that has been closed. *)
Definition w_closed (e : sev) : sans e :=
  match e return sans e with SvRevoke _ _ => Some (Text [Lit "context canceled"]) | e => lifeAnswer e end.

(** [Start] registers and serves, a call arrives; [Stop] waits for its handler and
    goes on; [Start] returns, and so does the second [Stop]. *)
Definition w_waiting : list nat := replicate 9 0%nat ++ [2%nat] ++ replicate 11 1%nat.
Definition w_orderly : list nat := w_waiting ++ [2%nat] ++ replicate 3 1%nat ++ replicate 2 0%nat ++ [3%nat].
(** [Stop] runs between [Register] and the assignment of [s.registration]. *)
Definition w_race : list nat := replicate 5 0%nat ++ replicate 9 1%nat ++ replicate 9 0%nat ++ [2; 3]%nat.

Lemma w_orderly_run : lifeRun w_start (w_life lifeAnswer w_orderly).1 (w_life lifeAnswer w_orderly).2.
Proof. apply outcomeOf_run. vm_compute. reflexivity. Qed.

Lemma server_stop_once_witness : stopLog (w_life lifeAnswer w_orderly).1 = stages.
Proof.
  eapply (proj2 (server_stop_once w_ErrServerStopped w_stopped w_server w_calls _ _ w_orderly_run) 3%nat (Ret tt)).
  - reflexivity.
  - vm_compute. reflexivity.
  - reflexivity.
Defined.

Lemma server_lease_revoked_once_witness : revokeCalls 0 (w_life lifeAnswer w_orderly).1 = 1%nat.
Proof.
  apply (proj2 (proj2 (server_lease_revoked_once w_ErrServerStopped w_stopped w_server w_calls _ _ w_orderly_run)))
    with (u := 0%nat) (a := did (ans := sans) (SvNewReg 7) 0%nat) (lease := 7).
  - vm_compute. reflexivity.
  - apply (list_elem_of_lookup_2 _ 4). vm_compute. reflexivity.
  - reflexivity.
Defined.

Lemma w_race_run : lifeRun w_start (w_life w_closed w_race).1 (w_life w_closed w_race).2.
Proof. apply outcomeOf_run. vm_compute. reflexivity. Qed.
Lemma w_race_split :
  (w_life w_closed w_race).1 =
    take 12 (w_life w_closed w_race).1 ++ (1%nat, did (ans := sans) SvEtcdClose None) :: drop 13 (w_life w_closed w_race).1.
Proof. vm_compute. reflexivity. Qed.
Lemma w_race_fails : closedClientFails (w_life w_closed w_race).1.
Proof.
  intros tr1 u x tr2 v r lease y Heq Hin ->.
  assert (forallb (λ ta : nat * act (ans := sans), match ta.2 with existT e x =>
    match e return sans e → bool with SvRevoke _ _ => λ y, match y with Some _ => true | None => false end | _ => λ _, true end x end)
    (w_life w_closed w_race).1 = true) as Hall by (vm_compute; reflexivity).
  rewrite forallb_forall in Hall. assert ((v, did (ans := sans) (SvRevoke r lease) None) ∈ (w_life w_closed w_race).1) as Hin'%list_elem_of_In
    by (rewrite Heq; apply elem_of_app; right; apply elem_of_cons; by right).
  by apply Hall in Hin'.
Qed.

Lemma server_stop_race_witness :
  allFinished (w_life w_closed w_race).2 = true ∧ revokeCalls 0 (w_life w_closed w_race).1 = 1%nat ∧ ¬ revoked 0 (w_life w_closed w_race).1.
Proof.
  assert (allFinished (w_life w_closed w_race).2 = true) as Hf by (vm_compute; reflexivity).
  split; [exact Hf|]. rewrite w_race_split.
  apply (server_stop_race w_ErrServerStopped w_stopped w_server w_calls (take 12 (w_life w_closed w_race).1) 1%nat None
    (drop 13 (w_life w_closed w_race).1) (w_life w_closed w_race).2 0%nat 0%nat 7); [| exact Hf | | |].
  - rewrite <-w_race_split. exact w_race_run.
  - rewrite <-w_race_split. exact w_race_fails.
  - rewrite <-w_race_split. apply (list_elem_of_lookup_2 _ 4). vm_compute. reflexivity.
  - intros (v & lis & Hin%list_elem_of_In).
    assert (forallb (λ ta : nat * act (ans := sans), match projT1 ta.2 with SvSetReg _ _ => false | _ => true end)
      (take 12 (w_life w_closed w_race).1) = true) as Hall by (vm_compute; reflexivity).
    rewrite forallb_forall in Hall. apply Hall in Hin. discriminate Hin.
Defined.

(** [Stop] waits for the handler. *)
Lemma server_no_deadlock_witness :
  stepOnce lifeEffect (λ _, lifeAnswer) 1%nat (w_life lifeAnswer w_waiting).2 = None ∧
  ∃ tr' c', lifeRun (w_life lifeAnswer w_waiting).2 tr' c' ∧ allFinished c' = true.
Proof.
  split; [vm_compute; reflexivity|].
  apply (server_no_deadlock w_ErrServerStopped w_stopped w_server w_calls (w_life lifeAnswer w_waiting).1).
  - apply outcomeOf_run. vm_compute. reflexivity.
  - exists 1%nat. reflexivity.
Defined.

Definition w_started : list (act (ans := sans)) :=
  [did (ans := sans) (SvListen ":8001") (inr 3%nat); did (ans := sans) (SvGrant 10) (inr 7);
   did (ans := sans) (SvPut "/services/locache/10.0.0.7:8001" "10.0.0.7:8001" 7) None;
   did (ans := sans) (SvKeepAlive 7) (Some (Text [Lit "closed"])); did (ans := sans) (SvLisClose 3%nat) tt].

Lemma server_seen_by_pickers_witness :
  Address w_server ∈ Members (handleEvent (λ _, None) wp2 (EventPut "/services/locache/10.0.0.7:8001" "10.0.0.7:8001")).
Proof.
  apply (server_seen_by_pickers (inr [IPNet [10; 0; 0; 7]]) (λ _ _, None) (λ _ _, None) ":8001" "" [] w_server w_ErrServerStopped w_stopped w_started
    (Val (Some (Wrap [Lit "register locache service: "] (Wrap [Lit "keep etcd lease alive: "] (Text [Lit "closed"]) []) [])))
    "/services/locache/10.0.0.7:8001" "10.0.0.7:8001" 7 None (λ _, None) wp2 w_dir None).
  - vm_compute. reflexivity.
  - do 5 (eexists; eexists; split; [reflexivity|]). split; reflexivity.
  - apply (list_elem_of_lookup_2 _ 2). reflexivity.
  - exact wp2_tracks.
Defined.
