(* ===== verification/Demo.v ===== *)
(** * The demo (example/multi_node_demo.go)

    A process of the demo: a server, a picker and a group wired together, and
    the HTTP handler that maps GET, PUT and DELETE to the group.  The answers of
    etcd, the network and the operating system are arguments. *)

From S2P Require Import Prelude Store ByteView Errors Cache ConsistentHash Registry Peers Singleflight Prog Group Rpc Node Groups Server.
#[local] Open Scope prog_scope.

(** A Go [string] made of bytes. *)
Definition string_of (bs : list Z) : string := String.string_of_list_ascii ((λ z, Ascii.ascii_of_N (Z.to_N z)) <$> bs).

(** ** The source *)

Definition source : gmap string string :=
  {["Tom" := "630"; "Jack" := "589"; "Sam" := "567"; "Alice" := "710"; "Bob" := "420"]}.

Definition loadSource (key : string) : error + list Z :=
  match source !! key with
  | None => inl (Text [Lit "key "; Quoted key; Lit " not found"])
  | Some value => inr (bytes_of value)
  end.

(** The getter of the group: it logs, sleeps and asks the source. *)
Definition demoGetter (key : string) : loaded :=
  match loadSource key with inl err => LoadErr err | inr bytes => LoadOk bytes end.

(** ** Starting a process *)

(** What etcd, the network interfaces and the dialling of peers answer. *)
Record environment := mkEnvironment {
  en_ifaces : error + list netAddr;
  en_serverEtcd : list string → Z → option error;
  en_pickerEtcd : option error;
  en_dial : string → option error;
  en_snapshot : error + (list (string * string) * Z)
}.

(** [Fatal]: the process exits.  [Up]: the server, the table of groups, the
    pointer of the group and the picker it holds.  The rest of [main] starts the
    server and serves HTTP. *)
Inductive started :=
| Fatal (err : error)
| Up (s : Server) (T : groupTable) (group : nat) (picker : ClientPicker).

Definition demoListenAddr (port : Z) : string := "localhost:" +:+ pretty port.

Definition demoGroupOptions : list GroupOption :=
  [WithPeers true; WithExpiration (30 * Second); WithNearCache (Z.shiftl 256 10) (3 * Second)].

(** [None]: a constructor does not return. *)
Definition main (env : environment) (port : Z) : option started :=
  let listenAddr := demoListenAddr port in
  let endpoints := ["localhost:2379"] in
  match (NewServer (en_ifaces env) (en_serverEtcd env) (λ _ _, None) listenAddr "locache" [WithEtcdEndpoints endpoints]).1 with
  | inl err => Some (Fatal err)
  | inr server =>
      match NewClientPicker (en_ifaces env) (Address server) [WithServiceName "locache"; WithPickerEtcdEndpoints endpoints]
              (en_pickerEtcd env) (en_dial env) (en_snapshot env) with
      | inl err => Some (Fatal err)
      | inr (picker, _) =>
          r ← runAlone (NewGroup "scores" (Z.shiftl 2 20) true demoGroupOptions) noGroups;
          match r with (T, Val group) => Some (Up server T group picker) | _ => None end
      end
  end.

(** ** The HTTP API *)

Definition StatusOK : Z := 200.
Definition StatusBadRequest : Z := 400.
Definition StatusMethodNotAllowed : Z := 405.
Definition StatusBadGateway : Z := 502.

(** [hr_body]: what [io.ReadAll(r.Body)] returns. *)
Record httpRequest := mkHttpRequest { hr_method : string; hr_key : string; hr_body : error + list Z }.
Record httpResponse := mkHttpResponse { rs_status : Z; rs_allow : option string; rs_body : msg }.

Definition newline : string := String (Ascii.ascii_of_nat 10) EmptyString.

(** [http.Error]. *)
Definition http_Error (text : msg) (code : Z) : httpResponse := mkHttpResponse code None (text ++ [Lit newline]).
(** [fmt.Fprintf] to the writer, with the default status. *)
Definition http_OK (text : msg) : httpResponse := mkHttpResponse StatusOK None text.

Definition apiCache (address : string) (ticks : nat → nat) (r : httpRequest) (g : config) : gprog httpResponse :=
  let key := hr_key r in
  if decide (key = "") then Ret (http_Error [Lit "missing key"] StatusBadRequest)
  else if decide (hr_method r = "GET") then
    v <- Get g ticks key ;;
    Ret match v with
        | inl err => http_Error (Error err) StatusBadGateway
        | inr view =>
            http_OK [Lit "node="; Lit address; Lit " key="; Lit key; Lit " value="; Lit (string_of (ByteView_String view)); Lit newline]
        end
  else if decide (hr_method r = "PUT") then
    match hr_body r with
    | inl _ | inr [] => Ret (http_Error [Lit "request body must contain value"] StatusBadRequest)
    | inr value =>
        e <- Set_ g ticks key value ;;
        Ret match e with
            | Some err => http_Error (Error err) StatusBadGateway
            | None => http_OK [Lit "cached key="; Lit key; Lit " value="; Lit (string_of value); Lit newline]
            end
    end
  else if decide (hr_method r = "DELETE") then
    e <- Delete g ticks key ;;
    Ret match e with
        | Some err => http_Error (Error err) StatusBadGateway
        | None => http_OK [Lit "evicted key="; Lit key; Lit newline]
        end
  else
    Ret (mkHttpResponse StatusMethodNotAllowed (Some "GET, PUT, DELETE") [Lit "method not allowed"; Lit newline]).
