(* ===== verification/DemoFacts.v ===== *)
(** * A deployment of the demo

    The processes of the demo, made by [main] and following the directory they
    register in, form a connected cluster, so the theorems on clusters hold of
    them: the HTTP API reads what was put, at every node. *)

From S2P Require Import Prelude Hashes Store ByteView Lru LruSpec Sharded ShardedFacts Errors Cache CacheFacts ConsistentHash RingFacts Registry RegistryFacts Peers PeersFacts Singleflight Prog Group Rpc GroupFacts Node NodeFacts ReadThrough Cluster ClusterFacts ClusterDelete ClusterReads Groups GroupsFacts Server Lifecycle Demo.

(** ** Pickers that reach their peers *)

(** The picker has a client for every other member. *)
Definition dialled (p : ClientPicker) : Prop := ∀ a, a ∈ members p → a ≠ selfAddr p → is_Some (clients p !! a).

(** Every dialling succeeds. *)
Definition reachable : string → option error := λ _, None.

Lemma replaceClient_dom p nc next addr a :
  is_Some (nc !! a) ∨ (a = addr ∧ a ≠ selfAddr p) → is_Some ((replaceClient p reachable (nc, next) addr).1 !! a).
Proof.
  unfold replaceClient. case_decide as Hs; [naive_solver|].
  destruct (clients p !! addr) as [c|]; cbn; destruct (decide (a = addr)) as [->|Hne]; rewrite ?lookup_insert_eq, ?lookup_insert_ne by done; naive_solver.
Qed.

Lemma replaceLoop_dom p l nc next a :
  is_Some (nc !! a) ∨ (a ∈ l ∧ a ≠ selfAddr p) → is_Some ((foldl (replaceClient p reachable) (nc, next) l).1 !! a).
Proof.
  revert nc next. induction l as [|addr l IH]; intros nc next Ha; cbn [foldl].
  - destruct Ha as [?|[Hin _]]; [done|by apply elem_of_nil in Hin].
  - pose proof (replaceClient_dom p nc next addr a) as Hstep. destruct (replaceClient p reachable (nc, next) addr) as [nc1 next1].
    apply IH. destruct Ha as [?|[[->|Hin]%elem_of_cons Hne]]; naive_solver.
Qed.

Lemma replaceMembership_dialled s p : dialled p → dialled (replaceMembership reachable s p).
Proof.
  intros Hd. unfold replaceMembership. destruct (sameMembers _ _); [done|].
  pose proof (replaceLoop_dom p (sortStrings s) ∅ (nextConn p)) as Hl. destruct (foldl _ _ _) as [nc next].
  intros a Ha Hne. cbn in *. apply Hl. right. by rewrite elem_of_sortStrings.
Qed.

Lemma handleEvent_dialled ev p : dialled p → dialled (handleEvent reachable p ev).
Proof.
  intros Hd. destruct ev as [k v|k pv]; cbn [handleEvent].
  - generalize (addrOfPut (svcName p) k v) as addr. intros addr. unfold addMember. case_decide; [done|]. case_decide as Hin; [done|]. case_decide as Hself; unfold NewClient, reachable; intros a Ha Hne;
      cbn [withMembership clients members selfAddr] in *.
    + apply Hd; [set_solver|done].
    + destruct (decide (a = addr)) as [->|Hav]; [rewrite lookup_insert_eq; eauto|].
      rewrite lookup_insert_ne by done. apply Hd; [set_solver|done].
  - set (addr := if decide _ then _ else _). clearbody addr. unfold removeMember. case_decide; [done|]. case_decide as Hin; [|done].
    intros a Ha Hne. cbn [withMembership clients members selfAddr] in *.
    rewrite lookup_delete_ne by set_solver. apply Hd; [set_solver|done].
Qed.

Lemma NewClientPicker_dialled ifaces addr opts etcdNew snap p rev :
  NewClientPicker ifaces addr opts etcdNew reachable snap = inr (p, rev) → dialled p.
Proof.
  unfold NewClientPicker. destruct (NormalizeAddress ifaces addr) as [|self]; [done|].
  set (p0 := mkPicker self _ _ _ _ _ _ _ _ _ _ _ _ _). destruct (applyPickerOptions_fresh opts p0) as [(_ & _ & Hm & _) Hs]; [by repeat split|].
  set (q := foldl _ p0 opts) in *. clearbody q. simpl in Hs. destruct etcdNew; [done|].
  set (q' := withMembership q _ _ _ _ _ _). assert (dialled q') as Hq'.
  { intros a Ha Hne. cbn in *. rewrite Hm in Ha. set_solver. }
  clearbody q'. unfold refreshSnapshot. destruct snap as [|[kvs rev0]]; [done|]. intros [= <- _]. by apply replaceMembership_dialled.
Qed.

(** [p] comes out of [p0] by the events of its watch and by snapshots, while the
    directory goes from [d0] to [d]; every dialling succeeds. *)
Inductive follows (svc : string) (p0 : ClientPicker) (d0 : directory) : ClientPicker → directory → Prop :=
| follows_start : follows svc p0 d0 p0 d0
| follows_event ev p d : follows svc p0 d0 p d → event_ok svc ev → follows svc p0 d0 (handleEvent reachable p ev) (applyEvent ev d)
| follows_snapshot kvs rev p d d' :
    follows svc p0 d0 p d → dir_wf svc d' → kvs ≡ₚ map_to_list d' →
    follows svc p0 d0 (refreshSnapshot reachable (inr (kvs, rev)) p).1 d'.

Lemma follows_spec svc p0 d0 p d :
  tracks svc p0 d0 → dialled p0 → follows svc p0 d0 p d →
  tracks svc p d ∧ dialled p ∧ PeersFacts.settled p0 p.
Proof.
  intros Ht Hd. induction 1 as [|ev p d _ (Ht' & Hd' & Hs1 & Hs2 & Hs3) He|kvs rev p d d' _ (Ht' & Hd' & Hs1 & Hs2 & Hs3) Hwf Hk].
  - split_and!; [done|done|by repeat split].
  - destruct (pickerStep_settled (OpEvent reachable ev) p) as (H1 & H2 & H3). cbn [pickerStep] in *.
    split_and!; [by apply tracks_event|by apply handleEvent_dialled|]. split_and!; congruence.
  - destruct (pickerStep_settled (OpSnapshot reachable (inr (kvs, rev))) p) as (H1 & H2 & H3). cbn [pickerStep] in *.
    split_and!; [by eapply tracks_snapshot|by apply replaceMembership_dialled|]. split_and!; congruence.
Qed.

(** ** The group of a process *)

Definition demoObj : gobj :=
  default (mkGObj (mkGConfig "" false false 0 false 0) emptyState) (newObj "scores" (Z.shiftl 2 20) true demoGroupOptions).

Lemma demoObj_new : newObj "scores" (Z.shiftl 2 20) true demoGroupOptions = Some demoObj.
Proof. by vm_compute. Qed.
Lemma demoObj_cfg : go_cfg demoObj = mkGConfig "scores" true true (3 * Second) true (30 * Second).
Proof. by vm_compute. Qed.
Lemma demoObj_quiet : loader (go_state demoObj) = ∅.
Proof. by vm_compute. Qed.

Lemma demoObj_wf : group_wf (go_state demoObj).
Proof.
  destruct (newObj_ok _ _ _ _ _ demoObj_new) as ([_ _ Hm Hn] & Hc & _). by split_and!.
Qed.

(** Every shard of the main cache has 128 KiB. *)
Lemma demoObj_room key value :
  go_len key + Z.of_nat (length value) ≤ 131072 → cache_room (mainCache (go_state demoObj)) key (mkByteView value).
Proof.
  intros Hlen. destruct (mainCache (go_state demoObj)) as [c|] eqn:Hc; [|by vm_compute in Hc].
  assert (match mainCache (go_state demoObj) with
          | Some c => negb (c_closed c) && match store c with SSharded s => forallb (λ x, maxBytes x =? 131072) (shards s) | _ => false end
          | None => false end = true) as Hb by (by vm_compute).
  rewrite Hc in Hb. apply andb_true_iff in Hb as [Hcl Hb]. apply negb_true_iff in Hcl. split; [done|].
  destruct (store c) as [|s]; [done|]. intros sh Hsh. right.
  apply list_elem_of_lookup_2 in Hsh. rewrite forallb_forall in Hb. apply list_elem_of_In, Hb, Z.eqb_eq in Hsh. rewrite Hsh.
  unfold entry_cost, Len, ByteView_Value, ByteView_Len. simpl. rewrite int64_small; unfold go_len in *; lia.
Qed.

Lemma demo_deadline t : before (deadline (go_cfg demoObj) t) (t + 30 * Second - 1).
Proof.
  rewrite demoObj_cfg. unfold deadline. cbn [expiration]. rewrite (proj2 (Z.ltb_lt 0 (30 * Second))) by done. simpl. lia.
Qed.

Lemma source_small key text : source !! key = Some text → go_len key + Z.of_nat (length (bytes_of text)) ≤ 131072.
Proof.
  intros Hs. assert (map_Forall (λ key text, go_len key + Z.of_nat (length (bytes_of text)) ≤ 131072) source) as Hall; [|by apply Hall].
  apply (bool_decide_eq_true_1 _). by vm_compute.
Qed.

Lemma source_utf8 key text : source !! key = Some text → validUTF8 (bytes_of key) = true.
Proof.
  intros Hs. assert (map_Forall (λ key text, validUTF8 (bytes_of key) = true) source) as Hall; [|by eapply Hall].
  apply (bool_decide_eq_true_1 _). by vm_compute.
Qed.

(** ** Processes *)

(** The node that a process of the demo forms when [main] has set it up. *)
Definition process (env : environment) (port : Z) (s : Server) (nd : node (storeImpl ByteView)) : Prop :=
  ∃ T g p x, main env port = Some (Up s T g p) ∧ groups T !! "scores" = Some g ∧ objs T !! g = Some x ∧
             nd = mkNode (go_cfg x) (go_state x) p (λ _, demoGetter).

Lemma process_spec env port s nd :
  process env port s nd →
  nd_cfg nd = go_cfg demoObj ∧ nd_group nd = go_state demoObj ∧ nd_source nd = (λ _, demoGetter) ∧
  (∃ rev, NewClientPicker (en_ifaces env) (Address s) [WithServiceName "locache"; WithPickerEtcdEndpoints ["localhost:2379"]]
     (en_pickerEtcd env) (en_dial env) (en_snapshot env) = inr (nd_picker nd, rev)) ∧
  NormalizeAddress (en_ifaces env) (Address s) = inr (Address s) ∧ so_MaxMsgSize (sv_opts s) = Z.shiftl 4 20.
Proof.
  intros (T & g & p & x & Hmain & _ & Hx & ->). unfold main in Hmain.
  pose proof (newserver_normal (en_ifaces env) (en_serverEtcd env) (λ _ _, None) (demoListenAddr port) "locache" [WithEtcdEndpoints ["localhost:2379"]]) as Hself.
  pose proof (NewServer_spec (en_ifaces env) (en_serverEtcd env) (λ _ _, None) (demoListenAddr port) "locache" [WithEtcdEndpoints ["localhost:2379"]]) as Hspec.
  destruct (NewServer _ _ _ _ _ _) as [[|server] open]; [done|]. cbn [fst] in Hmain.
  destruct (NewClientPicker _ _ _ _ _ _) as [|[picker rev]] eqn:Hp; [done|].
  rewrite (NewGroup_first _ _ _ _ demoObj _ demoObj_new) in Hmain by done.
  cbn [mbind option_bind] in Hmain. injection Hmain as <- <- <- <-. cbn [objs] in Hx.
  rewrite lookup_insert_eq in Hx. injection Hx as <-. destruct Hspec as (_ & _ & ->). split_and!; eauto.
Qed.

(** What the options of the demo's picker leave at their defaults. *)
Lemma demo_picker_config ifaces addr etcdNew dial snap p rev :
  NewClientPicker ifaces addr [WithServiceName "locache"; WithPickerEtcdEndpoints ["localhost:2379"]] etcdNew dial snap = inr (p, rev) →
  svcName p = "locache" ∧ hashReplicas p = 100.
Proof.
  unfold NewClientPicker. destruct (NormalizeAddress ifaces addr) as [|self]; [done|]. destruct etcdNew; [done|].
  cbn [foldl]. set (q := withMembership _ _ _ _ _ _ _). assert (svcName q = "locache" ∧ hashReplicas q = 100) as [Hs Hr] by done. clearbody q.
  unfold refreshSnapshot. destruct snap as [|[kvs rev0]]; [done|]. intros [= <- _].
  destruct (replaceMembership_settled dial (desiredOf q kvs) q) as (_ & -> & ->). done.
Qed.

(** The processes of [N] are up, reach each other and have followed the
    directory to [d], in which exactly they are registered.  No operation has run
    yet.  [limits] are the message limits of their servers. *)
Record deployed (limits : string → Z) (d : directory) (N : gmap string (node (storeImpl ByteView))) : Prop := {
  dep_dir : dir_wf "locache" d;
  dep_dom : dom N = addrsOf d;
  dep_node : ∀ n nd, N !! n = Some nd → ∃ env port s nd0 kvs rev d0,
    process env port s nd0 ∧ n = Address s ∧ limits n = so_MaxMsgSize (sv_opts s) ∧ en_dial env = reachable ∧
    en_snapshot env = inr (kvs, rev) ∧ dir_wf "locache" d0 ∧ kvs ≡ₚ map_to_list d0 ∧
    follows "locache" (nd_picker nd0) d0 (nd_picker nd) d ∧ nd = mkNode (nd_cfg nd0) (nd_group nd0) (nd_picker nd) (nd_source nd0)
}.

Lemma deployed_node limits d N n nd :
  deployed limits d N → N !! n = Some nd →
  nd_cfg nd = go_cfg demoObj ∧ nd_group nd = go_state demoObj ∧ nd_source nd = (λ _, demoGetter) ∧
  picker_wf (nd_picker nd) ∧ selfAddr (nd_picker nd) = n ∧ members (nd_picker nd) = dom N ∧
  hashReplicas (nd_picker nd) = 100 ∧ dialled (nd_picker nd) ∧ limits n = Z.shiftl 4 20.
Proof.
  intros [Hd Hdom Hnode] Hn. destruct (Hnode n nd Hn) as (env & port & s & nd0 & kvs & rev & d0 & Hp & -> & Hlim & Hdial & Hsnap & Hd0 & Hk & Hf & Hnd).
  destruct (process_spec _ _ _ _ Hp) as (Hc & Hg & Hs & [rev' Hnew] & Hself & Hmax). rewrite Hdial, Hsnap in Hnew.
  destruct (demo_picker_config _ _ _ _ _ _ _ Hnew) as [Hsvc Hrep].
  destruct (follows_spec _ _ _ _ _ ltac:(by eapply tracks_new) (NewClientPicker_dialled _ _ _ _ _ _ _ Hnew) Hf) as (Ht & Hdl & Hs1 & _ & Hs3).
  apply NewClientPicker_self in Hnew. assert (selfAddr (nd_picker nd0) = Address s) as Hself' by congruence.
  destruct (tracks_spec _ _ _ Ht) as (Hwf & _ & _ & Hup). rewrite Hnd. cbn. split_and!; [done..|by rewrite Hs1| | |done|congruence].
  - rewrite Hup, Hs1, Hself', Hdom. assert (Address s ∈ addrsOf d) as Hin by (rewrite <-Hdom; apply elem_of_dom; eauto).
    clear -Hin. set_solver.
  - by rewrite Hs3.
Qed.

Lemma deployed_connected limits d N : deployed limits d N → connected 100 "scores" N.
Proof.
  intros Hdep. split.
  - intros n nd Hn. destruct (deployed_node _ _ _ _ _ Hdep Hn) as (Hc & Hg & _ & Hwf & Hself & Hm & Hr & _).
    split; [|rewrite Hc, demoObj_cfg; by split_and!]. unfold node_ok. rewrite Hc, Hg, demoObj_cfg. split_and!; [apply demoObj_wf..|done|done].
  - intros n m nd Hn Hm Hne. destruct (deployed_node _ _ _ _ _ Hdep Hn) as (_ & _ & _ & _ & Hself & Hmem & _ & Hdl & _).
    apply Hdl; [by rewrite Hmem|by rewrite Hself].
Qed.

(** A key and a value of at most 128 KiB pass the limits of the demo's servers. *)
Lemma demo_messages limits d N key value n :
  deployed limits d N → n ∈ dom N → validUTF8 (bytes_of key) = true → go_len key + Z.of_nat (length value) ≤ 131072 →
  requestError (limits n) (mkRequest "scores" key value false) = None ∧ responseError (limits n) (getResponseSize value) = None.
Proof.
  intros Hdep [nd Hn]%elem_of_dom Hutf Hlen. destruct (deployed_node _ _ _ _ _ Hdep Hn) as (_ & _ & _ & _ & _ & _ & _ & _ & ->).
  pose proof (go_len_nonneg key). assert (sizeBytes (go_len "scores") = 8) as Hg by done.
  pose proof (sizeBytes_small (go_len key) ltac:(lia)). pose proof (sizeBytes_small (Z.of_nat (length value)) ltac:(lia)).
  unfold requestError, responseError, requestSize, getResponseSize. cbn [rq_group rq_key rq_value]. rewrite Hutf, Hg.
  assert (validUTF8 (bytes_of "scores") = true) as -> by done. cbn [andb negb].
  change clientMaxSend with 2147483647. change clientMaxRecv with 4194304. change (Z.shiftl 4 20) with 4194304.
  rewrite !(proj2 (Z.leb_le _ _)) by lia. done.
Qed.

(** ** The API *)

(** What GET prints for a value. *)
Definition shows (node key : string) (value : list Z) : httpResponse :=
  http_OK [Lit "node="; Lit node; Lit " key="; Lit key; Lit " value="; Lit (string_of value); Lit newline].

(** Undo a call of the group followed by an answer. *)
Lemma runs_answer {A B} (p : gprog A) (f : A → B) ev x :
  runs (bind p (λ a, Ret (f a))) ev (Val x) → ∃ a, runs p ev (Val a) ∧ x = f a.
Proof.
  intros [(t1 & t2 & a & -> & Hp & -> & [= ->])|(v & _ & ?)]%runs_bind; [|done]. exists a. by rewrite app_nil_r.
Qed.

(** [C9] The statuses of the API.  Every answer is of one of four kinds: 400,
    without touching the group, for a missing key and for a PUT without a body;
    405 with the allowed methods, without touching the group, for another
    method; 200 when the group's operation succeeded, with the value it
    returned or stored; 502 with the text of the error when it failed. *)
Theorem demo_api_status address ticks r g ev resp :
  runs (apiCache address ticks r g) ev (Val resp) →
  let key := hr_key r in
  (rs_status resp = 400 ∧ ev = [] ∧ (key = "" ∨ hr_method r = "PUT" ∧ ∀ z value, hr_body r ≠ inr (z :: value))) ∨
  (rs_status resp = 405 ∧ ev = [] ∧ rs_allow resp = Some "GET, PUT, DELETE" ∧ key ≠ "" ∧ hr_method r ∉ ["GET"; "PUT"; "DELETE"]) ∨
  (rs_status resp = 200 ∧ key ≠ "" ∧
     ((hr_method r = "GET" ∧ ∃ v, runs (Group.Get g ticks key) ev (Val (inr v)) ∧ resp = shows address key (ByteView.b v)) ∨
      (hr_method r = "PUT" ∧ ∃ value, value ≠ [] ∧ hr_body r = inr value ∧ runs (Set_ g ticks key value) ev (Val None)) ∨
      (hr_method r = "DELETE" ∧ runs (Group.Delete g ticks key) ev (Val None)))) ∨
  (rs_status resp = 502 ∧ key ≠ "" ∧ ∃ err, rs_body resp = (Error err ++ [Lit newline])%list ∧
     ((hr_method r = "GET" ∧ runs (Group.Get g ticks key) ev (Val (inl err))) ∨
      (hr_method r = "PUT" ∧ ∃ value, value ≠ [] ∧ hr_body r = inr value ∧ runs (Set_ g ticks key value) ev (Val (Some err))) ∨
      (hr_method r = "DELETE" ∧ runs (Group.Delete g ticks key) ev (Val (Some err))))).
Proof.
  intros Hrun key. unfold apiCache in Hrun. fold key in Hrun. case_decide as Hk.
  { destruct Hrun as [-> [= ->]]. left. auto. }
  case_decide as Hget; [|case_decide as Hput; [|case_decide as Hdel]].
  - apply runs_answer in Hrun as ([err|v] & Hrun & ->); right; right.
    + right. split_and!; [done|done|]. exists err. split; [done|]. by left.
    + left. split_and!; [done|done|]. left. split; [done|]. by exists v.
  - destruct (hr_body r) as [e|[|z value]] eqn:Hbody.
    1,2: destruct Hrun as [-> [= ->]]; left; split_and!; [done|done|]; right; split; [done|by intros ? ?].
    apply runs_answer in Hrun as ([err|] & Hrun & ->); right; right.
    + right. split_and!; [done|done|]. exists err. split; [done|]. right. left. split; [done|]. by exists (z :: value).
    + left. split_and!; [done|done|]. right. left. split; [done|]. by exists (z :: value).
  - apply runs_answer in Hrun as ([err|] & Hrun & ->); right; right.
    + right. split_and!; [done|done|]. exists err. split; [done|]. by right; right.
    + left. split_and!; [done|done|]. by right; right.
  - destruct Hrun as [-> [= ->]]. right. left. cbn. split_and!; [done..|]. set_solver.
Qed.

Section api.
Context {HG : Grpc} {HGL : GrpcLaws} (tick : Z → Z) (limits : string → Z) (tick_le : ∀ t, t ≤ tick t).
Notation cluster := (cluster (storeImpl ByteView)).

(** A request whose handling is a call of the group and an answer. *)
Lemma runAt_answers {A B} a (p : config → gprog A) (q : config → gprog B) (f : A → B) (cl cl' : cluster) x :
  runAt tick limits a p cl = Some (cl', Val x) → (∀ g, q g = bind (p g) (λ x, Ret (f x))) → runAt tick limits a q cl = Some (cl', Val (f x)).
Proof.
  intros Hrun Hq. unfold runAt in *. destruct (nodes cl !! a) as [nd|]; [|done]. cbn [mbind option_bind] in *. rewrite Hq, interp_bind.
  destruct (interp _ (p (nd_cfg nd)) _) as [w [y|v]]; [|done]. by injection Hrun as <- ->.
Qed.

Definition getRequest (key : string) : httpRequest := mkHttpRequest "GET" key (inr []).
Definition putRequest (key : string) (value : list Z) : httpRequest := mkHttpRequest "PUT" key (inr value).
Definition deleteRequest (key : string) : httpRequest := mkHttpRequest "DELETE" key (inr []).

(** GETs at the nodes [bs], one after the other, show the value until [T]. *)
Fixpoint getsShow (bs : list string) (ticks : nat → nat) (key : string) (value : list Z) (T : Z) (cl : cluster) : Prop :=
  match bs with
  | [] => True
  | b :: bs =>
      tick (tick (now cl)) < T →
      ∃ cl', runAt tick limits b (apiCache b ticks (getRequest key)) cl = Some (cl', Val (shows b key value)) ∧
             getsShow bs ticks key value T cl'
  end.

Lemma api_get a ticks key (cl cl' : cluster) v :
  key ≠ "" → runAt tick limits a (λ g, Group.Get g ticks key) cl = Some (cl', Val (inr v)) →
  runAt tick limits a (apiCache a ticks (getRequest key)) cl = Some (cl', Val (shows a key (ByteView.b v))).
Proof.
  intros Hk Hrun. apply (runAt_answers a (λ g, Group.Get g ticks key) _ (λ r, match r with
    | inl err => http_Error (Error err) StatusBadGateway | inr view => shows a key (ByteView_String view) end) _ _ _ Hrun).
  intros g. unfold apiCache. cbn [getRequest hr_key hr_method]. by rewrite decide_False.
Qed.

Lemma gets_show bs ticks key v T (cl : cluster) :
  key ≠ "" → readsReturn tick limits bs ticks key v T cl → getsShow bs ticks key (ByteView.b v) T cl.
Proof.
  intros Hk. revert cl. induction bs as [|b bs IH]; intros cl; [done|]. cbn [readsReturn getsShow]. intros Hr HT.
  destruct (Hr HT) as (cl' & Hrun & Hrest). exists cl'. split; [by apply api_get|by apply IH].
Qed.

(** Requests of any kind at any processes, one after the other, each handled to
    its end.  A handler that panics ends its request only. *)
Fixpoint handled (reqs : list (string * (nat → nat) * httpRequest)) (cl : cluster) : cluster :=
  match reqs with
  | [] => cl
  | (a, ticks, r) :: reqs => handled reqs (default cl (fst <$> runAt tick limits a (apiCache a ticks r) cl))
  end.

Lemma handled_kept reqs (cl : cluster) : kept (nodes cl) (nodes (handled reqs cl)).
Proof.
  revert cl. induction reqs as [|[[a ticks] r] reqs IH]; intros cl; cbn [handled]; [apply kept_refl|].
  eapply kept_trans; [|apply IH]. destruct (runAt _ _ _ _ cl) as [[cl' x]|] eqn:Hrun; [|apply kept_refl].
  by eapply (runAt_kept tick limits tick_le).
Qed.

(** [C8] A deployment of the demo serves what was put.  Processes set up by [main]
    that reach each other and have followed the directory to the state in which
    exactly they are registered have handled any requests (GET, PUT and DELETE of
    any keys at any processes, whatever they answered), one at a time.  Let key
    and value together have at most 131072 bytes, the budget of one shard, and
    let the key be valid UTF-8.  Then a PUT of the value, when it is not empty, to
    any process answers 200, and when only GETs of the key follow, each of them,
    at any process, answers 200 with the value, until 30 seconds after the PUT
    began. *)
Theorem demo_gets_see_put d (cl0 : cluster) reqs a bs key value ticks ticks' :
  deployed limits d (nodes cl0) → a ∈ dom (nodes cl0) → Forall (λ b, b ∈ dom (nodes cl0)) bs → key ≠ "" → value ≠ [] →
  validUTF8 (bytes_of key) = true → go_len key + Z.of_nat (length value) ≤ 131072 →
  let cl := handled reqs cl0 in
  ∃ cl', runAt tick limits a (apiCache a ticks (putRequest key value)) cl =
           Some (cl', Val (http_OK [Lit "cached key="; Lit key; Lit " value="; Lit (string_of value); Lit newline])) ∧
         getsShow bs ticks' key value (now cl + 30 * Second) cl'.
Proof.
  intros Hdep Ha Hbs Hk Hv Hutf Hlen cl. pose proof (handled_kept reqs cl0) as Hkept. fold cl in Hkept. pose proof Hkept as [Hdom Hkeeps].
  destruct (reads_see_set tick limits tick_le 100 "scores" cl a bs key value ticks ticks' (now cl + 30 * Second)) as (cl' & Hrun & Hreads);
    rewrite ?Hdom; [eapply kept_connected; [by eapply deployed_connected|done]|done..| | |].
  - intros n Hn. by eapply demo_messages.
  - intros n nd Hn _. assert (is_Some (nodes cl0 !! n)) as [nd0 Hn0] by (apply elem_of_dom; rewrite <-Hdom; by eapply elem_of_dom_2).
    pose proof (Hkeeps n nd0 nd Hn0 Hn) as K. destruct (deployed_node _ _ _ _ _ Hdep Hn0) as (Hc & Hg & _). unfold storable. rewrite (kp_cfg _ _ K), Hc.
    split; [|apply demo_deadline]. apply (kp_room _ _ K); rewrite Hg; [apply demoObj_wf|by apply demoObj_room].
  - exists cl'. split; [|by apply (gets_show bs ticks' key (mkByteView value))]. destruct value as [|z value]; [done|].
    apply (runAt_answers a (λ g, Set_ g ticks key (z :: value)) _ (λ e, match e with
      | Some err => http_Error (Error err) StatusBadGateway
      | None => http_OK [Lit "cached key="; Lit key; Lit " value="; Lit (string_of (z :: value)); Lit newline] end) _ _ _ Hrun).
    intros g. unfold apiCache. cbn [putRequest hr_key hr_method hr_body]. by rewrite decide_False.
Qed.

(** DELETE evicts and the next GET reloads.  In such a deployment a DELETE
    answers 200, whatever was put before, and then every GET of a key of the
    source, wherever it is sent, answers 200 with the source's value. *)
Theorem demo_gets_reload_after_delete d (cl : cluster) a b bs key text ticks ticks' :
  deployed limits d (nodes cl) → a ∈ dom (nodes cl) → Forall (λ b, b ∈ dom (nodes cl)) (b :: bs) → source !! key = Some text →
  ∃ cl' cl'', runAt tick limits a (apiCache a ticks (deleteRequest key)) cl =
                Some (cl', Val (http_OK [Lit "evicted key="; Lit key; Lit newline])) ∧
    runAt tick limits b (apiCache b ticks' (getRequest key)) cl' = Some (cl'', Val (shows b key (bytes_of text))) ∧
    getsShow bs ticks' key (bytes_of text) (now cl' + 30 * Second) cl''.
Proof.
  intros Hdep Ha [Hb Hbs]%Forall_cons Hsrc. assert (key ≠ "") as Hk by (intros ->; by vm_compute in Hsrc).
  assert (validUTF8 (bytes_of key) = true) as Hutf by (by apply (source_utf8 key text)).
  destruct (reads_after_delete tick limits tick_le 100 "scores" cl a bs key ticks ticks') as (cl' & Hrun & _ & Hload);
    [by eapply deployed_connected|done..| |].
  { intros n Hn. apply (demo_messages limits d (nodes cl) key [] n Hdep Hn Hutf). pose proof (source_small key text Hsrc). simpl. lia. }
  destruct (Hload b (bytes_of text) (now cl' + 30 * Second) Hb) as (cl'' & Hget & Hreads).
  - intros n nd Hn _. destruct (deployed_node _ _ _ _ _ Hdep Hn) as (Hc & Hg & Hs & _). unfold sourced, storable, quiet. rewrite Hc, Hg, Hs, demoObj_quiet.
    split_and!; [by rewrite demoObj_cfg|intros x _; unfold demoGetter, loadSource; by rewrite Hsrc|done|by apply demoObj_room, source_small|by apply demo_deadline|].
    apply (demo_messages limits d (nodes cl) key _ n Hdep); [by eapply elem_of_dom_2|done|by apply source_small].
  - exists cl', cl''. split_and!; [|by apply (api_get b ticks' key cl' cl'' (mkByteView (bytes_of text)))|by apply (gets_show bs ticks' key (mkByteView (bytes_of text)))].
    apply (runAt_answers a (λ g, Group.Delete g ticks key) _ (λ e, match e with
      | Some err => http_Error (Error err) StatusBadGateway
      | None => http_OK [Lit "evicted key="; Lit key; Lit newline] end) _ _ _ Hrun).
    intros g. unfold apiCache. cbn [deleteRequest hr_key hr_method hr_body]. by rewrite decide_False.
Qed.
End api.

(** ** Two processes on one machine *)

Definition w_demo_dir : directory :=
  {["/services/locache/localhost:8001" := "localhost:8001"; "/services/locache/localhost:8002" := "localhost:8002"]}.
Definition w_env : environment := mkEnvironment (inr []) (λ _ _, None) None reachable (inr (map_to_list w_demo_dir, 7)).

Definition w_demo_node (port : Z) : node (storeImpl ByteView) :=
  match main w_env port with
  | Some (Up s T g p) =>
      let x := default demoObj (objs T !! g) in mkNode (go_cfg x) (go_state x) p (λ _, demoGetter)
  | _ => mkNode (go_cfg demoObj) (go_state demoObj) w_none (λ _, demoGetter)
  end.

Definition w_demo_up (port : Z) (addr : string) : bool :=
  match main w_env port with
  | Some (Up s T g p) => bool_decide (Address s = addr ∧ groups T !! "scores" = Some g ∧ is_Some (objs T !! g))
  | _ => false
  end.

Lemma w_demo_process port addr : w_demo_up port addr = true → ∃ s, process w_env port s (w_demo_node port) ∧ Address s = addr.
Proof.
  unfold w_demo_up, process, w_demo_node. destruct (main w_env port) as [[|s T g p]|]; [done| |done].
  intros (Ha & Hg & x & Hx)%bool_decide_eq_true. exists s. split; [|done]. rewrite Hx. by exists T, g, p, x.
Qed.

Definition w_demo : cluster (storeImpl ByteView) :=
  mkCluster {["localhost:8001" := w_demo_node 8001; "localhost:8002" := w_demo_node 8002]} 0.

Lemma w_demo_dir_wf : dir_wf "locache" w_demo_dir.
Proof.
  unfold w_demo_dir. apply map_Forall_insert_2; [split; [done|reflexivity]|]. apply map_Forall_singleton. split; [done|reflexivity].
Qed.

Lemma w_demo_deployed : deployed w_limits w_demo_dir (nodes w_demo).
Proof.
  split.
  - exact w_demo_dir_wf.
  - cbn [w_demo nodes]. rewrite dom_insert_L, dom_singleton_L. vm_compute. reflexivity.
  - assert (∀ port addr, w_demo_up port addr = true → ∃ env port' s nd0 kvs rev d0,
      process env port' s nd0 ∧ addr = Address s ∧ w_limits addr = so_MaxMsgSize (sv_opts s) ∧ en_dial env = reachable ∧ en_snapshot env = inr (kvs, rev) ∧ dir_wf "locache" d0 ∧
      kvs ≡ₚ map_to_list d0 ∧ follows "locache" (nd_picker nd0) d0 (nd_picker (w_demo_node port)) w_demo_dir ∧
      w_demo_node port = mkNode (nd_cfg nd0) (nd_group nd0) (nd_picker (w_demo_node port)) (nd_source nd0)) as Hone.
    { intros port addr (s & Hp & Ha)%w_demo_process. exists w_env, port, s, (w_demo_node port), (map_to_list w_demo_dir), 7, w_demo_dir.
      split_and!; [done|done| |done..|apply w_demo_dir_wf|done|constructor|].
      { destruct (process_spec _ _ _ _ Hp) as (_ & _ & _ & _ & _ & Hmax). by rewrite Hmax. } by destruct (w_demo_node port). }
    intros n nd Hn. cbn [w_demo nodes] in Hn. rewrite lookup_insert_Some, lookup_singleton_Some in Hn.
    destruct Hn as [[<- <-]|(_ & <- & <-)]; apply Hone; vm_compute; reflexivity.
Qed.

Lemma w_demo_in n : n = "localhost:8001" ∨ n = "localhost:8002" → n ∈ dom (nodes w_demo).
Proof. cbn [w_demo nodes]. rewrite dom_insert_L, dom_singleton_L. set_solver. Qed.

(** A GET at a closed group: 502 with the group's error. *)
Lemma demo_api_status_witness :
  ∃ err, runs (Group.Get (go_cfg demoObj) (λ _, 0%nat) "Tom") [did EvClosed true] (Val (inl err)) ∧
         Error err = Error (Sentinel ErrGroupClosed).
Proof.
  pose (resp := http_Error (Error (Sentinel ErrGroupClosed)) StatusBadGateway).
  destruct (demo_api_status "localhost:8001" (λ _, 0%nat) (getRequest "Tom") (go_cfg demoObj) [did EvClosed true] resp)
    as [(H & _)|[(H & _)|[(H & _)|(_ & _ & err & Hb & [[_ Hget]|[[H _]|[H _]]])]]]; try discriminate.
  - exists true, []. split; [reflexivity|split; reflexivity].
  - exists err. split; [exact Hget|]. symmetry. exact (app_inv_tail _ _ _ Hb).
Defined.

(** After a DELETE of the key and a GET that loads it from the source. *)
Definition w_requests : list (string * (nat → nat) * httpRequest) :=
  [("localhost:8002", (λ _, 0%nat), deleteRequest "Tom"); ("localhost:8001", (λ _, 0%nat), getRequest "Tom")].

Lemma demo_gets_see_put_witness :
  let cl := @handled grpc_impl Z.succ w_limits w_requests w_demo in
  ∃ cl', @runAt _ _ grpc_impl Z.succ w_limits _ "localhost:8002" (apiCache "localhost:8002" (λ _, 0%nat) (putRequest "Tom" [57; 57; 57])) cl =
           Some (cl', Val (http_OK [Lit "cached key="; Lit "Tom"; Lit " value="; Lit "999"; Lit newline])) ∧
         @getsShow grpc_impl Z.succ w_limits ["localhost:8001"; "localhost:8002"] (λ _, 0%nat) "Tom" [57; 57; 57] (now cl + 30 * Second) cl'.
Proof.
  apply (@demo_gets_see_put grpc_impl Z.succ w_limits (λ t, Z.le_succ_diag_r t) w_demo_dir w_demo w_requests "localhost:8002"
    ["localhost:8001"; "localhost:8002"] "Tom" [57; 57; 57]).
  - exact w_demo_deployed.
  - apply w_demo_in. by right.
  - constructor; [apply w_demo_in; by left|]. constructor; [apply w_demo_in; by right|constructor].
  - done.
  - done.
  - by vm_compute.
  - by vm_compute.
Defined.

Lemma demo_gets_reload_after_delete_witness :
  ∃ cl' cl'', @runAt _ _ grpc_impl Z.succ w_limits _ "localhost:8001" (apiCache "localhost:8001" (λ _, 0%nat) (deleteRequest "Tom")) w_demo =
                Some (cl', Val (http_OK [Lit "evicted key="; Lit "Tom"; Lit newline])) ∧
    @runAt _ _ grpc_impl Z.succ w_limits _ "localhost:8002" (apiCache "localhost:8002" (λ _, 0%nat) (getRequest "Tom")) cl' =
      Some (cl'', Val (shows "localhost:8002" "Tom" [54; 51; 48])) ∧
    @getsShow grpc_impl Z.succ w_limits ["localhost:8001"] (λ _, 0%nat) "Tom" [54; 51; 48] (now cl' + 30 * Second) cl''.
Proof.
  apply (@demo_gets_reload_after_delete grpc_impl grpc_impl_laws Z.succ w_limits (λ t, Z.le_succ_diag_r t) w_demo_dir w_demo
    "localhost:8001" "localhost:8002" ["localhost:8001"] "Tom" "630").
  - exact w_demo_deployed.
  - apply w_demo_in. by left.
  - constructor; [apply w_demo_in; by right|]. constructor; [apply w_demo_in; by left|constructor].
  - reflexivity.
Defined.
